(* ===== verification/_CoqProject ===== *)
-Q . S2P
Prelude.v
Intrusive.v
IntrusiveHeap.v
IntrusiveProps.v
Util.v
Timeout.v
Perf.v
Policy.v
ObjectPool.v
Protocol.v
Driver.v
SenderMessage.v
Sender.v
SenderInv.v
SenderHandlers.v
SenderSend.v
SenderTimers.v
SenderLoop.v
SenderSystem.v
Sample.v
SenderProps.v
ReceiverMessage.v
Receiver.v
ReceiverSchedule.v
ReceiverInv.v
ReceiverSteps.v
ReceiverHandlers.v
ReceiverTimers.v
ReceiverGrants.v
ReceiverSystem.v
ReceiverSample.v
ReceiverTeardown.v
ReceiverProps.v
Transfer.v
TransferProps.v
LostTail.v
Wire.v
Maintains.v
Outgoing.v
Incoming.v
Steady.v
Transport.v
TransportSystem.v
TransportProps.v
Host.v
Network.v
Service.v
NetworkSample.v
NetworkProps.v
Float.v
QueueEstimator.v
FakeDriver.v
StringUtil.v
Debug.v
SpinLock.v
Locking.v
Address.v
HexDump.v
CodeLocation.v
Dpdk.v
DpdkInv.v
DpdkSend.v
DpdkReceive.v
DpdkSample.v
DpdkProps.v
DpdkInit.v
ThreadId.v
Tub.v
LogOutput.v
STLUtil.v
UnitTest.v
IntrusiveTest.v
SenderTest.v
ReceiverTest.v
UtilityTests.v
DebugTest.v
DriverTests.v
