(* ===== verification/Prelude.v ===== *)
(** * Homa: a verification library for the Homa transport

    Homa is a receiver-driven message transport.  An application builds a
    message, the Sender cuts it into DATA packets and sends the first ones
    unasked; the Receiver of the peer assembles the message and asks for the
    rest with GRANTs, shortest remaining message first.  Lost packets are asked
    for again with RESENDs, and PING, BUSY, UNKNOWN, DONE and ERROR keep the two
    sides in agreement.  This library models that core and proves it correct.

    ** The files, and the code they model

    - Prelude.v (this file): results and faults, the state monad of an operation
      and its weakest preconditions [wp], machine integers, record update,
      buffers, lists ordered by a key, tactics.
    - Intrusive.v, IntrusiveHeap.v, IntrusiveProps.v: src/src/Intrusive.h.
      IntrusiveHeap has the nodes and pointers of the lists; Intrusive the
      sequences that they stand for.  IntrusiveProps shows that any sequence of
      calls on the pointers does what it says on the sequences; the other files
      then use sequences.
    - Util.v (src/include/Homa/Util.h), Timeout.v (src/src/Timeout.h), Perf.v
      (src/src/Perf.cc), Policy.v (src/src/Policy.cc), ObjectPool.v
      (src/src/ObjectPool.h), Protocol.v (src/src/Protocol.h): the small parts
      that the Sender and the Receiver share.
    - Driver.v: src/include/Homa/Driver.h and src/src/ControlPacket.h.  The
      transport is written against the interface of a driver: here a class of
      parameters [Driver] (payload size, clock, queue length, bandwidth, hash) with
      laws [DriverLaws], and a trace of the packets sent and released.
    - SenderMessage.v, Sender.v: src/src/Sender.h and Sender.cc, the outgoing
      message and the Sender.  SenderInv.v states the invariant and how each
      primitive keeps it; SenderHandlers.v, SenderSend.v, SenderTimers.v and
      SenderLoop.v give each operation its specification; SenderSystem.v joins
      them: the calls the interface allows, the states they reach.  SenderProps.v
      states what follows, Sample.v has the concrete Sender of the witnesses.
    - ReceiverMessage.v, Receiver.v: src/src/Receiver.h and Receiver.cc, the
      incoming message and the Receiver.  ReceiverSchedule.v has the order of the
      schedule, ReceiverInv.v the invariant and ReceiverSteps.v the changes of a
      message and its place in the schedule; ReceiverHandlers.v, ReceiverTimers.v
      and ReceiverGrants.v give each operation its specification, ReceiverSystem.v
      the calls the interface allows, ReceiverProps.v what follows, and
      ReceiverSample.v the concrete Receiver of the witnesses.  ReceiverTeardown.v
      is the destructor.
    - Transfer.v, TransferProps.v: the two ends together.  The packets that
      sendMessage prepares carry the message to a Receiver.  LostTail.v: one that
      does not arrive, and is asked for in vain.
    - Steady.v: what every operation of the Sender and the Receiver leaves alone
      (the settings), and that clock and trace only grow.  Transport.v,
      TransportSystem.v, TransportProps.v: src/src/TransportImpl.cc, the Sender and
      the Receiver of one host on the driver and the policies that they share.
    - Network.v, NetworkProps.v: any number of transports, each with its driver, and
      a network that loses, delays, duplicates and reorders packets.  Wire.v says
      what it is for a packet to agree with the log of the messages that were sent
      and acknowledged, Maintains.v has the rules for invariants of a computation,
      Outgoing.v shows that all that a Sender sends agrees with the log, Incoming.v
      that what a Receiver assembles does, and Host.v joins them for one transport.
      Service.v is the abstract service that the network refines: its states, the
      observations it accepts, and the simulation.  NetworkSample.v runs two hosts
      for the witnesses.
    - SpinLock.v (src/src/SpinLock.h): the lock, and threads that interleave.
      Locking.v: the locks that each call of Sender.cc and Receiver.cc takes.
    - FakeDriver.v: src/src/Drivers/Fake/FakeDriver.cc, the network of the tests.
      Float.v, QueueEstimator.v: src/include/Homa/Drivers/Util/QueueEstimator.h, the
      estimate of the bytes in a transmit queue, in binary64 arithmetic.
    - Dpdk.v: src/src/Drivers/DPDK/DpdkDriverImpl.cc, the driver for real NICs, over
      the functions of the DPDK library: a class of parameters [Dpdk] whose
      documented behaviour is the class [DpdkLaws] of DpdkInv.v, next to the
      driver's invariant.  DpdkSend.v and DpdkReceive.v give its operations their
      specifications, DpdkProps.v what follows; DpdkSample.v is a library on which
      the laws hold.  DpdkInit.v: the construction of the driver.  Address.v:
      src/src/Driver.cc and src/src/Drivers/DPDK/MacAddress.cc.
    - StringUtil.v, Debug.v, ThreadId.v, Tub.v, HexDump.v, STLUtil.v:
      src/src/StringUtil.cc, Debug.cc, ThreadId.cc, Tub.h, Util.cc and STLUtil.h.
      LogOutput.v has the output of log() and the macro LOG, which asks the policy of
      Debug.v and names the thread with ThreadId.v.  CodeLocation.v:
      src/src/CodeLocation.cc and src/include/Homa/Exception.h.
    - UnitTest.v, IntrusiveTest.v, SenderTest.v, ReceiverTest.v, DebugTest.v,
      UtilityTests.v, DriverTests.v: the unit tests of src/src/*Test.cc, run on the
      definitions of the other files.

    ** How state and operations correspond to the code

    A class is a record of its fields; a method is a definition of the same name
    in the monad [M State].  An object on the heap is named by a [ptr] and held in
    the map of the ObjectPool that owns it; an intrusive list is the sequence of
    the names of its elements, and an element's membership is what [contains]
    computes.  The packets of a message are a map from index to packet.  Failing
    assertions, PANIC, exceptions, access to dead objects and the destruction of
    linked nodes are faults, so a theorem that gives a [wp] says that none of them
    happens.  Integers are [Z] with the conversions of the code written out.

    An operation takes its locks for its whole body, so it is a step; trySend,
    which drops the queue lock between its two halves, is two steps.  SpinLock.v
    shows that the lock gives this isolation, Locking.v that the locks are taken in
    an order that excludes deadlock.  trySend_races shows two interleavings that
    the locks of the code do not exclude.

    ** What the theorems show

    - Every allowed call of the Sender, the Receiver and the transport returns in
      every reachable state and keeps the invariant.
    - The effect of each call and packet on the message it is about, on every
      branch, and that other messages keep theirs.
    - Scheduling: the Sender sends shortest remaining message first; the Receiver
      grants to the first messages of its peers, shortest remaining first, within
      the bounds of the policy; the queues of both stay exact and in order.
    - Data: append, prepend and reserve build the bytes of the message; headers
      are read back as they were written; get copies the bytes of the assembled
      message; and a message that was sent arrives with its bytes, whatever the
      order and the number of times its packets are delivered.
    - The network: whatever it does with the packets that transports send, every call
      at every host returns; a message that is received is one that was sent, to this
      host, with its bytes; and one that its Sender reports as completed was
      received and acknowledged at its destination before.  All that applications
      observe is a trace of the abstract service.  A message may be received twice,
      though, also with the option that is documented to exclude it.
    - Timeouts: which messages expire, which packets are asked for again, and that
      no elapsed timeout is left behind.
    - Packet buffers: each packet that arrives is released or kept in a message,
      unless its opcode is unknown.
    - Locks exclude each other, and threads never block each other for good.
    - The DPDK driver: every allowed call returns and keeps the count of mbufs, the
      ownership of buffers and the count of buffered bytes exact; the frame that is
      sent is the one that is parsed; what is corked waits in order; what overflow
      buffers lose; and a construction that returns ends in a state where this
      holds.  The estimate of queued bytes never exceeds what was signalled.
    - The destructor of a Receiver gives back every packet and every message.
    - The unit tests of the repository pass on the model: its definitions give the
      results that the code is tested for.
    - The fake network delivers; LOG outputs what the policy asks for; log policies
      are read back as they were written, and the cache of log levels cannot be
      observed.

    ** Fuel

    Loops have fuel where the recursion is not structural: the length of the list
    plus one for the loops over timeouts and over the queue, the bytes to copy for
    get.  The [wp] theorems show that it suffices, since running out is a fault.

    ** Not modelled

    format() and demangle, which call printf and the C++ runtime; DpdkDriver.cc,
    which forwards each call to its Impl, and the destructors that only call DPDK or
    have an empty body; regular expressions for names that are not identifiers; the
    memory model of the atomics, which are taken as sequentially consistent.  Of the
    tests: what they expect of log messages, those of TransportImpl, which only count
    the calls of mock objects, that of the DPDK driver, which no target builds, and
    the programs under src/test. *)

From stdpp Require Export base functions gmap list numbers strings sorting.
From Stdlib Require Export ZArith Lia.

#[global] Open Scope Z_scope.
#[export] Set Warnings "-clear-no-such-hyp".

(** ** Faults and the result type

    A C++ operation either returns or ends the process.  [AssertFailed] is a
    failing [assert]; [Panicked] is the PANIC macro; [OutOfRange] is the
    exception thrown by [std::bitset::test] and [std::vector::at];
    [BadPointer] is an access through a pointer to no live object;
    [NodeLinked] is the destruction of an intrusive node that is still linked
    (the assertion of [List::Node::~Node]); [OutOfFuel] is not a behaviour of
    the code: it marks a loop that was cut off, and the termination theorems
    show that it does not occur. *)
Inductive Fault :=
  | AssertFailed
  | Panicked
  | OutOfRange
  | BadPointer
  | NodeLinked
  | OutOfFuel.

#[global] Instance Fault_eq_dec : EqDecision Fault.
Proof. solve_decision. Defined.

Inductive Result (A : Type) :=
  | Ok (a : A)
  | Error (e : Fault).
Arguments Ok {A} a.
Arguments Error {A} e.

#[global] Instance Result_ret : MRet Result := fun _ a => Ok a.
#[global] Instance Result_bind : MBind Result :=
  fun _ _ f r => match r with Ok a => f a | Error e => Error e end.

Definition is_ok {A} (r : Result A) : bool :=
  match r with Ok _ => true | Error _ => false end.

(** ** The state monad of an operation *)

Definition M (St A : Type) : Type := St -> Result (A * St).

#[global] Instance M_ret {St} : MRet (M St) := fun _ a s => Ok (a, s).
#[global] Instance M_bind {St} : MBind (M St) :=
  fun _ _ f m s => match m s with Ok (a, s') => f a s' | Error e => Error e end.

Definition fault {St A} (e : Fault) : M St A := fun _ => Error e.
Definition get {St} : M St St := fun s => Ok (s, s).
Definition gets {St A} (f : St -> A) : M St A := fun s => Ok (f s, s).
Definition modify {St} (f : St -> St) : M St unit := fun s => Ok (tt, f s).
(** [assert(b)]. *)
Definition check {St} (b : bool) : M St unit :=
  if b then mret tt else fault AssertFailed.
Definition lift {St A} (r : Result A) : M St A :=
  fun s => match r with Ok a => Ok (a, s) | Error e => Error e end.
(** [if (b) m], with no else branch. *)
Definition when {St} (b : bool) (m : M St unit) : M St unit :=
  if b then m else mret tt.
(** Runs an operation of a part of the state. *)
Definition zoom {St T A} (proj : St -> T) (inj : T -> St -> St) (m : M T A) : M St A :=
  fun s => match m (proj s) with
           | Ok (a, t) => Ok (a, inj t s)
           | Error e => Error e
           end.
(** [for (x : l) body(x)]. *)
Fixpoint for_each {St A} (l : list A) (body : A -> M St unit) : M St unit :=
  match l with
  | [] => mret tt
  | x :: l' => _ ← body x; for_each l' body
  end.

(** ** Weakest preconditions

    [wp m s Q]: run from [s], [m] returns (it does not fault) and its result
    and final state satisfy [Q]. *)
Definition wp {St A} (m : M St A) (s : St) (Q : A -> St -> Prop) : Prop :=
  match m s with Ok (a, s') => Q a s' | Error _ => False end.

Section wp.
Context {St : Type}.

Lemma wp_bind {A B} (m : M St A) (f : A -> M St B) s Q :
  wp (m ≫= f) s Q <-> wp m s (fun a s' => wp (f a) s' Q).
Proof. unfold wp, mbind, M_bind. by destruct (m s) as [[]|]. Qed.

Lemma wp_ret {A} (a : A) s (Q : A -> St -> Prop) : wp (mret a) s Q <-> Q a s.
Proof. done. Qed.

Lemma wp_get s (Q : St -> St -> Prop) : wp get s Q <-> Q s s.
Proof. done. Qed.
Lemma wp_gets {A} (f : St -> A) s (Q : A -> St -> Prop) : wp (gets f) s Q <-> Q (f s) s.
Proof. done. Qed.
Lemma wp_modify (f : St -> St) s (Q : unit -> St -> Prop) : wp (modify f) s Q <-> Q tt (f s).
Proof. done. Qed.

Lemma wp_mono {A} (m : M St A) s (Q Q' : A -> St -> Prop) :
  wp m s Q -> (forall a s', Q a s' -> Q' a s') -> wp m s Q'.
Proof. unfold wp. destruct (m s) as [[]|]; eauto. Qed.

Lemma for_each_app {A} (l1 l2 : list A) (f : A -> M St unit) s :
  for_each (l1 ++ l2) f s = (_ ← for_each l1 f; for_each l2 f) s.
Proof.
  revert s. induction l1 as [|x l1 IH]; intros s; [done|]. simpl. unfold mbind, M_bind in *.
  destruct (f x s) as [[u s1]|]; [|done]. apply IH.
Qed.

(** The first of two operations fails, or the second one. *)
Lemma bind_error_first {A B} (m : M St A) (f : A -> M St B) s e : m s = Error e -> (m ≫= f) s = Error e.
Proof. unfold mbind, M_bind. by intros ->. Qed.
Lemma bind_error {A B} (m : M St A) (f : A -> M St B) s e :
  wp m s (fun a s1 => f a s1 = Error e) -> (m ≫= f) s = Error e.
Proof. unfold wp, mbind, M_bind. by destruct (m s) as [[]|]. Qed.

Lemma wp_check b s (Q : unit -> St -> Prop) :
  b = true -> Q tt s -> wp (check b) s Q.
Proof. by intros ->. Qed.

Lemma wp_assoc {B} (m1 m2 : M St unit) (k : M St B) s Q :
  wp (_ ← (_ ← m1; m2); k) s Q -> wp (_ ← m1; _ ← m2; k) s Q.
Proof. unfold wp, mbind, M_bind. by destruct (m1 s) as [[]|]. Qed.

Lemma wp_zoom {T A} (proj : St -> T) (inj : T -> St -> St) (m : M T A) s Q :
  wp (zoom proj inj m) s Q <-> wp m (proj s) (fun a t => Q a (inj t s)).
Proof. unfold wp, zoom. by destruct (m (proj s)) as [[]|]. Qed.

Lemma wp_ok {A} (m : M St A) s Q :
  wp m s Q -> exists a s', m s = Ok (a, s') /\ Q a s'.
Proof. unfold wp. destruct (m s) as [[a s']|]; [eauto|done]. Qed.

Lemma wp_and {A} (m : M St A) s (Q1 Q2 : A -> St -> Prop) :
  wp m s Q1 -> wp m s Q2 -> wp m s (fun a s' => Q1 a s' /\ Q2 a s').
Proof. unfold wp. by destruct (m s) as [[]|]. Qed.

(** The result, remembered. *)
Lemma wp_remember {A} (m : M St A) s Q : wp m s (fun a s' => m s = Ok (a, s') -> Q a s') -> wp m s Q.
Proof. unfold wp. destruct (m s) as [[a s']|]; [|done]. intros HQ. by apply HQ. Qed.

Lemma wp_is_ok {A} (m : M St A) s Q : wp m s Q -> is_ok (m s) = true.
Proof. unfold wp. by destruct (m s). Qed.

(** The loop rule of [for_each]: [I] holds of the elements still to do. *)
Lemma wp_for_each {A} (I : list A -> St -> Prop) (body : A -> M St unit) l s
    (Q : unit -> St -> Prop) :
  I l s ->
  (forall x l' s', I (x :: l') s' -> wp (body x) s' (fun _ s'' => I l' s'')) ->
  (forall s', I [] s' -> Q tt s') ->
  wp (for_each l body) s Q.
Proof.
  intros HI Hstep Hdone. revert s HI.
  induction l as [|x l IH]; intros s HI; simpl; [by apply Hdone|].
  apply wp_bind. eapply wp_mono; [by apply Hstep|]. intros ? s' ?. by apply IH.
Qed.
End wp.

Lemma bind_Ok {St A B} (m : M St A) (f : A -> M St B) s b s' :
  (m ≫= f) s = Ok (b, s') ->
  exists a s1, m s = Ok (a, s1) /\ f a s1 = Ok (b, s').
Proof. unfold mbind, M_bind. destruct (m s) as [[a s1]|]; [eauto|done]. Qed.

(** ** Machine integers

    An integer of the code is a [Z]; [uN]/[iN] is the conversion to the N-bit
    type, and wraps the way the hardware does. *)
Definition u8 (z : Z) : Z := z mod 2 ^ 8.
Definition u16 (z : Z) : Z := z mod 2 ^ 16.
Definition u32 (z : Z) : Z := z mod 2 ^ 32.
Definition u64 (z : Z) : Z := z mod 2 ^ 64.
Definition i32 (z : Z) : Z := (z + 2 ^ 31) mod 2 ^ 32 - 2 ^ 31.
Definition UINT64_MAX : Z := 2 ^ 64 - 1.

Lemma u8_small z : 0 <= z < 2 ^ 8 -> u8 z = z.
Proof. apply Z.mod_small. Qed.
Lemma u16_small z : 0 <= z < 2 ^ 16 -> u16 z = z.
Proof. apply Z.mod_small. Qed.
Lemma u32_small z : 0 <= z < 2 ^ 32 -> u32 z = z.
Proof. apply Z.mod_small. Qed.
Lemma u64_small z : 0 <= z < 2 ^ 64 -> u64 z = z.
Proof. apply Z.mod_small. Qed.
Lemma i32_small z : - 2 ^ 31 <= z < 2 ^ 31 -> i32 z = z.
Proof. intros. unfold i32. rewrite Z.mod_small; lia. Qed.
Lemma u16_range z : 0 <= u16 z < 2 ^ 16.
Proof. by apply Z.mod_pos_bound. Qed.
Lemma u32_range z : 0 <= u32 z < 2 ^ 32.
Proof. by apply Z.mod_pos_bound. Qed.
Lemma u64_range z : 0 <= u64 z < 2 ^ 64.
Proof. by apply Z.mod_pos_bound. Qed.
Lemma i32_range z : - 2 ^ 31 <= i32 z < 2 ^ 31.
Proof. unfold i32. pose proof (Z.mod_pos_bound (z + 2 ^ 31) (2 ^ 32)). lia. Qed.

(** ** Record update: [r <| f := v |>] and [r <| f ::= g |>]

    [Eta R] is the eta expansion of a record value; the setter of a projection
    is found by abstracting that projection in it. *)
Class Eta (R : Type) := eta : R -> R.
Class Setter {R T : Type} (proj : R -> T) := over : (T -> T) -> R -> R.
Arguments over {R T} proj {_} f r : simpl never.

Ltac build_setter :=
  match goal with
  | |- @Setter ?R ?T ?proj =>
      let e := constr:(_ : Eta R) in
      let e := eval cbv beta in e in
      let e := eval hnf in e in
      match eval pattern proj in e with
      | ?F proj => let t := eval cbv beta in (fun (g : T -> T) => F (fun r : R => g (proj r))) in
                   exact t
      end
  end.
#[export] Hint Extern 1 (Setter _) => build_setter : typeclass_instances.

Declare Scope homa_scope.
Delimit Scope homa_scope with homa.
Notation "r <| f ::= g |>" := (over f g r)
  (at level 1, f at level 11, g at level 200, left associativity,
   format "r  <| f  ::=  g |>") : homa_scope.
Notation "r <| f := v |>" := (over f (fun _ => v) r)
  (at level 1, f at level 11, v at level 200, left associativity,
   format "r  <| f  :=  v |>") : homa_scope.
#[global] Open Scope homa_scope.

(** ** Buffers: reading and writing a range of a list *)

Definition slice {A} (off len : Z) (l : list A) : list A :=
  take (Z.to_nat len) (drop (Z.to_nat off) l).

(** [memcpy(l + off, bs, |bs|)]. *)
Definition write_at {A} (off : Z) (bs l : list A) : list A :=
  take (Z.to_nat off) l ++ bs ++ drop (Z.to_nat off + length bs) l.

Definition zlength {A} (l : list A) : Z := Z.of_nat (length l).

Arguments zlength {A} l : simpl never.
Arguments slice {A} off len l : simpl never.
Arguments write_at {A} off bs l : simpl never.

Section buffers.
Context {A : Type}.
Implicit Types (l bs : list A) (i : nat) (off len : Z).

Lemma filter_all (P : A -> Prop) `{!forall x, Decision (P x)} l : Forall P l -> filter P l = l.
Proof. induction 1 as [|x l Hx _ IH]; [done|]. by rewrite filter_cons_True, IH. Qed.
Lemma filter_none (P : A -> Prop) `{!forall x, Decision (P x)} l : Forall (fun x => ~ P x) l -> filter P l = [].
Proof. induction 1 as [|x l Hx _ IH]; [done|]. by rewrite filter_cons_False. Qed.
Lemma filter_ext_in (P Q : A -> Prop) `{!forall x, Decision (P x)} `{!forall x, Decision (Q x)} l :
  (forall x, x ∈ l -> P x <-> Q x) -> filter P l = filter Q l.
Proof.
  induction l as [|x l IH]; intros Hpq; [done|]. rewrite !filter_cons, IH by (intros; apply Hpq; by right).
  specialize (Hpq x ltac:(by left)). case_decide; case_decide; tauto.
Qed.
Lemma zlength_nonneg l : 0 <= zlength l.
Proof. unfold zlength. lia. Qed.

Lemma zlength_app l bs : zlength (l ++ bs) = zlength l + zlength bs.
Proof. unfold zlength. rewrite length_app. lia. Qed.

Lemma lookup_slice off len l i :
  (i < Z.to_nat len)%nat -> slice off len l !! i = l !! (Z.to_nat off + i)%nat.
Proof. intros. unfold slice. rewrite lookup_take_lt by done. apply lookup_drop. Qed.

Lemma length_slice off len l :
  0 <= off -> 0 <= len -> off + len <= zlength l ->
  length (slice off len l) = Z.to_nat len.
Proof. unfold slice, zlength. intros. rewrite length_take, length_drop. lia. Qed.

Lemma zlength_slice off len l :
  0 <= off -> 0 <= len -> off + len <= zlength l -> zlength (slice off len l) = len.
Proof. intros. unfold zlength. rewrite length_slice by done. lia. Qed.

Lemma length_write_at off bs l :
  0 <= off -> off + zlength bs <= zlength l -> length (write_at off bs l) = length l.
Proof.
  unfold write_at, zlength. intros. rewrite !length_app, length_take, length_drop. lia.
Qed.

Lemma zlength_write_at off bs l :
  0 <= off -> off + zlength bs <= zlength l -> zlength (write_at off bs l) = zlength l.
Proof. intros. unfold zlength. by rewrite length_write_at. Qed.

Lemma slice_app_l off len l bs :
  0 <= off -> 0 <= len -> off + len <= zlength l ->
  slice off len (l ++ bs) = slice off len l.
Proof.
  unfold slice, zlength. intros.
  rewrite drop_app_le by lia. rewrite take_app_le by (rewrite length_drop; lia). done.
Qed.

Lemma slice_app_r off len l bs :
  zlength l <= off -> slice off len (l ++ bs) = slice (off - zlength l) len bs.
Proof.
  unfold slice, zlength. intros. rewrite drop_app_ge by lia. do 2 f_equal. lia.
Qed.

Lemma slice_all l n : n = zlength l -> slice 0 n l = l.
Proof. intros ->. unfold slice, zlength. rewrite Nat2Z.id. apply firstn_all. Qed.

Lemma slice_nil off len l : len <= 0 -> slice off len l = [].
Proof. intros. unfold slice. replace (Z.to_nat len) with 0%nat by lia. done. Qed.

Lemma slice_split off n1 n2 l :
  0 <= off -> 0 <= n1 -> 0 <= n2 ->
  slice off (n1 + n2) l = slice off n1 l ++ slice (off + n1) n2 l.
Proof.
  unfold slice. intros. rewrite !Z2Nat.inj_add by lia.
  rewrite <- drop_drop. by rewrite <- take_take_drop.
Qed.

(** The range that was written reads back. *)
Lemma slice_write_at_same off bs l :
  0 <= off -> off <= zlength l -> slice off (zlength bs) (write_at off bs l) = bs.
Proof.
  unfold slice, write_at, zlength. intros. rewrite Nat2Z.id.
  rewrite drop_app_length' by (rewrite length_take; lia).
  by rewrite take_app_length.
Qed.

(** A range before the written one is untouched. *)
Lemma slice_write_at_before off len woff bs l :
  0 <= off -> 0 <= len -> off + len <= woff -> woff <= zlength l ->
  slice off len (write_at woff bs l) = slice off len l.
Proof.
  intros. unfold write_at.
  rewrite slice_app_l by (unfold zlength in *; rewrite ?length_take; lia).
  unfold slice. rewrite <- (take_drop (Z.to_nat woff) l) at 2.
  unfold zlength in *.
  rewrite drop_app_le, take_app_le by (rewrite ?length_drop, ?length_take; lia). done.
Qed.

(** A range after the written one is untouched. *)
Lemma slice_write_at_after off len woff bs l :
  0 <= woff -> woff + zlength bs <= off -> woff + zlength bs <= zlength l ->
  slice off len (write_at woff bs l) = slice off len l.
Proof.
  unfold slice, write_at, zlength. intros. f_equal.
  rewrite app_assoc, drop_app_ge by (rewrite length_app, length_take; lia).
  rewrite drop_drop, length_app, length_take. f_equal. lia.
Qed.
End buffers.

(** Reading a list back by position. *)
Lemma omap_seqZ {A} (f : Z -> option A) (l : list A) a :
  (forall i, (i < length l)%nat -> f (a + Z.of_nat i) = l !! i) ->
  omap f (seqZ a (zlength l)) = l.
Proof.
  revert a. induction l as [|x l IH]; intros a Hf; [done|].
  unfold zlength. simpl length. rewrite seqZ_cons by lia. simpl.
  pose proof (Hf 0%nat ltac:(simpl; lia)) as H0. simpl in H0.
  rewrite Z.add_0_r in H0. rewrite H0. f_equal.
  replace (Z.pred (Z.of_nat (S (length l)))) with (zlength l) by (unfold zlength; lia).
  apply IH. intros i Hi. specialize (Hf (S i) ltac:(simpl; lia)). simpl in Hf. rewrite <- Hf.
  f_equal. lia.
Qed.

Lemma omap_ext_elem {A B} (f g : A -> option B) (l : list A) :
  (forall x, x ∈ l -> f x = g x) -> omap f l = omap g l.
Proof.
  induction l as [|x l IH]; intros Hfg; simpl; [done|].
  rewrite (Hfg x) by (by left).
  assert (omap f l = omap g l) as Heq by (apply IH; intros y Hy; apply Hfg; by right).
  destruct (g x); [f_equal|]; apply Heq.
Qed.

(** Changing an entry that is there is setting it. *)
Lemma alter_is_insert `{Countable K} {A} (p : K) (f : A -> A) (m : A) (h : gmap K A) :
  h !! p = Some m -> alter f p h = <[p := f m]> h.
Proof.
  intros Hp. apply map_eq. intros q. destruct (decide (q = p)) as [->|Hq].
  - by rewrite lookup_alter_eq, lookup_insert_eq, Hp.
  - by rewrite lookup_alter_ne, lookup_insert_ne.
Qed.

(** ** Lists ordered by a key *)

Definition sorted_by {A} (key : A -> Z) (l : list A) : Prop :=
  StronglySorted (fun x y => key x <= key y) l.

Section sorted_by.
Context {A : Type} (key : A -> Z).
Implicit Types (l : list A).

Lemma sorted_by_nil : sorted_by key [].
Proof. constructor. Qed.

Lemma sorted_by_cons x l :
  sorted_by key (x :: l) <-> sorted_by key l /\ forall y, y ∈ l -> key x <= key y.
Proof.
  unfold sorted_by. split.
  - intros H. apply StronglySorted_inv in H as [? H]. rewrite Forall_forall in H. done.
  - intros [? ?]. constructor; [done|]. by apply Forall_forall.
Qed.

Lemma sorted_by_app l1 l2 :
  sorted_by key (l1 ++ l2) <->
  sorted_by key l1 /\ sorted_by key l2 /\
  forall x y, x ∈ l1 -> y ∈ l2 -> key x <= key y.
Proof.
  induction l1 as [|a l1 IH]; simpl.
  - split; [|tauto]. intros. split_and!; [constructor|done|].
    intros x y Hx. by apply elem_of_nil in Hx.
  - rewrite !sorted_by_cons, IH. split.
    + intros [(?&?&Hle) Ha]. split_and!; [done| |done|].
      * intros. apply Ha, elem_of_app; auto.
      * intros x y [->|Hx]%elem_of_cons Hy; [apply Ha, elem_of_app; auto|auto].
    + intros ([??]&?&Hle). split_and!; [done|done| |].
      * intros. apply Hle; [by right|done].
      * intros y [?|?]%elem_of_app; [auto|apply Hle; [by left|done]].
Qed.

(** Changing the key of elements that are not in the list. *)
Lemma sorted_by_ext (key' : A -> Z) l :
  (forall x, x ∈ l -> key x = key' x) -> sorted_by key l -> sorted_by key' l.
Proof.
  intros Hk. induction l as [|x l IH]; [intros _; constructor|].
  rewrite sorted_by_cons. intros [Hs Hx]. constructor.
  - apply IH; [|done]. intros. apply Hk. by right.
  - apply Forall_forall. intros y Hy.
    rewrite <- !Hk by (by constructor). auto.
Qed.

Lemma sorted_by_remove l1 x l2 :
  sorted_by key (l1 ++ x :: l2) -> sorted_by key (l1 ++ l2).
Proof.
  rewrite !sorted_by_app, sorted_by_cons. intros (Hs1&[Hs2 _]&Hle). split_and!; [done..|].
  intros ????. apply Hle; [done|by right].
Qed.
End sorted_by.

(** ** Automation shared by the component files *)

Create HintDb homa discriminated.
Create Rewrite HintDb homa_length.
#[export] Hint Constants Opaque : homa.
#[export] Hint Resolve sorted_by_nil zlength_nonneg : homa.
#[export] Hint Rewrite @zlength_app @length_app @length_take @length_drop : homa_length.

(** Case analysis on the tests of a handler. *)
Ltac bool_to_prop :=
  repeat match goal with
  | H : (_ && _) = true |- _ => apply andb_true_iff in H as [? ?]
  | H : (_ || _) = false |- _ => apply orb_false_iff in H as [? ?]
  | H : negb _ = true |- _ => apply negb_true_iff in H
  | H : negb _ = false |- _ => apply negb_false_iff in H
  | H : (_ <? _) = true |- _ => apply Z.ltb_lt in H
  | H : (_ <? _) = false |- _ => apply Z.ltb_ge in H
  | H : (_ <=? _) = true |- _ => apply Z.leb_le in H
  | H : (_ <=? _) = false |- _ => apply Z.leb_gt in H
  | H : (_ =? _) = true |- _ => apply Z.eqb_eq in H
  | H : (_ =? _) = false |- _ => apply Z.eqb_neq in H
  | H : bool_decide _ = true |- _ => apply bool_decide_eq_true in H
  | H : bool_decide _ = false |- _ => apply bool_decide_eq_false in H
  end.
Ltac case_bool :=
  match goal with
  | |- context [if ?b then _ else _] => let H := fresh "Hb" in destruct b eqn:H
  end; bool_to_prop; try (exfalso; (done || lia)).

(** One step of a [wp] goal over the monad's primitives. *)
Ltac wp_step :=
  lazymatch goal with
  | |- wp (mbind _ _) _ _ => apply wp_bind
  | |- wp (check _) _ _ => apply wp_check
  | |- wp (zoom _ _ _) _ _ => apply wp_zoom
  | |- wp (when ?b _) _ _ => unfold when
  | |- wp (mret _) _ _ => apply wp_ret
  | |- wp (gets _) _ _ => apply wp_gets
  | |- wp (modify _) _ _ => apply wp_modify
  | |- wp get _ _ => apply wp_get
  end; cbv beta.
