(* ===== verification/Intrusive.v ===== *)
(** * Intrusive: the order-restoring operations on lists (src/src/Intrusive.h)

    [prioritize] and [deprioritize] on the sequence of elements of an
    [Intrusive::List].  The pointer-level list and the proof that its loops
    compute these functions are in IntrusiveHeap.v; the Sender's and the
    Receiver's queues use the functions of this file. *)

From S2P Require Import Prelude.

Section ordering.
Context {A : Type} `{EqDecision A}.
Implicit Types (x y : A) (l pre post : list A).

(** The elements before and after the first occurrence of [x]: what the
    iterator [list->get(node)] has on its two sides. *)
Fixpoint split_at x l : list A * list A :=
  match l with
  | [] => ([], [])
  | y :: l' => if decide (y = x) then ([], l')
               else let '(pre, post) := split_at x l' in (y :: pre, post)
  end.

(** The list without [x] (an element occurs at most once). *)
Definition list_remove x l : list A :=
  let '(pre, post) := split_at x l in pre ++ post.

Variable comp : A -> A -> bool.

(** The loop of [prioritize]: [rpre] is what lies before [it_pos], nearest
    first, and [passed] what lies between [it_pos] and the element. *)
Fixpoint walk_back x (rpre passed : list A) : list A * list A :=
  match rpre with
  | [] => ([], passed)
  | y :: rpre' => if comp x y then walk_back x rpre' (y :: passed) else (rpre, passed)
  end.

Definition prioritize x l : list A :=
  let '(pre, post) := split_at x l in
  let '(rpre, passed) := walk_back x (reverse pre) [] in
  reverse rpre ++ x :: passed ++ post.

(** The loop of [deprioritize]: [post] is what lies from [it_pos] on. *)
Fixpoint walk_forward x post : list A * list A :=
  match post with
  | [] => ([], [])
  | y :: post' => if comp x y then ([], post)
                  else let '(passed, rest) := walk_forward x post' in (y :: passed, rest)
  end.

Definition deprioritize x l : list A :=
  let '(pre, post) := split_at x l in
  let '(passed, rest) := walk_forward x post in
  pre ++ passed ++ x :: rest.
End ordering.

Section facts.
Context {A : Type} `{EqDecision A}.
Implicit Types (x y : A) (l pre post : list A) (comp : A -> A -> bool).

Lemma split_at_app x pre post :
  x ∉ pre -> split_at x (pre ++ x :: post) = (pre, post).
Proof.
  induction pre as [|y pre IH]; simpl; intros Hx.
  - by rewrite decide_True.
  - apply not_elem_of_cons in Hx as [??].
    rewrite decide_False by done. by rewrite IH.
Qed.

Lemma split_at_elem x l :
  x ∈ l -> l = (split_at x l).1 ++ x :: (split_at x l).2 /\ x ∉ (split_at x l).1.
Proof.
  induction l as [|y l IH]; intros Hx; [by apply elem_of_nil in Hx|]. simpl.
  case_decide as Hd; [subst; split; [done|apply not_elem_of_nil]|].
  apply elem_of_cons in Hx as [?|Hx]; [congruence|].
  destruct (IH Hx) as [Heq Hnot]. destruct (split_at x l) as [pre post]; simpl in *.
  split; [by f_equal|]. apply not_elem_of_cons. auto.
Qed.

Lemma split_at_not_elem x l : x ∉ l -> split_at x l = (l, []).
Proof.
  induction l as [|y l IH]; [done|]. intros [??]%not_elem_of_cons. simpl.
  rewrite decide_False by done. by rewrite IH.
Qed.

Lemma list_remove_app x pre post :
  x ∉ pre -> list_remove x (pre ++ x :: post) = pre ++ post.
Proof. intros. unfold list_remove. by rewrite split_at_app. Qed.

Lemma list_remove_not_elem x l : x ∉ l -> list_remove x l = l.
Proof. intros. unfold list_remove. rewrite split_at_not_elem by done. apply app_nil_r. Qed.

Lemma list_remove_Permutation x l : x ∈ l -> l ≡ₚ x :: list_remove x l.
Proof.
  intros Hx. destruct (split_at_elem x l Hx) as [Heq _]. unfold list_remove.
  destruct (split_at x l) as [pre post]; simpl in *. rewrite Heq.
  by rewrite Permutation_middle.
Qed.

Lemma elem_of_list_remove x y l :
  NoDup l -> y ∈ list_remove x l <-> y ∈ l /\ y <> x.
Proof.
  intros Hnd. destruct (decide (x ∈ l)) as [Hx|Hx].
  - pose proof (list_remove_Permutation x l Hx) as Hp.
    assert (y ∈ l <-> y ∈ x :: list_remove x l) as -> by (by rewrite <- Hp).
    rewrite Hp in Hnd. apply NoDup_cons in Hnd as [??]. set_solver.
  - rewrite list_remove_not_elem by done. split; [|tauto]. set_solver.
Qed.

Lemma not_in_list_remove x l : NoDup l -> x ∉ list_remove x l.
Proof. intros Hnd Hin. by apply elem_of_list_remove in Hin as [_ ?]. Qed.

Lemma NoDup_list_remove x l : NoDup l -> NoDup (list_remove x l).
Proof.
  intros Hnd. destruct (decide (x ∈ l)) as [Hx|Hx].
  - rewrite (list_remove_Permutation x l Hx) in Hnd. by apply NoDup_cons in Hnd as [??].
  - by rewrite list_remove_not_elem.
Qed.

Lemma sorted_by_list_remove key x l :
  sorted_by key l -> sorted_by key (list_remove x l).
Proof.
  intros Hs. destruct (decide (x ∈ l)) as [Hx|Hx].
  - destruct (split_at_elem x l Hx) as [Heq _]. unfold list_remove.
    destruct (split_at x l) as [pre post]; simpl in *. subst l.
    by apply sorted_by_remove in Hs.
  - by rewrite list_remove_not_elem.
Qed.

(** What the two loops stop at. *)
Lemma walk_back_spec comp x rpre passed :
  let '(rest, passed') := walk_back comp x rpre passed in
  exists moved, rpre = moved ++ rest /\ passed' = reverse moved ++ passed /\
    (forall y, y ∈ moved -> comp x y = true) /\
    (forall y, head rest = Some y -> comp x y = false).
Proof.
  revert passed. induction rpre as [|y rpre IH]; intros passed; simpl.
  - exists []. repeat split; [|done]. intros y Hy. by apply elem_of_nil in Hy.
  - destruct (comp x y) eqn:Hc.
    + specialize (IH (y :: passed)). destruct (walk_back comp x rpre (y :: passed)) as [rest p'].
      destruct IH as (moved & -> & -> & Hm & Hr). exists (y :: moved). split_and!; [done| | |done].
      * by rewrite reverse_cons, <- app_assoc.
      * intros z [->|?]%elem_of_cons; auto.
    + exists []. repeat split; [intros z Hz; by apply elem_of_nil in Hz|].
      intros z [= <-]. done.
Qed.

Lemma walk_forward_spec comp x post :
  let '(passed, rest) := walk_forward comp x post in
  post = passed ++ rest /\ (forall y, y ∈ passed -> comp x y = false) /\
  (forall y, head rest = Some y -> comp x y = true).
Proof.
  induction post as [|y post IH]; simpl.
  - split_and!; [done| |done]. intros y Hy. by apply elem_of_nil in Hy.
  - destruct (comp x y) eqn:Hc.
    + split_and!; [done| |].
      * intros z Hz. by apply elem_of_nil in Hz.
      * intros z [= <-]. done.
    + destruct (walk_forward comp x post) as [passed rest]. destruct IH as (-> & Hp & Hr).
      split_and!; [done| |done]. intros z [->|?]%elem_of_cons; auto.
Qed.

(** Only the comparisons with the element matter. *)
Lemma prioritize_ext comp comp' x l :
  (forall y, comp x y = comp' x y) -> prioritize comp x l = prioritize comp' x l.
Proof.
  intros Hc. unfold prioritize. destruct (split_at x l) as [pre post].
  assert (forall rpre passed, walk_back comp x rpre passed = walk_back comp' x rpre passed) as ->; [|done].
  intros rpre. induction rpre as [|y rpre IH]; intros passed; simpl; [done|].
  rewrite Hc. destruct (comp' x y); auto.
Qed.

Lemma prioritize_app comp x pre post :
  x ∉ pre ->
  exists before moved,
    pre = before ++ moved /\
    prioritize comp x (pre ++ x :: post) = before ++ x :: moved ++ post /\
    (forall y, y ∈ moved -> comp x y = true) /\
    (forall y, last before = Some y -> comp x y = false).
Proof.
  intros Hx. unfold prioritize. rewrite split_at_app by done.
  pose proof (walk_back_spec comp x (reverse pre) []) as Hw.
  destruct (walk_back comp x (reverse pre) []) as [rest passed].
  destruct Hw as (moved & Hpre & -> & Hm & Hr). rewrite app_nil_r.
  exists (reverse rest), (reverse moved). split_and!.
  - rewrite <- reverse_app, <- Hpre. by rewrite reverse_involutive.
  - done.
  - intros y. rewrite elem_of_reverse. apply Hm.
  - intros y. rewrite last_reverse. apply Hr.
Qed.

Lemma deprioritize_app comp x pre post :
  x ∉ pre ->
  exists passed rest,
    post = passed ++ rest /\
    deprioritize comp x (pre ++ x :: post) = pre ++ passed ++ x :: rest /\
    (forall y, y ∈ passed -> comp x y = false) /\
    (forall y, head rest = Some y -> comp x y = true).
Proof.
  intros Hx. unfold deprioritize. rewrite split_at_app by done.
  pose proof (walk_forward_spec comp x post) as Hw.
  destruct (walk_forward comp x post) as [passed rest]. destruct Hw as (-> & ? & ?). eauto 10.
Qed.

Lemma prioritize_Permutation comp x l : x ∈ l -> prioritize comp x l ≡ₚ l.
Proof.
  intros Hx. destruct (split_at_elem x l Hx) as [Heq Hnot].
  destruct (split_at x l) as [pre post]; simpl in *. subst l.
  destruct (prioritize_app comp x pre post Hnot) as (before & moved & -> & -> & _).
  rewrite <- app_assoc. by rewrite <- (Permutation_middle moved post x).
Qed.

Lemma deprioritize_Permutation comp x l : x ∈ l -> deprioritize comp x l ≡ₚ l.
Proof.
  intros Hx. destruct (split_at_elem x l Hx) as [Heq Hnot].
  destruct (split_at x l) as [pre post]; simpl in *. subst l.
  destruct (deprioritize_app comp x pre post Hnot) as (passed & rest & -> & -> & _).
  by rewrite <- (Permutation_middle passed rest x).
Qed.

(** With the comparator of a key, moving an element whose key only went down
    restores the order... *)
Lemma prioritize_sorted comp key x pre post :
  (forall y z, comp y z = (key y <? key z)) ->
  x ∉ pre -> sorted_by key (pre ++ post) -> (forall y, y ∈ post -> key x <= key y) ->
  sorted_by key (prioritize comp x (pre ++ x :: post)).
Proof.
  intros Hcomp Hx Hs Hpost.
  destruct (prioritize_app comp x pre post Hx) as (before & moved & -> & -> & Hm & Hb).
  rewrite <- app_assoc in Hs. apply sorted_by_app in Hs as (Hs1 & Hs2 & Hle).
  apply sorted_by_app. split_and!; [done| |].
  - apply sorted_by_cons. split; [done|]. intros y [Hy|Hy]%elem_of_app; [|auto].
    apply Hm in Hy. rewrite Hcomp in Hy. bool_to_prop. lia.
  - assert (forall y, y ∈ before -> key y <= key x) as Hbx.
    { intros y Hy. destruct before as [|z before' _] using rev_ind;
        [by apply elem_of_nil in Hy|].
      specialize (Hb z). rewrite last_snoc, Hcomp in Hb. specialize (Hb eq_refl). bool_to_prop.
      apply sorted_by_app in Hs1 as (_ & _ & Hz).
      apply elem_of_app in Hy as [Hy|Hy].
      - specialize (Hz y z Hy (list_elem_of_here _ _)). lia.
      - apply list_elem_of_singleton in Hy. subst. lia. }
    intros y z Hy [->|Hz]%elem_of_cons; auto.
Qed.

(** ... and so does moving back an element that was put at the front. *)
Lemma deprioritize_sorted comp key x pre post :
  (forall y z, comp y z = (key y <? key z)) ->
  x ∉ pre -> sorted_by key (pre ++ post) -> (forall y, y ∈ pre -> key y <= key x) ->
  sorted_by key (deprioritize comp x (pre ++ x :: post)).
Proof.
  intros Hcomp Hx Hs Hpre.
  destruct (deprioritize_app comp x pre post Hx) as (passed & rest & -> & -> & Hp & Hr).
  apply sorted_by_app in Hs as (Hs1 & Hs2 & Hle).
  apply sorted_by_app in Hs2 as (Hsp & Hsr & Hpr).
  assert (forall y, y ∈ rest -> key x <= key y) as Hxr.
  { intros y Hy. destruct rest as [|z rest]; [by apply elem_of_nil in Hy|].
    specialize (Hr z eq_refl). rewrite Hcomp in Hr. bool_to_prop.
    apply sorted_by_cons in Hsr as [_ Hz].
    apply elem_of_cons in Hy as [->|Hy]; [lia|]. specialize (Hz y Hy). lia. }
  apply sorted_by_app. split_and!; [done| |].
  - apply sorted_by_app. split_and!; [done|by apply sorted_by_cons|].
    intros y z Hy [->|Hz]%elem_of_cons; [|auto].
    apply Hp in Hy. rewrite Hcomp in Hy. bool_to_prop. lia.
  - intros y z Hy [Hz|[->|Hz]%elem_of_cons]%elem_of_app; [|auto|].
    + apply Hle; [done|]. apply elem_of_app; auto.
    + apply Hle; [done|]. apply elem_of_app; auto.
Qed.
End facts.

#[export] Hint Resolve NoDup_list_remove sorted_by_list_remove : homa.
