(* ===== verification/IntrusiveHeap.v ===== *)
(** * IntrusiveHeap: the pointer-level [Intrusive::List] (src/src/Intrusive.h)

    Nodes and list roots are heap locations; a [Heap] holds their [owner],
    [list], [next] and [prev] fields and each list's [count].  A list is
    identified by the location of its root node ([root.list = this]).  Every
    method is the sequence of field reads and writes of the source, with its
    assertions.  [is_list] relates a heap to the abstract sequence of nodes;
    the theorems show that each method implements the operation on sequences,
    that the methods on one list leave other lists alone, and that the loops of
    [clear], [prioritize] and [deprioritize] terminate. *)

From S2P Require Import Prelude Intrusive.

Module IntrusiveList.

Definition loc := positive.

Record Heap := mkHeap {
  owner : loc -> loc;
  list_of : loc -> option loc;
  next : loc -> loc;
  prev : loc -> loc;
  count : loc -> Z
}.
#[global] Instance eta_Heap : Eta Heap := fun h =>
  mkHeap (owner h) (list_of h) (next h) (prev h) (count h).

Definition set_next (n v : loc) : M Heap unit := modify (fun h => h <| next ::= <[n := v]> |>).
Definition set_prev (n v : loc) : M Heap unit := modify (fun h => h <| prev ::= <[n := v]> |>).
Definition set_list (n : loc) (v : option loc) : M Heap unit :=
  modify (fun h => h <| list_of ::= <[n := v]> |>).
Definition set_count (l : loc) (v : Z) : M Heap unit :=
  modify (fun h => h <| count ::= <[l := v]> |>).

(** [List::Node::Node(owner)]. *)
Definition Node_new (n o : loc) : M Heap unit :=
  _ ← modify (fun h => h <| owner ::= <[n := o]> |>);
  _ ← set_list n None;
  _ ← set_next n n;
  set_prev n n.

(** [List::Node::~Node()]: the node must not be linked. *)
Definition Node_delete (n : loc) : M Heap unit :=
  nx ← gets (fun h => next h n);
  pv ← gets (fun h => prev h n);
  if bool_decide (nx = n) && bool_decide (pv = n) then mret tt else fault NodeLinked.

(** [List::Node::unlink()]. *)
Definition unlink (n : loc) : M Heap unit :=
  nx ← gets (fun h => next h n);
  pv ← gets (fun h => prev h n);
  _ ← set_prev nx pv;
  nx' ← gets (fun h => next h n);
  pv' ← gets (fun h => prev h n);
  _ ← set_next pv' nx';
  _ ← set_next n n;
  _ ← set_prev n n;
  set_list n None.

(** [List::List()]. *)
Definition List_new (root : loc) : M Heap unit :=
  _ ← Node_new root root;
  _ ← set_count root 0;
  set_list root (Some root).

Definition contains (h : Heap) (root n : loc) : bool :=
  bool_decide (list_of h n = Some root).
Definition empty (h : Heap) (root : loc) : bool := bool_decide (root = next h root).
Definition size (h : Heap) (root : loc) : Z := count h root.
Definition front (h : Heap) (root : loc) : loc := owner h (next h root).
Definition back (h : Heap) (root : loc) : loc := owner h (prev h root).
(** Iterators are node locations; [end()] is the root. *)
Definition begin_ (h : Heap) (root : loc) : loc := next h root.
Definition end_ (root : loc) : loc := root.
Definition get_iter (h : Heap) (root n : loc) : loc :=
  if contains h root n then n else end_ root.

(** [operator*] and [operator->], which refer to the element. *)
Definition iterator_deref (h : Heap) (it : loc) : loc := owner h it.
(** [++it], [--it], [it++] and [it--]: what they return, and the iterator after. *)
Definition preincrement (h : Heap) (it : loc) : loc * loc := (next h it, next h it).
Definition predecrement (h : Heap) (it : loc) : loc * loc := (prev h it, prev h it).
Definition postincrement (h : Heap) (it : loc) : loc * loc := (it, next h it).
Definition postdecrement (h : Heap) (it : loc) : loc * loc := (it, prev h it).
Definition iterator_eqb (it other : loc) : bool := bool_decide (it = other).
Definition iterator_neqb (it other : loc) : bool := bool_decide (it <> other).

(** [List::__insert(pos, node)]. *)
Definition insert_node (pos n : loc) : M Heap unit :=
  h ← get;
  _ ← check (bool_decide (next h n = n));
  _ ← check (bool_decide (prev h n = n));
  _ ← set_next n pos;
  _ ← set_prev n (prev h pos);
  _ ← set_list n (list_of h pos);
  pv ← gets (fun h => prev h pos);
  _ ← set_next pv n;
  set_prev pos n.

Definition add_count (root : loc) (d : Z) : M Heap unit :=
  c ← gets (fun h => count h root); set_count root (c + d).

(** [List::insert(pos, node)]. *)
Definition insert (root pos n : loc) : M Heap loc :=
  h ← get;
  _ ← check (contains h root pos);
  _ ← add_count root 1;
  _ ← insert_node pos n;
  mret n.

(** [List::remove(node)]. *)
Definition remove (root n : loc) : M Heap unit :=
  h ← get;
  _ ← check (contains h root n || bool_decide (list_of h n = None));
  _ ← add_count root (if contains h root n then -1 else 0);
  unlink n.

(** [List::remove(pos)], which returns the following position. *)
Definition remove_at (root pos : loc) : M Heap loc :=
  h ← get;
  _ ← check (contains h root pos || bool_decide (list_of h pos = None));
  _ ← add_count root (if contains h root pos then -1 else 0);
  nextPos ← gets (fun h => next h pos);
  _ ← unlink pos;
  mret nextPos.

Definition push_back (root n : loc) : M Heap unit :=
  _ ← add_count root 1; insert_node root n.

Definition push_front (root n : loc) : M Heap unit :=
  _ ← add_count root 1;
  pos ← gets (fun h => next h root);
  insert_node pos n.

Definition pop_back (root : loc) : M Heap unit :=
  _ ← add_count root (-1);
  n ← gets (fun h => prev h root);
  unlink n.

Definition pop_front (root : loc) : M Heap unit :=
  _ ← add_count root (-1);
  n ← gets (fun h => next h root);
  unlink n.

(** [List::clear()]: [while (root.prev != &root) root.prev->unlink();]. *)
Fixpoint clear_loop (fuel : nat) (root : loc) : M Heap unit :=
  match fuel with
  | O => fault OutOfFuel
  | S fuel' =>
      n ← gets (fun h => prev h root);
      if bool_decide (n = root) then mret tt
      else _ ← unlink n; clear_loop fuel' root
  end.
Definition clear (root : loc) : M Heap unit :=
  h ← get;
  _ ← clear_loop (S (Z.to_nat (count h root))) root;
  set_count root 0.

Section prioritize.
Variable comp : loc -> loc -> bool.

(** The loop of [prioritize]: the final [it_pos]. *)
Fixpoint prioritize_pos (fuel : nat) (h : Heap) (root it_node it_pos : loc) : Result loc :=
  match fuel with
  | O => Error OutOfFuel
  | S fuel' =>
      if bool_decide (it_pos = begin_ h root) then Ok it_pos
      else if negb (comp (owner h it_node) (owner h (prev h it_pos))) then Ok it_pos
      else prioritize_pos fuel' h root it_node (prev h it_pos)
  end.

Definition heap_prioritize (root n : loc) : M Heap unit :=
  h ← get;
  _ ← check (contains h root n);
  let it_node := get_iter h root n in
  it_pos ← lift (prioritize_pos (S (Z.to_nat (count h root))) h root it_node it_node);
  if bool_decide (it_pos = it_node) then mret tt
  else _ ← remove_at root it_node; _ ← insert root it_pos n; mret tt.

(** The loop of [deprioritize]. *)
Fixpoint deprioritize_pos (fuel : nat) (h : Heap) (root it_node it_pos : loc) : Result loc :=
  match fuel with
  | O => Error OutOfFuel
  | S fuel' =>
      if bool_decide (it_pos = end_ root) then Ok it_pos
      else if comp (owner h it_node) (owner h it_pos) then Ok it_pos
      else deprioritize_pos fuel' h root it_node (next h it_pos)
  end.

Definition heap_deprioritize (root n : loc) : M Heap unit :=
  h ← get;
  _ ← check (contains h root n);
  let it_node := get_iter h root n in
  it_pos ← lift (deprioritize_pos (S (Z.to_nat (count h root))) h root it_node (next h it_node));
  if bool_decide (it_pos = next h it_node) then mret tt
  else _ ← remove_at root it_node; _ ← insert root it_pos n; mret tt.
End prioritize.

(** ** Representation predicate *)

(** Consecutive nodes of [l] point at each other. *)
Fixpoint links (h : Heap) (l : list loc) : Prop :=
  match l with
  | x :: (y :: _) as t => next h x = y /\ prev h y = x /\ links h t
  | _ => True
  end.

Definition unlinked (h : Heap) (n : loc) : Prop :=
  next h n = n /\ prev h n = n /\ list_of h n = None.

(** The list rooted at [root] holds the nodes [xs]; an element is named by the
    location of its node. *)
Record list_shape (h : Heap) (root : loc) (xs : list loc) : Prop := {
  shape_nodup : NoDup (root :: xs);
  shape_links : links h (root :: xs ++ [root]);
  shape_mem : forall n, list_of h n = Some root <-> n ∈ root :: xs
}.
Definition is_list (h : Heap) (root : loc) (xs : list loc) : Prop :=
  list_shape h root xs /\ count h root = zlength xs.

Section representation.
Implicit Types (h : Heap) (root n p : loc) (xs l : list loc).

Lemma links_cons h x y l :
  links h (x :: y :: l) <-> next h x = y /\ prev h y = x /\ links h (y :: l).
Proof. done. Qed.

Lemma links_app h l1 x l2 :
  links h (l1 ++ x :: l2) <-> links h (l1 ++ [x]) /\ links h (x :: l2).
Proof.
  induction l1 as [|a l1 IH]; simpl; [destruct l2; tauto|].
  destruct l1 as [|b l1]; simpl in *; [destruct l2; tauto|]. rewrite IH. tauto.
Qed.

(** Only the [next] of all but the last and the [prev] of all but the first
    node matter. *)
Lemma links_frame h h' l :
  (forall x l1, l = l1 ++ [x] -> forall y, y ∈ l1 -> next h' y = next h y) ->
  (forall y, y ∈ tail l -> prev h' y = prev h y) ->
  links h l -> links h' l.
Proof.
  induction l as [|a [|b l] IH]; [done..|]. intros Hn Hp (Ha & Hb & Hl).
  assert (exists l1 z, b :: l = l1 ++ [z]) as (l1 & z & Heq).
  { destruct (exists_last (l := b :: l)) as (l1 & z & ?); [done|eauto]. }
  change (next h' a = b /\ prev h' b = a /\ links h' (b :: l)). split_and!.
  - rewrite (Hn z (a :: l1)); [done|by rewrite Heq|by left].
  - rewrite Hp; [done|]. simpl. by left.
  - apply IH; [| |done].
    + intros x l1' Heq' y Hy. apply (Hn x (a :: l1')); [by rewrite Heq'|by right].
    + intros y Hy. apply Hp. simpl in *. by right.
Qed.

Lemma is_list_frame h h' root xs :
  (forall m, list_of h m = Some root -> next h' m = next h m /\ prev h' m = prev h m) ->
  (forall m, list_of h' m = Some root <-> list_of h m = Some root) ->
  count h' root = count h root ->
  is_list h root xs -> is_list h' root xs.
Proof.
  intros Hnp Hl Hc [[Hnd Hlk Hm] Hct]. split; [|congruence]. split; [done| |].
  - eapply links_frame; [| |done].
    + intros x l1 Heq y Hy. apply Hnp, Hm.
      apply (app_inj_tail (root :: xs) l1) in Heq as [<- _]. done.
    + simpl. intros y Hy. apply Hnp, Hm. set_solver.
  - intros n. by rewrite Hl.
Qed.

(** The nodes around a position of a cyclic list: [p] before, [pos] after. *)
Lemma split_cycle root pre suf :
  exists l1 p l2, root :: pre = l1 ++ [p] /\ suf ++ [root] = default root (head suf) :: l2.
Proof.
  destruct (exists_last (l := root :: pre)) as (l1 & p & ->); [done|].
  exists l1, p. destruct suf as [|a suf]; simpl; eauto.
Qed.

Lemma links_split h root pre suf l1 p pos l2 :
  root :: pre = l1 ++ [p] -> suf ++ [root] = pos :: l2 ->
  links h (root :: (pre ++ suf) ++ [root]) <->
  links h (l1 ++ [p]) /\ next h p = pos /\ prev h pos = p /\ links h (pos :: l2).
Proof.
  intros H1 H2. rewrite <- app_assoc, H2, app_comm_cons, H1, <- app_assoc. simpl.
  rewrite links_app. done.
Qed.
End representation.

(** What an operation on the list [root] and the node [n] leaves alone. *)
Record frame (root n : loc) (h h' : Heap) : Prop := {
  frame_owner : owner h' = owner h;
  frame_lists : forall r ys, r <> root -> is_list h r ys -> is_list h' r ys;
  frame_unlinked : forall m, m <> n -> unlinked h m -> unlinked h' m
}.

Section methods.
Implicit Types (h : Heap) (root n p pos : loc) (xs pre suf : list loc).

Ltac run_heap :=
  unfold wp, Node_new, List_new, insert_node, unlink, set_list, set_next, set_prev, set_count,
    check, get, gets, modify, mbind, M_bind; cbn; unfold over; cbn.

Lemma frame_trans root n h1 h2 h3 : frame root n h1 h2 -> frame root n h2 h3 -> frame root n h1 h3.
Proof. intros [? ? ?] [? ? ?]. split; [congruence|eauto..]. Qed.

(** Every method touches only [n] and the nodes of its own list. *)
Lemma frame_intro root n h h' :
  owner h' = owner h ->
  (forall r, r <> root -> count h' r = count h r) ->
  (forall m, m <> n -> list_of h m <> Some root -> next h' m = next h m /\ prev h' m = prev h m) ->
  (forall m, m <> n -> list_of h' m = list_of h m) ->
  (list_of h n = None \/ list_of h n = Some root) ->
  (list_of h' n = None \/ list_of h' n = Some root) ->
  frame root n h h'.
Proof.
  intros Ho Hc Hnp Hl Hn Hn'. split; [done| |].
  - intros r ys Hr Hys. eapply is_list_frame; [| |by apply Hc|done].
    + intros m Hm. apply Hnp; naive_solver congruence.
    + intros m. destruct (decide (m = n)) as [->|]; [|by rewrite Hl].
      split; naive_solver congruence.
  - intros m Hm (H1 & H2 & H3). destruct (Hnp m) as [E1 E2]; [done|congruence|].
    unfold unlinked. by rewrite E1, E2, Hl.
Qed.

Lemma cycle_middle root pre n suf : root :: pre ++ n :: suf ≡ₚ n :: root :: pre ++ suf.
Proof. symmetry. apply (Permutation_middle (root :: pre) suf n). Qed.

(** The shape shared by inserting at and removing from a position. *)
Lemma cycle_facts h root pre suf :
  list_shape h root (pre ++ suf) ->
  exists l1 p l2,
    root :: pre = l1 ++ [p] /\ suf ++ [root] = default root (head suf) :: l2 /\
    links h (l1 ++ [p]) /\ links h (default root (head suf) :: l2) /\
    next h p = default root (head suf) /\ prev h (default root (head suf)) = p /\
    (forall y, y ∈ l1 -> y <> p) /\ (forall y, y ∈ pre -> y <> default root (head suf)) /\
    (forall y, y ∈ suf -> y <> p) /\ (forall y, y ∈ l2 -> y <> default root (head suf)) /\
    list_of h p = Some root /\ list_of h (default root (head suf)) = Some root /\
    (forall m, m ∉ root :: pre ++ suf ->
       (forall y, y ∈ l1 -> y <> m) /\ (forall y, y ∈ pre -> y <> m) /\
       (forall y, y ∈ suf -> y <> m) /\ (forall y, y ∈ l2 -> y <> m)).
Proof.
  intros [Hnd Hlk Hm]. destruct (split_cycle root pre suf) as (l1 & p & l2 & H1 & H2).
  rewrite (links_split _ _ _ _ _ _ _ _ H1 H2) in Hlk. destruct Hlk as (? & ? & ? & ?).
  assert (NoDup ((root :: pre) ++ suf)) as Hnd1 by done.
  rewrite H1 in Hnd1. apply NoDup_app in Hnd1 as (Hl & Hdis & Hsuf).
  assert ((root ∉ suf) /\ (root ∉ pre)) as [Hrs Hrp].
  { apply NoDup_cons in Hnd as [Hnin _]. set_solver. }
  assert (default root (head suf) ∈ root :: suf) as Hin.
  { destruct suf; simpl; set_solver. }
  exists l1, p, l2. split_and!; try done.
  - apply NoDup_app in Hl as (_ & Hl & _). intros y Hy ->. by apply (Hl p Hy), list_elem_of_singleton.
  - intros y Hy ->. destruct suf as [|a suf]; simpl in *; [done|].
    apply (Hdis a); [|by left]. rewrite <- H1. by right.
  - intros y Hy ->. apply (Hdis p); [|done]. set_solver.
  - assert (NoDup (suf ++ [root])) as Hnds.
    { apply NoDup_app. split_and!; [done|set_solver|apply NoDup_singleton]. }
    rewrite H2 in Hnds. apply NoDup_cons in Hnds as [? _]. by intros y Hy ->.
  - apply Hm. assert (p ∈ root :: pre) by (rewrite H1; set_solver). set_solver.
  - apply Hm. set_solver.
  - intros m Hnin. assert ((m ∉ root :: pre) /\ (m ∉ suf)) as [Hn1 Hn2] by set_solver.
    assert (m ∉ suf ++ [root]) as Hn3 by set_solver.
    rewrite H1 in Hn1. rewrite H2 in Hn3. split_and!; intros y Hy ->; set_solver.
Qed.

Ltac ne Hy := intros ?; match goal with
  | D : forall y, y ∈ _ -> y <> _ |- False => apply (D _ Hy); congruence
  end.

(** [__insert] before the first node of [suf] (or before the root). *)
Lemma insert_node_spec h root pre suf n :
  list_shape h root (pre ++ suf) -> unlinked h n ->
  wp (insert_node (default root (head suf)) n) h (fun _ h' =>
    list_shape h' root (pre ++ n :: suf) /\ count h' = count h /\ frame root n h h').
Proof.
  intros Hl (Hn1 & Hn2 & Hn3). pose proof (shape_mem _ _ _ Hl) as Hm.
  destruct (cycle_facts h root pre suf Hl)
    as (l1 & p & l2 & E1 & E2 & L1 & L2 & Hp & Hpos & D1 & D2 & D3 & D4 & Hlp & Hlpos & Hne0).
  set (pos := default root (head suf)) in *.
  assert (n ∉ root :: pre ++ suf) as Hnin by (rewrite <- Hm; congruence).
  destruct (Hne0 n Hnin) as (N1 & N2 & N3 & N4).
  assert (pos <> n) as Hne by congruence. assert (p <> n) as Hne' by congruence.
  run_heap. rewrite !bool_decide_true by done. cbn.
  rewrite fn_lookup_insert_ne, Hpos, Hlpos by done.
  split_and!; [|done|].
  - split; cbn [next prev list_of count owner].
    + rewrite cycle_middle. constructor; [done|]. apply (shape_nodup _ _ _ Hl).
    + assert (root :: (pre ++ n :: suf) ++ [root] = l1 ++ p :: n :: pos :: l2) as ->.
      { rewrite <- app_assoc. simpl. rewrite E2, app_comm_cons, E1, <- app_assoc. done. }
      apply links_app. rewrite !links_cons. split_and!; cbn [next prev list_of].
      * eapply links_frame; [| |done]; cbn.
        -- intros x l' [<- <-]%app_inj_tail y Hy. by rewrite !fn_lookup_insert_ne by ne Hy.
        -- rewrite <- E1. simpl. intros y Hy. by rewrite !fn_lookup_insert_ne by ne Hy.
      * by rewrite fn_lookup_insert.
      * rewrite fn_lookup_insert_ne by done. by rewrite fn_lookup_insert.
      * rewrite fn_lookup_insert_ne by done. by rewrite fn_lookup_insert.
      * by rewrite fn_lookup_insert.
      * eapply links_frame; [| |done]; cbn.
        -- intros x l' Heq y Hy. rewrite <- E2 in Heq. apply app_inj_tail in Heq as [<- <-].
           by rewrite !fn_lookup_insert_ne by ne Hy.
        -- intros y Hy. by rewrite !fn_lookup_insert_ne by ne Hy.
    + intros m. destruct (decide (m = n)) as [->|Hmn].
      * rewrite fn_lookup_insert. set_solver.
      * rewrite fn_lookup_insert_ne by done. rewrite Hm. set_solver.
  - apply frame_intro; cbn; try done; auto.
    + intros m Hmn Hmr. rewrite !fn_lookup_insert_ne by congruence. done.
    + intros m Hmn. by rewrite fn_lookup_insert_ne.
    + rewrite fn_lookup_insert. auto.
Qed.

(** [unlink] of a linked node. *)
Lemma unlink_spec h root pre suf n :
  list_shape h root (pre ++ n :: suf) ->
  wp (unlink n) h (fun _ h' =>
    list_shape h' root (pre ++ suf) /\ unlinked h' n /\ count h' = count h /\
    frame root n h h').
Proof.
  intros Hl. pose proof (shape_mem _ _ _ Hl) as Hm.
  pose proof (shape_nodup _ _ _ Hl) as Hnd.
  destruct (cycle_facts h root pre (n :: suf) Hl)
    as (l1 & p & l2' & E1 & E2 & L1 & _ & Hp & Hpos & D1 & _ & D3 & _ & Hlp & _ & Hne1).
  simpl in *. injection E2 as <-.
  assert (list_shape h root ((pre ++ [n]) ++ suf)) as Hl' by (by rewrite <- app_assoc).
  destruct (cycle_facts h root (pre ++ [n]) suf Hl')
    as (l1' & n' & l2 & E1' & E2 & _ & L2 & Hq & Hqn & _ & D2 & _ & D4 & Hln & Hlpos & Hne2).
  apply (app_inj_tail (root :: pre)) in E1' as [<- <-].
  set (pos := default root (head suf)) in *.
  assert ((n ∉ root :: pre ++ suf) /\ NoDup (root :: pre ++ suf)) as [Hnin Hnd'].
  { rewrite cycle_middle in Hnd. by apply NoDup_cons in Hnd. }
  assert (unlink_facts : (forall y, y ∈ l1 -> y <> n) /\ (forall y, y ∈ pre -> y <> n) /\
      (forall y, y ∈ suf -> y <> n) /\ (forall y, y ∈ l2 -> y <> n) /\
      (forall y, y ∈ suf -> y <> p) /\ (forall y, y ∈ pre -> y <> pos) /\ pos <> n /\ p <> n).
  { assert ((n ∉ root :: pre) /\ (n ∉ suf ++ [root])) as [I1 I2] by set_solver.
    rewrite E1 in I1. rewrite E2 in I2. split_and!; try (intros y Hy; set_solver); set_solver. }
  destruct unlink_facts as (N1 & N2 & N3 & N4 & D3' & D2' & Hne & Hne').
  run_heap.
  rewrite Hpos, Hq. rewrite !fn_lookup_insert_ne by done. rewrite Hpos.
  split_and!; [| |done|].
  - split; cbn [next prev list_of count owner].
    + done.
    + assert (root :: (pre ++ suf) ++ [root] = l1 ++ p :: pos :: l2) as ->.
      { rewrite <- app_assoc, E2, app_comm_cons, E1, <- app_assoc. done. }
      apply links_app. rewrite !links_cons. split_and!; cbn [next prev list_of].
      * eapply links_frame; [| |done]; cbn.
        -- intros x l' [<- <-]%app_inj_tail y Hy. by rewrite !fn_lookup_insert_ne by ne Hy.
        -- rewrite <- E1. simpl. intros y Hy. by rewrite !fn_lookup_insert_ne by ne Hy.
      * rewrite fn_lookup_insert_ne by done. by rewrite fn_lookup_insert.
      * rewrite fn_lookup_insert_ne by done. by rewrite fn_lookup_insert.
      * eapply links_frame; [| |done]; cbn.
        -- intros x l' Heq y Hy. rewrite <- E2 in Heq. apply app_inj_tail in Heq as [<- <-].
           by rewrite !fn_lookup_insert_ne by ne Hy.
        -- intros y Hy. by rewrite !fn_lookup_insert_ne by ne Hy.
    + intros m. destruct (decide (m = n)) as [->|Hmn].
      * rewrite fn_lookup_insert. set_solver.
      * rewrite fn_lookup_insert_ne by done. rewrite Hm. set_solver.
  - unfold unlinked; cbn. by rewrite !fn_lookup_insert.
  - apply frame_intro; cbn; try done; auto.
    + intros m Hmn Hmr. rewrite !fn_lookup_insert_ne by congruence. done.
    + intros m Hmn. by rewrite fn_lookup_insert_ne.
    + rewrite fn_lookup_insert. auto.
Qed.

(** ** The counter *)

Lemma add_count_spec h root d (Q : unit -> Heap -> Prop) :
  Q tt (h <| count ::= <[root := (count h root + d)]> |>) -> wp (add_count root d) h Q.
Proof. done. Qed.

Lemma shape_count h root xs f : list_shape h root xs -> list_shape (h <| count ::= f |>) root xs.
Proof. intros [? Hl ?]. split; [done| |done]. by eapply links_frame; [..|apply Hl]. Qed.

Lemma frame_count root n h v : frame root n h (h <| count ::= <[root := v]> |>).
Proof.
  split; [done| |done]. intros r ys Hr [? Hc]. split; [by apply shape_count|].
  unfold over; cbn. by rewrite fn_lookup_insert_ne.
Qed.

Lemma shape_around h root pre suf :
  list_shape h root (pre ++ suf) ->
  next h (default root (last pre)) = default root (head suf) /\
  prev h (default root (head suf)) = default root (last pre).
Proof.
  intros Hs. destruct (cycle_facts h root pre suf Hs) as (l1 & p & l2 & E1 & _ & _ & _ & Hp & Hq & _).
  assert (default root (last pre) = p) as ->; [|done].
  apply (f_equal last) in E1. rewrite last_snoc, last_cons in E1.
  destruct (last pre); simpl; congruence.
Qed.

(** ** Construction and queries *)

Lemma Node_new_spec h n o :
  wp (Node_new n o) h (fun _ h' => unlinked h' n /\ owner h' n = o).
Proof. run_heap. unfold unlinked; cbn. by rewrite !fn_lookup_insert. Qed.

Lemma List_new_spec h root :
  (forall n, list_of h n <> Some root) ->
  wp (List_new root) h (fun _ h' => is_list h' root []).
Proof.
  intros Hh. run_heap. split; [split|]; cbn.
  - apply NoDup_singleton.
  - unfold over; cbn [next prev list_of count owner]. rewrite !fn_lookup_insert. done.
  - intros n. unfold over; cbn [list_of]. destruct (decide (n = root)) as [->|Hn].
    + rewrite fn_lookup_insert. split; [by left|done].
    + rewrite !fn_lookup_insert_ne by done. rewrite list_elem_of_singleton.
      split; [intros E; by destruct (Hh n)|done].
  - unfold over; cbn [count]. by rewrite fn_lookup_insert.
Qed.

Lemma contains_spec h root xs n :
  is_list h root xs -> contains h root n = bool_decide (n = root \/ n ∈ xs).
Proof.
  intros [Hs _]. apply bool_decide_ext. rewrite (shape_mem _ _ _ Hs). set_solver.
Qed.

Lemma empty_spec h root xs : is_list h root xs -> empty h root = bool_decide (xs = []).
Proof.
  intros [Hs _]. destruct (shape_around h root [] xs Hs) as [Hn _]. simpl in Hn.
  pose proof (shape_nodup _ _ _ Hs) as [Hr _]%NoDup_cons.
  apply bool_decide_ext. rewrite Hn. destruct xs; simpl; [done|]. set_solver.
Qed.

Lemma size_spec h root xs : is_list h root xs -> size h root = zlength xs.
Proof. by intros [_ ?]. Qed.

Lemma front_spec h root x xs : is_list h root (x :: xs) -> front h root = owner h x.
Proof.
  intros [Hs _]. unfold front. destruct (shape_around h root [] (x :: xs) Hs) as [Hn _].
  simpl in Hn. by rewrite Hn.
Qed.

Lemma back_spec h root x xs : is_list h root (xs ++ [x]) -> back h root = owner h x.
Proof.
  intros [Hs _]. unfold back.
  assert (list_shape h root ((xs ++ [x]) ++ [])) as Hs' by (by rewrite app_nil_r).
  destruct (shape_around h root _ _ Hs') as [_ Hp]. simpl in Hp. by rewrite Hp, last_snoc.
Qed.

(** ** The modifying methods *)

Lemma insert_node_count h root pre suf n d :
  is_list h root (pre ++ suf) -> unlinked h n -> d = 1 ->
  wp (insert_node (default root (head suf)) n) (h <| count ::= <[root := (count h root + d)]> |>)
    (fun _ h' => is_list h' root (pre ++ n :: suf) /\ frame root n h h').
Proof.
  intros [Hs Hc] Hn ->. eapply wp_mono.
  - apply insert_node_spec; [by apply shape_count|done].
  - intros _ h' (Hs' & Hc' & Hf). split; [split; [done|]|].
    + rewrite Hc'. unfold over; cbn. rewrite fn_lookup_insert, Hc. unfold zlength.
      rewrite !length_app. simpl. lia.
    + eapply frame_trans; [apply frame_count|done].
Qed.

Lemma unlink_count h root pre suf n d :
  is_list h root (pre ++ n :: suf) -> d = -1 ->
  wp (unlink n) (h <| count ::= <[root := (count h root + d)]> |>)
    (fun _ h' => is_list h' root (pre ++ suf) /\ unlinked h' n /\ frame root n h h').
Proof.
  intros [Hs Hc] ->. eapply wp_mono.
  - by apply unlink_spec, shape_count.
  - intros _ h' (Hs' & Hu & Hc' & Hf). split_and!; [split; [done|]|done|].
    + rewrite Hc'. unfold over; cbn. rewrite fn_lookup_insert, Hc. unfold zlength.
      rewrite !length_app. simpl. lia.
    + eapply frame_trans; [apply frame_count|done].
Qed.

(** [insert] puts the node before the given position, returns it, and leaves
    every other list alone. *)
Lemma insert_spec h root pre suf n :
  is_list h root (pre ++ suf) -> unlinked h n ->
  wp (insert root (default root (head suf)) n) h (fun it h' =>
    it = n /\ is_list h' root (pre ++ n :: suf) /\ frame root n h h').
Proof.
  intros Hl Hn. unfold insert. repeat wp_step.
  - rewrite (contains_spec _ _ _ _ Hl). apply bool_decide_true.
    destruct suf; simpl; [by left|right; set_solver].
  - apply add_count_spec. repeat wp_step. eapply wp_mono; [by apply insert_node_count|].
    intros _ h' [??]. done.
Qed.

Lemma push_back_spec h root xs n :
  is_list h root xs -> unlinked h n ->
  wp (push_back root n) h (fun _ h' => is_list h' root (xs ++ [n]) /\ frame root n h h').
Proof.
  intros Hl Hn. unfold push_back. wp_step. apply add_count_spec.
  apply (insert_node_count h root xs [] n); [by rewrite app_nil_r|done..].
Qed.

Lemma push_front_spec h root xs n :
  is_list h root xs -> unlinked h n ->
  wp (push_front root n) h (fun _ h' => is_list h' root (n :: xs) /\ frame root n h h').
Proof.
  intros Hl Hn. unfold push_front. wp_step. apply add_count_spec. repeat wp_step.
  destruct (shape_around h root [] xs (proj1 Hl)) as [Hx _].
  change (next (h <| count ::= _ |>) root) with (next h root). simpl in Hx. rewrite Hx.
  by apply (insert_node_count h root [] xs n).
Qed.

(** [remove] takes the node out, wherever it is in the list; it is then
    unlinked. *)
Lemma remove_spec h root pre suf n :
  is_list h root (pre ++ n :: suf) ->
  wp (remove root n) h (fun _ h' =>
    is_list h' root (pre ++ suf) /\ unlinked h' n /\ frame root n h h').
Proof.
  intros Hl. unfold remove. repeat wp_step.
  - rewrite (contains_spec _ _ _ _ Hl). rewrite bool_decide_true by set_solver. done.
  - rewrite (contains_spec _ _ _ _ Hl). rewrite bool_decide_true by set_solver.
    by apply add_count_spec, unlink_count.
Qed.

(** Removing a node that is in no list changes nothing. *)
Lemma remove_unlinked_spec h root n :
  unlinked h n -> wp (remove root n) h (fun _ h' =>
    (forall m, next h' m = next h m /\ prev h' m = prev h m /\ list_of h' m = list_of h m) /\
    (forall r, count h' r = count h r) /\ owner h' = owner h).
Proof.
  intros (H1 & H2 & H3). unfold remove, contains. repeat wp_step.
  - rewrite H3, (bool_decide_true (None = None)) by done. apply orb_true_r.
  - rewrite H3, bool_decide_false by done. apply add_count_spec.
    run_heap. rewrite H1, H2. rewrite !fn_lookup_insert.
    split_and!; [intros m|intros r|done].
    + destruct (decide (m = n)) as [->|]; [by rewrite !fn_lookup_insert|].
      by rewrite !fn_lookup_insert_ne.
    + destruct (decide (r = root)) as [->|]; [rewrite fn_lookup_insert; lia|].
      by rewrite fn_lookup_insert_ne.
Qed.

Lemma remove_at_spec h root pre suf n :
  is_list h root (pre ++ n :: suf) ->
  wp (remove_at root n) h (fun it h' =>
    it = default root (head suf) /\
    is_list h' root (pre ++ suf) /\ unlinked h' n /\ frame root n h h').
Proof.
  intros Hl. unfold remove_at. repeat wp_step.
  - rewrite (contains_spec _ _ _ _ Hl). rewrite bool_decide_true by set_solver. done.
  - rewrite (contains_spec _ _ _ _ Hl). rewrite bool_decide_true by set_solver.
    apply add_count_spec. repeat wp_step.
    assert (list_shape h root ((pre ++ [n]) ++ suf)) as Hs by (rewrite <- app_assoc; apply Hl).
    destruct (shape_around h root _ _ Hs) as [Hx _]. rewrite last_snoc in Hx. simpl in Hx.
    change (next (h <| count ::= _ |>) n) with (next h n). rewrite Hx.
    eapply wp_mono; [by apply unlink_count|]. done.
Qed.

Lemma pop_front_spec h root x xs :
  is_list h root (x :: xs) ->
  wp (pop_front root) h (fun _ h' =>
    is_list h' root xs /\ unlinked h' x /\ frame root x h h').
Proof.
  intros Hl. unfold pop_front. wp_step. apply add_count_spec. repeat wp_step.
  destruct (shape_around h root [] (x :: xs) (proj1 Hl)) as [Hx _].
  change (next (h <| count ::= _ |>) root) with (next h root). simpl in Hx. rewrite Hx.
  by apply (unlink_count h root [] xs x).
Qed.

Lemma pop_back_spec h root x xs :
  is_list h root (xs ++ [x]) ->
  wp (pop_back root) h (fun _ h' =>
    is_list h' root xs /\ unlinked h' x /\ frame root x h h').
Proof.
  intros Hl. unfold pop_back. wp_step. apply add_count_spec. repeat wp_step.
  assert (list_shape h root ((xs ++ [x]) ++ [])) as Hs by (rewrite app_nil_r; apply Hl).
  destruct (shape_around h root _ _ Hs) as [_ Hx]. rewrite last_snoc in Hx. simpl in Hx.
  change (prev (h <| count ::= _ |>) root) with (prev h root). rewrite Hx.
  eapply wp_mono; [by apply (unlink_count h root xs [] x)|]. intros ? h' Hh.
  by rewrite app_nil_r in Hh.
Qed.

(** ** [clear] *)

Lemma clear_loop_spec xs h root fuel :
  list_shape h root xs -> (length xs < fuel)%nat ->
  wp (clear_loop fuel root) h (fun _ h' =>
    list_shape h' root [] /\ (forall n, n ∈ xs -> unlinked h' n) /\ count h' = count h /\
    owner h' = owner h /\ (forall r ys, r <> root -> is_list h r ys -> is_list h' r ys) /\
    (forall m, unlinked h m -> unlinked h' m)).
Proof.
  revert h fuel. induction xs as [|x xs IH] using rev_ind; intros h fuel Hl Hf;
    (destruct fuel as [|fuel]; [lia|]); simpl; repeat wp_step.
  - destruct (shape_around h root [] [] Hl) as [_ Hx]. simpl in Hx.
    rewrite bool_decide_true by done. apply wp_ret. split_and!; auto. intros n Hn.
    by apply elem_of_nil in Hn.
  - assert (list_shape h root ((xs ++ [x]) ++ [])) as Hl' by (by rewrite app_nil_r).
    destruct (shape_around h root (xs ++ [x]) [] Hl') as [_ Hx].
    rewrite last_snoc in Hx. simpl in Hx. rewrite Hx.
    assert (root <> x) as Hne.
    { intros ->. pose proof (shape_nodup _ _ _ Hl) as [Hnin _]%NoDup_cons. set_solver. }
    rewrite bool_decide_false by done. wp_step. rewrite <- app_assoc in Hl'. simpl in Hl'.
    eapply wp_mono; [by apply unlink_spec|].
    intros _ h1 (Hs & Hu & Hc & [Fo Fl Fu]). rewrite app_nil_r in Hs. rewrite length_app in Hf.
    eapply wp_mono; [apply IH; [done|simpl in Hf; lia]|].
    intros _ h2 (Hs2 & Hu2 & Hc2 & Ho2 & Hl2 & Hk2). split_and!; [done| |congruence..|auto|].
    + intros n [Hn|Hn%list_elem_of_singleton]%elem_of_app; subst; auto.
    + intros m Hm. destruct (decide (m = x)) as [->|]; auto.
Qed.

(** [clear] empties the list and leaves its nodes unlinked; the loop ends. *)
Lemma clear_spec h root xs :
  is_list h root xs ->
  wp (clear root) h (fun _ h' =>
    is_list h' root [] /\ (forall n, n ∈ xs -> unlinked h' n) /\ owner h' = owner h /\
    (forall r ys, r <> root -> is_list h r ys -> is_list h' r ys) /\
    (forall m, unlinked h m -> unlinked h' m)).
Proof.
  intros [Hs Hc]. unfold clear. repeat wp_step. eapply wp_mono.
  - apply clear_loop_spec; [done|]. rewrite Hc. unfold zlength. lia.
  - intros _ h' (Hs' & Hu & Hc' & Ho & Hl & Hk). unfold set_count. wp_step. split_and!.
    + split; [by apply shape_count|]. unfold over; cbn [count]. by rewrite fn_lookup_insert.
    + done.
    + done.
    + intros r ys Hr Hys. by eapply frame_count, Hl.
    + done.
Qed.

(** ** [prioritize] and [deprioritize] *)

Section reorder.
Variable comp : loc -> loc -> bool.
(** The comparison of two nodes is that of the objects that own them. *)
Definition node_comp h (x y : loc) : bool := comp (owner h x) (owner h y).

Lemma prioritize_pos_spec h root n rpre suf passed fuel :
  list_shape h root (reverse rpre ++ suf) -> (length rpre < fuel)%nat -> n <> root ->
  let '(rest, passed') := walk_back (node_comp h) n rpre passed in
  exists moved, passed' = moved ++ passed /\ reverse rpre = reverse rest ++ moved /\
  prioritize_pos comp fuel h root n (default root (head suf)) =
    Ok (default root (head (moved ++ suf))).
Proof.
  revert suf passed fuel. induction rpre as [|y rpre IH]; intros suf passed fuel Hs Hf Hn;
    (destruct fuel as [|fuel]; [simpl in Hf; lia|]); simpl.
  - exists []. split_and!; [done..|]. destruct (shape_around h root [] suf Hs) as [Hx _].
    unfold begin_. simpl in Hx. by rewrite bool_decide_true.
  - rewrite reverse_cons in Hs. unfold begin_.
    destruct (shape_around h root (reverse rpre ++ [y]) suf Hs) as [Hx Hy].
    rewrite last_snoc in Hx, Hy. simpl in Hx, Hy.
    pose proof (shape_nodup _ _ _ Hs) as Hnd.
    rewrite Hy. rewrite bool_decide_false.
    2:{ rewrite <- app_assoc in Hs, Hnd. simpl in Hs, Hnd.
        destruct (shape_around h root [] _ Hs) as [Hb _]. simpl in Hb. rewrite Hb.
        change (root :: (reverse rpre ++ y :: suf))
          with ((root :: reverse rpre) ++ y :: suf) in Hnd.
        destruct (reverse rpre) as [|z zs] eqn:E; simpl in *; intros Heq.
        - destruct suf as [|a suf]; simpl in *; subst;
            rewrite !NoDup_cons, ?not_elem_of_cons in Hnd; naive_solver.
        - destruct suf as [|a suf]; simpl in *; subst;
            rewrite !NoDup_cons, ?not_elem_of_cons in Hnd; set_solver. }
    unfold node_comp at 1. destruct (comp (owner h n) (owner h y)) eqn:Hc; simpl.
    + rewrite <- app_assoc in Hs. simpl in Hs, Hf.
      specialize (IH (y :: suf) (y :: passed) fuel Hs ltac:(lia) Hn).
      destruct (walk_back (node_comp h) n rpre (y :: passed)) as [rest p'].
      destruct IH as (moved & -> & Hr & Hp). exists (moved ++ [y]).
      rewrite <- !app_assoc. simpl. split_and!; [done| |done].
      by rewrite reverse_cons, Hr, <- app_assoc.
    + exists []. by rewrite app_nil_r.
Qed.

Lemma deprioritize_pos_spec h root n pre post fuel :
  list_shape h root (pre ++ post) -> (length post < fuel)%nat ->
  let '(passed, rest) := walk_forward (node_comp h) n post in
  deprioritize_pos comp fuel h root n (default root (head post)) =
    Ok (default root (head rest)).
Proof.
  revert pre fuel. induction post as [|y post IH]; intros pre fuel Hs Hf;
    (destruct fuel as [|fuel]; [simpl in Hf; lia|]); simpl; unfold end_.
  - by rewrite bool_decide_true.
  - pose proof (shape_nodup _ _ _ Hs) as [Hnin _]%NoDup_cons.
    rewrite bool_decide_false by (intros ->; set_solver). unfold node_comp at 1.
    destruct (comp (owner h n) (owner h y)) eqn:Hc; simpl; [done|].
    assert (list_shape h root ((pre ++ [y]) ++ post)) as Hs' by (by rewrite <- app_assoc).
    destruct (shape_around h root _ _ Hs') as [Hx _]. rewrite last_snoc in Hx. simpl in Hx.
    rewrite Hx. simpl in Hf. specialize (IH (pre ++ [y]) fuel Hs' ltac:(lia)).
    by destruct (walk_forward (node_comp h) n post) as [passed rest].
Qed.

(** Taking [n] out and putting it back before [suf]. *)
Lemma move_node h root pre post before suf n :
  is_list h root (pre ++ n :: post) -> pre ++ post = before ++ suf ->
  wp (_ ← remove_at root n; _ ← insert root (default root (head suf)) n; mret tt) h
    (fun _ h' => is_list h' root (before ++ n :: suf) /\ frame root n h h').
Proof.
  intros Hl Heq. wp_step. eapply wp_mono; [by apply remove_at_spec|].
  intros _ h1 (_ & Hl1 & Hu & Hf1). rewrite Heq in Hl1. wp_step.
  eapply wp_mono; [by apply insert_spec|]. intros _ h2 (_ & Hl2 & Hf2). apply wp_ret.
  split; [done|]. by eapply frame_trans.
Qed.

Lemma contains_elem h root xs n : is_list h root xs -> n ∈ xs -> contains h root n = true.
Proof. intros Hl Hn. rewrite (contains_spec _ _ _ _ Hl). apply bool_decide_true. auto. Qed.

(** The pointer-level loops compute [prioritize] and [deprioritize] of
    Intrusive.v on the sequence of nodes. *)
Lemma heap_prioritize_spec h root xs n :
  is_list h root xs -> n ∈ xs ->
  wp (heap_prioritize comp root n) h (fun _ h' =>
    is_list h' root (prioritize (node_comp h) n xs) /\ frame root n h h').
Proof.
  intros Hl Hn. pose proof (contains_elem _ _ _ _ Hl Hn) as Hc.
  unfold heap_prioritize. repeat wp_step; [done|]. unfold get_iter. rewrite Hc. cbv zeta.
  destruct (split_at_elem n xs Hn) as [Heq Hnot].
  destruct (split_at n xs) as [pre post]; simpl in *. subst xs.
  unfold prioritize. rewrite split_at_app by done.
  pose proof (shape_nodup _ _ _ (proj1 Hl)) as Hnd. rewrite cycle_middle in Hnd.
  apply NoDup_cons in Hnd as [Hnin _]. apply not_elem_of_cons in Hnin as [Hne Hnin].
  assert (list_shape h root (reverse (reverse pre) ++ n :: post)) as Hs.
  { rewrite reverse_involutive. apply Hl. }
  eapply prioritize_pos_spec with (passed := []) (fuel := S (Z.to_nat (count h root)))
    in Hs; [|rewrite (proj2 Hl), length_reverse; unfold zlength; rewrite length_app; lia|done].
  destruct (walk_back (node_comp h) n (reverse pre) []) as [rest p'].
  destruct Hs as (moved & -> & Hpre & Hpos). rewrite reverse_involutive in Hpre.
  rewrite app_nil_r. simpl in Hpos. unfold wp, lift. rewrite Hpos. subst pre.
  destruct moved as [|m moved]; simpl.
  - rewrite bool_decide_true by done. rewrite app_nil_r in Hl. split; [done|by split].
  - rewrite bool_decide_false by (intros ->; set_solver).
    apply (move_node h root (reverse rest ++ m :: moved) post (reverse rest)
             (m :: moved ++ post) n Hl). by rewrite <- app_assoc.
Qed.

Lemma heap_deprioritize_spec h root xs n :
  is_list h root xs -> n ∈ xs ->
  wp (heap_deprioritize comp root n) h (fun _ h' =>
    is_list h' root (deprioritize (node_comp h) n xs) /\ frame root n h h').
Proof.
  intros Hl Hn. pose proof (contains_elem _ _ _ _ Hl Hn) as Hc.
  unfold heap_deprioritize. repeat wp_step; [done|]. unfold get_iter. rewrite Hc. cbv zeta.
  destruct (split_at_elem n xs Hn) as [Heq Hnot].
  destruct (split_at n xs) as [pre post]; simpl in *. subst xs.
  unfold deprioritize. rewrite split_at_app by done.
  assert (list_shape h root ((pre ++ [n]) ++ post)) as Hs by (rewrite <- app_assoc; apply Hl).
  destruct (shape_around h root _ _ Hs) as [Hx _]. rewrite last_snoc in Hx. simpl in Hx.
  pose proof (shape_nodup _ _ _ Hs) as Hnd. rewrite Hx.
  eapply deprioritize_pos_spec with (n := n) (fuel := S (Z.to_nat (count h root))) in Hs;
    [|rewrite (proj2 Hl); unfold zlength; rewrite length_app; simpl; lia].
  pose proof (walk_forward_spec (node_comp h) n post) as Hw.
  destruct (walk_forward (node_comp h) n post) as [passed rest].
  destruct Hw as (-> & _ & _). cbn [deprioritize_pos] in Hs. unfold wp, lift. rewrite Hs.
  destruct passed as [|m passed]; simpl.
  - rewrite bool_decide_true by done. split; [done|by split].
  - rewrite bool_decide_false.
    2:{ intros Heq. change (NoDup ((root :: pre ++ [n]) ++ m :: passed ++ rest)) in Hnd.
        apply NoDup_app in Hnd as (_ & Hd & Hm). apply NoDup_cons in Hm as [Hm _].
        destruct rest as [|a rest]; simpl in Heq; subst; [|set_solver].
        apply (Hd m); set_solver. }
    rewrite app_comm_cons, app_assoc.
    apply (move_node h root pre ((m :: passed) ++ rest) (pre ++ m :: passed) rest n Hl).
    by rewrite <- app_assoc.
Qed.
End reorder.
End methods.

End IntrusiveList.
