(* ===== verification/IntrusiveProps.v ===== *)
(** * IntrusiveProps: the intrusive list implements a sequence

    A list program is a sequence of calls on one list.  [spec_op] says what
    each call does to the abstract sequence of nodes, [exec_op] runs it on the
    heap of nodes.  The refinement theorem relates the two; the others say what
    [prioritize] and [deprioritize] are for. *)

From S2P Require Import Prelude Intrusive IntrusiveHeap.
Import IntrusiveList.

Module IntrusiveProps.

Inductive ListOp :=
  | LInsert (pos n : loc)
  | LRemove (n : loc)
  | LPushBack (n : loc)
  | LPushFront (n : loc)
  | LPopFront
  | LPopBack
  | LClear
  | LPrioritize (n : loc)
  | LDeprioritize (n : loc).

Section program.
Variables (comp : loc -> loc -> bool) (root : loc).
Implicit Types (h : Heap) (n pos : loc) (xs ys D : list loc).

Definition exec_op (o : ListOp) : M Heap unit :=
  match o with
  | LInsert pos n => _ ← insert root pos n; mret tt
  | LRemove n => remove root n
  | LPushBack n => push_back root n
  | LPushFront n => push_front root n
  | LPopFront => pop_front root
  | LPopBack => pop_back root
  | LClear => clear root
  | LPrioritize n => heap_prioritize comp root n
  | LDeprioritize n => heap_deprioritize comp root n
  end.

(** The abstract operation; [None] where the interface forbids the call.  [D]
    are the nodes the program owns: each is in this list or in none. *)
Definition spec_op (cmp : loc -> loc -> bool) D (o : ListOp) xs : option (list loc) :=
  match o with
  | LInsert pos n =>
      if decide (n ∈ D /\ n ∉ xs) then
        if decide (pos = root) then Some (xs ++ [n])
        else if decide (pos ∈ xs) then
          Some ((split_at pos xs).1 ++ n :: pos :: (split_at pos xs).2)
        else None
      else None
  | LRemove n => if decide (n ∈ xs) then Some (list_remove n xs)
                 else if decide (n ∈ D) then Some xs else None
  | LPushBack n => if decide (n ∈ D /\ n ∉ xs) then Some (xs ++ [n]) else None
  | LPushFront n => if decide (n ∈ D /\ n ∉ xs) then Some (n :: xs) else None
  | LPopFront => match xs with [] => None | _ :: ys => Some ys end
  | LPopBack => match xs with [] => None | _ :: _ => Some (removelast xs) end
  | LClear => Some []
  | LPrioritize n => if decide (n ∈ xs) then Some (prioritize cmp n xs) else None
  | LDeprioritize n => if decide (n ∈ xs) then Some (deprioritize cmp n xs) else None
  end.

Fixpoint spec_ops (cmp : loc -> loc -> bool) D (ops : list ListOp) xs : option (list loc) :=
  match ops with
  | [] => Some xs
  | o :: ops => spec_op cmp D o xs ≫= spec_ops cmp D ops
  end.

(** The abstraction relation. *)
Definition represents D h xs : Prop :=
  is_list h root xs /\ forall n, n ∈ D -> n ∉ xs -> unlinked h n.

(** What a call does, the abstract sequence apart. *)
Definition others_kept h h' : Prop :=
  owner h' = owner h /\ forall r zs, r <> root -> is_list h r zs -> is_list h' r zs.

Lemma represents_insert D n h h' pre suf :
  represents D h (pre ++ suf) -> frame root n h h' -> is_list h' root (pre ++ n :: suf) ->
  represents D h' (pre ++ n :: suf) /\ others_kept h h'.
Proof.
  intros [_ Hu] [Ho Hl Hk] Hs. split; [split; [done|]|by split].
  intros m Hm Hnin. apply Hk; [set_solver|]. apply Hu; set_solver.
Qed.

Lemma represents_remove D n h h' pre suf :
  represents D h (pre ++ n :: suf) -> frame root n h h' -> is_list h' root (pre ++ suf) ->
  unlinked h' n -> represents D h' (pre ++ suf) /\ others_kept h h'.
Proof.
  intros [_ Hu] [Ho Hl Hk] Hs Hn. split; [split; [done|]|by split].
  intros m Hm Hnin. destruct (decide (m = n)) as [->|]; [done|]. apply Hk; [done|].
  apply Hu; set_solver.
Qed.

Lemma represents_permute D n h h' xs ys :
  represents D h xs -> frame root n h h' -> is_list h' root ys -> ys ≡ₚ xs -> n ∈ xs ->
  represents D h' ys /\ others_kept h h'.
Proof.
  intros [_ Hu] [Ho Hl Hk] Hs Hp Hn. split; [split; [done|]|by split].
  intros m Hm Hnin. rewrite Hp in Hnin. apply Hk; [by intros ->|auto].
Qed.

Lemma exec_op_spec D o h xs ys :
  represents D h xs -> spec_op (node_comp comp h) D o xs = Some ys ->
  wp (exec_op o) h (fun _ h' => represents D h' ys /\ others_kept h h').
Proof.
  intros Hr Hs. pose proof Hr as [Hl Hu].
  destruct o as [pos n|n|n|n| | | |n|n]; simpl in *; repeat case_decide; simplify_eq;
    destruct_and?; try wp_step.
  - eapply wp_mono; [apply (insert_spec h root xs [] n); [by rewrite app_nil_r|auto]|].
    intros it h' (_ & Hs' & Hf). wp_step. eapply represents_insert; [|done|done]. by rewrite app_nil_r.
  - destruct (split_at_elem pos xs) as [Heq _]; [done|].
    set (pre := (split_at pos xs).1) in *. set (suf := (split_at pos xs).2) in *.
    eapply wp_mono; [apply (insert_spec h root pre (pos :: suf) n); [by rewrite <- Heq|auto]|].
    intros it h' (_ & Hs' & Hf). wp_step. eapply represents_insert; [|done|done]. by rewrite <- Heq.
  - destruct (split_at_elem n xs) as [Heq Hnin]; [done|]. unfold list_remove.
    destruct (split_at n xs) as [pre suf]; simpl in *. subst xs.
    eapply wp_mono; [by apply remove_spec|]. intros _ h' (? & ? & ?). by eapply represents_remove.
  - eapply wp_mono; [apply remove_unlinked_spec; auto|]. intros _ h' (Hn & Hc & Ho).
    assert (forall r zs, is_list h r zs -> is_list h' r zs) as Hk.
    { intros r zs. apply is_list_frame; [|intros m; by destruct (Hn m) as (_ & _ & ->)|apply Hc].
      intros m _. by destruct (Hn m) as (-> & -> & _). }
    split; [split; [auto|]|split; [done|auto]]. intros m Hm Hnin.
    destruct (Hu m Hm Hnin) as (? & ? & ?), (Hn m) as (? & ? & ?). unfold unlinked. split_and!; congruence.
  - eapply wp_mono; [by apply push_back_spec; auto|]. intros _ h' (? & ?).
    eapply represents_insert; [|done|done]. by rewrite app_nil_r.
  - eapply wp_mono; [by apply push_front_spec; auto|]. intros _ h' (? & ?).
    by eapply (represents_insert D n h h' []).
  - destruct xs as [|x xs]; simplify_eq. eapply wp_mono; [by apply pop_front_spec|].
    intros _ h' (? & ? & ?). by eapply (represents_remove D x h h' []).
  - destruct (exists_last (l := xs)) as (l & x & ->); [by destruct xs|].
    assert (ys = l) as -> by (rewrite removelast_last in Hs; destruct l; simpl in *; congruence).
    eapply wp_mono; [by apply pop_back_spec|]. intros _ h' (? & ? & ?).
    rewrite <- (app_nil_r l). eapply (represents_remove D x); [done|done|by rewrite app_nil_r|done].
  - eapply wp_mono; [by apply clear_spec|]. intros _ h' (? & Hx & ? & ? & Hk).
    split; [split; [done|]|by split]. intros n Hn _. destruct (decide (n ∈ xs)); auto.
  - eapply wp_mono; [by apply heap_prioritize_spec|]. intros _ h' (? & ?).
    eapply represents_permute; [done..|by apply prioritize_Permutation|done].
  - eapply wp_mono; [by apply heap_deprioritize_spec|]. intros _ h' (? & ?).
    eapply represents_permute; [done..|by apply deprioritize_Permutation|done].
Qed.

Fixpoint exec_ops (ops : list ListOp) : M Heap unit :=
  match ops with [] => mret tt | o :: ops => _ ← exec_op o; exec_ops ops end.

(** ** Properties *)

(** C22: Every list program that respects the interface returns, and the nodes it
    leaves are linked as the abstract program says; lists with another root
    are untouched. *)
Theorem list_program_refines D ops h xs ys :
  represents D h xs -> spec_ops (node_comp comp h) D ops xs = Some ys ->
  wp (exec_ops ops) h (fun _ h' => represents D h' ys /\ others_kept h h').
Proof.
  revert h xs. induction ops as [|o ops IH]; simpl; intros h xs Hr Hs.
  - simplify_eq. wp_step. by split; [|split].
  - apply bind_Some in Hs as (zs & Hz & Hs). wp_step.
    eapply wp_mono; [by eapply exec_op_spec|]. intros _ h1 [Hr1 [Ho1 Hk1]].
    eapply wp_mono; [eapply (IH h1 zs Hr1)|].
    { unfold node_comp in *. by rewrite Ho1. }
    intros _ h2 [Hr2 [Ho2 Hk2]]. split; [done|]. split; [congruence|]. auto.
Qed.

(** After the key of a node went down, [prioritize] restores the order of a
    list that was sorted; nothing is lost. *)
Theorem prioritize_restores_order key h pre n suf :
  (forall x y, comp x y = (key x <? key y)) -> is_list h root (pre ++ n :: suf) ->
  sorted_by (fun x => key (owner h x)) (pre ++ suf) ->
  (forall y, y ∈ suf -> key (owner h n) <= key (owner h y)) ->
  wp (heap_prioritize comp root n) h (fun _ h' => exists ys,
    is_list h' root ys /\ ys ≡ₚ pre ++ n :: suf /\ sorted_by (fun x => key (owner h' x)) ys).
Proof.
  intros Hc Hl Hs Hle. eapply wp_mono; [eapply heap_prioritize_spec; [done|set_solver]|].
  intros _ h' [Hl' Hf]. eexists. split; [exact Hl'|].
  assert (n ∉ pre) as Hn.
  { destruct Hl as [[Hnd _ _] _]. apply NoDup_cons in Hnd as [_ Hnd].
    apply NoDup_app in Hnd as (_ & Hd & _). intros Hin. apply (Hd n Hin). by left. }
  split; [by apply prioritize_Permutation; set_solver|]. rewrite (frame_owner _ _ _ _ Hf).
  apply prioritize_sorted; [|done..]. intros x y. apply Hc.
Qed.

(** [push_front] and [deprioritize], as the Sender calls them, insert into a
    sorted list. *)
Theorem deprioritize_inserts key h n xs :
  (forall x y, comp x y = (key x <? key y)) -> is_list h root xs -> unlinked h n ->
  sorted_by (fun x => key (owner h x)) xs ->
  wp (_ ← push_front root n; heap_deprioritize comp root n) h (fun _ h' => exists ys,
    is_list h' root ys /\ ys ≡ₚ n :: xs /\ sorted_by (fun x => key (owner h' x)) ys).
Proof.
  intros Hc Hl Hu Hs. wp_step. eapply wp_mono; [by apply push_front_spec|].
  intros _ h1 [Hl1 Hf1]. eapply wp_mono; [eapply heap_deprioritize_spec; [done|by left]|].
  intros _ h2 [Hl2 Hf2]. eexists. split; [exact Hl2|]. split; [by apply deprioritize_Permutation; left|].
  rewrite (frame_owner _ _ _ _ Hf2), (frame_owner _ _ _ _ Hf1).
  apply (deprioritize_sorted _ _ n []); [|by apply not_elem_of_nil|done|].
  - intros x y. unfold node_comp. rewrite (frame_owner _ _ _ _ Hf1). apply Hc.
  - intros y Hy. by apply elem_of_nil in Hy.
Qed.
End program.

(** ** Witnesses: nodes 2 to 6, node [n] owned by object [n], in a list at 1 *)

Definition nodes : list loc := [2; 3; 4; 5; 6]%positive.
Definition heap0 : Heap :=
  mkHeap (fun n => n) (fun n => if decide (n = 1%positive) then Some 1%positive else None)
    (fun n => n) (fun n => n) (fun _ => 0).
Definition by_owner (x y : loc) : bool := Z.pos x <? Z.pos y.
Definition program : list ListOp :=
  [LPushBack 4; LPushFront 6; LInsert 4 5; LDeprioritize 6; LPushBack 3; LPrioritize 3; LPopBack;
   LRemove 2; LRemove 4]%positive.

Lemma heap0_represents : represents 1%positive nodes heap0 [].
Proof.
  split; [split; [split|done]|].
  - apply NoDup_singleton.
  - done.
  - intros n. simpl. rewrite list_elem_of_singleton. case_decide; naive_solver.
  - intros n Hn _. split_and!; try done. unfold nodes in Hn. simpl. rewrite decide_False; [done|].
    intros ->. set_solver.
Qed.

Lemma list_program_refines_witness :
  wp (exec_ops by_owner 1%positive program) heap0 (fun _ h' =>
    represents 1%positive nodes h' [3; 5]%positive /\ others_kept 1%positive heap0 h').
Proof.
  eapply (list_program_refines by_owner 1%positive nodes program heap0 []);
    [apply heap0_represents|vm_compute; reflexivity].
Defined.

Definition heap1 : Heap :=
  mkHeap (fun n => n) (fun n => if decide (n ∈ [1; 5; 4]%positive) then Some 1%positive else None)
    (fun n => if decide (n = 1%positive) then 5%positive else if decide (n = 5%positive) then 4%positive
              else if decide (n = 4%positive) then 1%positive else n)
    (fun n => if decide (n = 1%positive) then 4%positive else if decide (n = 5%positive) then 1%positive
              else if decide (n = 4%positive) then 5%positive else n)
    (fun _ => 2).
Lemma heap1_list : is_list heap1 1%positive [5; 4]%positive.
Proof.
  split; [split|done].
  - by apply (bool_decide_unpack _).
  - by split_and!.
  - intros n. simpl. case_decide; naive_solver.
Qed.

Lemma prioritize_restores_order_witness :
  wp (heap_prioritize by_owner 1%positive 4%positive) heap1 (fun _ h' => exists ys,
    is_list h' 1%positive ys /\ ys ≡ₚ [5; 4]%positive /\ sorted_by (fun x => Z.pos (owner h' x)) ys).
Proof.
  apply (prioritize_restores_order by_owner 1%positive Z.pos heap1 [5%positive] 4%positive []); [done|apply heap1_list| |].
  - repeat constructor.
  - intros y Hy. by apply elem_of_nil in Hy.
Defined.

Lemma deprioritize_inserts_witness :
  wp (_ ← push_front 1%positive 3%positive; heap_deprioritize by_owner 1%positive 3%positive) heap0 (fun _ h' => exists ys,
    is_list h' 1%positive ys /\ ys ≡ₚ [3%positive] /\ sorted_by (fun x => Z.pos (owner h' x)) ys).
Proof.
  apply (deprioritize_inserts by_owner 1%positive Z.pos heap0 3%positive []); [done|apply heap0_represents|done|].
  constructor.
Defined.

End IntrusiveProps.
