(* ===== verification/Util.v ===== *)
(** * Util: the integer helpers of src/include/Homa/Util.h

    [downCast] with C++'s conversions: the comparison is made in the common
    type of the two operands, so it lets values through that change sign.
    [isPowerOfTwo] guards the bucket counts of the Sender and the Receiver. *)

From S2P Require Import Prelude.

Module Util.

(** [downCast<Small>(large)]: [conv] converts to the small type and [common]
    to the type in which [large - small] is computed. *)
Definition downCast {St} (conv common : Z -> Z) (large : Z) : M St Z :=
  let small := conv large in
  _ ← check (common (large - small) =? 0);
  mret small.

(** The instances the code uses. *)
Definition downCast_int_of_size {St} : Z -> M St Z := downCast i32 u64.
Definition downCast_u16_of_int {St} : Z -> M St Z := downCast u16 i32.
Definition downCast_u32_of_int {St} : Z -> M St Z := downCast u32 u32.
Definition downCast_size_of_int {St} : Z -> M St Z := downCast u64 u64.
Definition downCast_u8_of_int {St} : Z -> M St Z := downCast u8 i32.
Definition downCast_int_of_u32 {St} : Z -> M St Z := downCast i32 u32.

(** [isPowerOfTwo(n)] for an unsigned or positive [n]. *)
Definition isPowerOfTwo (n : Z) : bool := (n >? 0) && (Z.land n (n - 1) =? 0).

Section downCast.
Context {St : Type}.
Implicit Types (s : St).

Lemma wp_downCast_int_of_size n s Q :
  0 <= n < 2 ^ 31 -> Q n s -> wp (downCast_int_of_size n) s Q.
Proof.
  intros Hn HQ. unfold downCast_int_of_size, downCast. rewrite i32_small by lia.
  rewrite Z.sub_diag. done.
Qed.

Lemma wp_downCast_int_of_u32 n s Q :
  0 <= n < 2 ^ 31 -> Q n s -> wp (downCast_int_of_u32 n) s Q.
Proof.
  intros Hn HQ. unfold downCast_int_of_u32, downCast. rewrite i32_small by lia.
  rewrite Z.sub_diag. done.
Qed.

Lemma wp_downCast_u16_of_int n s Q :
  0 <= n < 2 ^ 16 -> Q n s -> wp (downCast_u16_of_int n) s Q.
Proof.
  intros Hn HQ. unfold downCast_u16_of_int, downCast. rewrite u16_small by lia.
  rewrite Z.sub_diag. done.
Qed.

Lemma wp_downCast_u8_of_int n s Q :
  0 <= n < 2 ^ 8 -> Q n s -> wp (downCast_u8_of_int n) s Q.
Proof.
  intros Hn HQ. unfold downCast_u8_of_int, downCast. rewrite u8_small by lia.
  rewrite Z.sub_diag. done.
Qed.

Lemma wp_downCast_u32_of_int n s Q :
  0 <= n < 2 ^ 32 -> Q n s -> wp (downCast_u32_of_int n) s Q.
Proof.
  intros Hn HQ. unfold downCast_u32_of_int, downCast. rewrite u32_small by lia.
  rewrite Z.sub_diag. done.
Qed.

(** Which lengths pass the check of [downCast<int>(size_t)]: those of a
    non-negative [int], and the very large ones that convert to a negative
    one. *)
Lemma downCast_int_of_size_ok n s :
  0 <= n < 2 ^ 64 ->
  is_ok (downCast_int_of_size n s) = (n <? 2 ^ 31) || (2 ^ 64 - 2 ^ 31 <=? n).
Proof.
  intros Hn. unfold downCast_int_of_size, downCast, check, fault, mbind, M_bind.
  assert ((u64 (n - i32 n) =? 0) = ((n <? 2 ^ 31) || (2 ^ 64 - 2 ^ 31 <=? n))) as ->.
  { unfold u64, i32. apply eq_bool_prop_intro. rewrite !orb_True, Is_true_true.
    rewrite !Is_true_true, Z.eqb_eq, Z.ltb_lt, Z.leb_le.
    Z.to_euclidean_division_equations. lia. }
  by destruct ((n <? 2 ^ 31) || (2 ^ 64 - 2 ^ 31 <=? n)).
Qed.
End downCast.

Lemma isPowerOfTwo_pow k : 0 <= k -> isPowerOfTwo (2 ^ k) = true.
Proof.
  intros Hk. unfold isPowerOfTwo. apply andb_true_iff. split.
  - apply Z.gtb_lt. lia.
  - apply Z.eqb_eq. rewrite Z.sub_1_r, <- Z.ones_equiv, Z.land_ones by lia.
    apply Z.mod_same. lia.
Qed.

Lemma isPowerOfTwo_inv n : isPowerOfTwo n = true -> n = 2 ^ Z.log2 n.
Proof.
  intros [Hn Hl]%andb_true_iff. apply Z.gtb_lt in Hn. apply Z.eqb_eq in Hl.
  destruct (Z.log2_spec n Hn) as [H1 H2].
  destruct (Z.eq_dec n (2 ^ Z.log2 n)) as [|Hne]; [done|exfalso].
  assert (Z.log2 (n - 1) = Z.log2 n) as Hlog.
  { apply Z.log2_unique; [apply Z.log2_nonneg|lia]. }
  assert (Z.testbit (Z.land n (n - 1)) (Z.log2 n) = true) as Hbit.
  { rewrite Z.land_spec, Z.bit_log2 by done. rewrite <- Hlog, Z.bit_log2; [done|].
    pose proof (Z.pow_pos_nonneg 2 (Z.log2 n) ltac:(lia) (Z.log2_nonneg n)). lia. }
  rewrite Hl in Hbit. by rewrite Z.bits_0 in Hbit.
Qed.

(** ** Properties *)

(** [isPowerOfTwo] is true exactly of the powers of two. *)
Theorem isPowerOfTwo_exact n : isPowerOfTwo n = true <-> exists k, 0 <= k /\ n = 2 ^ k.
Proof.
  split.
  - intros Hn. exists (Z.log2 n). split; [apply Z.log2_nonneg|by apply isPowerOfTwo_inv].
  - intros (k & Hk & ->). by apply isPowerOfTwo_pow.
Qed.

(** [downCast<int>] of a [size_t] passes its check when the value is a
    non-negative [int], and also when it is within [2 ^ 31] of the end of the
    range, where the result is negative. *)
Theorem downCast_int_of_size_exact n (s : unit) :
  0 <= n < 2 ^ 64 ->
  is_ok (downCast_int_of_size n s) = (n <? 2 ^ 31) || (2 ^ 64 - 2 ^ 31 <=? n).
Proof. apply downCast_int_of_size_ok. Qed.

Lemma downCast_int_of_size_exact_witness :
  is_ok (downCast_int_of_size (2 ^ 32) tt) = (2 ^ 32 <? 2 ^ 31) || (2 ^ 64 - 2 ^ 31 <=? 2 ^ 32).
Proof. apply (downCast_int_of_size_exact (2 ^ 32) tt). lia. Defined.

End Util.

#[export] Hint Resolve Util.wp_downCast_u16_of_int Util.wp_downCast_u8_of_int : homa.
