(* ===== verification/Timeout.v ===== *)
(** * Timeout: the TimeoutManager (src/src/Timeout.h)

    A manager keeps the timeouts of one kind in the order in which they were
    set; since all have the same interval, the front expires first.  The cached
    [nextTimeout] must agree with the front for [anyElapsed] to be exact.  An
    element is named by its address; [expiration] is the
    [expirationCycleTime] of its Timeout object. *)

From S2P Require Import Prelude Intrusive.

Section timeout.
Context {A : Type} `{Countable A}.

Record TimeoutManager := mkTimeoutManager {
  timeoutIntervalCycles : Z;
  nextTimeout : Z;
  timeouts : list A;
  expirations : gmap A Z
}.
#[global] Instance eta_TimeoutManager : Eta TimeoutManager := fun r =>
  mkTimeoutManager (timeoutIntervalCycles r) (nextTimeout r) (timeouts r) (expirations r).

Definition TimeoutManager_new (interval : Z) : TimeoutManager :=
  mkTimeoutManager interval UINT64_MAX [] ∅.

(** [Timeout::expirationCycleTime], 0 in a Timeout that was never set. *)
Definition expirationCycleTime (t : A) (m : TimeoutManager) : Z :=
  default 0 (expirations m !! t).
Definition hasElapsed (now : Z) (t : A) (m : TimeoutManager) : bool :=
  expirationCycleTime t m <=? now.

Definition timeouts_empty (m : TimeoutManager) : bool :=
  match timeouts m with [] => true | _ => false end.
(** The element that expires first, [None] where the call is undefined. *)
Definition timeouts_front (m : TimeoutManager) : option A := head (timeouts m).

(** [setTimeout(t)] at clock reading [now]. *)
Definition setTimeout (now : Z) (t : A) (m : TimeoutManager) : TimeoutManager :=
  let m := m <| timeouts ::= list_remove t |> in
  let m := m <| expirations ::= <[t := u64 (now + timeoutIntervalCycles m)]> |> in
  let m := m <| timeouts ::= fun l => l ++ [t] |> in
  match timeouts m with
  | [] => m
  | f :: _ => m <| nextTimeout := expirationCycleTime f m |>
  end.

Definition cancelTimeout (t : A) (m : TimeoutManager) : TimeoutManager :=
  let m := m <| timeouts ::= list_remove t |> in
  match timeouts m with
  | [] => m <| nextTimeout := UINT64_MAX |>
  | f :: _ => m <| nextTimeout := expirationCycleTime f m |>
  end.

Definition anyElapsed (now : Z) (m : TimeoutManager) : bool := nextTimeout m <=? now.

(** The invariant: no timeout twice, [nextTimeout] that of the front, in
    order of expiration, and none later than one interval after the last
    clock reading. *)
Record timeouts_ok (last : Z) (m : TimeoutManager) : Prop := {
  to_nodup : NoDup (timeouts m);
  to_next : nextTimeout m = match timeouts m with
                            | [] => UINT64_MAX
                            | f :: _ => expirationCycleTime f m
                            end;
  to_sorted : sorted_by (fun t => expirationCycleTime t m) (timeouts m);
  to_bound : forall t, t ∈ timeouts m -> expirationCycleTime t m <= last + timeoutIntervalCycles m
}.

Implicit Types (m : TimeoutManager) (t : A) (now last : Z).

Lemma timeouts_ok_new last interval : timeouts_ok last (TimeoutManager_new interval).
Proof. split; cbn; [constructor|done|constructor|]. intros t Ht. by apply elem_of_nil in Ht. Qed.

Lemma timeouts_ok_later last last' m : last <= last' -> timeouts_ok last m -> timeouts_ok last' m.
Proof. intros ? [? ? ? Hb]. split; [done..|]. intros t Ht. specialize (Hb t Ht). lia. Qed.

Lemma setTimeout_interval now t m :
  timeoutIntervalCycles (setTimeout now t m) = timeoutIntervalCycles m.
Proof. unfold setTimeout, over; cbn. by destruct (list_remove t (timeouts m)). Qed.
Lemma cancelTimeout_interval t m :
  timeoutIntervalCycles (cancelTimeout t m) = timeoutIntervalCycles m.
Proof. unfold cancelTimeout, over; cbn. by destruct (list_remove t (timeouts m)). Qed.

Lemma timeouts_setTimeout now t m :
  timeouts (setTimeout now t m) = list_remove t (timeouts m) ++ [t].
Proof. unfold setTimeout, over; cbn. by destruct (list_remove t (timeouts m)). Qed.
Lemma timeouts_cancelTimeout t m :
  timeouts (cancelTimeout t m) = list_remove t (timeouts m).
Proof. unfold cancelTimeout, over; cbn. by destruct (list_remove t (timeouts m)). Qed.

Lemma expiration_setTimeout now t t' m :
  expirationCycleTime t' (setTimeout now t m) =
  if decide (t' = t) then u64 (now + timeoutIntervalCycles m) else expirationCycleTime t' m.
Proof.
  unfold setTimeout, expirationCycleTime, over; cbn.
  destruct (list_remove t (timeouts m)); cbn; case_decide; subst;
    by rewrite ?lookup_insert_eq, ?lookup_insert_ne by done.
Qed.
Lemma expiration_cancelTimeout t t' m :
  expirationCycleTime t' (cancelTimeout t m) = expirationCycleTime t' m.
Proof.
  unfold cancelTimeout, expirationCycleTime, over; cbn. by destruct (list_remove t (timeouts m)).
Qed.

Lemma next_setTimeout now t m :
  nextTimeout (setTimeout now t m) =
  match timeouts (setTimeout now t m) with
  | [] => UINT64_MAX
  | f :: _ => expirationCycleTime f (setTimeout now t m)
  end.
Proof. unfold setTimeout, over; cbn. by destruct (list_remove t (timeouts m)). Qed.
Lemma next_cancelTimeout t m :
  nextTimeout (cancelTimeout t m) =
  match timeouts (cancelTimeout t m) with
  | [] => UINT64_MAX
  | f :: _ => expirationCycleTime f (cancelTimeout t m)
  end.
Proof. unfold cancelTimeout, over; cbn. by destruct (list_remove t (timeouts m)). Qed.

(** Setting a timeout keeps the invariant while the clock does not go back
    and does not reach the end of its range. *)
Lemma timeouts_ok_set last now t m :
  timeouts_ok last m -> last <= now ->
  0 <= now + timeoutIntervalCycles m < 2 ^ 64 ->
  timeouts_ok now (setTimeout now t m).
Proof.
  intros Hok Hle Hr. destruct Hok as [Hnd _ Hs Hb]. split.
  - rewrite timeouts_setTimeout. apply NoDup_app. split_and!;
      [auto with homa| |apply NoDup_singleton].
    intros x Hx ->%list_elem_of_singleton. by apply elem_of_list_remove in Hx as [_ ?].
  - apply next_setTimeout.
  - rewrite timeouts_setTimeout. apply sorted_by_app.
    split_and!; [|constructor; constructor|].
    + eapply sorted_by_ext; [|by apply sorted_by_list_remove].
      intros x Hx. apply elem_of_list_remove in Hx as [_ Hx]; [|done].
      by rewrite expiration_setTimeout, decide_False.
    + intros x y Hx ->%list_elem_of_singleton.
      apply elem_of_list_remove in Hx as [Hin Hx]; [|done].
      rewrite !expiration_setTimeout, decide_False, decide_True by done.
      rewrite u64_small by lia. specialize (Hb x Hin). lia.
  - intros x. rewrite timeouts_setTimeout, setTimeout_interval, expiration_setTimeout.
    rewrite elem_of_app, list_elem_of_singleton. intros Hx. case_decide.
    + rewrite u64_small by lia. lia.
    + destruct Hx as [Hx|?]; [|done].
      apply elem_of_list_remove in Hx as [Hx _]; [|done]. specialize (Hb x Hx). lia.
Qed.

Lemma timeouts_ok_cancel last t m : timeouts_ok last m -> timeouts_ok last (cancelTimeout t m).
Proof.
  intros [Hnd _ Hs Hb]. split.
  - rewrite timeouts_cancelTimeout. auto with homa.
  - apply next_cancelTimeout.
  - rewrite timeouts_cancelTimeout. eapply sorted_by_ext; [|by apply sorted_by_list_remove].
    intros. by rewrite expiration_cancelTimeout.
  - intros x. rewrite timeouts_cancelTimeout, cancelTimeout_interval, expiration_cancelTimeout.
    intros [Hx _]%elem_of_list_remove; auto.
Qed.

Lemma front_elapsed last now m :
  timeouts_ok last m -> now < UINT64_MAX ->
  anyElapsed now m = true <->
  exists f, timeouts_front m = Some f /\ hasElapsed now f m = true.
Proof.
  intros [_ Hn _ _] Hnow. unfold anyElapsed, hasElapsed, timeouts_front. rewrite Hn.
  destruct (timeouts m) as [|f l]; simpl.
  - rewrite Z.leb_le. split; [lia|]. by intros (? & ? & _).
  - split; [eauto|]. by intros (? & [= <-] & ?).
Qed.

Lemma front_first last f m t :
  timeouts_ok last m -> timeouts_front m = Some f -> t ∈ timeouts m ->
  expirationCycleTime f m <= expirationCycleTime t m.
Proof.
  intros [_ _ Hs _]. unfold timeouts_front. destruct (timeouts m) as [|g l]; [done|].
  intros [= ->] [->|Ht]%elem_of_cons; [done|]. apply sorted_by_cons in Hs as [_ Hs]. auto.
Qed.

Lemma anyElapsed_iff last now m :
  timeouts_ok last m -> now < UINT64_MAX ->
  anyElapsed now m = true <-> exists t, t ∈ timeouts m /\ hasElapsed now t m = true.
Proof.
  intros Hok Hnow. rewrite (front_elapsed last) by done. split.
  - intros (f & Hf & He). exists f. split; [|done]. unfold timeouts_front in Hf.
    destruct (timeouts m); [done|]. injection Hf as ->. by left.
  - intros (t & Ht & He). destruct (timeouts_front m) as [f|] eqn:Hf.
    + exists f. split; [done|]. unfold hasElapsed in *. bool_to_prop.
      pose proof (front_first last f m t Hok Hf Ht). apply Z.leb_le. lia.
    + unfold timeouts_front in Hf. destruct (timeouts m); [by apply elem_of_nil in Ht|done].
Qed.

Lemma front_not_elapsed last now f m :
  timeouts_ok last m -> timeouts_front m = Some f -> hasElapsed now f m = false ->
  forall t, t ∈ timeouts m -> hasElapsed now t m = false.
Proof.
  intros Hok Hf He t Ht. pose proof (front_first last f m t Hok Hf Ht). unfold hasElapsed in *.
  apply Z.leb_gt. apply Z.leb_gt in He. lia.
Qed.

Lemma none_elapsed last now m :
  timeouts_ok last m -> now < UINT64_MAX -> anyElapsed now m = false ->
  forall t, t ∈ timeouts m -> hasElapsed now t m = false.
Proof.
  intros Hok Hn Ha t Ht. apply not_true_is_false. intros He.
  assert (anyElapsed now m = true); [|congruence]. apply (anyElapsed_iff last); eauto.
Qed.

(** The elapsed timeouts are in front. *)
Lemma elapsed_prefix last now m :
  timeouts_ok last m -> exists pre suf, timeouts m = pre ++ suf /\
    (forall t, t ∈ pre -> hasElapsed now t m = true) /\ (forall t, t ∈ suf -> hasElapsed now t m = false).
Proof.
  intros [_ _ Hs _]. induction (timeouts m) as [|t l IH].
  - exists [], []. split_and!; [done|..]; intros t Ht; by apply elem_of_nil in Ht.
  - apply sorted_by_cons in Hs as [Hs Hle]. destruct (hasElapsed now t m) eqn:He.
    + destruct (IH Hs) as (pre & suf & -> & Hp & Hf). exists (t :: pre), suf. split_and!; [done| |done].
      intros u [->|Hu]%elem_of_cons; auto.
    + exists [], (t :: l). split_and!; [done| |].
      * intros u Hu. by apply elem_of_nil in Hu.
      * intros u [->|Hu]%elem_of_cons; [done|]. specialize (Hle u Hu). unfold hasElapsed in *.
        apply Z.leb_gt in He. apply Z.leb_gt. lia.
Qed.

(** ** Properties *)

(** The managers that calls lead to while the clock, last read as [last],
    does not run back or out. *)
Inductive used (interval : Z) : Z -> TimeoutManager -> Prop :=
  | used_new last : used interval last (TimeoutManager_new interval)
  | used_set last now t m : used interval last m -> last <= now -> 0 <= now + interval < 2 ^ 64 ->
      used interval now (setTimeout now t m)
  | used_cancel last t m : used interval last m -> used interval last (cancelTimeout t m).

Lemma used_ok interval last m :
  used interval last m -> timeoutIntervalCycles m = interval /\ timeouts_ok last m.
Proof.
  induction 1 as [last|last now t m _ [IHi IHo] Hl Hr|last t m _ [IHi IHo]].
  - split; [done|apply timeouts_ok_new].
  - rewrite setTimeout_interval. split; [done|]. eapply timeouts_ok_set; [done|done|by rewrite IHi].
  - rewrite cancelTimeout_interval. split; [done|by apply timeouts_ok_cancel].
Qed.

(** C38: [anyElapsed] reads only the cached [nextTimeout], and yet it is true
    exactly when some managed timeout has elapsed; and the timeouts are in the
    order in which they expire. *)
Theorem anyElapsed_exact interval last now m :
  used interval last m -> now < UINT64_MAX ->
  (anyElapsed now m = true <-> exists t, t ∈ timeouts m /\ hasElapsed now t m = true) /\
  sorted_by (fun t => expirationCycleTime t m) (timeouts m).
Proof.
  intros Hu Hn. destruct (used_ok _ _ _ Hu) as [_ Hok]. split; [|apply Hok].
  by apply (anyElapsed_iff last).
Qed.
End timeout.
Arguments TimeoutManager A {_ _}.

#[export] Hint Resolve timeouts_ok_new timeouts_ok_cancel : homa.
Create Rewrite HintDb homa_timeouts.
#[export] Hint Rewrite @timeouts_setTimeout @timeouts_cancelTimeout : homa_timeouts.

Definition two_timeouts : TimeoutManager Z :=
  cancelTimeout 1 (setTimeout 30 1 (setTimeout 20 2 (setTimeout 10 1 (TimeoutManager_new 100)))).

Lemma anyElapsed_exact_witness :
  (anyElapsed 120 two_timeouts = true <->
     exists t, t ∈ timeouts two_timeouts /\ hasElapsed 120 t two_timeouts = true) /\
  sorted_by (fun t => expirationCycleTime t two_timeouts) (timeouts two_timeouts).
Proof.
  apply (anyElapsed_exact 100 30); [|reflexivity].
  apply used_cancel. apply (used_set 100 20); [|lia|lia]. apply (used_set 100 10); [|lia|lia].
  apply (used_set 100 0); [apply used_new|lia|lia].
Defined.
