(* ===== verification/Perf.v ===== *)
(** * Perf: performance counters (src/src/Perf.h, src/src/Perf.cc)

    Every thread has its own counters; [getStats] sums those of the running
    threads and of the threads that have ended.  Counters are 64-bit and wrap. *)

From S2P Require Import Prelude.

Module Perf.

Inductive Counter :=
  | total_cycles | active_cycles
  | allocated_rx_messages | received_rx_messages | delivered_rx_messages | destroyed_rx_messages
  | allocated_tx_messages | released_tx_messages | destroyed_tx_messages
  | tx_bytes | rx_bytes
  | tx_data_pkts | rx_data_pkts | tx_grant_pkts | rx_grant_pkts
  | tx_done_pkts | rx_done_pkts | tx_resend_pkts | rx_resend_pkts
  | tx_busy_pkts | rx_busy_pkts | tx_ping_pkts | rx_ping_pkts
  | tx_unknown_pkts | rx_unknown_pkts | tx_error_pkts | rx_error_pkts.

#[global] Instance Counter_eq_dec : EqDecision Counter.
Proof. solve_decision. Defined.

Definition Counters := Counter -> Z.
Definition Counters_new : Counters := fun _ => 0.

(** [counter.add(val)]. *)
Definition stat_add (c : Counter) (val : Z) (cs : Counters) : Counters :=
  <[c := u64 (cs c + val)]> cs.

(** [Counters::add(other)]. *)
Definition counters_add (other cs : Counters) : Counters := fun c => u64 (cs c + other c).

(** What [dumpStats] writes of each counter; idle cycles are those of the poll
    loop that were not active. *)
Record Stats := mkStats {
  stats_active_cycles : Z;
  stats_idle_cycles : Z;
  stats_count : Counter -> Z
}.
Definition dumpStats (cs : Counters) : Stats :=
  mkStats (cs active_cycles) (u64 (cs total_cycles - cs active_cycles)) cs.

(** [Timer::split]: the cycles since the last split, and the new split. *)
Definition timer_split (split_tsc now : Z) : Z * Z := (u64 (now - split_tsc), now).

(** ** The registry of [Perf::Internal] *)

Record Internal := mkInternal {
  globalCounters : Counters;
  perThreadCounters : gmap positive Counters
}.
#[global] Instance eta_Internal : Eta Internal := fun r =>
  mkInternal (globalCounters r) (perThreadCounters r).

(** [ThreadCounters::ThreadCounters()] of thread [t]. *)
Definition thread_start (t : positive) (r : Internal) : Internal :=
  r <| perThreadCounters ::= <[t := Counters_new]> |>.
(** [ThreadCounters::~ThreadCounters()]. *)
Definition thread_exit (t : positive) (r : Internal) : Internal :=
  match perThreadCounters r !! t with
  | None => r
  | Some cs => r <| globalCounters ::= counters_add cs |> <| perThreadCounters ::= delete t |>
  end.
Definition getStats (r : Internal) : Stats :=
  dumpStats (map_fold (fun _ (cs : Counters) out => counters_add cs out)
    (counters_add (globalCounters r) Counters_new) (perThreadCounters r)).

Lemma u64_add_l a b : u64 (u64 a + b) = u64 (a + b).
Proof. apply Zplus_mod_idemp_l. Qed.
Lemma u64_add_r a b : u64 (a + u64 b) = u64 (a + b).
Proof. apply Zplus_mod_idemp_r. Qed.

Lemma fold_counters (base : Counters) (m : gmap positive Counters) c :
  map_fold (fun _ (cs : Counters) out => counters_add cs out) base m c =
  if decide (m = ∅) then base c
  else u64 (base c + map_fold (fun _ (cs : Counters) n => cs c + n) 0 m).
Proof.
  revert base. induction m as [|t cs m Hm Hfold IH] using map_first_key_ind; intros base.
  { by rewrite map_fold_empty, decide_True. }
  rewrite decide_False by apply insert_non_empty.
  rewrite !map_fold_insert_first_key by done. unfold counters_add at 1. rewrite IH. clear IH.
  case_decide as He.
  - rewrite He, map_fold_empty. f_equal. lia.
  - rewrite u64_add_l. f_equal. lia.
Qed.

Lemma sum_delete (m : gmap positive Counters) t cs c :
  m !! t = Some cs ->
  map_fold (fun _ (cs : Counters) n => cs c + n) 0 m =
  cs c + map_fold (fun _ (cs : Counters) n => cs c + n) 0 (delete t m).
Proof.
  intros Ht. apply (map_fold_delete_L (fun _ (cs : Counters) n => cs c + n)); [|done]. intros; lia.
Qed.

Definition stats_total (r : Internal) (c : Counter) : Z :=
  u64 (globalCounters r c + map_fold (fun _ (cs : Counters) n => cs c + n) 0 (perThreadCounters r)).

Lemma getStats_total r c : stats_count (getStats r) c = stats_total r c.
Proof.
  unfold getStats, stats_total; simpl. rewrite fold_counters. unfold counters_add, Counters_new.
  case_decide as He; [rewrite He, map_fold_empty|rewrite u64_add_l]; f_equal; lia.
Qed.

Lemma stats_total_exit t r c : stats_total (thread_exit t r) c = stats_total r c.
Proof.
  unfold thread_exit. destruct (perThreadCounters r !! t) as [cs|] eqn:Ht; [|done].
  unfold stats_total, over; cbn. unfold counters_add.
  rewrite u64_add_l, (sum_delete _ _ _ _ Ht). f_equal. lia.
Qed.

(** ** Properties *)

(** The statistics do not change when a thread ends: its counters move to the
    global ones. *)
Theorem getStats_thread_exit t r c :
  stats_count (getStats (thread_exit t r)) c = stats_count (getStats r) c.
Proof. by rewrite !getStats_total, stats_total_exit. Qed.

End Perf.
