(* ===== verification/Policy.v ===== *)
(** * Policy: network priorities and grants (src/src/Policy.h, src/src/Policy.cc)

    The manager keeps a scheduled policy for the Receiver and, per peer, the
    unscheduled policy of the Sender.  The driver's bandwidth and highest
    priority are arguments of the constructor. *)

From S2P Require Import Prelude Util.

Module Policy.

Record Unscheduled := mkUnscheduled {
  u_version : Z;
  unscheduledByteLimit : Z;
  u_priority : Z
}.
Record Scheduled := mkScheduled {
  maxScheduledPriority : Z;
  degreeOvercommitment : Z;
  minScheduledBytes : Z;
  maxScheduledBytes : Z
}.
Record UnscheduledPolicy := mkUnscheduledPolicy {
  version : Z;
  highestPriority : Z;
  priorityCutoffBytes : list Z
}.
Record Manager := mkManager {
  localUnscheduledPolicy : UnscheduledPolicy;
  localScheduledPolicy : Scheduled;
  peerPolicies : gmap Z UnscheduledPolicy;
  RTT_BYTES : Z;
  MAX_PRIORITY : Z
}.
#[global] Instance eta_Manager : Eta Manager := fun r =>
  mkManager (localUnscheduledPolicy r) (localScheduledPolicy r) (peerPolicies r)
    (RTT_BYTES r) (MAX_PRIORITY r).

(** namespace [Default]. *)
Definition RTT_TIME_US : Z := 8.
Definition UNSCHEDULED_PRIORITY_CUTOFFS : list Z := [469; 5521; 15267].
Definition MAX_OVERCOMMIT_COUNT : Z := 4.

(** [Manager::Manager(driver)]: [bandwidth] in Mbit/s, 32-bit arithmetic. *)
Definition Manager_new (bandwidth highestPacketPriority : Z) : Manager :=
  let rtt := u32 (RTT_TIME_US * (bandwidth / 8)) in
  {| localUnscheduledPolicy :=
       mkUnscheduledPolicy 0 highestPacketPriority UNSCHEDULED_PRIORITY_CUTOFFS;
     localScheduledPolicy :=
       {| maxScheduledPriority :=
            Z.max 0 (highestPacketPriority - i32 (zlength UNSCHEDULED_PRIORITY_CUTOFFS + 1));
          degreeOvercommitment := MAX_OVERCOMMIT_COUNT;
          minScheduledBytes := i32 rtt;
          maxScheduledBytes := i32 (u32 (2 * rtt)) |};
     peerPolicies := ∅;
     RTT_BYTES := rtt;
     MAX_PRIORITY := highestPacketPriority |}.

Definition getResendPriority (m : Manager) : Z := MAX_PRIORITY m.
Definition getScheduledPolicy (m : Manager) : Scheduled := localScheduledPolicy m.

(** The loop over the cutoffs: how many the message reaches. *)
Fixpoint rank (messageLength : Z) (cutoffs : list Z) : Z :=
  match cutoffs with
  | [] => 0
  | c :: cs => if messageLength <? c then 0 else 1 + rank messageLength cs
  end.

(** [getUnscheduledPolicy(destination, messageLength)] inserts a default policy
    for a new peer. *)
Definition getUnscheduledPolicy (destination messageLength : Z) : M Manager Unscheduled :=
  m ← get;
  let peer := default (mkUnscheduledPolicy 0 (MAX_PRIORITY m) UNSCHEDULED_PRIORITY_CUTOFFS)
                (peerPolicies m !! destination) in
  _ ← modify (fun m => m <| peerPolicies ::= <[destination := peer]> |>);
  mret (mkUnscheduled (version peer) (RTT_BYTES m)
    (Z.max 0 (highestPriority peer - rank messageLength (priorityCutoffBytes peer)))).

(** Both have an empty body so far. *)
Definition signalNewMessage (source policyVersion messageLength : Z) : M Manager unit := mret tt.
Definition poll : M Manager unit := mret tt.

(** ** The invariant *)

Record manager_ok (m : Manager) : Prop := {
  ok_max : 0 <= MAX_PRIORITY m;
  ok_rtt : 0 <= RTT_BYTES m < 2 ^ 32;
  ok_peers : forall d p, peerPolicies m !! d = Some p ->
    0 <= version p < 2 ^ 8 /\ 0 <= highestPriority p <= MAX_PRIORITY m
}.

Lemma rank_bound len cs : 0 <= rank len cs <= zlength cs.
Proof.
  induction cs as [|c cs IH]; simpl; [done|].
  unfold zlength in *. simpl. destruct (len <? c); lia.
Qed.

Lemma rank_mono len len' cs : len <= len' -> rank len cs <= rank len' cs.
Proof.
  intros Hl. induction cs as [|c cs IH]; simpl; [done|].
  pose proof (rank_bound len' cs).
  destruct (len <? c) eqn:E1, (len' <? c) eqn:E2; bool_to_prop; lia.
Qed.

Lemma manager_ok_new bw hp : 0 <= hp -> manager_ok (Manager_new bw hp).
Proof.
  intros Hh. split; [done|apply u32_range|]. intros d p. simpl. by rewrite lookup_empty.
Qed.

(** What a query promises to the Sender: a version that fits its header field,
    the driver's round trip as limit and a priority of the driver. *)
Lemma getUnscheduledPolicy_wp dst len m Q :
  manager_ok m ->
  (forall p m', manager_ok m' -> MAX_PRIORITY m' = MAX_PRIORITY m ->
     0 <= u_version p < 2 ^ 8 -> unscheduledByteLimit p = RTT_BYTES m ->
     RTT_BYTES m' = RTT_BYTES m ->
     localScheduledPolicy m' = localScheduledPolicy m ->
     0 <= u_priority p <= MAX_PRIORITY m -> Q p m') ->
  wp (getUnscheduledPolicy dst len) m Q.
Proof.
  intros [Hm Hr Hp] HQ. unfold getUnscheduledPolicy. repeat wp_step. apply HQ; try done.
  - split; [done..|]. unfold over; cbn. intros d p Hd.
    apply lookup_insert_Some in Hd as [[_ <-]|[_ Hd]]; [|by eapply Hp].
    destruct (peerPolicies m !! dst) eqn:E; simpl; [by eapply Hp|]. lia.
  - destruct (peerPolicies m !! dst) eqn:E; simpl; [by eapply Hp|]. lia.
  - cbn. destruct (peerPolicies m !! dst) as [p|] eqn:E; simpl.
    + destruct (Hp _ _ E). pose proof (rank_bound len (priorityCutoffBytes p)). lia.
    + pose proof (rank_bound len UNSCHEDULED_PRIORITY_CUTOFFS). simpl in *. lia.
Qed.

(** ** Properties *)

(** Two queries for the same peer: the shorter message gets at least the
    priority of the longer one, and both priorities are priorities of the
    driver. *)
Theorem getUnscheduledPolicy_monotone dst len len' m p m1 p' m2 :
  manager_ok m -> len <= len' ->
  getUnscheduledPolicy dst len m = Ok (p, m1) ->
  getUnscheduledPolicy dst len' m1 = Ok (p', m2) ->
  0 <= u_priority p' <= u_priority p /\ u_priority p <= MAX_PRIORITY m.
Proof.
  intros [Hm Hr Hp] Hl [= <- <-] [= <- <-]. unfold over; cbn.
  rewrite lookup_insert_eq. simpl.
  set (peer := default _ _) in *.
  assert (0 <= highestPriority peer <= MAX_PRIORITY m).
  { unfold peer. destruct (peerPolicies m !! dst) eqn:E; simpl; [by eapply Hp|lia]. }
  pose proof (rank_mono len len' (priorityCutoffBytes peer) Hl).
  pose proof (rank_bound len (priorityCutoffBytes peer)). lia.
Qed.

(** The relation between the priorities and the overcommitment that the
    Receiver's trySendGrants asserts holds of the constructor's policy exactly
    when the driver has at most eight priorities. *)
Theorem Manager_new_overcommit bw hp :
  0 <= hp < 2 ^ 31 ->
  (maxScheduledPriority (localScheduledPolicy (Manager_new bw hp)) <
     degreeOvercommitment (localScheduledPolicy (Manager_new bw hp))) <-> hp <= 7.
Proof.
  intros Hh. unfold Manager_new, MAX_OVERCOMMIT_COUNT; cbn [localScheduledPolicy
    maxScheduledPriority degreeOvercommitment].
  change (i32 (zlength UNSCHEDULED_PRIORITY_CUTOFFS + 1)) with 4. lia.
Qed.

(** ** Witnesses *)

Definition sample : Manager := Manager_new 10000 7.

Lemma getUnscheduledPolicy_monotone_witness :
  exists p m1 p' m2, getUnscheduledPolicy 3 100 sample = Ok (p, m1) /\
    getUnscheduledPolicy 3 6000 m1 = Ok (p', m2) /\
    0 <= u_priority p' <= u_priority p /\ u_priority p <= MAX_PRIORITY sample.
Proof.
  eexists _, _, _, _. split; [vm_compute; reflexivity|]. split; [vm_compute; reflexivity|].
  eapply (getUnscheduledPolicy_monotone 3 100 6000 sample);
    [by apply manager_ok_new|lia|vm_compute; reflexivity|vm_compute; reflexivity].
Defined.

Lemma Manager_new_overcommit_witness :
  (maxScheduledPriority (localScheduledPolicy (Manager_new 10000 8)) <
     degreeOvercommitment (localScheduledPolicy (Manager_new 10000 8))) <-> 8 <= 7.
Proof. apply (Manager_new_overcommit 10000 8). lia. Defined.

End Policy.
