(* ===== verification/ObjectPool.v ===== *)
(** * ObjectPool: the allocator of messages (src/src/ObjectPool.h)

    Backing memory of destroyed objects is kept in [pool] and reused last in,
    first out; when the pool is empty memory comes from [operator new], which
    returns an address that no live object has ([brk] is above all of them).
    [objects] is the memory itself.  [outstandingObjects] counts live objects;
    2^64 of them cannot exist, so its increment does not wrap. *)

From S2P Require Import Prelude.

Definition ptr := positive.

Section pool.
Context {T : Type}.

Record ObjectPool := mkObjectPool {
  outstandingObjects : Z;
  pool : list ptr;
  objects : gmap ptr T;
  brk : ptr
}.
#[global] Instance eta_ObjectPool : Eta ObjectPool := fun r =>
  mkObjectPool (outstandingObjects r) (pool r) (objects r) (brk r).

Definition ObjectPool_new : ObjectPool := mkObjectPool 0 [] ∅ 1%positive.

Definition operator_new : M ObjectPool ptr :=
  p ← gets brk; _ ← modify (fun o => o <| brk ::= Pos.succ |>); mret p.

(** The backing memory of the next object: [pool.back()], or new memory. *)
Definition take_backing : M ObjectPool ptr :=
  o ← get;
  match last (pool o) with
  | None => operator_new
  | Some p => _ ← modify (fun o => o <| pool ::= removelast (A:=ptr) |>); mret p
  end.

(** [construct(args)]: [ctor] runs T's constructor, [None] if it throws; the
    exception then leaves the memory in the pool and goes on to the caller. *)
Definition construct (ctor : option T) : M ObjectPool (option ptr) :=
  backing ← take_backing;
  match ctor with
  | None => _ ← modify (fun o => o <| pool ::= fun l => l ++ [backing] |>); mret None
  | Some t =>
      _ ← modify (fun o => o <| objects ::= <[backing := t]> |>
                             <| outstandingObjects ::= fun n => n + 1 |>);
      mret (Some backing)
  end.

(** [destroy(object)]; [dtor] is what T's destructor checks. *)
Definition destroy (dtor : T -> Result unit) (p : ptr) : M ObjectPool unit :=
  o ← get;
  _ ← check (0 <? outstandingObjects o);
  match objects o !! p with
  | None => fault BadPointer
  | Some t =>
      _ ← lift (dtor t);
      modify (fun o => o <| objects ::= delete p |> <| pool ::= fun l => l ++ [p] |>
                         <| outstandingObjects ::= fun n => n - 1 |>)
  end.

Record pool_ok (o : ObjectPool) : Prop := {
  pool_count : outstandingObjects o = Z.of_nat (size (objects o));
  pool_nodup : NoDup (pool o);
  pool_dead : forall p, p ∈ pool o -> objects o !! p = None;
  pool_fresh : forall p, p ∈ pool o \/ is_Some (objects o !! p) -> (p < brk o)%positive
}.

Implicit Types (o : ObjectPool).

Lemma pool_ok_new : pool_ok ObjectPool_new.
Proof.
  split; cbn; [done|constructor|intros p Hp; by apply elem_of_nil in Hp|].
  intros p [Hp|[? Hp]]; [by apply elem_of_nil in Hp|by rewrite lookup_empty in Hp].
Qed.

Lemma construct_wp t o (Q : option ptr -> ObjectPool -> Prop) :
  pool_ok o ->
  (forall p o', objects o !! p = None -> objects o' = <[p := t]> (objects o) -> pool_ok o' ->
     Q (Some p) o') ->
  wp (construct (Some t)) o Q.
Proof.
  intros [Hc Hnd Hdead Hfresh] HQ. unfold construct, take_backing. repeat wp_step.
  destruct (last (pool o)) as [p|] eqn:Hl; unfold operator_new; repeat wp_step.
  - apply last_Some in Hl as [l Hl].
    assert (Hp : objects o !! p = None) by (apply Hdead; rewrite Hl; set_solver).
    assert (removelast (pool o) = l) as Hrl by (rewrite Hl; apply removelast_last).
    apply HQ; [done..|]. unfold over; split; cbn; rewrite ?Hrl.
    + rewrite map_size_insert_None by done. lia.
    + rewrite Hl in Hnd. by apply NoDup_app in Hnd as [? _].
    + intros q Hq. rewrite lookup_insert_ne.
      * apply Hdead. rewrite Hl. set_solver.
      * intros <-. rewrite Hl in Hnd. apply NoDup_app in Hnd as (_ & Hn & _). set_solver.
    + intros q [Hq|[x Hq]]; [apply Hfresh; left; rewrite Hl; set_solver|].
      apply lookup_insert_Some in Hq as [[<- _]|[_ Hq]]; apply Hfresh; [|eauto].
      left. rewrite Hl. set_solver.
  - apply last_None in Hl.
    assert (Hp : objects o !! brk o = None).
    { destruct (objects o !! brk o) eqn:E; [|done].
      assert (brk o < brk o)%positive by (apply Hfresh; right; eauto). lia. }
    apply HQ; [done..|]. unfold over; split; cbn; rewrite ?Hl.
    + rewrite map_size_insert_None by done. lia.
    + constructor.
    + intros q Hq. by apply elem_of_nil in Hq.
    + intros q [Hq|[x Hq]]; [by apply elem_of_nil in Hq|].
      apply lookup_insert_Some in Hq as [[<- _]|[_ Hq]]; [lia|].
      assert (q < brk o)%positive by (apply Hfresh; right; eauto). lia.
Qed.

Lemma destroy_wp dtor p t o (Q : unit -> ObjectPool -> Prop) :
  pool_ok o -> objects o !! p = Some t -> dtor t = Ok tt ->
  (forall o', objects o' = delete p (objects o) -> pool_ok o' -> Q tt o') ->
  wp (destroy dtor p) o Q.
Proof.
  intros [Hc Hnd Hdead Hfresh] Hp Hd HQ. unfold destroy. repeat wp_step.
  - assert (size (objects o) <> 0%nat).
    { rewrite map_size_ne_0_lookup. eauto. }
    apply Z.ltb_lt. lia.
  - rewrite Hp. repeat wp_step. unfold wp, lift. rewrite Hd. cbn. apply HQ; [done|].
    unfold over; split; cbn.
    + rewrite map_size_delete_Some by eauto.
      assert (size (objects o) <> 0%nat) by (rewrite map_size_ne_0_lookup; eauto). lia.
    + apply NoDup_app. split_and!; [done| |apply NoDup_singleton].
      intros q Hq ->%list_elem_of_singleton. rewrite Hdead in Hp; done.
    + intros q [Hq|Hq%list_elem_of_singleton]%elem_of_app; [|subst; apply lookup_delete_eq].
      destruct (decide (q = p)) as [->|]; [apply lookup_delete_eq|].
      rewrite lookup_delete_ne by done. auto.
    + intros q [[Hq|Hq%list_elem_of_singleton]%elem_of_app|[x Hq]];
        [apply Hfresh; by left|subst; apply Hfresh; eauto|].
      apply lookup_delete_Some in Hq as [_ Hq]. apply Hfresh. eauto.
Qed.

Lemma pool_ok_alter o f : pool_ok o -> (forall m, dom (f m) = dom m) ->
  pool_ok (o <| objects ::= f |>).
Proof.
  intros [Hc Hnd Hdead Hfresh] Hd. unfold over; split; cbn; [|done| |].
  - by rewrite <- !size_dom, Hd, size_dom.
  - intros p Hp. apply not_elem_of_dom. rewrite Hd. by apply not_elem_of_dom, Hdead.
  - intros p [Hp|Hp]; [auto|]. apply elem_of_dom in Hp. rewrite Hd in Hp.
    apply Hfresh. right. by apply elem_of_dom.
Qed.

(** ** Properties *)

(** Memory of a destroyed object is reused by the next [construct], and an
    object that lives keeps its value. *)
Theorem destroy_construct_reuses dtor p t t' o :
  pool_ok o -> objects o !! p = Some t -> dtor t = Ok tt ->
  wp (_ ← destroy dtor p; construct (Some t')) o (fun r o' =>
    r = Some p /\ objects o' = <[p := t']> (objects o) /\
    outstandingObjects o' = outstandingObjects o).
Proof.
  intros [Hc Hnd Hdead Hfresh] Hp Hd. unfold destroy, construct, take_backing. repeat wp_step.
  - assert (size (objects o) <> 0%nat) by (rewrite map_size_ne_0_lookup; eauto).
    apply Z.ltb_lt. lia.
  - rewrite Hp. repeat wp_step. unfold wp at 1, lift. rewrite Hd. repeat wp_step.
    unfold over; cbn. rewrite last_snoc. repeat wp_step. cbn. split_and!; [done| |lia].
    apply insert_delete_eq.
Qed.
End pool.
Arguments ObjectPool T : clear implicits.

Definition pool_with_7 : ObjectPool Z :=
  match construct (Some 7) ObjectPool_new with Ok (_, o) => o | Error _ => ObjectPool_new end.

Lemma pool_with_7_ok : pool_ok pool_with_7.
Proof.
  pose proof (construct_wp 7 ObjectPool_new (fun _ o => pool_ok o) (pool_ok_new (T := Z))) as Hw.
  apply Hw. by intros.
Qed.

Lemma destroy_construct_reuses_witness :
  wp (_ ← destroy (fun _ => Ok tt) 1%positive; construct (Some 8)) pool_with_7 (fun r o' =>
    r = Some 1%positive /\ objects o' = <[1%positive := 8]> (objects pool_with_7) /\
    outstandingObjects o' = outstandingObjects pool_with_7).
Proof.
  apply (destroy_construct_reuses (fun _ => Ok tt) 1%positive 7 8); [apply pool_with_7_ok|reflexivity..].
Defined.
