(* ===== verification/Protocol.v ===== *)
(** * Protocol: message ids and packet headers (src/src/Protocol.h)

    A packet header is a packed struct that the code writes with placement new
    and reads with a cast; here it is a record with [encode] and [decode]
    between it and the bytes of the packet.  The target is x86-64, so a field
    lies in memory with its least significant byte first, and the [htobe16] of
    the DATA header's ports swaps their bytes. *)

From S2P Require Import Prelude.

Module Protocol.

(** ** Fields *)

(** The [n] bytes of an integer in memory. *)
Fixpoint le_bytes (n : nat) (v : Z) : list Z :=
  match n with
  | O => []
  | S n' => v mod 256 :: le_bytes n' (v / 256)
  end.
Fixpoint le_value (bs : list Z) : Z :=
  match bs with
  | [] => 0
  | b :: bs' => b + 256 * le_value bs'
  end.
(** The integer in the [n] bytes at offset [off]. *)
Definition read_le (off n : Z) (bs : list Z) : Z := le_value (slice off n bs).
(** [htobe16] and [be16toh] on a little-endian host. *)
Definition bswap16 (v : Z) : Z := (v mod 256) * 256 + v / 256 mod 256.

Definition is_byte (b : Z) : Prop := 0 <= b < 256.

Lemma length_le_bytes n v : length (le_bytes n v) = n.
Proof. revert v. induction n; intros; simpl; auto. Qed.

Lemma zlength_le_bytes n v : zlength (le_bytes n v) = Z.of_nat n.
Proof. unfold zlength. by rewrite length_le_bytes. Qed.

Lemma le_value_bytes n v : le_value (le_bytes n v) = v mod 256 ^ Z.of_nat n.
Proof.
  revert v. induction n as [|n IH]; intros v; cbn [le_bytes le_value].
  - by rewrite Z.mod_1_r.
  - rewrite IH. rewrite Nat2Z.inj_succ, Z.pow_succ_r, Z.rem_mul_r by lia. done.
Qed.

Lemma le_bytes_value bs :
  Forall is_byte bs -> le_bytes (length bs) (le_value bs) = bs.
Proof.
  induction 1 as [|b bs Hb _ IH]; simpl; [done|]. unfold is_byte in Hb. f_equal.
  - rewrite Z.mul_comm, Z.mod_add by lia. by apply Z.mod_small.
  - rewrite Z.mul_comm, Z.div_add, Z.div_small by lia. by rewrite Z.add_0_l.
Qed.

Lemma le_bytes_byte n v : Forall is_byte (le_bytes n v).
Proof.
  revert v. induction n; intros v; simpl; constructor; [|done]. by apply Z.mod_pos_bound.
Qed.

Lemma read_le_here k n v rest :
  k = Z.of_nat n -> 0 <= v < 256 ^ k -> read_le 0 k (le_bytes n v ++ rest) = v.
Proof.
  intros -> Hv. unfold read_le. rewrite slice_app_l by (rewrite ?zlength_le_bytes; lia).
  rewrite slice_all by (by rewrite zlength_le_bytes). rewrite le_value_bytes.
  by apply Z.mod_small.
Qed.

Lemma read_le_skip off n k v rest :
  Z.of_nat k <= off -> read_le off n (le_bytes k v ++ rest) = read_le (off - Z.of_nat k) n rest.
Proof.
  intros. unfold read_le. rewrite slice_app_r; rewrite zlength_le_bytes; [done|lia].
Qed.

Lemma le_value_range bs : Forall is_byte bs -> 0 <= le_value bs < 256 ^ zlength bs.
Proof.
  induction 1 as [|b bs Hb _ IH]; [done|]. unfold is_byte in Hb. cbn [le_value].
  replace (zlength (b :: bs)) with (Z.succ (zlength bs)) by (unfold zlength; simpl; lia).
  rewrite Z.pow_succ_r by apply zlength_nonneg. lia.
Qed.

(** A field of a packet is within its width. *)
Lemma read_le_range off n bs : Forall is_byte bs -> 0 <= n -> 0 <= read_le off n bs < 256 ^ n.
Proof.
  intros Hb Hn. destruct (le_value_range (slice off n bs)) as [H1 H2].
  { unfold slice. by apply Forall_take, Forall_drop. }
  split; [done|]. eapply Z.lt_le_trans; [exact H2|]. apply Z.pow_le_mono_r; [lia|].
  unfold zlength, slice. rewrite length_take. lia.
Qed.

(** A field is not changed by a write elsewhere. *)
Lemma read_le_write_other off n woff ws pl :
  0 <= off -> 0 <= n -> 0 <= woff -> woff + zlength ws <= zlength pl -> off + n <= woff \/ woff + zlength ws <= off ->
  read_le off n (write_at woff ws pl) = read_le off n pl.
Proof.
  intros ? ? ? ? Hor. unfold read_le. f_equal. pose proof (zlength_nonneg ws).
  destruct Hor; [apply slice_write_at_before|apply slice_write_at_after]; lia.
Qed.

(** A field that was written reads back. *)
Lemma read_le_write_same off n v pl :
  0 <= off <= zlength pl -> 0 <= v < 256 ^ Z.of_nat n ->
  read_le off (Z.of_nat n) (write_at off (le_bytes n v) pl) = v.
Proof.
  intros. unfold read_le. rewrite <- (zlength_le_bytes n v) at 1.
  rewrite slice_write_at_same, le_value_bytes by lia. by apply Z.mod_small.
Qed.

Lemma bswap16_range v : 0 <= bswap16 v < 2 ^ 16.
Proof.
  unfold bswap16. pose proof (Z.mod_pos_bound v 256). pose proof (Z.mod_pos_bound (v / 256) 256).
  lia.
Qed.

Lemma bswap16_involutive v : 0 <= v < 2 ^ 16 -> bswap16 (bswap16 v) = v.
Proof. intros. unfold bswap16. Z.to_euclidean_division_equations. lia. Qed.

Arguments le_bytes : simpl never.
Arguments read_le : simpl never.

(** ** Message ids *)

Record MessageId := mkMessageId { transportId : Z; sequence : Z }.

#[global] Instance MessageId_eq_dec : EqDecision MessageId.
Proof. solve_decision. Defined.
#[global] Instance MessageId_countable : Countable MessageId.
Proof.
  refine (inj_countable' (fun i => (transportId i, sequence i))
    (fun p => mkMessageId p.1 p.2) _). by intros [].
Defined.

(** [operator<] and [operator==]. *)
Definition ltMessageId (a b : MessageId) : bool :=
  (transportId a <? transportId b) ||
  ((transportId a =? transportId b) && (sequence a <? sequence b)).
Definition eqMessageId (a b : MessageId) : bool :=
  (transportId a =? transportId b) && (sequence a =? sequence b).

(** [MessageId::Hasher]; [std::hash<uint64_t>] is the library's. *)
Definition hashMessageId (std_hash : Z -> Z) (i : MessageId) : Z :=
  Z.lxor (std_hash (transportId i)) (u64 (Z.shiftl (std_hash (sequence i)) 1)).

Lemma eqMessageId_spec a b : eqMessageId a b = bool_decide (a = b).
Proof.
  destruct a as [t1 s1], b as [t2 s2]. unfold eqMessageId; simpl.
  apply eq_bool_prop_intro. rewrite andb_True, bool_decide_spec, !Is_true_true, !Z.eqb_eq.
  split; [intros [-> ->]; done|by intros [=]].
Qed.

(** ** Headers *)

Inductive Opcode := DATA | GRANT | DONE | RESEND | BUSY | PING | UNKNOWN | ERROR.
Definition opcode_value (o : Opcode) : Z :=
  match o with
  | DATA => 21 | GRANT => 22 | DONE => 23 | RESEND => 24
  | BUSY => 25 | PING => 26 | UNKNOWN => 27 | ERROR => 28
  end.

Record HeaderPrefix := mkHeaderPrefix { sport : Z; dport : Z; version : Z }.
Record CommonHeader := mkCommonHeader {
  prefix : HeaderPrefix; opcode : Z; messageId : MessageId }.
Record DataHeader := mkDataHeader {
  dh_common : CommonHeader; totalLength : Z; policyVersion : Z;
  unscheduledIndexLimit : Z; dh_index : Z }.
Record GrantHeader := mkGrantHeader {
  gh_common : CommonHeader; byteLimit : Z; gh_priority : Z }.
Record ResendHeader := mkResendHeader {
  rh_common : CommonHeader; rh_index : Z; rh_num : Z; rh_priority : Z }.
(** The DONE, BUSY, PING, UNKNOWN and ERROR headers are only the common part. *)
Record DoneHeader := mkDoneHeader { done_common : CommonHeader }.
Record BusyHeader := mkBusyHeader { busy_common : CommonHeader }.
Record PingHeader := mkPingHeader { ping_common : CommonHeader }.
Record UnknownHeader := mkUnknownHeader { unknown_common : CommonHeader }.
Record ErrorHeader := mkErrorHeader { error_common : CommonHeader }.

(** The constructors; arguments already have the width of their parameter. *)
Definition CommonHeader_new (o : Opcode) (i : MessageId) : CommonHeader :=
  mkCommonHeader (mkHeaderPrefix 0 0 1) (opcode_value o) i.
Definition DataHeader_new (sp dp : Z) (i : MessageId) (total pv uil idx : Z) : DataHeader :=
  mkDataHeader
    (mkCommonHeader (mkHeaderPrefix (bswap16 sp) (bswap16 dp) 1) (opcode_value DATA) i)
    total pv uil idx.
Definition GrantHeader_new (i : MessageId) (limit prio : Z) : GrantHeader :=
  mkGrantHeader (CommonHeader_new GRANT i) limit prio.
Definition ResendHeader_new (i : MessageId) (idx num prio : Z) : ResendHeader :=
  mkResendHeader (CommonHeader_new RESEND i) idx num prio.
Definition DoneHeader_new (i : MessageId) : DoneHeader := mkDoneHeader (CommonHeader_new DONE i).
Definition BusyHeader_new (i : MessageId) : BusyHeader := mkBusyHeader (CommonHeader_new BUSY i).
Definition PingHeader_new (i : MessageId) : PingHeader := mkPingHeader (CommonHeader_new PING i).
Definition UnknownHeader_new (i : MessageId) : UnknownHeader :=
  mkUnknownHeader (CommonHeader_new UNKNOWN i).
Definition ErrorHeader_new (i : MessageId) : ErrorHeader :=
  mkErrorHeader (CommonHeader_new ERROR i).

(** ** Wire format *)

Definition encode_CommonHeader (h : CommonHeader) : list Z :=
  le_bytes 2 (sport (prefix h)) ++ le_bytes 2 (dport (prefix h)) ++
  le_bytes 1 (version (prefix h)) ++ le_bytes 1 (opcode h) ++
  le_bytes 8 (transportId (messageId h)) ++ le_bytes 8 (sequence (messageId h)).
Definition decode_CommonHeader (bs : list Z) : CommonHeader :=
  mkCommonHeader (mkHeaderPrefix (read_le 0 2 bs) (read_le 2 2 bs) (read_le 4 1 bs))
    (read_le 5 1 bs) (mkMessageId (read_le 6 8 bs) (read_le 14 8 bs)).

Definition encode_DataHeader (h : DataHeader) : list Z :=
  encode_CommonHeader (dh_common h) ++ le_bytes 4 (totalLength h) ++
  le_bytes 1 (policyVersion h) ++ le_bytes 2 (unscheduledIndexLimit h) ++
  le_bytes 2 (dh_index h).
Definition decode_DataHeader (bs : list Z) : DataHeader :=
  mkDataHeader (decode_CommonHeader bs) (read_le 22 4 bs) (read_le 26 1 bs)
    (read_le 27 2 bs) (read_le 29 2 bs).

Definition encode_GrantHeader (h : GrantHeader) : list Z :=
  encode_CommonHeader (gh_common h) ++ le_bytes 4 (byteLimit h) ++ le_bytes 1 (gh_priority h).
Definition decode_GrantHeader (bs : list Z) : GrantHeader :=
  mkGrantHeader (decode_CommonHeader bs) (read_le 22 4 bs) (read_le 26 1 bs).

Definition encode_ResendHeader (h : ResendHeader) : list Z :=
  encode_CommonHeader (rh_common h) ++ le_bytes 2 (rh_index h) ++
  le_bytes 2 (rh_num h) ++ le_bytes 1 (rh_priority h).
Definition decode_ResendHeader (bs : list Z) : ResendHeader :=
  mkResendHeader (decode_CommonHeader bs) (read_le 22 2 bs) (read_le 24 2 bs) (read_le 26 1 bs).

(** ** The interface of a packet header

    What [ControlPacket::send] and the handlers need of a header type: its
    size, its bytes, and how to read it back. *)
Class PacketHeader (H : Type) := {
  header_size : Z;
  encode : H -> list Z;
  decode : list Z -> H;
  header_ok : H -> Prop;
  common_of : H -> CommonHeader
}.
Arguments header_size H {_}.
Class PacketHeaderLaws (H : Type) `{PacketHeader H} := {
  zlength_encode (h : H) : zlength (encode h) = header_size H;
  decode_encode (h : H) rest : header_ok h -> decode (encode h ++ rest) = h;
  decode_common bs : common_of (H := H) (decode bs) = decode_CommonHeader bs
}.

Definition MessageId_ok (i : MessageId) : Prop :=
  0 <= transportId i < 2 ^ 64 /\ 0 <= sequence i < 2 ^ 64.
Definition CommonHeader_ok (h : CommonHeader) : Prop :=
  0 <= sport (prefix h) < 2 ^ 16 /\ 0 <= dport (prefix h) < 2 ^ 16 /\
  0 <= version (prefix h) < 2 ^ 8 /\ 0 <= opcode h < 2 ^ 8 /\ MessageId_ok (messageId h).

#[global] Instance CommonHeader_packet : PacketHeader CommonHeader := {
  header_size := 22; encode := encode_CommonHeader; decode := decode_CommonHeader;
  header_ok := CommonHeader_ok; common_of := id }.
#[global] Instance DataHeader_packet : PacketHeader DataHeader := {
  header_size := 31; encode := encode_DataHeader; decode := decode_DataHeader;
  header_ok h := CommonHeader_ok (dh_common h) /\ 0 <= totalLength h < 2 ^ 32 /\
    0 <= policyVersion h < 2 ^ 8 /\ 0 <= unscheduledIndexLimit h < 2 ^ 16 /\
    0 <= dh_index h < 2 ^ 16;
  common_of := dh_common }.
#[global] Instance GrantHeader_packet : PacketHeader GrantHeader := {
  header_size := 27; encode := encode_GrantHeader; decode := decode_GrantHeader;
  header_ok h := CommonHeader_ok (gh_common h) /\ 0 <= byteLimit h < 2 ^ 32 /\
    0 <= gh_priority h < 2 ^ 8;
  common_of := gh_common }.
#[global] Instance ResendHeader_packet : PacketHeader ResendHeader := {
  header_size := 27; encode := encode_ResendHeader; decode := decode_ResendHeader;
  header_ok h := CommonHeader_ok (rh_common h) /\ 0 <= rh_index h < 2 ^ 16 /\
    0 <= rh_num h < 2 ^ 16 /\ 0 <= rh_priority h < 2 ^ 8;
  common_of := rh_common }.
#[global] Instance DoneHeader_packet : PacketHeader DoneHeader := {
  header_size := 22; encode h := encode_CommonHeader (done_common h);
  decode bs := mkDoneHeader (decode_CommonHeader bs);
  header_ok h := CommonHeader_ok (done_common h); common_of := done_common }.
#[global] Instance BusyHeader_packet : PacketHeader BusyHeader := {
  header_size := 22; encode h := encode_CommonHeader (busy_common h);
  decode bs := mkBusyHeader (decode_CommonHeader bs);
  header_ok h := CommonHeader_ok (busy_common h); common_of := busy_common }.
#[global] Instance PingHeader_packet : PacketHeader PingHeader := {
  header_size := 22; encode h := encode_CommonHeader (ping_common h);
  decode bs := mkPingHeader (decode_CommonHeader bs);
  header_ok h := CommonHeader_ok (ping_common h); common_of := ping_common }.
#[global] Instance UnknownHeader_packet : PacketHeader UnknownHeader := {
  header_size := 22; encode h := encode_CommonHeader (unknown_common h);
  decode bs := mkUnknownHeader (decode_CommonHeader bs);
  header_ok h := CommonHeader_ok (unknown_common h); common_of := unknown_common }.
#[global] Instance ErrorHeader_packet : PacketHeader ErrorHeader := {
  header_size := 22; encode h := encode_CommonHeader (error_common h);
  decode bs := mkErrorHeader (decode_CommonHeader bs);
  header_ok h := CommonHeader_ok (error_common h); common_of := error_common }.

(** ** Laws *)

Lemma zlength_encode_CommonHeader h : zlength (encode_CommonHeader h) = 22.
Proof. unfold encode_CommonHeader. by rewrite !zlength_app, !zlength_le_bytes. Qed.

(** Reads one field out of a concatenation of fields. *)
Ltac read_field :=
  rewrite <- ?app_assoc;
  repeat (rewrite read_le_skip by lia; cbn [Z.sub Z.add Z.opp Z.pos_sub Z.of_nat]);
  apply read_le_here; lia.

Lemma decode_encode_CommonHeader h rest :
  CommonHeader_ok h -> decode_CommonHeader (encode_CommonHeader h ++ rest) = h.
Proof.
  destruct h as [[sp dp v] op [t s]].
  unfold CommonHeader_ok, MessageId_ok, decode_CommonHeader, encode_CommonHeader;
    cbn [prefix sport dport version opcode messageId transportId sequence].
  intros (?&?&?&?&?&?). repeat f_equal; read_field.
Qed.

Lemma read_le_after_common off n h rest :
  22 <= off -> read_le off n (encode_CommonHeader h ++ rest) = read_le (off - 22) n rest.
Proof.
  intros. unfold read_le. by rewrite slice_app_r; rewrite zlength_encode_CommonHeader.
Qed.

Ltac read_body :=
  rewrite <- !app_assoc; rewrite ?read_le_after_common by lia;
  cbn [Z.sub Z.add Z.opp Z.pos_sub]; read_field.

#[global] Instance CommonHeader_laws : PacketHeaderLaws CommonHeader.
Proof. split; [apply zlength_encode_CommonHeader|apply decode_encode_CommonHeader|done]. Qed.

#[global] Instance DataHeader_laws : PacketHeaderLaws DataHeader.
Proof.
  split; [| |done]; intros [c tl pv uil i]; unfold header_size, decode, encode, header_ok, DataHeader_packet,
    encode_DataHeader; cbn [dh_common totalLength policyVersion unscheduledIndexLimit dh_index].
  - by rewrite !zlength_app, zlength_encode_CommonHeader.
  - intros rest (Hc & ?). unfold decode_DataHeader. f_equal; [|read_body..].
    rewrite <- app_assoc. by apply decode_encode_CommonHeader.
Qed.

#[global] Instance GrantHeader_laws : PacketHeaderLaws GrantHeader.
Proof.
  split; [| |done]; intros [c limit prio]; unfold header_size, decode, encode, header_ok, GrantHeader_packet,
    encode_GrantHeader; cbn [gh_common byteLimit gh_priority].
  - by rewrite !zlength_app, zlength_encode_CommonHeader.
  - intros rest (Hc & ?). unfold decode_GrantHeader. f_equal; [|read_body..].
    rewrite <- app_assoc. by apply decode_encode_CommonHeader.
Qed.

#[global] Instance ResendHeader_laws : PacketHeaderLaws ResendHeader.
Proof.
  split; [| |done]; intros [c i n prio]; unfold header_size, decode, encode, header_ok, ResendHeader_packet,
    encode_ResendHeader; cbn [rh_common rh_index rh_num rh_priority].
  - by rewrite !zlength_app, zlength_encode_CommonHeader.
  - intros rest (Hc & ?). unfold decode_ResendHeader. f_equal; [|read_body..].
    rewrite <- app_assoc. by apply decode_encode_CommonHeader.
Qed.

Ltac solve_plain_header :=
  split; [| |done]; intros [c]; simpl;
  [apply zlength_encode_CommonHeader|intros; f_equal; by apply decode_encode_CommonHeader].
#[global] Instance DoneHeader_laws : PacketHeaderLaws DoneHeader.
Proof. solve_plain_header. Qed.
#[global] Instance BusyHeader_laws : PacketHeaderLaws BusyHeader.
Proof. solve_plain_header. Qed.
#[global] Instance PingHeader_laws : PacketHeaderLaws PingHeader.
Proof. solve_plain_header. Qed.
#[global] Instance UnknownHeader_laws : PacketHeaderLaws UnknownHeader.
Proof. solve_plain_header. Qed.
#[global] Instance ErrorHeader_laws : PacketHeaderLaws ErrorHeader.
Proof. solve_plain_header. Qed.

(** ** Properties *)

(** [operator<] orders message ids strictly and totally, and agrees with
    [operator==]. *)
Theorem MessageId_order a b c :
  ltMessageId a a = false /\
  (ltMessageId a b = true -> ltMessageId b c = true -> ltMessageId a c = true) /\
  (eqMessageId a b = negb (ltMessageId a b) && negb (ltMessageId b a)).
Proof.
  destruct a as [t1 s1], b as [t2 s2], c as [t3 s3]. unfold ltMessageId, eqMessageId; simpl.
  split_and!.
  - by rewrite !Z.ltb_irrefl, andb_false_r.
  - rewrite !orb_true_iff, !andb_true_iff, !Z.ltb_lt, !Z.eqb_eq. lia.
  - apply eq_bool_prop_intro. rewrite !Is_true_true, !andb_true_iff, !negb_true_iff, !orb_false_iff,
      !andb_false_iff, !Z.eqb_eq, !Z.eqb_neq, !Z.ltb_ge. lia.
Qed.

(** C37: Each kind of packet header takes the bytes its layout says, and a receiver
    reads back the fields that were written, whatever follows them. *)
Theorem headers_roundtrip rest :
  (forall h : DataHeader, zlength (encode h) = 31 /\ (header_ok h -> decode (encode h ++ rest) = h)) /\
  (forall h : GrantHeader, zlength (encode h) = 27 /\ (header_ok h -> decode (encode h ++ rest) = h)) /\
  (forall h : ResendHeader, zlength (encode h) = 27 /\ (header_ok h -> decode (encode h ++ rest) = h)) /\
  (forall h : DoneHeader, zlength (encode h) = 22 /\ (header_ok h -> decode (encode h ++ rest) = h)) /\
  (forall h : BusyHeader, zlength (encode h) = 22 /\ (header_ok h -> decode (encode h ++ rest) = h)) /\
  (forall h : PingHeader, zlength (encode h) = 22 /\ (header_ok h -> decode (encode h ++ rest) = h)) /\
  (forall h : UnknownHeader, zlength (encode h) = 22 /\ (header_ok h -> decode (encode h ++ rest) = h)) /\
  (forall h : ErrorHeader, zlength (encode h) = 22 /\ (header_ok h -> decode (encode h ++ rest) = h)).
Proof. split_and!; intros h; (split; [exact (zlength_encode h)|exact (decode_encode h rest)]). Qed.

Lemma headers_roundtrip_witness :
  decode (encode (GrantHeader_new (mkMessageId 1 2) 1500 3) ++ [9; 9]) = GrantHeader_new (mkMessageId 1 2) 1500 3.
Proof.
  apply (headers_roundtrip [9; 9]). vm_compute. repeat split; congruence.
Defined.

Lemma MessageId_order_witness : ltMessageId (mkMessageId 1 2) (mkMessageId 2 1) = true.
Proof.
  apply (MessageId_order (mkMessageId 1 2) (mkMessageId 2 0) (mkMessageId 2 1)); reflexivity.
Defined.

End Protocol.
