(* ===== verification/Driver.v ===== *)
(** * Driver: the interface to the network (src/include/Homa/Driver.h,
    src/src/ControlPacket.h)

    The driver is code outside of the transport.  What the transport asks it is
    a class: the constants, the n-th reading of the clock, the n-th answer of
    [getQueuedBytes] and the initial bytes of the n-th packet buffer.  The calls
    the transport makes are recorded as events of the [World], in order. *)

From S2P Require Import Prelude Perf Protocol.

Module Driver.

Definition IpAddress := Z.

Class Driver := {
  getHighestPacketPriority : Z;
  getMaxPayloadSize : Z;
  getBandwidth : Z;
  getLocalAddress : IpAddress;
  getQueuedBytes_nth : nat -> Z;
  payload_nth : nat -> list Z;
  rdtsc_nth : nat -> Z;
  std_hash : Z -> Z
}.

(** What the documentation of the driver, and of the clock, promises. *)
Class DriverLaws `{Driver} := {
  priority_range : 0 <= getHighestPacketPriority < 2 ^ 8;
  payload_size_range : Protocol.header_size Protocol.DataHeader < getMaxPayloadSize < 2 ^ 16;
  payload_length n : zlength (payload_nth n) = getMaxPayloadSize;
  queued_range n : 0 <= getQueuedBytes_nth n < 2 ^ 32;
  rdtsc_mono n : rdtsc_nth n <= rdtsc_nth (S n);
  rdtsc_nonneg n : 0 <= rdtsc_nth n
}.

(** [Driver::Packet]; [pkt_id] is the address of the object. *)
Record Packet := mkPacket {
  pkt_id : positive;
  payload : list Z;
  length : Z
}.
#[global] Instance eta_Packet : Eta Packet := fun r => mkPacket (pkt_id r) (payload r) (length r).

Inductive Event :=
  | EvSend (destination : IpAddress) (priority : Z) (bytes : list Z)
  | EvRelease (packets : list positive).

Record World := mkWorld {
  clock_reads : nat;
  queue_reads : nat;
  allocated : nat;
  trace : list Event;
  counters : Perf.Counters
}.
#[global] Instance eta_World : Eta World := fun r =>
  mkWorld (clock_reads r) (queue_reads r) (allocated r) (trace r) (counters r).

Definition World_new : World := mkWorld 0 0 0 [] Perf.Counters_new.

Section operations.
Context `{Driver}.

Definition rdtsc : M World Z :=
  n ← gets clock_reads; _ ← modify (fun w => w <| clock_reads ::= S |>); mret (rdtsc_nth n).

Definition getQueuedBytes : M World Z :=
  n ← gets queue_reads; _ ← modify (fun w => w <| queue_reads ::= S |>);
  mret (getQueuedBytes_nth n).

Definition emit (e : Event) : M World unit := modify (fun w => w <| trace ::= fun t => t ++ [e] |>).

Definition count (c : Perf.Counter) (n : Z) : M World unit :=
  modify (fun w => w <| counters ::= Perf.stat_add c n |>).

(** [allocPacket()]. *)
Definition allocPacket : M World Packet :=
  n ← gets allocated;
  _ ← modify (fun w => w <| allocated ::= S |>);
  mret (mkPacket (Pos.of_succ_nat n) (payload_nth n) 0).

(** [sendPacket(packet, destination, priority)]: the bytes that go out are
    the first [length] of the payload. *)
Definition packet_bytes (p : Packet) : list Z := slice 0 (length p) (payload p).
Definition sendPacket (p : Packet) (destination : IpAddress) (priority : Z) : M World unit :=
  emit (EvSend destination priority (packet_bytes p)).
Definition releasePackets (ids : list positive) : M World unit := emit (EvRelease ids).

(** [new (packet->payload) Header(...)]. *)
Definition write_header {H : Type} `{Protocol.PacketHeader H} (h : H) (p : Packet) : Packet :=
  p <| payload ::= write_at 0 (Protocol.encode h) |>.
(** [static_cast<Header*>(packet->payload)]. *)
Definition read_header (H : Type) `{Protocol.PacketHeader H} (p : Packet) : H :=
  Protocol.decode (payload p).

(** [ControlPacket::send<Header>(driver, address, args...)]. *)
Definition send_control {H : Type} `{Protocol.PacketHeader H} (address : IpAddress) (h : H) : M World unit :=
  packet ← allocPacket;
  let packet := (write_header h packet) <| length := Protocol.header_size H |> in
  _ ← count Perf.tx_bytes (length packet);
  _ ← sendPacket packet address getHighestPacketPriority;
  releasePackets [pkt_id packet].

(** The last reading of the clock; readings only grow. *)
Definition now (w : World) : Z := rdtsc_nth (clock_reads w).
End operations.

Arguments Perf.stat_add : simpl never.

(** ** Lemmas *)

Section lemmas.
Context `{DriverLaws}.
Implicit Types (w : World).

Lemma wp_rdtsc w Q : Q (now w) (w <| clock_reads ::= S |>) -> wp rdtsc w Q.
Proof. done. Qed.
Lemma wp_emit e w (Q : unit -> World -> Prop) :
  Q tt (w <| trace ::= fun t => t ++ [e] |>) -> wp (emit e) w Q.
Proof. done. Qed.
Lemma wp_count c n w (Q : unit -> World -> Prop) :
  Q tt (w <| counters ::= Perf.stat_add c n |>) -> wp (count c n) w Q.
Proof. done. Qed.

Lemma now_mono w : now w <= now (w <| clock_reads ::= S |>).
Proof. apply rdtsc_mono. Qed.

Lemma rdtsc_le n m : (n <= m)%nat -> rdtsc_nth n <= rdtsc_nth m.
Proof. induction 1; [lia|]. pose proof (rdtsc_mono m). lia. Qed.

Lemma read_write_header {Hd : Type} `{Protocol.PacketHeaderLaws Hd} (h : Hd) p :
  Protocol.header_ok h -> read_header Hd (write_header h p) = h.
Proof.
  intros Hok. unfold read_header, write_header, over; cbn. unfold write_at. simpl.
  by apply Protocol.decode_encode.
Qed.

(** What [ControlPacket::send] puts on the wire: one packet whose bytes are
    the header's, at the highest priority; its packet is released at once. *)
Lemma wp_send_control {Hd : Type} `{Protocol.PacketHeaderLaws Hd} address (h : Hd) w Q :
  Q tt (mkWorld (clock_reads w) (queue_reads w) (S (allocated w))
    (trace w ++ [EvSend address getHighestPacketPriority (Protocol.encode h);
                 EvRelease [Pos.of_succ_nat (allocated w)]])
    (Perf.stat_add Perf.tx_bytes (Protocol.header_size Hd) (counters w))) ->
  wp (send_control address h) w Q.
Proof.
  intros HQ. unfold send_control, allocPacket, sendPacket, releasePackets, emit, count.
  repeat wp_step. unfold write_header, packet_bytes, over; cbn.
  assert (slice 0 (Protocol.header_size Hd) (write_at 0 (Protocol.encode h)
            (payload_nth (allocated w))) = Protocol.encode h) as ->.
  { rewrite <- (Protocol.zlength_encode h). apply slice_write_at_same; [done|].
    apply zlength_nonneg. }
  by rewrite <- app_assoc.
Qed.
End lemmas.

End Driver.
