(* ===== verification/SenderMessage.v ===== *)
(** * SenderMessage: building an outgoing message (src/src/Sender.h,
    src/src/Sender.cc, class [Sender::Message])

    An outgoing message is cut into packets of [PACKET_DATA_LENGTH] bytes, each
    with room for the DATA header in front.  [append], [prepend] and [reserve]
    walk over the packets they touch; [data] is the message the application
    sees, and the theorems say what each call does to it. *)

From S2P Require Import Prelude Util Perf Protocol Driver.
Import Driver.

(** ** Data *)

Inductive Status := NOT_STARTED | IN_PROGRESS | CANCELED | SENT | COMPLETED | FAILED.
#[global] Instance Status_eq_dec : EqDecision Status.
Proof. solve_decision. Defined.

(** [OutMessage::Options], a set of flags. *)
Definition NONE : Z := 0.
Definition NO_RETRY : Z := 1.
Definition NO_KEEP_ALIVE : Z := 2.
(** [options & flag]. *)
Definition has_option (options flag : Z) : bool := negb (Z.land options flag =? 0).

Record SocketAddress := mkSocketAddress { ip : IpAddress; port : Z }.
#[global] Instance SocketAddress_eq_dec : EqDecision SocketAddress.
Proof. solve_decision. Defined.

Module SenderMessage.

Definition MAX_MESSAGE_PACKETS : Z := 1024.

(** [Sender::QueuedMessageInfo]; its queue node is the message's place in the
    Sender's [sendQueue]. *)
Record QueuedMessageInfo := mkQueuedMessageInfo {
  q_id : Protocol.MessageId;
  q_destination : SocketAddress;
  q_packets : option positive;
  unsentBytes : Z;
  packetsGranted : Z;
  q_priority : Z;
  packetsSent : Z
}.
#[global] Instance eta_QueuedMessageInfo : Eta QueuedMessageInfo := fun r =>
  mkQueuedMessageInfo (q_id r) (q_destination r) (q_packets r) (unsentBytes r)
    (packetsGranted r) (q_priority r) (packetsSent r).

(** [Sender::Message]; [packets] holds the entries that [occupied] marks. *)
Record Message := mkMessage {
  id : Protocol.MessageId;
  source : SocketAddress;
  destination : SocketAddress;
  options : Z;
  held : bool;
  start : Z;
  messageLength : Z;
  numPackets : Z;
  packets : gmap Z Packet;
  state : Status;
  queuedMessageInfo : QueuedMessageInfo
}.
#[global] Instance eta_Message : Eta Message := fun r =>
  mkMessage (id r) (source r) (destination r) (options r) (held r) (start r)
    (messageLength r) (numPackets r) (packets r) (state r) (queuedMessageInfo r).

(** What a method of the message works on: the message and the driver. *)
Record MessageState := mkMessageState { message : Message; mworld : World }.
#[global] Instance eta_MessageState : Eta MessageState := fun r =>
  mkMessageState (message r) (mworld r).

Section methods.
Context `{Driver}.

Definition TRANSPORT_HEADER_LENGTH : Z := Protocol.header_size Protocol.DataHeader.
Definition PACKET_DATA_LENGTH : Z := i32 (u32 (getMaxPayloadSize - TRANSPORT_HEADER_LENGTH)).

Definition QueuedMessageInfo_new : QueuedMessageInfo :=
  mkQueuedMessageInfo (Protocol.mkMessageId 0 0) (mkSocketAddress 0 0) None 0 0 0 0.

(** [Message::Message(sender, sourcePort)]. *)
Definition Message_new (sourcePort : Z) : Message :=
  mkMessage (Protocol.mkMessageId 0 0) (mkSocketAddress getLocalAddress sourcePort)
    (mkSocketAddress 0 0) NONE true 0 0 0 ∅ NOT_STARTED QueuedMessageInfo_new.

Definition message_world {A} (m : M World A) : M MessageState A :=
  zoom mworld (fun w s => s <| mworld := w |>) m.
Definition set_message (f : Message -> Message) : M MessageState unit :=
  modify (fun s => s <| message ::= f |>).
Definition put_packet (index : Z) (p : Packet) : M MessageState unit :=
  set_message (fun m => m <| packets ::= <[index := p]> |>).

(** [getPacket(index)]; [occupied.test] throws beyond the array. *)
Definition getPacket (m : Message) (index : Z) : Result (option Packet) :=
  if (0 <=? index) && (index <? MAX_MESSAGE_PACKETS) then Ok (packets m !! index)
  else Error OutOfRange.

Definition getOrAllocPacket (index : Z) : M MessageState Packet :=
  s ← get;
  found ← lift (getPacket (message s) index);
  match found with
  | Some p => mret p
  | None =>
      p ← message_world allocPacket;
      let p := p <| length := TRANSPORT_HEADER_LENGTH |> in
      _ ← put_packet index p;
      _ ← set_message (fun m => m <| numPackets ::= fun n => n + 1 |>);
      mret p
  end.

(** [memcpy] into the payload; writing past the buffer is not memory of the
    packet. *)
Definition copy_into (p : Packet) (offset : Z) (bytes : list Z) : M MessageState Packet :=
  if (0 <=? offset) && (offset + zlength bytes <=? zlength (payload p))
  then mret (p <| payload ::= write_at offset bytes |>)
  else fault BadPointer.

(** The walk over packets that append, prepend and reserve share:
    [while (done < count) { n = min(count - done, PACKET_DATA_LENGTH - offset);
    body; done += n; packetIndex++; packetOffset = 0; }]. *)
Fixpoint walk_packets (fuel : nat) (count : Z) (body : Z -> Z -> Z -> Z -> M MessageState unit)
    (packetIndex packetOffset done : Z) : M MessageState unit :=
  if done <? count then
    match fuel with
    | O => fault OutOfFuel
    | S fuel' =>
        let n := Z.min (count - done) (PACKET_DATA_LENGTH - packetOffset) in
        _ ← body packetIndex packetOffset done n;
        walk_packets fuel' count body (packetIndex + 1) 0 (done + n)
    end
  else mret tt.

Definition maxMessageLength : Z := i32 (u64 (PACKET_DATA_LENGTH * MAX_MESSAGE_PACKETS)).

Definition append_chunk (bytes : list Z) (packetIndex packetOffset done n : Z) : M MessageState unit :=
  packet ← getOrAllocPacket packetIndex;
  packet ← copy_into packet (packetOffset + TRANSPORT_HEADER_LENGTH) (slice done n bytes);
  let packet := packet <| length ::= fun l => l + n |> in
  _ ← put_packet packetIndex packet;
  check (length packet <=? TRANSPORT_HEADER_LENGTH + PACKET_DATA_LENGTH).

(** [append(source, count)], [bytes] being the [count] bytes at [source]. *)
Definition append (bytes : list Z) : M MessageState unit :=
  count ← Util.downCast_int_of_size (zlength bytes);
  m ← gets message;
  let packetIndex := messageLength m ÷ PACKET_DATA_LENGTH in
  let packetOffset := Z.rem (messageLength m) PACKET_DATA_LENGTH in
  let count := if maxMessageLength <? i32 (messageLength m + count)
               then maxMessageLength - messageLength m else count in
  _ ← walk_packets (Z.to_nat count) count (append_chunk bytes) packetIndex packetOffset 0;
  set_message (fun m => m <| messageLength ::= fun l => l + count |>).

Definition prepend_chunk (bytes : list Z) (packetIndex packetOffset done n : Z) : M MessageState unit :=
  s ← get;
  found ← lift (getPacket (message s) packetIndex);
  match found with
  | None => fault AssertFailed
  | Some packet =>
      packet ← copy_into packet (packetOffset + TRANSPORT_HEADER_LENGTH) (slice done n bytes);
      put_packet packetIndex packet
  end.

Definition prepend (bytes : list Z) : M MessageState unit :=
  count ← Util.downCast_int_of_size (zlength bytes);
  m ← gets message;
  _ ← check (count <=? start m);
  let start' := start m - count in
  _ ← set_message (fun m => m <| start := start' |>);
  walk_packets (Z.to_nat count) count (prepend_chunk bytes)
    (start' ÷ PACKET_DATA_LENGTH) (Z.rem start' PACKET_DATA_LENGTH) 0.

Definition reserve_chunk (packetIndex packetOffset done n : Z) : M MessageState unit :=
  packet ← getOrAllocPacket packetIndex;
  let packet := packet <| length ::= fun l => l + n |> in
  _ ← put_packet packetIndex packet;
  check (length packet <=? TRANSPORT_HEADER_LENGTH + PACKET_DATA_LENGTH).

Definition reserve (n : Z) : M MessageState unit :=
  count ← Util.downCast_int_of_size n;
  m ← gets message;
  _ ← check (start m =? messageLength m);
  let packetIndex := start m ÷ PACKET_DATA_LENGTH in
  let packetOffset := Z.rem (start m) PACKET_DATA_LENGTH in
  let count := if maxMessageLength <? i32 (start m + count)
               then maxMessageLength - start m else count in
  _ ← walk_packets (Z.to_nat count) count reserve_chunk packetIndex packetOffset 0;
  set_message (fun m => m <| start ::= fun l => l + count |>
                          <| messageLength ::= fun l => l + count |>).

(** [length()]: the message without the reserved headroom. *)
Definition message_length (m : Message) : Z := u64 (messageLength m - start m).
End methods.

Arguments TRANSPORT_HEADER_LENGTH : simpl never.
Arguments PACKET_DATA_LENGTH {_} : simpl never.
Arguments maxMessageLength {_} : simpl never.

(** ** The shape of a message and its bytes *)

Section shape.
Context `{DriverLaws}.
Implicit Types (m : Message) (ps : gmap Z Packet) (p : Packet).

Lemma data_length_range : 0 < PACKET_DATA_LENGTH < 2 ^ 16.
Proof.
  unfold PACKET_DATA_LENGTH, TRANSPORT_HEADER_LENGTH. pose proof payload_size_range as Hs.
  cbn [Protocol.header_size Protocol.DataHeader_packet] in *.
  rewrite u32_small, i32_small; lia.
Qed.

Lemma data_div_mod k :
  k = PACKET_DATA_LENGTH * (k / PACKET_DATA_LENGTH) + k mod PACKET_DATA_LENGTH /\
  0 <= k mod PACKET_DATA_LENGTH < PACKET_DATA_LENGTH.
Proof.
  pose proof data_length_range. split; [apply Z.div_mod; lia|apply Z.mod_pos_bound; lia].
Qed.

Lemma data_length_payload : TRANSPORT_HEADER_LENGTH + PACKET_DATA_LENGTH = getMaxPayloadSize.
Proof.
  unfold PACKET_DATA_LENGTH, TRANSPORT_HEADER_LENGTH. pose proof payload_size_range as Hs.
  cbn [Protocol.header_size Protocol.DataHeader_packet] in *.
  rewrite u32_small, i32_small; lia.
Qed.

Lemma maxMessageLength_eq : maxMessageLength = PACKET_DATA_LENGTH * MAX_MESSAGE_PACKETS.
Proof.
  unfold maxMessageLength, MAX_MESSAGE_PACKETS. pose proof data_length_range.
  rewrite u64_small, i32_small; lia.
Qed.

(** How many packets [len] bytes take. *)
Definition packets_for (len : Z) : Z := (len + PACKET_DATA_LENGTH - 1) / PACKET_DATA_LENGTH.

(** The packets hold [len] bytes: all full but the last. *)
Record shape (ps : gmap Z Packet) (num len : Z) : Prop := {
  shape_num : num = packets_for len;
  shape_dom : forall i, is_Some (ps !! i) <-> 0 <= i < num;
  shape_len : forall i p, ps !! i = Some p ->
    length p = TRANSPORT_HEADER_LENGTH + Z.min PACKET_DATA_LENGTH (len - i * PACKET_DATA_LENGTH);
  shape_payload : forall i p, ps !! i = Some p -> zlength (payload p) = getMaxPayloadSize
}.

Record message_ok m : Prop := {
  mo_shape : shape (packets m) (numPackets m) (messageLength m);
  mo_len : 0 <= start m <= messageLength m;
  mo_max : messageLength m <= maxMessageLength
}.

(** The byte of a message at offset [k], headroom included. *)
Definition byte_at ps (k : Z) : option Z :=
  p ← ps !! (k / PACKET_DATA_LENGTH);
  payload p !! Z.to_nat (TRANSPORT_HEADER_LENGTH + k mod PACKET_DATA_LENGTH).

(** The message the application sees. *)
Definition data m : list Z :=
  omap (byte_at (packets m)) (seqZ (start m) (messageLength m - start m)).

Lemma packets_for_step len n :
  0 <= len -> 0 < n <= PACKET_DATA_LENGTH - len mod PACKET_DATA_LENGTH ->
  packets_for (len + n) = len / PACKET_DATA_LENGTH + 1 /\
  packets_for len = len / PACKET_DATA_LENGTH +
    (if decide (len mod PACKET_DATA_LENGTH = 0) then 0 else 1).
Proof.
  intros Hl Hn. unfold packets_for. pose proof data_length_range as Hd.
  set (P := PACKET_DATA_LENGTH) in *. pose proof (Z.div_mod len P ltac:(lia)) as Hdm.
  pose proof (Z.mod_pos_bound len P ltac:(lia)).
  set (q := len / P) in *. set (r := len mod P) in *. split.
  - symmetry. apply (Z.div_unique _ _ _ (r + n - 1)); nia.
  - case_decide as Hr; symmetry.
    + apply (Z.div_unique _ _ _ (P - 1)); nia.
    + apply (Z.div_unique _ _ _ (r - 1)); nia.
Qed.

Lemma packets_for_bound len :
  0 <= len <= maxMessageLength -> 0 <= packets_for len <= MAX_MESSAGE_PACKETS.
Proof.
  rewrite maxMessageLength_eq. pose proof data_length_range. intros. unfold packets_for. split.
  - apply Z.div_pos; lia.
  - apply Z.lt_succ_r, Z.div_lt_upper_bound; lia.
Qed.

Lemma packets_for_covers len k :
  0 <= k < len -> 0 <= k / PACKET_DATA_LENGTH < packets_for len.
Proof.
  pose proof data_length_range. intros. split; [apply Z.div_pos; lia|]. unfold packets_for.
  apply Z.lt_le_trans with (k / PACKET_DATA_LENGTH + 1); [lia|].
  rewrite <- Z.div_add by lia. apply Z.div_le_mono; lia.
Qed.

Lemma getPacket_ok m i :
  0 <= i < MAX_MESSAGE_PACKETS -> getPacket m i = Ok (packets m !! i).
Proof.
  intros. unfold getPacket.
  replace (0 <=? i) with true by (symmetry; apply Z.leb_le; lia).
  by replace (i <? MAX_MESSAGE_PACKETS) with true by (symmetry; apply Z.ltb_lt; lia).
Qed.

Lemma lookup_write_at {B} off (bs l : list B) (i : nat) :
  0 <= off -> off + zlength bs <= zlength l ->
  write_at off bs l !! i =
  if decide (off <= Z.of_nat i < off + zlength bs) then bs !! (i - Z.to_nat off)%nat else l !! i.
Proof.
  unfold zlength, write_at. intros. case_decide.
  - rewrite lookup_app_r by (rewrite length_take; lia).
    rewrite length_take, lookup_app_l by lia. f_equal. lia.
  - destruct (decide (i < Z.to_nat off)%nat).
    + rewrite lookup_app_l by (rewrite length_take; lia). apply lookup_take_lt. lia.
    + rewrite lookup_app_r by (rewrite length_take; lia).
      rewrite lookup_app_r by (rewrite length_take; lia).
      rewrite lookup_drop, length_take. f_equal. lia.
Qed.

(** The loop rule of [walk_packets]: the [done] bytes are a prefix of the
    range from [base]; each round covers the rest of one packet. *)
Lemma walk_packets_wp (I : Z -> MessageState -> Prop) count body base s Q fuel :
  0 <= base -> 0 <= count -> Z.of_nat fuel = count -> I 0 s ->
  (forall d n s', 0 <= d -> 0 < n -> d + n <= count -> I d s' ->
     let pos := base + d in
     n <= PACKET_DATA_LENGTH - pos mod PACKET_DATA_LENGTH ->
     wp (body (pos / PACKET_DATA_LENGTH) (pos mod PACKET_DATA_LENGTH) d n) s'
       (fun _ s'' => I (d + n) s'')) ->
  (forall s', I count s' -> Q tt s') ->
  wp (walk_packets fuel count body (base / PACKET_DATA_LENGTH)
        (base mod PACKET_DATA_LENGTH) 0) s Q.
Proof.
  intros Hb Hc Hfuel HI Hbody HQ. pose proof data_length_range as HP.
  set (P := PACKET_DATA_LENGTH) in *.
  cut (forall fuel d idx off s, 0 <= d <= count -> count - d <= Z.of_nat fuel -> I d s ->
         (d < count -> idx = (base + d) / P /\ off = (base + d) mod P) ->
         wp (walk_packets fuel count body idx off d) s Q).
  { intros Hcut. apply Hcut; [lia|lia|done|]. by rewrite Z.add_0_r. }
  clear fuel Hfuel HI s. intros fuel. induction fuel as [|fuel IH]; intros d idx off s Hd Hf HI Hpos; simpl.
  - assert (d = count) as -> by lia. rewrite Z.ltb_irrefl. apply wp_ret. auto.
  - case_bool; [|assert (d = count) as -> by lia; apply wp_ret; auto].
    fold P. destruct Hpos as [-> ->]; [lia|].
    pose proof (Z.mod_pos_bound (base + d) P ltac:(lia)).
    set (n := Z.min (count - d) (P - (base + d) mod P)). wp_step.
    eapply wp_mono; [apply Hbody; try done; lia|]. intros ? s' HI'.
    apply IH; [lia|lia|done|]. intros Hlt. subst n.
    rewrite Z.min_r by lia.
    pose proof (Z.div_mod (base + d) P ltac:(lia)) as Hdm.
    set (q := (base + d) / P) in *. set (r := (base + d) mod P) in *.
    assert (base + (d + (P - r)) = (q + 1) * P) as -> by lia.
    rewrite Z.div_mul, Z.mod_mul by lia. done.
Qed.

(** A message that differs from [m0] in its packets only, in a world that
    differs from [w0] in the number of allocated packets only. *)
Definition refilled (m0 : Message) (w0 : World) (ps : gmap Z Packet) (num : Z) (a : nat) : MessageState :=
  mkMessageState (m0 <| packets := ps |> <| numPackets := num |>) (w0 <| allocated := a |>).

Lemma refilled_self s :
  s = refilled (message s) (mworld s) (packets (message s)) (numPackets (message s))
        (allocated (mworld s)).
Proof. destruct s as [[] []]. done. Qed.

Lemma put_packet_wp i p m0 w0 ps num a (Q : unit -> MessageState -> Prop) :
  Q tt (refilled m0 w0 (<[i := p]> ps) num a) -> wp (put_packet i p) (refilled m0 w0 ps num a) Q.
Proof. intros HQ. unfold put_packet, set_message. wp_step. unfold refilled, over in *. done. Qed.

Lemma getOrAllocPacket_wp m0 w0 ps num a len n Q :
  shape ps num len -> 0 <= len -> len + n <= maxMessageLength ->
  0 < n <= PACKET_DATA_LENGTH - len mod PACKET_DATA_LENGTH ->
  (forall p a',
     length p = TRANSPORT_HEADER_LENGTH + len mod PACKET_DATA_LENGTH ->
     zlength (payload p) = getMaxPayloadSize ->
     (forall k, 0 <= k < len -> k / PACKET_DATA_LENGTH = len / PACKET_DATA_LENGTH ->
        ps !! (len / PACKET_DATA_LENGTH) = Some p) ->
     Q p (refilled m0 w0 (<[len / PACKET_DATA_LENGTH := p]> ps) (packets_for (len + n)) a')) ->
  wp (getOrAllocPacket (len / PACKET_DATA_LENGTH)) (refilled m0 w0 ps num a) Q.
Proof.
  intros [Hnum Hdom Hlen Hpay] Hl Hmax Hn HQ. pose proof data_length_range as HP.
  destruct (packets_for_step len n Hl Hn) as [Hp1 Hp0].
  assert (0 <= len / PACKET_DATA_LENGTH < MAX_MESSAGE_PACKETS) as Hidx.
  { destruct (packets_for_bound (len + n) ltac:(lia)). split; [apply Z.div_pos; lia|lia]. }
  destruct (data_div_mod len).
  set (i := len / PACKET_DATA_LENGTH) in *.
  unfold getOrAllocPacket. repeat wp_step. unfold wp at 1, lift. rewrite getPacket_ok by done.
  unfold refilled at 1, over; cbn [message packets].
  destruct (ps !! i) as [p|] eqn:Hi.
  - assert (0 <= i < num) by (apply Hdom; eauto). apply wp_ret.
    assert (num = packets_for (len + n)) as -> by (case_decide; lia).
    rewrite <- (insert_id ps i p Hi) at 1. apply HQ; [|by eapply Hpay|done].
    rewrite (Hlen _ _ Hi). case_decide; [lia|].
    rewrite Z.min_r by lia. lia.
  - assert (~ 0 <= i < num) by (rewrite <- Hdom, Hi; apply is_Some_None).
    assert (len mod PACKET_DATA_LENGTH = 0) as Hz by (case_decide; [done|lia]).
    unfold message_world, allocPacket, put_packet, set_message. repeat wp_step.
    rewrite decide_True in Hp0 by done.
    replace (packets_for (len + n)) with (num + 1) in HQ by lia.
    apply HQ; [unfold over; cbn; lia|apply payload_length|].
    intros k Hk Hki. exfalso. destruct (data_div_mod k). nia.
Qed.

(** Growing the packet at the end by [n] bytes. *)
Lemma shape_grow ps num len n p :
  shape ps num len -> 0 <= len ->
  0 < n <= PACKET_DATA_LENGTH - len mod PACKET_DATA_LENGTH ->
  length p = TRANSPORT_HEADER_LENGTH + len mod PACKET_DATA_LENGTH + n ->
  zlength (payload p) = getMaxPayloadSize ->
  shape (<[len / PACKET_DATA_LENGTH := p]> ps) (packets_for (len + n)) (len + n).
Proof.
  intros [Hnum Hdom Hlen Hpay] Hl Hn Hp Hpl. pose proof data_length_range as HP.
  destruct (packets_for_step len n Hl Hn) as [Hp1 Hp0].
  destruct (data_div_mod len).
  assert (0 <= len / PACKET_DATA_LENGTH) by (apply Z.div_pos; lia).
  set (i := len / PACKET_DATA_LENGTH) in *. split; [done| | |].
  - intros j. rewrite Hp1. destruct (decide (j = i)) as [->|Hj].
    + rewrite lookup_insert_eq. split; [lia|eauto].
    + rewrite lookup_insert_ne, Hdom by done. case_decide; lia.
  - intros j q [[<- <-]|[Hj Hq]]%lookup_insert_Some.
    + rewrite Hp, Z.min_r by lia. lia.
    + rewrite (Hlen _ _ Hq). assert (0 <= j < num) by (apply Hdom; eauto).
      assert (j < i) by (case_decide; lia). rewrite !Z.min_l by nia. done.
  - intros j q [[<- <-]|[Hj Hq]]%lookup_insert_Some; [done|eauto].
Qed.

Lemma byte_at_insert ps i p k :
  byte_at (<[i := p]> ps) k =
  if decide (k / PACKET_DATA_LENGTH = i)
  then payload p !! Z.to_nat (TRANSPORT_HEADER_LENGTH + k mod PACKET_DATA_LENGTH)
  else byte_at ps k.
Proof.
  unfold byte_at. case_decide as Hk; [rewrite Hk, lookup_insert_eq|rewrite lookup_insert_ne]; done.
Qed.

(** Copying [bytes] into the packet of position [pos]. *)
Lemma copy_into_wp p (pos : Z) bytes s Q :
  0 <= pos -> zlength bytes <= PACKET_DATA_LENGTH - pos mod PACKET_DATA_LENGTH ->
  zlength (payload p) = getMaxPayloadSize ->
  (forall p', length p' = length p -> pkt_id p' = pkt_id p ->
     zlength (payload p') = getMaxPayloadSize ->
     (forall k, 0 <= k -> k / PACKET_DATA_LENGTH = pos / PACKET_DATA_LENGTH ->
        payload p' !! Z.to_nat (TRANSPORT_HEADER_LENGTH + k mod PACKET_DATA_LENGTH) =
        if decide (pos <= k < pos + zlength bytes) then bytes !! Z.to_nat (k - pos)
        else payload p !! Z.to_nat (TRANSPORT_HEADER_LENGTH + k mod PACKET_DATA_LENGTH)) ->
     Q p' s) ->
  wp (copy_into p (pos mod PACKET_DATA_LENGTH + TRANSPORT_HEADER_LENGTH) bytes) s Q.
Proof.
  intros Hpos Hlen Hpay HQ. pose proof data_length_range as HP.
  pose proof data_length_payload as Hsum. pose proof (zlength_nonneg bytes).
  destruct (data_div_mod pos).
  assert (TRANSPORT_HEADER_LENGTH = 31) as HT by done. unfold copy_into. rewrite HT in *.
  case_bool.
  apply wp_ret. apply HQ; [done|done| |].
  - unfold over; cbn [payload]. rewrite zlength_write_at; lia.
  - intros k Hk0 Hk. unfold over; cbn [payload].
    destruct (data_div_mod k).
    destruct (data_div_mod pos).
    destruct (data_div_mod k).
    rewrite lookup_write_at by lia. rewrite Z2Nat.id by lia.
    assert (k - pos = k mod PACKET_DATA_LENGTH - pos mod PACKET_DATA_LENGTH)
      by (rewrite Hk in *; lia).
    do 2 case_decide; try lia; [|done]. f_equal. lia.
Qed.

Lemma slice_lookup_chunk (bytes : list Z) (d n j : Z) :
  0 <= d -> 0 <= j < n -> slice d n bytes !! Z.to_nat j = bytes !! Z.to_nat (d + j).
Proof. intros. rewrite lookup_slice by lia. f_equal. lia. Qed.

(** ** [append] *)

Lemma append_chunk_wp m0 w0 ps num a bytes len n d Q :
  shape ps num len -> 0 <= len -> len + n <= maxMessageLength -> 0 <= d ->
  d + n <= zlength bytes -> 0 < n <= PACKET_DATA_LENGTH - len mod PACKET_DATA_LENGTH ->
  (forall ps' num' a', shape ps' num' (len + n) ->
     (forall k, 0 <= k < len + n -> byte_at ps' k =
        if decide (len <= k) then bytes !! Z.to_nat (d + (k - len)) else byte_at ps k) ->
     Q tt (refilled m0 w0 ps' num' a')) ->
  wp (append_chunk bytes (len / PACKET_DATA_LENGTH) (len mod PACKET_DATA_LENGTH) d n)
    (refilled m0 w0 ps num a) Q.
Proof.
  intros Hsh Hl Hmax Hd Hdn Hn HQ. pose proof data_length_range as HP. unfold append_chunk.
  assert (zlength (slice d n bytes) = n) as Hzl by (by rewrite zlength_slice by lia).
  wp_step. eapply getOrAllocPacket_wp; [done..|]. intros p a' Hlp Hpp Hold.
  wp_step. apply copy_into_wp; [done|lia|done|]. intros p' Hlp' _ Hpp' Hby.
  wp_step. apply put_packet_wp. wp_step; [apply Z.leb_le; unfold over; cbn; lia|].
  rewrite Hzl in Hby. apply HQ.
  - rewrite insert_insert_eq. eapply shape_grow; [done..| |done]. unfold over; cbn. lia.
  - intros k Hk. rewrite insert_insert_eq, byte_at_insert. unfold over; cbn [payload].
    case_decide as Hkp.
    + rewrite Hby by (lia || done). case_decide.
      * rewrite decide_True by lia. rewrite slice_lookup_chunk by lia. done.
      * rewrite decide_False by lia. unfold byte_at. rewrite Hkp. by rewrite (Hold k) by (lia || done).
    + rewrite decide_False; [done|]. intros Hlk. apply Hkp.
      destruct (data_div_mod len).
      symmetry. apply (Z.div_unique _ _ _ (k - PACKET_DATA_LENGTH * (len / PACKET_DATA_LENGTH))); [|lia].
      destruct (data_div_mod len). lia.
Qed.

Lemma quot_rem_data_length x :
  0 <= x -> x ÷ PACKET_DATA_LENGTH = x / PACKET_DATA_LENGTH /\
  Z.rem x PACKET_DATA_LENGTH = x mod PACKET_DATA_LENGTH.
Proof.
  intros. pose proof data_length_range. split;
    [apply Z.quot_div_nonneg|apply Z.rem_mod_nonneg]; lia.
Qed.

Lemma data_append m m' bytes n :
  start m' = start m -> 0 <= start m <= messageLength m -> 0 <= n <= zlength bytes ->
  messageLength m' = messageLength m + n ->
  (forall k, 0 <= k < messageLength m + n -> byte_at (packets m') k =
     if decide (messageLength m <= k) then bytes !! Z.to_nat (k - messageLength m)
     else byte_at (packets m) k) ->
  data m' = data m ++ take (Z.to_nat n) bytes.
Proof.
  intros Hs Hst Hn Hl Hby. unfold data. rewrite Hs, Hl.
  replace (messageLength m + n - start m) with ((messageLength m - start m) + n) by lia.
  rewrite seqZ_app by lia. rewrite omap_app. f_equal.
  - apply omap_ext_elem. intros k Hk%elem_of_seqZ. rewrite Hby by lia. by rewrite decide_False by lia.
  - replace (start m + (messageLength m - start m)) with (messageLength m) by lia.
    assert (zlength (take (Z.to_nat n) bytes) = n) as Hzl.
    { unfold zlength in *. rewrite length_take. lia. }
    rewrite <- Hzl at 1. apply omap_seqZ. intros i Hi. rewrite length_take in Hi.
    rewrite Hby by (unfold zlength in *; lia). rewrite decide_True by lia.
    rewrite lookup_take_lt by lia. f_equal. lia.
Qed.

(** How much of an append fits. *)
Definition fitting m (n : Z) : Z := Z.min n (maxMessageLength - messageLength m).

Lemma append_wp s bytes (Q : unit -> MessageState -> Prop) :
  message_ok (message s) -> messageLength (message s) + zlength bytes < 2 ^ 31 ->
  (forall ps num a,
     let m := message s in
     let n := fitting m (zlength bytes) in
     let m' := m <| packets := ps |> <| numPackets := num |> <| messageLength := messageLength m + n |> in
     message_ok m' -> data m' = data m ++ take (Z.to_nat n) bytes ->
     Q tt (mkMessageState m' ((mworld s) <| allocated := a |>))) ->
  wp (append bytes) s Q.
Proof.
  intros [Hsh Hst Hmax] Hof HQ. set (m := message s) in *. set (n := fitting m (zlength bytes)) in *.
  pose proof (zlength_nonneg bytes) as Hz. unfold append. wp_step.
  apply Util.wp_downCast_int_of_size; [lia|]. repeat wp_step. fold m.
  destruct (quot_rem_data_length (messageLength m)) as [-> ->]; [lia|].
  assert ((if maxMessageLength <? i32 (messageLength m + zlength bytes)
           then maxMessageLength - messageLength m else zlength bytes) = n) as ->.
  { rewrite i32_small by lia. unfold n, fitting. case_bool; lia. }
  assert (0 <= n <= zlength bytes /\ messageLength m + n <= maxMessageLength) as [Hn Hnm].
  { unfold n, fitting. lia. }
  rewrite (refilled_self s). fold m.
  eapply (walk_packets_wp (fun d s' => exists ps num a,
    s' = refilled m (mworld s) ps num a /\ shape ps num (messageLength m + d) /\
    (forall k, 0 <= k < messageLength m + d -> byte_at ps k =
       if decide (messageLength m <= k) then bytes !! Z.to_nat (k - messageLength m)
       else byte_at (packets m) k))); [lia|lia|lia| | |].
  - eexists _, _, _. split_and!; [done|by rewrite Z.add_0_r|].
    intros k Hk. by rewrite decide_False by lia.
  - intros d k s' Hd Hk Hdk (ps & num & a & -> & Hps & Hby) pos Hkp.
    apply append_chunk_wp; [done|lia|lia|done|lia|done|].
    intros ps' num' a' Hps' Hby'. eexists _, _, _. split_and!; [done| |].
    + by rewrite Z.add_assoc.
    + intros j Hj. unfold pos in *. rewrite Hby' by lia. case_decide.
      * rewrite decide_True by lia. f_equal. lia.
      * apply Hby. lia.
  - intros s' (ps & num & a & -> & Hps & Hby). unfold set_message. wp_step.
    apply (HQ ps num a).
    + unfold over; split; cbn [start messageLength packets numPackets]; [done|lia|lia].
    + unfold over; apply data_append; cbn [start messageLength packets numPackets]; (done || lia).
Qed.

(** ** [reserve] *)

Lemma reserve_chunk_wp m0 w0 ps num a len n d Q :
  shape ps num len -> 0 <= len -> len + n <= maxMessageLength ->
  0 < n <= PACKET_DATA_LENGTH - len mod PACKET_DATA_LENGTH ->
  (forall ps' num' a', shape ps' num' (len + n) -> Q tt (refilled m0 w0 ps' num' a')) ->
  wp (reserve_chunk (len / PACKET_DATA_LENGTH) (len mod PACKET_DATA_LENGTH) d n)
    (refilled m0 w0 ps num a) Q.
Proof.
  intros Hsh Hl Hmax Hn HQ. pose proof data_length_range as HP. unfold reserve_chunk.
  wp_step. eapply getOrAllocPacket_wp; [done..|]. intros p a' Hlp Hpp _.
  wp_step. apply put_packet_wp. wp_step; [apply Z.leb_le; unfold over; cbn; lia|].
  apply HQ. rewrite insert_insert_eq. eapply shape_grow; [done..| |done]. unfold over; cbn. lia.
Qed.

Lemma reserve_wp s count (Q : unit -> MessageState -> Prop) :
  message_ok (message s) -> start (message s) = messageLength (message s) -> 0 <= count ->
  messageLength (message s) + count < 2 ^ 31 ->
  (forall ps num a,
     let m := message s in
     let n := fitting m count in
     let m' := m <| packets := ps |> <| numPackets := num |> <| start := start m + n |>
                 <| messageLength := messageLength m + n |> in
     message_ok m' -> Q tt (mkMessageState m' ((mworld s) <| allocated := a |>))) ->
  wp (reserve count) s Q.
Proof.
  intros [Hsh Hst Hmax] Heq Hc Hof HQ. set (m := message s) in *. set (n := fitting m count) in *.
  unfold reserve. wp_step. apply Util.wp_downCast_int_of_size; [lia|]. repeat wp_step; fold m.
  { apply Z.eqb_eq. done. }
  rewrite Heq. destruct (quot_rem_data_length (messageLength m)) as [-> ->]; [lia|].
  assert ((if maxMessageLength <? i32 (messageLength m + count)
           then maxMessageLength - messageLength m else count) = n) as ->.
  { rewrite i32_small by lia. unfold n, fitting. case_bool; lia. }
  assert (0 <= n /\ messageLength m + n <= maxMessageLength) as [Hn Hnm].
  { unfold n, fitting. lia. }
  rewrite (refilled_self s). fold m.
  eapply (walk_packets_wp (fun d s' => exists ps num a,
    s' = refilled m (mworld s) ps num a /\ shape ps num (messageLength m + d)));
    [lia|lia|lia| | |].
  - eexists _, _, _. split; [done|by rewrite Z.add_0_r].
  - intros d k s' Hd Hk Hdk (ps & num & a & -> & Hps) pos Hkp.
    apply reserve_chunk_wp; [done|lia|lia|done|].
    intros ps' num' a' Hps'. eexists _, _, _. split; [done|]. by rewrite Z.add_assoc.
  - intros s' (ps & num & a & -> & Hps). unfold set_message. wp_step.
    apply (HQ ps num a). unfold over; split; cbn [start messageLength packets numPackets]; [done|lia|lia].
Qed.

(** ** [prepend] *)

Lemma prepend_chunk_wp m0 w0 ps num a bytes len pos n d Q :
  shape ps num len -> len <= maxMessageLength -> 0 <= pos -> pos + n <= len ->
  0 <= d -> d + n <= zlength bytes ->
  0 < n <= PACKET_DATA_LENGTH - pos mod PACKET_DATA_LENGTH ->
  (forall ps', shape ps' num len ->
     (forall k, 0 <= k -> byte_at ps' k =
        if decide (pos <= k < pos + n) then bytes !! Z.to_nat (d + (k - pos)) else byte_at ps k) ->
     Q tt (refilled m0 w0 ps' num a)) ->
  wp (prepend_chunk bytes (pos / PACKET_DATA_LENGTH) (pos mod PACKET_DATA_LENGTH) d n)
    (refilled m0 w0 ps num a) Q.
Proof.
  intros [Hnum Hdom Hlen Hpay] Hmax Hpos Hpl Hd Hdn Hn HQ. pose proof data_length_range as HP.
  assert (zlength (slice d n bytes) = n) as Hzl by (by rewrite zlength_slice by lia).
  pose proof (packets_for_covers len pos ltac:(lia)) as Hidx. rewrite <- Hnum in Hidx.
  pose proof (packets_for_bound len ltac:(lia)) as Hb.
  apply Hdom in Hidx as Hp. destruct Hp as [p Hp].
  unfold prepend_chunk. repeat wp_step. unfold wp, lift. rewrite getPacket_ok by lia.
  unfold refilled at 1, over; cbn [message packets]. rewrite Hp.
  fold (wp (packet ← copy_into p (pos mod PACKET_DATA_LENGTH + TRANSPORT_HEADER_LENGTH)
              (slice d n bytes); put_packet (pos / PACKET_DATA_LENGTH) packet)
           (refilled m0 w0 ps num a) Q).
  wp_step. apply copy_into_wp; [done|lia|by eapply Hpay|]. intros p' Hlp' _ Hpp' Hby.
  apply put_packet_wp. rewrite Hzl in Hby. apply HQ.
  - split; [done| | |].
    + intros i. destruct (decide (i = pos / PACKET_DATA_LENGTH)) as [->|].
      * rewrite lookup_insert_eq. split; [lia|eauto].
      * by rewrite lookup_insert_ne.
    + intros i q [[<- <-]|[_ Hq]]%lookup_insert_Some; [|eauto]. rewrite Hlp'. eauto.
    + intros i q [[<- <-]|[_ Hq]]%lookup_insert_Some; [done|eauto].
  - intros k Hk. rewrite byte_at_insert. case_decide as Hkp.
    + rewrite Hby by done. case_decide.
      * rewrite slice_lookup_chunk by lia. done.
      * unfold byte_at. rewrite Hkp, Hp. done.
    + rewrite decide_False; [done|]. intros Hlk. apply Hkp.
      destruct (data_div_mod pos), (data_div_mod k).
      symmetry. apply (Z.div_unique _ _ _ (k - PACKET_DATA_LENGTH * (pos / PACKET_DATA_LENGTH))); lia.
Qed.

Lemma prepend_wp s bytes (Q : unit -> MessageState -> Prop) :
  message_ok (message s) -> zlength bytes <= start (message s) ->
  (forall ps,
     let m := message s in
     let m' := m <| packets := ps |> <| start := start m - zlength bytes |> in
     message_ok m' -> data m' = bytes ++ data m ->
     Q tt (mkMessageState m' (mworld s))) ->
  wp (prepend bytes) s Q.
Proof.
  intros [Hsh Hst Hmax] Hle HQ. set (m := message s) in *.
  pose proof (zlength_nonneg bytes) as Hz. pose proof maxMessageLength_eq as Hmm.
  pose proof data_length_range as HP. unfold MAX_MESSAGE_PACKETS in Hmm.
  unfold prepend. wp_step. apply Util.wp_downCast_int_of_size; [lia|]. repeat wp_step; fold m.
  { apply Z.leb_le. done. }
  unfold set_message. repeat wp_step.
  destruct (quot_rem_data_length (start m - zlength bytes)) as [-> ->]; [lia|].
  set (m1 := m <| start := start m - zlength bytes |>).
  change (s <| message ::= _ |>) with (mkMessageState m1 (mworld s)).
  rewrite (refilled_self (mkMessageState m1 (mworld s))). cbn [message mworld].
  eapply (walk_packets_wp (fun d s' => exists ps,
    s' = refilled m1 (mworld s) ps (numPackets m1) (allocated (mworld s)) /\
    shape ps (numPackets m) (messageLength m) /\
    (forall k, 0 <= k -> byte_at ps k =
       if decide (start m - zlength bytes <= k < start m - zlength bytes + d)
       then bytes !! Z.to_nat (k - (start m - zlength bytes))
       else byte_at (packets m) k))); [lia|lia|lia| | |].
  - eexists. split_and!; [done|done|]. intros k Hk. by rewrite decide_False by lia.
  - intros d k s' Hd Hk Hdk (ps & -> & Hps & Hby) pos Hkp.
    eapply prepend_chunk_wp; [exact Hps|lia|lia|lia|done|lia|done|].
    intros ps' Hps' Hby'. eexists. split_and!; [done|done|]. intros j Hj.
    rewrite Hby' by lia. unfold pos. case_decide.
    + rewrite decide_True by lia. f_equal. lia.
    + rewrite Hby by lia. do 2 case_decide; try lia; done.
  - intros s' (ps & -> & Hps & Hby).
    replace (refilled m1 (mworld s) ps (numPackets m1) (allocated (mworld s))) with
      (mkMessageState (m <| packets := ps |> <| start := start m - zlength bytes |>) (mworld s))
      by (by destruct s as [? []]).
    apply (HQ ps); unfold over; [split; cbn [start messageLength packets numPackets]; [done|lia|lia]|].
    unfold data; cbn [start messageLength packets over].
    replace (messageLength m - (start m - zlength bytes)) with
      (zlength bytes + (messageLength m - start m)) by lia.
    rewrite seqZ_app by lia. rewrite omap_app. f_equal.
    + apply omap_seqZ. intros i Hi. unfold zlength in *. rewrite Hby by lia.
      rewrite decide_True by lia. f_equal. lia.
    + replace (start m - zlength bytes + zlength bytes) with (start m) by lia.
      apply omap_ext_elem. intros k Hk%elem_of_seqZ. rewrite Hby by lia.
      by rewrite decide_False by lia.
Qed.
End shape.

End SenderMessage.
