(* ===== verification/Sender.v ===== *)
(** * Sender: the sending half of the transport (src/src/Sender.h, src/src/Sender.cc)

    The state of the Sender is a record: the buckets of live messages with their
    timeouts, the queue of messages with unsent packets, the allocator that owns
    the messages, and the two objects it shares with the rest of the transport
    (the policy manager and the driver's world).  A message is named by its
    address.  An operation is a monadic function that runs under the locks it
    takes; [trySend] has two critical sections, [trySend_queue] and one
    [finish_sent] per message, which other operations can come between.

    Nodes of intrusive lists: membership of an address in a list is what
    IntrusiveHeap.v shows [contains] to compute. *)

From S2P Require Import Prelude Intrusive Util Timeout ObjectPool Perf Protocol Policy Driver SenderMessage.
Import Driver SenderMessage.

Module Sender.

(** ** State *)

Record MessageBucket := mkMessageBucket {
  messages : list ptr;
  messageTimeouts : TimeoutManager ptr;
  pingTimeouts : TimeoutManager ptr
}.
#[global] Instance eta_MessageBucket : Eta MessageBucket := fun r =>
  mkMessageBucket (messages r) (messageTimeouts r) (pingTimeouts r).

Definition NUM_BUCKETS : Z := 256.
Definition HASH_KEY_MASK : Z := 255.

Record Sender := mkSender {
  transportId : Z;
  nextMessageSequenceNumber : Z;
  DRIVER_QUEUED_BYTE_LIMIT : Z;
  messageBuckets : Z -> MessageBucket;
  sendQueue : list ptr;
  sending : bool;
  sendReady : bool;
  nextBucketIndex : Z;
  messageAllocator : ObjectPool Message;
  policyManager : Policy.Manager;
  world : World
}.
#[global] Instance eta_Sender : Eta Sender := fun r =>
  mkSender (transportId r) (nextMessageSequenceNumber r) (DRIVER_QUEUED_BYTE_LIMIT r)
    (messageBuckets r) (sendQueue r) (sending r) (sendReady r) (nextBucketIndex r)
    (messageAllocator r) (policyManager r) (world r).

Abbreviation heap s := (objects (messageAllocator s)).

Section sender.
Context `{Driver}.

(** [MessageBucket::MessageBucket] and [MessageBucketMap::makeBuckets]. *)
Definition MessageBucket_new (messageTimeoutCycles pingIntervalCycles : Z) : MessageBucket :=
  mkMessageBucket [] (TimeoutManager_new messageTimeoutCycles)
    (TimeoutManager_new pingIntervalCycles).

Definition Sender_new (tid messageTimeoutCycles pingIntervalCycles : Z)
    (policy : Policy.Manager) (w : World) : Sender :=
  mkSender tid 1 (u32 (2 * getMaxPayloadSize))
    (fun _ => MessageBucket_new messageTimeoutCycles pingIntervalCycles)
    [] false false 0 ObjectPool_new policy w.

(** ** Access to the parts *)

Definition world_op {A} (m : M World A) : M Sender A := zoom world (fun w s => s <| world := w |>) m.
Definition policy_op {A} (m : M Policy.Manager A) : M Sender A :=
  zoom policyManager (fun p s => s <| policyManager := p |>) m.
Definition allocator_op {A} (m : M (ObjectPool Message) A) : M Sender A :=
  zoom messageAllocator (fun o s => s <| messageAllocator := o |>) m.

(** [*message]. *)
Definition deref (p : ptr) : M Sender Message :=
  s ← get;
  match heap s !! p with Some m => mret m | None => fault BadPointer end.
Definition update (p : ptr) (f : Message -> Message) : M Sender unit :=
  modify (fun s => s <| messageAllocator ::= fun o => o <| objects ::= alter f p |> |>).
Definition update_info (p : ptr) (f : QueuedMessageInfo -> QueuedMessageInfo) : M Sender unit :=
  update p (fun m => m <| queuedMessageInfo ::= f |>).
Definition set_state (p : ptr) (st : Status) : M Sender unit := update p (fun m => m <| state := st |>).

(** [*info->packets]. *)
Definition info_packets (info : QueuedMessageInfo) : M Sender Message :=
  match q_packets info with Some p => deref p | None => fault BadPointer end.

Definition update_bucket (b : Z) (f : MessageBucket -> MessageBucket) : M Sender unit :=
  modify (fun s => s <| messageBuckets ::= fun bs => <[b := f (bs b)]> bs |>).

(** [MessageBucketMap::getBucket(msgId)], as an index. *)
Definition getBucket (msgId : Protocol.MessageId) : Z :=
  Z.land (Protocol.hashMessageId std_hash msgId) HASH_KEY_MASK.

(** [MessageBucket::findMessage(msgId)]. *)
Fixpoint find_in (h : gmap ptr Message) (msgId : Protocol.MessageId) (l : list ptr)
    : Result (option ptr) :=
  match l with
  | [] => Ok None
  | p :: l' =>
      match h !! p with
      | None => Error BadPointer
      | Some m => if Protocol.eqMessageId (id m) msgId then Ok (Some p) else find_in h msgId l'
      end
  end.
Definition findMessage (b : Z) (msgId : Protocol.MessageId) : M Sender (option ptr) :=
  s ← get; lift (find_in (heap s) msgId (messages (messageBuckets s b))).

Definition set_messageTimeout (b : Z) (p : ptr) : M Sender unit :=
  t ← world_op rdtsc; update_bucket b (fun k => k <| messageTimeouts ::= setTimeout t p |>).
Definition set_pingTimeout (b : Z) (p : ptr) : M Sender unit :=
  t ← world_op rdtsc; update_bucket b (fun k => k <| pingTimeouts ::= setTimeout t p |>).
Definition cancel_messageTimeout (b : Z) (p : ptr) : M Sender unit :=
  update_bucket b (fun k => k <| messageTimeouts ::= cancelTimeout p |>).
Definition cancel_pingTimeout (b : Z) (p : ptr) : M Sender unit :=
  update_bucket b (fun k => k <| pingTimeouts ::= cancelTimeout p |>).
Definition set_timeouts (b : Z) (p : ptr) : M Sender unit :=
  _ ← set_messageTimeout b p; set_pingTimeout b p.
Definition cancel_timeouts (b : Z) (p : ptr) : M Sender unit :=
  _ ← cancel_messageTimeout b p; cancel_pingTimeout b p.

Definition release_packet (packet : Packet) : M Sender unit :=
  world_op (releasePackets [pkt_id packet]).

(** Count and send one DATA packet. *)
Definition send_data (packet : Packet) (dst : IpAddress) (priority : Z) : M Sender unit :=
  _ ← world_op (count Perf.tx_data_pkts 1);
  _ ← world_op (count Perf.tx_bytes (length packet));
  world_op (sendPacket packet dst priority).

(** ** The send queue *)

Definition unsent (h : gmap ptr Message) (p : ptr) : Z :=
  match h !! p with Some m => unsentBytes (queuedMessageInfo m) | None => 0 end.
(** [QueuedMessageInfo::ComparePriority]. *)
Definition ComparePriority (h : gmap ptr Message) (a b : ptr) : bool := unsent h a <? unsent h b.

Definition queue_remove (p : ptr) : M Sender unit := modify (fun s => s <| sendQueue ::= list_remove p |>).
(** [sendQueue.push_front(node); Intrusive::deprioritize(&sendQueue, node)]. *)
Definition queue_insert (p : ptr) : M Sender unit :=
  s ← get;
  _ ← check (bool_decide (p ∉ sendQueue s));
  modify (fun s => s <| sendQueue ::= fun q => deprioritize (ComparePriority (heap s)) p (p :: q) |>).
Definition queue_prioritize (p : ptr) : M Sender unit :=
  modify (fun s => s <| sendQueue ::= prioritize (ComparePriority (heap s)) p |>).

(** What handleUnknownPacket does to the queue before it changes a message. *)
Definition dequeue_in_progress (p : ptr) : M Sender unit :=
  m ← deref p;
  _ ← when (bool_decide (state m = IN_PROGRESS))
        (s ← get; _ ← check (bool_decide (p ∈ sendQueue s)); queue_remove p);
  s ← get;
  check (bool_decide (p ∉ sendQueue s)).

(** ** Creation and destruction *)

Definition allocMessage (sourcePort : Z) : M Sender ptr :=
  _ ← world_op (count Perf.allocated_tx_messages 1);
  r ← allocator_op (construct (Some (Message_new sourcePort)));
  match r with Some p => mret p | None => fault BadPointer end.

(** Some intrusive node of the message is still in a list. *)
Definition linked (s : Sender) (p : ptr) : bool :=
  bool_decide (p ∈ sendQueue s) ||
  existsb (fun b => let k := messageBuckets s b in
    bool_decide (p ∈ messages k) || bool_decide (p ∈ timeouts (messageTimeouts k)) ||
    bool_decide (p ∈ timeouts (pingTimeouts k))) (seqZ 0 NUM_BUCKETS).

(** The packets that [~Message] gives back. *)
Definition packet_ids (m : Message) : list positive :=
  omap (fun i => pkt_id <$> packets m !! i) (seqZ 0 (u16 (numPackets m))).

(** [messageAllocator.pool.destroy(message)] with [Message::~Message()]. *)
Definition destroy_message (p : ptr) : M Sender unit :=
  m ← deref p;
  _ ← world_op (releasePackets (packet_ids m));
  s ← get;
  allocator_op (destroy (fun _ => if linked s p then Error NodeLinked else Ok tt) p).

(** Cancel the timeouts of a message, take it out of its bucket, destroy it. *)
Definition remove_message (b : Z) (p : ptr) : M Sender unit :=
  _ ← cancel_timeouts b p;
  _ ← update_bucket b (fun k => k <| messages ::= list_remove p |>);
  _ ← destroy_message p;
  world_op (count Perf.destroyed_tx_messages 1).

(** ** Handlers of incoming packets *)

Definition handleDonePacket (packet : Packet) : M Sender unit :=
  let header := read_header Protocol.DoneHeader packet in
  let msgId := Protocol.messageId (Protocol.done_common header) in
  let bucket := getBucket msgId in
  message ← findMessage bucket msgId;
  match message with
  | None => release_packet packet
  | Some p =>
      m ← deref p;
      _ ← (match state m with
           | SENT => _ ← cancel_timeouts bucket p; set_state p COMPLETED
           | CANCELED | COMPLETED | FAILED | NOT_STARTED | IN_PROGRESS => mret tt
           end);
      release_packet packet
  end.

Definition handleResendPacket (packet : Packet) : M Sender unit :=
  let header := read_header Protocol.ResendHeader packet in
  let msgId := Protocol.messageId (Protocol.rh_common header) in
  let index := Protocol.rh_index header in
  let resendEnd := index + Protocol.rh_num header in
  let bucket := getBucket msgId in
  message ← findMessage bucket msgId;
  match message with
  | None => release_packet packet
  | Some p =>
      m ← deref p;
      if numPackets m <? 2 then release_packet packet
      else
        _ ← set_timeouts bucket p;
        let info := queuedMessageInfo m in
        pm ← info_packets info;
        if (numPackets pm <=? index) || (numPackets pm <? resendEnd) then release_packet packet
        else
          _ ← when (packetsGranted info <? resendEnd)
                (_ ← update_info p (fun i => i <| packetsGranted := resendEnd |>
                                               <| q_priority := Protocol.rh_priority header |>);
                 modify (fun s => s <| sendReady := true |>));
          _ ← (if packetsSent info <=? index then
                 _ ← world_op (count Perf.tx_busy_pkts 1);
                 world_op (send_control (ip (q_destination info)) (Protocol.BusyHeader_new (q_id info)))
               else
                 let resendEnd := Z.min resendEnd (packetsSent info) in
                 prio ← policy_op (gets Policy.getResendPriority);
                 for_each (seqZ index (resendEnd - index)) (fun i =>
                   found ← lift (getPacket pm i);
                   match found with
                   | None => fault BadPointer
                   | Some data => send_data data (ip (destination m)) prio
                   end));
          release_packet packet
  end.

(** The packet index that a grant of [limit] bytes reaches; 32-bit unsigned
    arithmetic. *)
Definition grant_index (limit : Z) : Z :=
  u32 (limit + PACKET_DATA_LENGTH - 1) / PACKET_DATA_LENGTH.

Definition handleGrantPacket (packet : Packet) : M Sender unit :=
  let header := read_header Protocol.GrantHeader packet in
  let msgId := Protocol.messageId (Protocol.gh_common header) in
  let bucket := getBucket msgId in
  message ← findMessage bucket msgId;
  match message with
  | None => release_packet packet
  | Some p =>
      _ ← set_timeouts bucket p;
      m ← deref p;
      _ ← when (bool_decide (state m = IN_PROGRESS))
            (let info := queuedMessageInfo m in
             pm ← info_packets info;
             let incomingGrantIndex := i32 (grant_index (Protocol.byteLimit header)) in
             let incomingGrantIndex :=
               if numPackets pm <? incomingGrantIndex then numPackets pm else incomingGrantIndex in
             when (packetsGranted info <? incomingGrantIndex)
               (_ ← update_info p (fun i => i <| packetsGranted := incomingGrantIndex |>
                                              <| q_priority := Protocol.gh_priority header |>);
                modify (fun s => s <| sendReady := true |>)));
      release_packet packet
  end.

(** [header->policyVersion = ...; header->unscheduledIndexLimit = ...] in a
    DATA packet. *)
Definition set_policy_fields (version limit : Z) (packet : Packet) : Packet :=
  packet <| payload ::= write_at 26 (Protocol.le_bytes 1 version) |>
         <| payload ::= write_at 27 (Protocol.le_bytes 2 limit) |>.

(** Send the packet of a message that has only one. *)
Definition send_single (bucket : Z) (p : ptr) (priority : Z) : M Sender unit :=
  m ← deref p;
  found ← lift (getPacket m 0);
  match found with
  | None => fault AssertFailed
  | Some data =>
      _ ← send_data data (ip (destination m)) priority;
      _ ← set_state p SENT;
      _ ← check (held m);
      when (has_option (options m) NO_KEEP_ALIVE) (cancel_timeouts bucket p)
  end.

Definition unscheduled_limit (policy : Policy.Unscheduled) : Z :=
  i32 (u32 (Policy.unscheduledByteLimit policy + PACKET_DATA_LENGTH - 1) / PACKET_DATA_LENGTH).

(** The last branch of handleUnknownPacket: start the message again. *)
Definition restart_message (bucket : Z) (p : ptr) : M Sender unit :=
  m ← deref p;
  _ ← when (1 <? numPackets m) (dequeue_in_progress p);
  _ ← set_state p IN_PROGRESS;
  policy ← policy_op (Policy.getUnscheduledPolicy (ip (destination m)) (u32 (messageLength m)));
  let unscheduledIndexLimit := unscheduled_limit policy in
  _ ← for_each (seqZ 0 (numPackets m)) (fun i =>
        m ← deref p;
        found ← lift (getPacket m i);
        match found with
        | None => fault AssertFailed
        | Some dataPacket =>
            limit ← Util.downCast_u16_of_int unscheduledIndexLimit;
            update p (fun m => m <| packets ::=
              <[i := set_policy_fields (Policy.u_version policy) limit dataPacket]> |>)
        end);
  _ ← set_timeouts bucket p;
  _ ← check (0 <? numPackets m);
  if numPackets m =? 1 then send_single bucket p (Policy.u_priority policy)
  else
    let info := queuedMessageInfo m in
    _ ← check (Protocol.eqMessageId (q_id info) (id m));
    _ ← check (bool_decide (q_destination info = destination m));
    _ ← check (bool_decide (q_packets info = Some p));
    _ ← update_info p (fun i =>
          i <| unsentBytes := messageLength m |>
            <| packetsGranted := Z.min unscheduledIndexLimit (numPackets m) |>
            <| q_priority := Policy.u_priority policy |>
            <| packetsSent := 0 |>);
    _ ← queue_insert p;
    modify (fun s => s <| sendReady := true |>).

Definition handleUnknownPacket (packet : Packet) : M Sender unit :=
  let header := read_header Protocol.UnknownHeader packet in
  let msgId := Protocol.messageId (Protocol.unknown_common header) in
  let bucket := getBucket msgId in
  message ← findMessage bucket msgId;
  match message with
  | None => release_packet packet
  | Some p =>
      m ← deref p;
      _ ← check (negb (bool_decide (state m = NOT_STARTED)));
      _ ← (if negb (bool_decide (state m = IN_PROGRESS)) && negb (bool_decide (state m = SENT))
           then mret tt
           else if has_option (options m) NO_RETRY then
             _ ← when (1 <? numPackets m) (dequeue_in_progress p);
             _ ← cancel_timeouts bucket p;
             set_state p FAILED
           else restart_message bucket p);
      release_packet packet
  end.

Definition handleErrorPacket (packet : Packet) : M Sender unit :=
  let header := read_header Protocol.ErrorHeader packet in
  let msgId := Protocol.messageId (Protocol.error_common header) in
  let bucket := getBucket msgId in
  message ← findMessage bucket msgId;
  match message with
  | None => release_packet packet
  | Some p =>
      m ← deref p;
      _ ← (match state m with
           | SENT => _ ← cancel_timeouts bucket p; set_state p FAILED
           | CANCELED | NOT_STARTED | IN_PROGRESS | COMPLETED | FAILED => mret tt
           end);
      release_packet packet
  end.

(** ** Calls of the application *)

Definition message_op (p : ptr) (m : M MessageState unit) : M Sender unit :=
  v ← deref p;
  s ← get;
  r ← lift (m (mkMessageState v (world s)));
  let '(_, t) := r in
  _ ← world_op (modify (fun _ => mworld t));
  update p (fun _ => message t).
Definition append (p : ptr) (bytes : list Z) : M Sender unit := message_op p (SenderMessage.append bytes).
Definition prepend (p : ptr) (bytes : list Z) : M Sender unit := message_op p (SenderMessage.prepend bytes).
Definition reserve (p : ptr) (count : Z) : M Sender unit := message_op p (SenderMessage.reserve count).
Definition getStatus (p : ptr) : M Sender Status := m ← deref p; mret (state m).

(** The loop of sendMessage that writes the DATA headers; it returns the
    number of message bytes in the packets. *)
Fixpoint fill_headers (p : ptr) (dst : SocketAddress) (version limit : Z) (indices : list Z)
    (actualMessageLen : Z) : M Sender Z :=
  match indices with
  | [] => mret actualMessageLen
  | i :: rest =>
      m ← deref p;
      found ← lift (getPacket m i);
      match found with
      | None => fault Panicked
      | Some packet =>
          total ← Util.downCast_u32_of_int (messageLength m);
          limit16 ← Util.downCast_u16_of_int limit;
          index16 ← Util.downCast_u16_of_int i;
          let header := Protocol.DataHeader_new (port (source m)) (port dst) (id m)
                          total version limit16 index16 in
          _ ← update p (fun m => m <| packets ::= <[i := write_header header packet]> |>);
          fill_headers p dst version limit rest
            (actualMessageLen + (length packet - TRANSPORT_HEADER_LENGTH))
      end
  end.

(** The node of [p] is in the message list of a bucket; [push_back] asserts
    that it is not. *)
Definition in_some_bucket (s : Sender) (p : ptr) : bool :=
  existsb (fun b => bool_decide (p ∈ messages (messageBuckets s b))) (seqZ 0 NUM_BUCKETS).

Definition sendMessage (p : ptr) (dst : SocketAddress) (opts : Z) : M Sender unit :=
  s ← get;
  let newId := Protocol.mkMessageId (transportId s) (nextMessageSequenceNumber s) in
  _ ← modify (fun s => s <| nextMessageSequenceNumber ::= fun n => u64 (n + 1) |>);
  m ← deref p;
  policy ← policy_op (Policy.getUnscheduledPolicy (ip dst) (u32 (messageLength m)));
  let unscheduledPacketLimit := unscheduled_limit policy in
  _ ← update p (fun m => m <| id := newId |> <| destination := dst |> <| options := opts |>
                           <| state := IN_PROGRESS |>);
  actualMessageLen ← fill_headers p dst (Policy.u_version policy) unscheduledPacketLimit
                       (seqZ 0 (numPackets m)) 0;
  _ ← check (messageLength m =? actualMessageLen);
  let bucket := getBucket newId in
  s ← get;
  _ ← check (bool_decide (p ∉ messages (messageBuckets s bucket)));
  _ ← check (negb (in_some_bucket s p));
  _ ← update_bucket bucket (fun k => k <| messages ::= fun l => l ++ [p] |>);
  _ ← set_timeouts bucket p;
  _ ← check (0 <? numPackets m);
  if numPackets m =? 1 then send_single bucket p (Policy.u_priority policy)
  else
    _ ← update_info p (fun _ =>
          mkQueuedMessageInfo newId dst (Some p) (messageLength m)
            (Z.min unscheduledPacketLimit (numPackets m)) (Policy.u_priority policy) 0);
    _ ← queue_insert p;
    modify (fun s => s <| sendReady := true |>).

Definition cancelMessage (p : ptr) : M Sender unit :=
  m ← deref p;
  let bucket := getBucket (id m) in
  s ← get;
  when (bool_decide (p ∈ messages (messageBuckets s bucket)))
    (_ ← cancel_timeouts bucket p;
     _ ← when ((1 <? numPackets m) && bool_decide (state m = IN_PROGRESS))
           (_ ← check (bool_decide (p ∈ sendQueue s)); queue_remove p);
     set_state p CANCELED).

Definition dropMessage (p : ptr) : M Sender unit :=
  m ← deref p;
  let bucket := getBucket (id m) in
  _ ← update p (fun m => m <| held := false |>);
  _ ← world_op (count Perf.released_tx_messages 1);
  when (negb (bool_decide (state m = IN_PROGRESS))) (remove_message bucket p).

(** ** Timeouts *)

Fixpoint message_timeout_loop (fuel : nat) (t : Z) (b : Z) : M Sender unit :=
  match fuel with
  | O => fault OutOfFuel
  | S fuel' =>
      s ← get;
      match timeouts_front (messageTimeouts (messageBuckets s b)) with
      | None => mret tt
      | Some p =>
          if negb (hasElapsed t p (messageTimeouts (messageBuckets s b))) then mret tt
          else
            m ← deref p;
            _ ← when (negb (bool_decide (state m = COMPLETED)))
                  (_ ← when (bool_decide (state m = IN_PROGRESS))
                         (_ ← check (bool_decide (p ∈ sendQueue s)); queue_remove p);
                   set_state p FAILED);
            _ ← cancel_timeouts b p;
            message_timeout_loop fuel' t b
      end
  end.
Definition checkMessageTimeouts (t : Z) (b : Z) : M Sender unit :=
  s ← get;
  let tm := messageTimeouts (messageBuckets s b) in
  when (anyElapsed t tm) (message_timeout_loop (S (List.length (timeouts tm))) t b).

Fixpoint ping_timeout_loop (fuel : nat) (t : Z) (b : Z) : M Sender unit :=
  match fuel with
  | O => fault OutOfFuel
  | S fuel' =>
      s ← get;
      match timeouts_front (pingTimeouts (messageBuckets s b)) with
      | None => mret tt
      | Some p =>
          if negb (hasElapsed t p (pingTimeouts (messageBuckets s b))) then mret tt
          else
            m ← deref p;
            if bool_decide (state m = COMPLETED) || bool_decide (state m = FAILED) then
              _ ← cancel_pingTimeout b p; ping_timeout_loop fuel' t b
            else if has_option (options m) NO_KEEP_ALIVE && bool_decide (state m = SENT) then
              _ ← cancel_timeouts b p; ping_timeout_loop fuel' t b
            else
              _ ← set_pingTimeout b p;
              let info := queuedMessageInfo m in
              if bool_decide (state m = IN_PROGRESS) && (packetsSent info <? packetsGranted info)
              then ping_timeout_loop fuel' t b
              else
                _ ← world_op (count Perf.tx_ping_pkts 1);
                _ ← world_op (send_control (ip (destination m)) (Protocol.PingHeader_new (id m)));
                ping_timeout_loop fuel' t b
      end
  end.
Definition checkPingTimeouts (t : Z) (b : Z) : M Sender unit :=
  s ← get;
  let tm := pingTimeouts (messageBuckets s b) in
  when (anyElapsed t tm) (ping_timeout_loop (S (List.length (timeouts tm))) t b).

Definition checkTimeouts : M Sender unit :=
  s ← get;
  let index := Z.land (nextBucketIndex s) HASH_KEY_MASK in
  _ ← modify (fun s => s <| nextBucketIndex ::= fun n => u32 (n + 1) |>);
  t ← world_op rdtsc;
  _ ← checkPingTimeouts t index;
  checkMessageTimeouts t index.

(** ** Sending *)

(** The inner loop of trySend for the message [p]: the new estimate of the
    bytes queued in the driver, and whether there was a packet to send. *)
Fixpoint send_granted (fuel : nat) (p : ptr) (est : Z) (busy : bool) : M Sender (Z * bool) :=
  m ← deref p;
  let info := queuedMessageInfo m in
  if packetsSent info <? packetsGranted info then
    match fuel with
    | O => fault OutOfFuel
    | S fuel' =>
        pm ← info_packets info;
        found ← lift (getPacket pm (packetsSent info));
        match found with
        | None => fault AssertFailed
        | Some packet =>
            let est := u32 (est + length packet) in
            s ← get;
            if DRIVER_QUEUED_BYTE_LIMIT s <? est then mret (est, true)
            else
              _ ← send_data packet (ip (destination m)) (q_priority info);
              let packetDataBytes := length packet - TRANSPORT_HEADER_LENGTH in
              _ ← check (packetDataBytes <=? unsentBytes info);
              _ ← update_info p (fun i => i <| unsentBytes ::= fun u => u - packetDataBytes |>);
              _ ← queue_prioritize p;
              _ ← update_info p (fun i => i <| packetsSent ::= fun n => n + 1 |>);
              send_granted fuel' p est true
        end
    end
  else mret (est, busy).

(** The element after [p] in the queue, [None] for [end()]. *)
Definition next_in (p : ptr) (q : list ptr) : option ptr := head (split_at p q).2.

(** What trySend does with a message whose last packet was sent, step by step: the
    mark is an atomic store, and a thread that holds the lock of the bucket only can
    come between the two. *)
Definition retire_steps (p : ptr) : list (M Sender unit) := [set_state p SENT; queue_remove p].
Definition retire (p : ptr) : M Sender unit := for_each (retire_steps p) (fun step => step).

(** The outer loop: [it] is the iterator, [sent] the ids of the messages that
    were finished. *)
Fixpoint send_queue (fuel : nat) (it : option ptr) (est : Z) (busy : bool)
    (sent : list Protocol.MessageId) : M Sender (bool * list Protocol.MessageId) :=
  match it with
  | None => mret (busy, sent)
  | Some p =>
      match fuel with
      | O => fault OutOfFuel
      | S fuel' =>
          m ← deref p;
          _ ← check (bool_decide (state m = IN_PROGRESS));
          let info := queuedMessageInfo m in
          pm ← info_packets info;
          _ ← check (packetsGranted info <=? numPackets pm);
          r ← send_granted (Z.to_nat (packetsGranted info - packetsSent info)) p est busy;
          let '(est, busy) := r in
          m ← deref p;
          let info := queuedMessageInfo m in
          pm ← info_packets info;
          s ← get;
          if numPackets pm <=? packetsSent info then
            _ ← retire p;
            send_queue fuel' (next_in p (sendQueue s)) est busy (sent ++ [q_id info])
          else if packetsGranted info <=? packetsSent info then
            send_queue fuel' (next_in p (sendQueue s)) est busy sent
          else
            _ ← modify (fun s => s <| sendReady := true |>);
            mret (busy, sent)
      end
  end.

(** Rounds the outer loop can take: a message that moves up makes the loop
    pass the ones it overtook once more. *)
Definition remaining (h : gmap ptr Message) (p : ptr) : nat :=
  match h !! p with
  | Some m => Z.to_nat (packetsGranted (queuedMessageInfo m) - packetsSent (queuedMessageInfo m))
  | None => O
  end.
Definition remaining_grants (s : Sender) : nat := sum_list_with (remaining (heap s)) (sendQueue s).
Definition trySend_fuel (s : Sender) : nat :=
  (S (remaining_grants s) * S (List.length (sendQueue s)))%nat.

(** The critical section of trySend under the queue's lock; [None] when it
    returned early. *)
Definition trySend_queue : M Sender (option (bool * list Protocol.MessageId)) :=
  s ← get;
  if negb (sendReady s) then mret None
  else if sending s then mret None
  else
    _ ← modify (fun s => s <| sending := true |>);
    est ← world_op getQueuedBytes;
    _ ← modify (fun s => s <| sendReady := false |>);
    r ← send_queue (trySend_fuel s) (head (sendQueue s)) est false [];
    _ ← modify (fun s => s <| sending := false |>);
    mret (Some r).

(** One round of trySend's last loop, under the bucket's lock. *)
Definition finish_sent (msgId : Protocol.MessageId) : M Sender unit :=
  let bucket := getBucket msgId in
  message ← findMessage bucket msgId;
  match message with
  | None => mret tt
  | Some p =>
      m ← deref p;
      if negb (held m) then remove_message bucket p
      else when (has_option (options m) NO_KEEP_ALIVE) (cancel_timeouts bucket p)
  end.

Definition trySend : M Sender unit :=
  timer ← world_op rdtsc;
  r ← trySend_queue;
  match r with
  | None => mret tt
  | Some (busy, sent) =>
      _ ← for_each sent finish_sent;
      when busy
        (t ← world_op rdtsc;
         world_op (count Perf.active_cycles (Perf.timer_split timer t).1))
  end.

Definition poll : M Sender unit := _ ← trySend; checkTimeouts.
End sender.

End Sender.
