(* ===== verification/SenderInv.v ===== *)
(** * SenderInv: the Sender's invariant and the primitive steps

    [inv x s] says what holds of the Sender between operations ([x = None]) and
    while an operation works on the message [x]: the buckets hold exactly the
    messages that were sent, the send queue holds exactly the messages in
    progress, ordered by unsent bytes, and the packet counts of a message agree
    with its length.  The lemmas show how each primitive of Sender.v changes a
    state that satisfies it. *)

From S2P Require Import Prelude Intrusive Util Timeout ObjectPool Perf Protocol Policy Driver SenderMessage Sender.
Import Driver SenderMessage Sender.

Module SenderInv.

Section inv.
Context `{DriverLaws}.
Implicit Types (s : Sender) (p q : ptr) (m : Message) (x : option ptr) (b : Z) (w : World).

(** What [queuedMessageInfo] says of a started message with several packets. *)
Record info_ok p m : Prop := {
  io_packets : q_packets (queuedMessageInfo m) = Some p;
  io_id : q_id (queuedMessageInfo m) = id m;
  io_destination : q_destination (queuedMessageInfo m) = destination m;
  io_counts : 0 <= packetsSent (queuedMessageInfo m) <= packetsGranted (queuedMessageInfo m);
  io_granted : packetsGranted (queuedMessageInfo m) <= numPackets m
}.

(** The bytes that the packets from [packetsSent] on hold. *)
Definition unsent_of m : Z :=
  Z.max 0 (messageLength m - packetsSent (queuedMessageInfo m) * PACKET_DATA_LENGTH).

Record queued_ok m : Prop := {
  qo_multi : 2 <= numPackets m;
  qo_unsent : unsentBytes (queuedMessageInfo m) = unsent_of m
}.

Record message_inv (tid next : Z) m : Prop := {
  mi_ok : message_ok m;
  mi_started : state m <> NOT_STARTED ->
    0 < numPackets m /\ Protocol.transportId (id m) = tid /\ Protocol.sequence (id m) < next
}.

Record bucket_ok w (k : MessageBucket) : Prop := {
  bo_nodup : NoDup (messages k);
  bo_mt : timeouts_ok (now w) (messageTimeouts k);
  bo_pt : timeouts_ok (now w) (pingTimeouts k);
  bo_mt_in : forall p, p ∈ timeouts (messageTimeouts k) -> p ∈ messages k;
  bo_pt_in : forall p, p ∈ timeouts (pingTimeouts k) -> p ∈ messages k;
  bo_mt_clock : forall n, rdtsc_nth n < rdtsc_nth n + timeoutIntervalCycles (messageTimeouts k) < 2 ^ 64;
  bo_pt_clock : forall n, rdtsc_nth n < rdtsc_nth n + timeoutIntervalCycles (pingTimeouts k) < 2 ^ 64
}.

(** The unscheduled packet limit of the policy fits the header's field. *)
Definition policy_ok (pol : Policy.Manager) : Prop :=
  Policy.manager_ok pol /\ Policy.RTT_BYTES pol + PACKET_DATA_LENGTH <= 2 ^ 32 /\
  packets_for (Policy.RTT_BYTES pol) < 2 ^ 16.

Record inv x s : Prop := {
  inv_pool : pool_ok (messageAllocator s);
  inv_policy : policy_ok (policyManager s);
  inv_message : forall p m, heap s !! p = Some m ->
    message_inv (transportId s) (nextMessageSequenceNumber s) m;
  inv_bucket : forall b, bucket_ok (world s) (messageBuckets s b);
  inv_in : forall b p, p ∈ messages (messageBuckets s b) ->
    exists m, heap s !! p = Some m /\ getBucket (id m) = b /\ state m <> NOT_STARTED;
  inv_home : forall p m, heap s !! p = Some m -> state m <> NOT_STARTED -> Some p <> x ->
    p ∈ messages (messageBuckets s (getBucket (id m))) /\ (2 <= numPackets m -> info_ok p m);
  inv_ids : forall p q m n, heap s !! p = Some m -> heap s !! q = Some n ->
    state m <> NOT_STARTED -> state n <> NOT_STARTED -> id m = id n -> p = q;
  inv_nodup : NoDup (sendQueue s);
  inv_sorted : sorted_by (unsent (heap s)) (sendQueue s);
  inv_queue : forall p, p ∈ sendQueue s ->
    exists m, heap s !! p = Some m /\ queued_ok m /\ (state m = IN_PROGRESS \/ Some p = x);
  inv_queued : forall p m, heap s !! p = Some m -> state m = IN_PROGRESS -> Some p <> x ->
    p ∈ sendQueue s;
  inv_held : forall p m, heap s !! p = Some m -> Some p <> x -> held m = false -> 2 <= numPackets m
}.

Lemma message_inv_same tid next m m' :
  packets m' = packets m -> numPackets m' = numPackets m -> messageLength m' = messageLength m ->
  start m' = start m -> id m' = id m ->
  (state m' <> NOT_STARTED -> state m <> NOT_STARTED) ->
  message_inv tid next m -> message_inv tid next m'.
Proof.
  intros E1 E2 E3 E4 E5 Hst [[] Hs]. split; [split|..]; rewrite ?E1, ?E2, ?E3, ?E4, ?E5; auto.
Qed.

Lemma inv_weaken x s : inv None s -> inv x s.
Proof.
  intros [? ? ? ? ? Hh ? ? ? Hq Hi Hhd]. split; try done.
  - intros p m Hp Hst _. by apply Hh.
  - intros p Hp. destruct (Hq p Hp) as (m & ? & ? & [?|?]); [eauto 10|done].
  - intros p m Hp Hst _. by eapply Hi.
  - intros p m Hp _. by eapply Hhd.
Qed.

(** Nothing of the invariant is about the other fields. *)
Lemma inv_ext x s s' :
  transportId s' = transportId s ->
  nextMessageSequenceNumber s' = nextMessageSequenceNumber s ->
  messageBuckets s' = messageBuckets s -> sendQueue s' = sendQueue s ->
  messageAllocator s' = messageAllocator s -> policyManager s' = policyManager s ->
  world s' = world s -> inv x s -> inv x s'.
Proof. intros E1 E2 E3 E4 E5 E6 E7 [? ? ? ? ? ? ? ? ? ? ? ?]. split; by rewrite ?E1, ?E2, ?E3, ?E4, ?E5, ?E6, ?E7. Qed.

Lemma bucket_ok_world w w' k : now w <= now w' -> bucket_ok w k -> bucket_ok w' k.
Proof. intros Hn [? ? ? ? ? ? ?]. split; eauto using timeouts_ok_later. Qed.

Lemma inv_world x s w : now (world s) <= now w -> inv x s -> inv x (s <| world := w |>).
Proof.
  intros Hn [? ? ? Hb ? ? ? ? ? ? ? ?]. split; try done. intros b. by eapply bucket_ok_world, Hb.
Qed.

Lemma inv_policy_set x s pol : policy_ok pol -> inv x s -> inv x (s <| policyManager := pol |>).
Proof. intros Hp [? ? ? ? ? ? ? ? ? ? ? ?]. by split. Qed.

(** ** Primitive steps *)

Lemma wp_deref p m s (Q : Message -> Sender -> Prop) : heap s !! p = Some m -> Q m s -> wp (deref p) s Q.
Proof. intros Hp HQ. unfold deref. repeat wp_step. by rewrite Hp. Qed.

Lemma wp_update p f s (Q : unit -> Sender -> Prop) :
  Q tt (s <| messageAllocator ::= fun o => o <| objects ::= alter f p |> |>) -> wp (update p f) s Q.
Proof. done. Qed.

Lemma unsent_insert_ne p q m (h : gmap ptr Message) : q <> p -> unsent (<[p := m]> h) q = unsent h q.
Proof. intros. unfold unsent. by rewrite lookup_insert_ne. Qed.

(** Changing the message [p] without moving it: its identity, packets and
    queue key stay. *)
Lemma inv_update x s p m f :
  inv x s -> heap s !! p = Some m ->
  message_inv (transportId s) (nextMessageSequenceNumber s) (f m) ->
  id (f m) = id m -> (state (f m) = NOT_STARTED <-> state m = NOT_STARTED) ->
  (state m <> NOT_STARTED -> Some p <> x -> 2 <= numPackets (f m) -> info_ok p (f m)) ->
  (Some p <> x -> (state (f m) = IN_PROGRESS <-> state m = IN_PROGRESS)) ->
  (Some p <> x -> held (f m) = false -> 2 <= numPackets (f m)) ->
  (p ∈ sendQueue s -> queued_ok (f m) /\
     unsentBytes (queuedMessageInfo (f m)) = unsentBytes (queuedMessageInfo m)) ->
  inv x (s <| messageAllocator ::= fun o => o <| objects ::= alter f p |> |>).
Proof.
  intros [Hpool Hpol Hmsg Hbk Hin Hhome Hids Hnd Hs Hq Hqd Hhd] Hp Hm' Hid Hst Hinfo Hprog Hheld Hqk.
  unfold over. split; cbn [messageAllocator policyManager transportId nextMessageSequenceNumber
    messageBuckets world sendQueue]; try done.
  - apply (pool_ok_alter (messageAllocator s) (alter f p)); [done|].
    intros h. apply dom_alter_L.
  - cbn [objects]. rewrite (alter_is_insert _ _ _ _ Hp).
    intros q n [[<- <-]|[_ Hqn]]%lookup_insert_Some; [done|by eapply Hmsg].
  - cbn [objects]. rewrite (alter_is_insert _ _ _ _ Hp). intros b q Hb.
    destruct (Hin b q Hb) as (n & Hn & Hbn & Hsn). destruct (decide (p = q)) as [<-|Hpq].
    + rewrite lookup_insert_eq. assert (n = m) as -> by congruence. exists (f m). rewrite Hid. split_and!; [done|done|tauto].
    + rewrite lookup_insert_ne by done. eauto.
  - cbn [objects]. rewrite (alter_is_insert _ _ _ _ Hp).
    intros q n [[<- <-]|[_ Hqn]]%lookup_insert_Some Hsn Hx; [|by apply Hhome].
    rewrite Hid. assert (state m <> NOT_STARTED) by tauto. split; [by apply Hhome|auto].
  - cbn [objects]. rewrite (alter_is_insert _ _ _ _ Hp). intros q r n n' Hqn Hrn.
    apply lookup_insert_Some in Hqn as [[<- <-]|[? Hqn]];
      apply lookup_insert_Some in Hrn as [[<- <-]|[? Hrn]]; try done;
      rewrite ?Hid, ?Hst; intros; by eapply Hids.
  - cbn [objects]. rewrite (alter_is_insert _ _ _ _ Hp). eapply sorted_by_ext; [|done].
    intros q Hqin. destruct (decide (q = p)) as [->|]; [|by rewrite unsent_insert_ne].
    unfold unsent. rewrite lookup_insert_eq, Hp. destruct (Hqk Hqin) as [_ ->]. done.
  - cbn [objects]. rewrite (alter_is_insert _ _ _ _ Hp). intros q Hqin.
    destruct (Hq q Hqin) as (n & Hn & Hqo & Hor). destruct (decide (p = q)) as [<-|Hpq].
    + rewrite lookup_insert_eq. assert (n = m) as -> by congruence. exists (f m). split_and!; [done|by apply Hqk|].
      destruct Hor as [?|?]; [|by right]. destruct x as [y|]; [|left; apply Hprog; done].
      destruct (decide (p = y)) as [<-|]; [by right|left; apply Hprog; congruence].
    + rewrite lookup_insert_ne by done. eauto.
  - cbn [objects]. rewrite (alter_is_insert _ _ _ _ Hp).
    intros q n [[<- <-]|[_ Hqn]]%lookup_insert_Some Hsn Hx; [|by eapply Hqd].
    apply (Hqd p m); [done|by apply Hprog|done].
  - cbn [objects]. rewrite (alter_is_insert _ _ _ _ Hp).
    intros q n [[<- <-]|[_ Hqn]]%lookup_insert_Some; [done|by eapply Hhd].
Qed.

(** Putting an end to the work on [p]. *)
Lemma inv_done p s m :
  inv (Some p) s -> heap s !! p = Some m ->
  (state m <> NOT_STARTED -> p ∈ messages (messageBuckets s (getBucket (id m))) /\
     (2 <= numPackets m -> info_ok p m)) ->
  (p ∈ sendQueue s <-> state m = IN_PROGRESS) -> (held m = false -> 2 <= numPackets m) ->
  inv None s.
Proof.
  intros [Hpool Hpol Hmsg Hbk Hin Hhome Hids Hnd Hs Hq Hqd Hhd] Hp Hst Hpq Hheld. split; try done.
  - intros q n Hqn Hsn _. destruct (decide (q = p)) as [->|].
    + simplify_eq. auto.
    + apply Hhome; [done|done|congruence].
  - intros q Hqin. destruct (Hq q Hqin) as (n & Hn & Hqo & Hor). exists n. split_and!; [done|done|].
    destruct Hor as [?|[= ->]]; [by left|]. left. simplify_eq. tauto.
  - intros q n Hqn Hsn _. destruct (decide (q = p)) as [->|].
    + simplify_eq. tauto.
    + eapply Hqd; [done|done|congruence].
  - intros q n Hqn _ Hn. destruct (decide (q = p)) as [->|].
    + simplify_eq. auto.
    + eapply Hhd; [done|congruence|done].
Qed.

Lemma inv_queue_remove p s :
  inv (Some p) s -> inv (Some p) (s <| sendQueue ::= list_remove p |>).
Proof.
  intros [Hpool Hpol Hmsg Hbk Hin Hhome Hids Hnd Hs Hq Hqd Hhd].
  unfold over; split; cbn [messageAllocator policyManager transportId nextMessageSequenceNumber
    messageBuckets world sendQueue]; auto with homa.
  - intros q Hqin. apply elem_of_list_remove in Hqin as [? _]; auto.
  - intros q n Hqn Hsn Hne. apply elem_of_list_remove; [done|]. split; [by eapply Hqd|congruence].
Qed.

(** Inserting at the front and moving back keeps the queue in order. *)
Lemma inv_queue_insert p m s :
  inv (Some p) s -> heap s !! p = Some m -> queued_ok m -> p ∉ sendQueue s ->
  inv (Some p) (s <| sendQueue ::= fun l => deprioritize (ComparePriority (heap s)) p (p :: l) |>).
Proof.
  intros [Hpool Hpol Hmsg Hbk Hin Hhome Hids Hnd Hs Hq Hqd Hhd] Hp Hqo Hpn.
  pose proof (deprioritize_Permutation (ComparePriority (heap s)) p (p :: sendQueue s)
    (list_elem_of_here _ _)) as Hperm.
  unfold over; split; cbn [messageAllocator policyManager transportId nextMessageSequenceNumber
    messageBuckets world sendQueue]; try done.
  - rewrite Hperm. by constructor.
  - apply (deprioritize_sorted _ _ p [] (sendQueue s)); [done|apply not_elem_of_nil|done|].
    intros y Hy. by apply elem_of_nil in Hy.
  - intros q. rewrite Hperm. intros [->|Hqin]%elem_of_cons; [eauto|].
    destruct (Hq q Hqin) as (n & ? & ? & ?). eauto.
  - intros q n Hqn Hsn Hne. rewrite Hperm. right. by eapply Hqd.
Qed.

(** Buckets: the timeouts of a message in the bucket. *)
Lemma inv_bucket_update x s b k :
  inv x s -> bucket_ok (world s) k -> messages k = messages (messageBuckets s b) ->
  inv x (s <| messageBuckets ::= fun bs => <[b := k]> bs |>).
Proof.
  intros [Hpool Hpol Hmsg Hbk Hin Hhome Hids Hnd Hs Hq Hqd Hhd] Hk Hmk.
  assert (forall c, messages (<[b := k]> (messageBuckets s) c) = messages (messageBuckets s c)) as Hc.
  { intros c. destruct (decide (c = b)) as [->|]; [by rewrite fn_lookup_insert|by rewrite fn_lookup_insert_ne]. }
  unfold over; split; cbn [messageAllocator policyManager transportId nextMessageSequenceNumber
    messageBuckets world sendQueue]; try done.
  - intros c. destruct (decide (c = b)) as [->|]; [by rewrite fn_lookup_insert|by rewrite fn_lookup_insert_ne].
  - intros c q. rewrite Hc. apply Hin.
  - intros q n Hqn Hsn Hne. rewrite Hc. by apply Hhome.
Qed.

(** ** Composed steps *)

(** [s'] differs from [s] in timeouts, clock readings and counters only, and
    the driver was asked for [evs]. *)
Record agree (evs : list Event) s s' : Prop := {
  ag_alloc : messageAllocator s' = messageAllocator s;
  ag_queue : sendQueue s' = sendQueue s;
  ag_messages : forall b, messages (messageBuckets s' b) = messages (messageBuckets s b);
  ag_policy : policyManager s' = policyManager s;
  ag_tid : transportId s' = transportId s;
  ag_next : nextMessageSequenceNumber s' = nextMessageSequenceNumber s;
  ag_ready : sendReady s' = sendReady s;
  ag_sending : sending s' = sending s;
  ag_limit : DRIVER_QUEUED_BYTE_LIMIT s' = DRIVER_QUEUED_BYTE_LIMIT s;
  ag_trace : trace (world s') = trace (world s) ++ evs;
  ag_clock : now (world s) <= now (world s')
}.

Lemma agree_refl s : agree [] s s.
Proof. split; try done. by rewrite app_nil_r. Qed.
Lemma agree_trans e1 e2 s1 s2 s3 :
  agree e1 s1 s2 -> agree e2 s2 s3 -> agree (e1 ++ e2) s1 s3.
Proof.
  intros [] []. split; try congruence; [|lia]. rewrite app_assoc. congruence.
Qed.
Lemma agree_trans_nil s1 s2 s3 : agree [] s1 s2 -> agree [] s2 s3 -> agree [] s1 s3.
Proof. apply (agree_trans [] []). Qed.

Lemma agree_update_bucket s b k :
  messages k = messages (messageBuckets s b) ->
  agree [] s (s <| messageBuckets ::= fun bs => <[b := k]> bs |>).
Proof.
  intros Hk. split; try done; [|by rewrite app_nil_r]. intros c. unfold over; cbn [messageBuckets].
  destruct (decide (c = b)) as [->|]; [by rewrite fn_lookup_insert|by rewrite fn_lookup_insert_ne].
Qed.

Lemma agree_tick s : agree [] s (s <| world ::= fun w => w <| clock_reads ::= S |> |>).
Proof. split; try done; [|apply now_mono]. unfold over; cbn. by rewrite app_nil_r. Qed.

Lemma inv_tick x s : inv x s -> inv x (s <| world ::= fun w => w <| clock_reads ::= S |> |>).
Proof. intros Hi. apply (inv_world x s); [apply now_mono|done]. Qed.

Lemma wp_set_messageTimeout x b p s (Q : unit -> Sender -> Prop) :
  inv x s -> p ∈ messages (messageBuckets s b) ->
  (forall s', inv x s' -> agree [] s s' -> Q tt s') -> wp (set_messageTimeout b p) s Q.
Proof.
  intros Hi Hp HQ. unfold set_messageTimeout, world_op, update_bucket. repeat wp_step.
  apply wp_rdtsc. set (s1 := s <| world := _ |>).
  assert (inv x s1) as Hi1 by apply (inv_tick x s Hi).
  assert (agree [] s s1) as Ha1 by apply (agree_tick s).
  destruct (inv_bucket _ _ Hi b) as [B1 B2 B3 B4 B5 B6 B7].
  repeat wp_step. apply HQ.
  - apply inv_bucket_update; [done| |done].
    destruct (inv_bucket _ _ Hi1 b) as [C1 C2 C3 C4 C5 C6 C7].
    unfold over; split; cbn [messages messageTimeouts pingTimeouts]; try done.
    + eapply timeouts_ok_later; [apply now_mono|].
      apply timeouts_ok_set with (last := now (world s)); [exact B2|done|].
      specialize (B6 (clock_reads (world s))). pose proof (rdtsc_nonneg (clock_reads (world s))).
      change (messageBuckets s1 b) with (messageBuckets s b). unfold now. lia.
    + intros q. rewrite timeouts_setTimeout.
      intros [[Hq _]%elem_of_list_remove|Hq%list_elem_of_singleton]%elem_of_app;
        [auto|by apply B2|by subst].
    + intros n. rewrite setTimeout_interval. apply B6.
  - eapply agree_trans_nil; [done|]. by apply agree_update_bucket.
Qed.

Lemma wp_set_pingTimeout x b p s (Q : unit -> Sender -> Prop) :
  inv x s -> p ∈ messages (messageBuckets s b) ->
  (forall s', inv x s' -> agree [] s s' ->
     pingTimeouts (messageBuckets s' b) =
       setTimeout (now (world s)) p (pingTimeouts (messageBuckets s b)) -> Q tt s') -> wp (set_pingTimeout b p) s Q.
Proof.
  intros Hi Hp HQ. unfold set_pingTimeout, world_op, update_bucket. repeat wp_step.
  apply wp_rdtsc. set (s1 := s <| world := _ |>).
  assert (inv x s1) as Hi1 by apply (inv_tick x s Hi).
  assert (agree [] s s1) as Ha1 by apply (agree_tick s).
  destruct (inv_bucket _ _ Hi b) as [B1 B2 B3 B4 B5 B6 B7].
  repeat wp_step. apply HQ.
  - apply inv_bucket_update; [done| |done].
    destruct (inv_bucket _ _ Hi1 b) as [C1 C2 C3 C4 C5 C6 C7].
    unfold over; split; cbn [messages messageTimeouts pingTimeouts]; try done.
    + eapply timeouts_ok_later; [apply now_mono|].
      apply timeouts_ok_set with (last := now (world s)); [exact B3|done|].
      specialize (B7 (clock_reads (world s))). pose proof (rdtsc_nonneg (clock_reads (world s))).
      change (messageBuckets s1 b) with (messageBuckets s b). unfold now. lia.
    + intros q. rewrite timeouts_setTimeout.
      intros [[Hq _]%elem_of_list_remove|Hq%list_elem_of_singleton]%elem_of_app;
        [auto|by apply B3|by subst].
    + intros n. rewrite setTimeout_interval. apply B7.
  - eapply agree_trans_nil; [done|]. by apply agree_update_bucket.
  - unfold over; cbn [messageBuckets]. by rewrite fn_lookup_insert.
Qed.

Lemma wp_set_timeouts x b p s (Q : unit -> Sender -> Prop) :
  inv x s -> p ∈ messages (messageBuckets s b) ->
  (forall s', inv x s' -> agree [] s s' -> Q tt s') -> wp (set_timeouts b p) s Q.
Proof.
  intros Hi Hp HQ. unfold set_timeouts. wp_step.
  eapply wp_set_messageTimeout; [done..|]. intros s1 Hi1 Ha1.
  eapply wp_set_pingTimeout; [done|by rewrite (ag_messages _ _ _ Ha1)|]. intros s2 Hi2 Ha2 _.
  apply HQ; [done|by eapply agree_trans_nil].
Qed.

Lemma bucket_ok_cancel w k p (which : bool) :
  bucket_ok w k ->
  bucket_ok w (if which then k <| messageTimeouts ::= cancelTimeout p |>
               else k <| pingTimeouts ::= cancelTimeout p |>).
Proof.
  intros [B1 B2 B3 B4 B5 B6 B7]. destruct which; unfold over; split;
    cbn [messages messageTimeouts pingTimeouts]; auto with homa.
  - intros q. rewrite timeouts_cancelTimeout. intros [? _]%elem_of_list_remove; [auto|apply B2].
  - intros n. rewrite cancelTimeout_interval. auto.
  - intros q. rewrite timeouts_cancelTimeout. intros [? _]%elem_of_list_remove; [auto|apply B3].
  - intros n. rewrite cancelTimeout_interval. auto.
Qed.

Lemma wp_cancel_messageTimeout x b p s (Q : unit -> Sender -> Prop) :
  inv x s ->
  (forall s', inv x s' -> agree [] s s' ->
     messageTimeouts (messageBuckets s' b) = cancelTimeout p (messageTimeouts (messageBuckets s b)) ->
     (forall c, pingTimeouts (messageBuckets s' c) = pingTimeouts (messageBuckets s c)) ->
     Q tt s') ->
  wp (cancel_messageTimeout b p) s Q.
Proof.
  intros Hi HQ. unfold cancel_messageTimeout, update_bucket. wp_step. apply HQ.
  - apply inv_bucket_update; [done| |done].
    apply (bucket_ok_cancel _ _ p true), Hi.
  - by apply agree_update_bucket.
  - unfold over; cbn [messageBuckets]. by rewrite fn_lookup_insert.
  - intros c. unfold over; cbn [messageBuckets]. destruct (decide (c = b)) as [->|].
    + by rewrite fn_lookup_insert.
    + by rewrite fn_lookup_insert_ne.
Qed.

Lemma wp_cancel_pingTimeout x b p s (Q : unit -> Sender -> Prop) :
  inv x s ->
  (forall s', inv x s' -> agree [] s s' ->
     pingTimeouts (messageBuckets s' b) = cancelTimeout p (pingTimeouts (messageBuckets s b)) ->
     (forall c, messageTimeouts (messageBuckets s' c) = messageTimeouts (messageBuckets s c)) ->
     Q tt s') ->
  wp (cancel_pingTimeout b p) s Q.
Proof.
  intros Hi HQ. unfold cancel_pingTimeout, update_bucket. wp_step. apply HQ.
  - apply inv_bucket_update; [done| |done].
    apply (bucket_ok_cancel _ _ p false), Hi.
  - by apply agree_update_bucket.
  - unfold over; cbn [messageBuckets]. by rewrite fn_lookup_insert.
  - intros c. unfold over; cbn [messageBuckets]. destruct (decide (c = b)) as [->|].
    + by rewrite fn_lookup_insert.
    + by rewrite fn_lookup_insert_ne.
Qed.

(** After [cancel_timeouts], the message has no timeout in that bucket. *)
Lemma wp_cancel_timeouts x b p s (Q : unit -> Sender -> Prop) :
  inv x s ->
  (forall s', inv x s' -> agree [] s s' ->
     p ∉ timeouts (messageTimeouts (messageBuckets s' b)) ->
     p ∉ timeouts (pingTimeouts (messageBuckets s' b)) ->
     messageTimeouts (messageBuckets s' b) = cancelTimeout p (messageTimeouts (messageBuckets s b)) ->
     pingTimeouts (messageBuckets s' b) = cancelTimeout p (pingTimeouts (messageBuckets s b)) ->
     Q tt s') ->
  wp (cancel_timeouts b p) s Q.
Proof.
  intros Hi HQ. unfold cancel_timeouts. wp_step.
  eapply wp_cancel_messageTimeout; [done|]. intros s1 Hi1 Ha1 Hm1 Hp1.
  eapply wp_cancel_pingTimeout; [done|]. intros s2 Hi2 Ha2 Hp2 Hm2.
  destruct (inv_bucket _ _ Hi b) as [B1 B2 B3 B4 B5 B6 B7]. rewrite Hp1 in Hp2.
  apply HQ; [done|by eapply agree_trans_nil| | |by rewrite Hm2|done].
  - rewrite Hm2, Hm1, timeouts_cancelTimeout. apply not_in_list_remove, B2.
  - rewrite Hp2, timeouts_cancelTimeout. apply not_in_list_remove, B3.
Qed.

Lemma agree_world s f evs :
  (forall w, now (f w) = now w) -> trace (f (world s)) = trace (world s) ++ evs ->
  agree evs s (s <| world ::= f |>).
Proof. intros Hn Ht. split; try done. unfold over; cbn [world]. by rewrite Hn. Qed.

Lemma wp_world_op x evs f s (Q : unit -> Sender -> Prop) :
  inv x s -> (forall w, now (f w) = now w) -> trace (f (world s)) = trace (world s) ++ evs ->
  (forall s', inv x s' -> agree evs s s' -> Q tt s') -> wp (world_op (modify f)) s Q.
Proof.
  intros Hi Hn Ht HQ. unfold world_op. repeat wp_step. apply HQ.
  - apply inv_world; [by rewrite Hn|done].
  - by apply (agree_world s f).
Qed.

Lemma wp_count_s x c n s (Q : unit -> Sender -> Prop) :
  inv x s -> (forall s', inv x s' -> agree [] s s' -> Q tt s') -> wp (world_op (count c n)) s Q.
Proof. intros Hi HQ. eapply (wp_world_op x []); [done|done|by rewrite app_nil_r|done]. Qed.

Lemma wp_emit_s x e s (Q : unit -> Sender -> Prop) :
  inv x s -> (forall s', inv x s' -> agree [e] s s' -> Q tt s') -> wp (world_op (emit e)) s Q.
Proof. intros Hi HQ. by eapply (wp_world_op x [e]). Qed.

Lemma wp_release_packet x packet s (Q : unit -> Sender -> Prop) :
  inv x s -> (forall s', inv x s' -> agree [EvRelease [pkt_id packet]] s s' -> Q tt s') ->
  wp (release_packet packet) s Q.
Proof. apply wp_emit_s. Qed.

Lemma wp_send_data x packet dst prio s (Q : unit -> Sender -> Prop) :
  inv x s ->
  (forall s', inv x s' -> agree [EvSend dst prio (packet_bytes packet)] s s' -> Q tt s') ->
  wp (send_data packet dst prio) s Q.
Proof.
  intros Hi HQ. unfold send_data. wp_step. eapply wp_count_s; [done|]. intros s1 Hi1 Ha1.
  wp_step. eapply wp_count_s; [done|]. intros s2 Hi2 Ha2.
  eapply wp_emit_s; [done|]. intros s3 Hi3 Ha3. apply HQ; [done|].
  by apply (agree_trans [] _ _ s1), (agree_trans [] _ _ s2).
Qed.

Lemma wp_send_control_s {Hd : Type} `{Protocol.PacketHeaderLaws Hd} x dst (h : Hd) s
    (Q : unit -> Sender -> Prop) :
  inv x s ->
  (forall s', inv x s' ->
     agree [EvSend dst getHighestPacketPriority (Protocol.encode h);
            EvRelease [Pos.of_succ_nat (allocated (world s))]] s s' -> Q tt s') ->
  wp (world_op (send_control dst h)) s Q.
Proof.
  intros Hi HQ. unfold world_op. repeat wp_step. apply wp_send_control. apply HQ.
  - by apply inv_world.
  - by split.
Qed.

Lemma inv_agree_heap evs s s' : agree evs s s' -> heap s' = heap s.
Proof. intros []. congruence. Qed.

(** ** Finding a message *)

Lemma find_in_spec h msgId l :
  (forall p, p ∈ l -> is_Some (h !! p)) ->
  exists r, find_in h msgId l = Ok r /\
    match r with
    | Some p => p ∈ l /\ exists m, h !! p = Some m /\ id m = msgId
    | None => forall p m, p ∈ l -> h !! p = Some m -> id m <> msgId
    end.
Proof.
  induction l as [|p l IH]; intros Hl; simpl.
  - exists None. split; [done|]. intros p m Hp. by apply elem_of_nil in Hp.
  - destruct (Hl p) as [m Hm]; [by left|]. rewrite Hm, Protocol.eqMessageId_spec.
    case_bool_decide as Hid.
    + exists (Some p). split; [done|]. split; [by left|eauto].
    + destruct IH as ([q|] & -> & Hq); [intros; apply Hl; by right| |].
      * exists (Some q). split; [done|]. destruct Hq as [? ?]. split; [by right|done].
      * exists None. split; [done|]. intros q n [->|Hqin]%elem_of_cons Hn; [congruence|eauto].
Qed.

(** The message a packet is about: the one with that id, if it was sent and
    still lives. *)
Lemma wp_findMessage x s msgId (Q : option ptr -> Sender -> Prop) :
  inv x s ->
  (forall p m, heap s !! p = Some m -> id m = msgId -> state m <> NOT_STARTED ->
     p ∈ messages (messageBuckets s (getBucket msgId)) -> Q (Some p) s) ->
  ((forall p m, heap s !! p = Some m -> state m <> NOT_STARTED -> Some p <> x -> id m <> msgId) ->
     Q None s) ->
  wp (findMessage (getBucket msgId) msgId) s Q.
Proof.
  intros Hi Hsome Hnone. unfold findMessage. repeat wp_step.
  destruct (find_in_spec (heap s) msgId (messages (messageBuckets s (getBucket msgId))))
    as (r & Hr & Hspec).
  { intros p Hp. destruct (inv_in _ _ Hi _ _ Hp) as (m & ? & _). eauto. }
  unfold wp, lift. rewrite Hr. destruct r as [p|].
  - destruct Hspec as (Hp & m & Hm & Hid). destruct (inv_in _ _ Hi _ _ Hp) as (m' & Hm' & _ & Hst).
    simplify_eq. by eapply Hsome.
  - apply Hnone. intros p m Hm Hst Hx Hid. destruct (inv_home _ _ Hi p m Hm Hst Hx) as [Hp _].
    rewrite Hid in Hp. by eapply Hspec.
Qed.

(** *** Destroying a message *)

Lemma messages_forget (b c : Z) (p : ptr) (bs : Z -> MessageBucket) :
  messages (<[b := (bs b) <| messages ::= list_remove p |>]> bs c) =
  if decide (c = b) then list_remove p (messages (bs b)) else messages (bs c).
Proof. case_decide as Hc; [subst; by rewrite fn_lookup_insert|by rewrite fn_lookup_insert_ne]. Qed.

Lemma inv_bucket_forget b p s :
  inv (Some p) s ->
  p ∉ timeouts (messageTimeouts (messageBuckets s b)) ->
  p ∉ timeouts (pingTimeouts (messageBuckets s b)) ->
  inv (Some p) (s <| messageBuckets ::= fun bs => <[b := (bs b) <| messages ::= list_remove p |>]> bs |>).
Proof.
  intros [Hpool Hpol Hmsg Hbk Hin Hhome Hids Hnd Hs Hqu Hqd Hhd] Hm Hp.
  set (s2 := s <| messageBuckets ::= _ |>).
  assert (forall c, messages (messageBuckets s2 c) = if decide (c = b)
    then list_remove p (messages (messageBuckets s b)) else messages (messageBuckets s c)) as Hmsgs
    by (intros c; apply (messages_forget b c p (messageBuckets s))).
  split; try done.
  - intros c. unfold s2, over; cbn [messageBuckets world]. destruct (decide (c = b)) as [->|];
      [rewrite fn_lookup_insert|by rewrite fn_lookup_insert_ne].
    destruct (Hbk b) as [B1 B2 B3 B4 B5 B6 B7].
    split; cbn [messages messageTimeouts pingTimeouts]; try done; auto with homa.
    + intros q Hqin. apply elem_of_list_remove; [done|]. split; [auto|by intros ->].
    + intros q Hqin. apply elem_of_list_remove; [done|]. split; [auto|by intros ->].
  - intros c q. rewrite Hmsgs. case_decide; [subst|apply Hin].
    intros [Hqin _]%elem_of_list_remove; [by apply Hin|apply Hbk].
  - intros q n Hqn Hsn Hne. destruct (Hhome q n Hqn Hsn Hne) as [Hqin ?]. split; [|done].
    change (id n) with (id n) in *. rewrite Hmsgs. case_decide as Hc; [|done]. rewrite Hc in Hqin.
    apply elem_of_list_remove; [apply Hbk|]. split; [done|congruence].
Qed.

Lemma linked_false x p s :
  inv x s -> p ∉ sendQueue s -> (forall c, p ∉ messages (messageBuckets s c)) -> linked s p = false.
Proof.
  intros Hi Hq Hnot. unfold linked. rewrite bool_decide_false, orb_false_l by done.
  apply not_true_is_false. intros (c & _ & Hc)%existsb_exists. specialize (Hnot c).
  destruct (inv_bucket _ _ Hi c) as [C1 C2 C3 C4 C5 C6 C7].
  rewrite !orb_true_iff, !bool_decide_eq_true in Hc. naive_solver.
Qed.

Lemma inv_delete p o' s :
  inv (Some p) s -> p ∉ sendQueue s -> (forall c, p ∉ messages (messageBuckets s c)) ->
  pool_ok o' -> objects o' = delete p (heap s) -> inv None (s <| messageAllocator := o' |>).
Proof.
  intros [Hpool Hpol Hmsg Hbk Hin Hhome Hids Hnd Hs Hqu Hqd Hhd] Hq Hnot Hpool' Ho'.
  set (s4 := s <| messageAllocator := o' |>).
  assert (heap s4 = delete p (heap s)) as Hh4 by done.
  split; try rewrite Hh4; try done.
  - intros q n [_ Hqn]%lookup_delete_Some. by eapply Hmsg.
  - intros c q Hqin. destruct (Hin c q Hqin) as (n & ? & ? & ?). exists n.
    rewrite lookup_delete_ne; [done|]. intros <-. by apply (Hnot c).
  - intros q n [? Hqn]%lookup_delete_Some Hsn _. apply Hhome; [done|done|congruence].
  - intros q r n n' [_ Hqn]%lookup_delete_Some [_ Hrn]%lookup_delete_Some. by eapply Hids.
  - eapply sorted_by_ext; [|done]. intros q Hqin. unfold unsent. rewrite lookup_delete_ne; [done|].
    by intros <-.
  - intros q Hqin. destruct (Hqu q Hqin) as (n & ? & ? & Hor).
    assert (p <> q) by (by intros <-).
    exists n. rewrite lookup_delete_ne by done. split_and!; [done|done|].
    destruct Hor as [?|[= ?]]; [by left|congruence].
  - intros q n [? Hqn]%lookup_delete_Some Hsn _. eapply Hqd; [done|done|congruence].
  - intros q n [? Hqn]%lookup_delete_Some _. eapply Hhd; [done|congruence].
Qed.

(** ** Destroying a message *)

Lemma wp_remove_message x b p m s (Q : unit -> Sender -> Prop) :
  inv x s -> (x = None \/ x = Some p) -> heap s !! p = Some m -> p ∉ sendQueue s ->
  (forall c, p ∈ messages (messageBuckets s c) -> c = b) ->
  (forall s', inv None s' -> heap s' = delete p (heap s) -> sendQueue s' = sendQueue s ->
     trace (world s') = trace (world s) ++ [EvRelease (packet_ids m)] ->
     sendReady s' = sendReady s /\ sending s' = sending s -> Q tt s') ->
  wp (remove_message b p) s Q.
Proof.
  intros Hi Hx Hp Hq Hb HQ. unfold remove_message. wp_step.
  assert (inv (Some p) s) as Hip by (destruct Hx as [-> | ->]; [by apply inv_weaken|done]).
  eapply wp_cancel_timeouts; [exact Hip|]. intros s1 Hi1 Ha1 Hm1 Hp1 _ _.
  unfold update_bucket. repeat wp_step. set (s2 := s1 <| messageBuckets ::= _ |>).
  assert (inv (Some p) s2) as Hi2 by (by apply inv_bucket_forget).
  assert (forall c, p ∉ messages (messageBuckets s2 c)) as Hnot.
  { intros c. rewrite (messages_forget b c p (messageBuckets s1) : messages (messageBuckets s2 c) = _).
    case_decide as Hc.
    - apply not_in_list_remove, (inv_bucket _ _ Hi1).
    - rewrite (ag_messages _ _ _ Ha1). intros Hpc. by apply Hb in Hpc. }
  assert (heap s2 !! p = Some m) as Hp2.
  { change (heap s2) with (heap s1). by rewrite (inv_agree_heap _ _ _ Ha1). }
  unfold destroy_message. wp_step. eapply wp_deref; [exact Hp2|]. wp_step.
  eapply wp_emit_s; [exact Hi2|]. intros s3 Hi3 Ha3. repeat wp_step.
  assert (sendQueue s3 = sendQueue s) as Hq3
    by (rewrite (ag_queue _ _ _ Ha3); apply (ag_queue _ _ _ Ha1)).
  assert (p ∉ sendQueue s3) as Hnq by (by rewrite Hq3).
  assert (forall c, p ∉ messages (messageBuckets s3 c)) as Hnot3
    by (intros c; by rewrite (ag_messages _ _ _ Ha3)).
  rewrite (linked_false _ _ _ Hi3 Hnq Hnot3). unfold allocator_op. repeat wp_step.
  eapply destroy_wp; [apply Hi3|by rewrite (inv_agree_heap _ _ _ Ha3)|done|].
  intros o' Ho' Hpool'.
  pose proof (inv_delete p o' s3 Hi3 Hnq Hnot3 Hpool' Ho') as Hi4.
  eapply wp_count_s; [exact Hi4|]. intros s5 Hi5 Ha5. apply HQ; [done| | | |].
  - rewrite (inv_agree_heap _ _ _ Ha5). change (objects o' = delete p (heap s)). rewrite Ho'.
    rewrite (inv_agree_heap _ _ _ Ha3). change (heap s2) with (heap s1).
    by rewrite (inv_agree_heap _ _ _ Ha1).
  - rewrite (ag_queue _ _ _ Ha5). exact Hq3.
  - rewrite (ag_trace _ _ _ Ha5), app_nil_r. change (trace (world s3) = trace (world s) ++ [EvRelease (packet_ids m)]).
    rewrite (ag_trace _ _ _ Ha3). change (world s2) with (world s1).
    by rewrite (ag_trace _ _ _ Ha1), app_nil_r.
  - rewrite (ag_ready _ _ _ Ha5), (ag_sending _ _ _ Ha5).
    change (sendReady s3 = sendReady s /\ sending s3 = sending s).
    rewrite (ag_ready _ _ _ Ha3), (ag_sending _ _ _ Ha3). split; apply Ha1.
Qed.

(** ** Replacing the message an operation works on *)

Definition put p m' s : Sender :=
  s <| messageAllocator ::= fun o => o <| objects ::= <[p := m']> |> |>.

Lemma put_put p m1 m2 s : put p m2 (put p m1 s) = put p m2 s.
Proof.
  destruct s as [? ? ? ? ? ? ? ? [] ? ?]. unfold put, over; cbn. by rewrite insert_insert_eq.
Qed.

Lemma heap_put p m s : heap (put p m s) = <[p := m]> (heap s).
Proof. done. Qed.

Lemma lookup_put p m s : heap (put p m s) !! p = Some m.
Proof. rewrite heap_put. apply lookup_insert_eq. Qed.

Lemma update_put p f m s :
  heap s !! p = Some m ->
  s <| messageAllocator ::= fun o => o <| objects ::= alter f p |> |> = put p (f m) s.
Proof.
  intros Hp. destruct s as [? ? ? ? ? ? ? ? [] ? ?]. unfold put, over; cbn in *.
  by rewrite (alter_is_insert _ _ _ _ Hp).
Qed.

Lemma wp_update_put p f m s (Q : unit -> Sender -> Prop) :
  heap s !! p = Some m -> Q tt (put p (f m) s) -> wp (update p f) s Q.
Proof. intros Hp HQ. apply wp_update. by rewrite (update_put _ _ m). Qed.

Lemma inv_put_own p m m' s :
  inv (Some p) s -> heap s !! p = Some m -> p ∉ sendQueue s ->
  message_inv (transportId s) (nextMessageSequenceNumber s) m' ->
  id m' = id m -> (state m' = NOT_STARTED <-> state m = NOT_STARTED) ->
  inv (Some p) (put p m' s).
Proof.
  intros Hi Hp Hq Hm' Hid Hst. rewrite <- (update_put p (fun _ => m') m s Hp).
  eapply inv_update; [done..| | | |]; by intros.
Qed.

Lemma shape_insert_same ps num len i d d' :
  shape ps num len -> ps !! i = Some d -> length d' = length d ->
  zlength (payload d') = zlength (payload d) -> shape (<[i := d']> ps) num len.
Proof.
  intros [Hnum Hdom Hlen Hpay] Hi Hl Hp. split; [done| | |].
  - intros j. rewrite <- Hdom. destruct (decide (j = i)) as [->|];
      [rewrite lookup_insert_eq, Hi; split; eauto|by rewrite lookup_insert_ne].
  - intros j q [[<- <-]|[_ Hq]]%lookup_insert_Some; [rewrite Hl|]; eauto.
  - intros j q [[<- <-]|[_ Hq]]%lookup_insert_Some; [rewrite Hp|]; eauto.
Qed.

(** Writing in the headers of the packets leaves the message bytes alone. *)
Definition same_bytes (ps ps' : gmap Z Packet) : Prop := forall k, byte_at ps' k = byte_at ps k.

Lemma same_bytes_insert ps i d off bs l :
  ps !! i = Some d -> 0 <= off -> off + zlength bs <= TRANSPORT_HEADER_LENGTH ->
  zlength (payload d) = getMaxPayloadSize ->
  same_bytes ps (<[i := mkPacket (pkt_id d) (write_at off bs (payload d)) l]> ps).
Proof.
  intros Hi Ho Hl Hp k. rewrite byte_at_insert. case_decide as Hk; [|done]. cbn [payload].
  unfold byte_at. rewrite Hk, Hi. simpl. destruct (data_div_mod k).
  pose proof data_length_payload. pose proof data_length_range. pose proof (zlength_nonneg bs).
  rewrite lookup_write_at by lia. rewrite decide_False; [done|].
  assert (TRANSPORT_HEADER_LENGTH = 31) as HT by done. lia.
Qed.

Lemma data_same_bytes m m' :
  start m' = start m -> messageLength m' = messageLength m ->
  same_bytes (packets m) (packets m') -> data m' = data m.
Proof. intros E1 E2 Hs. unfold data. rewrite E1, E2. apply omap_ext_elem. intros k _. apply Hs. Qed.

(** ** The tails that sendMessage and handleUnknownPacket share *)

Lemma wp_send_single p m prio s (Q : unit -> Sender -> Prop) :
  inv (Some p) s -> heap s !! p = Some m -> p ∉ sendQueue s ->
  p ∈ messages (messageBuckets s (getBucket (id m))) ->
  numPackets m = 1 -> held m = true -> state m <> NOT_STARTED ->
  (forall d s', packets m !! 0 = Some d -> inv None s' -> agree
     [EvSend (ip (destination m)) prio (packet_bytes d)] (put p (m <| state := SENT |>) s) s' -> Q tt s') ->
  wp (send_single (getBucket (id m)) p prio) s Q.
Proof.
  intros Hi Hp Hq Hin Hn Hheld Hst HQ. unfold send_single. wp_step. eapply wp_deref; [done|].
  destruct (inv_message _ _ Hi p m Hp) as [[Hsh ? ?] ?].
  assert (is_Some (packets m !! 0)) as [d Hd] by (apply (shape_dom _ _ _ Hsh); lia).
  wp_step. unfold wp at 1, lift. rewrite getPacket_ok, Hd by (unfold MAX_MESSAGE_PACKETS; lia).
  wp_step. eapply wp_send_data; [exact Hi|]. intros s1 Hi1 Ha1. wp_step. unfold set_state.
  assert (heap s1 !! p = Some m) as Hp1 by (by rewrite (inv_agree_heap _ _ _ Ha1)).
  eapply wp_update_put; [done|]. set (m' := m <| state := SENT |>).
  assert (p ∉ sendQueue s1) as Hq1 by (by rewrite (ag_queue _ _ _ Ha1)).
  assert (inv None (put p m' s1)) as Hi2.
  { eapply (inv_done p _ m').
    - eapply inv_put_own; [done..| |done|done]. by eapply message_inv_same, (inv_message _ _ Hi1 p m).
    - apply lookup_put.
    - intros _. split; [|unfold m', over; cbn; lia].
      change (p ∈ messages (messageBuckets s1 (getBucket (id m)))). by rewrite (ag_messages _ _ _ Ha1).
    - by split.
    - intros Hf. change (held m = false) in Hf. congruence. }
  assert (agree [EvSend (ip (destination m)) prio (packet_bytes d)] (put p m' s) (put p m' s1)) as Ha2.
  { destruct Ha1 as [A1 A2 A3 A4 A5 A6 A7 A8 A9 A10 A11]. split; try done.
    unfold put, over; cbn. by rewrite A1. }
  repeat wp_step; [done|]. case_bool.
  - eapply wp_cancel_timeouts; [done|]. intros s3 Hi3 Ha3 _ _ _ _. eapply HQ; [done..|].
    by apply (agree_trans _ [] _ _ _ Ha2) in Ha3.
  - wp_step. by eapply HQ.
Qed.

(** [info] describes the message [m] at [p] before any packet was sent. *)
Record fresh_info p m (limit : Z) (info : QueuedMessageInfo) : Prop := {
  fi_packets : q_packets info = Some p;
  fi_id : q_id info = id m;
  fi_destination : q_destination info = destination m;
  fi_unsent : unsentBytes info = messageLength m;
  fi_granted : packetsGranted info = Z.min limit (numPackets m);
  fi_sent : packetsSent info = 0
}.

(** The parts of the Sender that sending a message leaves alone. *)
Record same_settings s s' : Prop := {
  ss_tid : transportId s' = transportId s;
  ss_next : nextMessageSequenceNumber s' = nextMessageSequenceNumber s;
  ss_policy : policyManager s' = policyManager s
}.
Lemma agree_settings evs s s' : agree evs s s' -> same_settings s s'.
Proof. intros []. by split. Qed.

Lemma wp_enqueue p m limit f s (Q : unit -> Sender -> Prop) :
  inv (Some p) s -> heap s !! p = Some m -> p ∉ sendQueue s ->
  p ∈ messages (messageBuckets s (getBucket (id m))) ->
  2 <= numPackets m -> state m = IN_PROGRESS -> 0 <= limit ->
  fresh_info p m limit (f (queuedMessageInfo m)) ->
  (forall s', inv None s' -> heap s' = <[p := m <| queuedMessageInfo ::= f |>]> (heap s) ->
     p ∈ sendQueue s' -> sendReady s' = true -> world s' = world s -> same_settings s s' -> Q tt s') ->
  wp (_ ← update_info p f; _ ← queue_insert p; modify (fun s => s <| sendReady := true |>)) s Q.
Proof.
  intros Hi Hp Hq Hin Hn Hst Hlim [F1 F2 F3 F4 F5 F6] HQ. wp_step.
  eapply wp_update_put; [done|]. set (m' := m <| queuedMessageInfo ::= f |>).
  assert (message_inv (transportId s) (nextMessageSequenceNumber s) m') as Hm'
    by (by eapply message_inv_same, (inv_message _ _ Hi p m)).
  destruct (inv_message _ _ Hi p m Hp) as [[Hsh Hlen ?] ?].
  assert (inv (Some p) (put p m' s)) as Hi1 by (eapply inv_put_own; done).
  unfold queue_insert. repeat wp_step; [by apply bool_decide_true|]. repeat wp_step. apply HQ; try done.
  - eapply inv_ext; [..|eapply (inv_done p _ m');
      [eapply (inv_queue_insert p m' (put p m' s)); [done|apply lookup_put| |done]|apply lookup_put|..]];
      try done.
    + split; [done|]. unfold unsent_of, m', over; cbn. rewrite F4, F6. lia.
    + intros _. split; [done|]. intros _. unfold m'. split; unfold over; cbn; try done; lia.
    + split; [done|]. intros _. unfold over; cbn [sendQueue].
      rewrite deprioritize_Permutation by (by left). by left.
  - unfold over; cbn [sendQueue]. rewrite deprioritize_Permutation by (by left). by left.
Qed.

Lemma unscheduled_limit_eq pol s :
  policy_ok (policyManager s) -> Policy.unscheduledByteLimit pol = Policy.RTT_BYTES (policyManager s) ->
  0 <= unscheduled_limit pol < 2 ^ 16 /\
  unscheduled_limit pol = packets_for (Policy.RTT_BYTES (policyManager s)).
Proof.
  intros (Hok & Hr & Hp) Hu. unfold unscheduled_limit. rewrite Hu.
  pose proof (Policy.ok_rtt _ Hok). pose proof data_length_range.
  rewrite u32_small by lia. fold (packets_for (Policy.RTT_BYTES (policyManager s))).
  assert (0 <= packets_for (Policy.RTT_BYTES (policyManager s))) by (apply Z.div_pos; lia).
  rewrite i32_small by lia. split; [lia|done].
Qed.
End inv.

End SenderInv.
