(* ===== verification/SenderHandlers.v ===== *)
(** * SenderHandlers: what the Sender does with each packet

    For every handler of the Sender: from a state that satisfies the invariant
    it returns (no assertion fails, no exception, no bad pointer), it keeps the
    invariant, and it changes exactly what the lemma says. *)

From S2P Require Import Prelude Intrusive Util Timeout ObjectPool Perf Protocol Policy Driver SenderMessage Sender SenderInv.
Import Driver SenderMessage Sender SenderInv.

Module SenderHandlers.

Section handlers.
Context `{DriverLaws}.
Implicit Types (s : Sender) (p q : ptr) (m : Message) (x : option ptr) (b : Z).

Lemma inv_not_queued s p m :
  inv None s -> heap s !! p = Some m -> state m <> IN_PROGRESS -> p ∉ sendQueue s.
Proof.
  intros Hi Hp Hst Hq. destruct (inv_queue _ _ Hi p Hq) as (n & Hn & _ & [?|?]); congruence.
Qed.

Lemma inv_in_queue s p m :
  inv None s -> heap s !! p = Some m -> state m = IN_PROGRESS -> p ∈ sendQueue s.
Proof. intros Hi Hp Hst. by eapply inv_queued. Qed.

Lemma inv_multi s p m :
  inv None s -> heap s !! p = Some m -> state m = IN_PROGRESS -> 2 <= numPackets m.
Proof.
  intros Hi Hp Hst. destruct (inv_queue _ _ Hi p) as (n & Hn & [? _] & _).
  - by eapply inv_in_queue.
  - congruence.
Qed.

Lemma wp_deref_agree p m evs s s' (Q : Message -> Sender -> Prop) :
  agree evs s s' -> heap s !! p = Some m -> Q m s' -> wp (deref p) s' Q.
Proof. intros Ha Hp HQ. apply (wp_deref p m); [by rewrite (inv_agree_heap _ _ _ Ha)|done]. Qed.

(** Giving a started message that is in no queue a final state. *)
Lemma wp_finish x p m st s (Q : unit -> Sender -> Prop) :
  inv x s -> x = None \/ x = Some p ->
  heap s !! p = Some m -> state m <> NOT_STARTED -> st <> NOT_STARTED -> st <> IN_PROGRESS ->
  p ∉ sendQueue s -> p ∈ messages (messageBuckets s (getBucket (id m))) ->
  (2 <= numPackets m -> info_ok p m) -> (held m = false -> 2 <= numPackets m) ->
  (forall s', inv None s' -> heap s' = <[p := m <| state := st |>]> (heap s) ->
     sendQueue s' = sendQueue s -> world s' = world s -> messageBuckets s' = messageBuckets s ->
     Q tt s') ->
  wp (set_state p st) s Q.
Proof.
  intros Hi Hx Hp Hst Hst1 Hst2 Hq Hin Hinfo Hheld HQ. unfold set_state. apply wp_update.
  apply HQ; try done; [|by apply alter_is_insert].
  assert (inv (Some p) s) as Hip by (destruct Hx as [-> | ->]; [by apply inv_weaken|done]).
  set (f := fun m : Message => m <| state := st |>).
  eapply (inv_done p _ (f m)).
  - eapply inv_update; [exact Hip|exact Hp| |done|..].
    + by eapply message_inv_same, (inv_message _ _ Hi p m).
    + unfold over; cbn. by split.
    + intros _ Hc. by destruct Hc.
    + intros Hc. by destruct Hc.
    + intros Hc. by destruct Hc.
    + intros Hc. by destruct Hq.
  - unfold over; cbn. by rewrite lookup_alter_eq, Hp.
  - intros _. split; [done|]. intros Hn. destruct (Hinfo Hn). by split.
  - unfold over; cbn. done.
  - done.
Qed.

Lemma inv_started x s p m :
  inv x s -> heap s !! p = Some m -> state m <> NOT_STARTED -> 0 < numPackets m.
Proof. intros Hi Hp Hst. destruct (inv_message _ _ Hi p m Hp) as [_ Hs]. by apply Hs. Qed.

(** The result of DONE and ERROR: only a SENT message changes state, and its
    timeouts go away. *)
Lemma handle_final_spec p m st s packet (Q : unit -> Sender -> Prop) :
  inv None s -> heap s !! p = Some m -> state m = SENT -> st <> NOT_STARTED -> st <> IN_PROGRESS ->
  (forall s', inv None s' -> heap s' = <[p := m <| state := st |>]> (heap s) ->
     p ∉ timeouts (messageTimeouts (messageBuckets s' (getBucket (id m)))) ->
     p ∉ timeouts (pingTimeouts (messageBuckets s' (getBucket (id m)))) ->
     trace (world s') = trace (world s) ++ [EvRelease [pkt_id packet]] -> Q tt s') ->
  wp (_ ← (_ ← cancel_timeouts (getBucket (id m)) p; set_state p st); release_packet packet) s Q.
Proof.
  intros Hi Hp Hst Hst1 Hst2 HQ. assert (state m <> NOT_STARTED) as Hns by congruence.
  destruct (inv_home _ _ Hi p m Hp Hns) as [Hin Hinfo]; [done|].
  repeat wp_step. eapply wp_cancel_timeouts; [done|]. intros s1 Hi1 Ha1 Hm1 Hp1 _ _.
  eapply (wp_finish None p m);
    [done|by left|by rewrite (inv_agree_heap _ _ _ Ha1)|done..| | |done|by apply (inv_held _ _ Hi p m)|].
  - rewrite (ag_queue _ _ _ Ha1). eapply inv_not_queued; [done..|congruence].
  - by rewrite (ag_messages _ _ _ Ha1).
  - intros s2 Hi2 Hh2 Hq2 Hw2 Hb2. unfold release_packet, world_op, releasePackets, emit.
    repeat wp_step. set (s3 := s2 <| world := _ |>). apply (HQ s3).
    + by apply inv_world.
    + change (heap s3) with (heap s2). by rewrite Hh2, (inv_agree_heap _ _ _ Ha1).
    + change (messageBuckets s3) with (messageBuckets s2). by rewrite Hb2.
    + change (messageBuckets s3) with (messageBuckets s2). by rewrite Hb2.
    + change (trace (world s2) ++ [EvRelease [pkt_id packet]] =
        trace (world s) ++ [EvRelease [pkt_id packet]]).
      by rewrite Hw2, (ag_trace _ _ _ Ha1), app_nil_r.
Qed.

(** What handleDonePacket ([st = COMPLETED]) and handleErrorPacket
    ([st = FAILED]) do to the state of the messages. *)
Definition final_effect (st : Status) (msgId : Protocol.MessageId) s s' : Prop :=
  forall q, heap s' !! q = (fun m =>
    if bool_decide (id m = msgId) && bool_decide (state m = SENT) then m <| state := st |> else m)
    <$> heap s !! q.

Lemma final_effect_same st msgId s s' :
  inv None s -> heap s' = heap s ->
  (forall p m, heap s !! p = Some m -> id m = msgId -> state m <> SENT) -> final_effect st msgId s s'.
Proof.
  intros Hi Hh Hno q. rewrite Hh. destruct (heap s !! q) as [m|] eqn:Hq; simpl; [|done]. f_equal.
  case_bool_decide; [|done]. case_bool_decide; [|done]. exfalso. by eapply Hno.
Qed.

Lemma final_effect_one st p m s s' :
  inv None s -> heap s !! p = Some m -> state m = SENT ->
  heap s' = <[p := m <| state := st |>]> (heap s) -> final_effect st (id m) s s'.
Proof.
  intros Hi Hp Hst Hh q. rewrite Hh. destruct (decide (p = q)) as [<-|Hne].
  - rewrite lookup_insert_eq, Hp. simpl. by rewrite !bool_decide_true.
  - rewrite lookup_insert_ne by done. destruct (heap s !! q) as [n|] eqn:Hq; simpl; [|done].
    f_equal. case_bool_decide as Hid; [|done]. case_bool_decide; [|done].
    exfalso. apply Hne. eapply (inv_ids _ _ Hi); try done; congruence.
Qed.

Lemma handle_terminal_spec (st : Status) (packet : Packet) msgId s
    (body : ptr -> Status -> M Sender unit) :
  inv None s -> st <> NOT_STARTED -> st <> IN_PROGRESS ->
  (forall p, body p SENT = (_ ← cancel_timeouts (getBucket msgId) p; set_state p st)) ->
  (forall p st', st' <> SENT -> body p st' = mret tt) ->
  wp (message ← findMessage (getBucket msgId) msgId;
      match message with
      | None => release_packet packet
      | Some p => m ← deref p; _ ← body p (state m); release_packet packet
      end) s
    (fun _ s' => inv None s' /\ final_effect st msgId s s' /\
       trace (world s') = trace (world s) ++ [EvRelease [pkt_id packet]]).
Proof.
  intros Hi Hst1 Hst2 Hsent Hother. wp_step. eapply wp_findMessage; [done| |].
  - intros p m Hp <- Hst Hin. wp_step. eapply wp_deref; [done|].
    destruct (decide (state m = SENT)) as [Hs|Hs].
    + rewrite Hs, Hsent. eapply handle_final_spec; [done..|].
      intros s' Hi' Hh' _ _ Ht'. split_and!; [done|by eapply final_effect_one|done].
    + rewrite Hother by done. repeat wp_step. eapply wp_release_packet; [done|].
      intros s' Hi' Ha'. split_and!; [done| |apply Ha'].
      apply final_effect_same; [done|by eapply inv_agree_heap|].
      intros q n Hq Hid Hsn. apply Hs.
      assert (q = p) as -> by (eapply (inv_ids _ _ Hi); try done; congruence). congruence.
  - intros Hno. eapply wp_release_packet; [done|]. intros s' Hi' Ha'.
    split_and!; [done| |apply Ha']. apply final_effect_same; [done|by eapply inv_agree_heap|].
    intros p m Hp Hid Hs. eapply Hno; [done|congruence|done|done].
Qed.

Lemma handleDonePacket_spec packet s :
  inv None s ->
  wp (handleDonePacket packet) s (fun _ s' => inv None s' /\
    final_effect COMPLETED (Protocol.messageId (Protocol.done_common
      (read_header Protocol.DoneHeader packet))) s s' /\
    trace (world s') = trace (world s) ++ [EvRelease [pkt_id packet]]).
Proof.
  intros Hi. apply (handle_terminal_spec COMPLETED packet _ s (fun p st => match st with
    | SENT => _ ← cancel_timeouts (getBucket (Protocol.messageId (Protocol.done_common
        (read_header Protocol.DoneHeader packet)))) p; set_state p COMPLETED
    | _ => mret tt end)); [done..|]. by intros p [].
Qed.

Lemma handleErrorPacket_spec packet s :
  inv None s ->
  wp (handleErrorPacket packet) s (fun _ s' => inv None s' /\
    final_effect FAILED (Protocol.messageId (Protocol.error_common
      (read_header Protocol.ErrorHeader packet))) s s' /\
    trace (world s') = trace (world s) ++ [EvRelease [pkt_id packet]]).
Proof.
  intros Hi. apply (handle_terminal_spec FAILED packet _ s (fun p st => match st with
    | SENT => _ ← cancel_timeouts (getBucket (Protocol.messageId (Protocol.error_common
        (read_header Protocol.ErrorHeader packet)))) p; set_state p FAILED
    | _ => mret tt end)); [done..|]. by intros p [].
Qed.

(** ** GRANT and RESEND *)

(** A handler that applies [f] to the message of that id, if it was sent. *)
Definition on_message (msgId : Protocol.MessageId) (f : Message -> Message) s s' : Prop :=
  forall q, heap s' !! q = (fun m =>
    if bool_decide (id m = msgId) && negb (bool_decide (state m = NOT_STARTED)) then f m else m)
    <$> heap s !! q.

Lemma on_message_one f p m s s' :
  inv None s -> heap s !! p = Some m -> state m <> NOT_STARTED ->
  heap s' = <[p := f m]> (heap s) -> on_message (id m) f s s'.
Proof.
  intros Hi Hp Hst Hh q. rewrite Hh. destruct (decide (p = q)) as [<-|Hne].
  - rewrite lookup_insert_eq, Hp. simpl. by rewrite bool_decide_true, bool_decide_false.
  - rewrite lookup_insert_ne by done. destruct (heap s !! q) as [n|] eqn:Hq; simpl; [|done].
    f_equal. case_bool_decide as Hid; [|done]. case_bool_decide; [done|].
    exfalso. apply Hne. by eapply (inv_ids _ _ Hi).
Qed.

Lemma on_message_none f msgId s s' :
  (forall p m, heap s !! p = Some m -> state m <> NOT_STARTED -> id m <> msgId) ->
  heap s' = heap s -> on_message msgId f s s'.
Proof.
  intros Hno Hh q. rewrite Hh. destruct (heap s !! q) as [m|] eqn:Hq; simpl; [|done]. f_equal.
  case_bool_decide; [|done]. case_bool_decide; [done|]. exfalso. by eapply Hno.
Qed.

Lemma on_message_id f p m s s' :
  inv None s -> heap s !! p = Some m -> state m <> NOT_STARTED -> f m = m ->
  heap s' = heap s -> on_message (id m) f s s'.
Proof. intros Hi Hp Hst Hf Hh. apply (on_message_one f p); [done..|]. by rewrite Hf, insert_id. Qed.

(** Grant [g] packets at a new priority, unless as many are granted. *)
Definition raise_grant (g prio : Z) m : Message :=
  if packetsGranted (queuedMessageInfo m) <? g
  then m <| queuedMessageInfo ::= fun i => i <| packetsGranted := g |> <| q_priority := prio |> |>
  else m.

Lemma wp_raise_grant p m g prio s (Q : unit -> Sender -> Prop) :
  inv None s -> heap s !! p = Some m -> state m <> NOT_STARTED -> 2 <= numPackets m ->
  g <= numPackets m ->
  (forall s', inv None s' -> heap s' = <[p := raise_grant g prio m]> (heap s) ->
     world s' = world s -> policyManager s' = policyManager s -> Q tt s') ->
  wp (when (packetsGranted (queuedMessageInfo m) <? g)
        (_ ← update_info p (fun i => i <| packetsGranted := g |> <| q_priority := prio |>);
         modify (fun s => s <| sendReady := true |>))) s Q.
Proof.
  intros Hi Hp Hst Hn Hg HQ. unfold when. destruct (inv_home _ _ Hi p m Hp Hst) as [_ Hinfo]; [done|].
  specialize (Hinfo Hn). destruct Hinfo as [I1 I2 I3 I4 I5].
  case_bool.
  - wp_step. unfold update_info. apply wp_update. wp_step.
    set (f := fun m : Message => m <| queuedMessageInfo ::= fun i =>
      i <| packetsGranted := g |> <| q_priority := prio |> |>).
    apply HQ; try done.
    + eapply inv_ext; [..|eapply (inv_update None s p m f)]; try done.
      * by eapply message_inv_same, (inv_message _ _ Hi p m).
      * intros _ _ _. unfold f, over; split; cbn; try done. lia.
      * intros Hq. destruct (inv_queue _ _ Hi p Hq) as (n & Hn' & [Q1 Q2] & _). simplify_eq.
        split; [by split|done].
    + unfold raise_grant. replace (packetsGranted (queuedMessageInfo m) <? g) with true
        by (symmetry; by apply Z.ltb_lt). by apply alter_is_insert.
  - wp_step. apply HQ; try done. unfold raise_grant.
    replace (packetsGranted (queuedMessageInfo m) <? g) with false
      by (symmetry; by apply Z.ltb_ge). by rewrite insert_id.
Qed.

(** The packets of a message that begin below [limit] bytes. *)
Definition covered (limit : Z) m : Z :=
  zlength (filter (fun i => i * PACKET_DATA_LENGTH < limit) (seqZ 0 (numPackets m))).
(** The limits that the code loses when it rounds them up to whole packets: the sum
    does not fit 32 bits, or the number of packets an int. *)
Definition limit_wraps (limit : Z) : bool :=
  Z.min (2 ^ 32) (2 ^ 31 * PACKET_DATA_LENGTH) <? limit + PACKET_DATA_LENGTH.
(** A GRANT grants what its limit covers to a message in progress. *)
Definition grant_effect (limit prio : Z) m : Message :=
  if bool_decide (state m = IN_PROGRESS) && negb (limit_wraps limit)
  then raise_grant (covered limit m) prio m else m.

Lemma covered_eq limit m :
  0 <= limit -> 0 <= numPackets m -> covered limit m = Z.min (numPackets m) (packets_for limit).
Proof.
  intros Hl Hn. pose proof data_length_range as HP. assert (0 <= packets_for limit) as Hp by (apply Z.div_pos; lia).
  set (k := Z.min (numPackets m) (packets_for limit)). unfold covered.
  replace (numPackets m) with (k + (numPackets m - k)) by lia. rewrite seqZ_app, filter_app by lia.
  assert (forall i, i < packets_for limit <-> i * PACKET_DATA_LENGTH < limit) as Hcov.
  { intros i. unfold packets_for. destruct (data_div_mod (limit + PACKET_DATA_LENGTH - 1)) as [E Hm]. nia. }
  rewrite (filter_all _ (seqZ 0 k)), (filter_none _ (seqZ (0 + k) _)), app_nil_r.
  - unfold zlength. rewrite length_seqZ. lia.
  - apply Forall_forall. intros i Hi%elem_of_seqZ. rewrite <- Hcov. lia.
  - apply Forall_forall. intros i Hi%elem_of_seqZ. apply Hcov. lia.
Qed.

(** The rounding of the code. *)
Lemma grant_index_covers limit m :
  0 <= limit < 2 ^ 32 -> 0 <= numPackets m < 2 ^ 31 ->
  if limit_wraps limit then i32 (grant_index limit) <= 0
  else Z.min (numPackets m) (i32 (grant_index limit)) = covered limit m.
Proof.
  intros Hl Hn. pose proof data_length_range as HP. unfold limit_wraps, grant_index. case_bool.
  - destruct (decide (PACKET_DATA_LENGTH = 1)) as [E|E].
    + rewrite E in *. rewrite u32_small, Z.div_1_r by lia. unfold i32.
      replace (limit + 1 - 1 + 2 ^ 31) with (limit - 2 ^ 31 + 1 * 2 ^ 32) by lia. rewrite Z.mod_add, Z.mod_small by lia. lia.
    + unfold u32. replace (limit + PACKET_DATA_LENGTH - 1) with (limit + PACKET_DATA_LENGTH - 1 - 2 ^ 32 + 1 * 2 ^ 32) by lia.
      rewrite Z.mod_add, Z.mod_small, Z.div_small, i32_small by lia. lia.
  - rewrite u32_small by lia. fold (packets_for limit). rewrite covered_eq by lia. rewrite i32_small; [lia|].
    split; [apply Z.le_trans with 0; [lia|apply Z.div_pos; lia]|]. apply Z.div_lt_upper_bound; lia.
Qed.

Lemma handleGrantPacket_spec packet s :
  inv None s ->
  let header := read_header Protocol.GrantHeader packet in
  wp (handleGrantPacket packet) s (fun _ s' => inv None s' /\
    (0 <= Protocol.byteLimit header < 2 ^ 32 -> on_message (Protocol.messageId (Protocol.gh_common header))
      (grant_effect (Protocol.byteLimit header) (Protocol.gh_priority header)) s s') /\
    trace (world s') = trace (world s) ++ [EvRelease [pkt_id packet]]).
Proof.
  intros Hi header. unfold handleGrantPacket. fold header. cbv zeta. wp_step.
  eapply wp_findMessage; [done| |].
  - intros p m Hp <- Hst Hin. wp_step. eapply wp_set_timeouts; [done..|]. intros s1 Hi1 Ha1.
    wp_step. eapply wp_deref_agree; [done..|]. wp_step.
    assert (heap s1 !! p = Some m) as Hp1 by (by rewrite (inv_agree_heap _ _ _ Ha1)).
    unfold when at 1. case_bool_decide as Hprog.
    + pose proof (inv_multi _ _ _ Hi Hp Hprog) as Hmulti.
      destruct (inv_home _ _ Hi p m Hp Hst) as [_ Hinfo]; [done|].
      destruct (Hinfo Hmulti) as [I1 I2 I3 I4 I5].
      unfold info_packets. rewrite I1. wp_step. eapply wp_deref; [done|].
      assert ((if numPackets m <? i32 (grant_index (Protocol.byteLimit header)) then numPackets m
               else i32 (grant_index (Protocol.byteLimit header))) =
        Z.min (numPackets m) (i32 (grant_index (Protocol.byteLimit header)))) as ->.
      { case_bool; lia. }
      eapply wp_raise_grant; [done..|lia|]. intros s2 Hi2 Hh2 Hw2 _.
      eapply wp_release_packet; [done|]. intros s3 Hi3 Ha3. split_and!; [done| |].
      * intros Hl. eapply (on_message_one (grant_effect _ _)); [done..|].
        rewrite (inv_agree_heap _ _ _ Ha3), Hh2, (inv_agree_heap _ _ _ Ha1). f_equal.
        unfold grant_effect. rewrite bool_decide_true by done.
        assert (0 <= numPackets m <= MAX_MESSAGE_PACKETS) as Hnum.
        { destruct (inv_message _ _ Hi p m Hp) as [[[-> _ _ _] Hlen Hmax] _]. apply packets_for_bound. lia. }
        unfold MAX_MESSAGE_PACKETS in Hnum. pose proof (grant_index_covers _ m Hl ltac:(lia)) as Hg.
        destruct (limit_wraps _); cbn [negb andb]; [|by rewrite Hg].
        unfold raise_grant. replace (_ <? _) with false; [done|]. symmetry. apply Z.ltb_ge. lia.
      * by rewrite (ag_trace _ _ _ Ha3), Hw2, (ag_trace _ _ _ Ha1), app_nil_r.
    + wp_step. eapply wp_release_packet; [done|]. intros s3 Hi3 Ha3. split_and!; [done| |].
      * intros _. eapply (on_message_id (grant_effect _ _)); [done..| |].
        -- unfold grant_effect. by rewrite bool_decide_false.
        -- by rewrite (inv_agree_heap _ _ _ Ha3), (inv_agree_heap _ _ _ Ha1).
      * by rewrite (ag_trace _ _ _ Ha3), (ag_trace _ _ _ Ha1), app_nil_r.
  - intros Hno. eapply wp_release_packet; [done|]. intros s' Hi' Ha'.
    split_and!; [done| |apply Ha'].
    intros _. apply on_message_none; [|by eapply inv_agree_heap]. intros p m Hp Hst. by eapply Hno.
Qed.

Lemma wp_send_packets x m dst prio idxs s (Q : unit -> Sender -> Prop) :
  inv x s -> (forall i, i ∈ idxs -> 0 <= i < MAX_MESSAGE_PACKETS /\ is_Some (packets m !! i)) ->
  (forall s', inv x s' -> agree (omap (fun i => (fun d => EvSend dst prio (packet_bytes d))
     <$> packets m !! i) idxs) s s' -> Q tt s') ->
  wp (for_each idxs (fun i =>
        found ← lift (getPacket m i);
        match found with
        | None => fault BadPointer
        | Some data => send_data data dst prio
        end)) s Q.
Proof.
  revert s. induction idxs as [|i idxs IH]; intros s Hi Hin HQ; simpl.
  - apply wp_ret. apply HQ; [done|apply agree_refl].
  - destruct (Hin i) as [Hr [d Hd]]; [by left|]. repeat wp_step. unfold wp at 1, lift.
    rewrite getPacket_ok, Hd by done. eapply wp_send_data; [done|]. intros s1 Hi1 Ha1.
    apply IH; [done|intros; apply Hin; by right|]. intros s2 Hi2 Ha2. apply HQ; [done|].
    simpl. rewrite Hd. simpl. apply (agree_trans [_] _ _ s1); [done|exact Ha2].
Qed.

(** What a RESEND of the packets [index, resendEnd) does to its message, if
    the range is one of the message. *)
Definition resend_in_range (index resendEnd : Z) m : bool :=
  negb (numPackets m <? 2) && negb ((numPackets m <=? index) || (numPackets m <? resendEnd)).
Definition resend_effect (index resendEnd prio : Z) m : Message :=
  if resend_in_range index resendEnd m then raise_grant resendEnd prio m else m.

(** What the Sender sends in reply: nothing for a range that is not one of the
    message; BUSY if no packet of the range was sent yet; else the ones that
    were. *)
Definition resend_reply (index resendEnd maxprio : Z) (fresh : positive) m : list Event :=
  let info := queuedMessageInfo m in
  if negb (resend_in_range index resendEnd m) then []
  else if packetsSent info <=? index then
    [EvSend (ip (q_destination info)) getHighestPacketPriority
       (Protocol.encode (Protocol.BusyHeader_new (q_id info))); EvRelease [fresh]]
  else omap (fun i => (fun d => EvSend (ip (destination m)) maxprio (packet_bytes d)) <$> packets m !! i)
         (seqZ index (Z.min resendEnd (packetsSent info) - index)).

Lemma handleResendPacket_spec packet s :
  inv None s ->
  let header := read_header Protocol.ResendHeader packet in
  let msgId := Protocol.messageId (Protocol.rh_common header) in
  let index := Protocol.rh_index header in
  let resendEnd := index + Protocol.rh_num header in
  0 <= index ->
  wp (handleResendPacket packet) s (fun _ s' => inv None s' /\
    on_message msgId (resend_effect index resendEnd (Protocol.rh_priority header)) s s' /\
    (forall p m, heap s !! p = Some m -> id m = msgId -> state m <> NOT_STARTED ->
       exists fresh, trace (world s') = trace (world s) ++
         resend_reply index resendEnd (Policy.MAX_PRIORITY (policyManager s)) fresh m ++
         [EvRelease [pkt_id packet]])).
Proof.
  intros Hi header msgId index resendEnd Hidx. unfold handleResendPacket.
  fold header. cbv zeta. fold msgId index resendEnd. wp_step.
  eapply wp_findMessage; [done| |].
  2:{ intros Hno. eapply wp_release_packet; [done|]. intros s' Hi' Ha'. split_and!; [done| |].
      - apply on_message_none; [|by eapply inv_agree_heap]. intros p m Hp Hst. by eapply Hno.
      - intros p m Hp Hid Hst. exfalso. by eapply Hno. }
  intros p m Hp Hmid Hst Hin. wp_step. eapply wp_deref; [done|].
  assert (forall (P : Message -> Prop), P m -> forall q n, heap s !! q = Some n -> id n = msgId ->
    state n <> NOT_STARTED -> P n) as Huniq.
  { intros P HP q n Hq Hid Hn. assert (q = p) as -> by (eapply (inv_ids _ _ Hi); try done; congruence).
    by simplify_eq. }
  rewrite <- Hmid in *. destruct (numPackets m <? 2) eqn:Hn2.
  { eapply wp_release_packet; [done|]. intros s' Hi' Ha'. split_and!; [done| |].
    - eapply (on_message_id (resend_effect _ _ _)); [done..| |by eapply inv_agree_heap].
      unfold resend_effect, resend_in_range. by rewrite Hn2.
    - apply (Huniq (fun n => exists fresh, _)). exists 1%positive.
      unfold resend_reply, resend_in_range. rewrite Hn2. simpl. apply Ha'. }
  bool_to_prop. destruct (inv_home _ _ Hi p m Hp Hst) as [_ Hinfo]; [done|].
  destruct (Hinfo Hn2) as [I1 I2 I3 I4 I5]. wp_step.
  eapply wp_set_timeouts; [done..|]. intros s1 Hi1 Ha1.
  assert (heap s1 !! p = Some m) as Hp1 by (by rewrite (inv_agree_heap _ _ _ Ha1)).
  wp_step. unfold info_packets. rewrite I1. eapply wp_deref; [done|].
  destruct ((numPackets m <=? index) || (numPackets m <? resendEnd)) eqn:Hrange.
  { eapply wp_release_packet; [done|]. intros s' Hi' Ha'. split_and!; [done| |].
    - eapply (on_message_id (resend_effect _ _ _)); [done..| |].
      + unfold resend_effect, resend_in_range. rewrite Hrange. by rewrite andb_false_r.
      + by rewrite (inv_agree_heap _ _ _ Ha'), (inv_agree_heap _ _ _ Ha1).
    - apply (Huniq (fun n => exists fresh, _)). exists 1%positive.
      unfold resend_reply, resend_in_range. rewrite Hrange, andb_false_r. simpl.
      by rewrite (ag_trace _ _ _ Ha'), (ag_trace _ _ _ Ha1), app_nil_r. }
  assert (resend_in_range index resendEnd m = true) as Hok.
  { unfold resend_in_range. rewrite Hrange. by rewrite (proj2 (Z.ltb_ge _ _) Hn2). }
  apply orb_false_iff in Hrange as [Hr1 Hr2]. bool_to_prop.
  wp_step. eapply wp_raise_grant; [done..|]. intros s2 Hi2 Hh2 Hw2 Hp2. wp_step.
  assert (on_message (id m) (resend_effect index resendEnd (Protocol.rh_priority header)) s s2) as Hon.
  { eapply on_message_one; [done..|]. unfold resend_effect. rewrite Hok.
    by rewrite Hh2, (inv_agree_heap _ _ _ Ha1). }
  assert (forall evs s3 s4, agree evs s2 s3 -> agree [EvRelease [pkt_id packet]] s3 s4 -> inv None s4 ->
    (exists fresh, evs = resend_reply index resendEnd (Policy.MAX_PRIORITY (policyManager s)) fresh m) ->
    inv None s4 /\ on_message (id m) (resend_effect index resendEnd (Protocol.rh_priority header)) s s4 /\
    (forall q n, heap s !! q = Some n -> id n = id m -> state n <> NOT_STARTED ->
       exists fresh, trace (world s4) = trace (world s) ++
         resend_reply index resendEnd (Policy.MAX_PRIORITY (policyManager s)) fresh n ++
         [EvRelease [pkt_id packet]])) as Hend.
  { intros evs s3 s4 Ha3 Ha4 Hi4 [fresh Hevs]. split_and!; [done| |].
    - intros q. rewrite (inv_agree_heap _ _ _ Ha4), (inv_agree_heap _ _ _ Ha3). apply Hon.
    - apply (Huniq (fun n => exists fresh, _)). exists fresh. rewrite <- Hevs.
      rewrite (ag_trace _ _ _ Ha4), (ag_trace _ _ _ Ha3), Hw2, (ag_trace _ _ _ Ha1), app_nil_r.
      by rewrite app_assoc. }
  unfold resend_reply in Hend. rewrite Hok in Hend. cbv zeta in Hend.
  destruct (packetsSent (queuedMessageInfo m) <=? index) eqn:Hbusy; simpl in Hend.
  - wp_step. eapply wp_count_s; [done|]. intros s3 Hi3 Ha3.
    eapply wp_send_control_s; [done|]. intros s4 Hi4 Ha4.
    eapply wp_release_packet; [done|]. intros s5 Hi5 Ha5.
    pose proof (agree_trans [] _ _ _ _ Ha3 Ha4) as Ha34. apply (Hend _ _ _ Ha34 Ha5 Hi5). eauto.
  - unfold policy_op. repeat wp_step. set (s3 := s2 <| policyManager := _ |>).
    assert (inv None s3) as Hi3 by (apply inv_policy_set; [apply Hi2|done]).
    assert (agree [] s2 s3) as Ha3 by (by split; rewrite ?app_nil_r).
    bool_to_prop. eapply wp_send_packets; [done| |].
    + intros i Hi'%elem_of_seqZ. destruct (inv_message _ _ Hi p m Hp) as [[[S1 S2 _ _] ? ?] _].
      pose proof (packets_for_bound (messageLength m)). split; [lia|]. apply S2. lia.
    + intros s4 Hi4 Ha4. eapply wp_release_packet; [done|]. intros s5 Hi5 Ha5.
      pose proof (agree_trans [] _ _ _ _ Ha3 Ha4) as Ha34. apply (Hend _ _ _ Ha34 Ha5 Hi5).
      exists 1%positive. unfold Policy.getResendPriority. by rewrite Hp2, (ag_policy _ _ _ Ha1).
Qed.

(** ** UNKNOWN *)

Lemma wp_dequeue_in_progress p m s (Q : unit -> Sender -> Prop) :
  inv None s -> heap s !! p = Some m ->
  (forall s', inv (Some p) s' -> agree [] (s <| sendQueue ::= list_remove p |>) s' -> Q tt s') ->
  wp (dequeue_in_progress p) s Q.
Proof.
  intros Hi Hp HQ. pose proof (inv_nodup _ _ Hi) as Hnd. unfold dequeue_in_progress. wp_step.
  eapply wp_deref; [done|]. wp_step. unfold when. case_bool_decide as Hst.
  - repeat wp_step.
    { apply bool_decide_true. by eapply inv_in_queue. }
    unfold queue_remove. repeat wp_step.
    + apply bool_decide_true. by apply not_in_list_remove.
    + apply HQ; [|apply agree_refl]. by apply inv_queue_remove, inv_weaken.
  - pose proof (inv_not_queued _ _ _ Hi Hp Hst) as Hq. repeat wp_step; [by apply bool_decide_true|].
    apply HQ; [by apply inv_weaken|].
    assert (s <| sendQueue ::= list_remove p |> = s) as ->; [|apply agree_refl].
    unfold over; cbn. rewrite list_remove_not_elem by done. by destruct s.
Qed.

Definition policy_body (p : ptr) (version limit : Z) (i : Z) : M Sender unit :=
  m ← deref p;
  found ← lift (getPacket m i);
  match found with
  | None => fault AssertFailed
  | Some dataPacket =>
      limit ← Util.downCast_u16_of_int limit;
      update p (fun m => m <| packets ::= <[i := set_policy_fields version limit dataPacket]> |>)
  end.

(** The header of [d'] is that of [d] with a new version and limit. *)
Definition new_policy (version limit : Z) (d d' : Packet) : Prop :=
  let h := read_header Protocol.DataHeader d in
  read_header Protocol.DataHeader d' = Protocol.mkDataHeader (Protocol.dh_common h)
    (Protocol.totalLength h) version limit (Protocol.dh_index h).

Lemma set_policy_fields_new version limit d :
  0 <= version < 2 ^ 8 -> 0 <= limit < 2 ^ 16 -> 31 <= zlength (payload d) ->
  new_policy version limit d (set_policy_fields version limit d).
Proof.
  intros Hv Hl Hd. set (w1 := write_at 26 (Protocol.le_bytes 1 version) (payload d)).
  set (w2 := write_at 27 (Protocol.le_bytes 2 limit) w1).
  assert (zlength w1 = zlength (payload d)) as Z1 by (apply zlength_write_at; rewrite ?Protocol.zlength_le_bytes; lia).
  assert (forall off n, 0 <= off -> 0 <= n -> off + n <= 26 \/ 29 <= off ->
    Protocol.read_le off n w2 = Protocol.read_le off n (payload d)) as Hother.
  { intros. unfold w2, w1. rewrite !Protocol.read_le_write_other; rewrite ?Protocol.zlength_le_bytes; try fold w1; try lia. }
  unfold new_policy, read_header. change (payload (set_policy_fields version limit d)) with w2.
  assert (Protocol.read_le 27 2 w2 = limit) as E2 by (apply (Protocol.read_le_write_same 27 2); [lia|simpl; lia]).
  assert (Protocol.read_le 26 1 w2 = version) as E1.
  { unfold w2. rewrite Protocol.read_le_write_other by (rewrite ?Protocol.zlength_le_bytes; lia).
    apply (Protocol.read_le_write_same 26 1); [lia|simpl; lia]. }
  unfold Protocol.decode, Protocol.DataHeader_packet, Protocol.decode_DataHeader, Protocol.decode_CommonHeader.
  cbn [Protocol.dh_common Protocol.totalLength Protocol.dh_index]. by rewrite E1, E2, !Hother by lia.
Qed.

(** The loop that rewrites the policy fields of every header. *)
Lemma wp_policy_loop p version limit idxs m s (Q : unit -> Sender -> Prop) :
  inv (Some p) s -> heap s !! p = Some m -> p ∉ sendQueue s -> 0 <= version < 2 ^ 8 -> 0 <= limit < 2 ^ 16 ->
  NoDup idxs -> (forall i, i ∈ idxs -> 0 <= i < numPackets m) ->
  (forall ps, let m' := m <| packets := ps |> in inv (Some p) (put p m' s) ->
     same_bytes (packets m) ps -> (forall i, i ∉ idxs -> ps !! i = packets m !! i) ->
     (forall i, i ∈ idxs -> exists d d', packets m !! i = Some d /\ ps !! i = Some d' /\ new_policy version limit d d') ->
     Q tt (put p m' s)) ->
  wp (for_each idxs (policy_body p version limit)) s Q.
Proof.
  revert m s. induction idxs as [|i idxs IH]; intros m s Hi Hp Hq Hver Hlim Hnd Hin HQ; simpl.
  - apply wp_ret. assert (put p (m <| packets := packets m |>) s = s) as E.
    { destruct s as [? ? ? ? ? ? ? ? [] ? ?], m. unfold put, over; cbn in *. by rewrite insert_id. }
    rewrite <- E. apply HQ; [by rewrite E|done|done|by intros i ?%elem_of_nil].
  - apply NoDup_cons in Hnd as [Hni Hnd]. destruct (inv_message _ _ Hi p m Hp) as [[Hsh Hl Hmax] Hs].
    assert (0 <= i < numPackets m) as Hr by (apply Hin; by left).
    assert (0 <= packets_for (messageLength m) <= MAX_MESSAGE_PACKETS) as Hb
      by (apply packets_for_bound; lia).
    rewrite <- (shape_num _ _ _ Hsh) in Hb.
    assert (is_Some (packets m !! i)) as [d Hd] by (apply (shape_dom _ _ _ Hsh); lia).
    pose proof (shape_payload _ _ _ Hsh _ _ Hd) as Hpay.
    pose proof payload_size_range as Hsize. cbn in Hsize.
    wp_step. unfold policy_body at 1. wp_step. eapply wp_deref; [done|]. wp_step.
    unfold wp at 1, lift. rewrite getPacket_ok, Hd by lia. wp_step.
    apply Util.wp_downCast_u16_of_int; [done|]. eapply wp_update_put; [done|].
    set (d' := set_policy_fields version limit d).
    set (m1 := m <| packets ::= <[i := d']> |>).
    assert (zlength (payload d') = zlength (payload d)) as Hpd.
    { unfold d', set_policy_fields, over; cbn [payload].
      rewrite !zlength_write_at; rewrite ?zlength_write_at;
        rewrite ?Protocol.zlength_le_bytes; lia. }
    assert (same_bytes (packets m) (packets m1)) as Hsb.
    { intros k. unfold m1, over; cbn [packets].
      pose proof (same_bytes_insert (packets m) i d 26 (Protocol.le_bytes 1 version) (length d) Hd) as S1.
      set (d1 := mkPacket (pkt_id d) (write_at 26 (Protocol.le_bytes 1 version) (payload d)) (length d)) in *.
      pose proof (same_bytes_insert (<[i := d1]> (packets m)) i d1 27 (Protocol.le_bytes 2 limit) (length d)) as S2.
      rewrite insert_insert_eq in S2. change (set_policy_fields version limit d) with
        (mkPacket (pkt_id d1) (write_at 27 (Protocol.le_bytes 2 limit) (payload d1)) (length d)) in d'.
      unfold d'. rewrite S2; [apply S1; [done|..|done]|by rewrite lookup_insert_eq|done|..];
        rewrite ?Protocol.zlength_le_bytes; try done.
      unfold d1; cbn [payload]. rewrite zlength_write_at; rewrite ?Protocol.zlength_le_bytes; lia. }
    assert (inv (Some p) (put p m1 s)) as Hi1.
    { eapply inv_put_own; [done..| |done|done]. split; [split|..]; try done.
      by eapply shape_insert_same. }
    assert (new_policy version limit d d') as Hnew by (apply set_policy_fields_new; [done|done|cbn; lia]).
    eapply (IH m1); [exact Hi1|apply lookup_put|done|done|done|done| |].
    { intros j Hj. apply Hin. by right. }
    intros ps m2 Hi2 Hsb2 Hout2 Hin2. rewrite put_put in *.
    change m2 with (m <| packets := ps |>) in *. apply HQ; [done|intros k; by rewrite Hsb2| |].
    + intros j Hj. apply not_elem_of_cons in Hj as [Hji Hj]. rewrite Hout2 by done. by apply lookup_insert_ne.
    + intros j [->|Hj]%elem_of_cons.
      * exists d, d'. rewrite Hout2 by done. split_and!; [done|by apply lookup_insert_eq|done].
      * destruct (Hin2 j Hj) as (e & e' & He & ? & ?). exists e, e'. split_and!; [|done|done].
        rewrite <- He. symmetry. apply lookup_insert_ne. by intros ->.
Qed.

(** What a restart makes of the message: back at its start with [limit]
    packets granted, or sent at once if it has one packet; its bytes stay, and
    the header of every packet gets the policy of now. *)
Record restarted p (limit prio : Z) m m' : Prop := {
  rs_data : data m' = data m;
  rs_id : id m' = id m;
  rs_length : messageLength m' = messageLength m;
  rs_num : numPackets m' = numPackets m;
  rs_held : held m' = held m;
  rs_options : options m' = options m /\ destination m' = destination m;
  rs_state : state m' = if numPackets m =? 1 then SENT else IN_PROGRESS;
  rs_info : 2 <= numPackets m -> fresh_info p m limit (queuedMessageInfo m') /\
    q_priority (queuedMessageInfo m') = prio;
  rs_headers : exists version, forall i, 0 <= i < numPackets m ->
    exists d d', packets m !! i = Some d /\ packets m' !! i = Some d' /\ new_policy version limit d d'
}.

Lemma restart_message_spec p m s (Q : unit -> Sender -> Prop) :
  inv None s -> heap s !! p = Some m -> state m = IN_PROGRESS \/ state m = SENT ->
  (forall s' prio m', inv None s' -> heap s' = <[p := m']> (heap s) ->
     0 <= prio <= Policy.MAX_PRIORITY (policyManager s) ->
     restarted p (packets_for (Policy.RTT_BYTES (policyManager s))) prio m m' ->
     (2 <= numPackets m -> p ∈ sendQueue s' /\ sendReady s' = true /\ trace (world s') = trace (world s)) ->
     (numPackets m = 1 -> exists d, packets m' !! 0 = Some d /\
        trace (world s') = trace (world s) ++ [EvSend (ip (destination m)) prio (packet_bytes d)]) ->
     Q tt s') ->
  wp (restart_message (getBucket (id m)) p) s Q.
Proof.
  intros Hi Hp Hst HQ. assert (state m <> NOT_STARTED) as Hns by (destruct Hst; congruence).
  destruct (inv_home _ _ Hi p m Hp Hns) as [Hin Hinfo]; [done|].
  pose proof (inv_started _ _ _ _ Hi Hp Hns) as Hpos. unfold restart_message. wp_step.
  eapply wp_deref; [done|]. wp_step.
  assert (forall s1, inv (Some p) s1 -> agree [] (s <| sendQueue ::= list_remove p |>) s1 ->
    wp (_ ← set_state p IN_PROGRESS;
        policy ← policy_op (Policy.getUnscheduledPolicy (ip (destination m)) (u32 (messageLength m)));
        let unscheduledIndexLimit := unscheduled_limit policy in
        _ ← for_each (seqZ 0 (numPackets m))
              (policy_body p (Policy.u_version policy) unscheduledIndexLimit);
        _ ← set_timeouts (getBucket (id m)) p;
        _ ← check (0 <? numPackets m);
        if numPackets m =? 1 then send_single (getBucket (id m)) p (Policy.u_priority policy)
        else
          let info := queuedMessageInfo m in
          _ ← check (Protocol.eqMessageId (q_id info) (id m));
          _ ← check (bool_decide (q_destination info = destination m));
          _ ← check (bool_decide (q_packets info = Some p));
          _ ← update_info p (fun i =>
                i <| unsentBytes := messageLength m |>
                  <| packetsGranted := Z.min unscheduledIndexLimit (numPackets m) |>
                  <| q_priority := Policy.u_priority policy |>
                  <| packetsSent := 0 |>);
          _ ← queue_insert p;
          modify (fun s => s <| sendReady := true |>)) s1 Q) as Hmain.
  2:{ unfold when. case_bool.
      - eapply wp_dequeue_in_progress; [done..|]. apply Hmain.
      - wp_step. apply Hmain; [by apply inv_weaken|].
        assert (p ∉ sendQueue s) as Hq.
        { eapply inv_not_queued; [done..|]. intros Hip. pose proof (inv_multi _ _ _ Hi Hp Hip). lia. }
        assert (s <| sendQueue ::= list_remove p |> = s) as ->; [|apply agree_refl].
        unfold over; cbn. rewrite list_remove_not_elem by done. by destruct s. }
  intros s1 Hi1 Ha1. pose proof (inv_agree_heap _ _ _ Ha1) as Hh1.
  change (heap (s <| sendQueue ::= list_remove p |>)) with (heap s) in Hh1.
  assert (heap s1 !! p = Some m) as Hp1 by (by rewrite Hh1).
  assert (p ∉ sendQueue s1) as Hq1.
  { rewrite (ag_queue _ _ _ Ha1). apply not_in_list_remove, Hi. }
  wp_step. unfold set_state. eapply wp_update_put; [done|]. set (m1 := m <| state := IN_PROGRESS |>).
  assert (inv (Some p) (put p m1 s1)) as Hi2.
  { eapply inv_put_own; [done..| |done|done]. by eapply message_inv_same, (inv_message _ _ Hi1 p m). }
  wp_step. unfold policy_op. repeat wp_step.
  eapply Policy.getUnscheduledPolicy_wp; [apply Hi2|].
  intros pol pm' Hpm' Hmax Hv Hu Hrtt _ Hprio. set (s2 := (put p m1 s1) <| policyManager := pm' |>).
  change (policyManager (put p m1 s1)) with (policyManager s1) in *.
  assert (policyManager s1 = policyManager s) as Hpol by apply (ag_policy _ _ _ Ha1).
  destruct (unscheduled_limit_eq pol s1) as [Hlim Hlimeq]; [apply Hi1|done|].
  assert (inv (Some p) s2) as Hi3.
  { apply inv_policy_set; [|done]. destruct (inv_policy _ _ Hi1) as (? & ? & ?).
    split; [done|]. by rewrite Hrtt. }
  rewrite Hpol in *. wp_step. eapply (wp_policy_loop p _ _ _ m1 s2); [done|apply lookup_put|done|done|done|apply NoDup_seqZ| |].
  { intros i Hir%elem_of_seqZ. unfold m1, over; cbn. lia. }
  intros ps m2 Hi4 Hsb _ Hnew. set (s3 := put p m2 s2) in *. wp_step.
  assert (forall b, messages (messageBuckets s1 b) = messages (messageBuckets s b)) as Hms
    by apply (ag_messages _ _ _ Ha1).
  eapply wp_set_timeouts; [exact Hi4| |].
  { change (messageBuckets s3) with (messageBuckets s1). by rewrite Hms. }
  intros s4 Hi5 Ha5. pose proof (inv_agree_heap _ _ _ Ha5) as Hh5.
  assert (heap s4 !! p = Some m2) as Hp4 by (rewrite Hh5; apply lookup_put).
  assert (p ∉ sendQueue s4) as Hq4 by (by rewrite (ag_queue _ _ _ Ha5)).
  assert (p ∈ messages (messageBuckets s4 (getBucket (id m2)))) as Hin4.
  { rewrite (ag_messages _ _ _ Ha5). change (messageBuckets s3) with (messageBuckets s1).
    change (id m2) with (id m). by rewrite Hms. }
  assert (data m2 = data m) as Hdata by (by apply data_same_bytes).
  assert (trace (world s4) = trace (world s)) as Ht4.
  { rewrite (ag_trace _ _ _ Ha5), app_nil_r. change (world s3) with (world s1).
    by rewrite (ag_trace _ _ _ Ha1), app_nil_r. }
  assert (forall m', <[p := m']> (heap s4) = <[p := m']> (heap s)) as Hput.
  { intros m'. rewrite Hh5. change (heap s3) with (<[p := m2]> (<[p := m1]> (heap s1))).
    by rewrite !insert_insert_eq, Hh1. }
  assert (forall i, 0 <= i < numPackets m -> exists d d', packets m !! i = Some d /\ ps !! i = Some d' /\
    new_policy (Policy.u_version pol) (packets_for (Policy.RTT_BYTES (policyManager s))) d d') as Hheads.
  { intros i Hir. rewrite <- Hlimeq. apply (Hnew i), elem_of_seqZ. lia. }
  wp_step. wp_step; [apply Z.ltb_lt; lia|]. destruct (numPackets m =? 1) eqn:Hone; bool_to_prop.
  - change (id m) with (id m2). eapply (wp_send_single p m2); [done..| | |done|].
    + done.
    + destruct (held m) eqn:Hh; [by unfold m2, over; cbn|].
      pose proof (inv_held _ _ Hi p m Hp ltac:(done) Hh). lia.
    + intros d s5 Hd Hi6 Ha6. apply (HQ s5 (Policy.u_priority pol) (m2 <| state := SENT |>)); [done| |done| |lia|].
      * rewrite (inv_agree_heap _ _ _ Ha6), heap_put. apply Hput.
      * split; try done; [|lia|by eexists]. unfold over; cbn. by rewrite Hone.
      * intros _. exists d. split; [done|]. rewrite (ag_trace _ _ _ Ha6).
        by change (trace (world (put p (m2 <| state := SENT |>) s4))) with (trace (world s4)); rewrite Ht4.
  - destruct (Hinfo ltac:(lia)) as [I1 I2 I3 I4 I5].
    do 3 (wp_step; wp_step; [rewrite ?Protocol.eqMessageId_spec; by apply bool_decide_true|]).
    eapply (wp_enqueue p m2 (unscheduled_limit pol)); [done..|change (2 <= numPackets m); lia|done|lia| |].
    + by split.
    + intros s5 Hi6 Hh6 Hin6 Hr6 Hw6 _. eapply (HQ s5 (Policy.u_priority pol)); [done|by rewrite Hh6, Hput|done| | |lia].
      * split; try done.
        -- by replace (numPackets m =? 1) with false by (symmetry; by apply Z.eqb_neq).
        -- intros _. split; [|done]. rewrite <- Hlimeq. by split.
        -- by eexists.
      * intros _. by rewrite Hw6.
Qed.

(** What the Sender does for a message that starts again: the only packet goes
    out, or the message is queued. *)
Definition restart_sends p (prio : Z) m m' (evs : list Event) s' : Prop :=
  if numPackets m =? 1
  then exists d, packets m' !! 0 = Some d /\ evs = [EvSend (ip (destination m)) prio (packet_bytes d)]
  else evs = [] /\ p ∈ sendQueue s' /\ sendReady s' = true.

(** What an UNKNOWN makes of the message it names, and what it sends. *)
Definition unknown_effect p (limit max : Z) m m' (evs : list Event) s' : Prop :=
  match state m with
  | IN_PROGRESS | SENT =>
      if has_option (options m) NO_RETRY then m' = m <| state := FAILED |> /\ evs = []
      else exists prio, 0 <= prio <= max /\ restarted p limit prio m m' /\ restart_sends p prio m m' evs s'
  | _ => m' = m /\ evs = []
  end.

(** The whole effect of an UNKNOWN for [msgId]: the other messages keep their
    value, and what is sent is what the message named asks for. *)
Definition unknown_done (msgId : Protocol.MessageId) packet s s' : Prop :=
  let limit := packets_for (Policy.RTT_BYTES (policyManager s)) in
  (forall q m, heap s !! q = Some m -> (id m <> msgId \/ state m = NOT_STARTED) -> heap s' !! q = Some m) /\
  exists evs, trace (world s') = trace (world s) ++ evs ++ [EvRelease [pkt_id packet]] /\
    (forall p m, heap s !! p = Some m -> id m = msgId -> state m <> NOT_STARTED ->
       exists m', heap s' !! p = Some m' /\
         unknown_effect p limit (Policy.MAX_PRIORITY (policyManager s)) m m' evs s') /\
    ((forall p m, heap s !! p = Some m -> id m = msgId -> state m = NOT_STARTED) -> evs = []).

(** The effect of an operation that changes the message [p] and sends [evs],
    followed by the release of the packet. *)
Lemma unknown_done_put p m m' evs packet s s2 s3 :
  inv None s -> heap s !! p = Some m -> state m <> NOT_STARTED ->
  heap s2 = <[p := m']> (heap s) -> trace (world s2) = trace (world s) ++ evs ->
  agree [EvRelease [pkt_id packet]] s2 s3 ->
  unknown_effect p (packets_for (Policy.RTT_BYTES (policyManager s))) (Policy.MAX_PRIORITY (policyManager s)) m m' evs s2 ->
  unknown_done (id m) packet s s3.
Proof.
  intros Hi Hp Hst Hh2 Ht2 Ha Heff. pose proof (inv_agree_heap _ _ _ Ha) as Hh3. rewrite Hh2 in Hh3. split.
  { intros q n Hq Hor. rewrite Hh3, lookup_insert_ne; [done|]. intros <-. simplify_eq. naive_solver. }
  exists evs. rewrite (ag_trace _ _ _ Ha), Ht2, app_assoc. split_and!; [done| |].
  - intros q n Hq Hqid Hqst. assert (q = p) as -> by (by eapply (inv_ids _ _ Hi)). simplify_eq.
    exists m'. rewrite Hh3, lookup_insert_eq. split; [done|]. revert Heff. unfold unknown_effect, restart_sends.
    by rewrite (ag_queue _ _ _ Ha), (ag_ready _ _ _ Ha).
  - intros Hno. by specialize (Hno p m Hp eq_refl).
Qed.

Lemma wp_fail_message p m s (Q : unit -> Sender -> Prop) :
  inv None s -> heap s !! p = Some m -> state m <> NOT_STARTED ->
  (forall s', inv None s' -> heap s' = <[p := m <| state := FAILED |>]> (heap s) ->
     trace (world s') = trace (world s) -> Q tt s') ->
  wp (_ ← when (1 <? numPackets m) (dequeue_in_progress p);
      _ ← cancel_timeouts (getBucket (id m)) p; set_state p FAILED) s Q.
Proof.
  intros Hi Hp Hst HQ. destruct (inv_home _ _ Hi p m Hp Hst) as [Hin Hinfo]; [done|].
  assert (forall s1, inv (Some p) s1 -> agree [] (s <| sendQueue ::= list_remove p |>) s1 ->
    wp (_ ← cancel_timeouts (getBucket (id m)) p; set_state p FAILED) s1 Q) as Hmain.
  { intros s1 Hi1 Ha1. wp_step. eapply wp_cancel_timeouts; [done|]. intros s2 Hi2 Ha2 _ _ _ _.
    pose proof (agree_trans [] [] _ _ _ Ha1 Ha2) as Ha. pose proof (inv_agree_heap _ _ _ Ha) as Hh.
    change (heap (s <| sendQueue ::= list_remove p |>)) with (heap s) in Hh.
    eapply (wp_finish (Some p) p m); [done|by right|by rewrite Hh|done..| | |done|by apply (inv_held _ _ Hi p m)|].
    - rewrite (ag_queue _ _ _ Ha). apply not_in_list_remove, Hi.
    - by rewrite (ag_messages _ _ _ Ha).
    - intros s3 Hi3 Hh3 _ Hw3 _. apply HQ; [done|by rewrite Hh3, Hh|].
      by rewrite Hw3, (ag_trace _ _ _ Ha), app_nil_r. }
  wp_step. unfold when. case_bool.
  - eapply wp_dequeue_in_progress; [done..|]. apply Hmain.
  - wp_step. apply Hmain; [by apply inv_weaken|].
    assert (p ∉ sendQueue s) as Hq.
    { eapply inv_not_queued; [done..|]. intros Hip. pose proof (inv_multi _ _ _ Hi Hp Hip). lia. }
    assert (s <| sendQueue ::= list_remove p |> = s) as ->; [|apply agree_refl].
    unfold over; cbn. rewrite list_remove_not_elem by done. by destruct s.
Qed.

Lemma handleUnknownPacket_spec packet s :
  inv None s ->
  let msgId := Protocol.messageId (Protocol.unknown_common (read_header Protocol.UnknownHeader packet)) in
  wp (handleUnknownPacket packet) s (fun _ s' => inv None s' /\ unknown_done msgId packet s s').
Proof.
  intros Hi msgId. unfold handleUnknownPacket. fold msgId. cbv zeta. wp_step.
  eapply wp_findMessage; [done| |].
  2:{ intros Hno. eapply wp_release_packet; [done|]. intros s' Hi' Ha'. split; [done|]. split.
      - intros q m Hq _. by rewrite (inv_agree_heap _ _ _ Ha').
      - exists []. split_and!; [by rewrite (ag_trace _ _ _ Ha')| |done].
        intros p m Hp Hid Hst. exfalso. by eapply Hno. }
  intros p m Hp Hid Hst Hin. wp_step. eapply wp_deref; [done|]. repeat wp_step.
  { rewrite bool_decide_false by done. done. }
  rewrite <- Hid in *. clear msgId Hid.
  assert (forall s2 m' evs, inv None s2 -> heap s2 = <[p := m']> (heap s) -> trace (world s2) = trace (world s) ++ evs ->
    unknown_effect p (packets_for (Policy.RTT_BYTES (policyManager s))) (Policy.MAX_PRIORITY (policyManager s)) m m' evs s2 ->
    wp (release_packet packet) s2 (fun _ s' => inv None s' /\ unknown_done (id m) packet s s')) as Hend.
  { intros s2 m' evs Hi2 Hh2 Ht2 Heff. eapply wp_release_packet; [done|]. intros s3 Hi3 Ha3.
    split; [done|]. by eapply unknown_done_put. }
  destruct (decide (state m = IN_PROGRESS \/ state m = SENT)) as [Hact|Hact].
  - replace (negb (bool_decide (state m = IN_PROGRESS)) && negb (bool_decide (state m = SENT)))
      with false by (by destruct Hact as [-> | ->]).
    destruct (has_option (options m) NO_RETRY) eqn:Hopt.
    + eapply wp_fail_message; [done..|]. intros s2 Hi2 Hh2 Ht2. eapply (Hend _ _ []); [done..|by rewrite app_nil_r|].
      unfold unknown_effect. rewrite Hopt. by destruct Hact as [-> | ->].
    + eapply restart_message_spec; [done..|]. intros s2 prio m' Hi2 Hh2 Hprio Hres Hmany Hone.
      assert (exists evs, trace (world s2) = trace (world s) ++ evs /\ restart_sends p prio m m' evs s2) as (evs & Ht2 & Hs).
      { pose proof (inv_started _ _ _ _ Hi Hp Hst) as Hpos. unfold restart_sends. case_bool.
        - destruct Hone as (d & Hd & Ht); [done|]. eauto.
        - destruct Hmany as (? & ? & Ht); [lia|]. exists []. by rewrite app_nil_r. }
      eapply (Hend _ _ evs); [done..|]. unfold unknown_effect. rewrite Hopt. destruct Hact as [-> | ->]; eauto.
  - rewrite !bool_decide_false by tauto. cbn [negb andb]. wp_step.
    eapply (Hend s m []); [done|by rewrite insert_id|by rewrite app_nil_r|].
    unfold unknown_effect. destruct (state m); tauto.
Qed.

(** ** Calls of the application *)

Definition cancel_effect m : Message :=
  if bool_decide (state m = NOT_STARTED) then m else m <| state := CANCELED |>.

Lemma cancelMessage_spec p m s :
  inv None s -> heap s !! p = Some m ->
  wp (cancelMessage p) s (fun _ s' => inv None s' /\
    heap s' = <[p := cancel_effect m]> (heap s) /\       (p ∉ sendQueue s') /\ trace (world s') = trace (world s)).
Proof.
  intros Hi Hp. unfold cancelMessage. wp_step. eapply wp_deref; [done|]. repeat wp_step.
  unfold cancel_effect. case_bool_decide as Hin.
  - destruct (inv_in _ _ Hi _ _ Hin) as (n & Hn & _ & Hst). simplify_eq.
    rewrite (bool_decide_false (state m = NOT_STARTED)) by done. destruct (inv_home _ _ Hi p m Hp Hst) as [_ Hinfo]; [done|].
    wp_step. eapply wp_cancel_timeouts; [by apply (inv_weaken (Some p))|].
    intros s1 Hi1 Ha1 _ _ _ _. pose proof (inv_agree_heap _ _ _ Ha1) as Hh1. wp_step.
    assert (forall s2, inv (Some p) s2 -> agree [] s s1 -> heap s2 = heap s1 ->
      messageBuckets s2 = messageBuckets s1 -> world s2 = world s1 -> p ∉ sendQueue s2 ->
      wp (set_state p CANCELED) s2 (fun _ s' => inv None s' /\
        heap s' = <[p := m <| state := CANCELED |>]> (heap s) /\ (p ∉ sendQueue s') /\
        trace (world s') = trace (world s))) as Hmain.
    { intros s2 Hi2 _ Hh2 Hb2 Hw2 Hq2.
      eapply (wp_finish (Some p) p m); [done|by right|by rewrite Hh2, Hh1|done..| |done|by apply (inv_held _ _ Hi p m)|].
      - by rewrite Hb2, (ag_messages _ _ _ Ha1).
      - intros s3 Hi3 Hh3 Hq3 Hw3 _. split_and!; [done|by rewrite Hh3, Hh2, Hh1|by rewrite Hq3|].
        by rewrite Hw3, Hw2, (ag_trace _ _ _ Ha1), app_nil_r. }
    unfold when. destruct ((1 <? numPackets m) && bool_decide (state m = IN_PROGRESS)) eqn:Hq.
    + apply andb_true_iff in Hq as [_ Hprog%bool_decide_eq_true]. repeat wp_step.
      { apply bool_decide_true. by eapply inv_in_queue. }
      unfold queue_remove. wp_step. apply Hmain; try done; [by apply inv_queue_remove|].
      unfold over; cbn [sendQueue]. apply not_in_list_remove, Hi1.
    + wp_step. apply Hmain; try done. rewrite (ag_queue _ _ _ Ha1).
      eapply inv_not_queued; [done..|]. intros Hprog. rewrite Hprog, bool_decide_true in Hq by done.
      pose proof (inv_multi _ _ _ Hi Hp Hprog). bool_to_prop. lia.
  - assert (state m = NOT_STARTED) as Hst.
    { destruct (decide (state m = NOT_STARTED)) as [|Hns]; [done|]. exfalso. apply Hin.
      by apply (inv_home _ _ Hi p m). }
    rewrite (bool_decide_true (state m = NOT_STARTED)) by done. wp_step.
    split_and!; [done|by rewrite insert_id| |done].
    eapply inv_not_queued; [done..|congruence].
Qed.

(** Releasing a message destroys it, unless packets remain to be sent. *)
Lemma dropMessage_spec p m s :
  inv None s -> heap s !! p = Some m ->
  wp (dropMessage p) s (fun _ s' => inv None s' /\
    if bool_decide (state m = IN_PROGRESS)
    then heap s' = <[p := m <| held := false |>]> (heap s) /\ trace (world s') = trace (world s)
    else heap s' = delete p (heap s) /\
      trace (world s') = trace (world s) ++ [EvRelease (packet_ids m)]).
Proof.
  intros Hi Hp. unfold dropMessage. wp_step. eapply wp_deref; [done|]. wp_step.
  eapply wp_update_put; [done|]. set (m' := m <| held := false |>). wp_step.
  case_bool_decide as Hst; cbn [negb].
  - assert (inv None (put p m' s)) as Hi1.
    { pose proof (inv_multi _ _ _ Hi Hp Hst) as Hmulti. rewrite <- (update_put p (fun _ => m') m s Hp).
      destruct (inv_home _ _ Hi p m Hp) as [_ Hinfo]; [congruence|done|].
      eapply inv_update; [done..| |done|done| |done|done|].
      - by eapply message_inv_same, (inv_message _ _ Hi p m).
      - intros _ _ _. destruct (Hinfo Hmulti). by split.
      - intros Hq. destruct (inv_queue _ _ Hi p Hq) as (n & Hn & [] & _). simplify_eq. by split. }
    eapply wp_count_s; [done|]. intros s1 Hi2 Ha2. wp_step. split; [done|].
    rewrite (inv_agree_heap _ _ _ Ha2), (ag_trace _ _ _ Ha2), app_nil_r. done.
  - assert (inv (Some p) (put p m' s)) as Hi1.
    { eapply inv_put_own; [by apply inv_weaken|done|by eapply inv_not_queued| |done|done].
      by eapply message_inv_same, (inv_message _ _ Hi p m). }
    eapply wp_count_s; [exact Hi1|]. intros s1 Hi2 Ha2.
    pose proof (inv_agree_heap _ _ _ Ha2) as Hh2. eapply (wp_remove_message (Some p) _ p m');
      [done|by right|rewrite Hh2; apply lookup_put| | |].
    + rewrite (ag_queue _ _ _ Ha2). by apply (inv_not_queued s p m).
    + intros c. rewrite (ag_messages _ _ _ Ha2). intros Hc.
      destruct (inv_in _ _ Hi c p Hc) as (n & Hn & Hcn & _). by simplify_eq.
    + intros s3 Hi3 Hh3 _ Ht3 _. split_and!; [done| |].
      * by rewrite Hh3, Hh2, heap_put, delete_insert_eq.
      * by rewrite Ht3, (ag_trace _ _ _ Ha2), app_nil_r.
Qed.
End handlers.

End SenderHandlers.
