(* ===== verification/SenderSend.v ===== *)
(** * SenderSend: allocating, building and sending a message

    The calls of the application that create a message, fill it and send it,
    proved to keep the invariant of SenderInv.v; [sendMessage] is shown to write
    into every packet the DATA header that describes it. *)

From S2P Require Import Prelude Intrusive Util Timeout ObjectPool Perf Protocol Policy Driver SenderMessage Sender SenderInv SenderHandlers.
Import Driver SenderMessage Sender SenderInv SenderHandlers.

Module SenderSend.

Section send.
Context `{DriverLaws}.
Implicit Types (s : Sender) (p q : ptr) (m : Message) (x : option ptr) (b : Z).

(** ** Creation *)

Lemma message_ok_new port : message_ok (Message_new port).
Proof.
  pose proof data_length_range. pose proof maxMessageLength_eq. split; cbn [packets numPackets messageLength start Message_new].
  - assert (packets_for 0 = 0) as Hz by (apply Z.div_small; lia). split.
    + done.
    + intros i. rewrite lookup_empty. split; [by intros []|lia].
    + intros i d. by rewrite lookup_empty.
    + intros i d. by rewrite lookup_empty.
  - lia.
  - unfold MAX_MESSAGE_PACKETS in *. lia.
Qed.

Lemma inv_new tid mt pt pol w :
  policy_ok pol -> 0 < mt -> 0 < pt ->
  (forall n, rdtsc_nth n + mt < 2 ^ 64) -> (forall n, rdtsc_nth n + pt < 2 ^ 64) ->
  inv None (Sender_new tid mt pt pol w).
Proof.
  intros Hpol Hmt Hpt Hcm Hcp. pose proof rdtsc_nonneg.
  split; cbn [Sender_new messageAllocator policyManager messageBuckets sendQueue world].
  - apply pool_ok_new.
  - done.
  - intros p m. cbn. by rewrite lookup_empty.
  - intros b. split; cbn [MessageBucket_new messages messageTimeouts pingTimeouts];
      auto with homa; try (intros p Hp; by apply elem_of_nil in Hp); [constructor|..];
      intros n; cbn; specialize (Hcm n); specialize (Hcp n); specialize (H1 n); lia.
  - intros b p Hp. by apply elem_of_nil in Hp.
  - intros p m. cbn. by rewrite lookup_empty.
  - intros p q m n. cbn. by rewrite lookup_empty.
  - constructor.
  - constructor.
  - intros p Hp. by apply elem_of_nil in Hp.
  - intros p m. cbn. by rewrite lookup_empty.
  - intros p m. cbn. by rewrite lookup_empty.
Qed.

(** A new message at an address that was free. *)
Lemma inv_alloc p m o s :
  inv None s -> heap s !! p = None -> objects o = <[p := m]> (heap s) -> pool_ok o ->
  message_ok m -> state m = NOT_STARTED -> held m = true ->
  inv None (s <| messageAllocator := o |>).
Proof.
  intros [Hpool Hpol Hmsg Hbk Hin Hhome Hids Hnd Hs Hq Hqd Hhd] Hp Ho Hpo Hm Hst Hh.
  split; unfold over; cbn [messageAllocator policyManager transportId nextMessageSequenceNumber
    messageBuckets world sendQueue]; rewrite ?Ho; try done.
  - intros q n [[<- <-]|[_ Hqn]]%lookup_insert_Some; [split; [done|by intros]|by eapply Hmsg].
  - intros b q Hqin. destruct (Hin b q Hqin) as (n & Hn & ?). exists n.
    rewrite lookup_insert_ne by congruence. done.
  - intros q n [[<- <-]|[_ Hqn]]%lookup_insert_Some Hsn _; [done|by apply Hhome].
  - intros q r n n' Hqn Hrn. apply lookup_insert_Some in Hqn as [[<- <-]|[? Hqn]];
      apply lookup_insert_Some in Hrn as [[<- <-]|[? Hrn]]; try done. by eapply Hids.
  - eapply sorted_by_ext; [|done]. intros q Hqin. destruct (Hq q Hqin) as (n & Hn & _).
    rewrite unsent_insert_ne; [done|congruence].
  - intros q Hqin. destruct (Hq q Hqin) as (n & Hn & ?). exists n.
    rewrite lookup_insert_ne by congruence. done.
  - intros q n [[<- <-]|[_ Hqn]]%lookup_insert_Some Hsn Hx; [congruence|by eapply Hqd].
  - intros q n [[<- <-]|[_ Hqn]]%lookup_insert_Some Hx Hf; [congruence|by eapply Hhd].
Qed.

Lemma allocMessage_spec port s :
  inv None s ->
  wp (allocMessage port) s (fun p s' => inv None s' /\ heap s !! p = None /\
    heap s' = <[p := Message_new port]> (heap s) /\ trace (world s') = trace (world s)).
Proof.
  intros Hi. unfold allocMessage. wp_step. eapply wp_count_s; [exact Hi|]. intros s1 Hi1 Ha1.
  unfold allocator_op. repeat wp_step. eapply construct_wp; [apply Hi1|].
  intros p o Hp Ho Hpo. wp_step. rewrite (inv_agree_heap _ _ _ Ha1) in *. split_and!.
  - eapply inv_alloc; [exact Hi1|by rewrite (inv_agree_heap _ _ _ Ha1)| |done|apply message_ok_new|done|done].
    by rewrite (inv_agree_heap _ _ _ Ha1).
  - done.
  - done.
  - change (trace (world s1) = trace (world s)). by rewrite (ag_trace _ _ _ Ha1), app_nil_r.
Qed.

(** ** Filling *)

Lemma inv_put_unstarted p m m' s :
  inv None s -> heap s !! p = Some m -> state m = NOT_STARTED -> state m' = NOT_STARTED ->
  message_ok m' -> id m' = id m -> held m' = held m -> numPackets m <= numPackets m' ->
  inv None (put p m' s).
Proof.
  intros Hi Hp Hst Hst' Hok Hid Hh Hn.
  assert (p ∉ sendQueue s) as Hq by (eapply inv_not_queued; [done..|congruence]).
  eapply (inv_done p _ m').
  - eapply inv_put_own; [by apply inv_weaken|done..| |done|]; [|by split].
    split; [done|]. by rewrite Hst'.
  - apply lookup_put.
  - by rewrite Hst'.
  - rewrite Hst'. split; [|done]. intros Hc. by destruct Hq.
  - rewrite Hh. intros Hf. pose proof (inv_held _ _ Hi p m Hp ltac:(done) Hf). lia.
Qed.

(** What a call of the application that fills a message keeps. *)
Record filled m m' : Prop := {
  fl_state : state m' = state m;
  fl_id : id m' = id m;
  fl_held : held m' = held m;
  fl_num : numPackets m <= numPackets m';
  fl_ok : message_ok m'
}.

Lemma packets_for_mono a c : a <= c -> packets_for a <= packets_for c.
Proof. intros. unfold packets_for. apply Z.div_le_mono; [apply data_length_range|lia]. Qed.

Lemma wp_message_op p m op s (Q : unit -> Sender -> Prop) (R : Message -> Prop) :
  inv None s -> heap s !! p = Some m -> state m = NOT_STARTED ->
  wp op (mkMessageState m (world s)) (fun _ t => filled m (message t) /\ R (message t) /\
    exists a, mworld t = (world s) <| allocated := a |>) ->
  (forall m' s', inv None s' -> filled m m' -> R m' -> heap s' = <[p := m']> (heap s) ->
     trace (world s') = trace (world s) -> Q tt s') ->
  wp (message_op p op) s Q.
Proof.
  intros Hi Hp Hst Hop HQ. unfold message_op. wp_step. eapply wp_deref; [done|]. repeat wp_step.
  apply wp_ok in Hop as ([] & t & Heq & Hf & HR & a & Hw).
  unfold wp at 1, lift. rewrite Heq. unfold world_op. repeat wp_step.
  eapply wp_update_put; [done|]. set (s1 := s <| world := mworld t |>).
  assert (inv None s1) as Hi1 by (apply inv_world; [by rewrite Hw|done]).
  destruct Hf as [F1 F2 F3 F4 F5]. apply (HQ (message t)); try done.
  - eapply inv_put_unstarted; [done..|congruence|done|done|done|done].
  - change (trace (mworld t) = trace (world s)). by rewrite Hw.
Qed.

Lemma append_spec p m bytes s :
  inv None s -> heap s !! p = Some m -> state m = NOT_STARTED ->
  messageLength m + zlength bytes < 2 ^ 31 ->
  wp (append p bytes) s (fun _ s' => inv None s' /\ exists m', heap s' = <[p := m']> (heap s) /\
    data m' = data m ++ take (Z.to_nat (fitting m (zlength bytes))) bytes /\
    trace (world s') = trace (world s)).
Proof.
  intros Hi Hp Hst Hlen. destruct (inv_message _ _ Hi p m Hp) as [Hok _].
  eapply (wp_message_op p m _ s _ (fun m' =>
    data m' = data m ++ take (Z.to_nat (fitting m (zlength bytes))) bytes)); [done..| |].
  - apply append_wp; [done..|]. intros ps num a m0 n m' Hok' Hd. split_and!; [|done|eauto].
    split; try done. destruct Hok as [[Hn _ _ _] ? ?], Hok' as [[Hn' _ _ _] ? ?].
    change (numPackets m <= numPackets m'). rewrite Hn, Hn'. apply packets_for_mono.
    unfold m', n, fitting, over; cbn [messageLength]. pose proof (zlength_nonneg bytes).
    change m0 with m. lia.
  - intros m' s' Hi' Hf Hd Hh Ht. eauto.
Qed.

Lemma reserve_spec p m count s :
  inv None s -> heap s !! p = Some m -> state m = NOT_STARTED -> start m = messageLength m ->
  0 <= count -> messageLength m + count < 2 ^ 31 ->
  wp (reserve p count) s (fun _ s' => inv None s' /\ exists m', heap s' = <[p := m']> (heap s) /\
    start m' = start m + fitting m count /\ messageLength m' = messageLength m + fitting m count /\
    trace (world s') = trace (world s)).
Proof.
  intros Hi Hp Hst Hs Hc Hlen. destruct (inv_message _ _ Hi p m Hp) as [Hok _].
  eapply (wp_message_op p m _ s _ (fun m' =>
    start m' = start m + fitting m count /\ messageLength m' = messageLength m + fitting m count)); [done..| |].
  - apply reserve_wp; [done..|]. intros ps num a m0 n m' Hok'. split_and!; [|done|done|eauto].
    split; try done. destruct Hok as [[Hn _ _ _] ? ?], Hok' as [[Hn' _ _ _] ? ?].
    change (numPackets m <= numPackets m'). rewrite Hn, Hn'. apply packets_for_mono.
    unfold m', n, fitting, over; cbn [messageLength]. change m0 with m. lia.
  - intros m' s' Hi' Hf [? ?] Hh Ht. eauto 10.
Qed.

Lemma prepend_spec p m bytes s :
  inv None s -> heap s !! p = Some m -> state m = NOT_STARTED -> zlength bytes <= start m ->
  wp (prepend p bytes) s (fun _ s' => inv None s' /\ exists m', heap s' = <[p := m']> (heap s) /\
    data m' = bytes ++ data m /\ trace (world s') = trace (world s)).
Proof.
  intros Hi Hp Hst Hlen. destruct (inv_message _ _ Hi p m Hp) as [Hok _].
  eapply (wp_message_op p m _ s _ (fun m' => data m' = bytes ++ data m)); [done..| |].
  - apply prepend_wp; [done..|]. intros ps m0 m' Hok' Hd. split_and!; [|done|].
    + split; try done.
    + exists (allocated (world s)). by destruct (world s).
  - intros m' s' Hi' Hf Hd Hh Ht. eauto.
Qed.

(** ** Sending *)

(** The DATA header of packet [i] of the message. *)
Definition header_of (dst : SocketAddress) (version limit : Z) m (i : Z) : Protocol.DataHeader :=
  Protocol.DataHeader_new (port (source m)) (port dst) (id m) (messageLength m) version limit i.
Definition has_header (h : Protocol.DataHeader) (d : Packet) : Prop :=
  exists body, payload d = Protocol.encode h ++ body.

Lemma zlength_header (h : Protocol.DataHeader) : zlength (Protocol.encode h) = TRANSPORT_HEADER_LENGTH.
Proof. apply Protocol.zlength_encode. Qed.

Lemma write_header_facts (h : Protocol.DataHeader) d :
  zlength (payload d) = getMaxPayloadSize ->
  length (write_header h d) = length d /\
  zlength (payload (write_header h d)) = zlength (payload d) /\ has_header h (write_header h d).
Proof.
  intros Hp. pose proof payload_size_range as Hs. pose proof (zlength_header h) as Hz.
  change (Protocol.header_size Protocol.DataHeader) with TRANSPORT_HEADER_LENGTH in Hs.
  split_and!; [done| |].
  - unfold write_header, over; cbn [payload]. rewrite zlength_write_at; lia.
  - unfold has_header, write_header, over; cbn [payload]. unfold write_at. simpl. eauto.
Qed.

Lemma wp_fill_headers p dst version limit n k m s acc (Q : Z -> Sender -> Prop) :
  Z.of_nat n = numPackets m - k -> 0 <= k -> 0 <= limit < 2 ^ 16 ->
  inv (Some p) s -> heap s !! p = Some m -> p ∉ sendQueue s ->
  acc = Z.min (messageLength m) (k * PACKET_DATA_LENGTH) ->
  (forall i d, packets m !! i = Some d -> i < k -> has_header (header_of dst version limit m i) d) ->
  (forall ps, let m' := m <| packets := ps |> in inv (Some p) (put p m' s) ->
     same_bytes (packets m) ps ->
     (forall i d, ps !! i = Some d -> has_header (header_of dst version limit m i) d) ->
     Q (messageLength m) (put p m' s)) ->
  wp (fill_headers p dst version limit (seqZ k (numPackets m - k)) acc) s Q.
Proof.
  revert k m s acc. induction n as [|n IH]; intros k m s acc Hn Hk Hlim Hi Hp Hq -> Hdone HQ;
    destruct (inv_message _ _ Hi p m Hp) as [[Hsh Hl Hmax] Hs];
    pose proof data_length_range as HP; destruct Hsh as [S1 S2 S3 S4].
  - replace (numPackets m - k) with 0 by lia. cbn [seqZ fmap list_fmap fill_headers]. apply wp_ret.
    assert (put p (m <| packets := packets m |>) s = s) as E.
    { destruct s as [? ? ? ? ? ? ? ? [] ? ?], m. unfold put, over; cbn in *. by rewrite insert_id. }
    rewrite Z.min_l.
    + rewrite <- E. apply HQ; [by rewrite E|done|]. intros i d Hd. apply Hdone; [done|].
      assert (0 <= i < numPackets m) by (apply S2; eauto). lia.
    + assert (numPackets m = k) as <- by lia. rewrite S1.
      destruct (data_div_mod (messageLength m + PACKET_DATA_LENGTH - 1)). unfold packets_for. lia.
  - assert (0 <= k < numPackets m) as Hr by lia.
    assert (is_Some (packets m !! k)) as [d Hd] by (by apply S2).
    assert (0 <= packets_for (messageLength m) <= MAX_MESSAGE_PACKETS) as Hb
      by (apply packets_for_bound; lia).
    unfold MAX_MESSAGE_PACKETS in Hb. pose proof maxMessageLength_eq as Hmm.
    unfold MAX_MESSAGE_PACKETS in Hmm.
    rewrite seqZ_cons by lia. cbn [fill_headers]. wp_step. eapply wp_deref; [done|]. wp_step.
    unfold wp at 1, lift. rewrite getPacket_ok, Hd by (unfold MAX_MESSAGE_PACKETS; lia).
    wp_step. apply Util.wp_downCast_u32_of_int; [lia|]. wp_step.
    apply Util.wp_downCast_u16_of_int; [done|]. wp_step.
    apply Util.wp_downCast_u16_of_int; [lia|]. wp_step. eapply wp_update_put; [done|].
    fold (header_of dst version limit m k). set (h := header_of dst version limit m k).
    destruct (write_header_facts h d) as (W1 & W2 & W3); [eauto|].
    set (m1 := m <| packets ::= <[k := write_header h d]> |>).
    assert (inv (Some p) (put p m1 s)) as Hi1.
    { eapply inv_put_own; [done..| |done|done]. split; [split|..]; try done.
      eapply shape_insert_same; [by split|done..]. }
    replace (Z.pred (numPackets m - k)) with (numPackets m1 - Z.succ k)
      by (change (numPackets m1) with (numPackets m); lia).
    eapply (IH (Z.succ k) m1); [change (numPackets m1) with (numPackets m); lia|lia|done|exact Hi1|apply lookup_put|done| | |].
    + change (messageLength m1) with (messageLength m).
      rewrite (S3 _ _ Hd). assert (k * PACKET_DATA_LENGTH < messageLength m); [|lia].
      rewrite S1 in Hr. unfold packets_for in Hr.
      destruct (data_div_mod (messageLength m + PACKET_DATA_LENGTH - 1)). nia.
    + intros i d'. unfold m1, over; cbn [packets].
      intros [[<- <-]|[Hik Hd']]%lookup_insert_Some Hlt; [exact W3|]. apply Hdone; [done|lia].
    + intros ps m2 Hi2 Hsb Hhd. rewrite put_put in *.
      change m2 with (m <| packets := ps |>) in *. apply HQ; [done| |done].
      intros j. rewrite Hsb. unfold m1, over; cbn [packets].
      pose proof (same_bytes_insert (packets m) k d 0 (Protocol.encode h) (length d) Hd) as Hsm.
      apply Hsm; [done|by rewrite zlength_header|by eapply S4].
Qed.

(** Giving an unsent message its identity. *)
Lemma inv_put_start p m m1 s :
  inv None s -> heap s !! p = Some m -> state m = NOT_STARTED ->
  message_inv (transportId s) (nextMessageSequenceNumber s) m1 -> state m1 <> NOT_STARTED ->
  (forall q n, heap s !! q = Some n -> state n <> NOT_STARTED -> id n <> id m1) ->
  inv (Some p) (put p m1 s).
Proof.
  intros Hi Hp Hst Hm1 Hst1 Hfresh.
  assert (p ∉ sendQueue s) as Hnq by (eapply inv_not_queued; [done..|congruence]).
  assert (pool_ok (messageAllocator (put p m1 s))) as Hpok.
  { rewrite <- (update_put p (fun _ => m1) m s Hp).
    apply (pool_ok_alter (messageAllocator s) (alter (fun _ => m1) p)); [apply Hi|].
    intros h. apply dom_alter_L. }
  destruct Hi as [Hpool Hpol Hmsg Hbk Hin Hhome Hids Hnd Hs Hq Hqd Hhd].
  split; rewrite ?heap_put; try done.
  - intros q n [[<- <-]|[_ Hqn]]%lookup_insert_Some; [done|by eapply Hmsg].
  - intros b q Hqin. destruct (Hin b q Hqin) as (n & Hn & ?). exists n.
    rewrite lookup_insert_ne; [done|]. intros <-. naive_solver congruence.
  - intros q n [[<- <-]|[_ Hqn]]%lookup_insert_Some Hsn Hx; [done|by apply Hhome].
  - intros q r n n' Hqn Hrn. apply lookup_insert_Some in Hqn as [[<- <-]|[? Hqn]];
      apply lookup_insert_Some in Hrn as [[<- <-]|[? Hrn]]; intros Hsn Hsn' Hid; try done.
    + exfalso. by eapply (Hfresh r n').
    + exfalso. by eapply (Hfresh q n).
    + by eapply Hids.
  - eapply sorted_by_ext; [|done]. intros q Hqin. rewrite unsent_insert_ne; [done|].
    by intros ->.
  - intros q Hqin. destruct (Hq q Hqin) as (n & Hn & Hqo & Hor). exists n.
    change (p ∉ sendQueue s) in Hnq. rewrite lookup_insert_ne by (by intros ->).
    split_and!; [done|done|]. destruct Hor; [by left|done].
  - intros q n [[<- <-]|[_ Hqn]]%lookup_insert_Some Hsn Hx; [done|by eapply Hqd].
  - intros q n [[<- <-]|[_ Hqn]]%lookup_insert_Some Hx Hf; [done|by eapply Hhd].
Qed.

(** Entering the bucket of its id. *)
Lemma inv_push_bucket p m s :
  inv (Some p) s -> heap s !! p = Some m -> state m <> NOT_STARTED ->
  (forall c, p ∉ messages (messageBuckets s c)) ->
  inv (Some p) (s <| messageBuckets ::= fun bs =>
    <[getBucket (id m) := (bs (getBucket (id m))) <| messages ::= fun l => l ++ [p] |>]> bs |>).
Proof.
  intros [Hpool Hpol Hmsg Hbk Hin Hhome Hids Hnd Hs Hq Hqd Hhd] Hp Hst Hnot. set (b := getBucket (id m)).
  set (k := (messageBuckets s b) <| messages ::= fun l => l ++ [p] |>).
  assert (forall c, messages (<[b := k]> (messageBuckets s) c) =
    if decide (c = b) then messages (messageBuckets s b) ++ [p] else messages (messageBuckets s c)) as Hc.
  { intros c. case_decide as Hcb; [subst; by rewrite fn_lookup_insert|by rewrite fn_lookup_insert_ne]. }
  set (s' := s <| messageBuckets ::= _ |>).
  assert (messageBuckets s' = <[b := k]> (messageBuckets s)) as E by done.
  split; try done.
  - intros c. rewrite E. destruct (decide (c = b)) as [->|];
      [rewrite fn_lookup_insert|by rewrite fn_lookup_insert_ne].
    destruct (Hbk b) as [B1 B2 B3 B4 B5 B6 B7]. unfold k, over.
    split; cbn [messages messageTimeouts pingTimeouts]; try done.
    + apply NoDup_app. split_and!; [done| |apply NoDup_singleton].
      intros q Hqin ->%list_elem_of_singleton. by eapply Hnot.
    + intros q Hqin. apply elem_of_app. left. auto.
    + intros q Hqin. apply elem_of_app. left. auto.
  - intros c q. rewrite E, Hc. case_decide as Hcb; [subst c|apply Hin].
    intros [Hqin|Hqin%list_elem_of_singleton]%elem_of_app; [by apply Hin|subst; eauto].
  - intros q n Hqn Hsn Hx. destruct (Hhome q n Hqn Hsn Hx) as [Hqin ?]. split; [|done].
    rewrite E, Hc. case_decide as Hcb; [|done]. rewrite <- Hcb. apply elem_of_app. by left.
Qed.

Lemma not_in_some_bucket s p :
  (forall c, p ∉ messages (messageBuckets s c)) -> in_some_bucket s p = false.
Proof.
  intros Hnot. unfold in_some_bucket. apply not_true_is_false. intros (c & _ & Hc)%existsb_exists.
  apply bool_decide_eq_true in Hc. by eapply Hnot.
Qed.

(** What sendMessage makes of the message: an id of its own, a header that
    describes it in every packet, its bytes as they were; sent if it has one
    packet, else queued with [limit] packets granted. *)
Record sent_as p (newId : Protocol.MessageId) (dst : SocketAddress) (opts limit : Z)
    (policy : Policy.Unscheduled) m m' : Prop := {
  se_id : id m' = newId;
  se_destination : destination m' = dst;
  se_options : options m' = opts;
  se_source : source m' = source m;
  se_start : start m' = start m;
  se_data : data m' = data m;
  se_bytes : same_bytes (packets m) (packets m');
  se_length : messageLength m' = messageLength m;
  se_header : forall i d, packets m' !! i = Some d ->
    has_header (header_of dst (Policy.u_version policy) limit m' i) d;
  se_state : state m' = if numPackets m =? 1 then SENT else IN_PROGRESS;
  se_info : 2 <= numPackets m ->
    fresh_info p m' limit (queuedMessageInfo m') /\
    q_priority (queuedMessageInfo m') = Policy.u_priority policy;
  se_single : numPackets m = 1 -> queuedMessageInfo m' = queuedMessageInfo m
}.

Lemma sendMessage_spec p m dst opts s (Q : unit -> Sender -> Prop) :
  inv None s -> heap s !! p = Some m -> state m = NOT_STARTED -> held m = true ->
  0 < numPackets m -> 0 <= nextMessageSequenceNumber s < 2 ^ 64 - 1 ->
  let newId := Protocol.mkMessageId (transportId s) (nextMessageSequenceNumber s) in
  let limit := packets_for (Policy.RTT_BYTES (policyManager s)) in
  (forall s' policy m', inv None s' -> heap s' = <[p := m']> (heap s) ->
     0 <= Policy.u_version policy < 2 ^ 8 -> 0 <= limit < 2 ^ 16 ->
     0 <= Policy.u_priority policy <= Policy.MAX_PRIORITY (policyManager s) ->
     sent_as p newId dst opts limit policy m m' ->
     (2 <= numPackets m -> p ∈ sendQueue s' /\ sendReady s' = true /\
        trace (world s') = trace (world s)) ->
     (numPackets m = 1 -> exists d, packets m' !! 0 = Some d /\
        trace (world s') = trace (world s) ++
          [EvSend (ip dst) (Policy.u_priority policy) (packet_bytes d)]) ->
     transportId s' = transportId s /\
     nextMessageSequenceNumber s' = nextMessageSequenceNumber s + 1 /\
     Policy.RTT_BYTES (policyManager s') = Policy.RTT_BYTES (policyManager s) ->
     Q tt s') ->
  wp (sendMessage p dst opts) s Q.
Proof.
  intros Hi Hp Hst Hheld Hnum Hseq newId limit HQ. unfold sendMessage. repeat wp_step.
  set (s1 := s <| nextMessageSequenceNumber ::= _ |>).
  assert (u64 (nextMessageSequenceNumber s + 1) = nextMessageSequenceNumber s + 1) as Hnext
    by (apply u64_small; lia).
  assert (inv None s1) as Hi1.
  { destruct Hi as [Hpool Hpol Hmsg Hbk Hin Hhome Hids Hnd Hs Hq Hqd Hhd]. split; try done.
    intros q n Hqn. destruct (Hmsg q n Hqn) as [? Hsn]. split; [done|].
    intros Hns. destruct (Hsn Hns) as (? & ? & ?). split_and!; [done|done|].
    change (nextMessageSequenceNumber s1) with (u64 (nextMessageSequenceNumber s + 1)). lia. }
  eapply (wp_deref p m); [done|]. repeat wp_step. unfold policy_op. repeat wp_step.
  eapply Policy.getUnscheduledPolicy_wp; [apply Hi1|].
  intros pol pm' Hpm' Hmax Hv Hu Hrtt _ Hprio.
  change (policyManager s1) with (policyManager s) in *.
  destruct (unscheduled_limit_eq pol s) as [Hlim Hlimeq]; [apply Hi|done|].
  rewrite Hlimeq in *. fold limit in Hlim |- *. clear Hlimeq.
  set (s2 := s1 <| policyManager := pm' |>).
  assert (inv None s2) as Hi2.
  { apply inv_policy_set; [|done]. destruct (inv_policy _ _ Hi) as (? & ? & ?).
    split; [done|]. by rewrite Hrtt. }
  repeat wp_step. eapply wp_update_put; [done|].
  fold newId. set (m1 := m <| id := newId |> <| destination := dst |> <| options := opts |>
    <| state := IN_PROGRESS |>).
  pose proof (inv_message _ _ Hi p m Hp) as Hmi.
  assert (message_inv (transportId s2) (nextMessageSequenceNumber s2) m1) as Hm1.
  { destruct Hmi as [[] _]. split; [by split|]. intros _. split_and!; [done|done|].
    change (nextMessageSequenceNumber s < u64 (nextMessageSequenceNumber s + 1)). lia. }
  assert (inv (Some p) (put p m1 s2)) as Hi3.
  { eapply inv_put_start; [done..|]. intros q n Hqn Hns Heq.
    destruct (inv_message _ _ Hi q n Hqn) as [_ Hsn]. destruct (Hsn Hns) as (_ & _ & Hlt).
    rewrite Heq in Hlt. change (nextMessageSequenceNumber s < nextMessageSequenceNumber s) in Hlt. lia. }
  assert (p ∉ sendQueue s) as Hq by (eapply inv_not_queued; [done..|congruence]).
  wp_step. pose proof data_length_range as HP. destruct Hmi as [[Hsh Hlen Hmax'] _].
  replace (seqZ 0 (numPackets m)) with (seqZ 0 (numPackets m1 - 0)) by (by rewrite Z.sub_0_r).
  eapply (wp_fill_headers p dst _ _ (Z.to_nat (numPackets m)) 0 m1 (put p m1 s2));
    [change (numPackets m1) with (numPackets m); lia|done|done|exact Hi3|apply lookup_put|done| | |].
  { change (messageLength m1) with (messageLength m). lia. }
  { intros i d Hd Hi0. exfalso.
    assert (0 <= i < numPackets m) by (apply (shape_dom _ _ _ Hsh); eauto). lia. }
  intros ps m2 Hi4 Hsb Hhd. rewrite put_put in *. set (s3 := put p m2 s2) in *.
  assert (forall c, p ∉ messages (messageBuckets s c)) as Hnot.
  { intros c Hc. destruct (inv_in _ _ Hi c p Hc) as (n & Hn & _ & Hns). congruence. }
  wp_step. wp_step; [by apply Z.eqb_eq|]. wp_step. wp_step. wp_step.
  wp_step; [apply bool_decide_true, Hnot|]. wp_step.
  wp_step; [apply negb_true_iff, not_in_some_bucket, Hnot|]. unfold update_bucket. wp_step. wp_step.
  set (b := getBucket newId). set (s4 := s3 <| messageBuckets ::= _ |>).
  assert (inv (Some p) s4) as Hi5 by (apply (inv_push_bucket p m2 s3); [done|apply lookup_put|done|done]).
  assert (p ∈ messages (messageBuckets s4 b)) as Hin4.
  { unfold s4, over; cbn [messageBuckets]. rewrite fn_lookup_insert. cbn [messages].
    apply elem_of_app. right. by left. }
  wp_step. eapply wp_set_timeouts; [exact Hi5|exact Hin4|]. intros s5 Hi6 Ha6.
  pose proof (inv_agree_heap _ _ _ Ha6) as Hh6.
  assert (heap s5 !! p = Some m2) as Hp5 by (rewrite Hh6; apply lookup_put).
  assert (p ∉ sendQueue s5) as Hq5 by (by rewrite (ag_queue _ _ _ Ha6)).
  assert (p ∈ messages (messageBuckets s5 (getBucket (id m2)))) as Hin5
    by (by rewrite (ag_messages _ _ _ Ha6)).
  assert (trace (world s5) = trace (world s)) as Ht5 by (by rewrite (ag_trace _ _ _ Ha6), app_nil_r).
  assert (forall m', <[p := m']> (heap s5) = <[p := m']> (heap s)) as Hput.
  { intros m'. rewrite Hh6. change (heap s4) with (<[p := m2]> (heap s)). by rewrite insert_insert_eq. }
  assert (data m2 = data m) as Hdata by (by apply data_same_bytes).
  assert (forall s', same_settings s4 s' -> transportId s' = transportId s /\
    nextMessageSequenceNumber s' = nextMessageSequenceNumber s + 1 /\
    Policy.RTT_BYTES (policyManager s') = Policy.RTT_BYTES (policyManager s)) as Hset.
  { intros s' [E1 E2 E3]. rewrite E1, E2, E3. split_and!; [done|exact Hnext|exact Hrtt]. }
  change (messageLength m1) with (messageLength m) in *.
  wp_step. wp_step; [by apply Z.ltb_lt|]. destruct (numPackets m =? 1) eqn:Hone; bool_to_prop.
  - change b with (getBucket (id m2)). eapply (wp_send_single p m2); [done..|].
    intros d s6 Hd Hi7 Ha7. apply (HQ s6 pol (m2 <| state := SENT |>)); try done.
    + rewrite (inv_agree_heap _ _ _ Ha7), heap_put. apply Hput.
    + split; try done; [|lia]. by rewrite (proj2 (Z.eqb_eq _ _) Hone).
    + lia.
    + intros _. exists d. split; [done|]. rewrite (ag_trace _ _ _ Ha7).
      by change (trace (world (put p (m2 <| state := SENT |>) s5))) with (trace (world s5)); rewrite Ht5.
    + apply Hset. split; [rewrite (ag_tid _ _ _ Ha7)|rewrite (ag_next _ _ _ Ha7)|rewrite (ag_policy _ _ _ Ha7)]; apply Ha6.
  - eapply (wp_enqueue p m2 limit); [done..|change (2 <= numPackets m); lia|done|lia|by split|].
    intros s6 Hi7 Hh7 Hq7 Hr7 Hw7 Hs7. eapply (HQ s6 pol); try done.
    + by rewrite Hh7, Hput.
    + split; try done. by rewrite (proj2 (Z.eqb_neq _ _) Hone).
    + intros _. split_and!; [done|done|]. by rewrite Hw7.
    + apply Hset. by destruct Ha6, Hs7; split; congruence.
Qed.
End send.

End SenderSend.
