(* ===== verification/SenderTimers.v ===== *)
(** * SenderTimers: the Sender's timeouts

    The two loops over a bucket's timeouts: both end, keep the invariant and
    leave no elapsed timeout; the message loop fails exactly the messages whose
    timeout elapsed, and the ping loop changes no message. *)

From S2P Require Import Prelude Intrusive Util Timeout ObjectPool Perf Protocol Policy Driver SenderMessage Sender SenderInv SenderHandlers.
Import Driver SenderMessage Sender SenderInv SenderHandlers.

Module SenderTimers.

Abbreviation elapsed t p s b := (hasElapsed t p (messageTimeouts (messageBuckets s b))).
Abbreviation ping_elapsed t p s b := (hasElapsed t p (pingTimeouts (messageBuckets s b))).

Section timers.
Context `{DriverLaws}.
Implicit Types (s : Sender) (p q : ptr) (m : Message) (x : option ptr) (b t : Z).

(** What an elapsed message timeout does to its message. *)
Definition timed_out m : Message :=
  if bool_decide (state m = COMPLETED) then m else m <| state := FAILED |>.

(** One elapsed timeout: the message fails unless it was completed. *)
Lemma wp_time_out p m b s (Q : unit -> Sender -> Prop) :
  inv None s -> heap s !! p = Some m -> p ∈ messages (messageBuckets s b) ->
  (forall s', inv None s' -> heap s' = <[p := timed_out m]> (heap s) ->
     messageTimeouts (messageBuckets s' b) = cancelTimeout p (messageTimeouts (messageBuckets s b)) ->
     trace (world s') = trace (world s) -> Q tt s') ->
  wp (_ ← when (negb (bool_decide (state m = COMPLETED)))
            (_ ← when (bool_decide (state m = IN_PROGRESS))
                   (_ ← check (bool_decide (p ∈ sendQueue s)); queue_remove p);
             set_state p FAILED);
      cancel_timeouts b p) s Q.
Proof.
  intros Hi Hp Hin HQ. destruct (inv_in _ _ Hi _ _ Hin) as (n & Hn & <- & Hst). simplify_eq.
  destruct (inv_home _ _ Hi p m Hp Hst) as [_ Hinfo]; [done|].
  assert (forall s1, inv None s1 -> heap s1 = <[p := timed_out m]> (heap s) ->
    messageBuckets s1 = messageBuckets s -> trace (world s1) = trace (world s) ->
    wp (cancel_timeouts (getBucket (id m)) p) s1 Q) as Hend.
  { intros s1 Hi1 Hh1 Hb1 Ht1. eapply wp_cancel_timeouts; [done|]. intros s2 Hi2 Ha2 _ _ Hm2 _.
    apply HQ; [done|by rewrite (inv_agree_heap _ _ _ Ha2)|by rewrite Hm2, Hb1|].
    by rewrite (ag_trace _ _ _ Ha2), app_nil_r. }
  unfold timed_out in *. wp_step. unfold when. case_bool_decide as Hc; cbn [negb].
  { wp_step. apply Hend; try done. by rewrite insert_id. }
  assert (forall s1, inv (Some p) s1 -> p ∉ sendQueue s1 -> heap s1 = heap s ->
    messageBuckets s1 = messageBuckets s -> world s1 = world s ->
    wp (set_state p FAILED) s1 (fun _ s2 => wp (cancel_timeouts (getBucket (id m)) p) s2 Q)) as Hfail.
  { intros s1 Hi1 Hq1 Hh1 Hb1 Hw1.
    eapply (wp_finish (Some p) p m);
      [done|by right|by rewrite Hh1|done..|by rewrite Hb1|done|by apply (inv_held _ _ Hi p m)|].
    intros s2 Hi2 Hh2 _ Hw2 Hb2. apply Hend; [done|by rewrite Hh2, Hh1|by rewrite Hb2|by rewrite Hw2, Hw1]. }
  wp_step. case_bool_decide as Hprog.
  - wp_step. wp_step; [apply bool_decide_true; by eapply inv_in_queue|].
    unfold queue_remove. wp_step. apply Hfail; try done.
    + by apply inv_queue_remove, inv_weaken.
    + unfold over; cbn [sendQueue]. apply not_in_list_remove, Hi.
  - wp_step. apply Hfail; try done; [by apply inv_weaken|by eapply inv_not_queued].
Qed.

Lemma hasElapsed_cancel t p q (tm : TimeoutManager ptr) :
  hasElapsed t q (cancelTimeout p tm) = hasElapsed t q tm.
Proof. unfold hasElapsed. by rewrite expiration_cancelTimeout. Qed.

Lemma front_head (tm : TimeoutManager ptr) p l :
  timeouts tm = p :: l -> timeouts_front tm = Some p.
Proof. unfold timeouts_front. by intros ->. Qed.

Definition expire_effect t b s (q : ptr) m : Message :=
  if bool_decide (q ∈ timeouts (messageTimeouts (messageBuckets s b))) && elapsed t q s b
  then timed_out m else m.

Lemma expire_none t b s q :
  (forall r, r ∈ timeouts (messageTimeouts (messageBuckets s b)) -> elapsed t r s b = false) ->
  expire_effect t b s q <$> heap s !! q = heap s !! q.
Proof.
  intros Hno. destruct (heap s !! q) as [n|]; simpl; [|done]. f_equal. unfold expire_effect.
  case_bool_decide as Hq; [|done]. by rewrite (Hno q Hq).
Qed.

Lemma message_timeout_loop_spec fuel t b s :
  inv None s -> (List.length (timeouts (messageTimeouts (messageBuckets s b))) < fuel)%nat ->
  wp (message_timeout_loop fuel t b) s (fun _ s' => inv None s' /\
    (forall q, q ∈ timeouts (messageTimeouts (messageBuckets s' b)) -> elapsed t q s' b = false) /\
    (forall q, heap s' !! q = expire_effect t b s q <$> heap s !! q) /\
    trace (world s') = trace (world s)).
Proof.
  revert s. induction fuel as [|fuel IH]; intros s Hi Hf; [lia|]. simpl. repeat wp_step.
  destruct (inv_bucket _ _ Hi b) as [B1 B2 B3 B4 B5 B6 B7].
  destruct (timeouts (messageTimeouts (messageBuckets s b))) as [|p l] eqn:Hl.
  { unfold timeouts_front. rewrite Hl. simpl. wp_step. split_and!; [done| | |done].
    - rewrite Hl. intros q Hq. by apply elem_of_nil in Hq.
    - intros q. rewrite expire_none; [done|]. rewrite Hl. intros r Hr. by apply elem_of_nil in Hr. }
  rewrite (front_head _ _ _ Hl).
  assert (p ∈ messages (messageBuckets s b)) as Hin by (apply B4; by left).
  destruct (inv_in _ _ Hi _ _ Hin) as (m & Hp & Hb & Hst).
  destruct (elapsed t p s b) eqn:He; cbn [negb].
  2:{ assert (forall q, q ∈ p :: l -> elapsed t q s b = false) as Hno.
      { intros q Hq. unfold hasElapsed in *. apply Z.leb_gt. apply Z.leb_gt in He.
        assert (expirationCycleTime p (messageTimeouts (messageBuckets s b)) <=
          expirationCycleTime q (messageTimeouts (messageBuckets s b))); [|lia].
        eapply (front_first (now (world s))); [done|by eapply front_head|by rewrite Hl]. }
      wp_step. split_and!; [done|by rewrite Hl| |done]. intros q. rewrite expire_none; [done|].
      by rewrite Hl. }
  wp_step. eapply wp_deref; [done|].
  apply wp_assoc. wp_step. eapply wp_time_out; [done..|]. intros s1 Hi1 Hh1 Hm1 Ht1.
  assert (timeouts (messageTimeouts (messageBuckets s1 b)) = l) as Hl1.
  { rewrite Hm1, timeouts_cancelTimeout, Hl. apply (list_remove_app p [] l), not_elem_of_nil. }
  eapply wp_mono; [apply IH; [done|rewrite Hl1; simpl in Hf; lia]|].
  intros _ s2 (Hi2 & Hno & Hh2 & Ht2). split_and!; [done|done| |congruence]. intros q. rewrite Hh2, Hh1.
  assert (p ∉ l) as Hpl.
  { pose proof (to_nodup _ _ B2) as Hnd. rewrite Hl in Hnd. by apply NoDup_cons in Hnd as [? _]. }
  unfold expire_effect. rewrite Hl1, Hl. destruct (decide (q = p)) as [->|Hq].
  - rewrite lookup_insert_eq, Hp. simpl. rewrite (bool_decide_false (p ∈ l)) by done.
    rewrite (bool_decide_true (p ∈ p :: l)) by (by left). by rewrite He.
  - rewrite lookup_insert_ne by done. destruct (heap s !! q) as [n|]; simpl; [|done].
    rewrite Hm1, hasElapsed_cancel. do 2 f_equal.
    assert (bool_decide (q ∈ l) = bool_decide (q ∈ p :: l)) as ->; [|done].
    apply bool_decide_ext. rewrite elem_of_cons. naive_solver.
Qed.

Lemma checkMessageTimeouts_spec t b s :
  inv None s -> t < UINT64_MAX ->
  wp (checkMessageTimeouts t b) s (fun _ s' => inv None s' /\
    (forall q, q ∈ timeouts (messageTimeouts (messageBuckets s' b)) -> elapsed t q s' b = false) /\
    (forall q, heap s' !! q = expire_effect t b s q <$> heap s !! q) /\
    trace (world s') = trace (world s)).
Proof.
  intros Hi Ht. unfold checkMessageTimeouts. repeat wp_step.
  destruct (anyElapsed t (messageTimeouts (messageBuckets s b))) eqn:Hany.
  - apply message_timeout_loop_spec; [done|lia].
  - wp_step. assert (forall q, q ∈ timeouts (messageTimeouts (messageBuckets s b)) ->
      elapsed t q s b = false) as Hno.
    { intros q Hq. apply not_true_is_false. intros He.
      assert (anyElapsed t (messageTimeouts (messageBuckets s b)) = true) as Hy; [|congruence].
      eapply anyElapsed_iff; [apply Hi|done|]. eauto. }
    split_and!; [done|done| |done]. intros q. by rewrite expire_none.
Qed.

(** ** Pings *)

(** A message that the ping loop can send a PING for. *)
Definition ping_event s (e : Event) : Prop :=
  match e with
  | EvSend dst prio bytes => exists p m, heap s !! p = Some m /\ state m <> COMPLETED /\
      state m <> FAILED /\ dst = ip (destination m) /\ prio = getHighestPacketPriority /\
      bytes = Protocol.encode (Protocol.PingHeader_new (id m))
  | EvRelease _ => True
  end.

Lemma wp_send_ping dst i s (Q : unit -> Sender -> Prop) :
  inv None s ->
  (forall s' fresh, inv None s' ->
     agree [EvSend dst getHighestPacketPriority (Protocol.encode (Protocol.PingHeader_new i));
            EvRelease [fresh]] s s' ->
     messageBuckets s' = messageBuckets s -> Q tt s') ->
  wp (_ ← world_op (count Perf.tx_ping_pkts 1);
      world_op (send_control dst (Protocol.PingHeader_new i))) s Q.
Proof.
  intros Hi HQ. unfold world_op. repeat wp_step. apply wp_count. cbv beta. wp_step.
  apply wp_send_control.
  eapply HQ; [by apply (inv_world None (s <| world := _ |>)), (inv_world None s)| |done].
  by split.
Qed.

(** Each round the front leaves the elapsed part [pre] of the list: it is
    cancelled, or set again to a time that has not come. *)
Lemma ping_timeout_loop_spec fuel t b pre suf s :
  inv None s -> t <= now (world s) ->
  timeouts (pingTimeouts (messageBuckets s b)) = pre ++ suf ->
  (forall q, q ∈ suf -> ping_elapsed t q s b = false) -> (List.length pre < fuel)%nat ->
  wp (ping_timeout_loop fuel t b) s (fun _ s' => inv None s' /\ heap s' = heap s /\
    sendQueue s' = sendQueue s /\
    (forall q, q ∈ timeouts (pingTimeouts (messageBuckets s' b)) -> ping_elapsed t q s' b = false) /\
    exists evs, trace (world s') = trace (world s) ++ evs /\ Forall (ping_event s) evs).
Proof.
  revert pre suf s. induction fuel as [|fuel IH]; intros pre suf s Hi Ht Hl Hsuf Hf; [lia|].
  simpl. repeat wp_step. destruct (inv_bucket _ _ Hi b) as [B1 B2 B3 B4 B5 B6 B7].
  destruct (timeouts_front (pingTimeouts (messageBuckets s b))) as [p|] eqn:Hfr.
  2:{ wp_step. split_and!; [done|done|done| |exists []; by rewrite app_nil_r].
      unfold timeouts_front in Hfr. intros q Hq. destruct (timeouts _); [by apply elem_of_nil in Hq|done]. }
  assert (p ∈ timeouts (pingTimeouts (messageBuckets s b))) as Hpin.
  { unfold timeouts_front in Hfr. destruct (timeouts _); [done|]. injection Hfr as ->. by left. }
  destruct (ping_elapsed t p s b) eqn:He; cbn [negb].
  2:{ wp_step. split_and!; [done|done|done| |exists []; by rewrite app_nil_r].
      intros q Hq. unfold hasElapsed in *. apply Z.leb_gt. apply Z.leb_gt in He.
      pose proof (front_first _ _ _ _ B3 Hfr Hq). lia. }
  assert (exists pre', pre = p :: pre') as [pre' ->].
  { unfold timeouts_front in Hfr. rewrite Hl in Hfr. destruct pre as [|p' pre']; simpl in Hfr.
    - destruct suf as [|p' suf']; [done|]. injection Hfr as ->. rewrite Hsuf in He; [done|by left].
    - injection Hfr as ->. eauto. }
  assert (p ∈ messages (messageBuckets s b)) as Hin by auto.
  destruct (inv_in _ _ Hi _ _ Hin) as (m & Hp & Hb & Hst).
  pose proof (to_nodup _ _ B3) as Hnd. rewrite Hl in Hnd. simpl in Hl, Hf, Hnd.
  apply NoDup_cons in Hnd as [Hnin _].
  assert (list_remove p (p :: pre' ++ suf) = pre' ++ suf) as Hrm
    by apply (list_remove_app p [] (pre' ++ suf)), not_elem_of_nil.
  (* what is left to show after a step that took [p] out of the elapsed part *)
  assert (forall s1 evs suf', inv None s1 -> agree evs s s1 -> Forall (ping_event s) evs ->
    timeouts (pingTimeouts (messageBuckets s1 b)) = pre' ++ suf' ->
    (forall q, q ∈ suf' -> ping_elapsed t q s1 b = false) ->
    wp (ping_timeout_loop fuel t b) s1 (fun _ s' => inv None s' /\ heap s' = heap s /\
      sendQueue s' = sendQueue s /\
      (forall q, q ∈ timeouts (pingTimeouts (messageBuckets s' b)) -> ping_elapsed t q s' b = false) /\
      exists evs, trace (world s') = trace (world s) ++ evs /\ Forall (ping_event s) evs)) as Hnext.
  { intros s1 evs suf' Hi1 Ha1 Hev Hl1 Hsuf1. pose proof (inv_agree_heap _ _ _ Ha1) as Hh1.
    eapply wp_mono; [eapply (IH pre' suf'); [done| |done|done|lia]|].
    { pose proof (ag_clock _ _ _ Ha1). lia. }
    intros _ s2 (Hi2 & Hh2 & Hq2 & Hno & evs2 & Ht2 & Hev2). split_and!; [done|by rewrite Hh2|..|done|].
    - by rewrite Hq2, (ag_queue _ _ _ Ha1).
    - exists (evs ++ evs2). split; [by rewrite Ht2, (ag_trace _ _ _ Ha1), app_assoc|].
      apply Forall_app. split; [done|]. eapply Forall_impl; [done|].
      intros [] He'; [|done]. unfold ping_event in *. by rewrite Hh1 in He'. }
  wp_step. eapply wp_deref; [done|]. case_bool.
  { wp_step. eapply wp_cancel_pingTimeout; [done|]. intros s1 Hi1 Ha1 Hp1 _.
    eapply (Hnext s1 [] suf); [done|done|constructor| |].
    - by rewrite Hp1, timeouts_cancelTimeout, Hl, Hrm.
    - intros q Hq. rewrite Hp1, hasElapsed_cancel. auto. }
  match goal with H1 : state m <> COMPLETED, H2 : state m <> FAILED |- _ => rename H1 into Hc1, H2 into Hc2 end.
  case_bool.
  { wp_step. eapply wp_cancel_timeouts; [done|]. intros s1 Hi1 Ha1 _ _ _ Hp1.
    eapply (Hnext s1 [] suf); [done|done|constructor| |].
    - by rewrite Hp1, timeouts_cancelTimeout, Hl, Hrm.
    - intros q Hq. rewrite Hp1, hasElapsed_cancel. auto. }
  wp_step. eapply wp_set_pingTimeout; [done..|]. intros s1 Hi1 Ha1 Hp1.
  assert (timeouts (pingTimeouts (messageBuckets s1 b)) = pre' ++ suf ++ [p]) as Hl1.
  { by rewrite Hp1, timeouts_setTimeout, Hl, Hrm, <- app_assoc. }
  assert (forall q, q ∈ suf ++ [p] -> ping_elapsed t q s1 b = false) as Hsuf1.
  { intros q Hq. rewrite Hp1. unfold hasElapsed. rewrite expiration_setTimeout.
    destruct (decide (q = p)) as [->|Hqp].
    - specialize (B7 (clock_reads (world s))). fold (now (world s)) in B7.
      pose proof (rdtsc_nonneg (clock_reads (world s))). fold (now (world s)) in *.
      rewrite u64_small by lia. apply Z.leb_gt. lia.
    - apply Hsuf. apply elem_of_app in Hq as [?|Hq]; [done|]. by apply list_elem_of_singleton in Hq. }
  cbv zeta. case_bool.
  { eapply (Hnext s1 [] (suf ++ [p])); [done|done|constructor|done|done]. }
  apply wp_assoc. wp_step. eapply wp_send_ping; [done|]. intros s3 fresh Hi3 Ha3 Hb3.
  pose proof (agree_trans [] _ _ _ _ Ha1 Ha3) as Ha.
  eapply (Hnext s3 _ (suf ++ [p])); [done|exact Ha| | |].
  - repeat constructor. exists p, m. split_and!; try done.
  - by rewrite Hb3.
  - intros q Hq. rewrite Hb3. auto.
Qed.

Lemma checkPingTimeouts_spec t b s :
  inv None s -> t <= now (world s) ->
  wp (checkPingTimeouts t b) s (fun _ s' => inv None s' /\ heap s' = heap s /\
    sendQueue s' = sendQueue s /\
    (forall q, q ∈ timeouts (pingTimeouts (messageBuckets s' b)) -> ping_elapsed t q s' b = false) /\
    exists evs, trace (world s') = trace (world s) ++ evs /\ Forall (ping_event s) evs).
Proof.
  intros Hi Ht. unfold checkPingTimeouts. repeat wp_step.
  destruct (anyElapsed t (pingTimeouts (messageBuckets s b))) eqn:Hany.
  - eapply (ping_timeout_loop_spec _ t b _ []); [done..|by rewrite app_nil_r| |lia].
    intros q Hq. by apply elem_of_nil in Hq.
  - wp_step. split_and!; [done|done|done| |exists []; by rewrite app_nil_r].
    intros q Hq. apply not_true_is_false. intros He.
    assert (anyElapsed t (pingTimeouts (messageBuckets s b)) = true) as Hy; [|congruence].
    eapply anyElapsed_iff; [apply Hi| |eauto].
    destruct (inv_bucket _ _ Hi b) as [_ _ _ _ _ _ B7]. specialize (B7 (clock_reads (world s))).
    fold (now (world s)) in B7. unfold UINT64_MAX. lia.
Qed.

(** [checkTimeouts]: both loops on the next bucket. *)
Lemma checkTimeouts_spec s :
  inv None s ->
  let b := Z.land (nextBucketIndex s) HASH_KEY_MASK in
  wp checkTimeouts s (fun _ s' => inv None s' /\
    (forall q, q ∈ timeouts (messageTimeouts (messageBuckets s' b)) -> elapsed (now (world s)) q s' b = false)).
Proof.
  intros Hi b. unfold checkTimeouts. repeat wp_step. fold b.
  set (s1 := s <| nextBucketIndex ::= _ |>).
  assert (inv None s1) as Hi1 by (by eapply (inv_ext _ s)).
  unfold world_op. wp_step. apply wp_rdtsc. change (now (world s1)) with (now (world s)).
  set (s2 := s1 <| world := _ |>). assert (inv None s2) as Hi2 by apply (inv_tick None s1 Hi1).
  wp_step. eapply wp_mono; [apply checkPingTimeouts_spec; [done|]|].
  { apply (now_mono (world s)). }
  intros _ s3 (Hi3 & _). eapply wp_mono; [apply checkMessageTimeouts_spec; [done|]|].
  { destruct (inv_bucket _ _ Hi b) as [_ _ _ _ _ B6 _]. specialize (B6 (clock_reads (world s))).
    unfold UINT64_MAX, now. lia. }
  intros _ s4 (Hi4 & Hno & _). done.
Qed.
End timers.

End SenderTimers.
