(* ===== verification/SenderLoop.v ===== *)
(** * SenderLoop: trySend

    [srpt] is an abstract scheduler.  Its state is the number of bytes that the driver
    has queued, as far as trySend can tell, and the Sender.  It sends one packet of a
    message that has the fewest unsent bytes among those with a granted packet left, if
    the driver has room for it, or retires a message that has sent all its packets.  The
    loop of trySend, which walks over the queue and moves messages while it does, is
    shown to end and to be a run of that scheduler that stops only when every message
    waits for a grant or the next packet does not fit ([stopped]); then exactly the
    retired messages that the application has released are destroyed ([try_sent]). *)

From S2P Require Import Prelude Intrusive Util Timeout ObjectPool Perf Protocol Policy Driver SenderMessage Sender SenderInv SenderHandlers SenderTimers.
Import Driver SenderMessage Sender SenderInv SenderHandlers SenderTimers.

Module SenderLoop.

(** A message with a granted packet that was not sent. *)
Definition ready (m : Message) : Prop :=
  packetsSent (queuedMessageInfo m) < packetsGranted (queuedMessageInfo m).

Section loop.
Context `{DriverLaws}.
Implicit Types (s : Sender) (p q : ptr) (m : Message) (ps : list ptr).

(** The message after its packet [d] was sent. *)
Definition sent_one (d : Packet) m : Message :=
  m <| queuedMessageInfo ::= fun i =>
    i <| unsentBytes ::= fun u => u - (length d - TRANSPORT_HEADER_LENGTH) |>
      <| packetsSent ::= fun n => n + 1 |> |>.

(** [p] has the fewest unsent bytes of the messages that could send. *)
Definition shortest p m s : Prop :=
  forall q n, q ∈ sendQueue s -> heap s !! q = Some n -> ready n ->
    unsentBytes (queuedMessageInfo m) <= unsentBytes (queuedMessageInfo n).

(** One step of the scheduler for a driver that takes [limit] bytes. *)
Inductive srpt (limit : Z) : Z * Sender -> Z * Sender -> Prop :=
  | srpt_send est s p m d s' :
      p ∈ sendQueue s -> heap s !! p = Some m -> ready m -> shortest p m s ->
      packets m !! packetsSent (queuedMessageInfo m) = Some d ->
      u32 (est + length d) <= limit ->
      heap s' = <[p := sent_one d m]> (heap s) -> sendQueue s' ≡ₚ sendQueue s ->
      trace (world s') = trace (world s) ++
        [EvSend (ip (destination m)) (q_priority (queuedMessageInfo m)) (packet_bytes d)] ->
      srpt limit (est, s) (u32 (est + length d), s')
  | srpt_finish est s p m s' :
      heap s !! p = Some m -> packetsSent (queuedMessageInfo m) = numPackets m ->
      heap s' = <[p := m <| state := SENT |>]> (heap s) -> sendQueue s ≡ₚ p :: sendQueue s' ->
      trace (world s') = trace (world s) -> srpt limit (est, s) (est, s')
  | srpt_mark est s s' :
      heap s' = heap s -> sendQueue s' = sendQueue s -> trace (world s') = trace (world s) ->
      srpt limit (est, s) (est, s').

(** The next packet of [m] does not fit any more. *)
Definition no_room (limit est : Z) m : Prop :=
  exists d, packets m !! packetsSent (queuedMessageInfo m) = Some d /\ limit < u32 (est + length d).

(** A message that waits for a grant. *)
Definition waiting (m : Message) : Prop := ~ ready m /\ packetsSent (queuedMessageInfo m) < numPackets m.
Definition all_waiting (l : list ptr) s : Prop :=
  forall q n, q ∈ l -> heap s !! q = Some n -> waiting n.

(** Where a run of the scheduler may stop: every message in the queue waits for a grant,
    or the packet that is due does not fit, and then sendReady says so. *)
Definition stopped (limit est : Z) s : Prop :=
  (sendReady s = false /\ all_waiting (sendQueue s) s) \/
  (sendReady s = true /\ exists p m, p ∈ sendQueue s /\ heap s !! p = Some m /\ ready m /\
     shortest p m s /\ no_room limit est m).

Lemma unsent_lookup h p m : h !! p = Some m -> unsent h p = unsentBytes (queuedMessageInfo m).
Proof. unfold unsent. by intros ->. Qed.

(** ** One packet *)

Lemma next_packet s p m :
  inv None s -> heap s !! p = Some m -> state m = IN_PROGRESS -> ready m ->
  exists d, packets m !! packetsSent (queuedMessageInfo m) = Some d /\
    0 <= packetsSent (queuedMessageInfo m) < MAX_MESSAGE_PACKETS /\
    length d - TRANSPORT_HEADER_LENGTH <= unsentBytes (queuedMessageInfo m) /\
    unsentBytes (queuedMessageInfo m) - (length d - TRANSPORT_HEADER_LENGTH) = unsent_of (sent_one d m) /\
    0 <= length d - TRANSPORT_HEADER_LENGTH.
Proof.
  intros Hi Hp Hst Hr. unfold ready in Hr.
  destruct (inv_message _ _ Hi p m Hp) as [[[S1 S2 S3 S4] Hlen Hmax] _].
  destruct (inv_queue _ _ Hi p) as (n & Hn & [Q1 Q2] & _); [by eapply inv_in_queue|]. simplify_eq.
  destruct (inv_home _ _ Hi p m Hp) as [_ Hinfo]; [congruence|done|].
  destruct (Hinfo Q1) as [_ _ _ I4 I5]. pose proof data_length_range as HP.
  assert (0 <= packets_for (messageLength m) <= MAX_MESSAGE_PACKETS) by (apply packets_for_bound; lia).
  set (i := packetsSent (queuedMessageInfo m)) in *.
  assert (0 <= i < numPackets m) as Hir by lia. apply S2 in Hir as Hd. destruct Hd as [d Hd].
  exists d. rewrite (S3 _ _ Hd), Q2.
  change (unsent_of (sent_one d m)) with (Z.max 0 (messageLength m - (i + 1) * PACKET_DATA_LENGTH)).
  unfold unsent_of. fold i.
  assert (i * PACKET_DATA_LENGTH < messageLength m).
  { rewrite S1 in Hir. unfold packets_for in Hir.
    destruct (data_div_mod (messageLength m + PACKET_DATA_LENGTH - 1)). nia. }
  split_and!; [done|lia|lia|lia|lia|lia].
Qed.

(** The state after a packet of [p] went out and [p] moved up. *)
Lemma inv_send_one s p m d :
  inv None s -> heap s !! p = Some m -> p ∈ sendQueue s -> ready m ->
  0 <= length d - TRANSPORT_HEADER_LENGTH ->
  unsentBytes (queuedMessageInfo m) - (length d - TRANSPORT_HEADER_LENGTH) = unsent_of (sent_one d m) ->
  inv None ((put p (sent_one d m) s) <| sendQueue :=
    prioritize (ComparePriority (<[p := sent_one d m]> (heap s))) p (sendQueue s) |>).
Proof.
  intros Hi Hp Hq Hr Hd Hu. unfold ready in Hr. set (m' := sent_one d m) in *.
  destruct (inv_queue _ _ Hi p Hq) as (n & Hn & [Q1 Q2] & Hst). simplify_eq.
  assert (state m = IN_PROGRESS) as Hprog by (by destruct Hst).
  destruct (inv_home _ _ Hi p m Hp) as [Hhm Hinfo]; [congruence|done|].
  destruct (Hinfo Q1) as [I1 I2 I3 I4 I5].
  set (q' := prioritize _ p (sendQueue s)).
  assert (q' ≡ₚ sendQueue s) as Hperm by (by apply prioritize_Permutation).
  assert (pool_ok (messageAllocator (put p m' s))) as Hpok.
  { rewrite <- (update_put p (fun _ => m') m s Hp).
    apply (pool_ok_alter (messageAllocator s) (alter (fun _ => m') p)); [apply Hi|].
    intros h. apply dom_alter_L. }
  assert (message_inv (transportId s) (nextMessageSequenceNumber s) m') as Hm'
    by (by eapply message_inv_same, (inv_message _ _ Hi p m)).
  pose proof Hi as [Hpool Hpol Hmsg Hbk Hin Hhome Hids Hnd Hs Hqu Hqd Hhd].
  set (s' := (put p m' s) <| sendQueue := q' |>).
  assert (heap s' = <[p := m']> (heap s)) as Hh by done.
  assert (sendQueue s' = q') as Hqq by done.
  split; rewrite ?Hh, ?Hqq, ?Hperm; try done.
  - intros q n [[<- <-]|[_ Hqn]]%lookup_insert_Some; [done|by eapply Hmsg].
  - intros b q Hqin. destruct (Hin b q Hqin) as (n & Hn & ? & ?). destruct (decide (p = q)) as [<-|Hpq].
    + rewrite lookup_insert_eq. simplify_eq. exists m'. by split_and!.
    + rewrite lookup_insert_ne by done. eauto.
  - intros q n [[<- <-]|[_ Hqn]]%lookup_insert_Some Hsn Hx; [|by apply Hhome].
    split; [done|]. intros _. split; try done; unfold m', sent_one, over; cbn; lia.
  - intros q r n n' Hqn Hrn. apply lookup_insert_Some in Hqn as [[<- <-]|[? Hqn]];
      apply lookup_insert_Some in Hrn as [[<- <-]|[? Hrn]]; try done; intros; by eapply Hids.
  - destruct (split_at_elem p (sendQueue s) Hq) as [Heq Hnot].
    destruct (split_at p (sendQueue s)) as [pre post]; simpl in Heq, Hnot.
    unfold q'. rewrite Heq. rewrite Heq in Hnd, Hs.
    assert (p ∉ pre ++ post) as Hpp.
    { apply NoDup_app in Hnd as (_ & Hd1 & Hnd2). apply NoDup_cons in Hnd2 as [? _]. set_solver. }
    apply (prioritize_sorted _ (unsent (<[p := m']> (heap s)))); [done|done| |].
    + eapply sorted_by_ext; [|by eapply sorted_by_remove]. intros y Hy.
      rewrite unsent_insert_ne; [done|]. intros Hyp. by rewrite Hyp in Hy.
    + intros y Hy. rewrite (unsent_insert_ne p y) by (intros ->; set_solver).
      apply sorted_by_app in Hs as (_ & Hs & _). apply sorted_by_cons in Hs as [_ Hs].
      specialize (Hs y Hy). rewrite (unsent_lookup _ _ _ Hp) in Hs.
      rewrite (unsent_lookup _ p m') by apply lookup_insert_eq.
      change (unsentBytes (queuedMessageInfo m')) with
        (unsentBytes (queuedMessageInfo m) - (length d - TRANSPORT_HEADER_LENGTH)). lia.
  - intros q. rewrite Hperm. intros Hqin. destruct (Hqu q Hqin) as (n & Hn & Hqo & Hor).
    destruct (decide (p = q)) as [<-|Hpq].
    + rewrite lookup_insert_eq. exists m'. split_and!; [done| |by left]. split; [done|exact Hu].
    + rewrite lookup_insert_ne by done. eauto.
  - intros q n [[<- <-]|[_ Hqn]]%lookup_insert_Some Hsn Hx; rewrite Hperm; [done|by eapply Hqd].
  - intros q n [[<- <-]|[_ Hqn]]%lookup_insert_Some Hx Hf; [by apply (Hhd p m)|by eapply Hhd].
Qed.

Lemma wp_send_one p m d s (k : M Sender (Z * bool)) Q :
  inv None s -> heap s !! p = Some m -> p ∈ sendQueue s -> ready m ->
  0 <= length d - TRANSPORT_HEADER_LENGTH ->
  length d - TRANSPORT_HEADER_LENGTH <= unsentBytes (queuedMessageInfo m) ->
  unsentBytes (queuedMessageInfo m) - (length d - TRANSPORT_HEADER_LENGTH) = unsent_of (sent_one d m) ->
  (forall s', inv None s' -> heap s' = <[p := sent_one d m]> (heap s) ->
     sendQueue s' = prioritize (ComparePriority (<[p := sent_one d m]> (heap s))) p (sendQueue s) ->
     trace (world s') = trace (world s) ++
       [EvSend (ip (destination m)) (q_priority (queuedMessageInfo m)) (packet_bytes d)] ->
     DRIVER_QUEUED_BYTE_LIMIT s' = DRIVER_QUEUED_BYTE_LIMIT s -> sendReady s' = sendReady s -> wp k s' Q) ->
  wp (_ ← send_data d (ip (destination m)) (q_priority (queuedMessageInfo m));
      _ ← check (length d - TRANSPORT_HEADER_LENGTH <=? unsentBytes (queuedMessageInfo m));
      _ ← update_info p (fun i => i <| unsentBytes ::= fun u => u - (length d - TRANSPORT_HEADER_LENGTH) |>);
      _ ← queue_prioritize p;
      _ ← update_info p (fun i => i <| packetsSent ::= fun n => n + 1 |>);
      k) s Q.
Proof.
  intros Hi Hp Hq Hr Hd0 Hd Hu Hk. wp_step. eapply wp_send_data; [done|]. intros s1 Hi1 Ha1.
  assert (heap s1 !! p = Some m) as Hp1 by (by rewrite (inv_agree_heap _ _ _ Ha1)).
  wp_step. wp_step; [by apply Z.leb_le|]. wp_step. unfold update_info at 1.
  eapply wp_update_put; [done|].
  set (m1 := m <| queuedMessageInfo ::= fun i => i <| unsentBytes ::= _ |> |>). wp_step.
  unfold queue_prioritize. wp_step. wp_step. unfold update_info.
  set (s2 := (put p m1 s1) <| sendQueue ::= _ |>).
  assert (heap s2 !! p = Some m1) as Hp2 by apply lookup_put.
  eapply wp_update_put; [exact Hp2|]. set (s3 := put p _ s2).
  assert (s3 = (put p (sent_one d m) s1) <| sendQueue :=
    prioritize (ComparePriority (<[p := sent_one d m]> (heap s1))) p (sendQueue s1) |>) as E.
  { unfold s3, s2. rewrite <- (put_put p m1 (sent_one d m) s1). unfold put, over; cbn. f_equal.
    apply prioritize_ext. intros y. unfold ComparePriority, unsent.
    destruct (decide (y = p)) as [->|Hy]; [by rewrite !lookup_insert_eq|].
    by rewrite !lookup_insert_eq, !lookup_insert_ne. }
  rewrite E. apply Hk.
  - apply inv_send_one; try done. by rewrite (ag_queue _ _ _ Ha1).
  - change (<[p := sent_one d m]> (heap s1) = <[p := sent_one d m]> (heap s)).
    by rewrite (inv_agree_heap _ _ _ Ha1).
  - unfold over; cbn [sendQueue]. by rewrite (inv_agree_heap _ _ _ Ha1), (ag_queue _ _ _ Ha1).
  - apply Ha1.
  - apply Ha1.
  - apply Ha1.
Qed.

(** ** The inner loop *)

Definition sent_up_to (u n : Z) m : Message :=
  m <| queuedMessageInfo ::= fun i => i <| unsentBytes := u |> <| packetsSent := n |> |>.
(** [m'] is [m] after some of its granted packets were sent. *)
Definition advanced m m' : Prop :=
  exists u n, m' = sent_up_to u n m /\
    packetsSent (queuedMessageInfo m) <= n <= packetsGranted (queuedMessageInfo m).

Lemma queue_state s p m :
  inv None s -> p ∈ sendQueue s -> heap s !! p = Some m -> state m = IN_PROGRESS.
Proof. intros Hi Hq Hp. destruct (inv_queue _ _ Hi p Hq) as (n & Hn & _ & [?|?]); congruence. Qed.

Lemma queue_info s p m :
  inv None s -> p ∈ sendQueue s -> heap s !! p = Some m -> info_ok p m.
Proof.
  intros Hi Hq Hp. pose proof (queue_state _ _ _ Hi Hq Hp) as Hst.
  destruct (inv_home _ _ Hi p m Hp) as [_ Hinfo]; [congruence|done|].
  apply Hinfo. by eapply inv_multi.
Qed.

Lemma shortest_front s p m pre suf :
  inv None s -> heap s !! p = Some m -> sendQueue s = pre ++ p :: suf -> all_waiting pre s ->
  shortest p m s.
Proof.
  intros Hi Hp Hq Hpre q n Hqin Hn Hr. rewrite Hq in Hqin.
  apply elem_of_app in Hqin as [Hqin|[->|Hqin]%elem_of_cons].
  - by destruct (Hpre q n Hqin Hn).
  - by simplify_eq.
  - pose proof (inv_sorted _ _ Hi) as Hs. rewrite Hq in Hs.
    apply sorted_by_app in Hs as (_ & Hs & _). apply sorted_by_cons in Hs as [_ Hs].
    specialize (Hs q Hqin). by rewrite (unsent_lookup _ _ _ Hp), (unsent_lookup _ _ _ Hn) in Hs.
Qed.

(** What one call of the inner loop does: packets of [p] go out, [p] moves up
    in the queue, and it ends with nothing granted left or the limit reached. *)
Record granted_run p m pre suf est s (r : Z * bool) s' : Prop := {
  gr_inv : inv None s';
  gr_limit : DRIVER_QUEUED_BYTE_LIMIT s' = DRIVER_QUEUED_BYTE_LIMIT s;
  gr_ready : sendReady s' = sendReady s;
  gr_message : exists est' pre' moved m',
    rtc (srpt (DRIVER_QUEUED_BYTE_LIMIT s)) (est, s) (est', s') /\
    pre = pre' ++ moved /\ sendQueue s' = pre' ++ p :: moved ++ suf /\
    heap s' = <[p := m']> (heap s) /\ advanced m m' /\
    (~ ready m' /\ r.1 = est' \/ ready m' /\ no_room (DRIVER_QUEUED_BYTE_LIMIT s) est' m') /\
    (m' = m /\ moved = [] \/ packetsSent (queuedMessageInfo m) < packetsSent (queuedMessageInfo m'))
}.

(** It did nothing. *)
Lemma granted_run_idle p m pre suf est s (r : Z * bool) :
  inv None s -> heap s !! p = Some m -> sendQueue s = pre ++ p :: suf ->
  ~ ready m /\ r.1 = est \/ ready m /\ no_room (DRIVER_QUEUED_BYTE_LIMIT s) est m ->
  granted_run p m pre suf est s r s.
Proof.
  intros Hi Hp Hq Hor. assert (p ∈ sendQueue s) as Hpq by (rewrite Hq; set_solver).
  destruct (queue_info _ _ _ Hi Hpq Hp) as [_ _ _ ? _]. split; [done..|].
  exists est, pre, [], m. split_and!; [done|by rewrite app_nil_r|done|by rewrite insert_id| |done|by left].
  exists (unsentBytes (queuedMessageInfo m)), (packetsSent (queuedMessageInfo m)).
  split; [by destruct m as [? ? ? ? ? ? ? ? ? ? []]|lia].
Qed.

Lemma send_granted_spec fuel p est busy m pre suf s :
  inv None s -> heap s !! p = Some m -> sendQueue s = pre ++ p :: suf -> all_waiting pre s ->
  fuel = Z.to_nat (packetsGranted (queuedMessageInfo m) - packetsSent (queuedMessageInfo m)) ->
  wp (send_granted fuel p est busy) s (granted_run p m pre suf est s).
Proof.
  revert est busy m pre suf s. induction fuel as [|fuel IH];
    intros est busy m pre suf s Hi Hp Hq Hpre Hf;
    simpl; wp_step; (eapply wp_deref; [done|]).
  { replace (packetsSent (queuedMessageInfo m) <? packetsGranted (queuedMessageInfo m)) with false
      by (symmetry; apply Z.ltb_ge; lia).
    wp_step. apply granted_run_idle; [done..|]. left. unfold ready. split; [lia|done]. }
  assert (ready m) as Hr by (unfold ready; lia).
  replace (packetsSent (queuedMessageInfo m) <? packetsGranted (queuedMessageInfo m)) with true
    by (symmetry; by apply Z.ltb_lt).
  assert (p ∈ sendQueue s) as Hpq by (rewrite Hq; set_solver).
  pose proof (queue_state _ _ _ Hi Hpq Hp) as Hst.
  destruct (queue_info _ _ _ Hi Hpq Hp) as [I1 I2 I3 I4 I5].
  destruct (next_packet _ _ _ Hi Hp Hst Hr) as (d & Hd & Hidx & Hle & Hu & Hd0).
  wp_step. unfold info_packets. rewrite I1. eapply wp_deref; [done|]. wp_step.
  unfold wp at 1, lift. rewrite getPacket_ok, Hd by done. wp_step. wp_step. case_bool.
  { wp_step. apply granted_run_idle; [done..|]. right. split; [done|]. by exists d. }
  eapply wp_send_one; [done..|]. intros s1 Hi1 Hh1 Hq1 Ht1 Hl1 Hr1.
  set (m1 := sent_one d m) in *.
  assert (p ∉ pre) as Hnp.
  { pose proof (inv_nodup _ _ Hi) as Hnd. rewrite Hq in Hnd.
    apply NoDup_app in Hnd as (_ & Hdj & _). intros Hin. apply (Hdj p Hin). by left. }
  destruct (prioritize_app (ComparePriority (<[p := m1]> (heap s))) p pre suf Hnp)
    as (before & moved & Epre & Eprio & _ & _). rewrite Hq, Eprio in Hq1.
  assert (srpt (DRIVER_QUEUED_BYTE_LIMIT s) (est, s) (u32 (est + length d), s1)) as Hstep.
  { eapply (srpt_send _ est s p m d); try done; [by eapply shortest_front|].
    rewrite Hq1, Hq, Epre, <- app_assoc. by rewrite <- (Permutation_middle moved suf p). }
  assert (p ∉ before) as Hnb by (intros Hin; apply Hnp; rewrite Epre; set_solver).
  eapply wp_mono; [eapply (IH _ _ m1 before (moved ++ suf) s1); [done|by rewrite Hh1, lookup_insert_eq|exact Hq1| |]|].
  - intros q n Hqb Hn. rewrite Hh1, lookup_insert_ne in Hn by (by intros ->).
    apply (Hpre q); [|done]. rewrite Epre. apply elem_of_app. by left.
  - change (packetsGranted (queuedMessageInfo m1)) with (packetsGranted (queuedMessageInfo m)).
    change (packetsSent (queuedMessageInfo m1)) with (packetsSent (queuedMessageInfo m) + 1). lia.
  - intros r s2 [G1 G2 G3 (est' & pre' & mv & m2 & Grun & Eb & Eq & Hh2 & (u & n & Em2 & Hn) & Hstop & Hmv)].
    change (packetsGranted (queuedMessageInfo m1)) with (packetsGranted (queuedMessageInfo m)) in *.
    change (packetsSent (queuedMessageInfo m1)) with (packetsSent (queuedMessageInfo m) + 1) in *.
    rewrite Hl1 in *. split; [done|done|congruence|].
    exists est', pre', (mv ++ moved), m2. rewrite Epre, Eb, <- !app_assoc.
    split_and!; [by eapply rtc_l|done|by rewrite Eq|by rewrite Hh2, Hh1, insert_insert_eq| |done|].
    + exists u, n. split; [done|lia].
    + right. destruct Hmv as [[-> _]|?]; [|lia].
      change (packetsSent (queuedMessageInfo m1)) with (packetsSent (queuedMessageInfo m) + 1). lia.
Qed.

(** ** The outer loop *)

Lemma sum_remaining_split h (a : list ptr) p b :
  sum_list_with (remaining h) (a ++ p :: b) =
  (remaining h p + sum_list_with (remaining h) (a ++ b))%nat.
Proof. rewrite !sum_list_with_app. simpl. lia. Qed.

Lemma sum_remaining_put h p m (l : list ptr) :
  p ∉ l -> sum_list_with (remaining (<[p := m]> h)) l = sum_list_with (remaining h) l.
Proof.
  induction l as [|q l IH]; [done|]. intros [Hpq Hl]%not_elem_of_cons. simpl.
  rewrite IH by done. f_equal. unfold remaining. by rewrite lookup_insert_ne.
Qed.

Lemma split_not_in (pre suf : list ptr) p : NoDup (pre ++ p :: suf) -> (p ∉ pre) /\ p ∉ pre ++ suf.
Proof.
  intros (_ & Hd & Hn)%NoDup_app. apply NoDup_cons in Hn as [Hn _]. set_solver.
Qed.

(** The ids of the messages at [ps], in order. *)
Definition ids_of (h : gmap ptr Message) (ps : list ptr) : list Protocol.MessageId :=
  omap (fun p => id <$> h !! p) ps.

Lemma ids_of_ext h h' ps : (forall q, q ∈ ps -> h' !! q = h !! q) -> ids_of h' ps = ids_of h ps.
Proof.
  induction ps as [|q ps IH]; intros Hsame; [done|]. change (q :: ps) with ([q] ++ ps). unfold ids_of in *.
  rewrite !omap_app, IH by (intros; apply Hsame; by right). f_equal. simpl. by rewrite Hsame by by left.
Qed.

(** Retiring a message that has sent all its packets. *)
Lemma wp_finish_queued {A} p m s (k : M Sender A) Q :
  inv None s -> heap s !! p = Some m -> p ∈ sendQueue s ->
  (forall s', inv None s' -> heap s' = <[p := m <| state := SENT |>]> (heap s) ->
     sendQueue s' = list_remove p (sendQueue s) -> trace (world s') = trace (world s) ->
     sendReady s' = sendReady s -> DRIVER_QUEUED_BYTE_LIMIT s' = DRIVER_QUEUED_BYTE_LIMIT s -> wp k s' Q) ->
  wp (_ ← retire p; k) s Q.
Proof.
  intros Hi Hp Hq Hk. pose proof (queue_state _ _ _ Hi Hq Hp) as Hst.
  destruct (inv_home _ _ Hi p m Hp) as [Hhm Hinfo]; [congruence|done|].
  set (sr := s <| sendQueue ::= list_remove p |>).
  assert (wp (set_state p SENT) sr (fun _ s' => sendReady s' = sendReady s ->
    DRIVER_QUEUED_BYTE_LIMIT s' = DRIVER_QUEUED_BYTE_LIMIT s -> wp k s' Q)) as Hw.
  { eapply (wp_finish (Some p) p m); [by apply inv_queue_remove, inv_weaken|by right|done|congruence|
      done|done|apply not_in_list_remove, Hi|done|done|by apply (inv_held _ _ Hi p m)|].
    intros s' Hi' Hh' Hq' Hw' _ Hr' Hl'. apply Hk; [done|done|by rewrite Hq'|by rewrite Hw'|done|done]. }
  exact (Hw eq_refl eq_refl).
Qed.

(** What the outer loop leaves: the run has stopped, the messages [ps] that left the
    queue are SENT, and their ids, in order, are behind those of before. *)
Record queue_run sent est s (r : bool * list Protocol.MessageId) s' : Prop := {
  qr_inv : inv None s';
  qr_run : exists est' ps, rtc (srpt (DRIVER_QUEUED_BYTE_LIMIT s)) (est, s) (est', s') /\
    stopped (DRIVER_QUEUED_BYTE_LIMIT s) est' s' /\
    sendQueue s ≡ₚ ps ++ sendQueue s' /\ r.2 = sent ++ ids_of (heap s') ps /\
    forall p, p ∈ ps -> exists m, heap s' !! p = Some m /\ state m = SENT;
  qr_others : forall p, p ∉ sendQueue s -> heap s' !! p = heap s !! p
}.

(** It starts with steps that keep the members of the queue. *)
Lemma queue_run_trans sent est s est1 s1 r s' :
  rtc (srpt (DRIVER_QUEUED_BYTE_LIMIT s)) (est, s) (est1, s1) ->
  DRIVER_QUEUED_BYTE_LIMIT s1 = DRIVER_QUEUED_BYTE_LIMIT s -> sendQueue s ≡ₚ sendQueue s1 ->
  (forall p, p ∉ sendQueue s -> heap s1 !! p = heap s !! p) ->
  queue_run sent est1 s1 r s' -> queue_run sent est s r s'.
Proof.
  intros Hr Hl Hq Hh [Q1 (est' & ps & R1 & R2 & R3 & R4 & R5) Q3]. rewrite Hl in *. split; [done| |].
  - exists est', ps. split_and!; [by etrans|done|by rewrite Hq|done|done].
  - intros p Hp. rewrite Q3 by (by rewrite <- Hq). by apply Hh.
Qed.

(** It starts by retiring [p]. *)
Lemma queue_run_retire sent est s s1 p m r s' :
  rtc (srpt (DRIVER_QUEUED_BYTE_LIMIT s)) (est, s) (est, s1) ->
  DRIVER_QUEUED_BYTE_LIMIT s1 = DRIVER_QUEUED_BYTE_LIMIT s -> sendQueue s ≡ₚ p :: sendQueue s1 ->
  NoDup (sendQueue s) -> heap s1 = <[p := m]> (heap s) -> state m = SENT ->
  queue_run (sent ++ [id m]) est s1 r s' -> queue_run sent est s r s'.
Proof.
  intros Hr Hl Hq Hnd Hh Hm [Q1 (est' & ps & R1 & R2 & R3 & R4 & R5) Q3]. rewrite Hl in *.
  rewrite Hq in Hnd. apply NoDup_cons in Hnd as [Hpq _].
  assert (heap s' !! p = Some m) as Hp by (by rewrite Q3, Hh, lookup_insert_eq). split; [done| |].
  - exists est', (p :: ps). split_and!; [by etrans|done|by rewrite Hq, R3| |].
    + rewrite R4, <- app_assoc. unfold ids_of; simpl. by rewrite Hp.
    + intros q [->|Hin]%elem_of_cons; eauto.
  - intros q Hin. rewrite Hq in Hin. apply not_elem_of_cons in Hin as [Hne Hin].
    rewrite Q3, Hh by done. by apply lookup_insert_ne.
Qed.

(** The walk is over: what is left waits. *)
Lemma queue_run_done sent est s busy :
  inv None s -> sendReady s = false -> all_waiting (sendQueue s) s ->
  queue_run sent est s (busy, sent) s.
Proof.
  intros Hi Hr Hw. split; [done| |done]. exists est, []. split_and!; [done|by left|done| |by intros ? ?%elem_of_nil].
  by rewrite app_nil_r.
Qed.

Lemma send_queue_spec N fuel it est busy sent pre suf s :
  inv None s -> sendQueue s = pre ++ suf -> it = head suf -> all_waiting pre s ->
  sendReady s = false -> (List.length (sendQueue s) <= N)%nat ->
  (remaining_grants s * S N + List.length suf <= fuel)%nat ->
  wp (send_queue fuel it est busy sent) s (queue_run sent est s).
Proof.
  revert it est busy sent pre suf s.
  induction fuel as [|fuel IH]; intros it est busy sent pre suf s Hi Hq -> Hpre Hready HN Hf;
    (destruct suf as [|p suf]; simpl in Hf;
     [simpl; wp_step; apply queue_run_done; [done|done|by rewrite Hq, app_nil_r]|]); [lia|].
  simpl. assert (p ∈ sendQueue s) as Hpq by (rewrite Hq; set_solver).
  destruct (inv_queue _ _ Hi p Hpq) as (m & Hp & [Q1 Q2] & _).
  pose proof (queue_state _ _ _ Hi Hpq Hp) as Hst.
  destruct (queue_info _ _ _ Hi Hpq Hp) as [I1 I2 I3 I4 I5].
  wp_step. eapply wp_deref; [done|]. wp_step. wp_step; [by apply bool_decide_true|].
  wp_step. unfold info_packets. rewrite I1. eapply wp_deref; [done|].
  wp_step. wp_step; [by apply Z.leb_le|]. wp_step.
  eapply wp_mono; [by eapply send_granted_spec|].
  intros [est' busy'] s1 [G1 G2 G3 (est1 & pre' & moved & m' & Grun & -> & Hq1 & Hh1 & (u & n & Em & Hn) & Hstop & Hmv)].
  assert (heap s1 !! p = Some m') as Hp1 by (by rewrite Hh1, lookup_insert_eq).
  wp_step. eapply wp_deref; [done|]. wp_step. unfold info_packets.
  assert (q_packets (queuedMessageInfo m') = Some p) as -> by (by rewrite Em).
  eapply wp_deref; [done|]. repeat wp_step.
  destruct (split_not_in _ _ _ (eq_ind _ NoDup (inv_nodup _ _ G1) _ Hq1)) as [Hnp Hnps].
  assert (next_in p (sendQueue s1) = head (moved ++ suf)) as ->.
  { unfold next_in. by rewrite Hq1, split_at_app. }
  assert (packetsSent (queuedMessageInfo m') = n) as Hsn by (by rewrite Em).
  assert (packetsGranted (queuedMessageInfo m') = packetsGranted (queuedMessageInfo m)) as Hgn by (by rewrite Em).
  assert (numPackets m' = numPackets m) as Hnn by (by rewrite Em).
  assert (id m' = id m) as Him by (by rewrite Em).
  assert (q_id (queuedMessageInfo m') = id m') as -> by (by rewrite Em).
  assert (sendQueue s ≡ₚ sendQueue s1) as Hqp.
  { rewrite Hq, Hq1, <- app_assoc, Permutation_middle. done. }
  (* the other messages are as they were *)
  assert (forall q, q <> p -> heap s1 !! q = heap s !! q) as Hoth.
  { intros q Hqp'. by rewrite Hh1, lookup_insert_ne. }
  assert (all_waiting pre' s1) as Hpre1.
  { intros q o Hqin Ho. apply (Hpre q); [set_solver|]. rewrite <- Hoth; [done|]. by intros ->. }
  assert (forall r s3, queue_run sent est1 s1 r s3 -> queue_run sent est s r s3) as Hback.
  { intros r s3. apply queue_run_trans; [done|done|done|]. intros q Hqn. apply Hoth. by intros ->. }
  assert (List.length (pre' ++ moved ++ suf) = List.length (pre' ++ moved) + List.length suf)%nat as Hlen1
    by (rewrite !length_app; lia).
  assert (List.length (sendQueue s) = S (List.length (pre' ++ moved ++ suf))) as HlenN.
  { rewrite Hq, <- !app_assoc, !length_app. simpl. lia. }
  (* the measure *)
  assert (remaining_grants s = (Z.to_nat (packetsGranted (queuedMessageInfo m) - packetsSent (queuedMessageInfo m)) +
    sum_list_with (remaining (heap s)) (pre' ++ moved ++ suf))%nat) as HR.
  { unfold remaining_grants. rewrite Hq, sum_remaining_split, <- app_assoc. f_equal.
    unfold remaining. by rewrite Hp. }
  assert (sum_list_with (remaining (heap s1)) (pre' ++ moved ++ suf) =
    sum_list_with (remaining (heap s)) (pre' ++ moved ++ suf)) as HRs.
  { rewrite Hh1. by apply sum_remaining_put. }
  assert (forall k rest : nat, (k + sum_list_with (remaining (heap s)) (pre' ++ moved ++ suf) <= remaining_grants s)%nat ->
    (rest <= N)%nat -> (rest <= List.length suf \/ k + sum_list_with (remaining (heap s)) (pre' ++ moved ++ suf) < remaining_grants s)%nat ->
    ((k + sum_list_with (remaining (heap s)) (pre' ++ moved ++ suf)) * S N + rest <= fuel)%nat) as Hmeas
    by (intros k rest Hk Hrest [?|?]; nia).
  rewrite HlenN, Hlen1, length_app in HN.
  assert (~ ready m' -> est' = est1) as Hest by (intros Hnr; by destruct Hstop as [[_ ?]|[? _]]).
  case_bool.
  - (* every packet was sent *)
    rewrite Hest by (unfold ready; lia).
    eapply wp_finish_queued; [done|done|rewrite Hq1; set_solver|]. intros s2 Hi2 Hh2 Hq2 Ht2 Hr2 Hl2.
    rewrite Hq1, list_remove_app in Hq2 by done.
    assert (all_waiting pre' s2) as Hpre2.
    { intros q o Hqin Ho. apply (Hpre1 q); [done|]. rewrite Hh2, lookup_insert_ne in Ho; [done|].
      intros <-. by apply Hnp. }
    eapply wp_mono; [eapply (IH _ _ _ _ pre' (moved ++ suf)); try done|].
    + congruence.
    + rewrite Hq2, !length_app in *. lia.
    + unfold remaining_grants at 1. rewrite Hq2, Hh2, sum_remaining_put, HRs by done.
      apply (Hmeas O); rewrite ?length_app; [lia|lia|].
      destruct Hmv as [[_ ->]|?]; [left; simpl; lia|right; lia].
    + intros r s3 Hr3. apply Hback. assert (sendQueue s1 ≡ₚ p :: sendQueue s2) as Hq12.
      { rewrite Hq1, Hq2. symmetry. apply Permutation_middle. }
      eapply (queue_run_retire _ _ _ s2 p); [|done|done|by apply G1|exact Hh2|done|exact Hr3].
      apply rtc_once. eapply (srpt_finish _ _ s1 p m'); [exact Hp1|lia|exact Hh2|exact Hq12|exact Ht2].
  - case_bool.
    + (* every grant was used *)
      rewrite Hest by (unfold ready; lia).
      eapply wp_mono; [eapply (IH _ _ _ _ (pre' ++ [p]) (moved ++ suf)); try done|].
      * by rewrite Hq1, <- app_assoc.
      * intros q o [Hqin|Hqin%list_elem_of_singleton]%elem_of_app Ho; [by apply (Hpre1 q)|].
        subst q. simplify_eq. split; [unfold ready|]; lia.
      * congruence.
      * rewrite Hq1, !length_app in *. simpl. rewrite length_app. lia.
      * unfold remaining_grants at 1. rewrite Hq1, sum_remaining_split, HRs.
        unfold remaining at 1. rewrite Hp1.
        apply Hmeas; rewrite ?length_app; [lia|lia|].
        destruct Hmv as [[_ ->]|?]; [left; simpl; lia|right; lia].
      * exact Hback.
    + (* the driver has enough *)
      wp_step. wp_step. apply Hback. set (s2 := s1 <| sendReady := true |>).
      destruct Hstop as [[Hnr _]|[Hr Hroom]]; [unfold ready in Hnr; lia|].
      split; [by eapply inv_ext; [..|exact G1]| |done]. exists est1, [].
      split_and!; [apply rtc_once, srpt_mark; done| |done|by rewrite app_nil_r|by intros ? ?%elem_of_nil].
      right. split; [done|]. exists p, m'. rewrite G2. split_and!; [change (p ∈ sendQueue s1); rewrite Hq1; set_solver|done|done| |done].
      change (shortest p m' s1). by eapply shortest_front.
Qed.
(** ** The critical section, and the messages it finished *)

Lemma trySend_queue_spec s :
  inv None s ->
  wp trySend_queue s (fun r s' =>
    match r with
    | None => s' = s /\ (sendReady s = false \/ sending s = true)
    | Some r => sendReady s = true /\ sending s = false /\ sending s' = false /\
        queue_run [] (getQueuedBytes_nth (queue_reads (world s))) s r s'
    end).
Proof.
  intros Hi. unfold trySend_queue. repeat wp_step.
  destruct (sendReady s) eqn:Hready; cbn [negb]; [|wp_step; auto].
  destruct (sending s) eqn:Hsend; [wp_step; auto|]. repeat wp_step.
  unfold world_op, getQueuedBytes. repeat wp_step. set (s1 := _ <| sendReady := false |>).
  assert (inv None s1) as Hi1.
  { eapply inv_ext; [..|eapply (inv_world _ s); [|exact Hi]]; try done. }
  eapply wp_mono; [eapply (send_queue_spec (List.length (sendQueue s)) _ _ _ _ _ [] (sendQueue s) s1);
    [done|done|done| |done|done|]|].
  - intros q n Hin. by apply elem_of_nil in Hin.
  - change (remaining_grants s1) with (remaining_grants s). unfold trySend_fuel. lia.
  - intros r s2 [Q1 (est' & ps & R1 & R2 & R3 & R4 & R5) Q3]. repeat wp_step. split_and!; [done..|].
    set (s3 := s2 <| sending := false |>). split; [by eapply inv_ext; [..|exact Q1]| |exact Q3].
    exists est', ps. split_and!; [|exact R2|exact R3|exact R4|exact R5].
    eapply rtc_l; [by apply (srpt_mark _ _ s s1)|]. eapply rtc_r; [exact R1|by apply srpt_mark].
Qed.

(** The application has released the message at [p]. *)
Definition released (h : gmap ptr Message) (p : ptr) : bool :=
  match h !! p with Some m => negb (held m) | None => false end.
(** What the driver sees of the destruction of the message at [p]. *)
Definition release_event (h : gmap ptr Message) (p : ptr) : Event :=
  EvRelease (from_option packet_ids [] (h !! p)).

(** Exactly the released messages of [ps] are destroyed, in order. *)
Record finished ps s s' : Prop := {
  fin_inv : inv None s';
  fin_queue : sendQueue s' = sendQueue s;
  fin_marks : sendReady s' = sendReady s /\ sending s' = sending s;
  fin_heap : forall q, heap s' !! q =
    if bool_decide (q ∈ ps /\ released (heap s) q) then None else heap s !! q;
  fin_trace : trace (world s') =
    trace (world s) ++ map (release_event (heap s)) (filter (released (heap s)) ps)
}.

Lemma finished_agree s s' ps :
  inv None s' -> agree [] s s' -> (forall p, p ∈ ps -> released (heap s) p = false) -> finished ps s s'.
Proof.
  intros Hi Ha Hno. split; [done|apply Ha|split; apply Ha| |].
  - intros q. rewrite (inv_agree_heap _ _ _ Ha), bool_decide_false; [done|].
    intros [Hq Hr]. by rewrite Hno in Hr.
  - rewrite (ag_trace _ _ _ Ha), filter_none; [done|]. apply Forall_forall. intros p Hp Hr. by rewrite Hno in Hr.
Qed.

Lemma finish_sent_spec p m s :
  inv None s -> heap s !! p = Some m -> state m = SENT ->
  wp (finish_sent (id m)) s (fun _ s' => finished [p] s s').
Proof.
  intros Hi Hp Hst. unfold finish_sent. wp_step. eapply wp_findMessage; [exact Hi| |].
  2:{ intros Hno. exfalso. apply (Hno p m Hp); congruence. }
  intros q n Hq Hid Hns Hpb. assert (q = p) as -> by (eapply (inv_ids _ _ Hi); try done; congruence).
  simplify_eq. wp_step. eapply wp_deref; [done|].
  assert (released (heap s) p = negb (held m)) as Hrel by (unfold released; by rewrite Hp).
  assert (held m = true -> forall q, q ∈ [p] -> released (heap s) q = false) as Hkeep.
  { intros Hh q ->%list_elem_of_singleton. by rewrite Hrel, Hh. }
  destruct (held m) eqn:Hheld; cbn [negb] in *.
  - unfold when. destruct (has_option (options m) NO_KEEP_ALIVE).
    + eapply wp_cancel_timeouts; [done|]. intros s1 Hi1 Ha1 _ _ _ _. apply finished_agree; [done|done|by apply Hkeep].
    + wp_step. apply finished_agree; [done|apply agree_refl|by apply Hkeep].
  - eapply (wp_remove_message None _ p m); [done|by left|done| | |].
    + eapply inv_not_queued; [done..|congruence].
    + intros c Hc. destruct (inv_in _ _ Hi c p Hc) as (n & Hn & Hcn & _). by simplify_eq.
    + intros s1 Hi1 Hh1 Hq1 Ht1 Hr1. split; [done|done|done| |].
      * intros q. rewrite Hh1. destruct (decide (q = p)) as [->|Hqp].
        -- rewrite lookup_delete_eq, bool_decide_true; [done|]. split; [by left|by rewrite Hrel].
        -- rewrite lookup_delete_ne by done. rewrite bool_decide_false; [done|]. by intros [?%list_elem_of_singleton _].
      * rewrite Ht1. f_equal. rewrite filter_cons_True by (by rewrite Hrel). unfold release_event; simpl. by rewrite Hp.
Qed.

(** The states between the rounds agree on the messages that are still to come. *)
Lemma finished_cons p ps s s1 s' :
  NoDup (p :: ps) -> finished [p] s s1 -> finished ps s1 s' -> finished (p :: ps) s s'.
Proof.
  intros [Hp Hnd]%NoDup_cons [F1 F2 F3 F4 F5] [G1 G2 G3 G4 G5].
  assert (forall q, q ∈ ps -> heap s1 !! q = heap s !! q) as Hsame.
  { intros q Hq. rewrite F4, bool_decide_false; [done|]. intros [->%list_elem_of_singleton _]. done. }
  assert (forall q, q ∈ ps -> released (heap s1) q = released (heap s) q) as Hrel.
  { intros q Hq. unfold released. by rewrite Hsame. }
  split; [done|congruence|destruct F3, G3; split; congruence| |].
  - intros q. rewrite G4, F4. destruct (decide (q ∈ ps)) as [Hq|Hq].
    + rewrite (Hrel q Hq), (bool_decide_false (q ∈ [p] /\ _)) by (by intros [->%list_elem_of_singleton _]).
      by rewrite (bool_decide_ext (q ∈ ps /\ _) (q ∈ p :: ps /\ released (heap s) q)) by set_solver.
    + rewrite (bool_decide_false (q ∈ ps /\ _)) by tauto.
      by rewrite (bool_decide_ext (q ∈ [p] /\ _) (q ∈ p :: ps /\ released (heap s) q)) by set_solver.
  - rewrite G5, F5, <- app_assoc. f_equal.
    assert (filter (released (heap s1)) ps = filter (released (heap s)) ps) as ->.
    { clear -Hrel. induction ps as [|q ps IH]; [done|]. rewrite !filter_cons, Hrel by by left.
      rewrite IH by (intros; apply Hrel; by right). done. }
    change (p :: ps) with ([p] ++ ps). rewrite filter_app, map_app. f_equal.
    apply map_ext_in. intros q Hq%list_elem_of_In%list_elem_of_filter. unfold release_event. by rewrite Hsame by tauto.
Qed.

Lemma finish_all_spec ps s :
  inv None s -> NoDup ps -> (forall p, p ∈ ps -> exists m, heap s !! p = Some m /\ state m = SENT) ->
  wp (for_each (ids_of (heap s) ps) finish_sent) s (fun _ s' => finished ps s s').
Proof.
  revert s. induction ps as [|p ps IH]; intros s Hi Hnd Hall.
  { apply wp_ret. apply finished_agree; [done|apply agree_refl|by intros ? ?%elem_of_nil]. }
  destruct (Hall p) as (m & Hp & Hst); [by left|].
  assert (ids_of (heap s) (p :: ps) = id m :: ids_of (heap s) ps) as -> by (unfold ids_of; simpl; by rewrite Hp).
  cbn [for_each]. wp_step. eapply wp_mono; [by eapply finish_sent_spec|]. intros [] s1 F. pose proof Hnd as [Hni Hnd']%NoDup_cons.
  assert (forall q, q ∈ ps -> heap s1 !! q = heap s !! q) as Hsame.
  { intros q Hq. rewrite (fin_heap _ _ _ F), bool_decide_false; [done|]. by intros [->%list_elem_of_singleton _]. }
  rewrite <- (ids_of_ext _ _ _ Hsame).
  eapply wp_mono; [apply IH; [apply F|done|]|].
  - intros q Hq. rewrite Hsame by done. apply Hall. by right.
  - intros [] s2 G. by eapply finished_cons.
Qed.

(** ** One call of trySend

    [served s s']: starting from what the driver says it has queued, the packets sent
    are a run of the scheduler to a state [s1] where it may stop; of the messages [ps]
    that left the queue, the ones that the application has released are destroyed. *)
Definition served s s' : Prop := exists est s1 ps,
  rtc (srpt (DRIVER_QUEUED_BYTE_LIMIT s)) (getQueuedBytes_nth (queue_reads (world s)), s) (est, s1) /\
  stopped (DRIVER_QUEUED_BYTE_LIMIT s) est s1 /\ sendQueue s ≡ₚ ps ++ sendQueue s1 /\
  (forall p, p ∈ ps -> exists m, heap s1 !! p = Some m /\ state m = SENT) /\ finished ps s1 s'.

(** A call that finds nothing to send, or another thread sending, does nothing. *)
Record try_sent s s' : Prop := {
  ts_inv : inv None s';
  ts_idle : sendReady s = false \/ sending s = true -> agree [] s s';
  ts_run : sendReady s = true -> sending s = false -> served s s' /\ sending s' = false
}.

Lemma finished_tail ps s1 s3 s5 : finished ps s1 s3 -> inv None s5 -> agree [] s3 s5 -> finished ps s1 s5.
Proof.
  intros [F1 F2 [F3 F4] F5 F6] Hi A. pose proof (inv_agree_heap _ _ _ A) as Hh. split; [done|..].
  - by rewrite (ag_queue _ _ _ A).
  - by rewrite (ag_ready _ _ _ A), (ag_sending _ _ _ A).
  - by rewrite Hh.
  - by rewrite (ag_trace _ _ _ A), app_nil_r.
Qed.

Lemma trySend_spec s : inv None s -> wp trySend s (fun _ s' => try_sent s s').
Proof.
  intros Hi. unfold trySend. wp_step. unfold world_op at 1. wp_step. apply wp_rdtsc.
  set (s1 := s <| world := _ |>). assert (inv None s1) as Hi1 by apply (inv_tick None s Hi).
  assert (agree [] s s1) as Ha1 by apply (agree_tick s).
  wp_step. eapply wp_mono; [by apply trySend_queue_spec|]. intros [[busy sent]|] s2.
  2:{ intros [-> Hor]. wp_step. split; [done|done|]. intros Hr Hs. exfalso.
      change (sendReady s1) with (sendReady s) in Hor. change (sending s1) with (sending s) in Hor. destruct Hor; congruence. }
  intros (Hready & Hsend & Hsend2 & [Q1 (est & ps & R1 & R2 & R3 & R4 & R5) Q3]). wp_step.
  change (sendReady s1) with (sendReady s) in Hready. change (sending s1) with (sending s) in Hsend.
  cbn in R4. rewrite R4.
  assert (NoDup ps) as Hnd.
  { pose proof (inv_nodup _ _ Hi1) as Hnd. rewrite R3 in Hnd. by apply NoDup_app in Hnd as [? _]. }
  eapply wp_mono; [by apply (finish_all_spec ps)|]. intros [] s3 F.
  assert (forall s5, inv None s5 -> agree [] s3 s5 -> try_sent s s5) as Hend.
  { intros s5 Hi5 Ha5. split; [done|intros Hor; exfalso; destruct Hor; congruence|]. intros _ _.
    destruct (fin_marks _ _ _ F) as [_ Hs3]. split; [|by rewrite (ag_sending _ _ _ Ha5), Hs3].
    exists est, s2, ps. split_and!; [|exact R2|exact R3|exact R5|by eapply finished_tail].
    eapply rtc_l; [|exact R1]. by apply (srpt_mark _ _ s s1). }
  unfold when. destruct busy; [|wp_step; apply Hend; [apply F|apply agree_refl]].
  wp_step. unfold world_op at 1. wp_step. apply wp_rdtsc.
  set (s4 := s3 <| world := _ |>). assert (inv None s4) as Hi4 by apply (inv_tick None s3 (fin_inv _ _ _ F)).
  eapply wp_count_s; [exact Hi4|]. intros s5 Hi5 Ha5.
  apply Hend; [done|]. eapply agree_trans_nil; [apply (agree_tick s3)|exact Ha5].
Qed.

(** [poll]: trySend, then the timeouts of one bucket. *)
Lemma poll_spec s : inv None s -> wp poll s (fun _ s' => inv None s').
Proof.
  intros Hi. unfold poll. wp_step. eapply wp_mono; [by apply trySend_spec|]. intros _ s1 [Hi1 _ _].
  eapply wp_mono; [by apply checkTimeouts_spec|]. by intros _ s2 [Hi2 _].
Qed.

(** ** Between the critical sections

    What other threads find when trySend has left the queue's lock, or between the
    steps of [retire]. *)

Lemma remove_linked b p m s :
  0 < outstandingObjects (messageAllocator s) -> heap s !! p = Some m -> p ∈ sendQueue s ->
  remove_message b p s = Error NodeLinked.
Proof.
  intros Hout Hp Hq. unfold remove_message, cancel_timeouts, cancel_messageTimeout, cancel_pingTimeout, update_bucket, destroy_message.
  apply bind_error. repeat wp_step. apply bind_error. repeat wp_step. set (s2 := _ <| messageBuckets ::= _ |>).
  assert (heap s2 !! p = Some m) as Hp2 by exact Hp. apply bind_error_first, bind_error. eapply wp_deref; [exact Hp2|]. apply bind_error. unfold world_op, releasePackets, emit. repeat wp_step.
  set (s3 := _ <| world := _ |>). apply bind_error, wp_get.
  assert (linked s3 p = true) as ->.
  { unfold linked. rewrite bool_decide_true; [done|exact Hq]. }
  assert (heap s3 !! p = Some m) as Hp3 by exact Hp.
  assert ((0 <? outstandingObjects (messageAllocator s3)) = true) as Ho by (by apply Z.ltb_lt).
  unfold allocator_op, zoom, destroy, mbind, M_bind, get, check. by rewrite Ho, Hp3.
Qed.

Lemma pool_occupied s p m : inv None s -> heap s !! p = Some m -> 0 < outstandingObjects (messageAllocator s).
Proof.
  intros Hi Hp. rewrite (pool_count _ (inv_pool _ _ Hi)).
  assert (size (heap s) <> 0%nat) by (rewrite map_size_ne_0_lookup; eauto). lia.
Qed.

(** An UNKNOWN that arrives after the critical section of trySend, for a message that
    was finished there after its release: trySend then destroys a queued message. *)
Lemma unknown_between s busy sent s1 p m packet :
  inv None s -> trySend_queue s = Ok (Some (busy, sent), s1) ->
  p ∈ sendQueue s -> heap s1 !! p = Some m -> state m = SENT -> held m = false ->
  has_option (options m) NO_RETRY = false ->
  Protocol.messageId (Protocol.unknown_common (read_header Protocol.UnknownHeader packet)) = id m ->
  exists s2, handleUnknownPacket packet s1 = Ok (tt, s2) /\ for_each sent finish_sent s2 = Error NodeLinked.
Proof.
  intros Hi Hrun Hpq Hp Hst Hheld Hopt Hid. pose proof (trySend_queue_spec s Hi) as Hspec.
  unfold wp in Hspec. rewrite Hrun in Hspec. destruct Hspec as (_ & _ & _ & [Q1 (est & ps & _ & _ & R3 & R4 & R5) _]).
  cbn in R4. subst sent. assert (p ∈ ps) as Hps.
  { rewrite R3 in Hpq. apply elem_of_app in Hpq as [?|Hin]; [done|].
    pose proof (queue_state _ _ _ Q1 Hin Hp). congruence. }
  assert (NoDup ps) as Hnd.
  { pose proof (inv_nodup _ _ Hi) as Hnd. rewrite R3 in Hnd. by apply NoDup_app in Hnd as [? _]. }
  pose proof (inv_held _ _ Q1 p m Hp ltac:(done) Hheld) as Hmulti.
  destruct (wp_ok _ _ _ (handleUnknownPacket_spec packet s1 Q1)) as ([] & s2 & Hunk & Hi2 & Hkept & evs & _ & Hdone & _).
  exists s2. split; [done|]. rewrite Hid in Hkept, Hdone.
  destruct (Hdone p m Hp eq_refl) as (m' & Hp2 & Heff); [congruence|].
  unfold unknown_effect in Heff. rewrite Hst, Hopt in Heff. destruct Heff as (prio & _ & Hres & Hsends).
  unfold restart_sends in Hsends. replace (numPackets m =? 1) with false in Hsends by (symmetry; apply Z.eqb_neq; lia).
  destruct Hsends as (_ & Hq2 & _).
  (* the other messages are still as they were *)
  assert (forall q, q ∈ ps -> q <> p -> heap s2 !! q = heap s1 !! q) as Hsame.
  { intros q Hq Hne. destruct (R5 q Hq) as (n & Hn & Hsn). rewrite Hn. apply Hkept; [done|]. left. intros Hidn.
    apply Hne. eapply (inv_ids _ _ Q1); try done; congruence. }
  destruct (list_elem_of_split ps p Hps) as (pre & post & ->).
  destruct (split_not_in pre post p Hnd) as [Hnpre _]. apply NoDup_app in Hnd as (Hndpre & _ & _).
  assert (ids_of (heap s1) (pre ++ p :: post) = ids_of (heap s2) pre ++ id m :: ids_of (heap s1) post) as ->.
  { unfold ids_of at 1. rewrite omap_app. simpl. rewrite Hp. simpl. f_equal.
    assert (forall q, q ∈ pre -> heap s2 !! q = heap s1 !! q) as Hpre.
    { intros q Hq. apply Hsame; [set_solver|]. by intros ->. }
    symmetry. by apply ids_of_ext. }
  rewrite for_each_app. apply bind_error.
  eapply wp_mono; [apply finish_all_spec; [done|done|]|].
  { intros q Hq. rewrite Hsame; [apply R5; set_solver|set_solver|]. by intros ->. }
  intros [] s3 F. assert (heap s3 !! p = Some m') as Hp3.
  { rewrite (fin_heap _ _ _ F), bool_decide_false; [done|]. by intros [? _]. }
  assert (p ∈ sendQueue s3) as Hq3 by (by rewrite (fin_queue _ _ _ F)). pose proof (fin_inv _ _ _ F) as Hi3.
  pose proof (queue_state _ _ _ Hi3 Hq3 Hp3) as Hst3. cbn [for_each].
  apply bind_error_first, bind_error. pose proof (rs_id _ _ _ _ _ Hres) as Hid'. eapply wp_findMessage; [exact Hi3| |].
  - intros q n Hq Hidn Hns _. assert (q = p) as -> by (eapply (inv_ids _ _ Hi3); try done; congruence).
    simplify_eq. apply bind_error. eapply wp_deref; [done|].
    rewrite (rs_held _ _ _ _ _ Hres), Hheld. cbn [negb]. eapply remove_linked; [by eapply pool_occupied|done..].
  - intros Hno. exfalso. apply (Hno p m' Hp3); congruence.
Qed.

(** The application releases [p] after [steps]. *)
Definition drop_after (steps : M Sender unit) p : M Sender unit := _ ← steps; dropMessage p.

(** The release of a message whose last packet the inner loop has just sent, before the
    steps of [retire], after the first one, and after both. *)
Lemma drop_between s p suf m est busy r s1 m1 :
  inv None s -> sendQueue s = p :: suf -> heap s !! p = Some m ->
  send_granted (Z.to_nat (packetsGranted (queuedMessageInfo m) - packetsSent (queuedMessageInfo m))) p est busy s = Ok (r, s1) ->
  heap s1 !! p = Some m1 -> packetsSent (queuedMessageInfo m1) = numPackets m1 ->
  is_ok (dropMessage p s1) = true /\
  drop_after (for_each (take 1 (retire_steps p)) (fun step => step)) p s1 = Error NodeLinked /\
  is_ok (drop_after (retire p) p s1) = true.
Proof.
  intros Hi Hq Hp Hrun Hp1 Hdone.
  pose proof (send_granted_spec _ p est busy m [] suf s Hi Hp Hq ltac:(by intros ? ? ?%elem_of_nil) eq_refl) as Hspec.
  unfold wp in Hspec. rewrite Hrun in Hspec. destruct Hspec as [G1 _ _ (est' & pre' & moved & m' & _ & Epre & Hq1 & _)].
  symmetry in Epre. apply app_nil in Epre as [-> ->]. cbn in Hq1.
  assert (p ∈ sendQueue s1) as Hpq1 by (rewrite Hq1; by left).
  pose proof (queue_state _ _ _ G1 Hpq1 Hp1) as Hst1.
  split_and!.
  - eapply wp_is_ok. by eapply dropMessage_spec.
  - set (sm := m1 <| state := SENT |>). set (s2 := put p sm s1).
    assert (for_each (take 1 (retire_steps p)) (fun step => step) s1 = Ok (tt, s2)) as E.
    { unfold retire_steps, set_state, update, modify. simpl. unfold mbind, M_bind, mret, M_ret. f_equal. f_equal.
      apply update_put. done. }
    unfold drop_after. unfold mbind at 1, M_bind at 1. rewrite E. unfold dropMessage. apply bind_error.
    eapply wp_deref; [apply lookup_put|]. apply bind_error. eapply wp_update_put; [apply lookup_put|].
    apply bind_error. unfold world_op, count. repeat wp_step. set (s3 := _ <| world := _ |>).
    eapply remove_linked; [|apply lookup_put|exact Hpq1]. by eapply (pool_occupied s1).
  - apply (wp_is_ok _ _ (fun _ _ => True)). unfold drop_after. eapply (wp_finish_queued p m1); [done..|]. intros s2 Hi2 Hh2 _ _ _ _.
    eapply wp_mono; [eapply dropMessage_spec; [done|]|done]. rewrite Hh2. apply lookup_insert_eq.
Qed.
End loop.

End SenderLoop.
