(* ===== verification/SenderSystem.v ===== *)
(** * SenderSystem: the Sender as a transition system

    [Op] lists the calls that reach the Sender: those of the application, the
    handlers of incoming packets and [poll].  [allowed] is what the interface
    asks of a caller, [reachable] the states that such calls lead to.  The
    invariant of SenderInv.v holds of every reachable state. *)

From S2P Require Import Prelude Intrusive Util Timeout ObjectPool Perf Protocol Policy Driver SenderMessage Sender SenderInv SenderHandlers SenderSend SenderTimers SenderLoop.
Import Driver SenderMessage Sender SenderInv SenderHandlers SenderSend SenderTimers SenderLoop.

Module SenderSystem.

Inductive Op :=
  | OpAlloc (sourcePort : Z)
  | OpAppend (p : ptr) (bytes : list Z)
  | OpPrepend (p : ptr) (bytes : list Z)
  | OpReserve (p : ptr) (count : Z)
  | OpSend (p : ptr) (destination : SocketAddress) (options : Z)
  | OpCancel (p : ptr)
  | OpDrop (p : ptr)
  | OpDone (packet : Packet)
  | OpResend (packet : Packet)
  | OpGrant (packet : Packet)
  | OpUnknown (packet : Packet)
  | OpError (packet : Packet)
  | OpPoll.

Section system.
Context `{DriverLaws}.
Implicit Types (s : Sender) (p q : ptr) (m : Message).

Definition run (o : Op) : M Sender unit :=
  match o with
  | OpAlloc sp => _ ← allocMessage sp; mret tt
  | OpAppend p bytes => append p bytes
  | OpPrepend p bytes => prepend p bytes
  | OpReserve p count => reserve p count
  | OpSend p dst opts => sendMessage p dst opts
  | OpCancel p => cancelMessage p
  | OpDrop p => dropMessage p
  | OpDone packet => handleDonePacket packet
  | OpResend packet => handleResendPacket packet
  | OpGrant packet => handleGrantPacket packet
  | OpUnknown packet => handleUnknownPacket packet
  | OpError packet => handleErrorPacket packet
  | OpPoll => poll
  end.

(** The application owns the message [m] at [p]. *)
Definition owned p m s : Prop := heap s !! p = Some m /\ held m = true.
(** The application owns [m] and did not send it yet. *)
Definition draft p m s : Prop := owned p m s /\ state m = NOT_STARTED.

(** What a caller has to respect: a message is written, and sent, once, while
    the application owns it; its length stays an [int]; [prepend] fits in what
    was reserved; a sent message is not empty; and the 64-bit sequence
    numbers are not used up.  Packets may hold any bytes. *)
Definition allowed (o : Op) s : Prop :=
  match o with
  | OpAlloc _ | OpDone _ | OpGrant _ | OpUnknown _ | OpError _ | OpPoll => True
  | OpResend packet => Forall Protocol.is_byte (payload packet)
  | OpAppend p bytes => exists m, draft p m s /\ messageLength m + zlength bytes < 2 ^ 31
  | OpPrepend p bytes => exists m, draft p m s /\ zlength bytes <= start m
  | OpReserve p count => exists m, draft p m s /\ start m = messageLength m /\
      0 <= count /\ messageLength m + count < 2 ^ 31
  | OpSend p _ _ => exists m, draft p m s /\ 0 < numPackets m /\
      0 <= nextMessageSequenceNumber s < 2 ^ 64 - 1
  | OpCancel p | OpDrop p => exists m, owned p m s
  end.

(** A new Sender whose policy manager fits the driver and whose clock does
    not run out. *)
Definition initial s : Prop := exists tid mt pt pol w,
  s = Sender_new tid mt pt pol w /\ policy_ok pol /\ 0 < mt /\ 0 < pt /\
  (forall n, rdtsc_nth n + mt < 2 ^ 64) /\ (forall n, rdtsc_nth n + pt < 2 ^ 64).

Inductive reachable : Sender -> Prop :=
  | reach_initial s : initial s -> reachable s
  | reach_run s o s' : reachable s -> allowed o s -> run o s = Ok (tt, s') -> reachable s'.

Lemma run_spec o s : inv None s -> allowed o s -> wp (run o) s (fun _ s' => inv None s').
Proof.
  intros Hi Ha. destruct o as [sp|p bytes|p bytes|p c|p dst opts|p|p|k|k|k|k|k|]; simpl in *.
  - wp_step. eapply wp_mono; [by apply allocMessage_spec|]. by intros ? s' (? & _).
  - destruct Ha as (m & [[Hp Hh] Hst] & Hl). eapply wp_mono; [by eapply append_spec|]. by intros ? s' (? & _).
  - destruct Ha as (m & [[Hp Hh] Hst] & Hl). eapply wp_mono; [by eapply prepend_spec|]. by intros ? s' (? & _).
  - destruct Ha as (m & [[Hp Hh] Hst] & Hl & ? & ?). eapply wp_mono; [by eapply reserve_spec|]. by intros ? s' (? & _).
  - destruct Ha as (m & [[Hp Hh] Hst] & Hn & ?). eapply sendMessage_spec; try done.
  - destruct Ha as (m & Hp & _). eapply wp_mono; [by eapply cancelMessage_spec|]. by intros ? s' (? & _).
  - destruct Ha as (m & Hp & _). eapply wp_mono; [by eapply dropMessage_spec|]. by intros ? s' (? & _).
  - eapply wp_mono; [by eapply handleDonePacket_spec|]. by intros ? s' (? & _).
  - eapply wp_mono; [eapply handleResendPacket_spec; [done|]|]; [|by intros ? s' (? & _)].
    by apply Protocol.read_le_range.
  - eapply wp_mono; [by eapply handleGrantPacket_spec|]. by intros ? s' (? & _).
  - eapply wp_mono; [by eapply handleUnknownPacket_spec|]. by intros ? s' (? & _).
  - eapply wp_mono; [by eapply handleErrorPacket_spec|]. by intros ? s' (? & _).
  - by apply poll_spec.
Qed.

Lemma reachable_inv s : reachable s -> inv None s.
Proof.
  induction 1 as [s (tid & mt & pt & pol & w & -> & ?)|s o s' _ IH Ha Hr].
  - destruct_and!. by apply inv_new.
  - pose proof (run_spec o s IH Ha) as Hw. unfold wp in Hw. by rewrite Hr in Hw.
Qed.

(** ** Executing a sequence of calls *)

Definition allowedb (o : Op) s : bool :=
  match o with
  | OpAlloc _ | OpDone _ | OpGrant _ | OpUnknown _ | OpError _ | OpPoll => true
  | OpResend packet => forallb (fun b => (0 <=? b) && (b <? 256)) (payload packet)
  | OpAppend p bytes => from_option (fun m => held m && bool_decide (state m = NOT_STARTED) &&
      (messageLength m + zlength bytes <? 2 ^ 31)) false (heap s !! p)
  | OpPrepend p bytes => from_option (fun m => held m && bool_decide (state m = NOT_STARTED) &&
      (zlength bytes <=? start m)) false (heap s !! p)
  | OpReserve p count => from_option (fun m => held m && bool_decide (state m = NOT_STARTED) &&
      ((start m =? messageLength m) && (0 <=? count) && (messageLength m + count <? 2 ^ 31)))
      false (heap s !! p)
  | OpSend p _ _ => from_option (fun m => held m && bool_decide (state m = NOT_STARTED) &&
      ((0 <? numPackets m) && (0 <=? nextMessageSequenceNumber s) &&
       (nextMessageSequenceNumber s <? 2 ^ 64 - 1))) false (heap s !! p)
  | OpCancel p | OpDrop p => from_option held false (heap s !! p)
  end.

Lemma allowedb_allowed o s : allowedb o s = true -> allowed o s.
Proof.
  destruct o as [sp|p bytes|p bytes|p c|p dst opts|p|p|k|k|k|k|k|]; simpl; try done;
    try (destruct (heap s !! p) as [m|] eqn:Hp; simpl; [|done]; intros Hb;
         repeat (rewrite ?andb_true_iff, ?bool_decide_eq_true, ?Z.ltb_lt, ?Z.leb_le, ?Z.eqb_eq in Hb);
         exists m; unfold draft, owned; naive_solver).
  rewrite forallb_forall. intros Hb. apply Forall_forall. intros b Hin.
  apply list_elem_of_In in Hin. apply Hb in Hin. apply andb_true_iff in Hin as [??].
  unfold Protocol.is_byte. bool_to_prop. lia.
Qed.

(** The state after a sequence of allowed calls. *)
Fixpoint follow (ops : list Op) s : option Sender :=
  match ops with
  | [] => Some s
  | o :: ops =>
      if allowedb o s then
        match run o s with Ok (_, s') => follow ops s' | Error _ => None end
      else None
  end.

Lemma follow_reachable ops s s' : reachable s -> follow ops s = Some s' -> reachable s'.
Proof.
  revert s. induction ops as [|o ops IH]; simpl; intros s Hs; [by intros [= <-]|].
  destruct (allowedb o s) eqn:Ha; [|done]. destruct (run o s) as [[[] s1]|] eqn:Hr; [|done].
  apply IH. eapply reach_run; [done|by apply allowedb_allowed|done].
Qed.
End system.

End SenderSystem.
