(* ===== verification/Sample.v ===== *)
(** * Sample: a driver to evaluate the model with

    A driver with 40-byte payloads (9 message bytes after the DATA header), an
    empty transmit queue and a clock that advances by one with each reading.
    The witnesses of the theorems run the model on it. *)

From S2P Require Import Prelude Perf Protocol Policy Driver SenderMessage Sender SenderInv SenderSystem.
Import Driver SenderMessage Sender SenderInv SenderSystem.

Module Sample.

#[global] Instance driver : Driver := {
  getHighestPacketPriority := 7;
  getMaxPayloadSize := 40;
  getBandwidth := 16;
  getLocalAddress := 10;
  getQueuedBytes_nth := fun _ => 0;
  payload_nth := fun _ => repeat 0 40;
  rdtsc_nth := fun n => Z.min (Z.of_nat n) 1000;
  std_hash := fun v => v
}.

#[global] Instance driver_laws : DriverLaws.
Proof. split; simpl; try (intros; lia); done. Qed.

Definition policy : Policy.Manager := Policy.Manager_new getBandwidth getHighestPacketPriority.

Lemma policy_is_ok : policy_ok policy.
Proof. split_and!; [by apply Policy.manager_ok_new|by vm_compute|by vm_compute]. Qed.

(** Transport 1; messages time out after 100 cycles, pings are due every 50. *)
Definition sender0 : Sender := Sender_new 1 100 50 policy World_new.

Lemma sender0_reachable : reachable sender0.
Proof.
  apply reach_initial. exists 1, 100, 50, policy, World_new.
  split_and!; [done|apply policy_is_ok|lia|lia|simpl; lia|simpl; lia].
Qed.

Definition after (ops : list Op) : Sender := default sender0 (follow ops sender0).

Lemma after_reachable ops : (if follow ops sender0 is Some _ then true else false) = true -> reachable (after ops).
Proof.
  unfold after. destruct (follow ops sender0) as [s|] eqn:Hf; [|done]. intros _.
  eapply follow_reachable; [apply sender0_reachable|done].
Qed.

Definition peer : SocketAddress := mkSocketAddress 20 80.
Definition bytes (n : nat) : list Z := Z.of_nat <$> seq 1 n.

(** A message of 27 bytes in three packets, two of them unscheduled, and one
    of 5 bytes. *)
Definition build : list Op := [OpAlloc 5; OpAppend 1%positive (bytes 27)].
Definition sent : list Op := build ++ [OpSend 1%positive peer NONE].
Definition build_short : list Op := [OpAlloc 5; OpAppend 1%positive (bytes 5)].
Definition sent_short : list Op := build_short ++ [OpSend 1%positive peer NONE].

(** The message that the first call allocated. *)
Definition first (ops : list Op) : Message := default (Message_new 0) (heap (after ops) !! 1%positive).

(** A control packet that arrived, in a buffer of its own. *)
Definition incoming {H : Type} `{Protocol.PacketHeader H} (h : H) : Packet :=
  write_header h (mkPacket 99 (repeat 0 40) (Protocol.header_size H)).
Definition first_id : Protocol.MessageId := Protocol.mkMessageId 1 1.

Example sent_queue : sendQueue (after sent) = [1%positive].
Proof. by vm_compute. Qed.
Example sent_short_trace :
  (fun e => match e with EvSend d p b => (d, p, zlength b) | EvRelease _ => (0, 0, 0) end)
    <$> trace (world (after sent_short)) = [(20, 7, 36)].
Proof. by vm_compute. Qed.

End Sample.
