(* ===== verification/SenderProps.v ===== *)
(** * SenderProps: the properties of the Sender

    Every theorem is about a state that calls of the interface can lead to
    ([reachable]).  Each is followed by a witness on the sample driver. *)

From S2P Require Import Prelude Intrusive Util Timeout ObjectPool Perf Protocol Policy Driver SenderMessage Sender SenderInv SenderHandlers SenderSend SenderTimers SenderLoop SenderSystem Sample.
Import Driver SenderMessage Sender SenderInv SenderHandlers SenderSend SenderTimers SenderLoop
  SenderSystem.

Module SenderProps.

(** Closes [reachable (Sample.after ops)]. *)
Ltac reach := apply Sample.after_reachable; vm_compute; reflexivity.

Section props.
Context `{DriverLaws}.
Implicit Types (s : Sender) (p q : ptr) (m : Message).

(** C1: Every call that the interface allows returns: no assertion fails, no
    pointer dangles, no node is destroyed in a list, every loop ends. *)
Theorem allowed_calls_return o s :
  reachable s -> allowed o s -> exists s', run o s = Ok (tt, s') /\ reachable s'.
Proof.
  intros Hr Ha. destruct (wp_ok _ _ _ (run_spec o s (reachable_inv s Hr) Ha)) as ([] & s' & Hs & _).
  exists s'. split; [done|by eapply reach_run].
Qed.

(** C13: The send queue holds exactly the messages in progress, each once, fewest
    unsent bytes first; the count of unsent bytes is that of the packets not
    sent yet, and no more packets are sent than granted. *)
Theorem send_queue_exact s :
  reachable s ->
  NoDup (sendQueue s) /\ sorted_by (unsent (heap s)) (sendQueue s) /\
  (forall p m, heap s !! p = Some m -> p ∈ sendQueue s <-> state m = IN_PROGRESS) /\
  (forall p m, heap s !! p = Some m -> state m = IN_PROGRESS ->
     let i := queuedMessageInfo m in
     unsentBytes i = Z.max 0 (messageLength m - packetsSent i * PACKET_DATA_LENGTH) /\
     0 <= packetsSent i <= packetsGranted i /\ packetsGranted i <= numPackets m).
Proof.
  intros Hr. pose proof (reachable_inv s Hr) as Hi.
  split_and!; [apply Hi|apply Hi| |].
  - intros p m Hp. split; [by intros Hq; eapply queue_state|by eapply inv_in_queue].
  - intros p m Hp Hst. pose proof (inv_in_queue _ _ _ Hi Hp Hst) as Hq.
    destruct (queue_info _ _ _ Hi Hq Hp). destruct (inv_queue _ _ Hi p Hq) as (n & Hn & [] & _).
    simplify_eq. done.
Qed.

(** A sent message is in the bucket of its id, and no two have the same id. *)
Theorem buckets_exact s :
  reachable s ->
  (forall p m, heap s !! p = Some m -> state m <> NOT_STARTED ->
     p ∈ messages (messageBuckets s (getBucket (id m)))) /\
  (forall b p, p ∈ messages (messageBuckets s b) -> exists m, heap s !! p = Some m /\
     getBucket (id m) = b /\ state m <> NOT_STARTED) /\
  (forall p q m n, heap s !! p = Some m -> heap s !! q = Some n ->
     state m <> NOT_STARTED -> state n <> NOT_STARTED -> id m = id n -> p = q).
Proof.
  intros Hr. pose proof (reachable_inv s Hr) as Hi. split_and!; [|apply Hi|apply Hi].
  intros p m Hp Hst. by apply (inv_home _ _ Hi p m).
Qed.

(** C23: [append] adds the bytes behind the message, cut at the largest message. *)
Theorem append_appends p m bytes s :
  reachable s -> draft p m s -> messageLength m + zlength bytes < 2 ^ 31 ->
  wp (append p bytes) s (fun _ s' => exists m', heap s' = <[p := m']> (heap s) /\
    data m' = data m ++ take (Z.to_nat (fitting m (zlength bytes))) bytes /\
    trace (world s') = trace (world s)).
Proof.
  intros Hr [[Hp _] Hst] Hl. eapply wp_mono; [eapply append_spec; [by apply reachable_inv|done..]|].
  by intros _ s' [_ ?].
Qed.

(** [prepend] puts the bytes in front of the message. *)
Theorem prepend_prepends p m bytes s :
  reachable s -> draft p m s -> zlength bytes <= start m ->
  wp (prepend p bytes) s (fun _ s' => exists m', heap s' = <[p := m']> (heap s) /\
    data m' = bytes ++ data m /\ trace (world s') = trace (world s)).
Proof.
  intros Hr [[Hp _] Hst] Hl. eapply wp_mono; [eapply prepend_spec; [by apply reachable_inv|done..]|].
  by intros _ s' [_ ?].
Qed.

(** [reserve] moves the start of the message, and its end, behind the room. *)
Theorem reserve_reserves p m count s :
  reachable s -> draft p m s -> start m = messageLength m -> 0 <= count ->
  messageLength m + count < 2 ^ 31 ->
  wp (reserve p count) s (fun _ s' => exists m', heap s' = <[p := m']> (heap s) /\
    start m' = start m + fitting m count /\ messageLength m' = messageLength m + fitting m count /\
    trace (world s') = trace (world s)).
Proof.
  intros Hr [[Hp _] Hst] Heq Hc Hl. eapply wp_mono; [eapply reserve_spec; [by apply reachable_inv|done..]|].
  by intros _ s' [_ ?].
Qed.

(** C12: [sendMessage] gives the message the next id, writes the DATA header of
    every packet, keeps the message bytes, and either sends the only packet or
    queues the message with the unscheduled packets granted. *)
Theorem sendMessage_sends p m dst opts s :
  reachable s -> draft p m s -> 0 < numPackets m ->
  0 <= nextMessageSequenceNumber s < 2 ^ 64 - 1 ->
  let newId := Protocol.mkMessageId (transportId s) (nextMessageSequenceNumber s) in
  let limit := packets_for (Policy.RTT_BYTES (policyManager s)) in
  wp (sendMessage p dst opts) s (fun _ s' => exists policy m',
    heap s' = <[p := m']> (heap s) /\ sent_as p newId dst opts limit policy m m' /\
    0 <= Policy.u_priority policy <= Policy.MAX_PRIORITY (policyManager s) /\
    (2 <= numPackets m -> p ∈ sendQueue s' /\ sendReady s' = true /\
       trace (world s') = trace (world s)) /\
    (numPackets m = 1 -> exists d, packets m' !! 0 = Some d /\
       trace (world s') = trace (world s) ++
         [EvSend (ip dst) (Policy.u_priority policy) (packet_bytes d)])).
Proof.
  intros Hr [[Hp Hh] Hst] Hn Hs newId limit. eapply sendMessage_spec; try done.
  { by apply reachable_inv. }
  intros s' policy m' _ Hh' _ _ Hprio Hsent Hmulti Hone _. exists policy, m'.
  split; [exact Hh'|]. split; [exact Hsent|]. split; [exact Hprio|]. split; [exact Hmulti|exact Hone].
Qed.

(** A DONE completes the message it names if that is SENT; nothing else
    changes, and the packet is released. *)
Theorem handleDonePacket_completes packet s :
  reachable s ->
  wp (handleDonePacket packet) s (fun _ s' =>
    final_effect COMPLETED (Protocol.messageId (Protocol.done_common
      (read_header Protocol.DoneHeader packet))) s s' /\
    trace (world s') = trace (world s) ++ [EvRelease [pkt_id packet]]).
Proof. intros Hr. eapply wp_mono; [apply handleDonePacket_spec; by apply reachable_inv|]. by intros _ s' [_ ?]. Qed.

(** An ERROR makes the message it names FAILED if that is SENT. *)
Theorem handleErrorPacket_fails packet s :
  reachable s ->
  wp (handleErrorPacket packet) s (fun _ s' =>
    final_effect FAILED (Protocol.messageId (Protocol.error_common
      (read_header Protocol.ErrorHeader packet))) s s' /\
    trace (world s') = trace (world s) ++ [EvRelease [pkt_id packet]]).
Proof. intros Hr. eapply wp_mono; [apply handleErrorPacket_spec; by apply reachable_inv|]. by intros _ s' [_ ?]. Qed.

(** C18: A GRANT raises the granted packets of a message in progress to those that
    begin below its byte limit, never down; a limit so large that the code's rounding
    leaves the range of its integers grants nothing.  The other messages stay as they
    are, nothing is sent, and the GRANT is released. *)
Theorem handleGrantPacket_raises packet s :
  reachable s -> Forall Protocol.is_byte (payload packet) ->
  let header := read_header Protocol.GrantHeader packet in
  wp (handleGrantPacket packet) s (fun _ s' =>
    on_message (Protocol.messageId (Protocol.gh_common header))
      (grant_effect (Protocol.byteLimit header) (Protocol.gh_priority header)) s s' /\
    trace (world s') = trace (world s) ++ [EvRelease [pkt_id packet]]).
Proof.
  intros Hr Hb header. eapply wp_mono; [apply handleGrantPacket_spec; by apply reachable_inv|].
  intros _ s' (_ & Hon & Ht). split; [|done]. by apply Hon, (Protocol.read_le_range 22 4).
Qed.

(** C17: A RESEND in range raises the grant to its end; the packets of the range
    that were sent go out again, and a BUSY goes out when there are none.  They go out
    at the resend priority of the policy manager, its highest, whatever the priority they
    were first sent at, although a comment in the handler promises the original one.  A
    RESEND out of range is ignored. *)
Theorem handleResendPacket_resends packet p m s :
  reachable s -> Forall Protocol.is_byte (payload packet) ->
  let header := read_header Protocol.ResendHeader packet in
  let index := Protocol.rh_index header in
  let resendEnd := index + Protocol.rh_num header in
  heap s !! p = Some m -> state m <> NOT_STARTED ->
  id m = Protocol.messageId (Protocol.rh_common header) ->
  wp (handleResendPacket packet) s (fun _ s' =>
    on_message (id m) (resend_effect index resendEnd (Protocol.rh_priority header)) s s' /\
    exists fresh, trace (world s') = trace (world s) ++
      resend_reply index resendEnd (Policy.MAX_PRIORITY (policyManager s)) fresh m ++
      [EvRelease [pkt_id packet]]).
Proof.
  intros Hr Hb header index resendEnd Hp Hst Hid.
  eapply wp_mono; [apply handleResendPacket_spec; [by apply reachable_inv|by apply Protocol.read_le_range]|].
  intros _ s' (_ & Hon & Htr). rewrite Hid. split; [done|]. by apply (Htr p).
Qed.


(** [cancel] makes a started message CANCELED and takes it out of the queue. *)
Theorem cancelMessage_cancels p m s :
  reachable s -> heap s !! p = Some m ->
  wp (cancelMessage p) s (fun _ s' => heap s' = <[p := cancel_effect m]> (heap s) /\
    (p ∉ sendQueue s') /\ trace (world s') = trace (world s)).
Proof.
  intros Hr Hp. eapply wp_mono; [eapply cancelMessage_spec; [by apply reachable_inv|done..]|]. by intros _ s' [_ ?].
Qed.

(** Releasing a message destroys it and gives its packets back, unless it is
    in progress: then it lives until the last packet is sent. *)
Theorem dropMessage_drops p m s :
  reachable s -> heap s !! p = Some m ->
  wp (dropMessage p) s (fun _ s' =>
    if bool_decide (state m = IN_PROGRESS)
    then heap s' = <[p := m <| held := false |>]> (heap s) /\ trace (world s') = trace (world s)
    else heap s' = delete p (heap s) /\
      trace (world s') = trace (world s) ++ [EvRelease (packet_ids m)]).
Proof.
  intros Hr Hp. eapply wp_mono; [eapply dropMessage_spec; [by apply reachable_inv|done..]|]. by intros _ s' [_ ?].
Qed.

(** [checkMessageTimeouts] fails exactly the messages of the bucket whose
    timeout has elapsed (a completed one only loses its timeouts), and leaves
    no elapsed timeout. *)
Theorem checkMessageTimeouts_expires t b s :
  reachable s -> t < UINT64_MAX ->
  wp (checkMessageTimeouts t b) s (fun _ s' =>
    (forall q, q ∈ timeouts (messageTimeouts (messageBuckets s' b)) -> elapsed t q s' b = false) /\
    (forall q, heap s' !! q = expire_effect t b s q <$> heap s !! q) /\
    trace (world s') = trace (world s)).
Proof.
  intros Hr Ht. eapply wp_mono; [eapply checkMessageTimeouts_spec; [by apply reachable_inv|done..]|].
  by intros _ s' [_ ?].
Qed.

(** [checkPingTimeouts] changes no message, sends nothing but PINGs for
    messages that are neither completed nor failed, and leaves no elapsed
    timeout. *)
Theorem checkPingTimeouts_pings t b s :
  reachable s -> t <= now (world s) ->
  wp (checkPingTimeouts t b) s (fun _ s' => heap s' = heap s /\ sendQueue s' = sendQueue s /\
    (forall q, q ∈ timeouts (pingTimeouts (messageBuckets s' b)) -> ping_elapsed t q s' b = false) /\
    exists evs, trace (world s') = trace (world s) ++ evs /\ Forall (ping_event s) evs).
Proof.
  intros Hr Ht. eapply wp_mono; [eapply checkPingTimeouts_spec; [by apply reachable_inv|done..]|].
  by intros _ s' [_ ?].
Qed.

(** C8: [trySend] refines the scheduler [srpt]: each DATA packet belongs to a
    message with the fewest unsent bytes among those that have a granted packet
    left, and fits what the driver takes.  The run stops only when every message in the
    queue waits for a grant or the next packet does not fit, and then sendReady is set
    again.  Of the messages that were sent completely, exactly those that the
    application has released are destroyed, and nothing else happens.  A call that finds
    nothing to send, or another thread sending, changes nothing. *)
Theorem trySend_is_srpt s : reachable s -> wp trySend s (fun _ s' => try_sent s s').
Proof. intros Hr. apply trySend_spec. by apply reachable_inv. Qed.

(** C36: Two races between trySend and other threads.  trySend gives up the queue's lock
    before it takes the locks of the buckets: when an UNKNOWN arrives in between for a
    message that was just finished and that the application has released, the message is
    in the queue again when trySend destroys it, and the destructor of its queue node
    fails its assertion.  And trySend marks a message as sent before it takes it out of
    the queue: when the application releases the message between the two steps of
    [retire], it destroys a message that is still linked, while before the first step and
    after the second one the release is harmless. *)
Theorem trySend_races :
  (forall s busy sent s1 p m packet,
     reachable s -> trySend_queue s = Ok (Some (busy, sent), s1) ->
     p ∈ sendQueue s -> heap s1 !! p = Some m -> state m = SENT -> held m = false ->
     has_option (options m) NO_RETRY = false ->
     Protocol.messageId (Protocol.unknown_common (read_header Protocol.UnknownHeader packet)) = id m ->
     exists s2, handleUnknownPacket packet s1 = Ok (tt, s2) /\ for_each sent finish_sent s2 = Error NodeLinked) /\
  (forall s p suf m est busy r s1 m1,
     reachable s -> sendQueue s = p :: suf -> heap s !! p = Some m ->
     send_granted (Z.to_nat (packetsGranted (queuedMessageInfo m) - packetsSent (queuedMessageInfo m)))
       p est busy s = Ok (r, s1) ->
     heap s1 !! p = Some m1 -> packetsSent (queuedMessageInfo m1) = numPackets m1 ->
     is_ok (dropMessage p s1) = true /\
     drop_after (for_each (take 1 (retire_steps p)) (fun step => step)) p s1 = Error NodeLinked /\
     is_ok (drop_after (retire p) p s1) = true).
Proof.
  split.
  - intros s busy sent s1 p m packet Hr. apply unknown_between. by apply reachable_inv.
  - intros s p suf m est busy r s1 m1 Hr. apply drop_between. by apply reachable_inv.
Qed.
End props.

(** ** Witnesses *)

(** A message of two packets that is queued, and then released. *)
Definition ready_to_send : list Op :=
  [OpAlloc 5; OpAppend 1%positive (Sample.bytes 18); OpSend 1%positive Sample.peer NONE].
Definition released : list Op := ready_to_send ++ [OpDrop 1%positive].
Definition unknown_packet : Packet := Sample.incoming (Protocol.UnknownHeader_new Sample.first_id).
(** What an operation returns, and the state that it leads to. *)
Definition returned {A} (r : Result (A * Sender)) : option A :=
  match r with Ok (a, _) => Some a | Error _ => None end.
Definition ran {A} (r : Result (A * Sender)) : Sender :=
  match r with Ok (_, s) => s | Error _ => Sample.sender0 end.
Lemma ran_returned {A} (r : Result (A * Sender)) a : returned r = Some a -> r = Ok (a, ran r).
Proof. destruct r as [[b s]|]; [|done]. by intros [= ->]. Qed.

Definition reserved : list Op := [OpAlloc 5; OpReserve 1%positive 12; OpAppend 1%positive (Sample.bytes 9)].

Lemma allowed_calls_return_witness :
  exists s', run OpPoll (Sample.after Sample.sent) = Ok (tt, s') /\ reachable s'.
Proof. apply (allowed_calls_return OpPoll); [reach|exact I]. Defined.

Lemma send_queue_exact_witness :
  NoDup (sendQueue (Sample.after Sample.sent)).
Proof. apply (send_queue_exact (Sample.after Sample.sent)). reach. Defined.

Lemma buckets_exact_witness :
  let m := Sample.first Sample.sent in
  1%positive ∈ messages (messageBuckets (Sample.after Sample.sent) (getBucket (id m))).
Proof.
  apply (buckets_exact (Sample.after Sample.sent)); [reach|vm_compute; reflexivity|vm_compute; congruence].
Defined.

Lemma append_appends_witness :
  wp (append 1%positive (Sample.bytes 20)) (Sample.after Sample.build) (fun _ s' => exists m', heap s' = <[1%positive := m']> (heap (Sample.after Sample.build)) /\
    data m' = data (Sample.first Sample.build) ++
      take (Z.to_nat (fitting (Sample.first Sample.build) (zlength (Sample.bytes 20)))) (Sample.bytes 20) /\
    trace (world s') = trace (world (Sample.after Sample.build))).
Proof. apply (append_appends 1%positive); [reach|split; [split; vm_compute; reflexivity|vm_compute; reflexivity]|vm_compute; reflexivity]. Defined.

Lemma reserve_reserves_witness :
  wp (reserve 1%positive 12) (Sample.after [OpAlloc 5]) (fun _ s' => exists m', heap s' = <[1%positive := m']> (heap (Sample.after [OpAlloc 5])) /\
    start m' = start (Sample.first [OpAlloc 5]) + fitting (Sample.first [OpAlloc 5]) 12 /\
    messageLength m' = messageLength (Sample.first [OpAlloc 5]) + fitting (Sample.first [OpAlloc 5]) 12 /\
    trace (world s') = trace (world (Sample.after [OpAlloc 5]))).
Proof. apply (reserve_reserves 1%positive); [reach|split; [split; vm_compute; reflexivity|vm_compute; reflexivity]|vm_compute; reflexivity|lia|vm_compute; reflexivity]. Defined.

Lemma prepend_prepends_witness :
  wp (prepend 1%positive (Sample.bytes 12)) (Sample.after reserved) (fun _ s' => exists m', heap s' = <[1%positive := m']> (heap (Sample.after reserved)) /\
    data m' = Sample.bytes 12 ++ data (Sample.first reserved) /\
    trace (world s') = trace (world (Sample.after reserved))).
Proof. apply (prepend_prepends 1%positive); [reach|split; [split; vm_compute; reflexivity|vm_compute; reflexivity]|vm_compute; congruence]. Defined.

Lemma sendMessage_sends_witness :
  let s := Sample.after Sample.build in
  let m := Sample.first Sample.build in
  wp (sendMessage 1%positive Sample.peer NONE) s (fun _ s' => exists policy m',
    heap s' = <[1%positive := m']> (heap s) /\
    sent_as 1%positive (Protocol.mkMessageId (transportId s) (nextMessageSequenceNumber s)) Sample.peer NONE
      (packets_for (Policy.RTT_BYTES (policyManager s))) policy m m' /\
    0 <= Policy.u_priority policy <= Policy.MAX_PRIORITY (policyManager s) /\
    (2 <= numPackets m -> 1%positive ∈ sendQueue s' /\ sendReady s' = true /\
       trace (world s') = trace (world s)) /\
    (numPackets m = 1 -> exists d, packets m' !! 0 = Some d /\
       trace (world s') = trace (world s) ++
         [EvSend (ip Sample.peer) (Policy.u_priority policy) (packet_bytes d)])).
Proof. apply (sendMessage_sends 1%positive); [reach|split; [split; vm_compute; reflexivity|vm_compute; reflexivity]|vm_compute; reflexivity|vm_compute; split; congruence]. Defined.

Lemma handleDonePacket_completes_witness :
  let s := Sample.after Sample.sent_short in
  let packet := Sample.incoming (Protocol.DoneHeader_new Sample.first_id) in
  wp (handleDonePacket packet) s (fun _ s' =>
    final_effect COMPLETED (Protocol.messageId (Protocol.done_common
      (read_header Protocol.DoneHeader packet))) s s' /\
    trace (world s') = trace (world s) ++ [EvRelease [pkt_id packet]]).
Proof. apply handleDonePacket_completes. reach. Defined.

Lemma handleErrorPacket_fails_witness :
  let s := Sample.after Sample.sent_short in
  let packet := Sample.incoming (Protocol.ErrorHeader_new Sample.first_id) in
  wp (handleErrorPacket packet) s (fun _ s' =>
    final_effect FAILED (Protocol.messageId (Protocol.error_common
      (read_header Protocol.ErrorHeader packet))) s s' /\
    trace (world s') = trace (world s) ++ [EvRelease [pkt_id packet]]).
Proof. apply handleErrorPacket_fails. reach. Defined.

Lemma handleGrantPacket_raises_witness :
  let s := Sample.after Sample.sent in
  let packet := Sample.incoming (Protocol.GrantHeader_new Sample.first_id 27 3) in
  let header := read_header Protocol.GrantHeader packet in
  wp (handleGrantPacket packet) s (fun _ s' =>
    on_message (Protocol.messageId (Protocol.gh_common header))
      (grant_effect (Protocol.byteLimit header) (Protocol.gh_priority header)) s s' /\
    trace (world s') = trace (world s) ++ [EvRelease [pkt_id packet]]).
Proof. apply handleGrantPacket_raises; [reach|]. apply (bool_decide_unpack _); vm_compute; exact I. Defined.

Lemma handleResendPacket_resends_witness :
  let s := Sample.after (Sample.sent ++ [OpPoll]) in
  let m := Sample.first (Sample.sent ++ [OpPoll]) in
  let packet := Sample.incoming (Protocol.ResendHeader_new Sample.first_id 0 3 3) in
  let header := read_header Protocol.ResendHeader packet in
  let index := Protocol.rh_index header in
  let resendEnd := index + Protocol.rh_num header in
  wp (handleResendPacket packet) s (fun _ s' =>
    on_message (id m) (resend_effect index resendEnd (Protocol.rh_priority header)) s s' /\
    exists fresh, trace (world s') = trace (world s) ++
      resend_reply index resendEnd (Policy.MAX_PRIORITY (policyManager s)) fresh m ++
      [EvRelease [pkt_id packet]]).
Proof. 
  apply (handleResendPacket_resends _ 1%positive); [reach|  | vm_compute; reflexivity
    |vm_compute; congruence|vm_compute; reflexivity].
  apply (bool_decide_unpack _); vm_compute; exact I.
 Defined.


Lemma cancelMessage_cancels_witness :
  wp (cancelMessage 1%positive) (Sample.after Sample.sent) (fun _ s' => heap s' = <[1%positive := cancel_effect (Sample.first Sample.sent)]> (heap (Sample.after Sample.sent)) /\
    (1%positive ∉ sendQueue s') /\ trace (world s') = trace (world (Sample.after Sample.sent))).
Proof. apply (cancelMessage_cancels 1%positive); [reach|vm_compute; reflexivity]. Defined.

Lemma dropMessage_drops_witness :
  let s := Sample.after Sample.sent in
  let m := Sample.first Sample.sent in
  wp (dropMessage 1%positive) s (fun _ s' =>
    if bool_decide (state m = IN_PROGRESS)
    then heap s' = <[1%positive := m <| held := false |>]> (heap s) /\ trace (world s') = trace (world s)
    else heap s' = delete 1%positive (heap s) /\
      trace (world s') = trace (world s) ++ [EvRelease (packet_ids m)]).
Proof. apply (dropMessage_drops 1%positive); [reach|vm_compute; reflexivity]. Defined.

Lemma checkMessageTimeouts_expires_witness :
  let s := Sample.after Sample.sent in
  wp (checkMessageTimeouts 500 0) s (fun _ s' =>
    (forall q, q ∈ timeouts (messageTimeouts (messageBuckets s' 0)) -> elapsed 500 q s' 0 = false) /\
    (forall q, heap s' !! q = expire_effect 500 0 s q <$> heap s !! q) /\
    trace (world s') = trace (world s)).
Proof. apply checkMessageTimeouts_expires; [reach|vm_compute; reflexivity]. Defined.

Lemma checkPingTimeouts_pings_witness :
  let s := Sample.after Sample.sent in
  wp (checkPingTimeouts 1 0) s (fun _ s' => heap s' = heap s /\ sendQueue s' = sendQueue s /\
    (forall q, q ∈ timeouts (pingTimeouts (messageBuckets s' 0)) -> ping_elapsed 1 q s' 0 = false) /\
    exists evs, trace (world s') = trace (world s) ++ evs /\ Forall (ping_event s) evs).
Proof. apply checkPingTimeouts_pings; [reach|vm_compute; congruence]. Defined.

Lemma trySend_is_srpt_witness :
  wp trySend (Sample.after Sample.sent) (fun _ s' => try_sent (Sample.after Sample.sent) s').
Proof. apply trySend_is_srpt. reach. Defined.

Lemma trySend_races_witness :
  (exists s2, handleUnknownPacket unknown_packet (ran (trySend_queue (Sample.after released))) = Ok (tt, s2) /\
     for_each [Sample.first_id] finish_sent s2 = Error NodeLinked) /\
  (let s := Sample.after ready_to_send in
   let s1 := ran (send_granted 2 1%positive 0 false s) in
   is_ok (dropMessage 1%positive s1) = true /\
   drop_after (for_each (take 1 (retire_steps 1%positive)) (fun step => step)) 1%positive s1 = Error NodeLinked /\
   is_ok (drop_after (retire 1%positive) 1%positive s1) = true).
Proof.
  split.
  - eapply (proj1 trySend_races (Sample.after released) true [Sample.first_id] _ 1%positive); [reach|apply ran_returned; vm_compute; reflexivity| |vm_compute; reflexivity..].
    apply (bool_decide_unpack _); vm_compute; exact I.
  - eapply (proj2 trySend_races (Sample.after ready_to_send) 1%positive [] _ 0 false (80, true));
      [reach|vm_compute; reflexivity|vm_compute; reflexivity|apply ran_returned; vm_compute; reflexivity|vm_compute; reflexivity..].
Defined.

End SenderProps.
