(* ===== verification/ReceiverMessage.v ===== *)
(** * ReceiverMessage: assembling an incoming message (src/src/Receiver.h,
    src/src/Receiver.cc, class [Receiver::Message])

    An incoming message collects its packets by index, in whatever order they
    arrive.  [get] copies bytes out of them.  [remaining_bytes] is what the
    scheduler's [bytesRemaining] counts down; [complete] says that no packet is
    missing.  The packets of a conforming sender are described by [chunk]. *)

From S2P Require Import Prelude Util Perf Protocol Driver SenderMessage.
Import Driver.

Module ReceiverMessage.

Abbreviation PACKET_DATA_LENGTH := SenderMessage.PACKET_DATA_LENGTH.
Abbreviation TRANSPORT_HEADER_LENGTH := SenderMessage.TRANSPORT_HEADER_LENGTH.
Abbreviation packets_for := SenderMessage.packets_for.
Abbreviation byte_at := SenderMessage.byte_at.

Definition MAX_MESSAGE_PACKETS : Z := 1024.

Inductive State := IN_PROGRESS | COMPLETED | DROPPED.
#[global] Instance State_eq_dec : EqDecision State.
Proof. solve_decision. Defined.

(** [Receiver::ScheduledMessageInfo]; [peer] is the peer whose list holds the
    message. *)
Record ScheduledMessageInfo := mkScheduledMessageInfo {
  s_messageLength : Z;
  bytesRemaining : Z;
  bytesGranted : Z;
  priority : Z;
  peer : option IpAddress
}.
#[global] Instance eta_ScheduledMessageInfo : Eta ScheduledMessageInfo := fun r =>
  mkScheduledMessageInfo (s_messageLength r) (bytesRemaining r) (bytesGranted r) (priority r) (peer r).

(** [Receiver::Message]; [packets] holds the entries that [occupied] marks. *)
Record Message := mkMessage {
  id : Protocol.MessageId;
  source : SocketAddress;
  numExpectedPackets : Z;
  numUnscheduledPackets : Z;
  scheduled : bool;
  start : Z;
  messageLength : Z;
  numPackets : Z;
  packets : gmap Z Packet;
  state : State;
  scheduledMessageInfo : ScheduledMessageInfo
}.
#[global] Instance eta_Message : Eta Message := fun r =>
  mkMessage (id r) (source r) (numExpectedPackets r) (numUnscheduledPackets r) (scheduled r)
    (start r) (messageLength r) (numPackets r) (packets r) (state r) (scheduledMessageInfo r).

Section methods.
Context `{Driver}.

(** [ScheduledMessageInfo::ScheduledMessageInfo(message, length)]. *)
Definition ScheduledMessageInfo_new (length : Z) : ScheduledMessageInfo :=
  mkScheduledMessageInfo length length 0 0 None.

(** [Message::Message(receiver, driver, ..., messageLength, id, source,
    numUnscheduledPackets)]; [length] is the [size_t] parameter. *)
Definition Message_new (length : Z) (i : Protocol.MessageId) (src : SocketAddress)
    (numUnscheduled : Z) : Message :=
  let numExpected := i32 (u64 (length + PACKET_DATA_LENGTH - 1) / PACKET_DATA_LENGTH) in
  mkMessage i src numExpected numUnscheduled (numUnscheduled <? numExpected) 0 (i32 length) 0 ∅
    IN_PROGRESS (ScheduledMessageInfo_new (i32 length)).

(** [getPacket(index)]; [occupied.test] throws beyond the array. *)
Definition getPacket (m : Message) (index : Z) : Result (option Packet) :=
  if (0 <=? index) && (index <? MAX_MESSAGE_PACKETS) then Ok (packets m !! index)
  else Error OutOfRange.

(** [setPacket(index, packet)]: the message and whether the packet was stored. *)
Definition setPacket (index : Z) (packet : Packet) (m : Message) : Result (bool * Message) :=
  found ← getPacket m index;
  match found with
  | Some _ => mret (false, m)
  | None => mret (true, m <| packets ::= <[index := packet]> |> <| numPackets ::= fun n => n + 1 |>)
  end.

(** The copy loop of [get]; [destination] holds the bytes copied so far. *)
Fixpoint get_loop {St} (fuel : nat) (m : Message) (count packetIndex packetOffset bytesCopied : Z)
    (destination : list Z) : M St (list Z) :=
  if bytesCopied <? count then
    match fuel with
    | O => fault OutOfFuel
    | S fuel' =>
        let bytesToCopy := Z.min (count - bytesCopied) (PACKET_DATA_LENGTH - packetOffset) in
        packet ← lift (getPacket m packetIndex);
        match packet with
        | None => mret destination
        | Some packet =>
            get_loop fuel' m count (packetIndex + 1) 0 (bytesCopied + bytesToCopy)
              (destination ++ slice (packetOffset + TRANSPORT_HEADER_LENGTH) bytesToCopy (payload packet))
        end
    end
  else mret destination.

(** [get(offset, destination, count)]: the bytes copied. *)
Definition Message_get {St} (m : Message) (offset count : Z) : M St (list Z) :=
  _offset ← Util.downCast_int_of_size offset;
  _count ← Util.downCast_int_of_size count;
  let realOffset := i32 (_offset + start m) in
  if messageLength m <=? realOffset then mret []
  else
    let _count := if messageLength m <? i32 (realOffset + _count) then messageLength m - realOffset
                  else _count in
    get_loop (Z.to_nat _count) m _count (realOffset ÷ PACKET_DATA_LENGTH)
      (Z.rem realOffset PACKET_DATA_LENGTH) 0 [].

(** [length()]. *)
Definition message_length {St} (m : Message) : M St Z :=
  Util.downCast_size_of_int (messageLength m - start m).

(** [strip(count)]. *)
Definition Message_strip {St} (count : Z) (m : Message) : M St Message :=
  _count ← Util.downCast_int_of_size count;
  mret (m <| start := Z.min (i32 (start m + _count)) (messageLength m) |>).

(** [~Message()]: the calls of [releasePackets], one per contiguous range of
    packets.  [num] is the range so far, [found] the count of packets seen. *)
Fixpoint release_ranges (m : Message) (indices : list Z) (range : list positive) (found : Z)
    : list (list positive) :=
  match indices with
  | [] => if bool_decide (range = []) then [] else [range]
  | i :: rest =>
      if found <? numPackets m then
        match packets m !! i with
        | Some p => release_ranges m rest (range ++ [pkt_id p]) (found + 1)
        | None => if bool_decide (range = []) then release_ranges m rest [] found
                  else range :: release_ranges m rest [] found
        end
      else if bool_decide (range = []) then [] else [range]
  end.
Definition release_all (m : Message) : list (list positive) :=
  release_ranges m (seqZ 0 MAX_MESSAGE_PACKETS) [] 0.
End methods.

(** ** What a message holds *)

Section contents.
Context `{DriverLaws}.
Implicit Types (m : Message) (ps : gmap Z Packet) (p : Packet) (i k : Z).

(** The bytes that packet [i] of a message of [len] bytes carries. *)
Definition chunk (len i : Z) : Z := Z.min PACKET_DATA_LENGTH (len - i * PACKET_DATA_LENGTH).

Definition missing ps (i : Z) : bool := bool_decide (ps !! i = None).
(** The bytes of the packets that are missing. *)
Definition remaining_bytes m : Z :=
  Z.of_nat (sum_list_with (fun i => Z.to_nat (if missing (packets m) i then chunk (messageLength m) i else 0))
    (seqZ 0 (numExpectedPackets m))).
Definition complete m : Prop := forall i, 0 <= i < numExpectedPackets m -> is_Some (packets m !! i).

Record message_ok m : Prop := {
  mo_len : 0 < messageLength m <= SenderMessage.maxMessageLength;
  mo_expected : numExpectedPackets m = packets_for (messageLength m);
  mo_unscheduled : 0 <= numUnscheduledPackets m <= MAX_MESSAGE_PACKETS;
  mo_scheduled : scheduled m = (numUnscheduledPackets m <? numExpectedPackets m);
  mo_start : 0 <= start m <= messageLength m;
  mo_count : numPackets m = Z.of_nat (size (packets m));
  mo_packet : forall i p, packets m !! i = Some p ->
    0 <= i < numExpectedPackets m /\ length p = TRANSPORT_HEADER_LENGTH + chunk (messageLength m) i /\
    zlength (payload p) = getMaxPayloadSize;
  mo_state : state m = IN_PROGRESS <-> numPackets m < numExpectedPackets m;
  mo_info_length : s_messageLength (scheduledMessageInfo m) = messageLength m;
  mo_granted : 0 <= bytesGranted (scheduledMessageInfo m) <= messageLength m;
  mo_priority : 0 <= priority (scheduledMessageInfo m) < 2 ^ 8;
  mo_remaining : peer (scheduledMessageInfo m) <> None ->
    bytesRemaining (scheduledMessageInfo m) = remaining_bytes m;
  mo_remaining_range : 0 <= bytesRemaining (scheduledMessageInfo m) <= messageLength m
}.

(** The message the application sees. *)
Definition data m : list Z :=
  omap (byte_at (packets m)) (seqZ (start m) (messageLength m - start m)).

Lemma expected_range m : message_ok m -> 0 < numExpectedPackets m <= MAX_MESSAGE_PACKETS.
Proof.
  intros [Hl He _ _ _ _ _ _ _ _ _ _ _]. rewrite He. pose proof SenderMessage.data_length_range.
  pose proof (SenderMessage.packets_for_bound (messageLength m)) as Hb.
  unfold SenderMessage.MAX_MESSAGE_PACKETS in Hb. unfold MAX_MESSAGE_PACKETS.
  split; [|lia]. unfold SenderMessage.packets_for. apply Z.div_str_pos. lia.
Qed.

Lemma chunk_range len i :
  0 < len -> 0 <= i < packets_for len -> 0 < chunk len i <= PACKET_DATA_LENGTH.
Proof.
  intros Hl Hi. unfold chunk. pose proof SenderMessage.data_length_range.
  unfold SenderMessage.packets_for in Hi.
  destruct (SenderMessage.data_div_mod (len + PACKET_DATA_LENGTH - 1)). nia.
Qed.

(** All packets together carry the message. *)
Lemma chunk_sum len :
  0 < len -> sum_list_with (fun i => Z.to_nat (chunk len i)) (seqZ 0 (packets_for len)) = Z.to_nat len.
Proof.
  intros Hl. pose proof SenderMessage.data_length_range as HP.
  assert (forall n : nat, Z.of_nat n <= packets_for len ->
    sum_list_with (fun i => Z.to_nat (chunk len i)) (seqZ 0 (Z.of_nat n)) =
      Z.to_nat (Z.min len (Z.of_nat n * PACKET_DATA_LENGTH))) as Hn.
  { induction n as [|n IH]; intros Hle; [by rewrite Z.min_r by lia|].
    rewrite seqZ_S, sum_list_with_app, IH by lia. cbn [sum_list_with].
    rewrite Z.add_0_l. pose proof (chunk_range len (Z.of_nat n) Hl ltac:(lia)) as Hc.
    unfold chunk in *. nia. }
  assert (0 <= packets_for len) by (unfold SenderMessage.packets_for; apply Z.div_pos; lia).
  specialize (Hn (Z.to_nat (packets_for len))). rewrite Z2Nat.id in Hn by done.
  rewrite Hn by done. f_equal. apply Z.min_l. unfold SenderMessage.packets_for.
  destruct (SenderMessage.data_div_mod (len + PACKET_DATA_LENGTH - 1)). nia.
Qed.

Lemma rcv_message_ok_new len (msgId : Protocol.MessageId) src lim :
  0 < len <= SenderMessage.maxMessageLength -> 0 <= lim <= MAX_MESSAGE_PACKETS ->
  message_ok (Message_new len msgId src lim).
Proof.
  intros Hl Hlim. pose proof SenderMessage.data_length_range as HP.
  pose proof SenderMessage.maxMessageLength_eq as Hmax. unfold SenderMessage.MAX_MESSAGE_PACKETS in Hmax.
  assert (i32 (u64 (len + PACKET_DATA_LENGTH - 1) / PACKET_DATA_LENGTH) = packets_for len) as He.
  { rewrite u64_small by lia. fold (packets_for len).
    pose proof (SenderMessage.packets_for_bound len). unfold SenderMessage.MAX_MESSAGE_PACKETS in *.
    rewrite i32_small; lia. }
  assert (0 < packets_for len).
  { unfold SenderMessage.packets_for. apply Z.div_str_pos. lia. }
  unfold Message_new. rewrite He, i32_small by lia.
  split; cbn; try done; try lia.
Qed.

(** ** Receiving a packet *)

(** The message after [packet] was stored at [i] and the schedule told. *)
Definition stored i p m : Message :=
  m <| packets ::= <[i := p]> |> <| numPackets ::= fun n => n + 1 |>.
Definition counted (n : Z) m : Message :=
  if bool_decide (peer (scheduledMessageInfo m) = None) then m
  else m <| scheduledMessageInfo ::= fun s => s <| bytesRemaining ::= fun r => r - n |> |>.
Definition finished m : Message :=
  if numPackets m <? numExpectedPackets m then m else m <| state := COMPLETED |>.
Definition received i p m : Message :=
  finished (counted (length p - TRANSPORT_HEADER_LENGTH) (stored i p m)).

Lemma size_bound ps n :
  (forall i p, ps !! i = Some p -> 0 <= i < n) ->
  Z.of_nat (size ps) <= Z.max 0 n /\
  (0 <= n -> Z.of_nat (size ps) = n <-> forall i, 0 <= i < n -> is_Some (ps !! i)).
Proof.
  intros Hr. set (all := list_to_set (seqZ 0 n) : gset Z).
  assert (size all = Z.to_nat n) as Hall.
  { unfold all. rewrite size_list_to_set by apply NoDup_seqZ. apply length_seqZ. }
  assert (dom ps ⊆ all) as Hsub.
  { intros i [p Hp]%elem_of_dom. apply elem_of_list_to_set, elem_of_seqZ. apply Hr in Hp. lia. }
  rewrite <- (size_dom (D := gset Z)). split.
  - apply subseteq_size in Hsub. lia.
  - intros Hn. split.
    + intros Hs i Hi. apply (elem_of_dom (D := gset Z)).
      rewrite (set_subseteq_size_eq (dom ps) all Hsub) by lia.
      apply elem_of_list_to_set, elem_of_seqZ. lia.
    + intros Hi. assert (all ⊆ dom ps) as Hsub2.
      { intros i [? ?]%elem_of_list_to_set%elem_of_seqZ. apply elem_of_dom, Hi. lia. }
      apply subseteq_size in Hsub, Hsub2. lia.
Qed.

Lemma complete_count m : message_ok m -> complete m <-> numPackets m = numExpectedPackets m.
Proof.
  intros Hok. pose proof (expected_range m Hok). destruct Hok.
  destruct (size_bound (packets m) (numExpectedPackets m)) as [_ Hc].
  - intros i p Hp. by apply mo_packet0 in Hp as [? _].
  - unfold complete. rewrite mo_count0. symmetry. apply Hc. lia.
Qed.

Lemma complete_state m : message_ok m -> complete m <-> state m <> IN_PROGRESS.
Proof.
  intros Hok. rewrite complete_count by done. pose proof (expected_range m Hok). destruct Hok.
  destruct (size_bound (packets m) (numExpectedPackets m)) as [Hb _].
  - intros i p Hp. by apply mo_packet0 in Hp as [? _].
  - rewrite mo_state0. lia.
Qed.

Lemma remaining_stored i p m :
  0 <= i < numExpectedPackets m -> packets m !! i = None -> 0 <= chunk (messageLength m) i ->
  remaining_bytes (stored i p m) = remaining_bytes m - chunk (messageLength m) i.
Proof.
  intros Hi Hp Hc. unfold remaining_bytes, stored, over; cbn [packets messageLength numExpectedPackets].
  set (n := numExpectedPackets m) in *.
  assert (seqZ 0 n = seqZ 0 i ++ i :: seqZ (i + 1) (n - i - 1)) as ->.
  { replace n with (i + (n - i)) at 1 by lia. rewrite seqZ_app by lia. f_equal.
    rewrite seqZ_cons by lia. f_equal; f_equal; lia. }
  rewrite !sum_list_with_app. cbn [sum_list_with].
  assert (forall l, i ∉ l -> sum_list_with (fun j => Z.to_nat (if missing (<[i := p]> (packets m)) j
      then chunk (messageLength m) j else 0)) l =
    sum_list_with (fun j => Z.to_nat (if missing (packets m) j then chunk (messageLength m) j else 0)) l) as He.
  { induction l as [|j l IH]; [done|]. intros [Hij Hl]%not_elem_of_cons. simpl. rewrite IH by done.
    unfold missing. by rewrite lookup_insert_ne. }
  rewrite !He by (rewrite elem_of_seqZ; lia). unfold missing at 2 5.
  rewrite lookup_insert_eq, Hp, (bool_decide_false (Some p = None)), (bool_decide_true (None = None)) by done.
  lia.
Qed.

Lemma received_ok i p m :
  message_ok m -> packets m !! i = None -> 0 <= i < numExpectedPackets m ->
  length p = TRANSPORT_HEADER_LENGTH + chunk (messageLength m) i ->
  zlength (payload p) = getMaxPayloadSize -> message_ok (received i p m).
Proof.
  intros Hok Hp Hi Hlen Hpay. pose proof (expected_range m Hok) as He.
  assert (state m = IN_PROGRESS) as Hst.
  { destruct (decide (state m = IN_PROGRESS)) as [|Hns]; [done|].
    apply (complete_state m Hok) in Hns. destruct (Hns i Hi) as [? Hq]. congruence. }
  destruct Hok as [H1 H2 H3 H4 H5 H6 H7 H8 H9 H10 H11 H12 H13].
  assert (0 < chunk (messageLength m) i <= PACKET_DATA_LENGTH) as Hc by (apply chunk_range; [lia|by rewrite <- H2]).
  pose proof (remaining_stored i p m Hi Hp ltac:(lia)) as Hrem.
  assert (0 <= remaining_bytes (stored i p m)) as Hpos by (unfold remaining_bytes; lia).
  assert (numPackets (stored i p m) = Z.of_nat (size (packets (stored i p m)))) as Hcount.
  { unfold stored, over; cbn [numPackets packets]. rewrite map_size_insert_None by done. lia. }
  assert (forall j q, packets (stored i p m) !! j = Some q -> 0 <= j < numExpectedPackets m /\
    length q = TRANSPORT_HEADER_LENGTH + chunk (messageLength m) j /\ zlength (payload q) = getMaxPayloadSize) as Hpk.
  { intros j q Hq. change (<[i := p]> (packets m) !! j = Some q) in Hq.
    apply lookup_insert_Some in Hq as [[<- <-]|[_ Hq]]; [done|by apply H7]. }
  assert (peer (scheduledMessageInfo m) <> None -> bytesRemaining (scheduledMessageInfo m) -
    (length p - TRANSPORT_HEADER_LENGTH) = remaining_bytes (stored i p m)) as Hbr.
  { intros Hne. rewrite H12, Hlen, Hrem by done. lia. }
  assert (peer (scheduledMessageInfo m) <> None -> 0 <= bytesRemaining (scheduledMessageInfo m) -
    (length p - TRANSPORT_HEADER_LENGTH) <= messageLength m) as Hbr2.
  { intros Hne. specialize (Hbr Hne). lia. }
  unfold received, finished, counted.
  case_bool_decide as Hpeer; case_bool; split; try done;
    change (peer (scheduledMessageInfo (stored i p m))) with (peer (scheduledMessageInfo m)) in *;
    unfold stored, over in *; cbn in *; try done; try tauto; try lia;
    try (split; [done|lia]); try (by apply Hbr); by apply Hbr2.
Qed.

Lemma remaining_new len (msgId : Protocol.MessageId) src lim :
  0 < len <= SenderMessage.maxMessageLength -> 0 <= lim <= MAX_MESSAGE_PACKETS ->
  remaining_bytes (Message_new len msgId src lim) = len.
Proof.
  intros Hl Hlim. pose proof (rcv_message_ok_new len msgId src lim Hl Hlim) as [H1 H2 _ _ _ _ _ _ H9 _ _ _ _].
  pose proof SenderMessage.data_length_range.
  pose proof SenderMessage.maxMessageLength_eq as Hmax. unfold SenderMessage.MAX_MESSAGE_PACKETS in Hmax.
  assert (messageLength (Message_new len msgId src lim) = len) as Hlen by (by apply i32_small; lia).
  unfold remaining_bytes. rewrite H2, Hlen. unfold missing. cbn [packets Message_new].
  transitivity (Z.of_nat (Z.to_nat len)); [|lia]. f_equal. by rewrite <- chunk_sum by lia.
Qed.

(** ** Reading the message back *)

Definition range ps (a n : Z) : list Z := omap (byte_at ps) (seqZ a n).

Lemma range_app ps a n k : 0 <= n -> 0 <= k -> range ps a (n + k) = range ps a n ++ range ps (a + n) k.
Proof. intros. unfold range. by rewrite seqZ_app, omap_app by done. Qed.

Lemma zlength_range ps a n :
  0 <= n -> (forall k, a <= k < a + n -> is_Some (byte_at ps k)) -> zlength (range ps a n) = n.
Proof.
  intros Hn. rewrite <- (Z2Nat.id n) by done. generalize (Z.to_nat n) as k. clear Hn n. induction k as [|k IH]; intros Hb; [done|].
  unfold range. rewrite seqZ_S, omap_app, zlength_app. fold (range ps a (Z.of_nat k)).
  rewrite IH by (intros; apply Hb; lia). cbn [omap list_omap].
  destruct (Hb (a + Z.of_nat k)) as [b ->]; [lia|]. unfold zlength. simpl. lia.
Qed.

Lemma slice_range ps a len off n :
  0 <= off -> 0 <= n -> off + n <= len -> (forall k, a <= k < a + len -> is_Some (byte_at ps k)) ->
  slice off n (range ps a len) = range ps (a + off) n.
Proof.
  intros Ho Hn Hl Hb. replace len with (off + (n + (len - off - n))) by lia.
  rewrite !range_app by lia.
  assert (zlength (range ps a off) = off) as Hz by (apply zlength_range; [lia|intros; apply Hb; lia]).
  assert (zlength (range ps (a + off) n) = n) as Hz' by (apply zlength_range; [lia|intros; apply Hb; lia]).
  rewrite slice_app_r by (rewrite Hz; lia). rewrite Hz, Z.sub_diag, slice_app_l by lia.
  apply slice_all. lia.
Qed.

(** The bytes of a message are in the packet of their position. *)
Lemma range_chunk ps pos n p :
  0 <= pos -> 0 <= n <= PACKET_DATA_LENGTH - pos mod PACKET_DATA_LENGTH ->
  ps !! (pos / PACKET_DATA_LENGTH) = Some p -> zlength (payload p) = getMaxPayloadSize ->
  range ps pos n = slice (pos mod PACKET_DATA_LENGTH + TRANSPORT_HEADER_LENGTH) n (payload p).
Proof.
  intros Hpos Hn Hp Hpay. pose proof SenderMessage.data_length_range as HP.
  pose proof SenderMessage.data_length_payload as Hsum. destruct (SenderMessage.data_div_mod pos) as [Hdm Hm].
  assert (TRANSPORT_HEADER_LENGTH = 31) as HT by done.
  set (l := slice _ n (payload p)).
  assert (zlength l = n) as Hzl by (unfold l; rewrite zlength_slice; lia).
  unfold range. rewrite <- Hzl at 1. apply omap_seqZ. intros i Hi.
  assert (Z.of_nat i < n) by (unfold zlength in Hzl; lia).
  destruct (SenderMessage.data_div_mod (pos + Z.of_nat i)) as [Hdm' Hm'].
  assert ((pos + Z.of_nat i) / PACKET_DATA_LENGTH = pos / PACKET_DATA_LENGTH) as Hdiv by nia.
  unfold SenderMessage.byte_at, l. rewrite Hdiv, Hp. simpl. rewrite lookup_slice by lia. f_equal. nia.
Qed.

Lemma complete_bytes m k :
  message_ok m -> complete m -> 0 <= k < messageLength m -> is_Some (byte_at (packets m) k).
Proof.
  intros Hok Hc Hk. destruct Hok as [H1 H2 _ _ _ _ H7 _ _ _ _ _ _].
  pose proof (SenderMessage.packets_for_covers (messageLength m) k Hk) as Hr. rewrite <- H2 in Hr.
  destruct (Hc _ Hr) as [p Hp]. destruct (H7 _ _ Hp) as (_ & _ & Hpay).
  unfold SenderMessage.byte_at. rewrite Hp. simpl. apply lookup_lt_is_Some.
  destruct (SenderMessage.data_div_mod k). pose proof SenderMessage.data_length_payload.
  assert (TRANSPORT_HEADER_LENGTH = 31) by done. unfold zlength in Hpay. lia.
Qed.

Lemma rcv_getPacket_ok m i : 0 <= i < MAX_MESSAGE_PACKETS -> getPacket m i = Ok (packets m !! i).
Proof.
  intros. unfold getPacket. replace (0 <=? i) with true by (symmetry; apply Z.leb_le; lia).
  by replace (i <? MAX_MESSAGE_PACKETS) with true by (symmetry; apply Z.ltb_lt; lia).
Qed.

Lemma get_loop_spec {St} fuel m count pos d dest (s : St) :
  message_ok m -> complete m -> 0 <= pos -> 0 <= d <= count -> pos + count <= messageLength m ->
  (Z.to_nat (count - d) <= fuel)%nat ->
  get_loop fuel m count ((pos + d) / PACKET_DATA_LENGTH) ((pos + d) mod PACKET_DATA_LENGTH) d dest s =
    Ok (dest ++ range (packets m) (pos + d) (count - d), s).
Proof.
  intros Hok Hc Hpos. pose proof SenderMessage.data_length_range as HP.
  pose proof (expected_range m Hok) as Hexp.
  revert d dest. induction fuel as [|fuel IH]; intros d dest Hd Hl Hf; simpl.
  - replace (d <? count) with false by (symmetry; apply Z.ltb_ge; lia).
    replace (count - d) with 0 by lia. unfold range. simpl. by rewrite app_nil_r.
  - destruct (Z.ltb_spec d count) as [Hlt|Hge].
    2:{ replace (count - d) with 0 by lia. unfold range. simpl. by rewrite app_nil_r. }
    pose proof Hok as [H1 H2 _ _ _ _ H7 _ _ _ _ _ _].
    pose proof (SenderMessage.packets_for_covers (messageLength m) (pos + d) ltac:(lia)) as Hr.
    rewrite <- H2 in Hr. destruct (Hc _ Hr) as [p Hp]. destruct (H7 _ _ Hp) as (_ & _ & Hpay).
    unfold mbind, M_bind, lift. rewrite rcv_getPacket_ok, Hp by lia.
    destruct (SenderMessage.data_div_mod (pos + d)) as [Hdm Hm].
    set (n := Z.min (count - d) (PACKET_DATA_LENGTH - (pos + d) mod PACKET_DATA_LENGTH)).
    rewrite <- (range_chunk (packets m) (pos + d) n p) by (done || lia).
    destruct (decide (d + n = count)) as [Heq|Hne].
    + assert (n = count - d) as Hn by lia. rewrite Hn.
      replace (d + (count - d)) with count by lia.
      destruct fuel; simpl; replace (count <? count) with false by (symmetry; apply Z.ltb_irrefl); done.
    + assert (n = PACKET_DATA_LENGTH - (pos + d) mod PACKET_DATA_LENGTH) as Hn by lia.
      assert ((pos + (d + n)) / PACKET_DATA_LENGTH = (pos + d) / PACKET_DATA_LENGTH + 1) as Hq.
      { symmetry. apply (Z.div_unique _ _ _ 0); lia. }
      assert ((pos + (d + n)) mod PACKET_DATA_LENGTH = 0) as Hz.
      { destruct (SenderMessage.data_div_mod (pos + (d + n))). nia. }
      rewrite <- Hq, <- Hz. rewrite IH by lia. rewrite <- app_assoc. do 3 f_equal.
      replace (count - d) with (n + (count - (d + n))) by lia.
      rewrite range_app by lia. do 2 f_equal; lia.
Qed.

(** [get] of a complete message copies the bytes of the message. *)
Lemma get_spec {St} m off n (s : St) :
  message_ok m -> complete m -> 0 <= off -> 0 <= n -> off + n + messageLength m < 2 ^ 31 ->
  Message_get m off n s = Ok (slice off n (data m), s).
Proof.
  intros Hok Hc Ho Hn Hb. pose proof Hok as [H1 H2 H3 H4 H5 H6 H7 H8 H9 H10 H11 H12 H13].
  assert (wp (Message_get m off n) s (fun r s' => r = slice off n (data m) /\ s' = s)) as Hw;
    [|unfold wp in Hw; destruct (Message_get m off n s) as [[]|]; [by destruct Hw as [-> ->]|done]].
  unfold Message_get. wp_step. apply Util.wp_downCast_int_of_size; [lia|]. wp_step.
  apply Util.wp_downCast_int_of_size; [lia|]. rewrite (i32_small (off + start m)) by lia.
  assert (data m = range (packets m) (start m) (messageLength m - start m)) as Hdata by done.
  assert (forall k, start m <= k < start m + (messageLength m - start m) -> is_Some (byte_at (packets m) k)) as Hall
    by (intros; apply complete_bytes; [done|done|lia]).
  assert (zlength (range (packets m) (start m) (messageLength m - start m)) = messageLength m - start m) as Hzl
    by (apply zlength_range; [lia|exact Hall]).
  case_bool.
  { wp_step. split; [|done]. unfold slice. rewrite drop_ge; [by rewrite take_nil|].
    rewrite Hdata. unfold zlength in Hzl. lia. }
  rewrite (i32_small (off + start m + n)) by lia.
  destruct (SenderMessage.quot_rem_data_length (off + start m)) as [-> ->]; [lia|].
  set (c := if _ <? _ then _ else _).
  assert (c = Z.min n (messageLength m - (off + start m))) as -> by (unfold c; case_bool; lia).
  set (c' := Z.min _ _). unfold wp.
  pose proof (get_loop_spec (Z.to_nat c') m c' (off + start m) 0 [] s Hok Hc) as Hg.
  rewrite Z.add_0_r, Z.sub_0_r in Hg. rewrite Hg by lia. split; [|done]. simpl.
  rewrite Hdata. destruct (Z.le_ge_cases n (messageLength m - (off + start m))) as [Hle|Hge].
  - unfold c'. rewrite Z.min_l by done. rewrite slice_range by (lia || exact Hall). f_equal. lia.
  - unfold c'. rewrite Z.min_r by done.
    replace (slice off n (range (packets m) (start m) (messageLength m - start m))) with
      (slice off (messageLength m - (off + start m)) (range (packets m) (start m) (messageLength m - start m))).
    + rewrite slice_range by (lia || exact Hall). f_equal. lia.
    + unfold slice. rewrite !take_ge; [done|rewrite length_drop; unfold zlength in Hzl; lia..].
Qed.

(** ** Releasing the packets *)

Definition packet_id_at m (i : Z) : option positive := pkt_id <$> packets m !! i.

Lemma omap_cons {A B} (f : A -> option B) (x : A) (l : list A) :
  omap f (x :: l) = match f x with Some y => y :: omap f l | None => omap f l end.
Proof. done. Qed.

Lemma release_ranges_concat m l range found :
  found + zlength (omap (packet_id_at m) l) = numPackets m ->
  concat (release_ranges m l range found) = range ++ omap (packet_id_at m) l.
Proof.
  revert range found. induction l as [|i l IH]; intros range found Hn.
  - simpl. case_bool_decide; subst; simpl; by rewrite ?app_nil_r.
  - assert (omap (packet_id_at m) (i :: l) = match packets m !! i with
      | Some d => pkt_id d :: omap (packet_id_at m) l | None => omap (packet_id_at m) l end) as Hcons.
    { simpl. unfold packet_id_at at 1. by destruct (packets m !! i). }
    rewrite Hcons in *. cbn [release_ranges]. destruct (Z.ltb_spec found (numPackets m)) as [Hlt|Hge].
    + destruct (packets m !! i) as [d|].
      * rewrite IH; [by rewrite <- app_assoc|]. unfold zlength in *. cbn [List.length] in Hn. lia.
      * case_bool_decide as Hr; [subst; by rewrite IH|]. cbn [concat]. by rewrite IH.
    + assert (match packets m !! i with Some d => pkt_id d :: omap (packet_id_at m) l
        | None => omap (packet_id_at m) l end = []) as ->.
      { apply length_zero_iff_nil. unfold zlength in Hn. lia. }
      case_bool_decide; subst; simpl; by rewrite ?app_nil_r.
Qed.

Lemma length_omap_filter m l :
  List.length (omap (packet_id_at m) l) = List.length (filter (fun i => is_Some (packets m !! i)) l).
Proof.
  induction l as [|i l IH]; [done|]. rewrite filter_cons, omap_cons. case_decide as Hd.
  - destruct Hd as [d Hd]. unfold packet_id_at at 1. rewrite Hd. simpl. by rewrite <- IH.
  - unfold packet_id_at at 1. destruct (packets m !! i) as [d|]; [|done]. exfalso. apply Hd. by eexists.
Qed.

Lemma release_all_concat m :
  message_ok m -> concat (release_all m) = omap (packet_id_at m) (seqZ 0 (numExpectedPackets m)).
Proof.
  intros Hok. pose proof (expected_range m Hok) as He. set (n := numExpectedPackets m) in *.
  assert (omap (packet_id_at m) (seqZ 0 MAX_MESSAGE_PACKETS) = omap (packet_id_at m) (seqZ 0 n)) as Hall.
  { replace MAX_MESSAGE_PACKETS with (n + (MAX_MESSAGE_PACKETS - n)) by lia. rewrite seqZ_app, omap_app by lia.
    assert (omap (packet_id_at m) (seqZ (0 + n) (MAX_MESSAGE_PACKETS - n)) = []) as ->; [|apply app_nil_r].
    assert (forall l, (forall i, i ∈ l -> packets m !! i = None) -> omap (packet_id_at m) l = []) as Hnone.
    { induction l as [|i l IH]; intros Hl; [done|]. simpl. unfold packet_id_at at 1. rewrite (Hl i) by (by left).
      apply IH. intros j Hj. apply Hl. by right. }
    apply Hnone. intros i Hi%elem_of_seqZ. destruct (packets m !! i) as [d|] eqn:Hd; [|done].
    apply (mo_packet _ Hok) in Hd as [Hd _]. fold n in Hd. lia. }
  unfold release_all. rewrite release_ranges_concat, Hall; [done|].
  rewrite Hall. unfold zlength. rewrite length_omap_filter, (mo_count _ Hok), <- (size_dom (D := gset Z)).
  f_equal. assert (dom (packets m) = (list_to_set (filter (fun i => is_Some (packets m !! i)) (seqZ 0 n)) : gset Z)) as ->.
  { apply set_eq. intros i. rewrite elem_of_dom, elem_of_list_to_set, list_elem_of_filter, elem_of_seqZ. split.
    - intros [d Hd]. split; [by eexists|]. apply (mo_packet _ Hok) in Hd as [Hd _]. fold n in Hd. lia.
    - by intros [? _]. }
  rewrite size_list_to_set; [done|]. apply NoDup_filter, NoDup_seqZ.
Qed.
End contents.

Arguments remaining_bytes {_} m : simpl never.

End ReceiverMessage.
