(* ===== verification/Receiver.v ===== *)
(** * Receiver: the receiving half of the transport (src/src/Receiver.h,
    src/src/Receiver.cc)

    The state of the Receiver is a record: the buckets of live messages with
    their timeouts, the schedule (a list of messages per peer, in [peerTable],
    and the list of peers that have any), the queue of complete messages, the
    allocator that owns the messages, and the objects it shares with the rest of
    the transport.  A peer is named by its address, a message by its own.

    Nodes of intrusive lists: membership of a name in a list is what
    IntrusiveHeap.v shows [contains] to compute. *)

From S2P Require Import Prelude Intrusive Util Timeout ObjectPool Perf Protocol Policy Driver SenderMessage ReceiverMessage.
Import Driver ReceiverMessage.

Module Receiver.

(** ** State *)

Record MessageBucket := mkMessageBucket {
  messages : list ptr;
  messageTimeouts : TimeoutManager ptr;
  resendTimeouts : TimeoutManager ptr
}.
#[global] Instance eta_MessageBucket : Eta MessageBucket := fun r =>
  mkMessageBucket (messages r) (messageTimeouts r) (resendTimeouts r).

Definition NUM_BUCKETS : Z := 256.
Definition HASH_KEY_MASK : Z := 255.

Record Receiver := mkReceiver {
  messageBuckets : Z -> MessageBucket;
  peerTable : gmap IpAddress (list ptr);
  scheduledPeers : list IpAddress;
  receivedMessages : list ptr;
  granting : bool;
  nextBucketIndex : Z;
  messageAllocator : ObjectPool Message;
  policyManager : Policy.Manager;
  world : World
}.
#[global] Instance eta_Receiver : Eta Receiver := fun r =>
  mkReceiver (messageBuckets r) (peerTable r) (scheduledPeers r) (receivedMessages r) (granting r)
    (nextBucketIndex r) (messageAllocator r) (policyManager r) (world r).

Abbreviation heap s := (objects (messageAllocator s)).

Section receiver.
Context `{Driver}.

Definition MessageBucket_new (messageTimeoutCycles resendIntervalCycles : Z) : MessageBucket :=
  mkMessageBucket [] (TimeoutManager_new messageTimeoutCycles)
    (TimeoutManager_new resendIntervalCycles).

Definition Receiver_new (messageTimeoutCycles resendIntervalCycles : Z)
    (policy : Policy.Manager) (w : World) : Receiver :=
  mkReceiver (fun _ => MessageBucket_new messageTimeoutCycles resendIntervalCycles)
    ∅ [] [] false 0 ObjectPool_new policy w.

(** ** Access to the parts *)

Definition world_op {A} (m : M World A) : M Receiver A := zoom world (fun w s => s <| world := w |>) m.
Definition policy_op {A} (m : M Policy.Manager A) : M Receiver A :=
  zoom policyManager (fun p s => s <| policyManager := p |>) m.
Definition allocator_op {A} (m : M (ObjectPool Message) A) : M Receiver A :=
  zoom messageAllocator (fun o s => s <| messageAllocator := o |>) m.

(** [*message]. *)
Definition deref (p : ptr) : M Receiver Message :=
  s ← get;
  match heap s !! p with Some m => mret m | None => fault BadPointer end.
Definition update (p : ptr) (f : Message -> Message) : M Receiver unit :=
  modify (fun s => s <| messageAllocator ::= fun o => o <| objects ::= alter f p |> |>).
Definition update_info (p : ptr) (f : ScheduledMessageInfo -> ScheduledMessageInfo) : M Receiver unit :=
  update p (fun m => m <| scheduledMessageInfo ::= f |>).

Definition update_bucket (b : Z) (f : MessageBucket -> MessageBucket) : M Receiver unit :=
  modify (fun s => s <| messageBuckets ::= fun bs => <[b := f (bs b)]> bs |>).

(** [MessageBucketMap::getBucket(msgId)], as an index. *)
Definition getBucket (msgId : Protocol.MessageId) : Z :=
  Z.land (Protocol.hashMessageId std_hash msgId) HASH_KEY_MASK.

(** [MessageBucket::findMessage(msgId)]. *)
Fixpoint find_in (h : gmap ptr Message) (msgId : Protocol.MessageId) (l : list ptr)
    : Result (option ptr) :=
  match l with
  | [] => Ok None
  | p :: l' =>
      match h !! p with
      | None => Error BadPointer
      | Some m => if Protocol.eqMessageId (id m) msgId then Ok (Some p) else find_in h msgId l'
      end
  end.
Definition findMessage (b : Z) (msgId : Protocol.MessageId) : M Receiver (option ptr) :=
  s ← get; lift (find_in (heap s) msgId (messages (messageBuckets s b))).

Definition set_messageTimeout (b : Z) (p : ptr) : M Receiver unit :=
  t ← world_op rdtsc; update_bucket b (fun k => k <| messageTimeouts ::= setTimeout t p |>).
Definition set_resendTimeout (b : Z) (p : ptr) : M Receiver unit :=
  t ← world_op rdtsc; update_bucket b (fun k => k <| resendTimeouts ::= setTimeout t p |>).
Definition cancel_messageTimeout (b : Z) (p : ptr) : M Receiver unit :=
  update_bucket b (fun k => k <| messageTimeouts ::= cancelTimeout p |>).
Definition cancel_resendTimeout (b : Z) (p : ptr) : M Receiver unit :=
  update_bucket b (fun k => k <| resendTimeouts ::= cancelTimeout p |>).
Definition cancel_timeouts (b : Z) (p : ptr) : M Receiver unit :=
  _ ← cancel_messageTimeout b p; cancel_resendTimeout b p.

Definition release_packet (packet : Packet) : M Receiver unit :=
  world_op (releasePackets [pkt_id packet]).

(** ** The schedule *)

Definition remaining (h : gmap ptr Message) (p : ptr) : Z :=
  match h !! p with Some m => bytesRemaining (scheduledMessageInfo m) | None => 0 end.
(** [ScheduledMessageInfo::ComparePriority]. *)
Definition CompareMessage (h : gmap ptr Message) (a b : ptr) : bool := remaining h a <? remaining h b.

Definition scheduledMessages (s : Receiver) (ip : IpAddress) : list ptr := default [] (peerTable s !! ip).
(** [Peer::ComparePriority]: compares the first messages of two peers.  That
    both have one, which it asserts, is checked by [check_peers] of all the
    scheduled peers, which include those that it is called with. *)
Definition peer_remaining (s : Receiver) (ip : IpAddress) : Z :=
  match scheduledMessages s ip with p :: _ => remaining (heap s) p | [] => 0 end.
Definition ComparePeer (s : Receiver) (a b : IpAddress) : bool := peer_remaining s a <? peer_remaining s b.
Definition check_peers : M Receiver unit :=
  s ← get;
  check (forallb (fun ip => negb (bool_decide (scheduledMessages s ip = []))) (scheduledPeers s)).

Definition set_scheduledMessages (ip : IpAddress) (l : list ptr) : M Receiver unit :=
  modify (fun s => s <| peerTable ::= <[ip := l]> |>).

(** [schedule(message)]. *)
Definition schedule (p : ptr) : M Receiver unit :=
  m ← deref p;
  let peer := ip (source m) in
  s ← get;
  let l := scheduledMessages s peer in
  _ ← check (bool_decide (p ∉ l));
  _ ← set_scheduledMessages peer (deprioritize (CompareMessage (heap s)) p (p :: l));
  _ ← update_info p (fun i => i <| ReceiverMessage.peer := Some peer |>);
  s ← get;
  if negb (bool_decide (peer ∈ scheduledPeers s)) then
    _ ← check (List.length (scheduledMessages s peer) =? 1)%nat;
    _ ← check_peers;
    modify (fun s => s <| scheduledPeers ::= fun q => deprioritize (ComparePeer s) peer (peer :: q) |>)
  else if bool_decide (head (scheduledMessages s peer) = Some p) then
    _ ← check_peers;
    modify (fun s => s <| scheduledPeers ::= prioritize (ComparePeer s) peer |>)
  else mret tt.

(** The element after [ip] in the list of peers, [None] for [end()]. *)
Definition next_peer (ip : IpAddress) (l : list IpAddress) : option IpAddress := head (split_at ip l).2.

(** [unschedule(message)].  When the peer is not in the list of peers, [it] is
    [end()], and the operations on it would unlink the root of the list. *)
Definition unschedule (p : ptr) : M Receiver unit :=
  m ← deref p;
  match ReceiverMessage.peer (scheduledMessageInfo m) with
  | None => fault AssertFailed
  | Some peer =>
      s ← get;
      let l := scheduledMessages s peer in
      _ ← check (bool_decide (p ∈ l));
      _ ← set_scheduledMessages peer (list_remove p l);
      _ ← update_info p (fun i => i <| ReceiverMessage.peer := None |>);
      if negb (bool_decide (peer ∈ scheduledPeers s)) then fault BadPointer
      else if bool_decide (list_remove p l = []) then
        modify (fun s => s <| scheduledPeers ::= list_remove peer |>)
      else
        match next_peer peer (scheduledPeers s) with
        | None => mret tt
        | Some nx =>
            _ ← check_peers;
            s ← get;
            if negb (ComparePeer s nx peer) then mret tt
            else modify (fun s => s <| scheduledPeers ::= deprioritize (ComparePeer s) peer |>)
        end
  end.

(** [updateSchedule(message)]. *)
Definition updateSchedule (p : ptr) : M Receiver unit :=
  m ← deref p;
  match ReceiverMessage.peer (scheduledMessageInfo m) with
  | None => fault AssertFailed
  | Some peer =>
      s ← get;
      let l := scheduledMessages s peer in
      _ ← check (bool_decide (p ∈ l));
      _ ← set_scheduledMessages peer (prioritize (CompareMessage (heap s)) p l);
      s ← get;
      when (bool_decide (head (scheduledMessages s peer) = Some p))
        (_ ← check (bool_decide (peer ∈ scheduledPeers s));
         _ ← check_peers;
         modify (fun s => s <| scheduledPeers ::= prioritize (ComparePeer s) peer |>))
  end.

(** The pattern of dropMessage and checkMessageTimeouts. *)
Definition unschedule_if_linked (p : ptr) : M Receiver unit :=
  m ← deref p;
  when (scheduled m && negb (bool_decide (ReceiverMessage.peer (scheduledMessageInfo m) = None)))
    (unschedule p).

(** ** Destruction *)

(** Some intrusive node of the message is still in a list. *)
Definition linked (s : Receiver) (p : ptr) : bool :=
  bool_decide (p ∈ receivedMessages s) ||
  bool_decide (Exists (fun kl => p ∈ kl.2) (map_to_list (peerTable s))) ||
  existsb (fun b => let k := messageBuckets s b in
    bool_decide (p ∈ messages k) || bool_decide (p ∈ timeouts (messageTimeouts k)) ||
    bool_decide (p ∈ timeouts (resendTimeouts k))) (seqZ 0 NUM_BUCKETS).

(** [messageAllocator.pool.destroy(message)] with [Message::~Message()]. *)
Definition destroy_message (p : ptr) : M Receiver unit :=
  m ← deref p;
  _ ← for_each (release_all m) (fun ids => world_op (releasePackets ids));
  s ← get;
  allocator_op (destroy (fun _ => if linked s p then Error NodeLinked else Ok tt) p).

(** ** Handlers of incoming packets *)

(** A message for the first packet of an unknown id. *)
Definition new_message (bucket : Z) (header : Protocol.DataHeader) (sourceIp : IpAddress) : M Receiver ptr :=
  let msgId := Protocol.messageId (Protocol.dh_common header) in
  let messageLength := i32 (Protocol.totalLength header) in
  let numUnscheduledPackets := Protocol.unscheduledIndexLimit header in
  let srcAddress := mkSocketAddress sourceIp
    (Protocol.bswap16 (Protocol.sport (Protocol.prefix (Protocol.dh_common header)))) in
  r ← allocator_op (construct (Some (Message_new (u64 messageLength) msgId srcAddress numUnscheduledPackets)));
  match r with
  | None => fault BadPointer
  | Some p =>
      _ ← world_op (count Perf.allocated_rx_messages 1);
      s ← get;
      _ ← check (bool_decide (p ∉ messages (messageBuckets s bucket)));
      _ ← update_bucket bucket (fun k => k <| messages ::= fun l => l ++ [p] |>);
      _ ← policy_op (Policy.signalNewMessage sourceIp (Protocol.policyVersion header)
                       (Protocol.totalLength header));
      m ← deref p;
      _ ← when (scheduled m) (schedule p);
      mret p
  end.

(** What handleDataPacket does once the packet is stored. *)
Definition packet_added (bucket : Z) (p : ptr) (packet : Packet) : M Receiver unit :=
  m ← deref p;
  _ ← when (scheduled m && negb (bool_decide (ReceiverMessage.peer (scheduledMessageInfo m) = None)))
        (let packetDataBytes := length packet - TRANSPORT_HEADER_LENGTH in
         _ ← check (packetDataBytes <=? bytesRemaining (scheduledMessageInfo m));
         _ ← update_info p (fun i => i <| bytesRemaining ::= fun r => r - packetDataBytes |>);
         updateSchedule p);
  _ ← set_messageTimeout bucket p;
  if numPackets m <? numExpectedPackets m then set_resendTimeout bucket p
  else
    _ ← update p (fun m => m <| state := COMPLETED |>);
    _ ← cancel_resendTimeout bucket p;
    s ← get;
    _ ← check (bool_decide (p ∉ receivedMessages s));
    _ ← modify (fun s => s <| receivedMessages ::= fun l => l ++ [p] |>);
    world_op (count Perf.received_rx_messages 1).

Definition handleDataPacket (packet : Packet) (sourceIp : IpAddress) : M Receiver unit :=
  let header := read_header Protocol.DataHeader packet in
  let msgId := Protocol.messageId (Protocol.dh_common header) in
  let bucket := getBucket msgId in
  found ← findMessage bucket msgId;
  p ← match found with Some p => mret p | None => new_message bucket header sourceIp end;
  m ← deref p;
  _ ← check (Protocol.eqMessageId msgId (id m));
  _ ← check (bool_decide (ip (source m) = sourceIp));
  _ ← check (port (source m) =?
        Protocol.bswap16 (Protocol.sport (Protocol.prefix (Protocol.dh_common header))));
  expected ← Util.downCast_int_of_u32 (Protocol.totalLength header);
  _ ← check (messageLength m =? expected);
  r ← lift (setPacket (Protocol.dh_index header) packet m);
  let '(packetAdded, m') := r in
  _ ← update p (fun _ => m');
  if packetAdded : bool then packet_added bucket p packet else release_packet packet.

Definition handleBusyPacket (packet : Packet) : M Receiver unit :=
  let header := read_header Protocol.BusyHeader packet in
  let msgId := Protocol.messageId (Protocol.busy_common header) in
  let bucket := getBucket msgId in
  message ← findMessage bucket msgId;
  _ ← match message with
      | None => mret tt
      | Some p =>
          _ ← set_messageTimeout bucket p;
          m ← deref p;
          when (bool_decide (state m = IN_PROGRESS)) (set_resendTimeout bucket p)
      end;
  release_packet packet.

Definition handlePingPacket (packet : Packet) (sourceIp : IpAddress) : M Receiver unit :=
  let header := read_header Protocol.PingHeader packet in
  let msgId := Protocol.messageId (Protocol.ping_common header) in
  let bucket := getBucket msgId in
  message ← findMessage bucket msgId;
  _ ← match message with
      | Some p =>
          _ ← set_messageTimeout bucket p;
          m ← deref p;
          let info := scheduledMessageInfo m in
          let bytesGranted := if scheduled m then bytesGranted info else 0 in
          let priority := if scheduled m then priority info else 0 in
          _ ← world_op (count Perf.tx_grant_pkts 1);
          world_op (send_control (ip (source m))
            (Protocol.GrantHeader_new (id m) (u32 bytesGranted) (u8 priority)))
      | None =>
          _ ← world_op (count Perf.tx_unknown_pkts 1);
          world_op (send_control sourceIp (Protocol.UnknownHeader_new msgId))
      end;
  release_packet packet.

(** ** Calls of the application *)

Definition receiveMessage : M Receiver (option ptr) :=
  s ← get;
  match receivedMessages s with
  | [] => mret None
  | p :: rest =>
      _ ← modify (fun s => s <| receivedMessages := rest |>);
      _ ← world_op (count Perf.delivered_rx_messages 1);
      mret (Some p)
  end.

(** [Message::acknowledge], [fail] and [dropped]. *)
Definition acknowledge (p : ptr) : M Receiver unit :=
  m ← deref p;
  _ ← world_op (count Perf.tx_done_pkts 1);
  world_op (send_control (ip (source m)) (Protocol.DoneHeader_new (id m))).
Definition fail (p : ptr) : M Receiver unit :=
  m ← deref p;
  _ ← world_op (count Perf.tx_error_pkts 1);
  world_op (send_control (ip (source m)) (Protocol.ErrorHeader_new (id m))).
Definition dropped (p : ptr) : M Receiver bool := m ← deref p; mret (bool_decide (state m = DROPPED)).

Definition get_bytes (p : ptr) (offset count : Z) : M Receiver (list Z) :=
  m ← deref p; Message_get m offset count.
Definition strip_bytes (p : ptr) (count : Z) : M Receiver unit :=
  m ← deref p; m' ← Message_strip count m; update p (fun _ => m').

Definition dropMessage (p : ptr) : M Receiver unit :=
  m ← deref p;
  let bucket := getBucket (id m) in
  found ← findMessage bucket (id m);
  match found with
  | None => mret tt
  | Some q =>
      _ ← check (bool_decide (p = q));
      _ ← cancel_timeouts bucket p;
      _ ← unschedule_if_linked p;
      _ ← update_bucket bucket (fun k => k <| messages ::= list_remove p |>);
      _ ← destroy_message p;
      world_op (count Perf.destroyed_rx_messages 1)
  end.

(** ** Timeouts *)

Fixpoint message_timeout_loop (fuel : nat) (t : Z) (b : Z) : M Receiver unit :=
  match fuel with
  | O => fault OutOfFuel
  | S fuel' =>
      s ← get;
      match timeouts_front (messageTimeouts (messageBuckets s b)) with
      | None => mret tt
      | Some p =>
          if negb (hasElapsed t p (messageTimeouts (messageBuckets s b))) then mret tt
          else
            _ ← cancel_timeouts b p;
            m ← deref p;
            _ ← (if bool_decide (state m = IN_PROGRESS) then
                   _ ← unschedule_if_linked p;
                   _ ← update_bucket b (fun k => k <| messages ::= list_remove p |>);
                   destroy_message p
                 else update p (fun m => m <| state := DROPPED |>));
            message_timeout_loop fuel' t b
      end
  end.
Definition checkMessageTimeouts (t : Z) (b : Z) : M Receiver unit :=
  s ← get;
  let tm := messageTimeouts (messageBuckets s b) in
  when (anyElapsed t tm) (message_timeout_loop (S (List.length (timeouts tm))) t b).

(** One RESEND for [num] packets from [index] on. *)
Definition send_resend (m : Message) (index num : Z) : M Receiver unit :=
  _ ← world_op (count Perf.tx_resend_pkts 1);
  index16 ← Util.downCast_u16_of_int index;
  num16 ← Util.downCast_u16_of_int num;
  world_op (send_control (ip (source m))
    (Protocol.ResendHeader_new (id m) index16 num16 (u8 (priority (scheduledMessageInfo m))))).

(** The scan for missing packets: [num] of them, from [index] on, so far. *)
Fixpoint resend_scan (m : Message) (indices : list Z) (index num : Z) : M Receiver unit :=
  match indices with
  | [] => when (negb (num =? 0)) (send_resend m index num)
  | i :: rest =>
      found ← lift (getPacket m i);
      match found with
      | None => resend_scan m rest (if num =? 0 then i else index) (num + 1)
      | Some _ =>
          if num =? 0 then resend_scan m rest index num
          else _ ← send_resend m index num; resend_scan m rest index 0
      end
  end.

(** The packets that may be asked for again; [None] when the sender waits for
    a grant. *)
Definition grant_index_limit (m : Message) : option Z :=
  let info := scheduledMessageInfo m in
  if scheduled m then
    if bytesGranted info <=? s_messageLength info - bytesRemaining info then None
    else if numUnscheduledPackets m * PACKET_DATA_LENGTH <? bytesGranted info
         then Some ((bytesGranted info + PACKET_DATA_LENGTH - 1) ÷ PACKET_DATA_LENGTH)
         else Some (numUnscheduledPackets m)
  else Some (numUnscheduledPackets m).

Fixpoint resend_timeout_loop (fuel : nat) (t : Z) (b : Z) : M Receiver unit :=
  match fuel with
  | O => fault OutOfFuel
  | S fuel' =>
      s ← get;
      match timeouts_front (resendTimeouts (messageBuckets s b)) with
      | None => mret tt
      | Some p =>
          if negb (hasElapsed t p (resendTimeouts (messageBuckets s b))) then mret tt
          else
            m ← deref p;
            _ ← check (bool_decide (state m = IN_PROGRESS));
            _ ← set_resendTimeout b p;
            _ ← match grant_index_limit m with
                | None => mret tt
                | Some limit => resend_scan m (seqZ 0 limit) 0 0
                end;
            resend_timeout_loop fuel' t b
      end
  end.
Definition checkResendTimeouts (t : Z) (b : Z) : M Receiver unit :=
  s ← get;
  let tm := resendTimeouts (messageBuckets s b) in
  when (anyElapsed t tm) (resend_timeout_loop (S (List.length (timeouts tm))) t b).

Definition checkTimeouts : M Receiver unit :=
  s ← get;
  let index := Z.land (nextBucketIndex s) HASH_KEY_MASK in
  _ ← modify (fun s => s <| nextBucketIndex ::= fun n => u32 (n + 1) |>);
  t ← world_op rdtsc;
  _ ← checkResendTimeouts t index;
  checkMessageTimeouts t index.

(** ** Grants *)

(** [Perf::counters.active_cycles.add(timer.split())]. *)
Definition add_active_cycles (timer : Z) : M Receiver Z :=
  t ← world_op rdtsc;
  let '(cycles, timer) := Perf.timer_split timer t in
  _ ← world_op (count Perf.active_cycles cycles);
  mret timer.

(** Send a GRANT if the message has too few bytes granted and unreceived. *)
Definition grant_message (policy : Policy.Scheduled) (p : ptr) (timer : Z) : M Receiver Z :=
  m ← deref p;
  let info := scheduledMessageInfo m in
  let receivedBytes := s_messageLength info - bytesRemaining info in
  if bytesGranted info - receivedBytes <? Policy.minScheduledBytes policy then
    let newGrantLimit :=
      Z.min (i32 (receivedBytes + Policy.maxScheduledBytes policy)) (s_messageLength info) in
    _ ← check (bytesGranted info <=? newGrantLimit);
    _ ← update_info p (fun i => i <| bytesGranted := newGrantLimit |>);
    _ ← world_op (count Perf.tx_grant_pkts 1);
    limit ← Util.downCast_u32_of_int newGrantLimit;
    _ ← world_op (send_control (ip (source m))
          (Protocol.GrantHeader_new (id m) limit (u8 (priority info))));
    add_active_cycles timer
  else mret timer.

(** The loop of trySendGrants over the scheduled peers: [slot] of
    [Policy.degreeOvercommitment] messages were considered. *)
Fixpoint grant_loop (fuel : nat) (policy : Policy.Scheduled) (unusedPriorities : Z)
    (it : option IpAddress) (slot timer : Z) : M Receiver unit :=
  match it with
  | None => mret tt
  | Some peer =>
      if slot <? Policy.degreeOvercommitment policy then
        match fuel with
        | O => fault OutOfFuel
        | S fuel' =>
            s ← get;
            match scheduledMessages s peer with
            | [] => fault AssertFailed
            | p :: _ =>
                _ ← update_info p (fun i => i <| priority :=
                      Z.max 0 (Policy.maxScheduledPriority policy - slot - unusedPriorities) |>);
                timer ← grant_message policy p timer;
                let it := next_peer peer (scheduledPeers s) in
                m ← deref p;
                let info := scheduledMessageInfo m in
                timer ← (if s_messageLength info <=? bytesGranted info
                         then _ ← unschedule p; add_active_cycles timer
                         else mret timer);
                grant_loop fuel' policy unusedPriorities it (slot + 1) timer
            end
        end
      else mret tt
  end.

Definition trySendGrants : M Receiver unit :=
  timer ← world_op rdtsc;
  s ← get;
  if granting s then mret tt
  else
    _ ← modify (fun s => s <| granting := true |>);
    _ ← (if bool_decide (scheduledPeers s = []) then mret tt
         else
           policy ← policy_op (gets Policy.getScheduledPolicy);
           _ ← check (Policy.maxScheduledPriority policy <? Policy.degreeOvercommitment policy);
           numPeers ← Util.downCast_int_of_size (zlength (scheduledPeers s));
           let unusedPriorities := Z.max 0 ((Policy.maxScheduledPriority policy + 1) - numPeers) in
           grant_loop (Z.to_nat (Policy.degreeOvercommitment policy)) policy unusedPriorities
             (head (scheduledPeers s)) 0 timer);
    modify (fun s => s <| granting := false |>).

Definition poll : M Receiver unit := _ ← trySendGrants; checkTimeouts.
End receiver.

End Receiver.
