(* ===== verification/ReceiverSchedule.v ===== *)
(** * ReceiverSchedule: the order of the Receiver's schedule

    A schedule is a list of messages per peer, each ordered by remaining bytes,
    and the list of the peers that have messages, ordered by their first
    message.  [in_order] says so of any keys [K], lists [T] and peers [Q]; the
    lemmas show that the three ways in which Receiver.cc changes a schedule keep
    it in order. *)

From S2P Require Import Prelude Intrusive ObjectPool.

Module ReceiverSchedule.

Section schedule.
Implicit Types (K : ptr -> Z) (T : Z -> list ptr) (Q : list Z) (p : ptr) (ip : Z).

(** The key of a peer is that of its first message. *)
Definition peer_key K T ip : Z := match T ip with p :: _ => K p | [] => 0 end.

Record in_order K T Q : Prop := {
  io_nodup : forall ip, NoDup (T ip);
  io_sorted : forall ip, sorted_by K (T ip);
  io_peers_nodup : NoDup Q;
  io_peers : forall ip, ip ∈ Q <-> T ip <> [];
  io_peers_sorted : sorted_by (peer_key K T) Q
}.

Definition by_key {A} (key : A -> Z) (a b : A) : bool := key a <? key b.

Lemma peer_key_ne K T ip l q : q <> ip -> peer_key K (<[ip := l]> T) q = peer_key K T q.
Proof. intros. unfold peer_key. by rewrite fn_lookup_insert_ne. Qed.
Lemma peer_key_head K T ip p l : T ip = p :: l -> peer_key K T ip = K p.
Proof. unfold peer_key. by intros ->. Qed.

(** The order of the peers after the list of one of them changed, when the
    peers are the same and those before and after it keep their place. *)
Lemma peers_sorted_upd K K' T ip l Q :
  (forall q, q <> ip -> peer_key K' T q = peer_key K T q) ->
  sorted_by (peer_key K T) Q -> ip ∉ Q -> sorted_by (peer_key K' (<[ip := l]> T)) Q.
Proof.
  intros HK Hs Hn. eapply sorted_by_ext; [|exact Hs]. intros q Hq.
  assert (q <> ip) by (by intros ->). rewrite peer_key_ne, HK by done. done.
Qed.

Lemma split_unique {A} `{EqDecision A} (l : list A) (x : A) :
  NoDup l -> x ∈ l -> exists pre post, l = pre ++ x :: post /\ (x ∉ pre) /\ x ∉ pre ++ post.
Proof.
  intros Hnd Hin. destruct (split_at_elem x l Hin) as [Heq Hpre].
  exists (split_at x l).1, (split_at x l).2. split_and!; [done|done|].
  rewrite Heq in Hnd. apply NoDup_app in Hnd as (_ & Hd & Hn). apply NoDup_cons in Hn as [Hn _]. set_solver.
Qed.

(** The key of [ip] went down: moving it up restores the order. *)
Lemma peers_up K K' T ip l Q :
  NoDup Q -> ip ∈ Q -> sorted_by (peer_key K T) Q ->
  (forall q, q <> ip -> peer_key K' T q = peer_key K T q) ->
  peer_key K' (<[ip := l]> T) ip <= peer_key K T ip ->
  sorted_by (peer_key K' (<[ip := l]> T)) (prioritize (by_key (peer_key K' (<[ip := l]> T))) ip Q).
Proof.
  intros Hnd Hin Hs HK Hle. destruct (split_unique Q ip Hnd Hin) as (pre & post & -> & Hpre & Hn).
  apply prioritize_sorted; [done|done| |].
  - eapply (peers_sorted_upd K); [done| |done]. by eapply sorted_by_remove.
  - intros q Hq. assert (q <> ip) by (intros ->; set_solver). rewrite (peer_key_ne K' T ip l q), HK by done.
    apply sorted_by_app in Hs as (_ & Hs & _). apply sorted_by_cons in Hs as [_ Hs].
    specialize (Hs q Hq). lia.
Qed.

(** A key that did not change. *)
Lemma peers_same K K' T ip l Q :
  sorted_by (peer_key K T) Q -> (forall q, q <> ip -> peer_key K' T q = peer_key K T q) ->
  peer_key K' (<[ip := l]> T) ip = peer_key K T ip -> sorted_by (peer_key K' (<[ip := l]> T)) Q.
Proof.
  intros Hs HK Heq. eapply sorted_by_ext; [|exact Hs]. intros q _.
  destruct (decide (q = ip)) as [->|Hq]; [done|]. by rewrite peer_key_ne, HK.
Qed.

Lemma insert_lists K T ip l :
  (forall q, NoDup (T q)) -> (forall q, sorted_by K (T q)) -> NoDup l -> sorted_by K l ->
  (forall q, NoDup (<[ip := l]> T q)) /\ (forall q, sorted_by K (<[ip := l]> T q)).
Proof.
  intros H1 H2 H3 H4. split; intros q; (destruct (decide (q = ip)) as [->|Hq];
    [by rewrite fn_lookup_insert|by rewrite fn_lookup_insert_ne]).
Qed.

Lemma insert_peers T Q ip l :
  (forall q, q ∈ Q <-> T q <> []) -> l <> [] -> ip ∈ Q -> forall q, q ∈ Q <-> <[ip := l]> T q <> [].
Proof.
  intros HQ Hl Hin q. destruct (decide (q = ip)) as [->|Hq]; [by rewrite fn_lookup_insert|].
  by rewrite fn_lookup_insert_ne.
Qed.

(** ** Adding a message *)

Definition add_message K p T ip : list ptr := deprioritize (by_key K) p (p :: T ip).
Definition add_peers K T' p ip Q : list Z :=
  if bool_decide (ip ∈ Q) then
    if bool_decide (head (T' ip) = Some p) then prioritize (by_key (peer_key K T')) ip Q else Q
  else deprioritize (by_key (peer_key K T')) ip (ip :: Q).

Lemma add_in_order K T Q p ip :
  in_order K T Q -> p ∉ T ip ->
  let T' := <[ip := add_message K p T ip]> T in in_order K T' (add_peers K T' p ip Q).
Proof.
  intros [H1 H2 H3 H4 H5] Hp T'.
  destruct (deprioritize_app (by_key K) p [] (T ip)) as (passed & rest & Heq & Hd & _);
    [by apply not_elem_of_nil|]. simpl in Hd.
  assert (T' ip = passed ++ p :: rest) as HT by (unfold T'; by rewrite fn_lookup_insert).
  assert (add_message K p T ip ≡ₚ p :: T ip) as Hperm by (apply deprioritize_Permutation; by left).
  assert (sorted_by K (add_message K p T ip)) as Hs.
  { apply (deprioritize_sorted _ _ p [] (T ip)); [done|by apply not_elem_of_nil|apply H2|].
    intros y Hy. by apply elem_of_nil in Hy. }
  destruct (insert_lists K T ip (add_message K p T ip) H1 H2) as [N1 N2];
    [rewrite Hperm; constructor; [done|apply H1]|done|].
  assert (add_message K p T ip <> []) as Hne by (intros E; rewrite E in Hperm; by apply Permutation_nil_cons in Hperm).
  unfold add_peers. case_bool_decide as Hin.
  - assert (forall Q', Q' ≡ₚ Q -> sorted_by (peer_key K T') Q' -> in_order K T' Q') as Hdone.
    { intros Q' HQ' Hs'. split; [done|done|by rewrite HQ'| |done]. intros q. rewrite HQ'. by apply insert_peers. }
    case_bool_decide as Hh.
    + apply Hdone; [by apply prioritize_Permutation|]. apply (peers_up K); try done.
      destruct (T ip) as [|y l] eqn:HTy; [by apply H4 in Hin|].
      rewrite (peer_key_head K T ip y l HTy). fold T'. rewrite HT in Hh.
      assert (passed = []) as ->.
      { destruct passed as [|z passed]; [done|]. simpl in *. simplify_eq. exfalso. apply Hp. by left. }
      simpl in Heq. subst rest. rewrite (peer_key_head K T' ip p (y :: l) HT).
      pose proof (N2 ip) as Hs2. fold T' in Hs2. rewrite HT in Hs2. apply sorted_by_cons in Hs2 as [_ Hs2].
      apply Hs2. by left.
    + apply Hdone; [done|]. apply (peers_same K); try done. fold T'.
      destruct passed as [|z passed]; [by rewrite HT in Hh|].
      rewrite (peer_key_head K T' ip z (passed ++ p :: rest) HT).
      by rewrite (peer_key_head K T ip z (passed ++ rest) Heq).
  - assert (deprioritize (by_key (peer_key K T')) ip (ip :: Q) ≡ₚ ip :: Q) as HQ
      by (apply deprioritize_Permutation; by left).
    split; [done|done|rewrite HQ; by constructor| |].
    + intros q. rewrite HQ, elem_of_cons, H4. unfold T'. destruct (decide (q = ip)) as [->|Hq].
      * rewrite fn_lookup_insert. naive_solver.
      * rewrite fn_lookup_insert_ne by done. naive_solver.
    + apply (deprioritize_sorted _ _ ip [] Q); [done|by apply not_elem_of_nil|by apply (peers_sorted_upd K)|].
      intros y Hy. by apply elem_of_nil in Hy.
Qed.

(** ** A message whose key went down *)

Definition up_message K p T ip : list ptr := prioritize (by_key K) p (T ip).
Definition up_peers K T' p ip Q : list Z :=
  if bool_decide (head (T' ip) = Some p) then prioritize (by_key (peer_key K T')) ip Q else Q.

Lemma up_in_order K K' T Q p ip :
  in_order K T Q -> p ∈ T ip -> (forall q, p ∈ T q -> q = ip) ->
  (forall q, q <> p -> K' q = K q) -> K' p <= K p ->
  let T' := <[ip := up_message K' p T ip]> T in in_order K' T' (up_peers K' T' p ip Q).
Proof.
  intros [H1 H2 H3 H4 H5] Hp Honly HK Hle T'.
  destruct (split_unique (T ip) p (H1 ip) Hp) as (pre & post & HTip & Hpre & Hpp).
  assert (forall q, q <> ip -> sorted_by K' (T q)) as Hs'.
  { intros q Hq. eapply sorted_by_ext; [|apply (H2 q)]. intros y Hy. symmetry. apply HK.
    intros ->. by apply Hq, Honly. }
  assert (forall q, q <> ip -> peer_key K' T q = peer_key K T q) as Hpk.
  { intros q Hq. unfold peer_key. destruct (T q) as [|y l] eqn:E; [done|]. apply HK.
    intros ->. apply Hq, Honly. rewrite E. by left. }
  assert (sorted_by K' (up_message K' p T ip)) as Hs.
  { unfold up_message. rewrite HTip. apply prioritize_sorted; [done|done| |].
    - eapply sorted_by_ext; [|eapply sorted_by_remove; rewrite <- HTip; apply H2].
      intros y Hy. symmetry. apply HK. by intros ->.
    - intros y Hy. rewrite (HK y) by (intros ->; set_solver).
      pose proof (H2 ip) as Hs. rewrite HTip in Hs. apply sorted_by_app in Hs as (_ & Hs & _).
      apply sorted_by_cons in Hs as [_ Hs]. specialize (Hs y Hy). lia. }
  destruct (prioritize_app (by_key K') p pre post Hpre) as (before & moved & Epre & Eprio & _).
  assert (T' ip = before ++ p :: moved ++ post) as HT.
  { unfold T', up_message. rewrite fn_lookup_insert, HTip. exact Eprio. }
  assert (up_message K' p T ip ≡ₚ T ip) as Hperm by (by apply prioritize_Permutation).
  assert (ip ∈ Q) as Hin by (apply H4; intros E; rewrite E in Hp; by apply elem_of_nil in Hp).
  assert (forall Q', Q' ≡ₚ Q -> sorted_by (peer_key K' T') Q' -> in_order K' T' Q') as Hdone.
  { intros Q' HQ' Hsq. split.
    - intros q. unfold T'. destruct (decide (q = ip)) as [->|Hq];
        [rewrite fn_lookup_insert, Hperm|rewrite fn_lookup_insert_ne by done]; apply H1.
    - intros q. unfold T'. destruct (decide (q = ip)) as [->|Hq];
        [by rewrite fn_lookup_insert|rewrite fn_lookup_insert_ne by done; auto].
    - by rewrite HQ'.
    - intros q. rewrite HQ'. apply insert_peers; [done| |done].
      intros E. rewrite E in Hperm. apply Permutation_nil_l in Hperm. rewrite HTip in Hperm. by destruct pre.
    - done. }
  unfold up_peers. case_bool_decide as Hh.
  - apply Hdone; [by apply prioritize_Permutation|]. apply (peers_up K); try done. fold T'.
    rewrite HT in Hh. assert (before = []) as ->.
    { destruct before as [|z before]; [done|]. simpl in Hh. simplify_eq. set_solver. }
    rewrite (peer_key_head K' T' ip p (moved ++ post) HT).
    destruct pre as [|y pre]; [rewrite (peer_key_head K T ip p post HTip); lia|].
    rewrite (peer_key_head K T ip y (pre ++ p :: post) HTip).
    rewrite <- (HK y) by (intros ->; set_solver).
    assert (sorted_by K' (T' ip)) as Hsi by (unfold T'; by rewrite fn_lookup_insert).
    rewrite HT in Hsi. apply sorted_by_cons in Hsi as [_ Hsi]. apply Hsi.
    simpl in Epre. rewrite <- Epre. by left.
  - apply Hdone; [done|]. apply (peers_same K); try done. fold T'.
    destruct before as [|z before]; [by rewrite HT in Hh|].
    rewrite (peer_key_head K' T' ip z (before ++ p :: moved ++ post) HT).
    rewrite Epre in HTip. rewrite (peer_key_head K T ip z _ HTip).
    apply HK. intros ->. set_solver.
Qed.

(** ** Removing a message *)

Definition remove_peers K T' ip Q : list Z :=
  if bool_decide (T' ip = []) then list_remove ip Q
  else match head (split_at ip Q).2 with
       | None => Q
       | Some nx => if by_key (peer_key K T') nx ip then deprioritize (by_key (peer_key K T')) ip Q else Q
       end.

Lemma remove_in_order K T Q p ip :
  in_order K T Q -> p ∈ T ip ->
  let T' := <[ip := list_remove p (T ip)]> T in in_order K T' (remove_peers K T' ip Q).
Proof.
  intros [H1 H2 H3 H4 H5] Hp T'.
  destruct (insert_lists K T ip (list_remove p (T ip)) H1 H2) as [N1 N2]; [auto with homa..|].
  assert (T' ip = list_remove p (T ip)) as HT by (unfold T'; by rewrite fn_lookup_insert).
  assert (ip ∈ Q) as Hin by (apply H4; intros E; rewrite E in Hp; by apply elem_of_nil in Hp).
  destruct (split_unique Q ip H3 Hin) as (pre & post & HQ & Hpre & Hn).
  unfold remove_peers. case_bool_decide as Hempty.
  { split; [done|done|auto with homa| |].
    - intros q. rewrite elem_of_list_remove, H4 by done. unfold T'. destruct (decide (q = ip)) as [->|Hq].
      + rewrite fn_lookup_insert. rewrite <- HT. naive_solver.
      + rewrite fn_lookup_insert_ne by done. naive_solver.
    - apply (peers_sorted_upd K); [done|by apply sorted_by_list_remove|].
      intros Hi. by apply elem_of_list_remove in Hi as [_ ?]. }
  assert (forall Q', Q' ≡ₚ Q -> sorted_by (peer_key K T') Q' -> in_order K T' Q') as Hdone.
  { intros Q' HQ' Hs. split; [done|done|by rewrite HQ'| |done]. intros q. rewrite HQ'.
    apply insert_peers; [done|by rewrite <- HT|done]. }
  (* the key of the peer did not go down *)
  assert (peer_key K T ip <= peer_key K T' ip) as Hup.
  { destruct (T' ip) as [|z l] eqn:HTz; [done|]. rewrite (peer_key_head K T' ip z l HTz).
    assert (z ∈ list_remove p (T ip)) as Hz by (rewrite <- HT; by left).
    apply elem_of_list_remove in Hz as [Hz _]; [|apply H1].
    destruct (T ip) as [|y l'] eqn:HTy; [by apply elem_of_nil in Hz|].
    rewrite (peer_key_head K T ip y l' HTy). apply elem_of_cons in Hz as [->|Hz]; [done|].
    pose proof (H2 ip) as Hs. rewrite HTy in Hs. apply sorted_by_cons in Hs as [_ Hs]. auto. }
  assert (forall q, q <> ip -> peer_key K T' q = peer_key K T q) as Hpk by (intros; by apply peer_key_ne).
  assert (sorted_by (peer_key K T') (pre ++ post)) as Hrest.
  { apply (peers_sorted_upd K); [done| |done]. eapply sorted_by_remove. by rewrite <- HQ. }
  assert (forall q, q ∈ pre -> peer_key K T' q <= peer_key K T' ip) as Hbefore.
  { intros q Hq. rewrite (Hpk q) by (by intros ->). rewrite HQ in H5.
    apply sorted_by_app in H5 as (_ & _ & H5). specialize (H5 q ip Hq (list_elem_of_here _ _)). lia. }
  rewrite HQ, split_at_app by done. simpl.
  destruct post as [|nx post]; simpl.
  { apply Hdone; [by rewrite HQ|]. apply sorted_by_app. split_and!.
    - by rewrite app_nil_r in Hrest.
    - apply sorted_by_cons. split; [constructor|]. intros y Hy. by apply elem_of_nil in Hy.
    - intros x y Hx ->%list_elem_of_singleton. auto. }
  unfold by_key at 1. destruct (Z.ltb_spec (peer_key K T' nx) (peer_key K T' ip)) as [Hlt|Hge].
  - apply Hdone; [rewrite HQ; apply deprioritize_Permutation; set_solver|].
    by apply deprioritize_sorted.
  - apply Hdone; [by rewrite HQ|]. apply sorted_by_app in Hrest as (Hr1 & Hr2 & Hr3).
    pose proof Hr2 as Hr2'. apply sorted_by_cons in Hr2' as [_ Hnx].
    assert (forall y, y ∈ nx :: post -> peer_key K T' ip <= peer_key K T' y) as Hafter.
    { intros y [->|Hy]%elem_of_cons; [lia|]. specialize (Hnx y Hy). lia. }
    apply sorted_by_app. split_and!; [done|by apply sorted_by_cons|].
    intros x y Hx [->|Hy]%elem_of_cons; auto.
Qed.
End schedule.

End ReceiverSchedule.
