(* ===== verification/ReceiverInv.v ===== *)
(** * ReceiverInv: the Receiver's invariant and the primitive steps

    [inv x s] says what holds of the Receiver between operations ([x = None]) and
    while an operation works on the message [x]: the buckets hold exactly the
    live messages, each message agrees with its packets, the schedule is in order
    and holds exactly the messages that are linked to a peer, and the queue of
    received messages holds complete ones.  The lemmas show how each primitive of
    Receiver.v changes a state that satisfies it. *)

From S2P Require Import Prelude Intrusive Util Timeout ObjectPool Perf Protocol Policy Driver SenderMessage ReceiverMessage Receiver ReceiverSchedule.
Import Driver ReceiverMessage Receiver ReceiverSchedule.

Module ReceiverInv.

Section inv.
Context `{DriverLaws}.
Implicit Types (s : Receiver) (p q : ptr) (m : Message) (x : option ptr) (b : Z) (w : World) (ip : IpAddress).

Record bucket_ok w (k : MessageBucket) : Prop := {
  bo_nodup : NoDup (messages k);
  bo_mt : timeouts_ok (now w) (messageTimeouts k);
  bo_rt : timeouts_ok (now w) (resendTimeouts k);
  bo_mt_in : forall p, p ∈ timeouts (messageTimeouts k) -> p ∈ messages k;
  bo_rt_in : forall p, p ∈ timeouts (resendTimeouts k) -> p ∈ messages k;
  bo_mt_clock : forall n, rdtsc_nth n < rdtsc_nth n + timeoutIntervalCycles (messageTimeouts k) < 2 ^ 64;
  bo_rt_clock : forall n, rdtsc_nth n < rdtsc_nth n + timeoutIntervalCycles (resendTimeouts k) < 2 ^ 64
}.

(** What trySendGrants needs of the policy. *)
Record policy_ok (pol : Policy.Manager) : Prop := {
  po_min : 0 <= Policy.minScheduledBytes (Policy.localScheduledPolicy pol) <=
    Policy.maxScheduledBytes (Policy.localScheduledPolicy pol);
  po_max : Policy.maxScheduledBytes (Policy.localScheduledPolicy pol) + SenderMessage.maxMessageLength < 2 ^ 31;
  po_priority : 0 <= Policy.maxScheduledPriority (Policy.localScheduledPolicy pol) < 2 ^ 8;
  po_overcommit : Policy.maxScheduledPriority (Policy.localScheduledPolicy pol) <
    Policy.degreeOvercommitment (Policy.localScheduledPolicy pol)
}.

(** The message is linked to the peer [ip]. *)
Definition linked_to m : option IpAddress := ReceiverMessage.peer (scheduledMessageInfo m).

Record inv x s : Prop := {
  inv_pool : pool_ok (messageAllocator s);
  inv_policy : policy_ok (policyManager s);
  inv_message : forall p m, heap s !! p = Some m -> Some p <> x -> message_ok m;
  inv_bucket : forall b, bucket_ok (world s) (messageBuckets s b);
  inv_in : forall b p, p ∈ messages (messageBuckets s b) ->
    exists m, heap s !! p = Some m /\ getBucket (id m) = b;
  inv_home : forall p m, heap s !! p = Some m -> Some p <> x ->
    p ∈ messages (messageBuckets s (getBucket (id m)));
  inv_ids : forall p q m n, heap s !! p = Some m -> heap s !! q = Some n -> id m = id n -> p = q;
  inv_order : in_order (remaining (heap s)) (scheduledMessages s) (scheduledPeers s);
  inv_scheduled : forall ip p, p ∈ scheduledMessages s ip ->
    exists m, heap s !! p = Some m /\ linked_to m = Some ip;
  inv_linked : forall p m ip, heap s !! p = Some m -> linked_to m = Some ip ->
    p ∈ scheduledMessages s ip /\ SenderMessage.ip (source m) = ip /\ scheduled m = true;
  inv_received_nodup : NoDup (receivedMessages s);
  inv_received : forall p, p ∈ receivedMessages s -> exists m, heap s !! p = Some m /\ state m <> IN_PROGRESS;
  inv_resend : forall b p, p ∈ timeouts (resendTimeouts (messageBuckets s b)) ->
    Some p = x \/ exists m, heap s !! p = Some m /\ state m = IN_PROGRESS
}.

Lemma rcv_inv_weaken p s : inv None s -> inv (Some p) s.
Proof.
  intros []. split; try done.
  - intros q m Hq _. by eapply inv_message0.
  - intros q m Hq _. by eapply inv_home0.
  - intros b q Hq. destruct (inv_resend0 b q Hq) as [?|?]; [done|by right].
Qed.

(** Nothing of the invariant is about the other fields. *)
Lemma rcv_inv_ext x s s' :
  messageBuckets s' = messageBuckets s -> peerTable s' = peerTable s -> scheduledPeers s' = scheduledPeers s ->
  receivedMessages s' = receivedMessages s -> messageAllocator s' = messageAllocator s ->
  policyManager s' = policyManager s -> world s' = world s -> inv x s -> inv x s'.
Proof.
  destruct s, s'. cbn. intros -> -> -> -> -> -> -> []. split; assumption.
Qed.

Lemma rcv_bucket_ok_world w w' k : now w <= now w' -> bucket_ok w k -> bucket_ok w' k.
Proof. intros Hn []. split; eauto using timeouts_ok_later. Qed.

Lemma rcv_inv_world x s w : now (world s) <= now w -> inv x s -> inv x (s <| world := w |>).
Proof. intros Hn []. split; try done. intros b. exact (rcv_bucket_ok_world _ _ _ Hn (inv_bucket0 b)). Qed.

Lemma rcv_inv_tick x s : inv x s -> inv x (s <| world ::= fun w => w <| clock_reads ::= S |> |>).
Proof. intros Hi. apply (rcv_inv_world x s); [apply now_mono|done]. Qed.

(** ** Steps that leave messages, schedule and queue alone *)

Record agree (evs : list Event) s s' : Prop := {
  ag_alloc : messageAllocator s' = messageAllocator s;
  ag_table : peerTable s' = peerTable s;
  ag_peers : scheduledPeers s' = scheduledPeers s;
  ag_received : receivedMessages s' = receivedMessages s;
  ag_messages : forall b, messages (messageBuckets s' b) = messages (messageBuckets s b);
  ag_policy : policyManager s' = policyManager s;
  ag_granting : granting s' = granting s;
  ag_trace : trace (world s') = trace (world s) ++ evs;
  ag_clock : now (world s) <= now (world s')
}.

Lemma rcv_agree_refl s : agree [] s s.
Proof. split; try done. by rewrite app_nil_r. Qed.
Lemma rcv_agree_trans e1 e2 s1 s2 s3 : agree e1 s1 s2 -> agree e2 s2 s3 -> agree (e1 ++ e2) s1 s3.
Proof. intros [] []. split; try congruence; [|lia]. rewrite app_assoc. congruence. Qed.
Lemma rcv_agree_trans_nil s1 s2 s3 : agree [] s1 s2 -> agree [] s2 s3 -> agree [] s1 s3.
Proof. apply (rcv_agree_trans [] []). Qed.
Lemma agree_heap evs s s' : agree evs s s' -> heap s' = heap s.
Proof. intros []. congruence. Qed.
Lemma agree_lists evs s s' ip : agree evs s s' -> scheduledMessages s' ip = scheduledMessages s ip.
Proof. intros []. unfold scheduledMessages. congruence. Qed.

Lemma rcv_agree_update_bucket s b k :
  messages k = messages (messageBuckets s b) ->
  agree [] s (s <| messageBuckets ::= fun bs => <[b := k]> bs |>).
Proof.
  intros Hk. split; try done; [|by rewrite app_nil_r]. intros c. unfold over; cbn [messageBuckets].
  destruct (decide (c = b)) as [->|]; [by rewrite fn_lookup_insert|by rewrite fn_lookup_insert_ne].
Qed.
Lemma rcv_agree_tick s : agree [] s (s <| world ::= fun w => w <| clock_reads ::= S |> |>).
Proof. split; try done; [|apply now_mono]. unfold over; cbn. by rewrite app_nil_r. Qed.
Lemma rcv_agree_world s f evs :
  (forall w, now (f w) = now w) -> trace (f (world s)) = trace (world s) ++ evs ->
  agree evs s (s <| world ::= f |>).
Proof. intros Hn Ht. split; try done. unfold over; cbn [world]. by rewrite Hn. Qed.

Lemma rcv_wp_world_op x evs f s (Q : unit -> Receiver -> Prop) :
  inv x s -> (forall w, now (f w) = now w) -> trace (f (world s)) = trace (world s) ++ evs ->
  (forall s', inv x s' -> agree evs s s' -> Q tt s') -> wp (world_op (modify f)) s Q.
Proof.
  intros Hi Hn Ht HQ. unfold world_op. repeat wp_step. apply HQ.
  - apply rcv_inv_world; [by rewrite Hn|done].
  - by apply (rcv_agree_world s f).
Qed.
Lemma rcv_wp_count_s x c n s (Q : unit -> Receiver -> Prop) :
  inv x s -> (forall s', inv x s' -> agree [] s s' -> Q tt s') -> wp (world_op (count c n)) s Q.
Proof. intros Hi HQ. eapply (rcv_wp_world_op x []); [done|done|by rewrite app_nil_r|done]. Qed.
Lemma rcv_wp_emit_s x e s (Q : unit -> Receiver -> Prop) :
  inv x s -> (forall s', inv x s' -> agree [e] s s' -> Q tt s') -> wp (world_op (emit e)) s Q.
Proof. intros Hi HQ. by eapply (rcv_wp_world_op x [e]). Qed.
Lemma rcv_wp_release_packet x packet s (Q : unit -> Receiver -> Prop) :
  inv x s -> (forall s', inv x s' -> agree [EvRelease [pkt_id packet]] s s' -> Q tt s') ->
  wp (release_packet packet) s Q.
Proof. apply rcv_wp_emit_s. Qed.

Lemma rcv_wp_send_control_s {Hd : Type} `{Protocol.PacketHeaderLaws Hd} x dst (h : Hd) s
    (Q : unit -> Receiver -> Prop) :
  inv x s ->
  (forall s', inv x s' ->
     agree [EvSend dst getHighestPacketPriority (Protocol.encode h);
            EvRelease [Pos.of_succ_nat (allocated (world s))]] s s' -> Q tt s') ->
  wp (world_op (send_control dst h)) s Q.
Proof.
  intros Hi HQ. unfold world_op. repeat wp_step. apply wp_send_control. apply HQ.
  - by apply rcv_inv_world.
  - by split.
Qed.

Lemma rcv_wp_deref p m s (Q : Message -> Receiver -> Prop) : heap s !! p = Some m -> Q m s -> wp (deref p) s Q.
Proof. intros Hp HQ. unfold deref. repeat wp_step. by rewrite Hp. Qed.

(** ** Timeouts *)

Lemma rcv_inv_bucket_update x s b k :
  inv x s -> bucket_ok (world s) k -> messages k = messages (messageBuckets s b) ->
  (forall p, p ∈ timeouts (resendTimeouts k) -> p ∈ timeouts (resendTimeouts (messageBuckets s b)) \/
     Some p = x \/ exists m, heap s !! p = Some m /\ state m = IN_PROGRESS) ->
  inv x (s <| messageBuckets ::= fun bs => <[b := k]> bs |>).
Proof.
  intros [] Hk Hmk Hrk.
  assert (forall c, messages (<[b := k]> (messageBuckets s) c) = messages (messageBuckets s c)) as Hc.
  { intros c. destruct (decide (c = b)) as [->|]; [by rewrite fn_lookup_insert|by rewrite fn_lookup_insert_ne]. }
  unfold over; split; cbn [messageAllocator policyManager messageBuckets world]; try done.
  - intros c. destruct (decide (c = b)) as [->|]; [by rewrite fn_lookup_insert|by rewrite fn_lookup_insert_ne].
  - intros c q. rewrite Hc. apply inv_in0.
  - intros q n Hqn Hne. rewrite Hc. by apply inv_home0.
  - intros c q. destruct (decide (c = b)) as [->|]; [rewrite fn_lookup_insert|by rewrite fn_lookup_insert_ne; eauto].
    intros Hq. destruct (Hrk q Hq) as [?|?]; [eauto|done].
Qed.

Lemma rcv_wp_set_messageTimeout x b p s (Q : unit -> Receiver -> Prop) :
  inv x s -> p ∈ messages (messageBuckets s b) ->
  (forall s', inv x s' -> agree [] s s' -> Q tt s') -> wp (set_messageTimeout b p) s Q.
Proof.
  intros Hi Hp HQ. unfold set_messageTimeout, world_op, update_bucket. repeat wp_step.
  apply wp_rdtsc. set (s1 := s <| world := _ |>).
  assert (inv x s1) as Hi1 by apply (rcv_inv_tick x s Hi).
  assert (agree [] s s1) as Ha1 by apply (rcv_agree_tick s).
  destruct (inv_bucket _ _ Hi b) as [B1 B2 B3 B4 B5 B6 B7].
  repeat wp_step. apply HQ.
  - apply rcv_inv_bucket_update; [done| |done|auto].
    destruct (inv_bucket _ _ Hi1 b) as [C1 C2 C3 C4 C5 C6 C7].
    unfold over; split; cbn [messages messageTimeouts resendTimeouts]; try done.
    + eapply timeouts_ok_later; [apply now_mono|].
      apply timeouts_ok_set with (last := now (world s)); [exact B2|done|].
      specialize (B6 (clock_reads (world s))). pose proof (rdtsc_nonneg (clock_reads (world s))).
      change (messageBuckets s1 b) with (messageBuckets s b). unfold now. lia.
    + intros q. rewrite timeouts_setTimeout.
      intros [[Hq _]%elem_of_list_remove|Hq%list_elem_of_singleton]%elem_of_app;
        [auto|by apply B2|by subst].
    + intros n. rewrite setTimeout_interval. apply B6.
  - eapply rcv_agree_trans_nil; [done|]. by apply rcv_agree_update_bucket.
Qed.

Lemma wp_set_resendTimeout x b p s (Q : unit -> Receiver -> Prop) :
  inv x s -> p ∈ messages (messageBuckets s b) ->
  (Some p = x \/ exists m, heap s !! p = Some m /\ state m = IN_PROGRESS) ->
  (forall s', inv x s' -> agree [] s s' ->
     resendTimeouts (messageBuckets s' b) =
       setTimeout (now (world s)) p (resendTimeouts (messageBuckets s b)) -> Q tt s') ->
  wp (set_resendTimeout b p) s Q.
Proof.
  intros Hi Hp Hst HQ. unfold set_resendTimeout, world_op, update_bucket. repeat wp_step.
  apply wp_rdtsc. set (s1 := s <| world := _ |>).
  assert (inv x s1) as Hi1 by apply (rcv_inv_tick x s Hi).
  assert (agree [] s s1) as Ha1 by apply (rcv_agree_tick s).
  destruct (inv_bucket _ _ Hi b) as [B1 B2 B3 B4 B5 B6 B7].
  assert (forall q (l : list ptr), q ∈ list_remove p (timeouts (resendTimeouts (messageBuckets s b))) ++ [p] ->
    q ∈ timeouts (resendTimeouts (messageBuckets s b)) \/ q = p) as Hin.
  { intros q _ [[Hq _]%elem_of_list_remove|Hq%list_elem_of_singleton]%elem_of_app; [auto|by apply B3|auto]. }
  repeat wp_step. apply HQ.
  - apply rcv_inv_bucket_update; [done| |done|].
    + destruct (inv_bucket _ _ Hi1 b) as [C1 C2 C3 C4 C5 C6 C7].
      unfold over; split; cbn [messages messageTimeouts resendTimeouts]; try done.
      * eapply timeouts_ok_later; [apply now_mono|].
        apply timeouts_ok_set with (last := now (world s)); [exact B3|done|].
        specialize (B7 (clock_reads (world s))). pose proof (rdtsc_nonneg (clock_reads (world s))).
        change (messageBuckets s1 b) with (messageBuckets s b). unfold now. lia.
      * intros q. rewrite timeouts_setTimeout. intros Hq. apply (Hin q []) in Hq as [?| ->]; auto.
      * intros n. rewrite setTimeout_interval. apply B7.
    + intros q. unfold over; cbn [resendTimeouts]. rewrite timeouts_setTimeout. intros Hq.
      apply (Hin q []) in Hq as [?| ->]; [by left|by right].
  - eapply rcv_agree_trans_nil; [done|]. by apply rcv_agree_update_bucket.
  - unfold over; cbn [messageBuckets]. by rewrite fn_lookup_insert.
Qed.

Lemma rcv_wp_cancel_messageTimeout x b p s (Q : unit -> Receiver -> Prop) :
  inv x s ->
  (forall s', inv x s' -> agree [] s s' ->
     (forall c, messageTimeouts (messageBuckets s' c) = if decide (c = b)
        then cancelTimeout p (messageTimeouts (messageBuckets s b)) else messageTimeouts (messageBuckets s c)) ->
     (forall c, resendTimeouts (messageBuckets s' c) = resendTimeouts (messageBuckets s c)) ->
     Q tt s') ->
  wp (cancel_messageTimeout b p) s Q.
Proof.
  intros Hi HQ. unfold cancel_messageTimeout, update_bucket. wp_step.
  destruct (inv_bucket _ _ Hi b) as [B1 B2 B3 B4 B5 B6 B7]. apply HQ.
  - apply rcv_inv_bucket_update; [done| |done|auto].
    unfold over; split; cbn [messages messageTimeouts resendTimeouts]; auto with homa.
    + intros q. rewrite timeouts_cancelTimeout. intros [? _]%elem_of_list_remove; [auto|apply B2].
    + intros n. rewrite cancelTimeout_interval. auto.
  - by apply rcv_agree_update_bucket.
  - intros c. unfold over; cbn [messageBuckets]. case_decide as Hc;
      [subst; by rewrite fn_lookup_insert|by rewrite fn_lookup_insert_ne].
  - intros c. unfold over; cbn [messageBuckets]. destruct (decide (c = b)) as [->|];
      [by rewrite fn_lookup_insert|by rewrite fn_lookup_insert_ne].
Qed.

Lemma wp_cancel_resendTimeout x b p s (Q : unit -> Receiver -> Prop) :
  inv x s ->
  (forall s', inv x s' -> agree [] s s' ->
     (forall c, messageTimeouts (messageBuckets s' c) = messageTimeouts (messageBuckets s c)) ->
     (forall c, resendTimeouts (messageBuckets s' c) = if decide (c = b)
        then cancelTimeout p (resendTimeouts (messageBuckets s b)) else resendTimeouts (messageBuckets s c)) ->
     Q tt s') ->
  wp (cancel_resendTimeout b p) s Q.
Proof.
  intros Hi HQ. unfold cancel_resendTimeout, update_bucket. wp_step.
  destruct (inv_bucket _ _ Hi b) as [B1 B2 B3 B4 B5 B6 B7].
  assert (forall q, q ∈ timeouts (cancelTimeout p (resendTimeouts (messageBuckets s b))) ->
    q ∈ timeouts (resendTimeouts (messageBuckets s b))) as Hin.
  { intros q. rewrite timeouts_cancelTimeout. intros [? _]%elem_of_list_remove; [auto|apply B3]. }
  apply HQ.
  - apply rcv_inv_bucket_update; [done| |done|auto].
    unfold over; split; cbn [messages messageTimeouts resendTimeouts]; auto with homa.
    intros n. rewrite cancelTimeout_interval. auto.
  - by apply rcv_agree_update_bucket.
  - intros c. unfold over; cbn [messageBuckets]. destruct (decide (c = b)) as [->|];
      [by rewrite fn_lookup_insert|by rewrite fn_lookup_insert_ne].
  - intros c. unfold over; cbn [messageBuckets]. case_decide as Hc;
      [subst; by rewrite fn_lookup_insert|by rewrite fn_lookup_insert_ne].
Qed.

Lemma rcv_wp_cancel_timeouts x b p s (Q : unit -> Receiver -> Prop) :
  inv x s ->
  (forall s', inv x s' -> agree [] s s' ->
     (p ∉ timeouts (messageTimeouts (messageBuckets s' b))) ->
     (p ∉ timeouts (resendTimeouts (messageBuckets s' b))) ->
     messageTimeouts (messageBuckets s' b) = cancelTimeout p (messageTimeouts (messageBuckets s b)) -> Q tt s') ->
  wp (cancel_timeouts b p) s Q.
Proof.
  intros Hi HQ. unfold cancel_timeouts. wp_step.
  eapply rcv_wp_cancel_messageTimeout; [done|]. intros s1 Hi1 Ha1 Hm1 Hr1.
  eapply wp_cancel_resendTimeout; [done|]. intros s2 Hi2 Ha2 Hm2 Hr2.
  destruct (inv_bucket _ _ Hi b) as [B1 B2 B3 B4 B5 B6 B7].
  apply HQ; [done|by eapply rcv_agree_trans_nil| | |by rewrite Hm2, Hm1, decide_True].
  - rewrite Hm2, Hm1, decide_True, timeouts_cancelTimeout by done. apply not_in_list_remove, B2.
  - rewrite Hr2, decide_True, Hr1, timeouts_cancelTimeout by done. apply not_in_list_remove, B3.
Qed.

(** ** Finding a message *)

Lemma rcv_find_in_spec h msgId l :
  (forall p, p ∈ l -> is_Some (h !! p)) ->
  exists r, find_in h msgId l = Ok r /\
    match r with
    | Some p => p ∈ l /\ exists m, h !! p = Some m /\ id m = msgId
    | None => forall p m, p ∈ l -> h !! p = Some m -> id m <> msgId
    end.
Proof.
  induction l as [|p l IH]; intros Hl; simpl.
  - exists None. split; [done|]. intros p m Hp. by apply elem_of_nil in Hp.
  - destruct (Hl p) as [m Hm]; [by left|]. rewrite Hm, Protocol.eqMessageId_spec.
    case_bool_decide as Hid.
    + exists (Some p). split; [done|]. split; [by left|eauto].
    + destruct IH as ([q|] & -> & Hq); [intros; apply Hl; by right| |].
      * exists (Some q). split; [done|]. destruct Hq as [? ?]. split; [by right|done].
      * exists None. split; [done|]. intros q n [->|Hqin]%elem_of_cons Hn; [congruence|eauto].
Qed.

Lemma rcv_wp_findMessage s msgId (Q : option ptr -> Receiver -> Prop) :
  inv None s ->
  (forall p m, heap s !! p = Some m -> id m = msgId ->
     p ∈ messages (messageBuckets s (getBucket msgId)) -> Q (Some p) s) ->
  ((forall p m, heap s !! p = Some m -> id m <> msgId) -> Q None s) ->
  wp (findMessage (getBucket msgId) msgId) s Q.
Proof.
  intros Hi Hsome Hnone. unfold findMessage. repeat wp_step.
  destruct (rcv_find_in_spec (heap s) msgId (messages (messageBuckets s (getBucket msgId))))
    as (r & Hr & Hspec).
  { intros p Hp. destruct (inv_in _ _ Hi _ _ Hp) as (m & ? & _). eauto. }
  unfold wp, lift. rewrite Hr. destruct r as [p|].
  - destruct Hspec as (Hp & m & Hm & Hid). by eapply Hsome.
  - apply Hnone. intros p m Hm Hid. pose proof (inv_home _ _ Hi p m Hm) as Hp.
    rewrite Hid in Hp. by eapply Hspec; [apply Hp|..].
Qed.
End inv.

End ReceiverInv.
