(* ===== verification/ReceiverSteps.v ===== *)
(** * ReceiverSteps: changing a message and its place in the schedule

    [put p m' s] replaces the message at [p].  The lemmas show that schedule,
    unschedule and updateSchedule keep the schedule in order and leave
    everything else alone, and what destroying a message leaves behind. *)

From S2P Require Import Prelude Intrusive Util Timeout ObjectPool Perf Protocol Policy Driver SenderMessage ReceiverMessage Receiver ReceiverSchedule ReceiverInv.
Import Driver ReceiverMessage Receiver ReceiverSchedule ReceiverInv.

Module ReceiverSteps.

Section steps.
Context `{DriverLaws}.
Implicit Types (s : Receiver) (p q : ptr) (m : Message) (x : option ptr) (b : Z) (w : World) (ip : IpAddress).

Definition put p m' s : Receiver :=
  s <| messageAllocator ::= fun o => o <| objects ::= <[p := m']> |> |>.

Lemma rcv_heap_put p m s : heap (put p m s) = <[p := m]> (heap s).
Proof. done. Qed.
Lemma rcv_lookup_put p m s : heap (put p m s) !! p = Some m.
Proof. rewrite rcv_heap_put. apply lookup_insert_eq. Qed.
Lemma rcv_put_put p m1 m2 s : put p m2 (put p m1 s) = put p m2 s.
Proof. destruct s as [? ? ? ? ? ? [] ? ?]. unfold put, over; cbn. by rewrite insert_insert_eq. Qed.

Lemma rcv_wp_update_put p f m s (Q : unit -> Receiver -> Prop) :
  heap s !! p = Some m -> Q tt (put p (f m) s) -> wp (update p f) s Q.
Proof.
  intros Hp HQ. unfold update. wp_step. unfold put in HQ.
  destruct s as [? ? ? ? ? ? [] ? ?]. unfold over in *; cbn in *. by rewrite (alter_is_insert _ _ _ _ Hp).
Qed.

Lemma remaining_put p m h q :
  remaining (<[p := m]> h) q = if decide (q = p) then bytesRemaining (scheduledMessageInfo m) else remaining h q.
Proof.
  unfold remaining. case_decide as Hq; [subst; by rewrite lookup_insert_eq|by rewrite lookup_insert_ne].
Qed.

Lemma in_order_ext K K' T T' (Q : list Z) :
  (forall ip, T' ip = T ip) -> (forall ip q, q ∈ T ip -> K' q = K q) -> in_order K T Q -> in_order K' T' Q.
Proof.
  intros HT HK [H1 H2 H3 H4 H5]. split; [intros ip; rewrite HT..|done|intros ip; rewrite HT|]; auto.
  - eapply sorted_by_ext; [|apply H2]. intros q Hq. by rewrite (HK ip).
  - eapply sorted_by_ext; [|exact H5]. intros ip _. unfold peer_key. rewrite HT.
    destruct (T ip) as [|q l] eqn:E; [done|]. rewrite (HK ip); [done|]. rewrite E. by left.
Qed.

Lemma deprioritize_ext {A} `{EqDecision A} comp comp' (a : A) (l : list A) :
  (forall y, comp a y = comp' a y) -> deprioritize comp a l = deprioritize comp' a l.
Proof.
  intros Hc. unfold deprioritize. destruct (split_at a l) as [pre post].
  assert (walk_forward comp a post = walk_forward comp' a post) as ->; [|done].
  induction post as [|y post IH]; simpl; [done|]. by rewrite Hc, IH.
Qed.

(** ** Replacing a message, and the schedule with it *)

(** [s'] is [s] with the message [m'] at [p] and possibly another schedule. *)
Record reput p m' s s' : Prop := {
  rp_heap : heap s' = <[p := m']> (heap s);
  rp_pool : pool_ok (messageAllocator s) -> pool_ok (messageAllocator s');
  rp_buckets : messageBuckets s' = messageBuckets s;
  rp_received : receivedMessages s' = receivedMessages s;
  rp_policy : policyManager s' = policyManager s;
  rp_granting : granting s' = granting s;
  rp_world : world s' = world s
}.

Lemma pool_put p m m' s :
  heap s !! p = Some m -> pool_ok (messageAllocator s) -> pool_ok (messageAllocator (put p m' s)).
Proof.
  intros Hp Hok. pose proof (pool_ok_alter (messageAllocator s) (alter (fun _ => m') p) Hok) as Ha.
  unfold put, over in *; cbn in *. rewrite <- (alter_is_insert p (fun _ => m') m _ Hp).
  apply Ha. intros h. apply dom_alter_L.
Qed.

Lemma reput_put p m m' s : heap s !! p = Some m -> reput p m' s (put p m' s).
Proof. intros Hp. split; try done. by apply (pool_put p m). Qed.

Lemma inv_reput p m m' s s' :
  inv (Some p) s -> heap s !! p = Some m -> reput p m' s s' -> id m' = id m ->
  (p ∈ receivedMessages s -> state m' <> IN_PROGRESS) ->
  in_order (remaining (heap s')) (scheduledMessages s') (scheduledPeers s') ->
  (forall ip q, q <> p -> q ∈ scheduledMessages s' ip <-> q ∈ scheduledMessages s ip) ->
  (forall ip, p ∈ scheduledMessages s' ip <-> linked_to m' = Some ip) ->
  (forall ip, linked_to m' = Some ip -> SenderMessage.ip (source m') = ip /\ scheduled m' = true) ->
  inv (Some p) s'.
Proof.
  intros [] Hp [Rh Rp Rb Rr Rpol Rg Rw] Hid Hst Hord Hothers Hown Hlink.
  assert (forall q n, heap s' !! q = Some n -> q = p /\ n = m' \/ q <> p /\ heap s !! q = Some n) as Hcases.
  { intros q n. rewrite Rh, lookup_insert_Some. naive_solver. }
  assert (forall q n, heap s !! q = Some n -> exists n', heap s' !! q = Some n' /\ id n' = id n /\ (q <> p -> n' = n)) as Hlive.
  { intros q n Hn. rewrite Rh. destruct (decide (q = p)) as [->|Hq].
    - exists m'. rewrite lookup_insert_eq. simplify_eq. naive_solver.
    - exists n. by rewrite lookup_insert_ne. }
  split; rewrite ?Rb, ?Rr, ?Rpol, ?Rw; try done.
  - auto.
  - intros q n Hn Hne. destruct (Hcases q n Hn) as [[-> _]|[_ Hq]]; [congruence|]. by eapply inv_message0.
  - intros b q Hq. destruct (inv_in0 b q Hq) as (n & Hn & Hb). destruct (Hlive q n Hn) as (n' & ? & E & _).
    exists n'. by rewrite E.
  - intros q n Hn Hne. destruct (Hcases q n Hn) as [[-> _]|[_ Hq]]; [congruence|]. by apply inv_home0.
  - intros q r n n' Hn Hn' E.
    assert (forall q n, heap s' !! q = Some n -> exists n0, heap s !! q = Some n0 /\ id n0 = id n) as Hback.
    { intros q0 n0 Hq0. destruct (Hcases q0 n0 Hq0) as [[-> ->]|[_ Hq]]; eauto. }
    destruct (Hback q n Hn) as (n0 & ? & ?). destruct (Hback r n' Hn') as (n1 & ? & ?).
    eapply inv_ids0; [done..|congruence].
  - intros ip q Hq. destruct (decide (q = p)) as [->|Hne].
    + exists m'. rewrite Rh, lookup_insert_eq. split; [done|]. by apply Hown.
    + apply Hothers in Hq; [|done]. destruct (inv_scheduled0 ip q Hq) as (n & Hn & Hl).
      exists n. rewrite Rh, lookup_insert_ne by done. done.
  - intros q n ip Hn Hl. destruct (Hcases q n Hn) as [[-> ->]|[Hne Hq]].
    + split; [by apply Hown|by apply Hlink].
    + destruct (inv_linked0 q n ip Hq Hl) as (? & ? & ?). split; [by apply Hothers|done].
  - intros q Hq. destruct (inv_received0 q Hq) as (n & Hn & Hs). destruct (decide (q = p)) as [->|Hne].
    + exists m'. rewrite Rh, lookup_insert_eq. auto.
    + exists n. by rewrite Rh, lookup_insert_ne.
  - intros b q Hq. destruct (inv_resend0 b q Hq) as [?|(n & Hn & Hs)]; [by left|].
    destruct (decide (q = p)) as [->|Hne]; [by left|]. right. exists n. by rewrite Rh, lookup_insert_ne.
Qed.

Lemma own_list x p m s ip :
  inv x s -> heap s !! p = Some m -> p ∈ scheduledMessages s ip <-> linked_to m = Some ip.
Proof.
  intros Hi Hp. split.
  - intros Hin. destruct (inv_scheduled _ _ Hi ip p Hin) as (n & Hn & Hl). congruence.
  - intros Hl. by apply (inv_linked _ _ Hi p m ip).
Qed.

(** A change of the message that the schedule does not see. *)
Lemma rcv_inv_put_own p m m' s :
  inv (Some p) s -> heap s !! p = Some m -> id m' = id m -> source m' = source m ->
  scheduled m' = scheduled m -> linked_to m' = linked_to m ->
  (linked_to m <> None -> bytesRemaining (scheduledMessageInfo m') = bytesRemaining (scheduledMessageInfo m)) ->
  (p ∈ receivedMessages s -> state m' <> IN_PROGRESS) -> inv (Some p) (put p m' s).
Proof.
  intros Hi Hp Hid Hsrc Hsch Hl Hb Hst.
  eapply inv_reput; [exact Hi|exact Hp|by apply (reput_put p m)|done|done| | | |].
  - eapply in_order_ext; [| |exact (inv_order _ _ Hi)]; [done|].
    intros ip q Hq. rewrite rcv_heap_put, remaining_put. case_decide as Hqp; [|done]. subst q.
    apply (own_list _ _ m _ _ Hi Hp) in Hq. unfold remaining. rewrite Hp. apply Hb. congruence.
  - done.
  - intros ip. rewrite Hl. exact (own_list (Some p) p m s ip Hi Hp).
  - intros ip. rewrite Hl, Hsrc, Hsch. intros E. by apply (inv_linked _ _ Hi p m ip).
Qed.

Lemma rcv_inv_done p m s :
  inv (Some p) s -> heap s !! p = Some m -> message_ok m -> p ∈ messages (messageBuckets s (getBucket (id m))) ->
  (state m = IN_PROGRESS \/ forall b, p ∉ timeouts (resendTimeouts (messageBuckets s b))) -> inv None s.
Proof.
  intros [] Hp Hok Hin Hr. split; try done.
  - intros q n Hn _. destruct (decide (q = p)) as [->|Hq]; [by simplify_eq|]. apply (inv_message0 q n Hn). congruence.
  - intros q n Hn _. destruct (decide (q = p)) as [->|Hq]; [by simplify_eq|]. apply (inv_home0 q n Hn). congruence.
  - intros b q Hq. right. destruct (inv_resend0 b q Hq) as [[= ->]|?]; [|done].
    exists m. split; [done|]. destruct Hr as [?|Hr]; [done|]. by apply Hr in Hq.
Qed.

(** ** schedule, unschedule, updateSchedule *)

Lemma wp_check_peers s (Q : unit -> Receiver -> Prop) :
  (forall ip, ip ∈ scheduledPeers s -> scheduledMessages s ip <> []) -> Q tt s -> wp check_peers s Q.
Proof.
  intros Hp HQ. unfold check_peers. repeat wp_step; [|done]. apply forallb_forall. intros ip Hip.
  apply negb_true_iff, bool_decide_eq_false. apply Hp. by apply list_elem_of_In.
Qed.

(** Setting the list of [ip] in the table. *)
Lemma lists_set s ip l jp :
  scheduledMessages (s <| peerTable ::= <[ip := l]> |>) jp = <[ip := l]> (scheduledMessages s) jp.
Proof.
  unfold scheduledMessages, over; cbn [peerTable]. destruct (decide (jp = ip)) as [->|Hne].
  - by rewrite fn_lookup_insert, lookup_insert_eq.
  - by rewrite fn_lookup_insert_ne, lookup_insert_ne.
Qed.

Definition link (o : option IpAddress) m : Message :=
  m <| scheduledMessageInfo ::= fun i => i <| ReceiverMessage.peer := o |> |>.

Lemma ComparePeer_key s (K : ptr -> Z) T a c :
  (forall ip, scheduledMessages s ip = T ip) -> (forall q, remaining (heap s) q = K q) ->
  ComparePeer s a c = by_key (peer_key K T) a c.
Proof.
  intros HT HK. assert (forall ip, peer_remaining s ip = peer_key K T ip) as Hp.
  { intros ip. unfold peer_remaining, peer_key. rewrite HT. destruct (T ip); auto. }
  unfold ComparePeer, by_key. by rewrite !Hp.
Qed.

(** The message at [p] and the list of its peer change. *)
Lemma inv_relist p m m' s s' l' :
  let ip := SenderMessage.ip (source m) in
  inv (Some p) s -> heap s !! p = Some m -> reput p m' s s' ->
  id m' = id m -> source m' = source m -> scheduled m' = true -> state m' = state m ->
  peerTable s' = <[ip := l']> (peerTable s) ->
  (forall q, q <> p -> q ∈ l' <-> q ∈ scheduledMessages s ip) ->
  linked_to m' = (if bool_decide (p ∈ l') then Some ip else None) ->
  in_order (remaining (heap s')) (<[ip := l']> (scheduledMessages s)) (scheduledPeers s') ->
  inv (Some p) s'.
Proof.
  intros ip Hi Hp Hr Hid Hsrc Hsch Hst Ht Hl Hlink Hord.
  assert (forall jp, scheduledMessages s' jp = <[ip := l']> (scheduledMessages s) jp) as HT.
  { intros jp. rewrite <- lists_set. unfold scheduledMessages. by rewrite Ht. }
  assert (forall jp, jp <> ip -> p ∉ scheduledMessages s jp) as Hnot.
  { intros jp Hj Hin. apply (own_list _ _ m _ _ Hi Hp) in Hin.
    apply Hj. symmetry. by apply (inv_linked _ _ Hi p m jp). }
  eapply (inv_reput p m m' s); try done.
  - intros Hin. destruct (inv_received _ _ Hi p Hin) as (n & ? & ?). simplify_eq. congruence.
  - eapply in_order_ext; [exact HT|done|exact Hord].
  - intros jp q Hne. rewrite HT. destruct (decide (jp = ip)) as [->|Hj];
      [rewrite fn_lookup_insert; auto|by rewrite fn_lookup_insert_ne].
  - intros jp. rewrite HT, Hlink. destruct (decide (jp = ip)) as [->|Hj].
    + rewrite fn_lookup_insert. by case_bool_decide.
    + rewrite fn_lookup_insert_ne by done. split; [by intros ?%Hnot|]. case_bool_decide; congruence.
  - intros jp. rewrite Hlink, Hsrc. case_bool_decide; [|done]. by intros [= <-].
Qed.

Lemma remaining_same p m m' h q :
  h !! p = Some m -> bytesRemaining (scheduledMessageInfo m') = bytesRemaining (scheduledMessageInfo m) ->
  remaining (<[p := m']> h) q = remaining h q.
Proof. intros Hp E. rewrite remaining_put. case_decide; [subst|done]. unfold remaining. by rewrite Hp. Qed.

(** A step that sets the list of the peer of [p], the message and the peers. *)
Lemma reput_relist p m m' s t f :
  heap s !! p = Some m -> reput p m' s ((put p m' (s <| peerTable := t |>)) <| scheduledPeers ::= f |>).
Proof. intros Hp. split; try done. intros Hok. exact (pool_put p m m' s Hp Hok). Qed.

Lemma wp_schedule p m s (Q : unit -> Receiver -> Prop) :
  inv (Some p) s -> heap s !! p = Some m -> linked_to m = None -> scheduled m = true ->
  (forall s', inv (Some p) s' -> reput p (link (Some (ip (source m))) m) s s' -> Q tt s') ->
  wp (schedule p) s Q.
Proof.
  intros Hi Hp Hl Hsch HQ. unfold schedule. wp_step. eapply rcv_wp_deref; [done|].
  set (ip := SenderMessage.ip (source m)). set (m' := link (Some ip) m).
  assert (p ∉ scheduledMessages s ip) as Hnot
    by (intros Hin; apply (own_list _ _ m _ _ Hi Hp) in Hin; congruence).
  repeat wp_step; [by apply bool_decide_true|]. unfold set_scheduledMessages, update_info. repeat wp_step.
  set (K := remaining (heap s)). set (T := scheduledMessages s). set (l' := add_message K p T ip).
  apply (rcv_wp_update_put p _ m); [done|]. set (s2 := put p m' (s <| peerTable ::= <[ip := l']> |>)).
  match goal with |- wp ?k _ _ => change (wp k s2 Q) end.
  assert (forall jp, scheduledMessages s2 jp = <[ip := l']> T jp) as HT by (intros jp; apply (lists_set s ip l' jp)).
  assert (forall q, remaining (heap s2) q = K q) as HK by (intros q; by apply (remaining_same p m)).
  pose proof (inv_order _ _ Hi) as Hord. pose proof (add_in_order K T (scheduledPeers s) p ip Hord Hnot) as Hadd.
  assert (l' ≡ₚ p :: T ip) as Hperm by (apply deprioritize_Permutation; by left).
  assert (forall f, f (scheduledPeers s) = add_peers K (<[ip := l']> T) p ip (scheduledPeers s) ->
    Q tt (s2 <| scheduledPeers ::= f |>)) as Hdone.
  { intros f Hf. apply HQ; [|by apply (reput_relist p m)].
    eapply (inv_relist p m m' s _ l'); try done.
    - by apply (reput_relist p m).
    - intros q Hne. rewrite Hperm. set_solver.
    - rewrite bool_decide_true; [done|]. rewrite Hperm. by left.
    - eapply in_order_ext; [done|intros jp q _; apply HK|]. change (scheduledPeers _) with (f (scheduledPeers s)).
      rewrite Hf. exact Hadd. }
  assert (forall jp, jp ∈ scheduledPeers s2 -> scheduledMessages s2 jp <> []) as Hcp.
  { intros jp Hjp E. rewrite HT in E. apply (io_peers _ _ _ Hord) in Hjp.
    destruct (decide (jp = ip)) as [->|Hj]; [|by rewrite fn_lookup_insert_ne in E].
    rewrite fn_lookup_insert in E. rewrite E in Hperm. by apply Permutation_nil_cons in Hperm. }
  repeat wp_step. change (scheduledPeers s2) with (scheduledPeers s) in *. rewrite HT, fn_lookup_insert.
  destruct (bool_decide (ip ∈ scheduledPeers s)) eqn:Hin; cbn [negb]; bool_to_prop.
  - destruct (bool_decide (head l' = Some p)) eqn:Hh; bool_to_prop.
    + wp_step. apply wp_check_peers; [done|]. wp_step. apply Hdone. unfold add_peers.
      rewrite fn_lookup_insert. repeat case_bool_decide; try done. apply prioritize_ext. intros y. by apply ComparePeer_key.
    + wp_step. apply (Hdone (fun y => y)). unfold add_peers. rewrite fn_lookup_insert. by repeat case_bool_decide.
  - repeat wp_step.
    { assert (T ip = []) as E by (destruct (T ip) eqn:E; [done|]; exfalso; apply Hin, Hord; change (T ip <> []); by rewrite E).
      apply Nat.eqb_eq. by rewrite (Permutation_length Hperm), E. }
    apply wp_check_peers; [done|]. wp_step. apply Hdone. unfold add_peers.
    case_bool_decide; [done|]. apply deprioritize_ext. intros y. by apply ComparePeer_key.
Qed.
Lemma wp_unschedule p m ip s (Q : unit -> Receiver -> Prop) :
  inv (Some p) s -> heap s !! p = Some m -> linked_to m = Some ip ->
  (forall s', inv (Some p) s' -> reput p (link None m) s s' ->
     (forall jp, scheduledMessages s' jp = <[ip := list_remove p (scheduledMessages s ip)]> (scheduledMessages s) jp) ->
     scheduledPeers s' = remove_peers (remaining (heap s))
       (<[ip := list_remove p (scheduledMessages s ip)]> (scheduledMessages s)) ip (scheduledPeers s) -> Q tt s') ->
  wp (unschedule p) s Q.
Proof.
  intros Hi Hp Hl HQ. unfold unschedule. wp_step. eapply rcv_wp_deref; [done|].
  destruct (inv_linked _ _ Hi p m ip Hp Hl) as (Hin & Hip & Hsch).
  change (ReceiverMessage.peer (scheduledMessageInfo m)) with (linked_to m). rewrite Hl. set (m' := link None m).
  repeat wp_step; [by apply bool_decide_true|]. unfold set_scheduledMessages, update_info. repeat wp_step.
  set (K := remaining (heap s)). set (T := scheduledMessages s). set (l' := list_remove p (T ip)).
  apply (rcv_wp_update_put p _ m); [done|]. set (s2 := put p m' (s <| peerTable ::= <[ip := l']> |>)).
  match goal with |- wp ?k _ _ => change (wp k s2 Q) end.
  assert (forall jp, scheduledMessages s2 jp = <[ip := l']> T jp) as HT by (intros jp; apply (lists_set s ip l' jp)).
  assert (forall q, remaining (heap s2) q = K q) as HK by (intros q; by apply (remaining_same p m)).
  pose proof (inv_order _ _ Hi) as Hord. pose proof (remove_in_order K T (scheduledPeers s) p ip Hord Hin) as Hrem.
  assert (forall f, f (scheduledPeers s) = remove_peers K (<[ip := l']> T) ip (scheduledPeers s) ->
    Q tt (s2 <| scheduledPeers ::= f |>)) as Hdone.
  { intros f Hf. apply HQ; [|by apply (reput_relist p m)|exact HT|exact Hf].
    eapply (inv_relist p m m' s _ l'); rewrite ?Hip; try done.
    - by apply (reput_relist p m).
    - intros q Hne. unfold l'. rewrite elem_of_list_remove by apply Hord. tauto.
    - rewrite bool_decide_false; [done|]. apply not_in_list_remove, Hord.
    - eapply in_order_ext; [done|intros jp q _; apply HK|]. change (scheduledPeers _) with (f (scheduledPeers s)).
      rewrite Hf. exact Hrem. }
  assert (ip ∈ scheduledPeers s) as Hpeer.
  { apply Hord. intros E. rewrite E in Hin. by apply elem_of_nil in Hin. }
  change (scheduledPeers s2) with (scheduledPeers s) in *. rewrite bool_decide_true by done. cbn [negb].
  destruct (bool_decide (l' = [])) eqn:He; bool_to_prop.
  { wp_step. apply Hdone. unfold remove_peers. rewrite fn_lookup_insert. by case_bool_decide. }
  unfold remove_peers in Hdone. rewrite fn_lookup_insert, bool_decide_false in Hdone by done.
  change (next_peer ip (scheduledPeers s)) with (head (split_at (A := Z) ip (scheduledPeers s)).2).
  change (IpAddress) with Z in *.
  destruct (head (split_at ip (scheduledPeers s)).2) as [nx|].
  2:{ wp_step. by apply (Hdone (fun y => y)). }
  wp_step. apply wp_check_peers.
  { intros jp Hjp E. rewrite HT in E. apply (io_peers _ _ _ Hord) in Hjp.
    destruct (decide (jp = ip)) as [->|Hj]; [by rewrite fn_lookup_insert in E|by rewrite fn_lookup_insert_ne in E]. }
  repeat wp_step. rewrite (ComparePeer_key s2 K (<[ip := l']> T)) by done.
  destruct (by_key _ nx ip) eqn:Hb; cbn [negb]; wp_step.
  - apply Hdone. apply deprioritize_ext. intros y. by apply ComparePeer_key.
  - by apply (Hdone (fun y => y)).
Qed.

(** handleDataPacket counts the bytes of a packet and restores the order. *)
Definition uncount (n : Z) m : Message :=
  m <| scheduledMessageInfo ::= fun i => i <| bytesRemaining ::= fun r => r - n |> |>.

Lemma wp_updateSchedule p m ip n s (Q : unit -> Receiver -> Prop) :
  inv (Some p) s -> heap s !! p = Some m -> linked_to m = Some ip -> 0 <= n ->
  (forall s', inv (Some p) s' -> reput p (uncount n m) s s' -> Q tt s') ->
  wp (updateSchedule p) (put p (uncount n m) s) Q.
Proof.
  intros Hi Hp Hl Hn HQ. unfold updateSchedule. wp_step. set (m' := uncount n m).
  eapply rcv_wp_deref; [apply rcv_lookup_put|].
  destruct (inv_linked _ _ Hi p m ip Hp Hl) as (Hin & Hip & Hsch).
  change (ReceiverMessage.peer (scheduledMessageInfo m')) with (linked_to m). rewrite Hl.
  repeat wp_step; [by apply bool_decide_true|]. unfold set_scheduledMessages. repeat wp_step.
  set (K := remaining (heap s)). set (K' := remaining (<[p := m']> (heap s))).
  set (T := scheduledMessages s). set (l' := up_message K' p T ip).
  set (s2 := put p m' (s <| peerTable ::= <[ip := l']> |>)).
  match goal with |- wp ?k _ _ => change (wp k s2 Q) end.
  assert (forall jp, scheduledMessages s2 jp = <[ip := l']> T jp) as HT by (intros jp; apply (lists_set s ip l' jp)).
  pose proof (inv_order _ _ Hi) as Hord.
  assert (l' ≡ₚ T ip) as Hperm by (by apply prioritize_Permutation).
  assert (in_order K' (<[ip := l']> T) (up_peers K' (<[ip := l']> T) p ip (scheduledPeers s))) as Hup.
  { apply (up_in_order K); [done|done| | |].
    - intros q Hq. apply (own_list _ _ m _ _ Hi Hp) in Hq. congruence.
    - intros q Hq. unfold K'. by rewrite remaining_put, decide_False.
    - unfold K', K. rewrite remaining_put, decide_True by done. unfold remaining. rewrite Hp.
      unfold m', uncount, over; cbn. lia. }
  assert (forall f, f (scheduledPeers s) = up_peers K' (<[ip := l']> T) p ip (scheduledPeers s) ->
    Q tt (s2 <| scheduledPeers ::= f |>)) as Hdone.
  { intros f Hf. apply HQ; [|by apply (reput_relist p m)].
    eapply (inv_relist p m m' s _ l'); rewrite ?Hip; try done.
    - by apply (reput_relist p m).
    - intros q Hne. by rewrite Hperm.
    - rewrite bool_decide_true; [done|by rewrite Hperm].
    - rewrite <- Hf in Hup. exact Hup. }
  rewrite HT, fn_lookup_insert. unfold up_peers in Hdone. rewrite fn_lookup_insert in Hdone.
  destruct (bool_decide (head l' = Some p)) eqn:Hh; wp_step.
  - repeat wp_step.
    { apply bool_decide_true. apply Hord. intros E. rewrite E in Hin. by apply elem_of_nil in Hin. }
    apply wp_check_peers.
    { intros jp Hjp E. rewrite HT in E. apply (io_peers _ _ _ Hord) in Hjp.
      destruct (decide (jp = ip)) as [->|Hj]; [|by rewrite fn_lookup_insert_ne in E].
      rewrite fn_lookup_insert in E. rewrite E in Hperm. apply Permutation_nil_l in Hperm. done. }
    wp_step. apply Hdone. apply prioritize_ext. intros y. by apply ComparePeer_key.
  - by apply (Hdone (fun y => y)).
Qed.

Lemma wp_count_down p m ip n s (Q : unit -> Receiver -> Prop) :
  inv (Some p) s -> heap s !! p = Some m -> linked_to m = Some ip ->
  0 <= n <= bytesRemaining (scheduledMessageInfo m) ->
  (forall s', inv (Some p) s' -> reput p (uncount n m) s s' -> Q tt s') ->
  wp (_ ← check (n <=? bytesRemaining (scheduledMessageInfo m));
      _ ← update_info p (fun i => i <| bytesRemaining ::= fun r => r - n |>); updateSchedule p) s Q.
Proof.
  intros Hi Hp Hl Hn HQ. repeat wp_step; [apply Z.leb_le; lia|].
  apply (rcv_wp_update_put p _ m); [done|]. by apply (wp_updateSchedule p m ip n); [..|lia|].
Qed.

Lemma link_None m : linked_to m = None -> link None m = m.
Proof. intros Hl. destruct m as [? ? ? ? ? ? ? ? ? ? []]. unfold link, over, linked_to in *; cbn in *. by subst. Qed.

Lemma reput_same p m s : heap s !! p = Some m -> reput p m s s.
Proof. intros Hp. split; try done. by rewrite insert_id. Qed.

Lemma wp_unschedule_if_linked p m s (Q : unit -> Receiver -> Prop) :
  inv (Some p) s -> heap s !! p = Some m ->
  (forall s', inv (Some p) s' -> reput p (link None m) s s' -> Q tt s') ->
  wp (unschedule_if_linked p) s Q.
Proof.
  intros Hi Hp HQ. unfold unschedule_if_linked. wp_step. eapply rcv_wp_deref; [done|].
  change (ReceiverMessage.peer (scheduledMessageInfo m)) with (linked_to m). wp_step.
  destruct (linked_to m) as [ip|] eqn:Hl.
  - destruct (inv_linked _ _ Hi p m ip Hp Hl) as (_ & _ & ->). rewrite bool_decide_false by done.
    apply (wp_unschedule p m ip); auto.
  - rewrite (bool_decide_true (None = None)), andb_false_r by done. wp_step. apply HQ; [done|].
    rewrite link_None by done. by apply reput_same.
Qed.

(** ** Destroying a message *)

Lemma release_all_same m m' :
  packets m' = packets m -> numPackets m' = numPackets m -> release_all m' = release_all m.
Proof.
  intros Hps Hn. unfold release_all. generalize (seqZ 0 MAX_MESSAGE_PACKETS) as l. intros l.
  generalize 0 as found. generalize (@nil positive) as range.
  induction l as [|i l IH]; intros range found; simpl; [done|]. rewrite Hps, Hn.
  destruct (found <? numPackets m); [|done]. destruct (packets m !! i); [by rewrite IH|].
  case_bool_decide; by rewrite IH.
Qed.

Lemma rcv_messages_forget (b c : Z) p (bs : Z -> MessageBucket) :
  messages (<[b := (bs b) <| messages ::= list_remove p |>]> bs c) =
  if decide (c = b) then list_remove p (messages (bs b)) else messages (bs c).
Proof. case_decide as Hc; [subst; by rewrite fn_lookup_insert|by rewrite fn_lookup_insert_ne]. Qed.

Definition forget b p s : Receiver :=
  s <| messageBuckets ::= fun bs => <[b := (bs b) <| messages ::= list_remove p |>]> bs |>.

Lemma messages_forget_at b c p s :
  messages (messageBuckets (forget b p s) c) = if decide (c = b)
    then list_remove p (messages (messageBuckets s b)) else messages (messageBuckets s c).
Proof. apply (rcv_messages_forget b c p (messageBuckets s)). Qed.

Lemma inv_forget b p s :
  inv (Some p) s ->
  p ∉ timeouts (messageTimeouts (messageBuckets s b)) ->
  p ∉ timeouts (resendTimeouts (messageBuckets s b)) ->
  inv (Some p) (forget b p s).
Proof.
  intros [] Hm Hp.
  pose proof (fun c => messages_forget_at b c p s) as Hmsgs.
  split; try done.
  - intros c. unfold forget, over; cbn [messageBuckets world]. destruct (decide (c = b)) as [->|];
      [rewrite fn_lookup_insert|by rewrite fn_lookup_insert_ne].
    destruct (inv_bucket0 b) as [B1 B2 B3 B4 B5 B6 B7].
    split; cbn [messages messageTimeouts resendTimeouts]; try done; auto with homa.
    + intros q Hqin. apply elem_of_list_remove; [done|]. split; [auto|by intros ->].
    + intros q Hqin. apply elem_of_list_remove; [done|]. split; [auto|by intros ->].
  - intros c q. rewrite Hmsgs. case_decide; [subst|apply inv_in0].
    intros [Hqin _]%elem_of_list_remove; [by apply inv_in0|apply inv_bucket0].
  - intros q n Hqn Hne. pose proof (inv_home0 q n Hqn Hne) as Hqin. rewrite Hmsgs. case_decide as Hc; [|done].
    rewrite Hc in Hqin. apply elem_of_list_remove; [apply inv_bucket0|]. split; [done|congruence].
  - intros c q Hq. apply (inv_resend0 c). unfold forget, over in Hq; cbn [messageBuckets] in Hq.
    destruct (decide (c = b)) as [->|]; [by rewrite fn_lookup_insert in Hq|by rewrite fn_lookup_insert_ne in Hq].
Qed.

Lemma rcv_linked_false x p m s :
  inv x s -> heap s !! p = Some m -> linked_to m = None -> p ∉ receivedMessages s ->
  (forall c, p ∉ messages (messageBuckets s c)) -> linked s p = false.
Proof.
  intros Hi Hp Hl Hr Hnot. unfold linked. rewrite bool_decide_false, orb_false_l by done.
  rewrite bool_decide_false, orb_false_l.
  - apply not_true_is_false. intros (c & _ & Hc)%existsb_exists. specialize (Hnot c).
    destruct (inv_bucket _ _ Hi c) as [C1 C2 C3 C4 C5 C6 C7].
    rewrite !orb_true_iff, !bool_decide_eq_true in Hc. naive_solver.
  - intros ([ip l] & Hin%elem_of_map_to_list & Hpl)%list.Exists_exists. cbn in Hpl.
    assert (p ∈ scheduledMessages s ip) as Hs by (unfold scheduledMessages; by rewrite Hin).
    apply (own_list _ _ m _ _ Hi Hp) in Hs. congruence.
Qed.

Lemma rcv_inv_delete p m o' s :
  inv (Some p) s -> heap s !! p = Some m -> linked_to m = None -> p ∉ receivedMessages s ->
  (forall c, p ∉ messages (messageBuckets s c)) ->
  pool_ok o' -> objects o' = delete p (heap s) -> inv None (s <| messageAllocator := o' |>).
Proof.
  intros Hi Hp Hl Hr Hnot Hpool' Ho'. pose proof Hi as [].
  set (s4 := s <| messageAllocator := o' |>). assert (heap s4 = delete p (heap s)) as Hh4 by done.
  split; try rewrite Hh4; try done.
  - intros q n [? Hqn]%lookup_delete_Some _. apply (inv_message0 q n Hqn). congruence.
  - intros c q Hqin. destruct (inv_in0 c q Hqin) as (n & ? & ?). exists n.
    rewrite lookup_delete_ne; [done|]. intros <-. by apply (Hnot c).
  - intros q n [? Hqn]%lookup_delete_Some _. apply (inv_home0 q n Hqn). congruence.
  - intros q r n n' [_ Hqn]%lookup_delete_Some [_ Hrn]%lookup_delete_Some. by eapply inv_ids0.
  - eapply in_order_ext; [done| |exact inv_order0]. intros ip q Hq. unfold remaining.
    rewrite lookup_delete_ne; [done|]. intros <-. apply (own_list _ _ m _ _ Hi Hp) in Hq. congruence.
  - intros ip q Hq. destruct (inv_scheduled0 ip q Hq) as (n & Hn & ?). exists n.
    rewrite lookup_delete_ne; [done|]. intros <-. congruence.
  - intros q n ip [_ Hqn]%lookup_delete_Some. by apply inv_linked0.
  - intros q Hq. destruct (inv_received0 q Hq) as (n & ? & ?). exists n.
    rewrite lookup_delete_ne; [done|]. by intros <-.
  - intros c q Hq. pose proof (bo_rt_in _ _ (inv_bucket0 c) q Hq) as Hin.
    assert (p <> q) by (intros <-; by apply (Hnot c)).
    destruct (inv_resend0 c q Hq) as [[= ?]|(n & ? & ?)]; [congruence|]. right. exists n. by rewrite lookup_delete_ne.
Qed.

Lemma wp_destroy_message p m s (Q : unit -> Receiver -> Prop) :
  inv (Some p) s -> heap s !! p = Some m -> linked_to m = None -> p ∉ receivedMessages s ->
  (forall c, p ∉ messages (messageBuckets s c)) ->
  (forall s', inv None s' -> heap s' = delete p (heap s) -> receivedMessages s' = receivedMessages s ->
     trace (world s') = trace (world s) ++ map EvRelease (release_all m) ->
     messageBuckets s' = messageBuckets s -> granting s' = granting s -> policyManager s' = policyManager s ->
     now (world s) <= now (world s') -> Q tt s') ->
  wp (destroy_message p) s Q.
Proof.
  intros Hi Hp Hl Hr Hnot HQ. unfold destroy_message. wp_step. eapply rcv_wp_deref; [done|]. wp_step.
  revert HQ. generalize (release_all m) as all. intros all HQ.
  apply (wp_for_each (fun rest s' => inv (Some p) s' /\ messageBuckets s' = messageBuckets s /\ exists ids,
    all = ids ++ rest /\ agree (map EvRelease ids) s s')).
  - split_and!; [done|done|]. exists []. split; [reflexivity|apply rcv_agree_refl].
  - intros ids rest s1 (Hi1 & Hb1 & before & Heq & Ha1).
    eapply (wp_mono _ _ (fun _ s2 => inv (Some p) s2 /\ agree [EvRelease ids] s1 s2 /\ messageBuckets s2 = messageBuckets s1)).
    + unfold releasePackets, emit, world_op. repeat wp_step. split_and!; [by apply rcv_inv_world|by split|done].
    + intros _ s2 (Hi2 & Ha2 & Hb2). split_and!; [done|congruence|]. exists (before ++ [ids]). rewrite <- app_assoc. split; [done|].
      rewrite map_app. by eapply rcv_agree_trans.
  - intros s1 (Hi1 & Hb1 & ids & Heq & Ha1). rewrite app_nil_r in Heq. subst all. repeat wp_step.
    assert (p ∉ receivedMessages s1) as Hr1 by (by rewrite (ag_received _ _ _ Ha1)).
    assert (forall c, p ∉ messages (messageBuckets s1 c)) as Hn1 by (intros c; by rewrite (ag_messages _ _ _ Ha1)).
    assert (heap s1 !! p = Some m) as Hp1 by (by rewrite (agree_heap _ _ _ Ha1)).
    rewrite (rcv_linked_false _ _ _ _ Hi1 Hp1 Hl Hr1 Hn1). unfold allocator_op. wp_step.
    eapply destroy_wp; [apply Hi1|done|done|]. intros o' Ho' Hpool. apply HQ; [..|apply Ha1].
    + by apply (rcv_inv_delete p m).
    + change (objects o' = delete p (heap s)). by rewrite Ho', (agree_heap _ _ _ Ha1).
    + apply Ha1.
    + apply Ha1.
    + done.
    + apply Ha1.
    + apply Ha1.
Qed.
End steps.

End ReceiverSteps.
