(* ===== verification/ReceiverHandlers.v ===== *)
(** * ReceiverHandlers: what the Receiver does with a packet

    Specifications of handleDataPacket, handleBusyPacket and handlePingPacket.
    [data_ok] says what a DATA packet of a conforming sender looks like. *)

From S2P Require Import Prelude Intrusive Util Timeout ObjectPool Perf Protocol Policy Driver SenderMessage ReceiverMessage Receiver ReceiverSchedule ReceiverInv ReceiverSteps.
Import Driver ReceiverMessage Receiver ReceiverSchedule ReceiverInv ReceiverSteps.

Module ReceiverHandlers.

Section handlers.
Context `{DriverLaws}.
Implicit Types (s : Receiver) (p q : ptr) (m : Message) (b i : Z) (ip : IpAddress) (packet : Packet).

(** ** A packet that is stored *)

(** What handling a packet leaves alone. *)
Record quiet s s' : Prop := {
  qu_policy : policyManager s' = policyManager s;
  qu_granting : granting s' = granting s;
  qu_clock : now (world s) <= now (world s')
}.
Lemma quiet_refl s : quiet s s.
Proof. by split. Qed.
Lemma quiet_trans s1 s2 s3 : quiet s1 s2 -> quiet s2 s3 -> quiet s1 s3.
Proof. intros [] []. split; [congruence..|lia]. Qed.
Lemma quiet_agree evs s s' : agree evs s s' -> quiet s s'.
Proof. intros []. by split. Qed.
Lemma quiet_reput p m s s' : reput p m s s' -> quiet s s'.
Proof. intros [_ _ _ _ Hp Hg Hw]. split; [done..|]. by rewrite Hw. Qed.

(** The messages that are left are the same ones, hold the same packets, and are
    complete only if they were. *)
Definition same_contents m m' : Prop :=
  id m' = id m /\ source m' = source m /\ messageLength m' = messageLength m /\ packets m' = packets m.
Definition keeps (h h' : gmap ptr Message) : Prop :=
  forall p m', h' !! p = Some m' ->
    exists m, h !! p = Some m /\ same_contents m m' /\ (state m = IN_PROGRESS -> state m' = IN_PROGRESS).
Lemma keeps_same h h' : h' = h -> keeps h h'.
Proof. intros -> p m Hp. by exists m. Qed.
Lemma keeps_trans h1 h2 h3 : keeps h1 h2 -> keeps h2 h3 -> keeps h1 h3.
Proof.
  intros H1 H2 p m3 Hp. destruct (H2 p m3 Hp) as (m2 & Hp2 & (? & ? & ? & ?) & ?).
  destruct (H1 p m2 Hp2) as (m1 & Hp1 & (? & ? & ? & ?) & ?). exists m1. split; [done|]. split; [|by auto].
  split_and!; congruence.
Qed.
Lemma keeps_insert h p m m' :
  h !! p = Some m -> same_contents m m' -> state m' = state m -> keeps h (<[p := m']> h).
Proof.
  intros Hp Hs Hst q n [[<- <-]|[_ Hq]]%lookup_insert_Some; [exists m|by exists n].
  split_and!; [done|done|by rewrite Hst].
Qed.
Lemma keeps_delete h p : keeps h (delete p h).
Proof. intros q n [_ Hq]%lookup_delete_Some. by exists n. Qed.

(** The part of packet_added that keeps the schedule. *)
Lemma wp_count_packet p m n s (Q : unit -> Receiver -> Prop) :
  inv (Some p) s -> heap s !! p = Some m ->
  (linked_to m <> None -> 0 <= n <= bytesRemaining (scheduledMessageInfo m)) ->
  (forall s', inv (Some p) s' -> reput p (counted n m) s s' -> Q tt s') ->
  wp (when (scheduled m && negb (bool_decide (ReceiverMessage.peer (scheduledMessageInfo m) = None)))
       (_ ← check (n <=? bytesRemaining (scheduledMessageInfo m));
        _ ← update_info p (fun info => info <| bytesRemaining ::= fun r => r - n |>); updateSchedule p)) s Q.
Proof.
  intros Hi Hp Hn HQ. unfold when. unfold counted in HQ.
  change (ReceiverMessage.peer (scheduledMessageInfo m)) with (linked_to m) in *.
  destruct (linked_to m) as [ip|] eqn:Hl.
  - destruct (inv_linked _ _ Hi p m ip Hp Hl) as (_ & _ & ->). rewrite bool_decide_false in * by done.
    apply (wp_count_down p m ip); try done. by apply Hn.
  - rewrite bool_decide_true in * by done. rewrite andb_false_r. wp_step. apply HQ; [done|by apply reput_same].
Qed.

Lemma counted_fields n m :
  id (counted n m) = id m /\ numPackets (counted n m) = numPackets m /\
  numExpectedPackets (counted n m) = numExpectedPackets m /\ state (counted n m) = state m /\
  packets (counted n m) = packets m /\ linked_to (counted n m) = linked_to m /\
  source (counted n m) = source m /\ scheduled (counted n m) = scheduled m.
Proof. unfold counted. by case_bool_decide. Qed.

(** What became of the message at [p]: [m'] instead of [m], and delivered if
    that completed it. *)
Record stored_at p m' s s' : Prop := {
  sa_heap : heap s' = <[p := m']> (heap s);
  sa_trace : trace (world s') = trace (world s);
  sa_received : receivedMessages s' =
    receivedMessages s ++ (if bool_decide (state m' = IN_PROGRESS) then [] else [p]);
  sa_quiet : quiet s s'
}.

(** The last packet of a message arrived. *)
Lemma wp_completed p m s (Q : unit -> Receiver -> Prop) :
  let m' := m <| state := COMPLETED |> in
  inv (Some p) s -> heap s !! p = Some m -> message_ok m' ->
  p ∈ messages (messageBuckets s (getBucket (id m))) -> p ∉ receivedMessages s ->
  (forall s', inv None s' -> stored_at p m' s s' -> Q tt s') ->
  wp (_ ← update p (fun m => m <| state := COMPLETED |>); _ ← cancel_resendTimeout (getBucket (id m)) p;
      s ← get; _ ← check (bool_decide (p ∉ receivedMessages s));
      _ ← modify (fun s => s <| receivedMessages ::= fun l => l ++ [p] |>);
      world_op (count Perf.received_rx_messages 1)) s Q.
Proof.
  intros m' Hi Hp Hok Hin Hnr HQ. wp_step. apply (rcv_wp_update_put p _ m); [done|]. fold m'.
  assert (inv (Some p) (put p m' s)) as Hi3 by (eapply rcv_inv_put_own; done).
  wp_step. eapply wp_cancel_resendTimeout; [exact Hi3|]. intros s4 Hi4 Ha4 _ Hrt4. repeat wp_step.
  { apply bool_decide_true. by rewrite (ag_received _ _ _ Ha4). }
  set (s5 := s4 <| receivedMessages ::= _ |>).
  assert (heap s4 = <[p := m']> (heap s)) as Hh4 by (by rewrite (agree_heap _ _ _ Ha4)).
  assert (heap s4 !! p = Some m') as Hp4 by (rewrite Hh4; apply lookup_insert_eq).
  assert (inv None s4) as Hi5'.
  { eapply (rcv_inv_done p m'); [done|done|done|by rewrite (ag_messages _ _ _ Ha4)|].
    right. intros c Hc. pose proof (bo_rt_in _ _ (inv_bucket _ _ Hi4 c) p Hc) as Hpc.
    assert (c = getBucket (id m)) as -> by (destruct (inv_in _ _ Hi4 c p Hpc) as (n & Hn & <-); by simplify_eq).
    rewrite Hrt4, decide_True, timeouts_cancelTimeout in Hc by done.
    by apply not_in_list_remove in Hc; [|apply (inv_bucket _ _ Hi3)]. }
  assert (inv None s5) as Hi5.
  { assert (p ∉ receivedMessages s4) as Hn4 by (by rewrite (ag_received _ _ _ Ha4)).
    destruct Hi5'. split; try done.
    - apply NoDup_app. split_and!; [done| |apply NoDup_singleton]. by intros q Hq ->%list_elem_of_singleton.
    - intros q [Hq| ->%list_elem_of_singleton]%elem_of_app; [by apply inv_received0|by exists m']. }
  eapply rcv_wp_count_s; [exact Hi5|]. intros s6 Hi6 Ha6. apply HQ; [done|]. split.
  - by rewrite (agree_heap _ _ _ Ha6).
  - rewrite (ag_trace _ _ _ Ha6), app_nil_r. change (trace (world s4) = trace (world s)).
    by rewrite (ag_trace _ _ _ Ha4), app_nil_r.
  - rewrite (ag_received _ _ _ Ha6), bool_decide_false by done.
    change (receivedMessages s4 ++ [p] = receivedMessages s ++ [p]). by rewrite (ag_received _ _ _ Ha4).
  - eapply (quiet_trans _ (put p m' s)); [by split|].
    eapply (quiet_trans _ s4); [by eapply quiet_agree|]. eapply (quiet_trans _ s5); [by split|by eapply quiet_agree].
Qed.

Lemma stored_at_after p m m' s s1 s2 :
  heap s1 = <[p := m]> (heap s) -> trace (world s1) = trace (world s) ->
  receivedMessages s1 = receivedMessages s -> quiet s s1 -> stored_at p m' s1 s2 -> stored_at p m' s s2.
Proof.
  intros Hh Ht Hr Hq []. split; [|congruence..|by eapply quiet_trans].
  by rewrite sa_heap0, Hh, insert_insert_eq.
Qed.

Lemma wp_packet_added p m i packet s (Q : unit -> Receiver -> Prop) :
  inv (Some p) s -> heap s !! p = Some (stored i packet m) -> message_ok m ->
  packets m !! i = None -> 0 <= i < numExpectedPackets m ->
  length packet = TRANSPORT_HEADER_LENGTH + chunk (messageLength m) i ->
  zlength (payload packet) = getMaxPayloadSize ->
  p ∈ messages (messageBuckets s (getBucket (id m))) -> p ∉ receivedMessages s ->
  (forall s', inv None s' -> stored_at p (received i packet m) s s' -> Q tt s') ->
  wp (packet_added (getBucket (id m)) p packet) s Q.
Proof.
  intros Hi Hp Hok Hnone Hr Hlen Hpay Hin Hnr HQ. unfold packet_added. wp_step.
  eapply rcv_wp_deref; [done|]. wp_step. set (n := length packet - TRANSPORT_HEADER_LENGTH).
  pose proof (received_ok i packet m Hok Hnone Hr Hlen Hpay) as Hok'.
  eapply (wp_count_packet p (stored i packet m) n); [done|done| |].
  { intros Hl. assert (0 < chunk (messageLength m) i).
    { apply chunk_range; [apply Hok|]. by rewrite <- (mo_expected _ Hok). }
    change (scheduledMessageInfo (stored i packet m)) with (scheduledMessageInfo m).
    rewrite (mo_remaining _ Hok Hl). pose proof (remaining_stored i packet m Hr Hnone) as Hrem.
    assert (0 <= remaining_bytes (stored i packet m)) by (unfold remaining_bytes; lia). specialize (Hrem ltac:(lia)). lia. }
  intros s1 Hi1 Hr1. change (received i packet m) with (finished (counted n (stored i packet m))) in *.
  destruct (counted_fields n (stored i packet m)) as (C1 & C2 & C3 & C4 & C5 & C6 & C7 & C8).
  rewrite <- C2, <- C3. set (m1 := counted n (stored i packet m)) in *.
  change (id m) with (id (stored i packet m)) in *. rewrite <- C1 in *. wp_step.
  eapply rcv_wp_set_messageTimeout; [done|by rewrite (rp_buckets _ _ _ _ Hr1)|]. intros s2 Hi2 Ha2.
  assert (p ∈ messages (messageBuckets s2 (getBucket (id m1)))) as Hin2
    by (by rewrite (ag_messages _ _ _ Ha2), (rp_buckets _ _ _ _ Hr1)).
  assert (heap s2 = <[p := m1]> (heap s)) as Hh2 by (by rewrite (agree_heap _ _ _ Ha2), (rp_heap _ _ _ _ Hr1)).
  assert (heap s2 !! p = Some m1) as Hp2 by (rewrite Hh2; apply lookup_insert_eq).
  assert (receivedMessages s2 = receivedMessages s) as Hrec2
    by (by rewrite (ag_received _ _ _ Ha2), (rp_received _ _ _ _ Hr1)).
  assert (forall m' s', stored_at p m' s2 s' -> stored_at p m' s s') as Hafter.
  { intros m' s'. apply (stored_at_after p m1); [done| |done|].
    - by rewrite (ag_trace _ _ _ Ha2), app_nil_r, (rp_world _ _ _ _ Hr1).
    - eapply quiet_trans; [by eapply quiet_reput|by eapply quiet_agree]. }
  unfold finished in *. destruct (numPackets m1 <? numExpectedPackets m1) eqn:Hlt.
  - eapply wp_set_resendTimeout; [done|done|by left|]. intros s3 Hi3 Ha3 _.
    assert (state m1 = IN_PROGRESS) as Hst by (apply (mo_state _ Hok'); by apply Z.ltb_lt).
    apply HQ.
    + eapply (rcv_inv_done p m1); [done|by rewrite (agree_heap _ _ _ Ha3)|done| |by left].
      by rewrite (ag_messages _ _ _ Ha3).
    + apply Hafter. split; [|by rewrite (ag_trace _ _ _ Ha3), app_nil_r| |by eapply quiet_agree].
      * rewrite (agree_heap _ _ _ Ha3). by rewrite insert_id.
      * rewrite bool_decide_true, app_nil_r by done. apply (ag_received _ _ _ Ha3).
  - apply (wp_completed p m1); [done..|by rewrite Hrec2|]. intros s' Hi' Hs'. apply HQ; [done|by apply Hafter].
Qed.

(** ** DATA *)

Definition data_header packet : Protocol.DataHeader := read_header Protocol.DataHeader packet.
Definition data_id packet : Protocol.MessageId := Protocol.messageId (Protocol.dh_common (data_header packet)).
Definition data_source packet ip : SocketAddress :=
  mkSocketAddress ip (Protocol.bswap16 (Protocol.sport (Protocol.prefix (Protocol.dh_common (data_header packet))))).

(** The message made for the first packet of an unknown id. *)
Definition announced packet ip : Message :=
  let h := data_header packet in
  let m := Message_new (Protocol.totalLength h) (data_id packet) (data_source packet ip)
             (Protocol.unscheduledIndexLimit h) in
  if scheduled m then link (Some ip) m else m.

(** A packet of a message of a legal length, at its place in the message. *)
Record packet_ok packet : Prop := {
  pk_total : 0 < Protocol.totalLength (data_header packet) <= SenderMessage.maxMessageLength;
  pk_limit : 0 <= Protocol.unscheduledIndexLimit (data_header packet) <= MAX_MESSAGE_PACKETS;
  pk_index : 0 <= Protocol.dh_index (data_header packet) < packets_for (Protocol.totalLength (data_header packet));
  pk_length : length packet = TRANSPORT_HEADER_LENGTH +
    chunk (Protocol.totalLength (data_header packet)) (Protocol.dh_index (data_header packet));
  pk_payload : zlength (payload packet) = getMaxPayloadSize
}.

(** The packets of a message agree on its source and its length. *)
Definition data_ok s packet ip : Prop :=
  packet_ok packet /\
  forall p m, heap s !! p = Some m -> id m = data_id packet ->
    source m = data_source packet ip /\ messageLength m = Protocol.totalLength (data_header packet).

Lemma announced_ok packet ip :
  packet_ok packet -> message_ok (announced packet ip) /\
  id (announced packet ip) = data_id packet /\ source (announced packet ip) = data_source packet ip /\
  packets (announced packet ip) = ∅ /\ state (announced packet ip) = IN_PROGRESS /\
  messageLength (announced packet ip) = Protocol.totalLength (data_header packet).
Proof.
  intros []. pose proof SenderMessage.data_length_range as HP. pose proof SenderMessage.maxMessageLength_eq as Hmax.
  unfold SenderMessage.MAX_MESSAGE_PACKETS in Hmax.
  assert (messageLength (announced packet ip) = Protocol.totalLength (data_header packet)) as Hlen.
  { transitivity (i32 (Protocol.totalLength (data_header packet))); [|apply i32_small; lia].
    unfold announced. by destruct (scheduled _). }
  split; [|unfold announced in *; by destruct (scheduled _)]. revert Hlen.
  unfold announced. set (h := data_header packet) in *.
  set (m := Message_new _ _ _ _).
  assert (message_ok m) as Hok by (by apply rcv_message_ok_new).
  destruct (scheduled m) eqn:Hs; [|done]. intros Hlen. destruct Hok.
  split; unfold link, over in *; cbn in *; try done. intros _.
  etransitivity; [|symmetry; by apply (remaining_new (Protocol.totalLength h) (data_id packet)
    (data_source packet ip) (Protocol.unscheduledIndexLimit h))]. done.
Qed.

Lemma inv_add p m o' s :
  inv None s -> heap s !! p = None -> pool_ok o' -> objects o' = <[p := m]> (heap s) ->
  (forall q n, heap s !! q = Some n -> id n <> id m) -> linked_to m = None ->
  let s' := s <| messageAllocator := o' |>
              <| messageBuckets ::= fun bs => <[getBucket (id m) := (bs (getBucket (id m))) <| messages ::= fun l => l ++ [p] |>]> bs |> in
  inv (Some p) s'.
Proof.
  intros Hi Hp Ho' Hh Hid Hl s'. pose proof Hi as []. assert (heap s' = <[p := m]> (heap s)) as Hh' by done.
  assert (forall q n, heap s !! q = Some n -> heap s' !! q = Some n) as Hlive.
  { intros q n Hn. rewrite Hh', lookup_insert_ne; [done|]. by intros <-; rewrite Hp in Hn. }
  assert (forall c, messages (messageBuckets s' c) =
    messages (messageBuckets s c) ++ (if decide (c = getBucket (id m)) then [p] else [])) as Hmsgs.
  { intros c. unfold s', over; cbn [messageBuckets]. case_decide as Hc;
      [subst; by rewrite fn_lookup_insert|by rewrite fn_lookup_insert_ne, app_nil_r]. }
  split; try done.
  - intros q n Hn Hne. rewrite Hh', lookup_insert_ne in Hn by congruence. eauto.
  - intros c. destruct (inv_bucket0 c) as [B1 B2 B3 B4 B5 B6 B7]. unfold s', over; cbn [messageBuckets world].
    destruct (decide (c = getBucket (id m))) as [->|Hc]; [|by rewrite fn_lookup_insert_ne].
    rewrite fn_lookup_insert. split; cbn [messages messageTimeouts resendTimeouts]; try done.
    + apply NoDup_app. split_and!; [done| |apply NoDup_singleton]. intros q Hq ->%list_elem_of_singleton.
      destruct (inv_in0 _ _ Hq) as (? & ? & _). congruence.
    + intros q Hq. apply elem_of_app. auto.
    + intros q Hq. apply elem_of_app. auto.
  - intros c q. rewrite Hmsgs. intros [Hq|Hq]%elem_of_app.
    + destruct (inv_in0 c q Hq) as (n & ? & ?). eauto.
    + case_decide as Hc; [|by apply elem_of_nil in Hq]. apply list_elem_of_singleton in Hq as ->.
      exists m. rewrite Hh', lookup_insert_eq. done.
  - intros q n Hn Hne. rewrite Hh', lookup_insert_ne in Hn by congruence.
    rewrite Hmsgs. apply elem_of_app. left. by apply inv_home0.
  - intros q r n n' Hn Hn' E. rewrite Hh' in Hn, Hn'.
    apply lookup_insert_Some in Hn as [[<- <-]|[_ Hn]], Hn' as [[<- <-]|[_ Hn']]; [done|..|eauto].
    + by apply Hid in Hn'.
    + by apply Hid in Hn.
  - eapply in_order_ext; [done| |exact inv_order0]. intros ip q Hq. unfold remaining.
    destruct (inv_scheduled0 ip q Hq) as (n & Hn & _). by rewrite (Hlive q n Hn), Hn.
  - intros ip q Hq. destruct (inv_scheduled0 ip q Hq) as (n & Hn & ?). eauto.
  - intros q n ip Hn Hln. rewrite Hh' in Hn. apply lookup_insert_Some in Hn as [[<- <-]|[_ Hn]]; [congruence|].
    by apply inv_linked0.
  - intros q Hq. destruct (inv_received0 q Hq) as (n & ? & ?). eauto.
  - intros c q Hq. assert (q ∈ timeouts (resendTimeouts (messageBuckets s c))) as Hq'.
    { unfold s', over in Hq; cbn [messageBuckets] in Hq. destruct (decide (c = getBucket (id m))) as [->|Hc];
        [by rewrite fn_lookup_insert in Hq|by rewrite fn_lookup_insert_ne in Hq]. }
    destruct (inv_resend0 c q Hq') as [?|(n & ? & ?)]; [done|]. right. eauto.
Qed.

Lemma wp_new_message packet ip s (Q : ptr -> Receiver -> Prop) :
  inv None s -> packet_ok packet -> (forall q n, heap s !! q = Some n -> id n <> data_id packet) ->
  (forall p s', inv (Some p) s' -> heap s !! p = None ->
     stored_at p (announced packet ip) s s' -> p ∈ messages (messageBuckets s' (getBucket (data_id packet))) ->
     Q p s') ->
  wp (new_message (getBucket (data_id packet)) (data_header packet) ip) s Q.
Proof.
  intros Hi Hok Hid HQ. pose proof Hok as [Hlen Hlim _ _ _]. set (h := data_header packet) in *.
  pose proof SenderMessage.data_length_range as HP. pose proof SenderMessage.maxMessageLength_eq as Hmax.
  unfold SenderMessage.MAX_MESSAGE_PACKETS in Hmax.
  unfold new_message. fold (data_id packet). fold (data_source packet ip).
  rewrite i32_small, u64_small by lia.
  set (m := Message_new (Protocol.totalLength h) (data_id packet) (data_source packet ip) (Protocol.unscheduledIndexLimit h)).
  wp_step. unfold allocator_op at 1. wp_step. apply construct_wp; [apply Hi|]. intros p o' Hp Ho' Hpool.
  wp_step. unfold world_op. wp_step. apply wp_count. wp_step. wp_step. wp_step.
  set (s1 := s <| messageAllocator := o' |> <| world := _ |>). wp_step.
  { apply bool_decide_true. intros Hin.
    destruct (inv_in _ _ Hi (getBucket (data_id packet)) p Hin) as (? & ? & _). congruence. }
  unfold update_bucket. repeat wp_step. unfold Policy.signalNewMessage, policy_op. repeat wp_step.
  set (s2 := s1 <| messageBuckets ::= _ |> <| policyManager := _ |>).
  assert (inv (Some p) s2) as Hi2.
  { assert (inv None (s <| world := world s1 |>)) as Hi1 by (by apply rcv_inv_world).
    pose proof (inv_add p m o' (s <| world := world s1 |>) Hi1 Hp Hpool Ho' Hid eq_refl) as Hadd.
    by eapply rcv_inv_ext; [..|exact Hadd]. }
  assert (heap s2 = <[p := m]> (heap s)) as Hh2 by done.
  assert (heap s2 !! p = Some m) as Hp2 by (rewrite Hh2; apply lookup_insert_eq).
  eapply rcv_wp_deref; [exact Hp2|].
  assert (receivedMessages s2 = receivedMessages s) as Hr2 by done.
  assert (trace (world s2) = trace (world s)) as Ht2 by done.
  assert (quiet s s2) as Hq2 by (by split).
  assert (p ∈ messages (messageBuckets s2 (getBucket (data_id packet)))) as Hin2.
  { unfold s2, over; cbn [messageBuckets]. rewrite fn_lookup_insert. cbn. apply elem_of_app. right. by left. }
  assert (forall m' s', heap s' = <[p := m']> (heap s) -> state m' = IN_PROGRESS -> trace (world s') = trace (world s) ->
    receivedMessages s' = receivedMessages s -> quiet s s' -> stored_at p m' s s') as Hsa.
  { intros m' s' E1 E2 E3 E4 E5. split; [done..| |done]. by rewrite bool_decide_true, app_nil_r. }
  unfold announced in HQ. fold h in HQ. fold m in HQ. wp_step. wp_step. destruct (scheduled m) eqn:Hs.
  - eapply (wp_schedule p m s2); [done..|]. intros s3 Hi3 Hr3. wp_step. apply HQ; [done|done| |].
    + apply Hsa; [|done|by rewrite (rp_world _ _ _ _ Hr3)|by rewrite (rp_received _ _ _ _ Hr3)|].
      * rewrite (rp_heap _ _ _ _ Hr3), Hh2. apply insert_insert_eq.
      * eapply quiet_trans; [exact Hq2|by eapply quiet_reput].
    + by rewrite (rp_buckets _ _ _ _ Hr3).
  - repeat wp_step. apply HQ; [done|done|by apply Hsa|done].
Qed.

(** The message that a DATA packet is about, before the packet is stored. *)
Definition addressee packet ip s p m : Prop :=
  (heap s !! p = Some m /\ id m = data_id packet) \/
  ((forall q n, heap s !! q = Some n -> id n <> data_id packet) /\ heap s !! p = None /\ m = announced packet ip).

(** What handleDataPacket does. *)
Definition data_effect packet ip s s' : Prop :=
  exists p m, addressee packet ip s p m /\
  match packets m !! Protocol.dh_index (data_header packet) with
  | Some _ => heap s' = heap s /\ receivedMessages s' = receivedMessages s /\
              trace (world s') = trace (world s) ++ [EvRelease [pkt_id packet]]
  | None => let m' := received (Protocol.dh_index (data_header packet)) packet m in
      heap s' = <[p := m']> (heap s) /\ trace (world s') = trace (world s) /\
      receivedMessages s' = receivedMessages s ++ (if bool_decide (state m' = IN_PROGRESS) then [] else [p])
  end.

(** handleDataPacket from the point where the message is known. *)
Lemma wp_add_packet packet ip p m s1 (Q : unit -> Receiver -> Prop) :
  let i := Protocol.dh_index (data_header packet) in
  inv (Some p) s1 -> packet_ok packet -> message_ok m -> heap s1 !! p = Some m -> id m = data_id packet ->
  source m = data_source packet ip -> messageLength m = Protocol.totalLength (data_header packet) ->
  p ∈ messages (messageBuckets s1 (getBucket (id m))) ->
  (packets m !! i <> None -> inv None s1) -> (packets m !! i = None -> p ∉ receivedMessages s1) ->
  (forall s', inv None s' -> match packets m !! i with
     | Some _ => agree [EvRelease [pkt_id packet]] s1 s'
     | None => stored_at p (received i packet m) s1 s' end -> Q tt s') ->
  wp (m ← deref p;
      _ ← check (Protocol.eqMessageId (data_id packet) (id m));
      _ ← check (bool_decide (SenderMessage.ip (source m) = ip));
      _ ← check (port (source m) =? port (data_source packet ip));
      expected ← Util.downCast_int_of_u32 (Protocol.totalLength (data_header packet));
      _ ← check (messageLength m =? expected);
      r ← lift (setPacket i packet m);
      let '(packetAdded, m') := r in
      _ ← update p (fun _ => m');
      if packetAdded : bool then packet_added (getBucket (data_id packet)) p packet else release_packet packet) s1 Q.
Proof.
  intros i Hi Hpk Hok Hp Hid Hsrc Hlen Hin Hdup Hnew HQ. pose proof Hpk as [P1 P2 P3 P4 P5].
  pose proof SenderMessage.data_length_range as HP. pose proof SenderMessage.maxMessageLength_eq as Hmax.
  unfold SenderMessage.MAX_MESSAGE_PACKETS in Hmax.
  wp_step. eapply rcv_wp_deref; [done|]. wp_step. wp_step.
  { rewrite Protocol.eqMessageId_spec. by apply bool_decide_true. }
  wp_step. wp_step; [by apply bool_decide_true; rewrite Hsrc|]. wp_step. wp_step; [rewrite Hsrc; apply Z.eqb_refl|].
  wp_step. apply Util.wp_downCast_int_of_u32; [lia|]. wp_step. wp_step; [by apply Z.eqb_eq|].
  assert (0 <= i < numExpectedPackets m) as Hr by (by rewrite (mo_expected _ Hok), Hlen).
  pose proof (expected_range m Hok) as He. rewrite <- Hid. wp_step. unfold wp at 1, lift, setPacket.
  rewrite rcv_getPacket_ok by lia. cbn [mbind Result_bind]. destruct (packets m !! i) as [old|] eqn:Hpi.
  - cbn. wp_step. apply (rcv_wp_update_put p _ m); [done|].
    assert (put p m s1 = s1) as ->.
    { destruct s1 as [? ? ? ? ? ? [] ? ?]. unfold put, over; cbn in *. by rewrite insert_id. }
    eapply rcv_wp_release_packet; [by apply Hdup|]. intros s' Hi' Ha'. by apply HQ.
  - cbn. wp_step. apply (rcv_wp_update_put p _ m); [done|]. fold (stored i packet m).
    assert (p ∉ receivedMessages s1) as Hnr by auto.
    eapply (wp_packet_added p m i packet); try done.
    + by eapply rcv_inv_put_own.
    + apply rcv_lookup_put.
    + by rewrite Hlen.
    + intros s' Hi' Hs'. apply HQ; [done|]. eapply (stored_at_after p (stored i packet m)); [..|exact Hs']; try done.
Qed.

Lemma handleDataPacket_spec packet ip s :
  inv None s -> data_ok s packet ip ->
  wp (handleDataPacket packet ip) s (fun _ s' => inv None s' /\ data_effect packet ip s s' /\ quiet s s').
Proof.
  intros Hi [Hpk Hsame]. unfold handleDataPacket. fold (data_header packet). fold (data_id packet). wp_step.
  apply rcv_wp_findMessage; [done| |].
  - intros p m Hp Hid Hin. destruct (Hsame p m Hp Hid) as [Hsrc Hlen]. wp_step.
    pose proof (inv_message _ _ Hi p m Hp ltac:(done)) as Hok.
    apply (wp_add_packet packet ip p m s); try done; [by apply rcv_inv_weaken|by rewrite Hid|..].
    + intros Hn Hr. destruct (inv_received _ _ Hi p Hr) as (n & Hn' & Hst). simplify_eq.
      apply (complete_state m Hok) in Hst. destruct (Hst (Protocol.dh_index (data_header packet))) as [? ?]; [|congruence].
      rewrite (mo_expected _ Hok), Hlen. apply Hpk.
    + intros s' Hi' He. split_and!; [done| |].
      * exists p, m. split; [by left|]. destruct (packets m !! _); [|by destruct He].
        split_and!; [by eapply agree_heap|apply He|apply He].
      * destruct (packets m !! _); [by eapply quiet_agree|apply He].
  - intros Hnone. wp_step.
    eapply wp_new_message; [done..|]. intros p s1 Hi1 Hp Hs1 Hin.
    destruct (announced_ok packet ip Hpk) as (Hok & Hid & Hsrc & Hps & Hst & Hlen).
    assert (heap s1 !! p = Some (announced packet ip)) as Hp1 by (rewrite (sa_heap _ _ _ _ Hs1); apply lookup_insert_eq).
    pose proof (sa_received _ _ _ _ Hs1) as Hr1. rewrite bool_decide_true, app_nil_r in Hr1 by done.
    apply (wp_add_packet packet ip p (announced packet ip) s1); try done; rewrite ?Hid; try done.
    + rewrite Hps, lookup_empty. done.
    + intros _ Hr. rewrite Hr1 in Hr. destruct (inv_received _ _ Hi p Hr) as (? & ? & _). congruence.
    + rewrite Hps, lookup_empty. intros s' Hi' Hs'.
      assert (stored_at p (received (Protocol.dh_index (data_header packet)) packet (announced packet ip)) s s') as Hs.
      { eapply stored_at_after; [apply Hs1|apply Hs1|done|apply Hs1|done]. }
      split_and!; [done| |apply Hs]. exists p, (announced packet ip). split; [by right|].
      rewrite Hps, lookup_empty. by destruct Hs.
Qed.

(** ** BUSY and PING *)

(** One control packet. *)
Definition control {Hd : Type} `{Protocol.PacketHeader Hd} (dst : IpAddress) (h : Hd) (evs : list Event) : Prop :=
  exists k, evs = [EvSend dst getHighestPacketPriority (Protocol.encode h); EvRelease [k]].

Lemma rcv_wp_control {Hd : Type} `{Protocol.PacketHeaderLaws Hd} x c n dst (h : Hd) s (Q : unit -> Receiver -> Prop) :
  inv x s -> (forall s' evs, inv x s' -> control dst h evs -> agree evs s s' -> Q tt s') ->
  wp (_ ← world_op (count c n); world_op (send_control dst h)) s Q.
Proof.
  intros Hi HQ. wp_step. eapply rcv_wp_count_s; [done|]. intros s1 Hi1 Ha1.
  apply rcv_wp_send_control_s with (x := x); [done|]. intros s2 Hi2 Ha2.
  eapply HQ; [done|by eexists|]. exact (rcv_agree_trans [] _ _ _ _ Ha1 Ha2).
Qed.

Definition busy_id packet : Protocol.MessageId :=
  Protocol.messageId (Protocol.busy_common (read_header Protocol.BusyHeader packet)).
Definition ping_id packet : Protocol.MessageId :=
  Protocol.messageId (Protocol.ping_common (read_header Protocol.PingHeader packet)).

Lemma handleBusyPacket_spec packet s :
  inv None s ->
  wp (handleBusyPacket packet) s (fun _ s' => inv None s' /\ agree [EvRelease [pkt_id packet]] s s').
Proof.
  intros Hi. unfold handleBusyPacket. fold (busy_id packet). wp_step.
  apply rcv_wp_findMessage; [done| |].
  - intros p m Hp Hid Hin. wp_step. wp_step. eapply rcv_wp_set_messageTimeout; [done|done|]. intros s1 Hi1 Ha1.
    wp_step. eapply rcv_wp_deref; [by rewrite (agree_heap _ _ _ Ha1)|]. wp_step.
    assert (forall s2, inv None s2 -> agree [] s1 s2 -> wp (release_packet packet) s2
      (fun _ s' => inv None s' /\ agree [EvRelease [pkt_id packet]] s s')) as Hdone.
    { intros s2 Hi2 Ha2. eapply rcv_wp_release_packet; [done|]. intros s3 Hi3 Ha3. split; [done|].
      exact (rcv_agree_trans [] _ _ _ _ Ha1 (rcv_agree_trans [] _ _ _ _ Ha2 Ha3)). }
    case_bool.
    + eapply wp_set_resendTimeout; [done| | |].
      * by rewrite (ag_messages _ _ _ Ha1).
      * right. exists m. by rewrite (agree_heap _ _ _ Ha1).
      * intros s2 Hi2 Ha2 _. by apply Hdone.
    + wp_step. apply Hdone; [done|apply rcv_agree_refl].
  - intros Hnone. wp_step. wp_step. eapply rcv_wp_release_packet; [done|]. by intros s1 Hi1 Ha1.
Qed.

(** The answer to a PING: the latest GRANT of a known message (nothing granted
    when it needs no grants), UNKNOWN otherwise. *)
Definition ping_reply packet ip s (evs : list Event) : Prop :=
  (exists p m, heap s !! p = Some m /\ id m = ping_id packet /\
     let info := scheduledMessageInfo m in
     control (SenderMessage.ip (source m)) (Protocol.GrantHeader_new (id m)
       (if scheduled m then bytesGranted info else 0) (if scheduled m then priority info else 0)) evs) \/
  ((forall p m, heap s !! p = Some m -> id m <> ping_id packet) /\
   control ip (Protocol.UnknownHeader_new (ping_id packet)) evs).

Lemma handlePingPacket_spec packet ip s :
  inv None s ->
  wp (handlePingPacket packet ip) s (fun _ s' => inv None s' /\
    exists evs, ping_reply packet ip s evs /\ agree (evs ++ [EvRelease [pkt_id packet]]) s s').
Proof.
  intros Hi. unfold handlePingPacket. fold (ping_id packet). wp_step.
  assert (forall s1 evs, inv None s1 -> ping_reply packet ip s evs -> agree evs s s1 ->
    wp (release_packet packet) s1 (fun _ s' => inv None s' /\
      exists evs, ping_reply packet ip s evs /\ agree (evs ++ [EvRelease [pkt_id packet]]) s s')) as Hdone.
  { intros s1 evs Hi1 Hr Ha1. eapply rcv_wp_release_packet; [done|]. intros s2 Hi2 Ha2. split; [done|].
    exists evs. split; [done|by eapply rcv_agree_trans]. }
  apply rcv_wp_findMessage; [done| |].
  - intros p m Hp Hid Hin. wp_step. wp_step. eapply rcv_wp_set_messageTimeout; [done|done|]. intros s1 Hi1 Ha1.
    wp_step. eapply rcv_wp_deref; [by rewrite (agree_heap _ _ _ Ha1)|].
    destruct (inv_message _ _ Hi p m Hp ltac:(done)) as [H1 H2 H3 H4 H5 H6 H7 H8 H9 H10 H11 H12 H13].
    pose proof SenderMessage.data_length_range as HP. pose proof SenderMessage.maxMessageLength_eq as Hmax.
    unfold SenderMessage.MAX_MESSAGE_PACKETS in Hmax.
    rewrite u32_small by (destruct (scheduled m); lia). rewrite u8_small by (destruct (scheduled m); lia).
    eapply rcv_wp_control; [done|]. intros s2 evs Hi2 He Ha2. apply (Hdone s2 evs Hi2).
    + left. by exists p, m.
    + exact (rcv_agree_trans [] _ _ _ _ Ha1 Ha2).
  - intros Hnone. wp_step. eapply rcv_wp_control; [done|]. intros s2 evs Hi2 He Ha2. apply (Hdone s2 evs Hi2); [by right|done].
Qed.
End handlers.

End ReceiverHandlers.
