(* ===== verification/ReceiverTimers.v ===== *)
(** * ReceiverTimers: calls of the application, and timeouts

    What receiveMessage, acknowledge, fail, strip and dropMessage do, and the two
    loops over a bucket's timeouts: the message loop destroys the unfinished
    messages that timed out and marks the others as dropped; the resend loop asks
    for exactly the missing packets. *)

From S2P Require Import Prelude Intrusive Util Timeout ObjectPool Perf Protocol Policy Driver SenderMessage ReceiverMessage Receiver ReceiverSchedule ReceiverInv ReceiverSteps ReceiverHandlers.
Import Driver ReceiverMessage Receiver ReceiverSchedule ReceiverInv ReceiverSteps ReceiverHandlers.

Module ReceiverTimers.

Abbreviation elapsed t p s b := (hasElapsed t p (messageTimeouts (messageBuckets s b))).
Abbreviation resend_elapsed t p s b := (hasElapsed t p (resendTimeouts (messageBuckets s b))).

Section timers.
Context `{DriverLaws}.
Implicit Types (s : Receiver) (p q : ptr) (m : Message) (x : option ptr) (b t : Z).

(** ** Removing a message *)

Lemma in_own_bucket x p m s c :
  inv x s -> heap s !! p = Some m -> p ∈ messages (messageBuckets s c) -> c = getBucket (id m).
Proof. intros Hi Hp Hin. destruct (inv_in _ _ Hi c p Hin) as (n & Hn & <-). by simplify_eq. Qed.

(** The end of dropMessage and of an unfinished message that timed out. *)
Lemma wp_remove p m s (Q : unit -> Receiver -> Prop) :
  let b := getBucket (id m) in
  inv (Some p) s -> heap s !! p = Some m -> p ∉ receivedMessages s ->
  p ∉ timeouts (messageTimeouts (messageBuckets s b)) -> p ∉ timeouts (resendTimeouts (messageBuckets s b)) ->
  (forall s', inv None s' -> heap s' = delete p (heap s) -> receivedMessages s' = receivedMessages s ->
     trace (world s') = trace (world s) ++ map EvRelease (release_all m) ->
     messageTimeouts (messageBuckets s' b) = messageTimeouts (messageBuckets s b) -> quiet s s' -> Q tt s') ->
  wp (unschedule_if_linked p) s (fun _ s1 =>
    wp (update_bucket b (fun k => k <| messages ::= list_remove p |>)) s1 (fun _ s2 => wp (destroy_message p) s2 Q)).
Proof.
  intros b Hi Hp Hr Hm Hrt HQ. eapply wp_unschedule_if_linked; [done..|]. intros s1 Hi1 Hr1.
  unfold update_bucket. wp_step. change (s1 <| messageBuckets ::= _ |>) with (forget b p s1).
  set (m1 := link None m) in *.
  assert (heap s1 !! p = Some m1) as Hp1 by (rewrite (rp_heap _ _ _ _ Hr1); apply lookup_insert_eq).
  assert (inv (Some p) (forget b p s1)) as Hi2 by (apply inv_forget; [done|by rewrite (rp_buckets _ _ _ _ Hr1)..]).
  eapply (wp_destroy_message p m1); try done.
  - change (p ∉ receivedMessages s1). by rewrite (rp_received _ _ _ _ Hr1).
  - intros c. rewrite messages_forget_at. case_decide as Hc.
    + apply not_in_list_remove, (inv_bucket _ _ Hi1).
    + intros Hin. apply Hc. by apply (in_own_bucket _ _ m1 _ _ Hi1 Hp1).
  - intros s3 Hi3 Hh3 Hr3 Ht3 Hb3 Hg3 Hpol3 Hn3. apply HQ; [done| | | | |].
    + rewrite Hh3. change (delete p (heap s1) = delete p (heap s)). rewrite (rp_heap _ _ _ _ Hr1).
      apply delete_insert_eq.
    + rewrite Hr3. apply Hr1.
    + rewrite Ht3, (release_all_same m m1) by reflexivity. f_equal.
      change (trace (world s1) = trace (world s)). by rewrite (rp_world _ _ _ _ Hr1).
    + rewrite Hb3. unfold forget, over; cbn [messageBuckets]. rewrite fn_lookup_insert. cbn.
      by rewrite (rp_buckets _ _ _ _ Hr1).
    + split; [rewrite Hpol3; apply Hr1|rewrite Hg3; apply Hr1|]. rewrite <- (rp_world _ _ _ _ Hr1). apply Hn3.
Qed.

Lemma agree_receivedMessages evs s s' p : agree evs s s' -> p ∉ receivedMessages s -> p ∉ receivedMessages s'.
Proof. intros Ha. by rewrite (ag_received _ _ _ Ha). Qed.

Lemma rcv_dropMessage_spec p m s :
  inv None s -> heap s !! p = Some m -> p ∉ receivedMessages s ->
  wp (dropMessage p) s (fun _ s' => inv None s' /\ heap s' = delete p (heap s) /\
    receivedMessages s' = receivedMessages s /\ trace (world s') = trace (world s) ++ map EvRelease (release_all m) /\
    quiet s s').
Proof.
  intros Hi Hp Hr. unfold dropMessage. wp_step. eapply rcv_wp_deref; [done|]. wp_step.
  apply rcv_wp_findMessage; [done| |by intros Hn; apply Hn in Hp].
  intros q n Hq Hid Hin. assert (q = p) as -> by (by eapply (inv_ids _ _ Hi)). simplify_eq.
  wp_step. wp_step; [by apply bool_decide_true|]. wp_step.
  eapply rcv_wp_cancel_timeouts; [by apply rcv_inv_weaken|]. intros s1 Hi1 Ha1 Hm1 Hrt1 _.
  assert (heap s1 !! p = Some m) as Hp1 by (by rewrite (agree_heap _ _ _ Ha1)).
  wp_step. eapply wp_mono; [eapply (wp_remove p m s1 (fun _ s' => inv None s' /\ heap s' = delete p (heap s) /\
    receivedMessages s' = receivedMessages s /\ trace (world s') = trace (world s) ++ map EvRelease (release_all m) /\
    quiet s s')); try done|].
  - by eapply agree_receivedMessages.
  - intros s2 Hi2 Hh2 Hr2 Ht2 _ Hq2. split_and!; [done| | | |].
    + by rewrite Hh2, (agree_heap _ _ _ Ha1).
    + rewrite Hr2. apply Ha1.
    + by rewrite Ht2, (ag_trace _ _ _ Ha1), app_nil_r.
    + eapply quiet_trans; [by eapply quiet_agree|done].
  - intros ? s2 Hw. wp_step. eapply wp_mono; [exact Hw|]. intros ? s3 Hw3. wp_step.
    eapply wp_mono; [exact Hw3|]. intros _ s4 (Hi4 & Hh4 & Hr4 & Ht4 & Hq4).
    eapply rcv_wp_count_s; [done|]. intros s5 Hi5 Ha5. split_and!; [done| | | |].
    + by rewrite (agree_heap _ _ _ Ha5).
    + rewrite (ag_received _ _ _ Ha5). done.
    + by rewrite (ag_trace _ _ _ Ha5), app_nil_r.
    + eapply quiet_trans; [done|by eapply quiet_agree].
Qed.

(** ** Message timeouts *)

(** What an elapsed timeout leaves of a message. *)
Definition expire m : option Message :=
  if bool_decide (state m = IN_PROGRESS) then None else Some (m <| state := DROPPED |>).

Definition releases (evs : list Event) : Prop := Forall (fun e => exists ids, e = EvRelease ids) evs.
Lemma releases_map l : releases (map EvRelease l).
Proof. induction l as [|ids l IH]; constructor; [by eexists|done]. Qed.

Lemma rcv_wp_time_out p m b s (Q : unit -> Receiver -> Prop) :
  inv None s -> heap s !! p = Some m -> p ∈ messages (messageBuckets s b) ->
  (forall s', inv None s' -> heap s' = partial_alter (fun _ => expire m) p (heap s) ->
     messageTimeouts (messageBuckets s' b) = cancelTimeout p (messageTimeouts (messageBuckets s b)) ->
     receivedMessages s' = receivedMessages s -> quiet s s' ->
     (exists evs, trace (world s') = trace (world s) ++ evs /\ releases evs) -> Q tt s') ->
  wp (cancel_timeouts b p) s (fun _ s1 => wp (deref p) s1 (fun m s2 => wp
    (if bool_decide (state m = IN_PROGRESS) then
       _ ← unschedule_if_linked p;
       _ ← update_bucket b (fun k => k <| messages ::= list_remove p |>);
       destroy_message p
     else update p (fun m => m <| state := DROPPED |>)) s2 Q)).
Proof.
  intros Hi Hp Hin HQ. pose proof (in_own_bucket _ _ _ _ _ Hi Hp Hin) as ->.
  eapply rcv_wp_cancel_timeouts; [by apply rcv_inv_weaken|]. intros s1 Hi1 Ha1 Hm1 Hrt1 Hmt1.
  assert (heap s1 !! p = Some m) as Hp1 by (by rewrite (agree_heap _ _ _ Ha1)).
  eapply rcv_wp_deref; [done|]. unfold expire in HQ. pose proof (inv_message _ _ Hi p m Hp ltac:(done)) as Hok.
  case_bool_decide as Hst.
  - wp_step. eapply wp_mono; [eapply (wp_remove p m s1 Q); try done|].
    + eapply agree_receivedMessages; [done|]. intros Hr. destruct (inv_received _ _ Hi p Hr) as (n & ? & ?). by simplify_eq.
    + intros s2 Hi2 Hh2 Hr2 Ht2 Hmt2 Hq2. apply HQ; [done| | | | |].
      * by rewrite Hh2, (agree_heap _ _ _ Ha1).
      * by rewrite Hmt2, Hmt1.
      * rewrite Hr2. apply Ha1.
      * eapply quiet_trans; [by eapply quiet_agree|done].
      * eexists. split; [by rewrite Ht2, (ag_trace _ _ _ Ha1), app_nil_r|apply releases_map].
    + intros ? s2 Hw. wp_step. eapply wp_mono; [exact Hw|]. by intros ? s3 Hw3.
  - apply (rcv_wp_update_put p _ m); [done|]. set (m' := m <| state := DROPPED |>).
    assert (inv (Some p) (put p m' s1)) as Hi2 by (by eapply rcv_inv_put_own).
    apply HQ; [| |done|apply Ha1| |].
    + eapply (rcv_inv_done p m'); [done|apply rcv_lookup_put| | |].
      * destruct Hok as [H1 H2 H3 H4 H5 H6 H7 H8 H9 H10 H11 H12 H13]. split; try done. split; [done|]. intros Hlt. exfalso. by apply Hst, H8.
      * change (p ∈ messages (messageBuckets s1 (getBucket (id m)))). by rewrite (ag_messages _ _ _ Ha1).
      * right. intros c Hc. pose proof (bo_rt_in _ _ (inv_bucket _ _ Hi2 c) p Hc) as Hpc.
        pose proof (in_own_bucket _ _ _ _ _ Hi1 Hp1 Hpc) as ->. by apply Hrt1.
    + change (<[p := m']> (heap s1) = <[p := m']> (heap s)). by rewrite (agree_heap _ _ _ Ha1).
    + eapply quiet_trans; [by eapply quiet_agree|by split].
    + exists []. change (world (put p m' s1)) with (world s1). split; [apply Ha1|constructor].
Qed.

Definition rcv_expire_effect t b s q m : option Message :=
  if bool_decide (q ∈ timeouts (messageTimeouts (messageBuckets s b))) && elapsed t q s b then expire m else Some m.

Lemma rcv_expire_none t b s q :
  (forall r, r ∈ timeouts (messageTimeouts (messageBuckets s b)) -> elapsed t r s b = false) ->
  heap s !! q ≫= rcv_expire_effect t b s q = heap s !! q.
Proof.
  intros Hno. destruct (heap s !! q) as [n|]; simpl; [|done]. unfold rcv_expire_effect.
  case_bool_decide as Hq; [|done]. by rewrite (Hno q Hq).
Qed.

(** What the loop over message timeouts leaves behind. *)
Definition rcv_expired t b s s' : Prop :=
  (forall q, q ∈ timeouts (messageTimeouts (messageBuckets s' b)) -> elapsed t q s' b = false) /\
  (forall q, heap s' !! q = heap s !! q ≫= rcv_expire_effect t b s q) /\
  receivedMessages s' = receivedMessages s /\
  (exists evs, trace (world s') = trace (world s) ++ evs /\ releases evs) /\ quiet s s'.

Lemma rcv_expired_none t b s :
  (forall q, q ∈ timeouts (messageTimeouts (messageBuckets s b)) -> elapsed t q s b = false) -> rcv_expired t b s s.
Proof.
  intros Hno. split_and!; [done| |done| |apply quiet_refl].
  - intros q. by rewrite rcv_expire_none.
  - exists []. split; [by rewrite app_nil_r|constructor].
Qed.

Lemma rcv_message_timeout_loop_spec fuel t b s :
  inv None s -> (List.length (timeouts (messageTimeouts (messageBuckets s b))) < fuel)%nat ->
  wp (message_timeout_loop fuel t b) s (fun _ s' => inv None s' /\ rcv_expired t b s s').
Proof.
  revert s. induction fuel as [|fuel IH]; intros s Hi Hf; [lia|]. simpl. repeat wp_step.
  destruct (inv_bucket _ _ Hi b) as [B1 B2 B3 B4 B5 B6 B7].
  destruct (timeouts_front (messageTimeouts (messageBuckets s b))) as [p|] eqn:Hfront.
  2:{ wp_step. split; [done|]. apply rcv_expired_none. unfold timeouts_front in Hfront.
      destruct (timeouts _); [|done]. intros q Hq. by apply elem_of_nil in Hq. }
  destruct (elapsed t p s b) eqn:He; cbn [negb].
  2:{ wp_step. split; [done|]. apply rcv_expired_none. by eapply (front_not_elapsed _ _ p). }
  pose proof Hfront as Hl. unfold timeouts_front in Hl.
  destruct (timeouts (messageTimeouts (messageBuckets s b))) as [|p' l] eqn:Htl; [done|]. injection Hl as ->.
  assert (p ∈ messages (messageBuckets s b)) as Hin by (apply B4; by left).
  destruct (inv_in _ _ Hi _ _ Hin) as (m & Hp & Hb).
  wp_step. eapply wp_mono; [eapply (rcv_wp_time_out p m b s (fun _ s1 => inv None s1 /\
     heap s1 = partial_alter (fun _ => expire m) p (heap s) /\
     messageTimeouts (messageBuckets s1 b) = cancelTimeout p (messageTimeouts (messageBuckets s b)) /\
     receivedMessages s1 = receivedMessages s /\ quiet s s1 /\
     (exists evs, trace (world s1) = trace (world s) ++ evs /\ releases evs))); [done..|by intros; split_and!]|].
  intros ? s0 Hw. wp_step. eapply wp_mono; [exact Hw|]. intros ? s0' Hw'. wp_step.
  eapply wp_mono; [exact Hw'|]. intros ? s1 (Hi1 & Hh1 & Hm1 & Hr1 & Hq1 & evs1 & Ht1 & He1).
  assert (timeouts (messageTimeouts (messageBuckets s1 b)) = l) as Hl1.
  { rewrite Hm1, timeouts_cancelTimeout, Htl. apply (list_remove_app p [] l), not_elem_of_nil. }
  eapply wp_mono; [apply IH; [done|rewrite Hl1; simpl in Hf; lia]|].
  intros _ s2 (Hi2 & Hno & Hh2 & Hr2 & (evs2 & Ht2 & He2) & Hq2).
  split; [done|]. split_and!; [done| |congruence| |by eapply quiet_trans].
  2:{ exists (evs1 ++ evs2). split; [by rewrite Ht2, Ht1, app_assoc|by apply Forall_app]. }
  assert (p ∉ l) as Hpl.
  { pose proof (to_nodup _ _ B2) as Hnd. rewrite Htl in Hnd. by apply NoDup_cons in Hnd as [? _]. }
  intros q. rewrite Hh2, Hh1. unfold rcv_expire_effect. rewrite Hl1, Htl. destruct (decide (q = p)) as [->|Hq].
  - rewrite lookup_partial_alter_eq, Hp. simpl. rewrite (bool_decide_true (p ∈ p :: l)) by (by left). rewrite He. simpl.
    destruct (expire m); simpl; [|done]. by rewrite bool_decide_false.
  - rewrite lookup_partial_alter_ne by done. destruct (heap s !! q) as [m0|]; simpl; [|done].
    unfold hasElapsed. rewrite Hm1, expiration_cancelTimeout.
    assert (bool_decide (q ∈ l) = bool_decide (q ∈ p :: l)) as ->; [|done].
    apply bool_decide_ext. rewrite elem_of_cons. naive_solver.
Qed.

Lemma rcv_checkMessageTimeouts_spec t b s :
  inv None s -> t < UINT64_MAX ->
  wp (checkMessageTimeouts t b) s (fun _ s' => inv None s' /\ rcv_expired t b s s').
Proof.
  intros Hi Ht. unfold checkMessageTimeouts. repeat wp_step.
  destruct (anyElapsed t (messageTimeouts (messageBuckets s b))) eqn:Hany.
  - apply rcv_message_timeout_loop_spec; [done|lia].
  - wp_step. split; [done|]. apply rcv_expired_none. by eapply none_elapsed; [apply (inv_bucket _ _ Hi b)|..].
Qed.

(** ** Resend timeouts *)

(** One RESEND for each range of [rs], in order. *)
Inductive resends dst (i : Protocol.MessageId) (prio : Z) : list (Z * Z) -> list Event -> Prop :=
  | resends_nil : resends dst i prio [] []
  | resends_cons k n rs evs evs' :
      control dst (Protocol.ResendHeader_new i k n prio) evs -> resends dst i prio rs evs' ->
      resends dst i prio ((k, n) :: rs) (evs ++ evs').

(** Ranges that are not empty and do not touch, each behind the one before. *)
Fixpoint apart (from : Z) (rs : list (Z * Z)) : Prop :=
  match rs with
  | [] => True
  | (k, n) :: rs => from <= k /\ 0 < n /\ apart (k + n + 1) rs
  end.

(** The indices of the ranges, in order. *)
Definition indices (rs : list (Z * Z)) : list Z := rs ≫= fun r => seqZ r.1 r.2.

Lemma indices_cons k n rs : indices ((k, n) :: rs) = seqZ k n ++ indices rs.
Proof. done. Qed.

(** The packets that are missing from [k] up to [limit]. *)
Definition missing_from m (k limit : Z) : list Z := filter (fun i => packets m !! i = None) (seqZ k (limit - k)).

Lemma apart_weaken a c rs : a <= c -> apart c rs -> apart a rs.
Proof. destruct rs as [|[k n] rs]; simpl; [done|]. intros ? (? & ? & ?). split_and!; [lia|done|done]. Qed.

Lemma wp_send_resend m index num s (Q : unit -> Receiver -> Prop) :
  inv None s -> 0 <= index < 2 ^ 16 -> 0 <= num < 2 ^ 16 -> 0 <= priority (scheduledMessageInfo m) < 2 ^ 8 ->
  (forall s' evs, inv None s' -> agree evs s s' -> messageBuckets s' = messageBuckets s ->
     control (ip (source m)) (Protocol.ResendHeader_new (id m) index num (priority (scheduledMessageInfo m))) evs ->
     Q tt s') ->
  wp (send_resend m index num) s Q.
Proof.
  intros Hi Hx Hn Hp HQ. unfold send_resend, world_op. repeat wp_step. apply wp_count. wp_step.
  apply Util.wp_downCast_u16_of_int; [lia|]. wp_step. apply Util.wp_downCast_u16_of_int; [lia|]. wp_step.
  apply wp_send_control. rewrite u8_small by lia.
  eapply HQ; [by apply (rcv_inv_world None (s <| world := _ |>)), (rcv_inv_world None s)| |done|by eexists].
  by split.
Qed.

(** What a scan from [k] asks for, when [num] packets from [index] on are
    known to be missing. *)
Definition scanned m index num k limit s s' : Prop :=
  inv None s' /\ messageBuckets s' = messageBuckets s /\ exists rs evs, agree evs s s' /\
  resends (ip (source m)) (id m) (priority (scheduledMessageInfo m)) rs evs /\
  indices rs = seqZ index num ++ missing_from m k limit /\
  apart (if num =? 0 then k else index) rs.

Lemma missing_step m k limit :
  k < limit -> missing_from m k limit =
    (if decide (packets m !! k = None) then [k] else []) ++ missing_from m (k + 1) limit.
Proof.
  intros Hk. unfold missing_from. rewrite (seqZ_cons k) by lia. rewrite filter_cons.
  replace (Z.pred (limit - k)) with (limit - (k + 1)) by lia. replace (Z.succ k) with (k + 1) by lia.
  by case_decide.
Qed.

Lemma seqZ_snoc a n : 0 <= n -> seqZ a (n + 1) = seqZ a n ++ [a + n].
Proof. intros Hn. rewrite seqZ_app by lia. done. Qed.

Lemma resend_scan_spec m n : forall k index num s limit,
  inv None s -> n = Z.to_nat (limit - k) -> 0 <= k <= limit -> limit <= MAX_MESSAGE_PACKETS ->
  0 <= num -> (num <> 0 -> 0 <= index /\ index + num = k) -> 0 <= index <= k ->
  0 <= priority (scheduledMessageInfo m) < 2 ^ 8 ->
  wp (resend_scan m (seqZ k (limit - k)) index num) s (fun _ s' => scanned m index num k limit s s').
Proof.
  unfold MAX_MESSAGE_PACKETS. induction n as [|n IH]; intros k index num s limit Hi Hn Hk Hlim Hnum Hidx Hix Hp.
  - replace (limit - k) with 0 by lia. simpl. unfold when. assert (missing_from m k limit = []) as Hm
      by (unfold missing_from; by replace (limit - k) with 0 by lia).
    unfold scanned. rewrite Hm. destruct (num =? 0) eqn:Hz; bool_to_prop; cbn [negb].
    + wp_step. subst num. split_and!; [done|done|]. exists [], [].
      split_and!; [apply rcv_agree_refl|constructor|done|done].
    + destruct (Hidx Hz). eapply wp_send_resend; [done|lia|lia|done|]. intros s1 evs Hi1 Ha1 Hb1 Hc1.
      split_and!; [done|done|]. exists [(index, num)], (evs ++ []).
      split_and!; [by rewrite app_nil_r|by repeat constructor|by unfold indices; simpl|simpl; lia].
  - rewrite (seqZ_cons k) by lia. replace (Z.pred (limit - k)) with (limit - (k + 1)) by lia.
    replace (Z.succ k) with (k + 1) by lia. cbn [resend_scan]. wp_step. unfold wp at 1, lift.
    rewrite rcv_getPacket_ok by (unfold MAX_MESSAGE_PACKETS; lia). pose proof (missing_step m k limit ltac:(lia)) as Hms.
    destruct (packets m !! k) as [d|] eqn:Hpk; [rewrite decide_False in Hms by done|rewrite decide_True in Hms by done].
    + destruct (num =? 0) eqn:Hz; bool_to_prop.
      * eapply wp_mono; [apply IH; try done; lia|].
        intros _ s1 (Hi1 & Hb1 & rs & evs & Ha1 & Hr & Hrs & Hap). split_and!; [done|done|].
        exists rs, evs. subst num. split_and!; [done|done|by rewrite Hms|by eapply apart_weaken; [|exact Hap]; simpl; lia].
      * destruct (Hidx Hz) as [H1 H2]. wp_step. eapply wp_send_resend; [done|lia|lia|done|].
        intros s1 evs Hi1 Ha1 Hb1 Hc1. eapply wp_mono; [apply IH; try done; lia|].
        intros _ s2 (Hi2 & Hb2 & rs & evs2 & Ha2 & Hr & Hrs & Hap). split_and!; [done|congruence|].
        exists ((index, num) :: rs), (evs ++ evs2). split_and!; [by eapply rcv_agree_trans|by constructor| |].
        -- rewrite Hms, indices_cons. by rewrite Hrs.
        -- replace (num =? 0) with false by (symmetry; by apply Z.eqb_neq). simpl. simpl in Hap.
           split_and!; [lia|lia|]. eapply apart_weaken; [|exact Hap]. lia.
    + eapply wp_mono; [apply IH; try done; try (case_bool; lia); destruct (num =? 0) eqn:Hz; bool_to_prop; lia|].
      intros _ s1 (Hi1 & Hb1 & rs & evs & Ha1 & Hr & Hrs & Hap). split_and!; [done|done|].
      exists rs, evs. split_and!; [done|done| |].
      * rewrite Hrs, Hms, app_assoc. f_equal. rewrite seqZ_snoc by lia.
        destruct (num =? 0) eqn:Hz; bool_to_prop; [subst; f_equal; f_equal; lia|]. destruct (Hidx Hz). by f_equal; f_equal; lia.
      * replace (num + 1 =? 0) with false in Hap by (symmetry; apply Z.eqb_neq; lia).
        destruct (num =? 0) eqn:Hz; done.
Qed.

(** Packet [i] may be on its way: the sender may send it unscheduled, or it begins
    below the bytes that were granted. *)
Definition due m (i : Z) : Prop :=
  i < numUnscheduledPackets m \/
  (scheduled m = true /\ i * PACKET_DATA_LENGTH < bytesGranted (scheduledMessageInfo m)).
(** Nothing is: as many bytes as were granted have arrived. *)
Definition grant_used m : Prop :=
  scheduled m = true /\ let info := scheduledMessageInfo m in
  bytesGranted info <= s_messageLength info - bytesRemaining info.
#[global] Instance due_dec m i : Decision (due m i).
Proof. unfold due. apply _. Defined.
#[global] Instance grant_used_dec m : Decision (grant_used m).
Proof. unfold grant_used. cbv zeta. apply _. Defined.

(** The packets that are due and have not arrived. *)
Definition missing_due m : list Z :=
  filter (fun i => packets m !! i = None /\ due m i) (seqZ 0 MAX_MESSAGE_PACKETS).

(** What one elapsed resend timeout of [m] asks for: the packets that are due and
    missing, a RESEND for each maximal range of them; nothing when the sender waits for
    a grant. *)
Definition requested m (evs : list Event) : Prop :=
  if bool_decide (grant_used m) then evs = []
  else exists rs,
    resends (ip (source m)) (id m) (priority (scheduledMessageInfo m)) rs evs /\
    indices rs = missing_due m /\ apart 0 rs.

Lemma missing_due_below m limit :
  0 <= limit <= MAX_MESSAGE_PACKETS -> (forall i, 0 <= i -> due m i <-> i < limit) ->
  missing_due m = missing_from m 0 limit.
Proof.
  intros Hl Hdue. unfold missing_due, missing_from.
  replace MAX_MESSAGE_PACKETS with (limit + (MAX_MESSAGE_PACKETS - limit)) by lia.
  rewrite seqZ_app, filter_app, Z.sub_0_r by lia. rewrite (filter_none _ (seqZ (0 + limit) _)), app_nil_r.
  - apply filter_ext_in. intros i Hi%elem_of_seqZ. rewrite Hdue by lia. naive_solver lia.
  - apply Forall_forall. intros i Hi%elem_of_seqZ [_ Hd]. apply Hdue in Hd; lia.
Qed.

Lemma grant_index_limit_range m limit :
  message_ok m -> grant_index_limit m = Some limit -> 0 <= limit <= MAX_MESSAGE_PACKETS.
Proof.
  intros [H1 H2 H3 H4 H5 H6 H7 H8 H9 H10 H11 H12 H13]. pose proof SenderMessage.data_length_range as HP.
  unfold grant_index_limit. destruct (scheduled m); [|by intros [= <-]].
  case_match; [done|]. case_match; intros [= <-]; [|done]. rewrite Z.quot_div_nonneg by lia.
  assert (0 <= bytesGranted (scheduledMessageInfo m) <= SenderMessage.maxMessageLength) as Hr by lia.
  pose proof (SenderMessage.packets_for_bound _ Hr) as Hb.
  unfold SenderMessage.packets_for, SenderMessage.MAX_MESSAGE_PACKETS in Hb. unfold MAX_MESSAGE_PACKETS. lia.
Qed.

(** The limit that the code computes is the end of what is due. *)
Lemma grant_index_limit_due m :
  message_ok m ->
  match grant_index_limit m with
  | None => grant_used m
  | Some limit => ~ grant_used m /\ forall i, 0 <= i -> due m i <-> i < limit
  end.
Proof.
  intros Hok. pose proof SenderMessage.data_length_range as HP. pose proof (mo_unscheduled _ Hok) as Hu.
  unfold grant_index_limit, grant_used, due. destruct (scheduled m); [|naive_solver].
  destruct (Z.leb_spec (bytesGranted (scheduledMessageInfo m)) (s_messageLength (scheduledMessageInfo m) - bytesRemaining (scheduledMessageInfo m))) as [Hle|Hgt]; [done|].
  destruct (Z.ltb_spec (numUnscheduledPackets m * PACKET_DATA_LENGTH) (bytesGranted (scheduledMessageInfo m))) as [Hlt|Hge].
  - split; [lia|]. intros i Hi. rewrite Z.quot_div_nonneg by lia.
    destruct (SenderMessage.data_div_mod (bytesGranted (scheduledMessageInfo m) + PACKET_DATA_LENGTH - 1)) as [E Hm]. nia.
  - split; [lia|]. intros i Hi. nia.
Qed.

Lemma wp_request m s (Q : unit -> Receiver -> Prop) :
  inv None s -> message_ok m ->
  (forall s' evs, inv None s' -> agree evs s s' -> messageBuckets s' = messageBuckets s -> requested m evs -> Q tt s') ->
  wp (match grant_index_limit m with
      | None => mret tt
      | Some limit => resend_scan m (seqZ 0 limit) 0 0
      end) s Q.
Proof.
  intros Hi Hok HQ. pose proof (grant_index_limit_due m Hok) as Hdue. unfold requested in HQ.
  destruct (grant_index_limit m) as [limit|] eqn:Hl.
  - destruct Hdue as [Hnot Hdue]. rewrite bool_decide_false in HQ by done.
    pose proof (grant_index_limit_range m limit Hok Hl) as Hr.
    rewrite (missing_due_below m limit Hr Hdue) in HQ. rewrite <- (Z.sub_0_r limit) at 1.
    eapply wp_mono; [eapply (resend_scan_spec m (Z.to_nat (limit - 0)) 0 0 0 s limit); try done; try lia; apply Hok|].
    intros [] s' (Hi' & Hb & rs & evs & Ha & Hrs & Hx & Hap). eapply HQ; [done..|]. by exists rs.
  - rewrite bool_decide_true in HQ by done. wp_step. by apply (HQ s []); [|apply rcv_agree_refl|..].
Qed.

(** What the resend loop does to the elapsed part [pre] of the timeouts. *)
Definition asked t b pre s s' : Prop :=
  (forall q, q ∈ timeouts (resendTimeouts (messageBuckets s' b)) -> resend_elapsed t q s' b = false) /\
  exists evss, Forall2 (fun p evs => exists m, heap s !! p = Some m /\ requested m evs) pre evss /\
    agree (concat evss) s s'.

Lemma resend_timeout_loop_spec fuel t b pre suf s :
  inv None s -> t <= now (world s) ->
  timeouts (resendTimeouts (messageBuckets s b)) = pre ++ suf ->
  (forall q, q ∈ pre -> resend_elapsed t q s b = true) ->
  (forall q, q ∈ suf -> resend_elapsed t q s b = false) -> (List.length pre < fuel)%nat ->
  wp (resend_timeout_loop fuel t b) s (fun _ s' => inv None s' /\ asked t b pre s s').
Proof.
  revert pre suf s. induction fuel as [|fuel IH]; intros pre suf s Hi Ht Hl Hpre Hsuf Hf; [lia|].
  simpl. repeat wp_step. destruct (inv_bucket _ _ Hi b) as [B1 B2 B3 B4 B5 B6 B7].
  assert (pre = [] -> forall q, q ∈ timeouts (resendTimeouts (messageBuckets s b)) -> resend_elapsed t q s b = false) as Hno.
  { intros -> q. rewrite Hl. apply Hsuf. }
  assert (pre = [] -> asked t b pre s s) as Hend.
  { intros E. split; [auto|]. exists []. rewrite E. split; [constructor|apply rcv_agree_refl]. }
  unfold timeouts_front. rewrite Hl. destruct pre as [|p pre]; cbn [head app].
  { destruct suf as [|p suf]; cbn [head]; [wp_step; auto|]. rewrite Hsuf by (by left). cbn [negb]. wp_step. auto. }
  rewrite Hpre by (by left). cbn [negb].
  assert (p ∈ timeouts (resendTimeouts (messageBuckets s b))) as Hpin by (rewrite Hl; by left).
  destruct (inv_resend _ _ Hi b p Hpin) as [?|(m & Hp & Hst)]; [done|].
  wp_step. eapply rcv_wp_deref; [done|]. wp_step. wp_step; [by apply bool_decide_true|].
  wp_step. eapply wp_set_resendTimeout; [done|auto|by right; exists m|]. intros s1 Hi1 Ha1 Hr1.
  wp_step. eapply wp_request; [done|by apply (inv_message _ _ Hi p m)|]. intros s2 evs Hi2 Ha2 Hb2 Hreq.
  pose proof (rcv_agree_trans [] _ _ _ _ Ha1 Ha2) as Ha. simpl in Ha.
  pose proof (to_nodup _ _ B3) as Hnd. rewrite Hl in Hnd. simpl in Hnd. apply NoDup_cons in Hnd as [Hnin Hnd].
  assert (forall q, resend_elapsed t q s2 b = if decide (q = p) then false else resend_elapsed t q s b) as Hel.
  { intros q. rewrite Hb2, Hr1. unfold hasElapsed. rewrite expiration_setTimeout. case_decide; [|done].
    specialize (B7 (clock_reads (world s))). fold (now (world s)) in B7.
    pose proof (rdtsc_nonneg (clock_reads (world s))). fold (now (world s)) in *.
    rewrite u64_small by lia. apply Z.leb_gt. lia. }
  eapply wp_mono; [apply (IH pre (suf ++ [p])); [done| | | | |simpl in Hf; lia]|].
  - pose proof (ag_clock _ _ _ Ha). lia.
  - rewrite Hb2, Hr1, timeouts_setTimeout, Hl. cbn [app].
    rewrite (list_remove_app p [] (pre ++ suf)) by apply not_elem_of_nil. symmetry. apply (app_assoc pre suf [p]).
  - intros q Hq. rewrite Hel, decide_False by (intros ->; set_solver). apply Hpre. by right.
  - intros q Hq. rewrite Hel. case_decide; [done|]. apply Hsuf. set_solver.
  - intros _ s3 (Hi3 & Hno3 & evss & Hall & Ha3). split; [done|]. split; [done|].
    exists (evs :: evss). split; [|by eapply rcv_agree_trans].
    constructor; [by exists m|]. by rewrite (agree_heap _ _ _ Ha) in Hall.
Qed.

(** checkResendTimeouts asks once, in order, for the missing packets of each
    message whose resend timeout elapsed. *)
Lemma checkResendTimeouts_spec t b s :
  inv None s -> t <= now (world s) ->
  wp (checkResendTimeouts t b) s (fun _ s' => inv None s' /\ exists pre suf,
    timeouts (resendTimeouts (messageBuckets s b)) = pre ++ suf /\
    (forall q, q ∈ pre -> resend_elapsed t q s b = true) /\ (forall q, q ∈ suf -> resend_elapsed t q s b = false) /\
    asked t b pre s s').
Proof.
  intros Hi Ht. unfold checkResendTimeouts. repeat wp_step. pose proof (inv_bucket _ _ Hi b) as Hb.
  destruct (elapsed_prefix _ t _ (bo_rt _ _ Hb)) as (pre & suf & Hl & Hp & Hs).
  destruct (anyElapsed t (resendTimeouts (messageBuckets s b))) eqn:Hany.
  - eapply wp_mono; [apply (resend_timeout_loop_spec _ t b pre suf); try done; rewrite Hl, length_app; lia|].
    intros _ s' [Hi' ?]. split; [done|]. by exists pre, suf.
  - wp_step. split; [done|]. assert (forall q, q ∈ timeouts (resendTimeouts (messageBuckets s b)) -> resend_elapsed t q s b = false) as Hno.
    { eapply none_elapsed; [apply Hb| |done]. pose proof (bo_rt_clock _ _ Hb (clock_reads (world s))) as Hc.
      fold (now (world s)) in Hc. unfold UINT64_MAX. lia. }
    assert (pre = []) as ->.
    { destruct pre as [|q pre]; [done|]. specialize (Hp q (list_elem_of_here _ _)). rewrite Hno in Hp; [done|].
      rewrite Hl. by left. }
    exists [], suf. split_and!; [done..|]. split; [done|]. exists []. split; [constructor|apply rcv_agree_refl].
Qed.

(** [checkTimeouts]: both loops on the next bucket. *)
Lemma rcv_checkTimeouts_spec s :
  inv None s -> wp checkTimeouts s (fun _ s' => inv None s' /\ quiet s s' /\
    receivedMessages s' = receivedMessages s /\ keeps (heap s) (heap s') /\
    (forall q m, heap s !! q = Some m -> state m <> IN_PROGRESS -> is_Some (heap s' !! q))).
Proof.
  intros Hi. unfold checkTimeouts. repeat wp_step. set (b := Z.land _ _).
  set (s1 := s <| nextBucketIndex ::= _ |>).
  assert (inv None s1) as Hi1 by (by eapply (rcv_inv_ext _ s)).
  unfold world_op. wp_step. apply wp_rdtsc. change (now (world s1)) with (now (world s)).
  set (s2 := s1 <| world := _ |>). assert (inv None s2) as Hi2 by apply (rcv_inv_tick None s1 Hi1).
  assert (quiet s s2) as Hq2 by (split; [done..|apply (now_mono (world s))]).
  wp_step. eapply wp_mono; [apply checkResendTimeouts_spec; [done|]|].
  { apply (now_mono (world s)). }
  intros _ s3 (Hi3 & pre & suf & _ & _ & _ & _ & evss & _ & Ha3). eapply wp_mono; [apply rcv_checkMessageTimeouts_spec; [done|]|].
  { destruct (inv_bucket _ _ Hi b) as [_ _ _ _ _ B6 _]. specialize (B6 (clock_reads (world s))).
    unfold UINT64_MAX, now. lia. }
  intros _ s4 (Hi4 & _ & Hh4 & Hr4 & _ & Hq4). split_and!; [done| | | |].
  - eapply quiet_trans; [done|]. eapply quiet_trans; [by eapply quiet_agree|done].
  - by rewrite Hr4, (ag_received _ _ _ Ha3).
  - intros q m'. rewrite Hh4, (agree_heap _ _ _ Ha3). change (heap s2) with (heap s).
    destruct (heap s !! q) as [m|]; simpl; [|done]. intros He. exists m. split; [done|]. revert He.
    unfold rcv_expire_effect, expire. repeat case_match; bool_to_prop; by intros [= <-].
  - intros q m Hq Hst. rewrite Hh4, (agree_heap _ _ _ Ha3). change (heap s2) with (heap s). rewrite Hq. simpl.
    unfold rcv_expire_effect, expire. case_match; [|by eexists]. by rewrite bool_decide_false.
Qed.
End timers.

End ReceiverTimers.
