(* ===== verification/ReceiverGrants.v ===== *)
(** * ReceiverGrants: what trySendGrants grants

    A pass over the schedule visits up to [degreeOvercommitment] messages, one
    slot each.  [visit] is what a slot does to its message, [pass] a sequence of
    visits; [srpt_pass] says that the pass takes the messages with the fewest
    remaining bytes, of every scheduled peer the first one, as far as the slots go,
    and a later one of a peer only when those in front of it have been visited. *)

From S2P Require Import Prelude Intrusive Util Timeout ObjectPool Perf Protocol Policy Driver SenderMessage ReceiverMessage Receiver ReceiverSchedule ReceiverInv ReceiverSteps ReceiverHandlers.
Import Driver ReceiverMessage Receiver ReceiverSchedule ReceiverInv ReceiverSteps ReceiverHandlers.

Module ReceiverGrants.

Section grants.
Context `{DriverLaws}.
Implicit Types (s : Receiver) (p q : ptr) (m : Message) (x : option ptr) (ip : IpAddress) (slot timer : Z).

Section policy.
Variable policy : Policy.Scheduled.
Variable unusedPriorities : Z.

(** ** One slot *)

Definition slot_priority slot : Z := Z.max 0 (Policy.maxScheduledPriority policy - slot - unusedPriorities).
Definition receivedBytes m : Z := s_messageLength (scheduledMessageInfo m) - bytesRemaining (scheduledMessageInfo m).

Definition regrant prio g m : Message :=
  m <| scheduledMessageInfo ::= fun i => i <| priority := prio |> <| bytesGranted := g |> |>.

(** Too few bytes are granted and not received. *)
Definition needs_grant m : bool :=
  bytesGranted (scheduledMessageInfo m) - receivedBytes m <? Policy.minScheduledBytes policy.
Definition newGrantLimit m : Z := Z.min (receivedBytes m + Policy.maxScheduledBytes policy) (messageLength m).
Definition granted slot m : Message :=
  regrant (slot_priority slot) (if needs_grant m then newGrantLimit m else bytesGranted (scheduledMessageInfo m)) m.

(** The message after its slot: fully granted messages leave the schedule. *)
Definition visit slot m : Message :=
  let m := granted slot m in
  if messageLength m <=? bytesGranted (scheduledMessageInfo m) then link None m else m.

(** The packets of a slot. *)
Definition visit_events slot m (evs : list Event) : Prop :=
  if needs_grant m then
    control (ip (source m)) (Protocol.GrantHeader_new (id m) (newGrantLimit m) (slot_priority slot)) evs
  else evs = [].

Inductive pass : Z -> gmap ptr Message -> list ptr -> list Event -> gmap ptr Message -> Prop :=
  | pass_done slot h : pass slot h [] [] h
  | pass_visit slot h p m evs ps evs' h' :
      h !! p = Some m -> slot < Policy.degreeOvercommitment policy -> visit_events slot m evs ->
      pass (slot + 1) (<[p := visit slot m]> h) ps evs' h' -> pass slot h (p :: ps) (evs ++ evs') h'.

Record sched_ok : Prop := {
  so_min : 0 <= Policy.minScheduledBytes policy <= Policy.maxScheduledBytes policy;
  so_max : Policy.maxScheduledBytes policy + SenderMessage.maxMessageLength < 2 ^ 31;
  so_priority : 0 <= Policy.maxScheduledPriority policy < 2 ^ 8;
  so_unused : 0 <= unusedPriorities
}.

Lemma wp_add_active_cycles x timer s (Q : Z -> Receiver -> Prop) :
  inv x s -> (forall t s', inv x s' -> agree [] s s' -> Q t s') -> wp (add_active_cycles timer) s Q.
Proof.
  intros Hi HQ. unfold add_active_cycles, world_op. wp_step. wp_step. apply wp_rdtsc.
  set (s1 := s <| world := _ |>). assert (inv x s1) as Hi1 by apply (rcv_inv_tick x s Hi).
  assert (agree [] s s1) as Ha1 by apply (rcv_agree_tick s).
  destruct (Perf.timer_split _ _) as [c t']. wp_step. eapply rcv_wp_count_s; [exact Hi1|].
  intros s2 Hi2 Ha2. wp_step. apply HQ; [done|by eapply rcv_agree_trans_nil].
Qed.

Lemma message_bounds m : message_ok m -> 0 < messageLength m < 2 ^ 26.
Proof.
  intros [H1 _ _ _ _ _ _ _ _ _ _ _ _]. pose proof SenderMessage.data_length_range.
  pose proof SenderMessage.maxMessageLength_eq as Hmax. unfold SenderMessage.MAX_MESSAGE_PACKETS in Hmax. lia.
Qed.

Lemma inv_regrant prio g p m s :
  inv None s -> heap s !! p = Some m -> 0 <= prio < 2 ^ 8 -> 0 <= g <= messageLength m ->
  inv None (put p (regrant prio g m) s).
Proof.
  intros Hi Hp Hprio Hg. pose proof (inv_message _ _ Hi p m Hp ltac:(done)) as Hok.
  assert (inv (Some p) (put p (regrant prio g m) s)) as Hi1.
  { eapply rcv_inv_put_own; try done; [by apply rcv_inv_weaken|].
    intros Hr. destruct (inv_received _ _ Hi p Hr) as (n & ? & ?). by simplify_eq. }
  eapply (rcv_inv_done p (regrant prio g m)); [done|apply rcv_lookup_put| | |].
  - destruct Hok as [H1 H2 H3 H4 H5 H6 H7 H8 H9 H10 H11 H12 H13]. by split.
  - apply (inv_home _ _ Hi p m Hp). done.
  - destruct (decide (state m = IN_PROGRESS)) as [|Hst]; [by left|right]. intros b Hb.
    destruct (inv_resend _ _ Hi b p Hb) as [?|(n & ? & ?)]; [done|]. by simplify_eq.
Qed.

Lemma granted_range slot m :
  sched_ok -> message_ok m -> 0 <= slot ->
  0 <= slot_priority slot < 2 ^ 8 /\ 0 <= newGrantLimit m <= messageLength m /\
  0 <= receivedBytes m <= messageLength m /\
  (needs_grant m = true -> bytesGranted (scheduledMessageInfo m) <= newGrantLimit m) /\
  i32 (receivedBytes m + Policy.maxScheduledBytes policy) = receivedBytes m + Policy.maxScheduledBytes policy.
Proof.
  intros [S1 S2 S3 S4] Hok Hs. pose proof (message_bounds m Hok) as Hlen. destruct Hok as [H1 H2 H3 H4 H5 H6 H7 H8 H9 H10 H11 H12 H13].
  unfold slot_priority, newGrantLimit, needs_grant, receivedBytes. rewrite H9.
  split; [lia|]. split; [lia|]. split; [lia|]. split; [rewrite Z.ltb_lt; lia|]. apply i32_small. lia.
Qed.

(** What a slot leaves alone. *)
Record slot_quiet (evs : list Event) s s' : Prop := {
  sq_received : receivedMessages s' = receivedMessages s;
  sq_trace : trace (world s') = trace (world s) ++ evs;
  sq_quiet : quiet s s'
}.
Lemma slot_quiet_agree evs s s' : agree evs s s' -> slot_quiet evs s s'.
Proof. intros Ha. split; [apply Ha|apply Ha|by eapply quiet_agree]. Qed.
Lemma slot_quiet_trans e1 e2 s1 s2 s3 : slot_quiet e1 s1 s2 -> slot_quiet e2 s2 s3 -> slot_quiet (e1 ++ e2) s1 s3.
Proof. intros [A1 A2 A3] [B1 B2 B3]. split; [congruence|by rewrite B2, A2, app_assoc|by eapply quiet_trans]. Qed.

(** The first half of a slot: priority and GRANT. *)
Lemma wp_grant_message slot timer p m s (Q : Z -> Receiver -> Prop) :
  sched_ok -> 0 <= slot -> inv None s -> heap s !! p = Some m ->
  (forall t s' evs, inv None s' -> heap s' = <[p := granted slot m]> (heap s) -> visit_events slot m evs ->
     peerTable s' = peerTable s -> scheduledPeers s' = scheduledPeers s -> slot_quiet evs s s' -> Q t s') ->
  wp (update_info p (fun i => i <| priority := slot_priority slot |>)) s (fun _ s1 =>
    wp (grant_message policy p timer) s1 Q).
Proof.
  intros Hso Hslot Hi Hp HQ. pose proof (inv_message _ _ Hi p m Hp ltac:(done)) as Hok.
  destruct (granted_range slot m Hso Hok Hslot) as (G1 & G2 & G3 & G4 & G5).
  pose proof (message_bounds m Hok) as Hlen. pose proof Hok as [H1 H2 H3 H4 H5 H6 H7 H8 H9 H10 H11 H12 H13].
  unfold update_info. apply (rcv_wp_update_put p _ m); [done|].
  set (m1 := regrant (slot_priority slot) (bytesGranted (scheduledMessageInfo m)) m).
  change (wp (grant_message policy p timer) (put p m1 s) Q).
  assert (inv None (put p m1 s)) as Hi1 by (by apply inv_regrant).
  unfold visit_events, granted in HQ. unfold grant_message. wp_step. eapply rcv_wp_deref; [apply rcv_lookup_put|].
  change (bytesGranted (scheduledMessageInfo m1) - _ <? _) with (needs_grant m).
  destruct (needs_grant m) eqn:Hn.
  2:{ wp_step. apply (HQ _ _ []); try done. split; [done| |by split]. change (trace (world s) = trace (world s) ++ []).
      by rewrite app_nil_r. }
  change (s_messageLength (scheduledMessageInfo m1)) with (s_messageLength (scheduledMessageInfo m)).
  change (bytesRemaining (scheduledMessageInfo m1)) with (bytesRemaining (scheduledMessageInfo m)).
  fold (receivedBytes m). rewrite G5, H9. fold (newGrantLimit m). wp_step. wp_step; [by apply Z.leb_le, G4|].
  unfold update_info. wp_step. apply (rcv_wp_update_put p _ m1); [apply rcv_lookup_put|].
  set (m2 := regrant (slot_priority slot) (newGrantLimit m) m). rewrite rcv_put_put.
  match goal with |- wp ?k _ _ => change (wp k (put p m2 s) Q) end.
  assert (inv None (put p m2 s)) as Hi2 by (by apply inv_regrant).
  wp_step. eapply rcv_wp_count_s; [exact Hi2|]. intros s3 Hi3 Ha3. wp_step.
  apply Util.wp_downCast_u32_of_int; [lia|]. wp_step.
  change (priority (scheduledMessageInfo m1)) with (slot_priority slot). rewrite u8_small by lia.
  eapply rcv_wp_send_control_s; [exact Hi3|]. intros s4 Hi4 Ha4.
  eapply wp_add_active_cycles; [exact Hi4|]. intros t' s5 Hi5 Ha5.
  pose proof (rcv_agree_trans _ _ _ _ _ Ha3 (rcv_agree_trans _ _ _ _ _ Ha4 Ha5)) as Ha.
  rewrite app_nil_r in Ha. simpl in Ha. eapply HQ; [done| | | | |].
  - rewrite (agree_heap _ _ _ Ha). done.
  - by eexists.
  - rewrite (ag_table _ _ _ Ha). done.
  - rewrite (ag_peers _ _ _ Ha). done.
  - destruct (slot_quiet_agree _ _ _ Ha) as [A1 A2 [A3 A4 A5]]. split; [exact A1|exact A2|by split].
Qed.

Definition fully_granted m : bool := messageLength m <=? bytesGranted (scheduledMessageInfo m).

(** What a slot does to the schedule. *)
Definition rescheduled slot ip p m s s' : Prop :=
  if fully_granted (granted slot m) then
    (forall jp, scheduledMessages s' jp = <[ip := list_remove p (scheduledMessages s ip)]> (scheduledMessages s) jp) /\
    scheduledPeers s' = remove_peers (remaining (heap s))
      (<[ip := list_remove p (scheduledMessages s ip)]> (scheduledMessages s)) ip (scheduledPeers s)
  else (forall jp, scheduledMessages s' jp = scheduledMessages s jp) /\ scheduledPeers s' = scheduledPeers s.

Lemma remaining_granted slot p m (h : gmap ptr Message) q :
  h !! p = Some m -> remaining (<[p := granted slot m]> h) q = remaining h q.
Proof. intros Hp. by apply (remaining_same p m). Qed.
Lemma remaining_visit slot p m (h : gmap ptr Message) q :
  h !! p = Some m -> remaining (<[p := visit slot m]> h) q = remaining h q.
Proof. intros Hp. apply (remaining_same p m); [done|]. unfold visit. by destruct (_ <=? _). Qed.

Lemma remove_peers_ext K K' T T' ip (Q : list Z) :
  (forall q, K q = K' q) -> (forall jp, T jp = T' jp) -> remove_peers K T ip Q = remove_peers K' T' ip Q.
Proof.
  intros HK HT. unfold remove_peers.
  assert (forall jp, peer_key K T jp = peer_key K' T' jp) as Hk by (intros jp; unfold peer_key; rewrite HT; by destruct (T' jp)).
  rewrite HT. case_bool_decide; [done|]. case_match; [|done]. unfold by_key at 1 3. rewrite !Hk.
  case_match; [|done]. apply deprioritize_ext. intros y. unfold by_key. by rewrite !Hk.
Qed.

(** The second half of a slot. *)
Lemma wp_finish_slot slot ip timer p m s (Q : Z -> Receiver -> Prop) :
  inv None s -> heap s !! p = Some (granted slot m) -> linked_to m = Some ip -> message_ok m ->
  (forall t s', inv None s' -> heap s' = <[p := visit slot m]> (heap s) -> rescheduled slot ip p m s s' ->
     slot_quiet [] s s' -> Q t s') ->
  wp (deref p) s (fun m s => wp (
      let info := scheduledMessageInfo m in
      if s_messageLength info <=? bytesGranted info
      then _ ← unschedule p; add_active_cycles timer
      else mret timer) s Q).
Proof.
  intros Hi Hp Hl Hok HQ. eapply rcv_wp_deref; [done|]. cbv zeta.
  pose proof (inv_message _ _ Hi p _ Hp ltac:(done)) as Hok'.
  rewrite (mo_info_length _ Hok'). fold (fully_granted (granted slot m)).
  unfold rescheduled in HQ. unfold visit in HQ. fold (fully_granted (granted slot m)) in HQ.
  destruct (fully_granted (granted slot m)).
  - wp_step. eapply (wp_unschedule p (granted slot m) ip); [by apply rcv_inv_weaken|done|done|].
    intros s1 Hi1 Hr1 HT1 HQ1.
    assert (heap s1 !! p = Some (link None (granted slot m))) as Hp1 by (rewrite (rp_heap _ _ _ _ Hr1); apply lookup_insert_eq).
    assert (inv None s1) as Hi1'.
    { eapply (rcv_inv_done p (link None (granted slot m))); [done|done| | |].
      - destruct Hok' as [H1' H2 H3 H4 H5 H6 H7 H8 H9 H10 H11 H12 H13]. by split.
      - rewrite (rp_buckets _ _ _ _ Hr1). apply (inv_home _ _ Hi p _ Hp). done.
      - destruct (decide (state m = IN_PROGRESS)) as [|Hst]; [by left|right]. rewrite (rp_buckets _ _ _ _ Hr1).
        intros b Hb. destruct (inv_resend _ _ Hi b p Hb) as [?|(n & ? & ?)]; [done|]. by simplify_eq. }
    eapply wp_add_active_cycles; [exact Hi1'|]. intros t s2 Hi2 Ha2. apply HQ; [done| | |].
    + by rewrite (agree_heap _ _ _ Ha2), (rp_heap _ _ _ _ Hr1).
    + split; [intros jp; by rewrite (agree_lists _ _ _ _ Ha2)|]. by rewrite (ag_peers _ _ _ Ha2).
    + apply (slot_quiet_trans [] [] _ s1); [|by apply slot_quiet_agree].
      split; [apply Hr1|rewrite app_nil_r; by rewrite (rp_world _ _ _ _ Hr1)|by eapply quiet_reput].
  - wp_step. apply HQ; [done|by rewrite insert_id|done|]. split; [done|by rewrite app_nil_r|apply quiet_refl].
Qed.

(** ** The pass *)

(** The visits [ps] from [slot] on, when the peers [rest] are still ahead.  A message is
    visited only after every message in front of it in the list of its peer
    ([sp_front]), which are the ones with fewer remaining bytes. *)
Record srpt_from slot (rest : list IpAddress) s (ps : list ptr) (evs : list Event) s' : Prop := {
  sp_pass : pass slot (heap s) ps evs (heap s');
  sp_quiet : slot_quiet evs s s';
  sp_nodup : NoDup ps;
  sp_sorted : sorted_by (remaining (heap s)) ps;
  sp_linked : forall p, p ∈ ps -> exists ip, ip ∈ rest /\ p ∈ scheduledMessages s ip;
  sp_front : forall ps1 p ps2 ip l1 l2, ps = ps1 ++ p :: ps2 -> scheduledMessages s ip = l1 ++ p :: l2 -> l1 ⊆ ps1;
  sp_first : forall p ip, p ∈ ps -> head rest = Some ip -> peer_remaining s ip <= remaining (heap s) p;
  sp_srpt : forall ip, ip ∈ rest -> (exists p, p ∈ ps /\ p ∈ scheduledMessages s ip) \/
    (Policy.degreeOvercommitment policy <= slot + zlength ps /\
     forall p, p ∈ ps -> remaining (heap s) p <= peer_remaining s ip)
}.

Lemma peer_remaining_key s ip : peer_remaining s ip = peer_key (remaining (heap s)) (scheduledMessages s) ip.
Proof. done. Qed.

(** Where the iterator is after its peer was rescheduled. *)
Lemma remove_peers_split K T' (ip : Z) (pre post : list Z) :
  (ip ∉ pre) -> exists pre' post', remove_peers K T' ip (pre ++ ip :: post) = pre' ++ post' /\
    head post' = head post /\ pre' ⊆ pre ++ [ip] /\ post' ⊆ ip :: post.
Proof.
  intros Hpre. unfold remove_peers. case_bool_decide.
  { exists pre, post. rewrite list_remove_app by done. split_and!; [done|done|set_solver..]. }
  assert (exists pre' post', pre ++ ip :: post = pre' ++ post' /\ head post' = head post /\
    pre' ⊆ pre ++ [ip] /\ post' ⊆ ip :: post) as Hsame.
  { exists (pre ++ [ip]), post. rewrite <- app_assoc. split_and!; [done..|set_solver]. }
  rewrite split_at_app by done. cbn [snd]. destruct post as [|nx post]; cbn [head]; [exact Hsame|].
  destruct (by_key (peer_key K T') nx ip) eqn:Hb; [|exact Hsame].
  destruct (deprioritize_app (by_key (peer_key K T')) ip pre (nx :: post) Hpre) as (passed & rest & Heq & -> & _ & Hr).
  destruct passed as [|y passed].
  - simpl in Heq. subst rest. specialize (Hr nx eq_refl). unfold by_key in Hb, Hr. bool_to_prop. lia.
  - simpl in Heq. injection Heq as <- ->. exists pre, (nx :: passed ++ ip :: rest). split_and!; [done|done|set_solver..].
Qed.

(** The schedule ahead of the iterator, before and after a slot. *)
Lemma slot_advance slot ip p m s s' pre post l :
  inv None s -> inv None s' -> heap s !! p = Some m -> heap s' = <[p := visit slot m]> (heap s) ->
  scheduledPeers s = pre ++ ip :: post -> scheduledMessages s ip = p :: l -> rescheduled slot ip p m s s' ->
  exists pre' rest', scheduledPeers s' = pre' ++ rest' /\ head rest' = head post /\ (forall jp, jp ∈ post -> jp ∈ rest') /\
    (forall jp, jp ∈ rest' -> p ∉ scheduledMessages s' jp) /\
    (forall jp q, q ∈ scheduledMessages s' jp -> q ∈ scheduledMessages s jp) /\
    (forall jp, jp ∈ rest' -> jp = ip \/ jp ∈ post) /\
    (forall jp, jp ∈ rest' -> scheduledMessages s' jp = list_remove p (scheduledMessages s jp)).
Proof.
  intros Hi Hi' Hp Hh Hq Hl Hre. pose proof (inv_order _ _ Hi) as [N1 N2 N3 N4 N5]. pose proof (inv_order _ _ Hi') as [M1 M2 M3 M4 M5].
  rewrite Hq in N3. pose proof N3 as (_ & Hd & Hnd)%NoDup_app. apply NoDup_cons in Hnd as [Hnp Hnd].
  assert (ip ∉ pre) as Hpre by (intros Hin; apply (Hd ip Hin); by left).
  assert (forall jp, p ∈ scheduledMessages s jp -> jp = ip) as Honly.
  { intros jp Hin. apply (own_list _ _ m _ _ Hi Hp) in Hin. assert (p ∈ scheduledMessages s ip) as Hin' by (rewrite Hl; by left).
    apply (own_list _ _ m _ _ Hi Hp) in Hin'. congruence. }
  unfold rescheduled in Hre. destruct (fully_granted (granted slot m)).
  - destruct Hre as [HT HQ]. rewrite Hl, (list_remove_app p [] l) in HT by apply not_elem_of_nil. simpl in HT.
    assert (p ∉ l) as Hpl by (specialize (N1 ip); rewrite Hl in N1; by apply NoDup_cons in N1 as [? _]).
    assert (forall jp, p ∉ scheduledMessages s' jp) as Hnot.
    { intros jp. rewrite HT. destruct (decide (jp = ip)) as [->|Hj]; [by rewrite fn_lookup_insert|].
      rewrite fn_lookup_insert_ne by done. by intros ?%Honly. }
    rewrite Hq in HQ. destruct (remove_peers_split (remaining (heap s)) (<[ip:=list_remove p (scheduledMessages s ip)]> (scheduledMessages s)) ip pre post Hpre)
      as (pre' & rest' & Heq & Hhd & Hsub & Hsub').
    pose proof (eq_trans HQ Heq) as HQ'. clear HQ Heq. rename HQ' into HQ.
    assert (forall jp, jp ∈ scheduledPeers s' -> jp ∈ pre ++ ip :: post) as Hback.
    { intros jp Hj. apply M4 in Hj. rewrite <- Hq. apply N4. rewrite HT in Hj.
      destruct (decide (jp = ip)) as [->|Hne]; [by rewrite Hl|by rewrite fn_lookup_insert_ne in Hj]. }
    exists pre', rest'. split_and!; [done|done| |auto| | |].
    + intros jp Hj. assert (jp <> ip) as Hne by (intros ->; done). assert (jp ∈ scheduledPeers s') as Hin.
      { apply M4. rewrite HT, fn_lookup_insert_ne by done. apply N4. rewrite Hq. apply elem_of_app. right. by right. }
      rewrite HQ in Hin. apply elem_of_app in Hin as [Hin|]; [|done]. apply Hsub in Hin.
      apply elem_of_app in Hin as [Hin| ->%list_elem_of_singleton]; [|done]. exfalso. apply (Hd jp Hin). by right.
    + intros jp q. rewrite HT. destruct (decide (jp = ip)) as [->|Hne]; [|by rewrite fn_lookup_insert_ne].
      rewrite fn_lookup_insert, Hl. intros Hin. by right.
    + intros jp Hj. apply Hsub' in Hj. by apply elem_of_cons in Hj.
    + intros jp _. rewrite HT. destruct (decide (jp = ip)) as [->|Hne]; [by rewrite fn_lookup_insert, Hl, (list_remove_app p [] l) by apply not_elem_of_nil|].
      rewrite fn_lookup_insert_ne by done. symmetry. apply list_remove_not_elem. by intros ?%Honly.
  - destruct Hre as [HT HQ]. exists (pre ++ [ip]), post. rewrite HQ, Hq, <- app_assoc. split_and!; [done|done|done| | |by right|].
    + intros jp Hj. rewrite HT. intros ->%Honly. done.
    + intros jp q. by rewrite HT.
    + intros jp Hj. rewrite HT. symmetry. apply list_remove_not_elem. intros ->%Honly. done.
Qed.

Lemma srpt_stop slot rest s :
  rest = [] \/ Policy.degreeOvercommitment policy <= slot -> srpt_from slot rest s [] [] s.
Proof.
  intros Hr. split; [constructor|split; [done|by rewrite app_nil_r|apply quiet_refl]|constructor|constructor|..].
  - intros p Hp. by apply elem_of_nil in Hp.
  - intros ps1 p ps2 ip l1 l2 Hps. by destruct ps1.
  - intros p ip Hp. by apply elem_of_nil in Hp.
  - intros ip Hip. destruct Hr as [-> |Hd]; [by apply elem_of_nil in Hip|]. right.
    split; [unfold zlength; simpl; lia|]. intros p Hp. by apply elem_of_nil in Hp.
Qed.

(** One more slot in front of the visits of a pass. *)
Lemma srpt_visit slot ip p m l s s1 s' evs evs' pre post rest' ps :
  inv None s -> inv None s1 -> heap s !! p = Some m -> slot < Policy.degreeOvercommitment policy ->
  scheduledPeers s = pre ++ ip :: post -> scheduledMessages s ip = p :: l ->
  visit_events slot m evs -> heap s1 = <[p := visit slot m]> (heap s) -> slot_quiet evs s s1 ->
  head rest' = head post -> (forall jp, jp ∈ post -> jp ∈ rest' /\ scheduledMessages s1 jp = scheduledMessages s jp) ->
  (forall jp, jp ∈ rest' -> p ∉ scheduledMessages s1 jp) ->
  (forall jp q, q ∈ scheduledMessages s1 jp -> q ∈ scheduledMessages s jp) ->
  (forall jp, jp ∈ rest' -> jp = ip \/ jp ∈ post) ->
  (forall jp, jp ∈ rest' -> scheduledMessages s1 jp = list_remove p (scheduledMessages s jp)) ->
  srpt_from (slot + 1) rest' s1 ps evs' s' -> srpt_from slot (ip :: post) s (p :: ps) (evs ++ evs') s'.
Proof.
  intros Hi Hi1 Hp Hslot Hq Hl He Hh Hsq Hhd Hpost Hnp Hsub Hrest Hrem [S1 S2 S3 S4 S5 SF S6 S7].
  assert (forall q, remaining (heap s1) q = remaining (heap s) q) as HK.
  { intros q. rewrite Hh. by apply (remaining_visit slot p m). }
  assert (peer_remaining s ip = remaining (heap s) p) as Hkp by (unfold peer_remaining; by rewrite Hl).
  assert (forall jp, jp ∈ post -> peer_remaining s1 jp = peer_remaining s jp) as Hkey.
  { intros jp Hj. destruct (Hpost jp Hj) as [_ E]. unfold peer_remaining. rewrite E. by destruct (scheduledMessages s jp). }
  pose proof (io_peers_sorted _ _ _ (inv_order _ _ Hi)) as Hs. rewrite Hq in Hs.
  apply sorted_by_app in Hs as (_ & Hs & _). apply sorted_by_cons in Hs as [_ Hs].
  assert (forall jp, jp ∈ post -> remaining (heap s) p <= peer_remaining s jp) as Hlow.
  { intros jp Hj. rewrite <- Hkp. apply (Hs jp Hj). }
  assert (forall q, q ∈ ps -> remaining (heap s) p <= remaining (heap s) q) as Hfirst.
  { intros q Hqin. destruct (S5 q Hqin) as (jp & Hj & _). destruct rest' as [|nx rest'']; [by apply elem_of_nil in Hj|].
    destruct post as [|nx' post']; simpl in Hhd; [done|]. injection Hhd as ->.
    specialize (S6 q nx' Hqin eq_refl). rewrite HK, Hkey in S6 by (by left).
    specialize (Hlow nx' (list_elem_of_here _ _)). lia. }
  split.
  - econstructor; [done..|]. by rewrite <- Hh.
  - by eapply slot_quiet_trans.
  - constructor; [|done]. intros Hin. destruct (S5 p Hin) as (jp & Hj & Hpj). by apply (Hnp jp).
  - apply sorted_by_cons. split; [|done]. eapply sorted_by_ext; [|exact S4]. intros q _. apply HK.
  - intros q [->|Hqin]%elem_of_cons; [exists ip; rewrite Hl; split; by left|].
    destruct (S5 q Hqin) as (jp & Hj & Hqj). exists jp. split; [|auto]. apply elem_of_cons. auto.
  - intros ps1 r ps2 jp l1 l2 Hps Hjp. pose proof (io_nodup _ _ _ (inv_order _ _ Hi) jp) as Hndj. rewrite Hjp in Hndj.
    assert (forall kp q, q ∈ scheduledMessages s jp -> q ∈ scheduledMessages s kp -> kp = jp) as Hown.
    { intros kp q H1 H2. destruct (inv_scheduled _ _ Hi jp q H1) as (n & Hn & ?).
      apply (own_list _ _ n _ _ Hi Hn) in H2. congruence. }
    assert (r ∈ scheduledMessages s jp) as Hr by (rewrite Hjp; set_solver).
    destruct ps1 as [|p' ps1]; injection Hps as -> Hps.
    + assert (jp = ip) as -> by (symmetry; apply (Hown ip r); [done|rewrite Hl; by left]).
      rewrite Hl in Hjp. destruct l1 as [|y l1]; [done|]. injection Hjp as <- _. apply NoDup_cons in Hndj as [Hn _]. set_solver.
    + assert (r ∈ ps) as Hrps by (rewrite Hps; set_solver). destruct (S5 r Hrps) as (kp & Hk & Hrk).
      assert (kp = jp) as -> by (apply (Hown kp r); auto). specialize (Hrem jp Hk). rewrite Hjp in Hrem.
      destruct (decide (p' ∈ l1)) as [Hpl|Hpl].
      * assert (jp = ip) as -> by (symmetry; apply (Hown ip p'); [rewrite Hjp|rewrite Hl]; set_solver).
        rewrite Hl in Hjp. destruct l1 as [|y l1]; [by apply elem_of_nil in Hpl|]. injection Hjp as <- Hjp.
        rewrite (list_remove_app p' [] (l1 ++ r :: l2) (not_elem_of_nil _)) in Hrem. specialize (SF ps1 r ps2 ip l1 l2 Hps Hrem). set_solver.
      * rewrite list_remove_not_elem in Hrem; [specialize (SF ps1 r ps2 jp l1 l2 Hps Hrem); set_solver|].
        specialize (Hnp jp Hk). intros Hin. apply elem_of_app in Hin as [?|[->|Hin]%elem_of_cons]; [done|by apply Hnp|].
        assert (p' ∈ scheduledMessages s jp) as Hpj by (rewrite Hjp; set_solver).
        assert (jp = ip) as -> by (symmetry; apply (Hown ip p'); [done|rewrite Hl; by left]).
        rewrite Hl in Hjp. destruct l1 as [|y l1]; injection Hjp as -> _; [|set_solver]. apply Hnp, Hrk.
  - intros q jp [->|Hqin]%elem_of_cons [= <-]; [by rewrite Hkp|]. rewrite Hkp. auto.
  - intros jp [->|Hj]%elem_of_cons.
    { left. exists p. rewrite Hl. split; by left. }
    destruct (Hpost jp Hj) as [Hj' _]. destruct (S7 jp Hj') as [(q & Hqin & Hqj)|[Hfull Hle]].
    + left. exists q. split; [by right|auto].
    + right. split; [unfold zlength in *; simpl; lia|]. intros q [->|Hqin]%elem_of_cons; [auto|].
      rewrite <- HK, <- Hkey by done. auto.
Qed.

Lemma rescheduled_other slot ip p m s s' jp :
  rescheduled slot ip p m s s' -> jp <> ip -> scheduledMessages s' jp = scheduledMessages s jp.
Proof.
  unfold rescheduled. intros Hr Hj. destruct (fully_granted _); destruct Hr as [-> _]; [by rewrite fn_lookup_insert_ne|done].
Qed.

Lemma rescheduled_after slot ip p m s s1 s2 :
  heap s !! p = Some m -> heap s1 = <[p := granted slot m]> (heap s) -> peerTable s1 = peerTable s -> scheduledPeers s1 = scheduledPeers s ->
  rescheduled slot ip p m s1 s2 -> rescheduled slot ip p m s s2.
Proof.
  unfold rescheduled. intros Hp Hh Ht Hq Hr.
  assert (forall jp, scheduledMessages s1 jp = scheduledMessages s jp) as HT by (intros jp; unfold scheduledMessages; by rewrite Ht).
  destruct (fully_granted _); destruct Hr as [Hr1 Hr2]; rewrite Hq in Hr2.
  - assert (forall jp, <[ip:=list_remove p (scheduledMessages s1 ip)]> (scheduledMessages s1) jp =
      <[ip:=list_remove p (scheduledMessages s ip)]> (scheduledMessages s) jp) as E.
    { intros jp. rewrite HT. destruct (decide (jp = ip)) as [->|]; [by rewrite !fn_lookup_insert|by rewrite !fn_lookup_insert_ne]. }
    split; [intros jp; by rewrite Hr1, E|]. rewrite Hr2. apply remove_peers_ext; [|exact E].
    intros q. rewrite Hh. by apply remaining_granted.
  - split; [intros jp; by rewrite Hr1, HT|done].
Qed.

Lemma grant_loop_spec fuel : forall slot timer s pre rest,
  sched_ok -> inv None s -> 0 <= slot -> scheduledPeers s = pre ++ rest ->
  (Z.to_nat (Policy.degreeOvercommitment policy - slot) <= fuel)%nat ->
  wp (grant_loop fuel policy unusedPriorities (head rest) slot timer) s (fun _ s' => inv None s' /\
    exists ps evs, srpt_from slot rest s ps evs s').
Proof.
  induction fuel as [|fuel IH]; intros slot timer s pre rest Hso Hi Hslot Hq Hf.
  { assert (Policy.degreeOvercommitment policy <= slot) as Hd by lia.
    unfold grant_loop. replace (slot <? Policy.degreeOvercommitment policy) with false by (symmetry; apply Z.ltb_ge; lia).
    destruct (head rest); wp_step; (split; [done|]); exists [], []; apply srpt_stop; by right. }
  destruct rest as [|ip post]; cbn [head grant_loop].
  { wp_step. split; [done|]. exists [], []. apply srpt_stop. by left. }
  destruct (Z.ltb_spec slot (Policy.degreeOvercommitment policy)) as [Hlt|Hge].
  2:{ wp_step. split; [done|]. exists [], []. apply srpt_stop. by right. }
  wp_step. wp_step. assert (ip ∈ scheduledPeers s) as Hin by (rewrite Hq; apply elem_of_app; right; by left).
  destruct (scheduledMessages s ip) as [|p l] eqn:Hl; [by apply (io_peers _ _ _ (inv_order _ _ Hi)) in Hin|].
  assert (p ∈ scheduledMessages s ip) as Hpl by (rewrite Hl; by left).
  destruct (inv_scheduled _ _ Hi ip p Hpl) as (m & Hp & Hlink).
  pose proof (inv_message _ _ Hi p m Hp ltac:(done)) as Hok.
  wp_step. eapply wp_mono; [eapply (wp_grant_message slot timer p m s (fun t s1 => inv None s1 /\
    heap s1 = <[p := granted slot m]> (heap s) /\ peerTable s1 = peerTable s /\ scheduledPeers s1 = scheduledPeers s /\
    exists evs, visit_events slot m evs /\ slot_quiet evs s s1)); [done..|]|].
  { intros t s1 evs H1 H2 H3 H4 H5 H6. split_and!; [done..|]. by exists evs. }
  intros ? s0 Hw. wp_step. eapply wp_mono; [exact Hw|]. clear s0 Hw. intros t s1 (Hi1 & Hh1 & Ht1 & Hq1 & evs & He & Hsq1).
  cbv zeta.
  assert (heap s1 !! p = Some (granted slot m)) as Hp1 by (rewrite Hh1; apply lookup_insert_eq).
  wp_step. eapply wp_mono; [eapply (wp_finish_slot slot ip t p m s1 (fun t s2 => inv None s2 /\
    heap s2 = <[p := visit slot m]> (heap s1) /\ rescheduled slot ip p m s1 s2 /\ slot_quiet [] s1 s2)); [done..|]|].
  { intros t2 s2 H1 H2 H3 H4. by split_and!. }
  intros ? s0 Hw. wp_step. eapply wp_mono; [exact Hw|]. clear s0 Hw. intros t2 s2 (Hi2 & Hh2 & Hre1 & Hsq2).
  rewrite Hh1, insert_insert_eq in Hh2. pose proof (rescheduled_after _ _ _ _ _ _ _ Hp Hh1 Ht1 Hq1 Hre1) as Hre.
  destruct (slot_advance slot ip p m s s2 pre post l) as (pre' & rest' & Hq2 & Hhd & Hpost & Hnp & Hsub & Hrest & Hrem); [done..|].
  pose proof (io_peers_nodup _ _ _ (inv_order _ _ Hi)) as Hnd. rewrite Hq in Hnd.
  assert (next_peer ip (scheduledPeers s) = head rest') as ->.
  { unfold next_peer. rewrite Hq, split_at_app; [done|]. apply NoDup_app in Hnd as (_ & Hd & _).
    intros Hi'. apply (Hd ip Hi'). by left. }
  eapply wp_mono; [apply (IH (slot + 1) t2 s2 pre' rest'); [done|done|lia|done|lia]|].
  intros [] s3 (Hi3 & ps & evs' & Hps). split; [done|]. exists (p :: ps), (evs ++ evs').
  eapply (srpt_visit slot ip p m l s s2); try done.
  - pose proof (slot_quiet_trans _ _ _ _ _ Hsq1 Hsq2) as Hs. by rewrite app_nil_r in Hs.
  - intros jp Hj. split; [auto|]. eapply rescheduled_other; [done|]. intros ->.
    apply NoDup_app in Hnd as (_ & _ & Hnd). by apply NoDup_cons in Hnd as [? _].
Qed.
End policy.

(** ** trySendGrants *)

Definition unused_priorities s : Z :=
  Z.max 0 ((Policy.maxScheduledPriority (Policy.localScheduledPolicy (policyManager s)) + 1) - zlength (scheduledPeers s)).
(** A pass over the whole schedule under the current policy. *)
Definition srpt_pass s (ps : list ptr) (evs : list Event) s' : Prop :=
  srpt_from (Policy.localScheduledPolicy (policyManager s)) (unused_priorities s) 0 (scheduledPeers s) s ps evs s'.

Lemma srpt_from_ext policy unused slot rest s s1 s2 s' ps evs :
  heap s1 = heap s -> peerTable s1 = peerTable s -> receivedMessages s1 = receivedMessages s ->
  trace (world s1) = trace (world s) -> policyManager s1 = policyManager s -> now (world s) <= now (world s1) ->
  heap s' = heap s2 -> receivedMessages s' = receivedMessages s2 -> world s' = world s2 ->
  policyManager s' = policyManager s2 -> granting s' = granting s ->
  srpt_from policy unused slot rest s1 ps evs s2 -> srpt_from policy unused slot rest s ps evs s'.
Proof.
  intros E1 E2 E3 E4 E5 E6 F1 F2 F3 F4 F5 [S1 [T1 T2 [U1 U2 U3]] S3 S4 S5 SF S6 S7].
  assert (forall jp, scheduledMessages s1 jp = scheduledMessages s jp) as HT by (intros jp; unfold scheduledMessages; by rewrite E2).
  assert (forall jp, peer_remaining s1 jp = peer_remaining s jp) as HR by (intros jp; unfold peer_remaining; rewrite HT; by rewrite E1).
  rewrite E1 in *. split.
  - by rewrite F1.
  - split; [congruence|by rewrite F3, T2, E4|]. split; [congruence|done|]. rewrite F3. lia.
  - done.
  - done.
  - intros p Hp. destruct (S5 p Hp) as (jp & ? & ?). exists jp. by rewrite <- HT.
  - intros ps1 p ps2 ip l1 l2. rewrite <- HT. apply SF.
  - intros p jp Hp Hj. rewrite <- HR. eauto.
  - intros jp Hj. destruct (S7 jp Hj) as [(p & ? & ?)|[? Hle]].
    + left. exists p. by rewrite <- HT.
    + right. split; [done|]. intros p Hp. rewrite <- HR. auto.
Qed.

Lemma trySendGrants_spec s :
  inv None s -> granting s = false -> zlength (scheduledPeers s) < 2 ^ 31 ->
  wp trySendGrants s (fun _ s' => inv None s' /\ exists ps evs, srpt_pass s ps evs s').
Proof.
  intros Hi Hg Hn. unfold trySendGrants, world_op. wp_step. wp_step. apply wp_rdtsc.
  set (s1 := s <| world := _ |>). assert (inv None s1) as Hi1 by apply (rcv_inv_tick None s Hi).
  assert (agree [] s s1) as Ha1 by apply (rcv_agree_tick s). wp_step. wp_step.
  change (granting s1) with (granting s). rewrite Hg. wp_step. wp_step. wp_step.
  set (s2 := s1 <| granting := true |>). assert (inv None s2) as Hi2 by (by eapply (rcv_inv_ext None s1)).
  assert (now (world s) <= now (world s2)) as Hc2 by apply Ha1.
  change (scheduledPeers s1) with (scheduledPeers s). case_bool_decide as He.
  { wp_step. wp_step. split; [by eapply (rcv_inv_ext None s2)|]. exists [], []. unfold srpt_pass. rewrite He.
    apply (srpt_from_ext _ _ _ _ s s2 s2); try done. apply srpt_stop. by left. }
  pose proof (inv_policy _ _ Hi) as [P1 P2 P3 P4]. pose proof (zlength_nonneg (scheduledPeers s)).
  wp_step. unfold policy_op. wp_step. wp_step. change (Policy.getScheduledPolicy _) with (Policy.localScheduledPolicy (policyManager s)).
  set (policy := Policy.localScheduledPolicy (policyManager s)) in *. set (s3 := s2 <| policyManager := _ |>).
  assert (inv None s3) as Hi3 by (by eapply (rcv_inv_ext None s2)).
  wp_step. wp_step; [by apply Z.ltb_lt|]. wp_step. apply Util.wp_downCast_int_of_size; [lia|].
  fold policy. change (Z.max 0 _) with (unused_priorities s).
  eapply wp_mono; [apply (grant_loop_spec policy (unused_priorities s) _ 0 _ s3 [] (scheduledPeers s)); try done; try lia|].
  { split; try done. unfold unused_priorities. lia. }
  intros _ s4 (Hi4 & ps & evs & Hps). wp_step. split; [by eapply (rcv_inv_ext None s4)|].
  exists ps, evs. by eapply (srpt_from_ext _ _ _ _ s s3 s4).
Qed.

(** Every slot has its message. *)
Lemma pass_effect policy unused slot h ps evs h' :
  pass policy unused slot h ps evs h' -> NoDup ps ->
  slot + zlength ps <= Z.max slot (Policy.degreeOvercommitment policy) /\
  (forall q, q ∉ ps -> h' !! q = h !! q) /\
  (forall p m, p ∈ ps -> h !! p = Some m -> exists k, slot <= k /\ h' !! p = Some (visit policy unused k m)).
Proof.
  induction 1 as [slot h|slot h p m evs ps evs' h' Hp Hslot _ _ IH]; intros Hnd.
  { split_and!; [unfold zlength; simpl; lia|done|]. intros p m Hp. by apply elem_of_nil in Hp. }
  apply NoDup_cons in Hnd as [Hnin Hnd]. destruct (IH Hnd) as (Hlen & Hsame & Hvis). split_and!.
  - unfold zlength in *. simpl. lia.
  - intros q [Hq Hqs]%not_elem_of_cons. rewrite Hsame by done. by rewrite lookup_insert_ne.
  - intros q n Hq Hn. destruct (decide (q = p)) as [->|Hne].
    + exists slot. simplify_eq. split; [lia|]. rewrite Hsame by done. apply lookup_insert_eq.
    + apply elem_of_cons in Hq as [?|Hq]; [done|].
      destruct (Hvis q n Hq) as (k & ? & ?); [by rewrite lookup_insert_ne|]. exists k. split; [lia|done].
Qed.

(** Grants leave the packets of every message alone. *)
Lemma pass_keeps policy unused slot h ps evs h' : pass policy unused slot h ps evs h' -> keeps h h'.
Proof.
  induction 1 as [slot h|slot h p m evs ps evs' h' Hp _ _ _ IH]; [by apply keeps_same|].
  eapply keeps_trans; [|exact IH]. eapply keeps_insert; [done|by unfold visit; case_match..].
Qed.

(** The bytes that a visit grants. *)
Lemma visit_bounds policy unused k m :
  sched_ok policy unused -> message_ok m -> 0 <= k -> linked_to m <> None ->
  let m' := visit policy unused k m in
  let g := bytesGranted (scheduledMessageInfo m) in let g' := bytesGranted (scheduledMessageInfo m') in
  packets m' = packets m /\ state m' = state m /\ g <= g' <= messageLength m /\
  (g < g' -> g' <= receivedBytes m + Policy.maxScheduledBytes policy) /\
  (g' - receivedBytes m < Policy.minScheduledBytes policy -> g' = messageLength m) /\
  (linked_to m' = None -> g' = messageLength m).
Proof.
  intros Hso Hok Hk Hl m' g g'. destruct (granted_range policy unused k m Hso Hok Hk) as (_ & G2 & G3 & G4 & _).
  pose proof (mo_granted _ Hok) as Hg. destruct Hso as [S1 S2 S3 S4].
  set (gr := if needs_grant policy m then newGrantLimit policy m else g).
  assert (g' = gr /\ packets m' = packets m /\ state m' = state m /\
    linked_to m' = if messageLength m <=? gr then None else linked_to m) as (-> & E1 & E2 & E3).
  { unfold g', m', visit. change (bytesGranted (scheduledMessageInfo (granted policy unused k m))) with gr.
    change (messageLength (granted policy unused k m)) with (messageLength m). by destruct (messageLength m <=? gr). }
  split; [exact E1|]. split; [exact E2|]. rewrite E3. clear E1 E2 E3. fold g in Hg, G4.
  unfold gr, needs_grant, newGrantLimit in *. fold g in G4 |- *.
  destruct (Z.ltb_spec (g - receivedBytes m) (Policy.minScheduledBytes policy)) as [Hn|Hn]; [specialize (G4 eq_refl)|clear G4];
    (split; [lia|]; split; [lia|]; split; [lia|]); case_bool; (done || lia).
Qed.

Lemma pass_bounds s ps evs s' :
  let policy := Policy.localScheduledPolicy (policyManager s) in
  inv None s -> srpt_pass s ps evs s' ->
  zlength ps <= Z.max 0 (Policy.degreeOvercommitment policy) /\
  (forall p, p ∉ ps -> heap s' !! p = heap s !! p) /\
  (forall p m, p ∈ ps -> heap s !! p = Some m -> exists m', heap s' !! p = Some m' /\
     packets m' = packets m /\ state m' = state m /\
     let g := bytesGranted (scheduledMessageInfo m) in let g' := bytesGranted (scheduledMessageInfo m') in
     g <= g' <= messageLength m /\
     (g < g' -> g' <= receivedBytes m + Policy.maxScheduledBytes policy) /\
     (g' - receivedBytes m < Policy.minScheduledBytes policy -> g' = messageLength m) /\
     (linked_to m' = None -> g' = messageLength m)).
Proof.
  intros policy Hi Hps. destruct (pass_effect _ _ _ _ _ _ _ (sp_pass _ _ _ _ _ _ _ _ Hps) (sp_nodup _ _ _ _ _ _ _ _ Hps))
    as (Hlen & Hsame & Hvis). split; [exact Hlen|]. split; [done|]. intros p m Hp Hm.
  destruct (Hvis p m Hp Hm) as (k & Hk & Hm'). exists (visit policy (unused_priorities s) k m). split; [exact Hm'|].
  pose proof (inv_policy _ _ Hi) as [P1 P2 P3 P4]. fold policy in P1, P2, P3, P4.
  apply visit_bounds; [|by apply (inv_message _ _ Hi p m)|done|].
  - split; try done. unfold unused_priorities. lia.
  - destruct (sp_linked _ _ _ _ _ _ _ _ Hps p Hp) as (ip & _ & Hin). apply (own_list _ _ m _ _ Hi Hm) in Hin. congruence.
Qed.
End grants.

End ReceiverGrants.
