(* ===== verification/ReceiverSystem.v ===== *)
(** * ReceiverSystem: the Receiver as a transition system

    [Op] lists the calls that reach the Receiver: the handlers of incoming
    packets, the calls of the application and [poll].  [allowed] is what the
    interface asks of a caller, [reachable] the states that such calls lead to. *)

From S2P Require Import Prelude Intrusive Util Timeout ObjectPool Perf Protocol Policy Driver SenderMessage ReceiverMessage Receiver ReceiverSchedule ReceiverInv ReceiverSteps ReceiverHandlers ReceiverTimers ReceiverGrants.
Import Driver ReceiverMessage Receiver ReceiverSchedule ReceiverInv ReceiverSteps ReceiverHandlers ReceiverTimers ReceiverGrants.

Module ReceiverSystem.

Inductive Op :=
  | OpData (packet : Packet) (sourceIp : IpAddress)
  | OpBusy (packet : Packet)
  | OpPing (packet : Packet) (sourceIp : IpAddress)
  | OpReceive
  | OpAcknowledge (p : ptr)
  | OpFail (p : ptr)
  | OpDropped (p : ptr)
  | OpGet (p : ptr) (offset count : Z)
  | OpStrip (p : ptr) (count : Z)
  | OpRelease (p : ptr)
  | OpPoll.

Section system.
Context `{DriverLaws}.
Implicit Types (s : Receiver) (p q : ptr) (m : Message).

Definition run (o : Op) : M Receiver unit :=
  match o with
  | OpData packet ip => handleDataPacket packet ip
  | OpBusy packet => handleBusyPacket packet
  | OpPing packet ip => handlePingPacket packet ip
  | OpReceive => _ ← receiveMessage; mret tt
  | OpAcknowledge p => acknowledge p
  | OpFail p => fail p
  | OpDropped p => _ ← dropped p; mret tt
  | OpGet p offset count => _ ← get_bytes p offset count; mret tt
  | OpStrip p count => strip_bytes p count
  | OpRelease p => dropMessage p
  | OpPoll => poll
  end.

(** The application may hold a handle of the message [m] at [p]: it is
    complete and left the queue. *)
Definition delivered p m s : Prop :=
  heap s !! p = Some m /\ state m <> IN_PROGRESS /\ p ∉ receivedMessages s.

(** What a caller has to respect: DATA packets come from conforming senders,
    handles are used between receiveMessage and release, positions in a message
    stay within [int], and there are fewer than 2^31 peers. *)
Definition allowed (o : Op) s : Prop :=
  match o with
  | OpData packet ip => data_ok s packet ip
  | OpBusy _ | OpPing _ _ | OpReceive => True
  | OpAcknowledge p | OpFail p | OpDropped p | OpRelease p => exists m, delivered p m s
  | OpGet p offset count => exists m, delivered p m s /\ 0 <= offset /\ 0 <= count /\
      offset + count + messageLength m < 2 ^ 31
  | OpStrip p count => exists m, delivered p m s /\ 0 <= count /\ count + messageLength m < 2 ^ 31
  | OpPoll => zlength (scheduledPeers s) < 2 ^ 31
  end.

(** Between two calls: the invariant holds and no grants are under way. *)
Definition idle s : Prop := inv None s /\ granting s = false.

(** A new Receiver with a policy that fits and a clock that does not run out. *)
Definition initial s : Prop := exists mt rt pol w,
  s = Receiver_new mt rt pol w /\ policy_ok pol /\
  (forall n, rdtsc_nth n < rdtsc_nth n + mt < 2 ^ 64) /\ (forall n, rdtsc_nth n < rdtsc_nth n + rt < 2 ^ 64).

Inductive reachable : Receiver -> Prop :=
  | reach_initial s : initial s -> reachable s
  | reach_run s o s' : reachable s -> allowed o s -> run o s = Ok (tt, s') -> reachable s'.

Lemma idle_new s : initial s -> idle s.
Proof.
  intros (mt & rt & pol & w & -> & Hpol & Hm & Hr). split; [|done]. unfold Receiver_new.
  split; cbn; try done; try (intros; rewrite ?lookup_empty in *; by simplify_eq).
  - apply pool_ok_new.
  - intros b. split; cbn; try done; first [apply NoDup_nil_2|apply timeouts_ok_new|intros p Hp; by apply elem_of_nil in Hp].
  - intros b p Hp. by apply elem_of_nil in Hp.
  - split; cbn; try (intros; constructor).
    + intros Hip. by apply elem_of_nil in Hip.
    + intros Hn. by destruct Hn.
  - intros ip p Hp. unfold scheduledMessages in Hp; cbn in Hp. rewrite lookup_empty in Hp. by apply elem_of_nil in Hp.
  - constructor.
  - intros p Hp. by apply elem_of_nil in Hp.
  - intros b p Hp. by apply elem_of_nil in Hp.
Qed.

(** ** The calls of the application *)

Lemma receiveMessage_spec s :
  inv None s ->
  wp receiveMessage s (fun r s' => inv None s' /\ quiet s s' /\ heap s' = heap s /\
    trace (world s') = trace (world s) /\ r = head (receivedMessages s) /\
    receivedMessages s' = tail (receivedMessages s) /\
    forall p, r = Some p -> exists m, delivered p m s').
Proof.
  intros Hi. unfold receiveMessage. wp_step. wp_step. destruct (receivedMessages s) as [|p rest] eqn:Hr.
  { wp_step. split_and!; [done|apply quiet_refl|done|done|done|done|done]. }
  repeat wp_step. set (s1 := s <| receivedMessages := rest |>).
  pose proof (inv_received_nodup _ _ Hi) as Hnd. rewrite Hr in Hnd. apply NoDup_cons in Hnd as [Hp Hnd].
  assert (inv None s1) as Hi1.
  { destruct Hi. split; try done. intros q Hq. apply inv_received0. rewrite Hr. by right. }
  eapply rcv_wp_count_s; [exact Hi1|]. intros s2 Hi2 Ha2. repeat wp_step. split_and!; [done| | | |done| |].
  - eapply (quiet_trans _ s1); [by split|by eapply quiet_agree].
  - by rewrite (agree_heap _ _ _ Ha2).
  - by rewrite (ag_trace _ _ _ Ha2), app_nil_r.
  - by rewrite (ag_received _ _ _ Ha2).
  - intros q [= <-]. destruct (inv_received _ _ Hi p) as (m & Hm & Hst); [rewrite Hr; by left|].
    exists m. split_and!; [by rewrite (agree_heap _ _ _ Ha2)|done|by rewrite (ag_received _ _ _ Ha2)].
Qed.

Lemma acknowledge_spec p m s :
  inv None s -> heap s !! p = Some m ->
  wp (acknowledge p) s (fun _ s' => inv None s' /\
    exists evs, control (ip (source m)) (Protocol.DoneHeader_new (id m)) evs /\ agree evs s s').
Proof.
  intros Hi Hp. unfold acknowledge. wp_step. eapply rcv_wp_deref; [done|].
  eapply rcv_wp_control; [done|]. intros s1 evs Hi1 He Ha1. split; [done|]. by exists evs.
Qed.

Lemma fail_spec p m s :
  inv None s -> heap s !! p = Some m ->
  wp (fail p) s (fun _ s' => inv None s' /\
    exists evs, control (ip (source m)) (Protocol.ErrorHeader_new (id m)) evs /\ agree evs s s').
Proof.
  intros Hi Hp. unfold fail. wp_step. eapply rcv_wp_deref; [done|].
  eapply rcv_wp_control; [done|]. intros s1 evs Hi1 He Ha1. split; [done|]. by exists evs.
Qed.

Lemma get_bytes_spec p m off n s :
  inv None s -> delivered p m s -> 0 <= off -> 0 <= n -> off + n + messageLength m < 2 ^ 31 ->
  wp (get_bytes p off n) s (fun bs s' => bs = slice off n (data m) /\ s' = s).
Proof.
  intros Hi (Hp & Hst & _) Ho Hn Hb. unfold get_bytes. wp_step. eapply rcv_wp_deref; [done|].
  pose proof (inv_message _ _ Hi p m Hp ltac:(done)) as Hok. unfold wp.
  by rewrite get_spec by (done || by apply complete_state).
Qed.

(** Stripping: the message without its first bytes. *)
Definition stripped n m : Message := m <| start := Z.min (start m + n) (messageLength m) |>.

Lemma strip_bytes_spec p m n s :
  inv None s -> delivered p m s -> 0 <= n -> n + messageLength m < 2 ^ 31 ->
  wp (strip_bytes p n) s (fun _ s' => inv None s' /\ s' = put p (stripped n m) s).
Proof.
  intros Hi (Hp & Hst & Hnr) Hn Hb. unfold strip_bytes, Message_strip. wp_step. eapply rcv_wp_deref; [done|].
  pose proof (inv_message _ _ Hi p m Hp ltac:(done)) as Hok. pose proof (message_bounds m Hok) as Hlen.
  destruct Hok as [H1 H2 H3 H4 H5 H6 H7 H8 H9 H10 H11 H12 H13].
  wp_step. wp_step. apply Util.wp_downCast_int_of_size; [lia|]. wp_step. rewrite i32_small by lia.
  fold (stripped n m). apply (rcv_wp_update_put p _ m); [done|]. split; [|done].
  eapply (rcv_inv_done p (stripped n m)); [|apply rcv_lookup_put| | |].
  - eapply rcv_inv_put_own; try done. by apply rcv_inv_weaken.
  - split; try done. unfold stripped, over; cbn. lia.
  - apply (inv_home _ _ Hi p m Hp). done.
  - right. intros b Hb'. destruct (inv_resend _ _ Hi b p Hb') as [?|(n' & ? & ?)]; [done|]. by simplify_eq.
Qed.

Lemma data_stripped n m : message_ok m -> complete m -> 0 <= n -> data (stripped n m) = drop (Z.to_nat n) (data m).
Proof.
  intros Hok Hc Hn. pose proof Hok as [H1 H2 H3 H4 H5 H6 H7 H8 H9 H10 H11 H12 H13].
  assert (forall k, start m <= k < start m + (messageLength m - start m) -> is_Some (byte_at (packets m) k)) as Hall
    by (intros; apply complete_bytes; [done|done|lia]).
  assert (zlength (range (packets m) (start m) (messageLength m - start m)) = messageLength m - start m) as Hz
    by (apply zlength_range; [lia|done]).
  change (range (packets m) (start (stripped n m)) (messageLength m - start (stripped n m)) =
    drop (Z.to_nat n) (range (packets m) (start m) (messageLength m - start m))).
  unfold stripped, over; cbn [start]. destruct (Z.le_ge_cases (start m + n) (messageLength m)).
  - rewrite Z.min_l by done. pose proof (slice_range (packets m) (start m) (messageLength m - start m) n
      (messageLength m - start m - n) Hn ltac:(lia) ltac:(lia) Hall) as Hs.
    replace (messageLength m - (start m + n)) with (messageLength m - start m - n) by lia. rewrite <- Hs.
    unfold slice. rewrite take_ge; [done|]. rewrite length_drop. unfold zlength in Hz. lia.
  - rewrite Z.min_r, Z.sub_diag by lia. rewrite drop_ge; [done|]. unfold zlength in Hz. lia.
Qed.

Lemma rcv_poll_spec s :
  idle s -> zlength (scheduledPeers s) < 2 ^ 31 ->
  wp poll s (fun _ s' => idle s' /\ quiet s s' /\ keeps (heap s) (heap s') /\ receivedMessages s' = receivedMessages s).
Proof.
  intros [Hi Hg] Hn. unfold poll. wp_step. eapply wp_mono; [by apply trySendGrants_spec|].
  intros _ s1 (Hi1 & ps & evs & Hps). pose proof (pass_keeps _ _ _ _ _ _ _ (sp_pass _ _ _ _ _ _ _ _ Hps)) as Hk1. pose proof (sq_quiet _ _ _ (sp_quiet _ _ _ _ _ _ _ _ Hps)) as Hq1.
  eapply wp_mono; [by apply rcv_checkTimeouts_spec|]. intros _ s2 (Hi2 & Hq2 & Hr2 & Hk2 & _).
  pose proof (quiet_trans _ _ _ Hq1 Hq2) as Hq. pose proof (sq_received _ _ _ (sp_quiet _ _ _ _ _ _ _ _ Hps)) as Hr1.
  split; [|split_and!; [done|by eapply keeps_trans|congruence]]. split; [done|]. rewrite <- Hg. apply Hq.
Qed.

(** ** Every allowed call *)

Lemma idle_quiet s s' : idle s -> inv None s' -> quiet s s' -> idle s'.
Proof. intros [_ Hg] Hi Hq. split; [done|]. rewrite <- Hg. apply Hq. Qed.

(** What a call does to the messages and the queue: a DATA packet may store one
    packet, receiveMessage takes the first of the queue; no other call changes the
    packets of a message that is left, or the queue. *)
Definition contents_effect (o : Op) s s' : Prop :=
  match o with
  | OpData packet ip => data_effect packet ip s s'
  | _ => keeps (heap s) (heap s') /\ receivedMessages s' =
           match o with OpReceive => tail (receivedMessages s) | _ => receivedMessages s end
  end.

Lemma rcv_run_spec o s :
  idle s -> allowed o s -> wp (run o) s (fun _ s' => idle s' /\ quiet s s' /\ contents_effect o s s').
Proof.
  intros Hid Ha. pose proof Hid as [Hi Hg].
  assert (forall s', inv None s' -> quiet s s' -> contents_effect o s s' ->
    idle s' /\ quiet s s' /\ contents_effect o s s') as Hdone by (intros; split_and!; [by eapply idle_quiet|done..]).
  assert (forall evs s', inv None s' -> agree evs s s' -> inv None s' /\ quiet s s' /\
    keeps (heap s) (heap s') /\ receivedMessages s' = receivedMessages s) as Hagree.
  { intros evs s' Hi' Ha'. split_and!; [done|by eapply quiet_agree| |apply Ha']. by apply keeps_same, (agree_heap _ _ _ Ha'). }
  assert (wp (run o) s (fun _ s' => inv None s' /\ quiet s s' /\ contents_effect o s s')) as Hw.
  2:{ eapply wp_mono; [exact Hw|]. intros _ s' (? & ? & ?). by apply Hdone. }
  clear Hdone. destruct o as [k a|k|k a| |p|p|p|p off n|p n|p|]; simpl in *.
  - eapply wp_mono; [by apply handleDataPacket_spec|]. by intros _ s' (? & ? & ?).
  - eapply wp_mono; [by apply handleBusyPacket_spec|]. intros _ s' (? & Ha'). by eapply Hagree.
  - eapply wp_mono; [by apply handlePingPacket_spec|]. intros _ s' (? & evs & _ & Ha'). by eapply Hagree.
  - wp_step. eapply wp_mono; [by apply receiveMessage_spec|]. intros r s' (? & ? & ? & _ & _ & ? & _).
    split_and!; [done|done|by apply keeps_same|done].
  - destruct Ha as (m & Hp & _). eapply wp_mono; [by eapply acknowledge_spec|]. intros _ s' (? & evs & _ & Ha'). by eapply Hagree.
  - destruct Ha as (m & Hp & _). eapply wp_mono; [by eapply fail_spec|]. intros _ s' (? & evs & _ & Ha'). by eapply Hagree.
  - destruct Ha as (m & Hp & _). unfold dropped. wp_step. wp_step. eapply rcv_wp_deref; [done|]. wp_step.
    split_and!; [done|apply quiet_refl|by apply keeps_same|done].
  - destruct Ha as (m & Hd & ? & ? & ?). wp_step. eapply wp_mono; [by eapply get_bytes_spec|].
    intros bs s' [_ ->]. split_and!; [done|apply quiet_refl|by apply keeps_same|done].
  - destruct Ha as (m & Hd & ? & ?). eapply wp_mono; [by eapply strip_bytes_spec|]. intros _ s' [Hi' ->].
    split_and!; [done|by split| |done]. destruct Hd as [Hp _]. by eapply keeps_insert.
  - destruct Ha as (m & Hp & _ & Hr). eapply wp_mono; [by eapply rcv_dropMessage_spec|].
    intros _ s' (? & Hh & ? & _ & ?). split_and!; [done|done| |done]. rewrite Hh. apply keeps_delete.
  - eapply wp_mono; [by apply rcv_poll_spec|]. by intros _ s' ([? _] & ? & ? & ?).
Qed.

Lemma reachable_idle s : reachable s -> idle s.
Proof.
  induction 1 as [s Hs|s o s' _ IH Ha Hr]; [by apply idle_new|].
  pose proof (rcv_run_spec o s IH Ha) as Hw. unfold wp in Hw. rewrite Hr in Hw. apply Hw.
Qed.
Lemma rcv_reachable_inv s : reachable s -> inv None s.
Proof. intros Hr. by apply reachable_idle. Qed.

(** ** Executing a sequence of calls *)

Definition packet_okb (packet : Packet) : bool :=
  let h := data_header packet in
  (0 <? Protocol.totalLength h) && (Protocol.totalLength h <=? SenderMessage.maxMessageLength) &&
  ((0 <=? Protocol.unscheduledIndexLimit h) && (Protocol.unscheduledIndexLimit h <=? MAX_MESSAGE_PACKETS)) &&
  ((0 <=? Protocol.dh_index h) && (Protocol.dh_index h <? packets_for (Protocol.totalLength h))) &&
  (length packet =? TRANSPORT_HEADER_LENGTH + chunk (Protocol.totalLength h) (Protocol.dh_index h)) &&
  (zlength (payload packet) =? getMaxPayloadSize).

Definition data_okb s (packet : Packet) (ip : IpAddress) : bool :=
  packet_okb packet && forallb (fun pm => implb (bool_decide (id pm.2 = data_id packet))
    (bool_decide (source pm.2 = data_source packet ip) &&
     (messageLength pm.2 =? Protocol.totalLength (data_header packet)))) (map_to_list (heap s)).

Definition deliveredb p s : bool :=
  from_option (fun m => negb (bool_decide (state m = IN_PROGRESS))) false (heap s !! p) &&
  bool_decide (p ∉ receivedMessages s).

Definition allowedb (o : Op) s : bool :=
  match o with
  | OpData packet ip => data_okb s packet ip
  | OpBusy _ | OpPing _ _ | OpReceive => true
  | OpAcknowledge p | OpFail p | OpDropped p | OpRelease p => deliveredb p s
  | OpGet p offset count => deliveredb p s && from_option (fun m =>
      (0 <=? offset) && (0 <=? count) && (offset + count + messageLength m <? 2 ^ 31)) false (heap s !! p)
  | OpStrip p count => deliveredb p s && from_option (fun m =>
      (0 <=? count) && (count + messageLength m <? 2 ^ 31)) false (heap s !! p)
  | OpPoll => zlength (scheduledPeers s) <? 2 ^ 31
  end.

Lemma packet_okb_ok packet : packet_okb packet = true -> packet_ok packet.
Proof.
  unfold packet_okb. rewrite !andb_true_iff, !Z.leb_le, !Z.ltb_lt, !Z.eqb_eq.
  intros [[[[[? ?] [? ?]] [? ?]] ?] ?]. by split.
Qed.

Lemma data_okb_ok s packet ip : data_okb s packet ip = true -> data_ok s packet ip.
Proof.
  unfold data_okb. intros [Hp Hall]%andb_true_iff. split; [by apply packet_okb_ok|]. intros p m Hm Hid.
  rewrite forallb_forall in Hall. specialize (Hall (p, m)). cbn [snd] in Hall.
  rewrite bool_decide_true in Hall by done. simpl in Hall.
  assert (In (p, m) (map_to_list (heap s))) as Hin by (by apply list_elem_of_In, elem_of_map_to_list).
  specialize (Hall Hin). apply andb_true_iff in Hall as [H1 H2]. bool_to_prop. done.
Qed.

Lemma deliveredb_ok p s : deliveredb p s = true -> exists m, delivered p m s.
Proof.
  unfold deliveredb. destruct (heap s !! p) as [m|] eqn:Hp; simpl; [|done].
  intros [H1 H2]%andb_true_iff. bool_to_prop. by exists m.
Qed.

Lemma rcv_allowedb_allowed o s : allowedb o s = true -> allowed o s.
Proof.
  destruct o as [k a|k|k a| |p|p|p|p off n|p n|p|]; simpl; try done; try by apply deliveredb_ok.
  - apply data_okb_ok.
  - intros [(m & Hm)%deliveredb_ok Hb]%andb_true_iff. exists m. pose proof Hm as [Hp _]. rewrite Hp in Hb. simpl in Hb.
    rewrite !andb_true_iff, !Z.leb_le, !Z.ltb_lt in Hb. naive_solver.
  - intros [(m & Hm)%deliveredb_ok Hb]%andb_true_iff. exists m. pose proof Hm as [Hp _]. rewrite Hp in Hb. simpl in Hb.
    rewrite !andb_true_iff, !Z.leb_le, !Z.ltb_lt in Hb. naive_solver.
  - by rewrite Z.ltb_lt.
Qed.

(** The state after a sequence of allowed calls. *)
Fixpoint follow (ops : list Op) s : option Receiver :=
  match ops with
  | [] => Some s
  | o :: ops =>
      if allowedb o s then
        match run o s with Ok (_, s') => follow ops s' | Error _ => None end
      else None
  end.

Lemma rcv_follow_reachable ops s s' : reachable s -> follow ops s = Some s' -> reachable s'.
Proof.
  revert s. induction ops as [|o ops IH]; simpl; intros s Hs; [by intros [= <-]|].
  destruct (allowedb o s) eqn:Ha; [|done]. destruct (run o s) as [[[] s1]|] eqn:Hr; [|done].
  apply IH. eapply reach_run; [done|by apply rcv_allowedb_allowed|done].
Qed.
End system.

End ReceiverSystem.
