(* ===== verification/ReceiverSample.v ===== *)
(** * ReceiverSample: a Receiver to evaluate the model with

    The Receiver at the other end of Sample.v, and the DATA packets that the
    Sender there makes. *)

From S2P Require Import Prelude Perf Protocol Policy Driver SenderMessage Sender Sample ReceiverMessage Receiver ReceiverInv ReceiverSystem.
Import Driver ReceiverMessage Receiver ReceiverInv ReceiverSystem.

Module ReceiverSample.

Definition receiver0 : Receiver := Receiver_new 100 50 Sample.policy World_new.

Lemma receiver0_reachable : reachable receiver0.
Proof.
  apply reach_initial. exists 100, 50, Sample.policy, World_new.
  split_and!; [done|split; vm_compute; intuition congruence|intros n; simpl; lia|intros n; simpl; lia].
Qed.

Definition after (ops : list Op) : Receiver := default receiver0 (follow ops receiver0).

Lemma rcv_after_reachable ops :
  (if follow ops receiver0 is Some _ then true else false) = true -> reachable (after ops).
Proof.
  unfold after. destruct (follow ops receiver0) as [s|] eqn:Hf; [|done]. intros _.
  eapply rcv_follow_reachable; [apply receiver0_reachable|done].
Qed.

(** Packet [i] of the three-packet message of Sample.v, and the only packet of
    the short one. *)
Definition data_packet (i : Z) : Packet :=
  default (mkPacket 1 [] 0) (SenderMessage.packets (Sample.first Sample.sent) !! i).
Definition short_packet : Packet :=
  default (mkPacket 1 [] 0) (SenderMessage.packets (Sample.first Sample.sent_short) !! 0).
Definition from : IpAddress := 10.

Definition one_of_three : list Op := [OpData (data_packet 1) from].
Definition three : list Op :=
  [OpData (data_packet 1) from; OpPoll; OpData (data_packet 0) from; OpData (data_packet 1) from;
   OpPoll; OpData (data_packet 2) from].
Definition handed_out : list Op := three ++ [OpReceive].

(** Enough polls for the resend timeout to elapse. *)
Definition waiting : list Op := one_of_three ++ repeat OpPoll 30.

Definition the_message (ops : list Op) : Message :=
  default (Message_new 0 (Protocol.mkMessageId 0 0) (SenderMessage.mkSocketAddress 0 0) 0) (heap (after ops) !! 1%positive).

Example three_received : receivedMessages (after three) = [1%positive].
Proof. by vm_compute. Qed.
Example three_data : data (the_message three) = Sample.bytes 27.
Proof. by vm_compute. Qed.
End ReceiverSample.
