(* ===== verification/ReceiverTeardown.v ===== *)
(** * ReceiverTeardown: the destructor of the Receiver (src/src/Receiver.cc)

    [~Receiver] empties the schedule and the queue of received messages and
    destroys every message, those that the application holds as well; then the
    destructor of its ObjectPool looks for objects that are left. *)

From S2P Require Import Prelude Intrusive Util Timeout ObjectPool Perf Protocol Policy Driver SenderMessage Sample ReceiverMessage Receiver ReceiverInv ReceiverSystem ReceiverSample.
Import Driver ReceiverMessage Receiver ReceiverInv.

Module ReceiverTeardown.

Section teardown.
Context `{Driver}.
Implicit Types (s : Receiver) (p q : ptr) (m : Message) (b c : Z) (gone : list ptr).

(** The body of the loop over the messages of a bucket. *)
Definition teardown_message b p : M Receiver unit :=
  _ ← cancel_messageTimeout b p;
  _ ← cancel_resendTimeout b p;
  _ ← update_bucket b (fun k => k <| messages ::= list_remove p |>);
  destroy_message p.

(** [peerTable.clear()]: a Peer that were still in the list of scheduled peers would
    fail the assertion of its node; its own list of messages is cleared. *)
Definition clear_peerTable : M Receiver unit :=
  s ← get;
  if existsb (fun ip => bool_decide (ip ∈ scheduledPeers s)) (fst <$> map_to_list (peerTable s)) then fault NodeLinked
  else modify (fun s => s <| peerTable := ∅ |>).

(** [~Receiver()].  The iterator that [remove] returns is the next message, so the
    loop over a bucket visits the messages that are there at its start. *)
Definition Receiver_delete : M Receiver unit :=
  _ ← modify (fun s => s <| scheduledPeers := [] |>);
  _ ← clear_peerTable;
  _ ← modify (fun s => s <| receivedMessages := [] |>);
  for_each (seqZ 0 NUM_BUCKETS) (fun b =>
    s ← get;
    for_each (messages (messageBuckets s b)) (teardown_message b)).

(** [~ObjectPool()]: whether it reports objects that are still outstanding. *)
Definition ObjectPool_delete {T} (o : ObjectPool T) : bool := 0 <? outstandingObjects o.
End teardown.

Section proofs.
Context `{DriverLaws}.
Implicit Types (s : Receiver) (p q : ptr) (m : Message) (b c : Z) (gone : list ptr).

(** What the destruction of the messages [gone] of [s0] gives back to the driver. *)
Definition releases s0 gone : list Event :=
  gone ≫= (fun p => match heap s0 !! p with Some m => EvRelease <$> release_all m | None => [] end).

(** The state [s] between two messages, when [gone] of those of [s0] are destroyed. *)
Record tearing s0 gone s : Prop := {
  te_pool : pool_ok (messageAllocator s);
  te_heap p : heap s !! p = if decide (p ∈ gone) then None else heap s0 !! p;
  te_gone : NoDup gone /\ forall p, p ∈ gone -> is_Some (heap s0 !! p);
  te_in b p : p ∈ messages (messageBuckets s b) <-> p ∈ messages (messageBuckets s0 b) /\ p ∉ gone;
  te_nodup b : NoDup (messages (messageBuckets s b));
  te_mt b : NoDup (timeouts (messageTimeouts (messageBuckets s b)));
  te_rt b : NoDup (timeouts (resendTimeouts (messageBuckets s b)));
  te_mt_in b p : p ∈ timeouts (messageTimeouts (messageBuckets s b)) -> p ∈ messages (messageBuckets s b);
  te_rt_in b p : p ∈ timeouts (resendTimeouts (messageBuckets s b)) -> p ∈ messages (messageBuckets s b);
  te_lists : scheduledPeers s = [] /\ peerTable s = ∅ /\ receivedMessages s = [];
  te_trace : trace (world s) = trace (world s0) ++ releases s0 gone
}.

Lemma releases_snoc s0 gone p m :
  heap s0 !! p = Some m -> releases s0 (gone ++ [p]) = releases s0 gone ++ (EvRelease <$> release_all m).
Proof. intros Hp. unfold releases. rewrite bind_app. simpl. by rewrite Hp, app_nil_r. Qed.

(** A message that is in no bucket is in no list. *)
Lemma tearing_unlinked p s :
  peerTable s = ∅ -> receivedMessages s = [] -> (forall b, p ∉ messages (messageBuckets s b)) ->
  (forall b q, q ∈ timeouts (messageTimeouts (messageBuckets s b)) -> q ∈ messages (messageBuckets s b)) ->
  (forall b q, q ∈ timeouts (resendTimeouts (messageBuckets s b)) -> q ∈ messages (messageBuckets s b)) ->
  linked s p = false.
Proof.
  intros Ht Hr Hnot Hmt Hrt. unfold linked. rewrite Ht, Hr, map_to_list_empty.
  rewrite (bool_decide_false (p ∈ [])) by apply not_elem_of_nil. rewrite bool_decide_false by (by intros ?%Exists_nil).
  rewrite !orb_false_l. apply not_true_is_false. intros (b & _ & Hb)%existsb_exists. specialize (Hnot b).
  rewrite !orb_true_iff, !bool_decide_eq_true in Hb. naive_solver.
Qed.

Lemma wp_releases all s (Q : unit -> Receiver -> Prop) :
  Q tt (s <| world ::= fun w => w <| trace ::= fun t => t ++ (EvRelease <$> all) |> |>) ->
  wp (for_each all (fun ids => world_op (releasePackets ids))) s Q.
Proof.
  revert s. induction all as [|ids all IH]; intros s HQ; simpl.
  - wp_step. destruct s as [? ? ? ? ? ? ? ? []]. unfold over in HQ; cbn in HQ. by rewrite app_nil_r in HQ.
  - unfold world_op, releasePackets, emit. repeat wp_step. apply IH.
    unfold over in *; cbn in *. by rewrite <- app_assoc.
Qed.

(** The bucket without the message [p]. *)
Definition without p (k : MessageBucket) : MessageBucket :=
  mkMessageBucket (list_remove p (messages k)) (cancelTimeout p (messageTimeouts k)) (cancelTimeout p (resendTimeouts k)).

Lemma teardown_message_spec s0 gone b p s :
  tearing s0 gone s -> is_Some (heap s0 !! p) -> p ∈ messages (messageBuckets s b) ->
  (forall c, p ∈ messages (messageBuckets s c) -> c = b) ->
  wp (teardown_message b p) s (fun _ s' => tearing s0 (gone ++ [p]) s' /\
    forall c, messages (messageBuckets s' c) = if decide (c = b) then list_remove p (messages (messageBuckets s b)) else messages (messageBuckets s c)).
Proof.
  intros [T1 T2 [T3 T3'] T4 T5 T6 T7 T8 T9 (T10 & T11 & T12) T13] [m Hm] Hp Hb.
  assert (p ∉ gone) as Hg by (by apply T4 in Hp as [_ ?]).
  unfold teardown_message, cancel_messageTimeout, cancel_resendTimeout, update_bucket. repeat wp_step.
  set (s1 := s <| messageBuckets ::= _ |> <| messageBuckets ::= _ |> <| messageBuckets ::= _ |>).
  assert (forall c, messageBuckets s1 c = if decide (c = b) then without p (messageBuckets s b) else messageBuckets s c) as Hs1.
  { intros c. unfold s1, over; cbn. case_decide as Hc; [subst; by rewrite !fn_lookup_insert|by rewrite !fn_lookup_insert_ne]. }
  assert (forall c, p ∉ messages (messageBuckets s1 c)) as Hno.
  { intros c. rewrite Hs1. case_decide as Hc; [by apply not_in_list_remove|]. intros Hin. by apply Hc, Hb. }
  assert (forall c q, q ∈ timeouts (messageTimeouts (messageBuckets s1 c)) -> q ∈ messages (messageBuckets s1 c)) as Hmt.
  { intros c q. rewrite Hs1. case_decide as Hc; [|apply T8]. unfold without; cbn. rewrite timeouts_cancelTimeout.
    rewrite !elem_of_list_remove by done. intros [? ?]. split; [by apply T8|done]. }
  assert (forall c q, q ∈ timeouts (resendTimeouts (messageBuckets s1 c)) -> q ∈ messages (messageBuckets s1 c)) as Hrt.
  { intros c q. rewrite Hs1. case_decide as Hc; [|apply T9]. unfold without; cbn. rewrite timeouts_cancelTimeout.
    rewrite !elem_of_list_remove by done. intros [? ?]. split; [by apply T9|done]. }
  assert (heap s1 !! p = Some m) as Hp1 by (change (heap s1) with (heap s); by rewrite T2, decide_False).
  unfold destroy_message. wp_step. eapply rcv_wp_deref; [exact Hp1|]. wp_step. apply wp_releases.
  set (s2 := s1 <| world ::= _ |>). do 2 wp_step. rewrite (tearing_unlinked p s2) by (done || by destruct s).
  unfold allocator_op. wp_step. eapply destroy_wp; [exact T1|exact Hp1|done|]. intros o' Ho' Hpool. split.
  - split; try done.
    + intros q. change (objects o' !! q = if decide (q ∈ gone ++ [p]) then None else heap s0 !! q). rewrite Ho'.
      change (heap s1) with (heap s). destruct (decide (p = q)) as [<-|Hne].
      * rewrite lookup_delete_eq, decide_True; [done|]. apply elem_of_app. right. by left.
      * rewrite lookup_delete_ne, T2 by done. apply decide_ext. rewrite elem_of_app, list_elem_of_singleton. naive_solver.
    + split.
      * apply NoDup_app. split_and!; [done| |apply NoDup_singleton]. intros q Hq ->%list_elem_of_singleton. done.
      * intros q [?| ->%list_elem_of_singleton]%elem_of_app; [by apply T3'|by exists m].
    + intros c q. change (q ∈ messages (messageBuckets s1 c) <-> q ∈ messages (messageBuckets s0 c) /\ (q ∉ gone ++ [p])).
      rewrite not_elem_of_app, list_elem_of_singleton, Hs1. case_decide as Hc.
      * subst c. unfold without; cbn. rewrite elem_of_list_remove, T4 by done. tauto.
      * rewrite T4. split; [|tauto]. intros [? ?]. split_and!; [done|done|]. intros ->. apply Hc, Hb. by apply T4.
    + intros c. change (NoDup (messages (messageBuckets s1 c))). rewrite Hs1. case_decide; [by apply NoDup_list_remove|done].
    + intros c. change (NoDup (timeouts (messageTimeouts (messageBuckets s1 c)))). rewrite Hs1. case_decide; [|done].
      unfold without; cbn. rewrite timeouts_cancelTimeout. by apply NoDup_list_remove.
    + intros c. change (NoDup (timeouts (resendTimeouts (messageBuckets s1 c)))). rewrite Hs1. case_decide; [|done].
      unfold without; cbn. rewrite timeouts_cancelTimeout. by apply NoDup_list_remove.
    + change (trace (world s) ++ (EvRelease <$> release_all m) = trace (world s0) ++ releases s0 (gone ++ [p])).
      by rewrite (releases_snoc _ _ _ m), T13, app_assoc by done.
  - intros c. change (messages (messageBuckets s1 c) = if decide (c = b) then list_remove p (messages (messageBuckets s b)) else messages (messageBuckets s c)).
    rewrite Hs1. by case_decide.
Qed.

(** ** The whole destructor *)

Section delete.
Variable s0 : Receiver.
Hypothesis Hinv : inv None s0.

Lemma tearing_bucket gone b c p s :
  tearing s0 gone s -> p ∈ messages (messageBuckets s b) -> is_Some (heap s0 !! p) /\ (p ∈ messages (messageBuckets s c) -> c = b).
Proof.
  intros Ht [Hp _]%(te_in _ _ _ Ht). destruct (inv_in _ _ Hinv b p Hp) as (m & Hm & Hb). split; [by exists m|].
  intros [Hc _]%(te_in _ _ _ Ht). destruct (inv_in _ _ Hinv c p Hc) as (n & Hn & Hc'). congruence.
Qed.

Lemma teardown_bucket_spec gone b s :
  tearing s0 gone s ->
  wp (for_each (messages (messageBuckets s b)) (teardown_message b)) s (fun _ s' =>
    (exists gone', tearing s0 gone' s') /\
    forall c, messages (messageBuckets s' c) = if decide (c = b) then [] else messages (messageBuckets s c)).
Proof.
  intros Ht. apply (wp_for_each (fun rest s' => (exists gone', tearing s0 gone' s') /\
    forall c, messages (messageBuckets s' c) = if decide (c = b) then rest else messages (messageBuckets s c))).
  - split; [by exists gone|]. intros c. case_decide; by subst.
  - intros p rest s1 [[gone1 Ht1] Hm1]. pose proof (Hm1 b) as Hb. rewrite decide_True in Hb by done.
    assert (p ∈ messages (messageBuckets s1 b)) as Hp by (rewrite Hb; by left).
    eapply wp_mono; [apply (teardown_message_spec s0 gone1); [done| |done|]|].
    + by apply (tearing_bucket gone1 b b p s1).
    + intros c. by apply (tearing_bucket gone1 b c p s1).
    + intros ? s2 [Ht2 Hm2]. split; [by eexists|]. intros c. rewrite Hm2. case_decide as Hc; [|by rewrite Hm1, decide_False].
      rewrite Hb. by apply (list_remove_app p []), not_elem_of_nil.
  - by intros s1 ?.
Qed.

(** What the destructor leaves: every message is destroyed. *)
Definition torn_down s' : Prop := exists gone,
  tearing s0 gone s' /\ (forall p, p ∈ gone <-> is_Some (heap s0 !! p)) /\ heap s' = ∅.

Lemma tearing_start s :
  messageBuckets s = messageBuckets s0 -> messageAllocator s = messageAllocator s0 -> world s = world s0 ->
  scheduledPeers s = [] /\ peerTable s = ∅ /\ receivedMessages s = [] -> tearing s0 [] s.
Proof.
  intros Eb Ea Ew Hl. split; rewrite ?Eb, ?Ea, ?Ew; try done.
  - apply Hinv.
  - split; [constructor|]. intros p Hp. by apply elem_of_nil in Hp.
  - intros b p. split; [intros Hp; split; [done|apply not_elem_of_nil]|by intros [? _]].
  - intros b. apply (inv_bucket _ _ Hinv b).
  - intros b. apply (inv_bucket _ _ Hinv b).
  - intros b. apply (inv_bucket _ _ Hinv b).
  - intros b p. apply (inv_bucket _ _ Hinv b).
  - intros b p. apply (inv_bucket _ _ Hinv b).
  - unfold releases. simpl. by rewrite app_nil_r.
Qed.

Lemma receiver_delete_spec : wp Receiver_delete s0 (fun _ s' => torn_down s').
Proof.
  unfold Receiver_delete, clear_peerTable. do 3 wp_step. wp_step. wp_step.
  match goal with |- context [existsb ?f ?l] => assert (existsb f l = false) as -> end.
  { apply not_true_is_false. intros (ip & _ & Hip%bool_decide_eq_true)%existsb_exists. by apply elem_of_nil in Hip. }
  do 3 wp_step.
  apply (wp_for_each (fun rest s => (exists gone, tearing s0 gone s) /\
    forall b, 0 <= b < NUM_BUCKETS -> b ∈ rest \/ messages (messageBuckets s b) = [])).
  - split; [exists []; by apply tearing_start|]. intros b Hb. left. apply elem_of_seqZ. lia.
  - intros b rest s [[gone Ht] Hrest]. wp_step. wp_step. eapply wp_mono; [by apply (teardown_bucket_spec gone)|].
    intros ? s1 [Ht1 Hm1]. split; [done|]. intros c Hc. rewrite Hm1. case_decide as Heq; [by right|].
    destruct (Hrest c Hc) as [[->|?]%elem_of_cons|?]; [done|by left|by right].
  - intros s [[gone Ht] Hrest]. exists gone.
    assert (forall p, p ∈ gone <-> is_Some (heap s0 !! p)) as Hall.
    { intros p. split; [apply (proj2 (te_gone _ _ _ Ht))|]. intros [m Hm]. pose proof (inv_home _ _ Hinv p m Hm ltac:(done)) as Hp.
      destruct (decide (p ∈ gone)) as [|Hno]; [done|]. exfalso.
      destruct (Hrest (getBucket (id m))) as [Hr|Hr]; [|by apply elem_of_nil in Hr|].
      - unfold getBucket, HASH_KEY_MASK, NUM_BUCKETS. change 255 with (Z.ones 8). rewrite Z.land_ones by lia. by apply Z.mod_pos_bound.
      - assert (p ∈ messages (messageBuckets s (getBucket (id m)))) as Hin by (by apply (te_in _ _ _ Ht)).
        rewrite Hr in Hin. by apply elem_of_nil in Hin. }
    split; [done|]. split; [done|]. apply map_eq. intros p. rewrite lookup_empty, (te_heap _ _ _ Ht).
    case_decide as Hp; [done|]. destruct (heap s0 !! p) eqn:Hs; [|done]. exfalso. apply Hp, Hall. by eexists.
Qed.
End delete.

(** C33: The destructor of a Receiver returns whatever calls came before: no message is
    destroyed while it is in a list, although the schedule, the queue and the timeouts
    all had it.  Every message, of the application or not, is destroyed once, every
    packet of every message goes back to the driver, and nothing is left for the
    destructor of the ObjectPool to complain of. *)
Theorem receiver_delete_releases_all s :
  ReceiverSystem.reachable s ->
  wp Receiver_delete s (fun _ s' =>
    heap s' = ∅ /\ ObjectPool_delete (messageAllocator s') = false /\
    (forall b, messages (messageBuckets s' b) = [] /\ timeouts (messageTimeouts (messageBuckets s' b)) = [] /\
       timeouts (resendTimeouts (messageBuckets s' b)) = []) /\
    exists gone, NoDup gone /\ (forall p, p ∈ gone <-> is_Some (heap s !! p)) /\
      trace (world s') = trace (world s) ++ releases s gone /\
      forall p m, heap s !! p = Some m ->
        concat (release_all m) = omap (packet_id_at m) (seqZ 0 (numExpectedPackets m))).
Proof.
  intros Hr. pose proof (ReceiverSystem.rcv_reachable_inv s Hr) as Hi.
  eapply wp_mono; [by apply receiver_delete_spec|]. intros ? s' (gone & Ht & Hall & Hh).
  assert (forall b p, p ∉ messages (messageBuckets s' b)) as Hno.
  { intros b p [Hp Hg]%(te_in _ _ _ Ht). destruct (inv_in _ _ Hi b p Hp) as (m & Hm & _). apply Hg, Hall. by eexists. }
  split_and!; [done| | |].
  - unfold ObjectPool_delete. rewrite (pool_count _ (te_pool _ _ _ Ht)), Hh. done.
  - intros b. assert (forall l : list ptr, (forall p, p ∈ l -> p ∈ messages (messageBuckets s' b)) -> l = []) as Hnil.
    { intros [|p l] Hl; [done|]. exfalso. apply (Hno b p), Hl. by left. }
    split_and!; apply Hnil; [done|apply (te_mt_in _ _ _ Ht)|apply (te_rt_in _ _ _ Ht)].
  - exists gone. split_and!; [apply (te_gone _ _ _ Ht)|done|apply (te_trace _ _ _ Ht)|].
    intros p m Hm. by apply release_all_concat, (inv_message _ _ Hi p).
Qed.
End proofs.

(** ** Witness *)

(** A complete message is in the queue. *)
Definition one_queued : Receiver := ReceiverSample.after ReceiverSample.three.

Lemma receiver_delete_releases_all_witness :
  wp Receiver_delete one_queued (fun _ s' =>
    heap s' = ∅ /\ ObjectPool_delete (messageAllocator s') = false /\
    (forall b, messages (messageBuckets s' b) = [] /\ timeouts (messageTimeouts (messageBuckets s' b)) = [] /\
       timeouts (resendTimeouts (messageBuckets s' b)) = []) /\
    exists gone, NoDup gone /\ (forall p, p ∈ gone <-> is_Some (heap one_queued !! p)) /\
      trace (world s') = trace (world one_queued) ++ releases one_queued gone /\
      forall p m, heap one_queued !! p = Some m ->
        concat (release_all m) = omap (packet_id_at m) (seqZ 0 (numExpectedPackets m))).
Proof. apply receiver_delete_releases_all. apply ReceiverSample.rcv_after_reachable. vm_compute. reflexivity. Defined.
End ReceiverTeardown.
