(* ===== verification/ReceiverProps.v ===== *)
(** * ReceiverProps: the properties of the Receiver

    Every theorem is about a state that calls of the interface can lead to
    ([reachable]).  Each is followed by a witness on the sample Receiver. *)

From S2P Require Import Prelude Intrusive Util Timeout ObjectPool Perf Protocol Policy Driver SenderMessage Sender Sample ReceiverMessage Receiver ReceiverSchedule ReceiverInv ReceiverSteps ReceiverHandlers ReceiverTimers ReceiverGrants ReceiverSystem ReceiverSample.
Import Driver ReceiverMessage Receiver ReceiverSchedule ReceiverInv ReceiverSteps ReceiverHandlers ReceiverTimers ReceiverGrants ReceiverSystem.

Module ReceiverProps.

(** Closes [reachable (ReceiverSample.after ops)]. *)
Ltac reach_rcv := apply ReceiverSample.rcv_after_reachable; vm_compute; reflexivity.

Section props.
Context `{DriverLaws}.
Implicit Types (s : Receiver) (p q : ptr) (m : Message) (ip : IpAddress).

(** C2: Every call that the interface allows returns: no assertion fails, no
    pointer dangles, no node is destroyed in a list, every loop ends. *)
Theorem receiver_calls_return o s :
  reachable s -> allowed o s -> exists s', run o s = Ok (tt, s') /\ reachable s'.
Proof.
  intros Hr Ha. destruct (wp_ok _ _ _ (rcv_run_spec o s (reachable_idle s Hr) Ha)) as ([] & s' & Hs & _).
  exists s'. split; [done|by eapply reach_run].
Qed.

(** C14: The schedule is exact: each peer with scheduled messages is in the list of
    peers once, the one whose first message has the fewest missing bytes first;
    the messages of a peer are ordered the same way; a message is in the list of
    its source, exactly if it is linked; and the bytes it is ordered by are
    those of its missing packets. *)
Theorem schedule_exact s :
  reachable s ->
  NoDup (scheduledPeers s) /\ sorted_by (peer_remaining s) (scheduledPeers s) /\
  (forall ip, ip ∈ scheduledPeers s <-> scheduledMessages s ip <> []) /\
  (forall ip, NoDup (scheduledMessages s ip) /\ sorted_by (remaining (heap s)) (scheduledMessages s ip)) /\
  (forall ip p, p ∈ scheduledMessages s ip <-> exists m, heap s !! p = Some m /\ linked_to m = Some ip) /\
  (forall p m ip, heap s !! p = Some m -> linked_to m = Some ip ->
     SenderMessage.ip (source m) = ip /\ remaining (heap s) p = remaining_bytes m).
Proof.
  intros Hr. pose proof (rcv_reachable_inv s Hr) as Hi. pose proof (inv_order _ _ Hi) as [H1 H2 H3 H4 H5].
  split_and!; [done|done|done|by intros ip| |].
  - intros ip p. split; [apply (inv_scheduled _ _ Hi)|]. intros (m & Hp & Hl). by apply (inv_linked _ _ Hi p m).
  - intros p m ip Hp Hl. split; [by apply (inv_linked _ _ Hi p m)|]. unfold remaining. rewrite Hp.
    apply (inv_message _ _ Hi p m Hp); [done|]. unfold linked_to in Hl. by rewrite Hl.
Qed.

(** C11: A DATA packet of a conforming sender is stored at its index in the message
    of its id, which is made if it is new; a duplicate is released; the packet
    that completes the message also puts it in the queue of received
    messages; no other message changes. *)
Theorem handleDataPacket_assembles packet ip s :
  reachable s -> data_ok s packet ip ->
  wp (handleDataPacket packet ip) s (fun _ s' => data_effect packet ip s s').
Proof.
  intros Hr Hok. eapply wp_mono; [apply handleDataPacket_spec; [by apply rcv_reachable_inv|done]|].
  by intros _ s' (_ & ? & _).
Qed.

(** C24: [get] of a message that the application was given copies the bytes asked
    for, as far as the message goes, and changes nothing. *)
Theorem get_copies_bytes p m off n s :
  reachable s -> delivered p m s -> 0 <= off -> 0 <= n -> off + n + messageLength m < 2 ^ 31 ->
  zlength (data m) = messageLength m - start m /\ get_bytes p off n s = Ok (slice off n (data m), s).
Proof.
  intros Hr Hd Ho Hn Hl. pose proof (rcv_reachable_inv s Hr) as Hi. split.
  - destruct Hd as (Hp & Hst & _). pose proof (inv_message _ _ Hi p m Hp ltac:(done)) as Hok.
    pose proof (mo_start _ Hok). apply zlength_range; [lia|]. intros k Hk.
    apply complete_bytes; [done|by apply complete_state|lia].
  - destruct (wp_ok _ _ _ (get_bytes_spec p m off n s Hi Hd Ho Hn Hl)) as (bs & s' & Hg & -> & ->). done.
Qed.

(** [strip] drops the first bytes of the message and nothing else. *)
Theorem strip_drops p m n s :
  reachable s -> delivered p m s -> 0 <= n -> n + messageLength m < 2 ^ 31 ->
  wp (strip_bytes p n) s (fun _ s' => exists m', heap s' = <[p := m']> (heap s) /\
    data m' = drop (Z.to_nat n) (data m) /\ state m' = state m /\ trace (world s') = trace (world s)).
Proof.
  intros Hr Hd Hn Hl. pose proof (rcv_reachable_inv s Hr) as Hi.
  eapply wp_mono; [by apply (strip_bytes_spec p m)|]. intros _ s' [_ ->]. exists (stripped n m).
  destruct Hd as (Hp & Hst & _). pose proof (inv_message _ _ Hi p m Hp ltac:(done)) as Hok.
  split_and!; [done| |done|done]. apply data_stripped; [done|by apply complete_state|done].
Qed.

(** C9: trySendGrants refines an SRPT scheduler over the peers: it visits messages of
    scheduled peers, at most [degreeOvercommitment] of them, fewest missing bytes
    first, and of one peer only the first message of its list, or one whose
    predecessors in it were all visited before; a peer that it does not visit has no message with fewer
    missing bytes than one it visits, and all slots were used.  A visit
    assigns the priority of its slot, sends a GRANT if too few bytes are granted,
    and takes a fully granted message out of the schedule. *)
Theorem trySendGrants_is_srpt s :
  reachable s -> zlength (scheduledPeers s) < 2 ^ 31 ->
  wp trySendGrants s (fun _ s' => exists ps evs, srpt_pass s ps evs s').
Proof.
  intros Hr Hn. destruct (reachable_idle s Hr) as [Hi Hg].
  eapply wp_mono; [by apply trySendGrants_spec|]. by intros _ s' [_ ?].
Qed.

(** C15: Grants are monotone and bounded: a message never loses granted bytes, never
    gets more than it has, nor more than [maxScheduledBytes] beyond what was
    received; at most [degreeOvercommitment] messages change. *)
Theorem grants_bounded s :
  reachable s -> zlength (scheduledPeers s) < 2 ^ 31 ->
  let policy := Policy.localScheduledPolicy (policyManager s) in
  wp trySendGrants s (fun _ s' => exists ps,
    zlength ps <= Z.max 0 (Policy.degreeOvercommitment policy) /\
    (forall p, p ∉ ps -> heap s' !! p = heap s !! p) /\
    (forall p m, p ∈ ps -> heap s !! p = Some m -> exists m', heap s' !! p = Some m' /\
       packets m' = packets m /\ state m' = state m /\
       let g := bytesGranted (scheduledMessageInfo m) in let g' := bytesGranted (scheduledMessageInfo m') in
       g <= g' <= messageLength m /\
       (g < g' -> g' <= receivedBytes m + Policy.maxScheduledBytes policy) /\
       (g' - receivedBytes m < Policy.minScheduledBytes policy -> g' = messageLength m) /\
       (linked_to m' = None -> g' = messageLength m))).
Proof.
  intros Hr Hn policy. destruct (reachable_idle s Hr) as [Hi Hg].
  eapply wp_mono; [by apply trySendGrants_spec|]. intros _ s' (_ & ps & evs & Hps). exists ps.
  by apply (pass_bounds s ps evs s').
Qed.

(** C19: checkResendTimeouts asks again, once and in the order of the timeouts, for
    exactly the missing packets of each message whose resend timeout elapsed that are
    unscheduled or begin below the bytes granted, each maximal range of them in one
    RESEND; for nothing when all granted bytes have arrived.  It leaves no elapsed
    resend timeout and changes no message. *)
Theorem checkResendTimeouts_asks t b s :
  reachable s -> t <= now (world s) ->
  wp (checkResendTimeouts t b) s (fun _ s' => heap s' = heap s /\ exists pre suf,
    timeouts (resendTimeouts (messageBuckets s b)) = pre ++ suf /\
    (forall q, q ∈ pre -> resend_elapsed t q s b = true) /\ (forall q, q ∈ suf -> resend_elapsed t q s b = false) /\
    asked t b pre s s').
Proof.
  intros Hr Ht. eapply wp_mono; [apply checkResendTimeouts_spec; [by apply rcv_reachable_inv|done]|].
  intros _ s' (_ & pre & suf & ? & ? & ? & Ha). split; [|by exists pre, suf].
  destruct Ha as (_ & evss & _ & Ha). by apply (agree_heap _ _ _ Ha).
Qed.

(** C35: The loops over timeouts end after at most one round per timeout, although
    the resend loop sets each timeout again. *)
Theorem timeout_loops_terminate t b s fuel :
  reachable s -> t <= now (world s) ->
  (List.length (timeouts (resendTimeouts (messageBuckets s b))) < fuel)%nat ->
  (List.length (timeouts (messageTimeouts (messageBuckets s b))) < fuel)%nat ->
  is_ok (resend_timeout_loop fuel t b s) = true /\ is_ok (message_timeout_loop fuel t b s) = true.
Proof.
  intros Hr Ht Hf1 Hf2. pose proof (rcv_reachable_inv s Hr) as Hi. split.
  - destruct (elapsed_prefix _ t _ (bo_rt _ _ (inv_bucket _ _ Hi b))) as (pre & suf & Hl & Hp & Hs).
    destruct (wp_ok _ _ _ (resend_timeout_loop_spec fuel t b pre suf s Hi Ht Hl Hp Hs
      ltac:(rewrite Hl, length_app in Hf1; lia))) as (u & s' & -> & _). done.
  - destruct (wp_ok _ _ _ (rcv_message_timeout_loop_spec fuel t b s Hi Hf2)) as (u & s' & -> & _). done.
Qed.

(** checkMessageTimeouts destroys exactly the unfinished messages of the bucket
    whose timeout elapsed, and marks the complete ones as dropped; it sends nothing
    and leaves no elapsed timeout. *)
Theorem receiver_timeouts_expire t b s :
  reachable s -> t < UINT64_MAX ->
  wp (checkMessageTimeouts t b) s (fun _ s' => rcv_expired t b s s').
Proof.
  intros Hr Ht. eapply wp_mono; [apply rcv_checkMessageTimeouts_spec; [by apply rcv_reachable_inv|done]|].
  by intros _ s' [_ ?].
Qed.

(** A PING is answered by the latest GRANT of the message, or by UNKNOWN if there
    is no such message; nothing else is sent and no message changes. *)
Theorem handlePingPacket_replies packet ip s :
  reachable s ->
  wp (handlePingPacket packet ip) s (fun _ s' => heap s' = heap s /\ exists evs, ping_reply packet ip s evs /\
    trace (world s') = trace (world s) ++ evs ++ [EvRelease [pkt_id packet]]).
Proof.
  intros Hr. eapply wp_mono; [apply handlePingPacket_spec; by apply rcv_reachable_inv|].
  intros _ s' (_ & evs & He & Ha). split; [by eapply agree_heap|]. exists evs. split; [done|apply Ha].
Qed.

(** receiveMessage hands out the received messages in the order in which they
    were completed, each once, and only complete ones. *)
Theorem receiveMessage_hands_out s :
  reachable s ->
  wp receiveMessage s (fun r s' => r = head (receivedMessages s) /\ receivedMessages s' = tail (receivedMessages s) /\
    heap s' = heap s /\ NoDup (receivedMessages s) /\
    forall p, r = Some p -> exists m, delivered p m s' /\ complete m).
Proof.
  intros Hr. pose proof (rcv_reachable_inv s Hr) as Hi.
  eapply wp_mono; [by apply receiveMessage_spec|]. intros r s' (Hi' & _ & Hh & _ & -> & Hrec & Hd).
  split_and!; [done|done|done|apply Hi|]. intros p Hp. destruct (Hd p Hp) as (m & Hm). exists m. split; [done|].
  destruct Hm as (Hm & Hst & _). apply complete_state; [|done]. by apply (inv_message _ _ Hi' p m).
Qed.

(** Releasing a message destroys it and returns each of its packets to the
    driver, once. *)
Theorem dropMessage_releases p m s :
  reachable s -> delivered p m s ->
  wp (dropMessage p) s (fun _ s' => heap s' = delete p (heap s) /\ receivedMessages s' = receivedMessages s /\
    trace (world s') = trace (world s) ++ map EvRelease (release_all m) /\
    concat (release_all m) = omap (packet_id_at m) (seqZ 0 (numExpectedPackets m))).
Proof.
  intros Hr (Hp & _ & Hnr). pose proof (rcv_reachable_inv s Hr) as Hi.
  eapply wp_mono; [by apply (rcv_dropMessage_spec p m)|]. intros _ s' (_ & H1 & H2 & H3 & _).
  split; [done|]. split; [done|]. split; [done|]. apply release_all_concat. by apply (inv_message _ _ Hi p m).
Qed.
End props.

(** ** Witnesses *)

Abbreviation first := (1%positive).

Lemma receiver_calls_return_witness :
  exists s', run OpPoll (ReceiverSample.after ReceiverSample.one_of_three) = Ok (tt, s') /\ reachable s'.
Proof. apply (receiver_calls_return OpPoll); [reach_rcv|vm_compute; reflexivity]. Defined.

Lemma schedule_exact_witness :
  let s := ReceiverSample.after ReceiverSample.one_of_three in
  NoDup (scheduledPeers s) /\ sorted_by (peer_remaining s) (scheduledPeers s) /\
  (forall ip, ip ∈ scheduledPeers s <-> scheduledMessages s ip <> []) /\
  (forall ip, NoDup (scheduledMessages s ip) /\ sorted_by (remaining (heap s)) (scheduledMessages s ip)) /\
  (forall ip p, p ∈ scheduledMessages s ip <-> exists m, heap s !! p = Some m /\ linked_to m = Some ip) /\
  (forall p m ip, heap s !! p = Some m -> linked_to m = Some ip ->
     SenderMessage.ip (source m) = ip /\ remaining (heap s) p = remaining_bytes m).
Proof. apply schedule_exact. reach_rcv. Defined.

Lemma handleDataPacket_assembles_witness :
  let s := ReceiverSample.after ReceiverSample.one_of_three in
  wp (handleDataPacket (ReceiverSample.data_packet 0) ReceiverSample.from) s (fun _ s' =>
    data_effect (ReceiverSample.data_packet 0) ReceiverSample.from s s').
Proof. apply handleDataPacket_assembles; [reach_rcv|apply data_okb_ok; vm_compute; reflexivity]. Defined.

Lemma delivered_sample : delivered first (ReceiverSample.the_message ReceiverSample.handed_out)
  (ReceiverSample.after ReceiverSample.handed_out).
Proof. split_and!; [vm_compute; reflexivity|vm_compute; congruence|]. apply (bool_decide_eq_true _). vm_compute. reflexivity. Qed.

Lemma get_copies_bytes_witness :
  let s := ReceiverSample.after ReceiverSample.handed_out in
  let m := ReceiverSample.the_message ReceiverSample.handed_out in
  zlength (data m) = messageLength m - start m /\ get_bytes first 5 20 s = Ok (slice 5 20 (data m), s).
Proof. apply get_copies_bytes; [reach_rcv|apply delivered_sample|vm_compute; congruence..|vm_compute; reflexivity]. Defined.

Lemma strip_drops_witness :
  let s := ReceiverSample.after ReceiverSample.handed_out in
  let m := ReceiverSample.the_message ReceiverSample.handed_out in
  wp (strip_bytes first 4) s (fun _ s' => exists m', heap s' = <[first := m']> (heap s) /\
    data m' = drop 4 (data m) /\ state m' = state m /\ trace (world s') = trace (world s)).
Proof. apply (strip_drops first _ 4); [reach_rcv|apply delivered_sample|vm_compute; congruence|vm_compute; reflexivity]. Defined.

Lemma trySendGrants_is_srpt_witness :
  let s := ReceiverSample.after ReceiverSample.one_of_three in
  wp trySendGrants s (fun _ s' => exists ps evs, srpt_pass s ps evs s').
Proof. apply trySendGrants_is_srpt; [reach_rcv|vm_compute; reflexivity]. Defined.

Lemma grants_bounded_witness :
  let s := ReceiverSample.after ReceiverSample.one_of_three in
  let policy := Policy.localScheduledPolicy (policyManager s) in
  wp trySendGrants s (fun _ s' => exists ps,
    zlength ps <= Z.max 0 (Policy.degreeOvercommitment policy) /\
    (forall p, p ∉ ps -> heap s' !! p = heap s !! p) /\
    (forall p m, p ∈ ps -> heap s !! p = Some m -> exists m', heap s' !! p = Some m' /\
       packets m' = packets m /\ state m' = state m /\
       let g := bytesGranted (scheduledMessageInfo m) in let g' := bytesGranted (scheduledMessageInfo m') in
       g <= g' <= messageLength m /\
       (g < g' -> g' <= receivedBytes m + Policy.maxScheduledBytes policy) /\
       (g' - receivedBytes m < Policy.minScheduledBytes policy -> g' = messageLength m) /\
       (linked_to m' = None -> g' = messageLength m))).
Proof. apply grants_bounded; [reach_rcv|vm_compute; reflexivity]. Defined.

Lemma checkResendTimeouts_asks_witness :
  let s := ReceiverSample.after ReceiverSample.waiting in
  wp (checkResendTimeouts 60 3) s (fun _ s' => heap s' = heap s /\ exists pre suf,
    timeouts (resendTimeouts (messageBuckets s 3)) = pre ++ suf /\
    (forall q, q ∈ pre -> resend_elapsed 60 q s 3 = true) /\ (forall q, q ∈ suf -> resend_elapsed 60 q s 3 = false) /\
    asked 60 3 pre s s').
Proof. apply checkResendTimeouts_asks; [reach_rcv|vm_compute; congruence]. Defined.

Lemma timeout_loops_terminate_witness :
  let s := ReceiverSample.after ReceiverSample.waiting in
  is_ok (resend_timeout_loop 2 60 3 s) = true /\ is_ok (message_timeout_loop 2 60 3 s) = true.
Proof. apply timeout_loops_terminate; [reach_rcv|vm_compute; congruence|vm_compute; lia..]. Defined.

Lemma receiver_timeouts_expire_witness :
  let s := ReceiverSample.after ReceiverSample.waiting in
  wp (checkMessageTimeouts 500 3) s (fun _ s' => rcv_expired 500 3 s s').
Proof. apply receiver_timeouts_expire; [reach_rcv|vm_compute; reflexivity]. Defined.

Lemma handlePingPacket_replies_witness :
  let s := ReceiverSample.after ReceiverSample.one_of_three in
  let packet := Sample.incoming (Protocol.PingHeader_new Sample.first_id) in
  wp (handlePingPacket packet 10) s (fun _ s' => heap s' = heap s /\ exists evs, ping_reply packet 10 s evs /\
    trace (world s') = trace (world s) ++ evs ++ [EvRelease [pkt_id packet]]).
Proof. apply handlePingPacket_replies. reach_rcv. Defined.

Lemma receiveMessage_hands_out_witness :
  let s := ReceiverSample.after ReceiverSample.three in
  wp receiveMessage s (fun r s' => r = head (receivedMessages s) /\ receivedMessages s' = tail (receivedMessages s) /\
    heap s' = heap s /\ NoDup (receivedMessages s) /\
    forall p, r = Some p -> exists m, delivered p m s' /\ complete m).
Proof. apply receiveMessage_hands_out. reach_rcv. Defined.

Lemma dropMessage_releases_witness :
  let s := ReceiverSample.after ReceiverSample.handed_out in
  let m := ReceiverSample.the_message ReceiverSample.handed_out in
  wp (dropMessage first) s (fun _ s' => heap s' = delete first (heap s) /\ receivedMessages s' = receivedMessages s /\
    trace (world s') = trace (world s) ++ map EvRelease (release_all m) /\
    concat (release_all m) = omap (packet_id_at m) (seqZ 0 (numExpectedPackets m))).
Proof. apply dropMessage_releases; [reach_rcv|apply delivered_sample]. Defined.

End ReceiverProps.
