(* ===== verification/Transfer.v ===== *)
(** * Transfer: a message from a Sender to a Receiver

    The two ends together: the DATA packets that sendMessage prepares carry the
    message to any Receiver, whatever order the network delivers them in and
    however often.  A packet on the network is the bytes that sendPacket hands to
    the driver; [carries] says what the other driver makes of them. *)

From S2P Require Import Prelude Intrusive Util Timeout ObjectPool Perf Protocol Policy Driver SenderMessage Sender SenderInv SenderSend SenderSystem ReceiverMessage Receiver ReceiverSchedule ReceiverInv ReceiverSteps ReceiverHandlers ReceiverSystem.
Import Driver ReceiverMessage Receiver ReceiverHandlers.

Module Transfer.

Section transfer.
Context `{DriverLaws}.
Implicit Types (k d : Packet) (m : Message) (i : Z) (r : Receiver).

(** ** One packet *)

(** A packet that receivePackets returns for the bytes that were sent. *)
Record carries (bytes : list Z) k : Prop := {
  ca_length : length k = zlength bytes;
  ca_bytes : packet_bytes k = bytes;
  ca_payload : zlength (payload k) = getMaxPayloadSize
}.

Section message.
(** The message [sm] as sendMessage leaves it. *)
Variable sm : SenderMessage.Message.
Variable dst : SocketAddress.
Variables version limit : Z.
Variable from : IpAddress.

Record sendable : Prop := {
  sb_ok : SenderMessage.message_ok sm;
  sb_some : 0 < SenderMessage.numPackets sm;
  sb_header : forall i d, SenderMessage.packets sm !! i = Some d ->
    SenderSend.has_header (SenderSend.header_of dst version limit sm i) d;
  sb_id : Protocol.MessageId_ok (SenderMessage.id sm);
  sb_sport : 0 <= port (SenderMessage.source sm) < 2 ^ 16;
  sb_version : 0 <= version < 2 ^ 8;
  sb_limit : 0 <= limit <= MAX_MESSAGE_PACKETS
}.

(** [k] brings packet [i] of the message. *)
Definition arrival i k : Prop :=
  exists d, SenderMessage.packets sm !! i = Some d /\ carries (packet_bytes d) k.

Hypothesis Hsend : sendable.

Lemma sent_length : 0 < SenderMessage.messageLength sm <= SenderMessage.maxMessageLength.
Proof.
  destruct Hsend as [[[S1 _ _ _] ? ?] ? _ _ _ _ _]. split; [|done].
  pose proof SenderMessage.data_length_range. rewrite S1 in sb_some0. unfold SenderMessage.packets_for in sb_some0.
  destruct (SenderMessage.data_div_mod (SenderMessage.messageLength sm + PACKET_DATA_LENGTH - 1)). nia.
Qed.

Lemma sent_packet i d :
  SenderMessage.packets sm !! i = Some d ->
  0 <= i < packets_for (SenderMessage.messageLength sm) /\
  length d = TRANSPORT_HEADER_LENGTH + chunk (SenderMessage.messageLength sm) i /\
  TRANSPORT_HEADER_LENGTH < length d <= getMaxPayloadSize /\ zlength (payload d) = getMaxPayloadSize.
Proof.
  intros Hd. destruct (sb_ok Hsend) as [[S1 S2 S3 S4] _ _]. pose proof (S3 i d Hd) as Hlen.
  assert (0 <= i < SenderMessage.numPackets sm) as Hi by (apply S2; eauto). rewrite S1 in Hi.
  pose proof sent_length. destruct (chunk_range (SenderMessage.messageLength sm) i) as [C1 C2]; [lia|done|].
  fold (chunk (SenderMessage.messageLength sm) i) in Hlen. pose proof SenderMessage.data_length_payload.
  split_and!; [lia|lia|done|lia|lia|by eapply S4].
Qed.

Lemma header_is_ok i d :
  SenderMessage.packets sm !! i = Some d -> Protocol.header_ok (SenderSend.header_of dst version limit sm i).
Proof.
  intros Hd. destruct (sent_packet i d Hd) as (Hi & _). pose proof sent_length as Hlen.
  pose proof SenderMessage.data_length_range as HP. pose proof SenderMessage.maxMessageLength_eq as Hmax.
  assert (0 <= SenderMessage.messageLength sm <= SenderMessage.maxMessageLength) as Hlen' by lia.
  pose proof (SenderMessage.packets_for_bound _ Hlen') as Hn.
  destruct Hsend as [_ _ _ Hid _ Hv Hl]. unfold SenderMessage.MAX_MESSAGE_PACKETS, MAX_MESSAGE_PACKETS in *.
  pose proof (Protocol.bswap16_range (port (SenderMessage.source sm))). pose proof (Protocol.bswap16_range (port dst)).
  unfold Protocol.header_ok, SenderSend.header_of, Protocol.DataHeader_new, Protocol.CommonHeader_ok; simpl.
  split_and!; try lia; try done; apply Hid.
Qed.

(** The receiving end reads the header that was written. *)
Lemma arrival_header i k : arrival i k -> data_header k = SenderSend.header_of dst version limit sm i.
Proof.
  intros (d & Hd & [Hlen Hb Hpay]). destruct (sent_packet i d Hd) as (_ & _ & [Hl1 Hl2] & Hpd).
  destruct (sb_header Hsend i d Hd) as [body Hbody].
  assert (TRANSPORT_HEADER_LENGTH = 31) as HT by done. set (h := SenderSend.header_of dst version limit sm i) in *.
  assert (zlength (Protocol.encode h) = TRANSPORT_HEADER_LENGTH) as Hz by apply SenderSend.zlength_header.
  assert (exists rest, payload k = Protocol.encode h ++ rest) as [rest Hk].
  { exists (drop (Z.to_nat TRANSPORT_HEADER_LENGTH) (payload k)).
    rewrite <- (take_drop (Z.to_nat TRANSPORT_HEADER_LENGTH) (payload k)) at 1. f_equal.
    transitivity (take (Z.to_nat TRANSPORT_HEADER_LENGTH) (packet_bytes k)).
    - unfold packet_bytes, slice. rewrite Z2Nat.inj_0, drop_0, take_take. f_equal.
      rewrite Hlen. unfold packet_bytes. rewrite zlength_slice by lia. lia.
    - rewrite Hb. unfold packet_bytes, slice. rewrite Z2Nat.inj_0, drop_0, take_take, Hbody, Nat.min_l by lia.
      rewrite <- Hz. unfold zlength. rewrite Nat2Z.id. apply take_app_length. }
  unfold data_header, read_header. rewrite Hk. apply Protocol.decode_encode. by eapply header_is_ok.
Qed.

Lemma arrival_length i k d :
  SenderMessage.packets sm !! i = Some d -> carries (packet_bytes d) k -> length k = length d.
Proof.
  intros Hd [Hlen _ _]. destruct (sent_packet i d Hd) as (_ & _ & [Hl1 Hl2] & Hpd). rewrite Hlen.
  unfold packet_bytes. apply zlength_slice; [lia| |lia]. assert (TRANSPORT_HEADER_LENGTH = 31) by done. lia.
Qed.

(** An arrival is a DATA packet that the Receiver's interface allows, and it
    says which message and which packet it is. *)
Lemma arrival_ok i k :
  arrival i k -> packet_ok k /\ data_id k = SenderMessage.id sm /\
  Protocol.dh_index (data_header k) = i /\
  Protocol.totalLength (data_header k) = SenderMessage.messageLength sm /\
  data_source k from = mkSocketAddress from (port (SenderMessage.source sm)).
Proof.
  intros Ha. pose proof (arrival_header i k Ha) as Hh. destruct Ha as (d & Hd & Hc).
  pose proof (arrival_length i k d Hd Hc) as Hlen. destruct (sent_packet i d Hd) as (Hi & Hld & _).
  unfold data_id, data_source. rewrite Hh. split_and!; try done.
  - split; rewrite ?Hh; [apply sent_length|apply Hsend|exact Hi|by rewrite Hlen|apply Hc].
  - unfold SenderSend.header_of, Protocol.DataHeader_new; simpl. f_equal. apply Protocol.bswap16_involutive, Hsend.
Qed.

(** ** The message that the Receiver assembles *)

(** [m] holds packets of the message that arrived. *)
Record image m : Prop := {
  im_id : id m = SenderMessage.id sm;
  im_source : source m = mkSocketAddress from (port (SenderMessage.source sm));
  im_length : messageLength m = SenderMessage.messageLength sm;
  im_packets : forall i k, packets m !! i = Some k -> arrival i k
}.

Lemma image_same m m' : same_contents m m' -> image m -> image m'.
Proof. intros (E1 & E2 & E3 & E4) []. split; [congruence..|]. by rewrite E4. Qed.

Lemma image_received i k m : arrival i k -> image m -> image (received i k m).
Proof.
  intros Ha [I1 I2 I3 I4]. set (n := length k - TRANSPORT_HEADER_LENGTH).
  assert (same_contents (stored i k m) (received i k m)) as Hs.
  { unfold received, finished, counted. by repeat case_match. }
  eapply image_same; [exact Hs|]. split; try done.
  intros j k'. unfold stored, over; cbn [packets]. intros [[<- <-]|[_ Hj]]%lookup_insert_Some; [done|by apply I4].
Qed.

Lemma image_announced i k : arrival i k -> image (announced k from).
Proof.
  intros Ha. destruct (arrival_ok i k Ha) as (Hok & Hid & _ & Hlen & Hsrc).
  destruct (announced_ok k from Hok) as (_ & A1 & A2 & A3 & _ & A5).
  split; [by rewrite A1|by rewrite A2|by rewrite A5|]. intros j k'. by rewrite A3, lookup_empty.
Qed.

(** A complete image has the bytes of the message that was sent. *)
Lemma image_byte m j :
  message_ok m -> complete m -> image m -> 0 <= j < SenderMessage.messageLength sm ->
  byte_at (packets m) j = byte_at (SenderMessage.packets sm) j.
Proof.
  intros Hok Hc [_ _ I3 I4] Hj. destruct (SenderMessage.data_div_mod j) as [Hdm Hm].
  pose proof SenderMessage.data_length_range as HP.
  set (i := j / PACKET_DATA_LENGTH) in *. pose proof (SenderMessage.packets_for_covers _ j Hj) as Hi.
  destruct (Hc i) as [k Hk]; [by rewrite (mo_expected _ Hok), I3|].
  destruct (I4 i k Hk) as (d & Hd & Hca). pose proof (arrival_length i k d Hd Hca) as Hlen.
  destruct (sent_packet i d Hd) as (_ & Hld & _). destruct Hca as [_ Hb _].
  unfold byte_at. fold i. rewrite Hk, Hd. simpl. unfold chunk in Hld.
  assert (TRANSPORT_HEADER_LENGTH = 31) as HT by done.
  set (o := Z.to_nat (TRANSPORT_HEADER_LENGTH + j mod PACKET_DATA_LENGTH)).
  assert (packet_bytes k !! o = payload k !! o) as <-.
  { unfold packet_bytes. rewrite lookup_slice; [done|]. rewrite Hlen, Hld. lia. }
  rewrite Hb. unfold packet_bytes. rewrite lookup_slice; [done|]. lia.
Qed.

Lemma image_range m a n :
  message_ok m -> complete m -> image m -> 0 <= a -> a + n <= SenderMessage.messageLength sm ->
  range (packets m) a n = range (SenderMessage.packets sm) a n.
Proof.
  intros Hok Hc Him Ha Hn. unfold range. apply list_omap_ext. apply Forall2_same_length_lookup.
  split; [done|]. intros x j j' Hj Hj'. simplify_eq. apply lookup_seqZ in Hj as [-> Hx].
  apply image_byte; try done. lia.
Qed.

Lemma image_data m :
  message_ok m -> complete m -> image m -> start m = 0 ->
  drop (Z.to_nat (SenderMessage.start sm)) (data m) = SenderMessage.data sm.
Proof.
  intros Hok Hc Him Hst. destruct (sb_ok Hsend) as [_ Hs _]. set (L := SenderMessage.messageLength sm) in *.
  change (drop (Z.to_nat (SenderMessage.start sm)) (range (packets m) (start m) (messageLength m - start m)) =
    range (SenderMessage.packets sm) (SenderMessage.start sm) (L - SenderMessage.start sm)).
  rewrite Hst, (im_length _ Him), Z.sub_0_r. fold L. rewrite image_range by (done || unfold L; lia).
  assert (zlength (range (SenderMessage.packets sm) 0 (SenderMessage.start sm)) = SenderMessage.start sm) as Hz.
  { rewrite <- (image_range m) by (done || lia). apply zlength_range; [lia|]. intros j Hj. apply complete_bytes; [done|done|].
    rewrite (im_length _ Him). fold L. lia. }
  replace L with (SenderMessage.start sm + (L - SenderMessage.start sm)) at 1 by lia.
  rewrite range_app by lia. rewrite drop_app_length'; [done|]. unfold zlength in Hz. lia.
Qed.

(** ** Every packet arrives *)

Definition unknown r : Prop := forall p m, heap r !! p = Some m -> id m <> SenderMessage.id sm.

(** The Receiver, once the packets [seen] of the message arrived. *)
Definition progress r0 (seen : list Z) r : Prop :=
  ReceiverInv.inv None r /\
  match seen with
  | [] => unknown r /\ receivedMessages r = receivedMessages r0
  | _ :: _ => exists p m, heap r !! p = Some m /\ image m /\ start m = 0 /\
      (forall i, i ∈ seen -> is_Some (packets m !! i)) /\
      receivedMessages r = receivedMessages r0 ++ (if bool_decide (state m = IN_PROGRESS) then [] else [p])
  end.

Lemma progress_data_ok r0 seen r i k : progress r0 seen r -> arrival i k -> data_ok r k from.
Proof.
  intros [Hi Hp] Ha. destruct (arrival_ok i k Ha) as (Hok & Hid & _ & Hlen & Hsrc). split; [done|].
  intros p m Hm Hidm. rewrite Hid in Hidm. rewrite Hsrc, Hlen. destruct seen as [|j seen].
  - destruct Hp as [Hu _]. by apply Hu in Hm.
  - destruct Hp as (q & n & Hn & Him & _). assert (p = q) as ->.
    { eapply (ReceiverInv.inv_ids _ _ Hi); [done..|]. by rewrite (im_id _ Him). }
    simplify_eq. split; apply Him.
Qed.

Lemma received_facts i k m :
  start (received i k m) = start m /\ packets (received i k m) = <[i := k]> (packets m).
Proof. unfold received, finished, counted. by repeat case_match. Qed.

Lemma progress_step r0 seen r i k :
  progress r0 seen r -> arrival i k ->
  wp (handleDataPacket k from) r (fun _ r' => progress r0 (seen ++ [i]) r').
Proof.
  intros Hp Ha. eapply wp_mono; [apply handleDataPacket_spec; [apply Hp|by eapply progress_data_ok]|].
  intros _ r' (Hi' & (p & m & Hadd & He) & _). destruct (arrival_ok i k Ha) as (Hok & Hid & Hidx & _). rewrite Hidx in He. clear Hidx.
  split; [done|]. assert (exists j l, seen ++ [i] = j :: l) as (j & l & Hjl) by (destruct seen; simpl; eauto).
  rewrite Hjl. cbv beta iota. rewrite <- Hjl. clear j l Hjl. destruct Hp as [Hi Hp]. destruct seen as [|j seen].
  - destruct Hp as [Hu Hr]. destruct Hadd as [[Hm Hidm]|(_ & _ & ->)]; [rewrite Hid in Hidm; by apply Hu in Hm|].
    destruct (announced_ok k from Hok) as (_ & _ & _ & A3 & A4 & _). rewrite A3, lookup_empty in He.
    destruct He as (Hh & _ & Hr'). destruct (received_facts i k (announced k from)) as [F1 F2].
    exists p, (received i k (announced k from)). rewrite Hh, lookup_insert_eq, F1, F2.
    split_and!; [done|by eapply image_received, image_announced| | |by rewrite Hr', Hr].
    + unfold announced. by destruct (scheduled _).
    + intros x Hx. apply list_elem_of_singleton in Hx as ->. rewrite lookup_insert_eq. by eexists.
  - destruct Hp as (q & n & Hq & Him & Hst & Hseen & Hr). destruct Hadd as [[Hm Hidm]|(Hno & _)].
    2:{ exfalso. apply (Hno q n Hq). by rewrite (im_id _ Him). }
    assert (p = q) as -> by (eapply (ReceiverInv.inv_ids _ _ Hi); [done..|]; by rewrite Hidm, Hid, (im_id _ Him)).
    assert (n = m) as -> by congruence. destruct (packets m !! i) as [k'|] eqn:Hki.
    + destruct He as (Hh & Hr' & _). exists q, m. rewrite Hh, Hr'. split_and!; try done.
      intros x [Hx| ->%list_elem_of_singleton]%elem_of_app; [by apply Hseen|by eexists].
    + destruct He as (Hh & _ & Hr'). destruct (received_facts i k m) as [F1 F2].
      exists q, (received i k m). rewrite Hh, lookup_insert_eq, F1, F2.
      split_and!; [done|by apply image_received|done| |].
      * intros x [Hx| ->%list_elem_of_singleton]%elem_of_app; [|rewrite lookup_insert_eq; by eexists].
        destruct (decide (x = i)) as [->|]; [rewrite lookup_insert_eq; by eexists|].
        rewrite lookup_insert_ne by done. by apply Hseen.
      * assert (state m = IN_PROGRESS) as Hs.
        { pose proof (ReceiverInv.inv_message _ _ Hi q m Hm ltac:(done)) as Hmok.
          destruct (decide (state m = IN_PROGRESS)) as [|Hs]; [done|]. apply (complete_state m Hmok) in Hs.
          destruct Ha as (d & Hd & _). destruct (sent_packet i d Hd) as (Hir & _).
          destruct (Hs i) as [? Hx]; [by rewrite (mo_expected _ Hmok), (im_length _ Him)|congruence]. }
        rewrite Hr', Hr, (bool_decide_true (state m = IN_PROGRESS)) by done. by rewrite app_nil_r.
Qed.

(** Once every packet arrived, whatever the order and however often, the
    message is complete and waits for the application. *)
Lemma arrivals_complete r (arrivals : list (Z * Packet)) :
  ReceiverInv.inv None r -> unknown r -> Forall (fun a => arrival a.1 a.2) arrivals ->
  (forall i, is_Some (SenderMessage.packets sm !! i) -> i ∈ arrivals.*1) ->
  wp (for_each (arrivals.*2) (fun k => handleDataPacket k from)) r (fun _ r' => exists p m,
    ReceiverInv.inv None r' /\ heap r' !! p = Some m /\ image m /\ start m = 0 /\ complete m /\
    receivedMessages r' = receivedMessages r ++ [p]).
Proof.
  intros Hi Hu Hall Hcov.
  eapply (wp_for_each (fun l r' => exists pre post, arrivals = pre ++ post /\ l = post.*2 /\ progress r (pre.*1) r')).
  - exists [], arrivals. split_and!; [done|done|]. by split.
  - intros k l' r' (pre & post & Harr & Hl & Hp). destruct post as [|[i k'] post]; [done|].
    injection Hl as -> ->. rewrite Harr in Hall.
    apply Forall_app in Hall as [_ [Ha _]%Forall_cons]. eapply wp_mono; [by apply (progress_step r (pre.*1) r' i k')|].
    intros ? r2 Hp2. exists (pre ++ [(i, k')]), post. rewrite fmap_app. simpl. by rewrite <- app_assoc.
  - intros r' (pre & post & Harr & Hl & Hi' & Hp). destruct post; [|done]. rewrite app_nil_r in Harr. subst pre.
    destruct (sb_ok Hsend) as [[S1 S2 _ _] _ _]. pose proof (sb_some Hsend).
    assert (0 ∈ arrivals.*1) as Hz by (apply Hcov, S2; lia).
    destruct (arrivals.*1) as [|j js] eqn:Hj; [by apply elem_of_nil in Hz|]. rewrite <- Hj in *. clear Hz Hj j js.
    destruct Hp as (p & m & Hm & Him & Hst & Hseen & Hr).
    pose proof (ReceiverInv.inv_message _ _ Hi' p m Hm ltac:(done)) as Hok.
    assert (complete m) as Hc.
    { intros i Hi2. apply Hseen, Hcov, S2. by rewrite S1, <- (im_length _ Him), <- (mo_expected _ Hok). }
    exists p, m. split_and!; try done. rewrite Hr, bool_decide_false; [done|]. by apply complete_state.
Qed.
End message.

(** ** What sendMessage prepares *)

(** A message that sendMessage was called for can be sent, if the addresses fit
    the header and the unscheduled limit fits the Receiver's table. *)
Lemma sent_sendable s p newId dst opts limit policy (m m' : SenderMessage.Message) :
  SenderInv.inv None s -> Sender.heap s !! p = Some m' -> SenderSend.sent_as p newId dst opts limit policy m m' ->
  Protocol.MessageId_ok newId -> 0 <= port (SenderMessage.source m) < 2 ^ 16 ->
  0 <= Policy.u_version policy < 2 ^ 8 -> 0 <= limit <= MAX_MESSAGE_PACKETS ->
  sendable m' dst (Policy.u_version policy) limit.
Proof.
  intros Hi Hp Hs Hid Hport Hv Hl. destruct (SenderInv.inv_message _ _ Hi p m' Hp) as [Hok Hst].
  destruct Hst as (Hn & _); [rewrite (SenderSend.se_state _ _ _ _ _ _ _ _ Hs); by case_match|].
  split; try done.
  - apply Hs.
  - by rewrite (SenderSend.se_id _ _ _ _ _ _ _ _ Hs).
  - by rewrite (SenderSend.se_source _ _ _ _ _ _ _ _ Hs).
Qed.

(** ** The Receiver while the message is under way *)

(** What reaches the Receiver: any calls, but DATA packets with the id of [sm]
    are packets of [sm]. *)
Definition honest (sm : SenderMessage.Message) (from : IpAddress) (o : ReceiverSystem.Op) : Prop :=
  match o with
  | ReceiverSystem.OpData k ip => data_id k = SenderMessage.id sm ->
      ip = from /\ arrival sm (Protocol.dh_index (data_header k)) k
  | _ => True
  end.

Inductive conversation (sm : SenderMessage.Message) (from : IpAddress) : Receiver -> Prop :=
  | conv_start r : ReceiverSystem.reachable r -> unknown sm r -> conversation sm from r
  | conv_run r o r' : conversation sm from r -> ReceiverSystem.allowed o r -> honest sm from o ->
      ReceiverSystem.run o r = Ok (tt, r') -> conversation sm from r'.

(** All that the Receiver holds of the message is what was sent. *)
Lemma conversation_images sm dst version limit from r :
  sendable sm dst version limit -> conversation sm from r ->
  ReceiverSystem.reachable r /\
  forall p m, heap r !! p = Some m -> id m = SenderMessage.id sm -> image sm from m.
Proof.
  intros Hsend. induction 1 as [r Hr Hu|r o r' _ [Hr IH] Ha Hh Hrun].
  { split; [done|]. intros p m Hp Hid. by apply Hu in Hp. }
  split; [by eapply ReceiverSystem.reach_run|]. intros p m' Hp Hid.
  pose proof (ReceiverSystem.rcv_run_spec o r (ReceiverSystem.reachable_idle r Hr) Ha) as Hw.
  unfold wp in Hw. rewrite Hrun in Hw. destruct Hw as (_ & _ & Hw).
  assert (keeps (heap r) (heap r') -> image sm from m') as Hkeep.
  { intros Hk. destruct (Hk p m' Hp) as (m & Hm & Hs & _). eapply image_same; [exact Hs|].
    apply (IH p m Hm). destruct Hs as (E & _). by rewrite <- E. }
  destruct o as [k ip|k|k ip| |q|q|q|q off n|q n|q|]; simpl in Hw; try by apply Hkeep, Hw.
  destruct Hw as (q & m & Hadd & He). destruct (packets m !! Protocol.dh_index (data_header k)).
  { destruct He as [E _]. rewrite E in Hp. by apply (IH p m' Hp). }
  destruct He as [E _]. rewrite E in Hp. apply lookup_insert_Some in Hp as [[<- <-]|[_ Hp]]; [|by apply (IH p m' Hp)].
  assert (id (received (Protocol.dh_index (data_header k)) k m) = id m) as Ei
    by (unfold received, finished, counted; by repeat case_match).
  rewrite Ei in Hid. destruct Hadd as [[Hm Hidm]|(_ & _ & ->)].
  - destruct Hh as [-> Harr]; [by rewrite <- Hidm|]. apply image_received; [done|]. by apply (IH q m Hm).
  - destruct Ha as [Hpk _]. destruct (announced_ok k ip Hpk) as (_ & A1 & _).
    destruct Hh as [-> Harr]; [by rewrite <- A1|]. apply image_received; [done|].
    by eapply image_announced.
Qed.
End transfer.
End Transfer.
