(* ===== verification/TransferProps.v ===== *)
(** * TransferProps: what the two ends guarantee together

    The theorems of Transfer.v on the calls of the interface, with witnesses on
    the sample Sender and Receiver. *)

From S2P Require Import Prelude Intrusive Util Timeout ObjectPool Perf Protocol Policy Driver SenderMessage Sender SenderInv SenderSend SenderSystem Sample ReceiverMessage Receiver ReceiverInv ReceiverHandlers ReceiverSystem ReceiverSample Transfer.
Import Driver ReceiverMessage Receiver ReceiverHandlers Transfer.

Module TransferProps.

Section props.
Context `{DriverLaws}.
Implicit Types (r : Receiver) (p q : ptr).

(** C3: A message that the application appended and sent arrives.  After
    [sendMessage], let the packets of the message reach a Receiver that does not
    know it, in any order and any number of times each: every handler returns, one
    message is put in the queue of received messages, it is complete, and its bytes
    (behind the headroom that was reserved and not filled) are those that the
    sender's application wrote. *)
Theorem transfer_roundtrip p (m : SenderMessage.Message) dst opts (s : Sender.Sender) from r :
  SenderSystem.reachable s -> SenderSystem.draft p m s -> 0 < SenderMessage.numPackets m ->
  0 <= Sender.nextMessageSequenceNumber s < 2 ^ 64 - 1 -> 0 <= Sender.transportId s < 2 ^ 64 ->
  0 <= port (SenderMessage.source m) < 2 ^ 16 ->
  SenderMessage.packets_for (Policy.RTT_BYTES (Sender.policyManager s)) <= MAX_MESSAGE_PACKETS ->
  ReceiverSystem.reachable r ->
  (forall q n, heap r !! q = Some n ->
     id n <> Protocol.mkMessageId (Sender.transportId s) (Sender.nextMessageSequenceNumber s)) ->
  wp (Sender.sendMessage p dst opts) s (fun _ s' => exists m', Sender.heap s' !! p = Some m' /\
    forall arrivals, Forall (fun a => arrival m' a.1 a.2) arrivals ->
    (forall i, is_Some (SenderMessage.packets m' !! i) -> i ∈ arrivals.*1) ->
    wp (for_each (arrivals.*2) (fun k => handleDataPacket k from)) r (fun _ r' => exists q n,
      heap r' !! q = Some n /\ receivedMessages r' = receivedMessages r ++ [q] /\ complete n /\
      drop (Z.to_nat (SenderMessage.start m)) (data n) = SenderMessage.data m)).
Proof.
  intros Hs [[Hp Hh] Hst] Hn Hseq Htid Hport Hlim Hr Hu.
  eapply SenderSend.sendMessage_spec; [by apply SenderSystem.reachable_inv|done..|].
  intros s' policy m' Hi' Hheap Hv Hl _ Hsent _ _ _.
  assert (Sender.heap s' !! p = Some m') as Hp' by (rewrite Hheap; apply lookup_insert_eq).
  pose proof (sent_sendable s' p _ dst opts _ policy m m' Hi' Hp' Hsent ltac:(split; [exact Htid|simpl; lia]) Hport Hv
    ltac:(lia)) as Hsend.
  exists m'. split; [done|]. intros arrivals Hall Hcov.
  eapply wp_mono; [eapply arrivals_complete; [done|by apply ReceiverSystem.rcv_reachable_inv| |done|done]|].
  - intros q n Hq. rewrite (SenderSend.se_id _ _ _ _ _ _ _ _ Hsent). by apply (Hu q).
  - intros _ r' (q & n & Hir & Hq & Him & Hst0 & Hc & Hrec). exists q, n. split_and!; try done.
    rewrite <- (SenderSend.se_start _ _ _ _ _ _ _ _ Hsent), <- (SenderSend.se_data _ _ _ _ _ _ _ _ Hsent).
    eapply image_data; try done. by apply (ReceiverInv.inv_message _ _ Hir q).
Qed.

(** Whatever else happens at the Receiver in between (other messages, polls,
    timeouts, duplicates, calls of the application), a complete message with the id
    of a message that was sent consists of the bytes that were sent: reading [n]
    bytes at [off] gives those of the sender's message, from the position that the
    application stripped the message to. *)
Theorem received_message_intact (sm : SenderMessage.Message) dst version limit from r p m off n :
  sendable sm dst version limit -> conversation sm from r ->
  ReceiverSystem.delivered p m r -> id m = SenderMessage.id sm ->
  0 <= off -> 0 <= n -> off + n + messageLength m < 2 ^ 31 ->
  messageLength m = SenderMessage.messageLength sm /\
  Receiver.get_bytes p off n r = Ok (slice off n (ReceiverMessage.range (SenderMessage.packets sm)
    (start m) (SenderMessage.messageLength sm - start m)), r).
Proof.
  intros Hsend Hconv Hd Hid Ho Hn Hlen. destruct (conversation_images _ _ _ _ _ _ Hsend Hconv) as [Hr Him].
  destruct Hd as (Hp & Hst & Hnr). specialize (Him p m Hp Hid). split; [apply Him|].
  pose proof (ReceiverSystem.rcv_reachable_inv r Hr) as Hi.
  pose proof (ReceiverInv.inv_message _ _ Hi p m Hp ltac:(done)) as Hok.
  destruct (wp_ok _ _ _ (ReceiverSystem.get_bytes_spec p m off n r Hi ltac:(done) Ho Hn Hlen)) as (bs & r' & Hg & -> & ->).
  rewrite Hg. repeat f_equal. pose proof (mo_start _ Hok). rewrite <- (im_length _ _ _ Him).
  eapply image_range; [done|done|by apply complete_state|done|lia|]. rewrite (im_length _ _ _ Him). lia.
Qed.

Lemma conversation_follow sm from ops r r' :
  conversation sm from r -> Forall (honest sm from) ops -> ReceiverSystem.follow ops r = Some r' ->
  conversation sm from r'.
Proof.
  revert r. induction ops as [|o ops IH]; simpl; intros r Hc Hh; [by intros [= <-]|].
  apply Forall_cons in Hh as [Ho Hh]. destruct (ReceiverSystem.allowedb o r) eqn:Ha; [|done].
  destruct (ReceiverSystem.run o r) as [[[] r1]|] eqn:Hr; [|done].
  apply IH; [|done]. eapply conv_run; [done|by apply ReceiverSystem.rcv_allowedb_allowed|done|done].
Qed.
End props.

(** ** Witnesses *)

Lemma transfer_roundtrip_witness :
  let s := Sample.after Sample.build in let m := Sample.first Sample.build in let r := ReceiverSample.receiver0 in
  wp (Sender.sendMessage 1%positive Sample.peer SenderMessage.NONE) s (fun _ s' =>
    exists m', Sender.heap s' !! 1%positive = Some m' /\
    forall arrivals, Forall (fun a => arrival m' a.1 a.2) arrivals ->
    (forall i, is_Some (SenderMessage.packets m' !! i) -> i ∈ arrivals.*1) ->
    wp (for_each (arrivals.*2) (fun k => handleDataPacket k ReceiverSample.from)) r (fun _ r' => exists q n,
      heap r' !! q = Some n /\ receivedMessages r' = receivedMessages r ++ [q] /\ complete n /\
      drop (Z.to_nat (SenderMessage.start m)) (data n) = SenderMessage.data m)).
Proof.
  apply transfer_roundtrip.
  - apply Sample.after_reachable. vm_compute. reflexivity.
  - split; [split; vm_compute; reflexivity|vm_compute; reflexivity].
  - vm_compute. reflexivity.
  - vm_compute. split; congruence.
  - vm_compute. split; congruence.
  - vm_compute. split; congruence.
  - vm_compute. congruence.
  - apply ReceiverSample.receiver0_reachable.
  - intros q n Hq. change (heap ReceiverSample.receiver0) with (∅ : gmap ptr Message) in Hq.
    rewrite lookup_empty in Hq. discriminate Hq.
Defined.

(** The message of the sample can be sent. *)
Lemma sample_sendable : sendable (Sample.first Sample.sent) Sample.peer 0 2.
Proof.
  assert (SenderSystem.reachable (Sample.after Sample.sent)) as Hr
    by (apply Sample.after_reachable; vm_compute; reflexivity).
  assert (Sender.heap (Sample.after Sample.sent) !! 1%positive = Some (Sample.first Sample.sent)) as Hp
    by (vm_compute; reflexivity).
  destruct (SenderInv.inv_message _ _ (SenderSystem.reachable_inv _ Hr) _ _ Hp) as [Hok Hst].
  split; [done|vm_compute; done| |vm_compute; intuition congruence..].
  assert (map_Forall (fun i d => payload d = Protocol.encode (SenderSend.header_of Sample.peer 0 2 (Sample.first Sample.sent) i)
    ++ drop 31 (payload d)) (SenderMessage.packets (Sample.first Sample.sent))) as Hall
    by (apply (bool_decide_eq_true _); vm_compute; reflexivity).
  intros i d Hd. exists (drop 31 (payload d)). by apply (Hall i d).
Qed.

Lemma sample_honest i :
  0 <= i < 3 -> honest (Sample.first Sample.sent) ReceiverSample.from
    (ReceiverSystem.OpData (ReceiverSample.data_packet i) ReceiverSample.from).
Proof.
  intros Hi _. split; [done|]. exists (ReceiverSample.data_packet i).
  assert (i = 0 \/ i = 1 \/ i = 2) as [->|[->| ->]] by lia; (split; [vm_compute; reflexivity|split; vm_compute; reflexivity]).
Qed.

Lemma sample_conversation :
  conversation (Sample.first Sample.sent) ReceiverSample.from (ReceiverSample.after ReceiverSample.handed_out).
Proof.
  eapply (conversation_follow _ _ ReceiverSample.handed_out ReceiverSample.receiver0).
  - apply conv_start; [apply ReceiverSample.receiver0_reachable|]. intros p n Hp.
    change (heap ReceiverSample.receiver0) with (∅ : gmap ptr Message) in Hp.
    rewrite lookup_empty in Hp. discriminate Hp.
  - unfold ReceiverSample.handed_out, ReceiverSample.three. simpl.
    repeat (apply Forall_cons; split; [first [apply sample_honest; lia|exact I]|]). apply Forall_nil. done.
  - vm_compute. reflexivity.
Qed.

Lemma received_message_intact_witness :
  let sm := Sample.first Sample.sent in
  let r := ReceiverSample.after ReceiverSample.handed_out in
  let m := ReceiverSample.the_message ReceiverSample.handed_out in
  messageLength m = SenderMessage.messageLength sm /\
  Receiver.get_bytes 1%positive 5 20 r = Ok (slice 5 20 (ReceiverMessage.range (SenderMessage.packets sm)
    (start m) (SenderMessage.messageLength sm - start m)), r).
Proof.
  apply (received_message_intact (Sample.first Sample.sent) Sample.peer 0 2 ReceiverSample.from);
    [apply sample_sendable|apply sample_conversation| |vm_compute; congruence..|vm_compute; reflexivity].
  split_and!; [vm_compute; reflexivity|vm_compute; congruence|]. apply (bool_decide_eq_true _). vm_compute. reflexivity.
Defined.
End TransferProps.
