(* ===== verification/LostTail.v ===== *)
(** * LostTail: the end of an unscheduled message is not asked for

    A Receiver that misses the last packet of an unscheduled message asks for the
    packets up to its unscheduled limit, which lies beyond the message; the Sender
    ignores a RESEND that ends beyond the message.  This file has a sample of its
    own, with a link fast enough for an unscheduled limit of eight packets. *)

From S2P Require Import Prelude Intrusive Util Timeout ObjectPool Perf Protocol Policy Driver SenderMessage Sender SenderInv SenderHandlers SenderSystem ReceiverMessage Receiver ReceiverInv ReceiverHandlers ReceiverTimers ReceiverSystem.
Import Driver ReceiverMessage Receiver ReceiverHandlers ReceiverTimers.

Module LostTail.

Section lost.
Context `{DriverLaws}.
Implicit Types (m : Message) (i k n : Z).

(** Ranges that are apart are maximal: the index behind one is in none. *)
Lemma apart_indices a rs i : apart a rs -> i ∈ indices rs -> a <= i.
Proof.
  revert a. induction rs as [|[k n] rs IH]; intros a; [intros _ Hi; by apply elem_of_nil in Hi|].
  cbn [apart]. intros (H1 & H2 & H3). rewrite indices_cons. intros [Hi%elem_of_seqZ|Hi]%elem_of_app; [lia|].
  specialize (IH _ H3 Hi). lia.
Qed.
Lemma apart_in a rs k n : apart a rs -> (k, n) ∈ rs -> a <= k /\ 0 < n.
Proof.
  revert a. induction rs as [|[k' n'] rs IH]; intros a; [intros _ Hi; by apply elem_of_nil in Hi|].
  cbn [apart]. intros (H1 & H2 & H3) [E|Hin]%elem_of_cons; [injection E as -> ->; lia|].
  destruct (IH _ H3 Hin). lia.
Qed.
Lemma apart_maximal a rs k n : apart a rs -> (k, n) ∈ rs -> k + n ∉ indices rs.
Proof.
  revert a. induction rs as [|[k' n'] rs IH]; intros a; [intros _ Hi; by apply elem_of_nil in Hi|].
  cbn [apart]. intros (H1 & H2 & H3). rewrite indices_cons. intros [E|Hin]%elem_of_cons [Hi%elem_of_seqZ|Hi]%elem_of_app.
  - injection E as -> ->. lia.
  - injection E as -> ->. pose proof (apart_indices _ _ _ H3 Hi). lia.
  - destruct (apart_in _ _ _ _ H3 Hin). lia.
  - by eapply IH.
Qed.
Lemma indices_in rs i : i ∈ indices rs -> exists k n, (k, n) ∈ rs /\ k <= i < k + n.
Proof.
  unfold indices. intros ([k n] & Hi & Hin)%list_elem_of_bind. apply elem_of_seqZ in Hi. simpl in Hi. eauto.
Qed.

(** The range of a request that holds the last packet ends behind the message. *)
Lemma tail_range m rs :
  message_ok m -> numExpectedPackets m < numUnscheduledPackets m ->
  indices rs = missing_from m 0 (numUnscheduledPackets m) -> apart 0 rs ->
  packets m !! (numExpectedPackets m - 1) = None ->
  (exists k n, (k, n) ∈ rs /\ k <= numExpectedPackets m - 1 < k + n) /\
  (forall k n, (k, n) ∈ rs -> k <= numExpectedPackets m - 1 < k + n -> numExpectedPackets m < k + n /\ 0 <= k).
Proof.
  intros Hok Hlim Hrs Hap Hlast. pose proof (expected_range m Hok) as He.
  assert (forall i, 0 <= i < numUnscheduledPackets m -> packets m !! i = None -> i ∈ indices rs) as Hmiss.
  { intros i Hi Hn. rewrite Hrs. unfold missing_from. apply list_elem_of_filter. split; [done|]. apply elem_of_seqZ. lia. }
  split; [apply indices_in, Hmiss; [lia|done]|]. intros k n Hin Hk. split.
  - destruct (decide (k + n = numExpectedPackets m)) as [E|]; [|lia]. exfalso.
    apply (apart_maximal 0 rs k n Hap Hin). rewrite E. apply Hmiss; [lia|].
    destruct (packets m !! numExpectedPackets m) as [d|] eqn:Hd; [|done].
    destruct (mo_packet _ Hok _ _ Hd) as (? & _). lia.
  - apply (apart_indices 0 rs k Hap). unfold indices. apply list_elem_of_bind. exists (k, n). split; [|done].
    apply elem_of_seqZ. simpl. lia.
Qed.

(** C31: When the last packet of an unscheduled message is missing and the unscheduled
    limit is larger than the message, what an elapsed resend timeout sends has a
    RESEND for a range with the last packet, and every such RESEND is ignored by the
    Sender of the message: it changes no message and sends nothing. *)
Theorem lost_tail_never_resent r q m evs (s : Sender.Sender) p (ms : SenderMessage.Message) :
  ReceiverSystem.reachable r -> heap r !! q = Some m -> scheduled m = false ->
  numExpectedPackets m < numUnscheduledPackets m -> packets m !! (numExpectedPackets m - 1) = None ->
  requested m evs ->
  SenderSystem.reachable s -> Sender.heap s !! p = Some ms -> SenderMessage.state ms <> SenderMessage.NOT_STARTED ->
  SenderMessage.id ms = id m -> SenderMessage.numPackets ms = numExpectedPackets m ->
  exists rs, resends (ip (source m)) (id m) (priority (scheduledMessageInfo m)) rs evs /\
    (exists k n, (k, n) ∈ rs /\ k <= numExpectedPackets m - 1 < k + n) /\
    forall k n packet, (k, n) ∈ rs -> k <= numExpectedPackets m - 1 < k + n ->
      read_header Protocol.ResendHeader packet =
        Protocol.ResendHeader_new (id m) k n (priority (scheduledMessageInfo m)) ->
      wp (Sender.handleResendPacket packet) s (fun _ s' => Sender.heap s' = Sender.heap s /\
        trace (Sender.world s') = trace (Sender.world s) ++ [EvRelease [pkt_id packet]]).
Proof.
  intros Hr Hm Hsch Hlim Hlast Hreq Hs Hp Hst Hid Hnum. pose proof (ReceiverSystem.rcv_reachable_inv r Hr) as Hi.
  pose proof (ReceiverInv.inv_message _ _ Hi q m Hm ltac:(done)) as Hok.
  unfold requested, grant_used in Hreq. rewrite bool_decide_false in Hreq by (rewrite Hsch; by intros [? _]).
  destruct Hreq as (rs & Hrs & Hind & Hap).
  rewrite (missing_due_below m (numUnscheduledPackets m)) in Hind;
    [|apply Hok|intros i _; unfold due; rewrite Hsch; naive_solver].
  destruct (tail_range m rs Hok Hlim Hind Hap Hlast) as [Hex Hall]. exists rs. split; [done|]. split; [done|].
  intros k n packet Hin Hk Hh. destruct (Hall k n Hin Hk) as [Hend Hk0].
  pose proof (SenderHandlers.handleResendPacket_spec packet s (SenderSystem.reachable_inv s Hs)) as Hw.
  cbv zeta in Hw. rewrite Hh in Hw. cbn in Hw. specialize (Hw Hk0). eapply wp_mono; [exact Hw|].
  intros _ s' (_ & Hon & Htr). assert (SenderHandlers.resend_in_range k (k + n) ms = false) as Hrange.
  { unfold SenderHandlers.resend_in_range. rewrite Hnum.
    replace (numExpectedPackets m <? k + n) with true by (symmetry; by apply Z.ltb_lt).
    by rewrite orb_true_r, andb_false_r. }
  split.
  - apply map_eq. intros x. rewrite Hon. destruct (Sender.heap s !! x) as [n'|] eqn:Hx; [|done]. simpl.
    case_bool_decide as Hxid; [|done]. case_bool_decide as Hxs; [done|]. simpl. f_equal.
    assert (x = p) as -> by (eapply (SenderInv.inv_ids _ _ (SenderSystem.reachable_inv s Hs)); [done..|congruence]).
    simplify_eq. unfold SenderHandlers.resend_effect. by rewrite Hrange.
  - destruct (Htr p ms Hp Hid Hst) as [fresh E]. rewrite E. unfold SenderHandlers.resend_reply. by rewrite Hrange.
Qed.
End lost.

(** ** A sample *)

#[local] Instance wide : Driver := {
  getHighestPacketPriority := 7;
  getMaxPayloadSize := 40;
  getBandwidth := 64;
  getLocalAddress := 10;
  getQueuedBytes_nth := fun _ => 0;
  payload_nth := fun _ => repeat 0 40;
  rdtsc_nth := fun n => Z.min (Z.of_nat n) 1000;
  std_hash := fun v => v
}.
#[local] Instance wide_laws : DriverLaws.
Proof. split; simpl; try (intros; lia); done. Qed.

Definition policy : Policy.Manager := Policy.Manager_new getBandwidth getHighestPacketPriority.

(** A sender that sent all three packets of a message. *)
Definition sender0 : Sender.Sender := Sender.Sender_new 1 100 50 policy World_new.
Definition sender_ops : list SenderSystem.Op :=
  [SenderSystem.OpAlloc 5; SenderSystem.OpAppend 1%positive (Z.of_nat <$> seq 1 27);
   SenderSystem.OpSend 1%positive (SenderMessage.mkSocketAddress 20 80) SenderMessage.NONE; SenderSystem.OpPoll].
Definition sender : Sender.Sender := default sender0 (SenderSystem.follow sender_ops sender0).
Definition sent : SenderMessage.Message :=
  default (SenderMessage.Message_new 0) (Sender.heap sender !! 1%positive).

(** A Receiver that got two of them. *)
Definition receiver0 : Receiver := Receiver_new 100 50 policy World_new.
Definition receiver_ops : list ReceiverSystem.Op :=
  (fun i => ReceiverSystem.OpData (default (mkPacket 1 [] 0) (SenderMessage.packets sent !! i)) 10) <$> [0; 1].
Definition receiver : Receiver := default receiver0 (ReceiverSystem.follow receiver_ops receiver0).
Definition got : Message :=
  default (Message_new 0 (Protocol.mkMessageId 0 0) (SenderMessage.mkSocketAddress 0 0) 0) (heap receiver !! 1%positive).
Definition request : list Event :=
  [EvSend 10 7 (Protocol.encode (Protocol.ResendHeader_new (id got) 2 6 0)); EvRelease [1%positive]].

Lemma sender_reachable : SenderSystem.reachable sender.
Proof.
  eapply (SenderSystem.follow_reachable sender_ops sender0); [|vm_compute; reflexivity].
  apply SenderSystem.reach_initial. exists 1, 100, 50, policy, World_new.
  split_and!; [done| |lia|lia|simpl; lia|simpl; lia].
  split_and!; [by apply Policy.manager_ok_new|by vm_compute|by vm_compute].
Qed.
Lemma receiver_reachable : ReceiverSystem.reachable receiver.
Proof.
  eapply (ReceiverSystem.rcv_follow_reachable receiver_ops receiver0); [|vm_compute; reflexivity].
  apply ReceiverSystem.reach_initial. exists 100, 50, policy, World_new.
  split_and!; [done|split; vm_compute; intuition congruence|intros n; simpl; lia|intros n; simpl; lia].
Qed.

Lemma requested_sample : requested got request.
Proof.
  unfold requested. rewrite bool_decide_false by (intros [E _]; vm_compute in E; discriminate). exists [(2, 6)]. split; [|split; [vm_compute; reflexivity|vm_compute; intuition congruence]].
  change request with (request ++ []). apply resends_cons; [|apply resends_nil].
  exists 1%positive. vm_compute. reflexivity.
Qed.

Lemma lost_tail_never_resent_witness :
  exists rs, resends (ip (source got)) (id got) (priority (scheduledMessageInfo got)) rs request /\
    (exists k n, (k, n) ∈ rs /\ k <= numExpectedPackets got - 1 < k + n) /\
    forall k n packet, (k, n) ∈ rs -> k <= numExpectedPackets got - 1 < k + n ->
      read_header Protocol.ResendHeader packet =
        Protocol.ResendHeader_new (id got) k n (priority (scheduledMessageInfo got)) ->
      wp (Sender.handleResendPacket packet) sender (fun _ s' => Sender.heap s' = Sender.heap sender /\
        trace (Sender.world s') = trace (Sender.world sender) ++ [EvRelease [pkt_id packet]]).
Proof.
  apply (lost_tail_never_resent receiver 1%positive got request sender 1%positive sent);
    [apply receiver_reachable|vm_compute; reflexivity..|apply requested_sample|apply sender_reachable
    |vm_compute; reflexivity|vm_compute; congruence|vm_compute; reflexivity|vm_compute; reflexivity].
Defined.
End LostTail.
