(* ===== verification/Wire.v ===== *)
(** * Wire: what the packets on the network say of the messages

    A log of the messages that applications sent, received and acknowledged, and what
    a packet must be like to agree with it: [brings] says that a packet is packet [i]
    of a message in the log, [wire_ok] that the bytes that a host sends are such a
    packet, the DONE of a message that was acknowledged there, or another control
    packet.  What is stored in a Sender, on the network and in a Receiver is described
    by the same predicate, since it reads the first bytes only. *)

From S2P Require Import Prelude Intrusive Util Timeout ObjectPool Perf Protocol Policy Driver SenderMessage Sender SenderInv SenderSend ReceiverMessage Receiver ReceiverHandlers Transfer.
Import Driver ReceiverMessage Receiver ReceiverHandlers Transfer.

Module Wire.

(** A message when the application called sendMessage; [o_bytes] starts with the
    headroom that was reserved and not filled. *)
Record Original := mkOriginal {
  o_source : SocketAddress;
  o_destination : SocketAddress;
  o_start : Z;
  o_bytes : list Z
}.

(** What the applications did so far: the messages they sent, which host was handed
    which message, and which host acknowledged which. *)
Record Log := mkLog {
  originals : gmap Protocol.MessageId Original;
  handed : gset (IpAddress * Protocol.MessageId);
  acked : gset (IpAddress * Protocol.MessageId)
}.

Record grows (log log' : Log) : Prop := {
  gr_originals : originals log ⊆ originals log';
  gr_handed : handed log ⊆ handed log';
  gr_acked : acked log ⊆ acked log'
}.
Lemma grows_refl log : grows log log.
Proof. by split. Qed.

Section wire.
Context `{DriverLaws}.
Implicit Types (log : Log) (o : Original) (h : Protocol.DataHeader) (bs pl : list Z) (d k : Packet) (i : Z)
  (mid : Protocol.MessageId) (addr dst : IpAddress).

Definition o_size o : Z := zlength (o_bytes o).
Definition original_ok o : Prop := 0 < o_size o <= SenderMessage.maxMessageLength.

(** [h] is the header of packet [i] of the message [mid]. *)
Record describes mid o i h : Prop := {
  ds_opcode : Protocol.opcode (Protocol.dh_common h) = Protocol.opcode_value Protocol.DATA;
  ds_id : Protocol.messageId (Protocol.dh_common h) = mid;
  ds_id_ok : Protocol.MessageId_ok mid;
  ds_sport : Protocol.bswap16 (Protocol.sport (Protocol.prefix (Protocol.dh_common h))) = port (o_source o);
  ds_total : Protocol.totalLength h = o_size o;
  ds_limit : 0 <= Protocol.unscheduledIndexLimit h <= MAX_MESSAGE_PACKETS;
  ds_index : Protocol.dh_index h = i
}.

(** The [len] bytes at the front of [pl] are packet [i] of the message [mid]. *)
Record brings mid o i (len : Z) pl : Prop := {
  br_index : 0 <= i < packets_for (o_size o);
  br_length : len = TRANSPORT_HEADER_LENGTH + chunk (o_size o) i;
  br_header : describes mid o i (Protocol.decode pl);
  br_bytes : slice TRANSPORT_HEADER_LENGTH (chunk (o_size o) i) pl =
    slice (i * PACKET_DATA_LENGTH) (chunk (o_size o) i) (o_bytes o)
}.

(** What the host at [addr] may send to [dst]. *)
Definition wire_ok log addr dst bs : Prop :=
  Protocol.header_size Protocol.CommonHeader <= zlength bs /\
  let h := Protocol.decode_CommonHeader bs in
  (Protocol.opcode h = Protocol.opcode_value Protocol.DATA ->
   exists o i, originals log !! Protocol.messageId h = Some o /\ ip (o_source o) = addr /\ ip (o_destination o) = dst /\
     original_ok o /\ brings (Protocol.messageId h) o i (zlength bs) bs) /\
  (Protocol.opcode h = Protocol.opcode_value Protocol.DONE -> (addr, Protocol.messageId h) ∈ acked log).
Definition event_ok log addr (e : Event) : Prop :=
  match e with EvSend dst _ bs => wire_ok log addr dst bs | EvRelease _ => True end.

Lemma wire_ok_mono log log' addr dst bs : grows log log' -> wire_ok log addr dst bs -> wire_ok log' addr dst bs.
Proof.
  intros [Hl _ Ha] (Hz & Hd & Hn). split; [done|]. split.
  - intros Ho. destruct (Hd Ho) as (o & i & Hlog & Hrest). exists o, i. split; [by eapply lookup_weaken|done].
  - intros Ho. by apply Ha, Hn.
Qed.
Lemma event_ok_mono log log' addr e : grows log log' -> event_ok log addr e -> event_ok log' addr e.
Proof. intros Hl. destruct e; [by apply wire_ok_mono|done]. Qed.

(** ** Headers depend on the first bytes *)

Lemma slice_same_prefix (a n : Z) (l : nat) pl pl' :
  take l pl = take l pl' -> 0 <= a -> 0 <= n -> a + n <= Z.of_nat l -> slice a n pl = slice a n pl'.
Proof.
  intros E Ha Hn Hl. unfold slice.
  assert (forall q : list Z, take (Z.to_nat n) (drop (Z.to_nat a) q) = take (Z.to_nat n) (drop (Z.to_nat a) (take l q))) as Hq.
  { intros q. rewrite !take_drop_commute, take_take. do 2 f_equal. lia. }
  by rewrite (Hq pl), (Hq pl'), E.
Qed.

Lemma decode_common_prefix (l : nat) pl pl' :
  (22 <= l)%nat -> take l pl = take l pl' -> Protocol.decode_CommonHeader pl = Protocol.decode_CommonHeader pl'.
Proof.
  intros Hl E. unfold Protocol.decode_CommonHeader, Protocol.read_le.
  by rewrite !(slice_same_prefix _ _ l pl pl' E) by lia.
Qed.
Lemma decode_data_prefix (l : nat) pl pl' :
  (31 <= l)%nat -> take l pl = take l pl' -> Protocol.decode_DataHeader pl = Protocol.decode_DataHeader pl'.
Proof.
  intros Hl E. unfold Protocol.decode_DataHeader, Protocol.read_le.
  rewrite (decode_common_prefix l pl pl') by (done || lia).
  by rewrite !(slice_same_prefix _ _ l pl pl' E) by lia.
Qed.

Lemma chunk_pos o i : original_ok o -> 0 <= i < packets_for (o_size o) -> 0 < chunk (o_size o) i <= PACKET_DATA_LENGTH.
Proof. intros [? _] Hi. by apply chunk_range. Qed.

Lemma brings_prefix mid o i len pl pl' :
  original_ok o -> brings mid o i len pl -> take (Z.to_nat len) pl = take (Z.to_nat len) pl' -> brings mid o i len pl'.
Proof.
  intros Hok [Hi Hl Hh Hb] E. pose proof (chunk_pos o i Hok Hi) as Hc.
  assert (TRANSPORT_HEADER_LENGTH = 31) as HT by done. split; [done|done| |].
  - change (Protocol.decode pl') with (Protocol.decode_DataHeader pl').
    rewrite <- (decode_data_prefix (Z.to_nat len) pl pl'); [done|lia|done].
  - rewrite <- Hb. symmetry. apply (slice_same_prefix _ _ (Z.to_nat len) pl pl' E); lia.
Qed.
(** ** Control packets *)

Definition control bs : Prop := exists c rest op,
  bs = Protocol.encode_CommonHeader c ++ rest /\ op <> Protocol.DATA /\ op <> Protocol.DONE /\
  Protocol.opcode c = Protocol.opcode_value op.

Lemma control_wire_ok log addr dst bs : control bs -> wire_ok log addr dst bs.
Proof.
  intros (c & rest & op & -> & Ho & Ho' & Hc). split.
  - rewrite zlength_app, Protocol.zlength_encode_CommonHeader. pose proof (zlength_nonneg rest). simpl. lia.
  - set (h := Protocol.decode_CommonHeader _). assert (Protocol.opcode h = Protocol.opcode_value op) as E.
    { rewrite <- Hc. unfold h, Protocol.decode_CommonHeader, Protocol.encode_CommonHeader; cbn [Protocol.opcode].
      assert (0 <= Protocol.opcode c < 256) by (rewrite Hc; destruct op; simpl; lia). Protocol.read_field. }
    cbv zeta. rewrite E. split; intros Hd; exfalso; by destruct op.
Qed.

(** DONE is the answer to an acknowledgement. *)
Lemma done_wire_ok log addr dst mid :
  Protocol.MessageId_ok mid -> (addr, mid) ∈ acked log ->
  wire_ok log addr dst (Protocol.encode (Protocol.DoneHeader_new mid)).
Proof.
  intros Hm Ha. split; [by vm_compute|]. 
  assert (Protocol.decode_CommonHeader (Protocol.encode (Protocol.DoneHeader_new mid)) =
    Protocol.done_common (Protocol.decode (Protocol.encode (Protocol.DoneHeader_new mid)))) as -> by done.
  pose proof (Protocol.decode_encode (Protocol.DoneHeader_new mid) []) as E. rewrite app_nil_r in E. rewrite E by done.
  split; [done|]. by intros _.
Qed.

Lemma control_grant mid limit prio : control (Protocol.encode (Protocol.GrantHeader_new mid limit prio)).
Proof. by eexists _, _, Protocol.GRANT. Qed.
Lemma control_resend mid idx num prio : control (Protocol.encode (Protocol.ResendHeader_new mid idx num prio)).
Proof. by eexists _, _, Protocol.RESEND. Qed.
Lemma control_busy mid : control (Protocol.encode (Protocol.BusyHeader_new mid)).
Proof. by eexists _, [], Protocol.BUSY. Qed.
Lemma control_ping mid : control (Protocol.encode (Protocol.PingHeader_new mid)).
Proof. by eexists _, [], Protocol.PING. Qed.
Lemma control_unknown mid : control (Protocol.encode (Protocol.UnknownHeader_new mid)).
Proof. by eexists _, [], Protocol.UNKNOWN. Qed.
Lemma control_error mid : control (Protocol.encode (Protocol.ErrorHeader_new mid)).
Proof. by eexists _, [], Protocol.ERROR. Qed.

(** ** DATA packets that are kept in a Sender *)

(** Packet [i] of the message [mid], in the Sender's memory. *)
Definition keeps_packet mid o i d : Prop :=
  zlength (payload d) = getMaxPayloadSize /\ brings mid o i (length d) (payload d).

Lemma keeps_packet_room mid o i d :
  original_ok o -> keeps_packet mid o i d -> TRANSPORT_HEADER_LENGTH < length d <= zlength (payload d).
Proof.
  intros Hok [Hz [Hi Hl _ _]]. pose proof (chunk_pos o i Hok Hi). pose proof SenderMessage.data_length_payload. lia.
Qed.

(** The bytes that go out. *)
Lemma keeps_packet_wire log mid o i d :
  originals log !! mid = Some o -> original_ok o -> keeps_packet mid o i d ->
  wire_ok log (ip (o_source o)) (ip (o_destination o)) (packet_bytes d).
Proof.
  intros Hlog Hok Hd. pose proof (keeps_packet_room _ _ _ _ Hok Hd) as Hr. assert (TRANSPORT_HEADER_LENGTH = 31) as HT by done.
  destruct Hd as [Hz Hb]. assert (packet_bytes d = take (Z.to_nat (length d)) (payload d)) as E by done.
  assert (zlength (packet_bytes d) = length d) as Hlen by (unfold packet_bytes; apply zlength_slice; lia).
  assert (brings mid o i (length d) (packet_bytes d)) as Hb'.
  { eapply brings_prefix; [done|exact Hb|]. rewrite E, take_take. f_equal. lia. }
  split; [rewrite Hlen; simpl; lia|]. set (h := Protocol.decode_CommonHeader _). cbv zeta.
  pose proof (br_header _ _ _ _ _ Hb') as Hh.
  assert (Protocol.messageId h = mid) as -> by apply (ds_id _ _ _ _ Hh).
  assert (Protocol.opcode h = Protocol.opcode_value Protocol.DATA) as -> by apply (ds_opcode _ _ _ _ Hh).
  split; [|done]. intros _. exists o, i. by rewrite Hlen.
Qed.

(** Writing the policy of a restarted message leaves it packet [i]. *)
Lemma keeps_packet_policy mid o i d version limit :
  original_ok o -> 0 <= limit <= MAX_MESSAGE_PACKETS ->
  keeps_packet mid o i d -> keeps_packet mid o i (Sender.set_policy_fields version limit d).
Proof.
  intros Hok Hlim Hd. pose proof (keeps_packet_room _ _ _ _ Hok Hd) as Hr. destruct Hd as [Hz [Hi Hl [D1 D2 D0 D3 D4 D5 D6] Hb]].
  assert (TRANSPORT_HEADER_LENGTH = 31) as HT by done. pose proof (chunk_pos o i Hok Hi) as Hc.
  set (w1 := write_at 26 (Protocol.le_bytes 1 version) (payload d)).
  set (w2 := write_at 27 (Protocol.le_bytes 2 limit) w1).
  assert (payload (Sender.set_policy_fields version limit d) = w2) as E by done.
  assert (zlength w1 = zlength (payload d)) as Z1 by (apply zlength_write_at; rewrite ?Protocol.zlength_le_bytes; lia).
  assert (zlength w2 = zlength w1) as Z2 by (apply zlength_write_at; rewrite ?Protocol.zlength_le_bytes; lia).
  assert (forall off n, 0 <= off -> 0 <= n -> off + n <= 26 \/ 29 <= off ->
    Protocol.read_le off n w2 = Protocol.read_le off n (payload d)) as Hother.
  { intros. unfold w2, w1. rewrite !Protocol.read_le_write_other; rewrite ?Protocol.zlength_le_bytes; try fold w1; try lia. }
  assert (Protocol.read_le 27 2 w2 = limit) as Hlimit.
  { apply (Protocol.read_le_write_same 27 2); [lia|]. unfold MAX_MESSAGE_PACKETS in Hlim. simpl. lia. }
  split; [by rewrite E, Z2, Z1|]. split; [done|done| |].
  - revert D1 D2 D3 D4 D5 D6. rewrite E. unfold Protocol.decode, Protocol.DataHeader_packet, Protocol.decode_DataHeader, Protocol.decode_CommonHeader.
    rewrite Hlimit, (Hother 29 2), !Hother by lia. intros. by split.
  - rewrite E, <- Hb. unfold w2, w1. rewrite !slice_write_at_after; rewrite ?Protocol.zlength_le_bytes; try fold w1; try done; lia.
Qed.
(** ** The packets that sendMessage prepares *)

(** What the log says of the message [m] that is sent to [to]. *)
Definition original_of (m : SenderMessage.Message) (to : SocketAddress) : Original :=
  mkOriginal (SenderMessage.source m) to (SenderMessage.start m)
    (range (SenderMessage.packets m) 0 (SenderMessage.messageLength m)).

Lemma shape_bytes ps num len j :
  SenderMessage.shape ps num len -> 0 <= j < len -> is_Some (byte_at ps j).
Proof.
  intros [S1 S2 S3 S4] Hj. destruct (SenderMessage.data_div_mod j).
  pose proof (SenderMessage.packets_for_covers len j Hj) as Hr. rewrite <- S1 in Hr.
  apply S2 in Hr as [d Hd]. unfold SenderMessage.byte_at. rewrite Hd. simpl. apply lookup_lt_is_Some.
  pose proof (S4 _ _ Hd) as Hz. pose proof SenderMessage.data_length_payload. unfold zlength in Hz.
  assert (TRANSPORT_HEADER_LENGTH = 31) by done. lia.
Qed.

Lemma original_size m to : SenderMessage.message_ok m -> o_size (original_of m to) = SenderMessage.messageLength m.
Proof.
  intros [Hs Hl _]. apply zlength_range; [lia|]. intros j Hj. eapply shape_bytes; [exact Hs|lia].
Qed.

Lemma sendable_keeps sm to version limit i d :
  sendable sm to version limit -> SenderMessage.packets sm !! i = Some d ->
  keeps_packet (SenderMessage.id sm) (original_of sm to) i d.
Proof.
  intros Hs Hd. destruct (sent_packet sm to version limit Hs i d Hd) as (Hi & Hl & Hlen & Hz).
  pose proof (sb_ok _ _ _ _ Hs) as Hok. pose proof (sent_length _ _ _ _ Hs) as Hsl. pose proof (original_size sm to Hok) as Hsize.
  assert (TRANSPORT_HEADER_LENGTH = 31) as HT by done. destruct (chunk_range (SenderMessage.messageLength sm) i) as [C1 C2]; [lia|done|].
  split; [done|]. split; rewrite ?Hsize; [done|done| |].
  - destruct (sb_header _ _ _ _ Hs i d Hd) as [body ->].
    rewrite Protocol.decode_encode by (by eapply header_is_ok).
    unfold SenderSend.header_of, Protocol.DataHeader_new. split; simpl; rewrite ?Hsize; try done.
    + by apply (sb_id _ _ _ _ Hs).
    + apply Protocol.bswap16_involutive, Hs.
    + apply Hs.
  - pose proof SenderMessage.data_length_range as HP. set (P := PACKET_DATA_LENGTH) in *.
    assert (chunk (SenderMessage.messageLength sm) i <= SenderMessage.messageLength sm - i * P) as Hc by (unfold chunk, P; lia).
    assert (i * P / P = i /\ i * P mod P = 0) as [Hq Hm] by (rewrite Z.div_mul, Z.mod_mul by lia; done).
    unfold original_of; cbn [o_bytes]. rewrite slice_range; [|nia|lia|nia|].
    2:{ intros j Hj. eapply shape_bytes; [apply Hok|lia]. }
    rewrite Z.add_0_l. rewrite (range_chunk _ (i * P) _ d); fold P; rewrite ?Hq, ?Hm; try done; lia.
Qed.

(** ** The packets that arrive *)

Lemma carries_prefix bs k : carries bs k -> take (Z.to_nat (zlength bs)) (payload k) = bs.
Proof. intros [Hl Hb _]. rewrite <- Hl. exact Hb. Qed.

Lemma carries_take bs k n :
  carries bs k -> (n <= Z.to_nat (zlength bs))%nat -> take n bs = take n (payload k).
Proof. intros Hc Hn. rewrite <- (carries_prefix bs k Hc) at 1. rewrite take_take. f_equal. lia. Qed.

(** The header of the packet that arrives is that of the bytes that were sent. *)
Lemma carries_common bs k :
  carries bs k -> Protocol.header_size Protocol.CommonHeader <= zlength bs ->
  read_header Protocol.CommonHeader k = Protocol.decode_CommonHeader bs.
Proof.
  intros Hc Hz. symmetry. change (Protocol.header_size Protocol.CommonHeader) with 22 in Hz.
  apply (decode_common_prefix 22); [lia|]. by apply carries_take; [|lia].
Qed.

Lemma wire_ok_arrives log addr dst bs k :
  wire_ok log addr dst bs -> carries bs k ->
  Protocol.opcode (read_header Protocol.CommonHeader k) = Protocol.opcode_value Protocol.DATA ->
  exists o, originals log !! data_id k = Some o /\ ip (o_source o) = addr /\ ip (o_destination o) = dst /\ original_ok o /\
    packet_ok k /\ data_source k addr = o_source o /\ Protocol.totalLength (data_header k) = o_size o /\
    brings (data_id k) o (Protocol.dh_index (data_header k)) (length k) (payload k).
Proof.
  intros (Hz & Hd & _) Hc Hop. pose proof (carries_common _ _ Hc Hz) as Hh. rewrite Hh in Hop.
  destruct (Hd Hop) as (o & i & Hlog & Ha & Hdst & Hok & Hb). rewrite <- Hh in Hlog, Hb.
  change (Protocol.messageId (read_header Protocol.CommonHeader k)) with (data_id k) in Hlog, Hb.
  assert (brings (data_id k) o i (length k) (payload k)) as Hb'.
  { rewrite (ca_length _ _ Hc). eapply brings_prefix; [done|exact Hb|]. by apply carries_take. }
  destruct Hb' as [Hi Hl [D1 D2 D0 D3 D4 D5 D6] Hbytes]. change (Protocol.decode (payload k)) with (data_header k) in *.
  exists o. split_and!; try done.
  - split; rewrite ?D4, ?D6; try done. apply Hc.
  - unfold data_source. rewrite D3, <- Ha. by destruct (o_source o).
  - rewrite D6. by split.
Qed.

(** ** What a Receiver assembled *)

Record assembled dst o (m : Message) : Prop := {
  as_id : Protocol.MessageId_ok (id m);
  as_source : source m = o_source o;
  as_destination : ip (o_destination o) = dst;
  as_length : messageLength m = o_size o;
  as_original : original_ok o;
  as_packets : forall i k, packets m !! i = Some k -> brings (id m) o i (length k) (payload k)
}.

(** The bytes of a complete message are those of the original. *)
Lemma assembled_byte dst o m j :
  message_ok m -> complete m -> assembled dst o m -> 0 <= j < o_size o ->
  byte_at (packets m) j = o_bytes o !! Z.to_nat j.
Proof.
  intros Hok Hc [_ A1 A2 A3 A4 A5] Hj. destruct (SenderMessage.data_div_mod j) as [Hdm Hm].
  pose proof SenderMessage.data_length_range as HP. set (P := PACKET_DATA_LENGTH) in *. set (i := j / P) in *.
  pose proof (SenderMessage.packets_for_covers _ j Hj) as Hi. fold P i in Hi.
  destruct (Hc i) as [k Hk]; [by rewrite (mo_expected _ Hok), A3|].
  destruct (A5 i k Hk) as [_ Hl _ Hb]. unfold SenderMessage.byte_at. fold P i. rewrite Hk. simpl.
  assert (TRANSPORT_HEADER_LENGTH = 31) as HT by done. unfold chunk in *. fold P in Hl, Hb.
  assert (Z.to_nat (TRANSPORT_HEADER_LENGTH + j mod P) = (Z.to_nat TRANSPORT_HEADER_LENGTH + Z.to_nat (j mod P))%nat) as -> by lia.
  rewrite <- (lookup_slice TRANSPORT_HEADER_LENGTH (Z.min P (o_size o - i * P))) by lia.
  rewrite Hb, lookup_slice by lia. f_equal. nia.
Qed.

Lemma assembled_range dst o m a n :
  message_ok m -> complete m -> assembled dst o m -> 0 <= a -> 0 <= n -> a + n <= o_size o ->
  range (packets m) a n = slice a n (o_bytes o).
Proof.
  intros Hok Hc Ha Ha0 Hn Hl. unfold range.
  assert (zlength (slice a n (o_bytes o)) = n) as Hz by (apply zlength_slice; done).
  rewrite <- Hz at 1. apply omap_seqZ. intros i Hi. assert (Z.of_nat i < n) by (unfold zlength in Hz; lia).
  rewrite (assembled_byte dst o m) by (done || lia). rewrite lookup_slice by lia. f_equal. lia.
Qed.
End wire.
End Wire.
