(* ===== verification/Maintains.v ===== *)
(** * Maintains: invariants of a computation, and what it returns

    [maintains I P m]: from a state where [I] holds, if [m] returns then [I] holds
    again and the result satisfies [P], which is not about the state.  The rules
    follow the structure of a computation, and pass what is known of a value on to
    the rest of it.  The second part has the operations of the driver, which
    maintain that every packet that was sent agrees with the log. *)

From S2P Require Import Prelude ObjectPool Perf Protocol Driver SenderMessage Wire.
Import Driver Wire.

Module Maintains.

Definition maintains {St A} (I : St -> Prop) (P : A -> Prop) (m : M St A) : Prop :=
  forall s, I s -> match m s with Ok (a, s') => I s' /\ P a | Error _ => True end.
Definition any {A} (_ : A) : Prop := True.

Section rules.
Context {St : Type} (I : St -> Prop).

Lemma maintains_mono {A} (P Q : A -> Prop) (m : M St A) :
  maintains I P m -> (forall a, P a -> Q a) -> maintains I Q m.
Proof. intros Hm HPQ s Hs. specialize (Hm s Hs). destruct (m s) as [[a s']|]; naive_solver. Qed.
Lemma maintains_any {A} (P : A -> Prop) (m : M St A) : maintains I P m -> maintains I any m.
Proof. intros Hm. by eapply maintains_mono. Qed.
Lemma maintains_ret {A} (P : A -> Prop) a : P a -> maintains I P (mret a).
Proof. by intros Ha s Hs. Qed.
Lemma maintains_bind {A B} (P : A -> Prop) (Q : B -> Prop) (m : M St A) (f : A -> M St B) :
  maintains I P m -> (forall a, P a -> maintains I Q (f a)) -> maintains I Q (m ≫= f).
Proof.
  intros Hm Hf s Hs. unfold mbind, M_bind. specialize (Hm s Hs). destruct (m s) as [[a s1]|]; [|done].
  destruct Hm as [Hs1 Ha]. by apply Hf.
Qed.
Lemma maintains_get : maintains I I get.
Proof. by intros s Hs. Qed.
Lemma maintains_gets {A} (f : St -> A) : maintains I any (gets f).
Proof. by intros s Hs. Qed.
Lemma maintains_modify f : (forall s, I s -> I (f s)) -> maintains I any (modify f).
Proof. intros Hf s Hs. split; [by apply Hf|done]. Qed.
Lemma maintains_fault {A} (P : A -> Prop) e : maintains I P (fault (A := A) e).
Proof. by intros s Hs. Qed.
Lemma maintains_check b : maintains I (fun _ => b = true) (check b).
Proof. by destruct b; intros s Hs. Qed.
Lemma maintains_lift {A} (r : Result A) : maintains I (fun a => r = Ok a) (lift r).
Proof. intros s Hs. unfold lift. by destruct r. Qed.
Lemma maintains_when b m : (b = true -> maintains I any m) -> maintains I any (when b m).
Proof. intros Hm. destruct b; [by apply Hm|by apply maintains_ret]. Qed.
Lemma maintains_for_each {A} (l : list A) body :
  (forall x, x ∈ l -> maintains I any (body x)) -> maintains I any (for_each l body).
Proof.
  induction l as [|x l IH]; intros Hb; [by apply maintains_ret|]. simpl.
  apply (maintains_bind any); [apply Hb; by left|]. intros _ _. apply IH. intros y Hy. apply Hb. by right.
Qed.
Lemma maintains_zoom {T A} (J : T -> Prop) (P : A -> Prop) (proj : St -> T) (inj : T -> St -> St) (m : M T A) :
  (forall s, I s -> J (proj s)) -> (forall s t, I s -> J t -> I (inj t s)) ->
  maintains J P m -> maintains I P (zoom proj inj m).
Proof.
  intros Hp Hi Hm s Hs. unfold zoom. specialize (Hm (proj s) (Hp s Hs)).
  destruct (m (proj s)) as [[a t]|]; [|done]. destruct Hm. split; [by apply Hi|done].
Qed.

(** A computation that returns, and what it maintains. *)
Lemma maintains_wp {A} (P : A -> Prop) (Q : A -> St -> Prop) (m : M St A) s :
  maintains I P m -> I s -> wp m s Q -> wp m s (fun a s' => Q a s' /\ I s' /\ P a).
Proof. intros Hm Hs. specialize (Hm s Hs). unfold wp. by destruct (m s) as [[a s']|]. Qed.
End rules.

Create HintDb maintain.
#[export] Hint Resolve maintains_gets | 5 : maintain.
#[export] Hint Resolve maintains_get maintains_fault maintains_check maintains_lift : maintain.
#[export] Hint Extern 1 (maintains _ _ (mret _)) => apply maintains_ret; done : maintain.
#[export] Hint Extern 9 (maintains _ any _) => eapply maintains_any : maintain.

(** One step through the structure of a computation; the value of a step that has
    no rule of its own is any value. *)
Ltac maintain_step :=
  first [ solve [eauto 4 with maintain]
        | apply maintains_when; intros ?
        | apply maintains_for_each; intros ? ?
        | eapply maintains_bind; [solve [eauto 4 with maintain]|intros ? ?; cbv beta in *]
        | apply (maintains_bind _ any); [|intros ? _]
        | case_match ].
Ltac maintain := cbv zeta; repeat maintain_step.

(** What holds of every object of a pool holds of those that a destruction leaves. *)
Lemma destroy_maintains {T} (R : ptr -> T -> Prop) dtor p :
  maintains (fun o => forall q t, objects o !! q = Some t -> R q t) any (destroy dtor p).
Proof.
  unfold destroy. maintain. apply maintains_modify. intros o1 Ho q t1. unfold over; cbn.
  intros [_ Hq]%lookup_delete_Some. by apply Ho.
Qed.

(** ** The driver *)

Section world.
Context `{DriverLaws}.
Variables (log : Log) (addr : IpAddress).

(** What was sent so far. *)
Definition sent_ok (w : World) : Prop := Forall (event_ok log addr) (trace w).

Lemma sent_ok_quiet w w' : trace w' = trace w -> sent_ok w -> sent_ok w'.
Proof. unfold sent_ok. by intros ->. Qed.
Lemma rdtsc_sent : maintains sent_ok any rdtsc.
Proof. by intros w Hw. Qed.
Lemma count_sent c n : maintains sent_ok any (count c n).
Proof. by intros w Hw. Qed.
Lemma getQueuedBytes_sent : maintains sent_ok any getQueuedBytes.
Proof. by intros w Hw. Qed.
Lemma allocPacket_sent : maintains sent_ok any allocPacket.
Proof. by intros w Hw. Qed.
Lemma emit_sent e : event_ok log addr e -> maintains sent_ok any (emit e).
Proof. intros He w Hw. split; [|done]. apply Forall_app. split; [done|]. by apply Forall_singleton. Qed.
Lemma releasePackets_sent ids : maintains sent_ok any (releasePackets ids).
Proof. by apply emit_sent. Qed.
Lemma sendPacket_sent k dst prio : wire_ok log addr dst (packet_bytes k) -> maintains sent_ok any (sendPacket k dst prio).
Proof. intros Hk. by apply emit_sent. Qed.
Lemma send_control_sent {Hd : Type} `{Protocol.PacketHeaderLaws Hd} dst (h : Hd) :
  wire_ok log addr dst (Protocol.encode h) -> maintains sent_ok any (send_control dst h).
Proof.
  intros Hc w Hw. pose proof (wp_send_control dst h w (fun _ w' => sent_ok w')) as Hs. unfold wp in Hs.
  destruct (send_control dst h w) as [[a w']|]; [|done]. split; [|done]. apply Hs.
  unfold sent_ok; cbn [trace]. apply Forall_app. split; [done|]. apply Forall_cons. split; [done|by apply Forall_singleton].
Qed.
End world.
#[export] Hint Resolve rdtsc_sent count_sent getQueuedBytes_sent allocPacket_sent releasePackets_sent
  sendPacket_sent control_grant control_resend control_busy control_ping
  control_unknown control_error : maintain.
#[export] Hint Extern 1 (maintains _ _ (send_control _ _)) => apply send_control_sent, control_wire_ok; auto with maintain typeclass_instances : maintain.
End Maintains.
