(* ===== verification/Outgoing.v ===== *)
(** * Outgoing: everything a Sender sends agrees with the log

    [outgoing K s] says that the messages of the Sender that were sent, [K] with
    their ids, are those of the log with every packet in place, and that so was
    every packet that went out.  No call but sendMessage changes [K]; each of them
    maintains [outgoing K], and sendMessage, which adds a message to the log,
    extends it. *)

From S2P Require Import Prelude Intrusive Util Timeout ObjectPool Perf Protocol Policy Driver SenderMessage Sender SenderInv SenderHandlers SenderSend SenderSystem ReceiverMessage Transfer Wire Maintains.
Import Driver SenderMessage Sender SenderInv SenderHandlers SenderSend Transfer Wire Maintains.

Module Outgoing.

Section outgoing.
Context `{DriverLaws}.
Implicit Types (s : Sender) (p : ptr) (m : Message) (o : Original) (mid : Protocol.MessageId).

Section calls.
Variables (log : Log) (K : gmap ptr Protocol.MessageId) (tid next : Z).

(** The message [m] is [o] of the log. *)
Record sealed mid o m : Prop := {
  sl_id : id m = mid;
  sl_original : original_ok o;
  sl_source : source m = o_source o;
  sl_destination : destination m = o_destination o;
  sl_packets : forall i d, packets m !! i = Some d -> keeps_packet mid o i d
}.

(** Some host acknowledged the message [mid]. *)
Definition confirmed mid : Prop := exists host, (host, mid) ∈ acked log.

(** What is known of the message at [p]: if it was sent, it is in the log, else it
    has nothing to send. *)
Definition known p m : Prop :=
  match K !! p with
  | Some mid => state m <> NOT_STARTED /\ exists o, originals log !! mid = Some o /\ sealed mid o m
  | None => state m <> IN_PROGRESS /\ state m <> SENT /\ state m <> COMPLETED /\ q_packets (queuedMessageInfo m) = None
  end /\
  (q_packets (queuedMessageInfo m) = None \/ q_packets (queuedMessageInfo m) = Some p) /\
  ip (source m) = getLocalAddress /\ 0 <= port (source m) < 2 ^ 16 /\
  (state m = COMPLETED -> confirmed (id m)).

(** The unscheduled limit fits the tables of the Receivers. *)
Definition limit_ok (pol : Policy.Manager) : Prop :=
  policy_ok pol /\ packets_for (Policy.RTT_BYTES pol) <= MAX_MESSAGE_PACKETS.

Record outgoing s : Prop := {
  og_tid : transportId s = tid;
  og_next : nextMessageSequenceNumber s = next;
  og_messages : forall p m, heap s !! p = Some m -> known p m;
  og_policy : limit_ok (policyManager s);
  og_sent : sent_ok log getLocalAddress (world s)
}.

(** ** Primitive steps *)

Lemma outgoing_world {A} (P : A -> Prop) (m : M World A) :
  maintains (sent_ok log getLocalAddress) P m -> maintains outgoing P (world_op m).
Proof. apply maintains_zoom; [by intros s []|]. intros s w [] Hw. by split. Qed.

Lemma outgoing_deref p : maintains outgoing (known p) (deref p).
Proof.
  unfold deref. eapply maintains_bind; [apply maintains_get|]. intros s Hs.
  destruct (heap s !! p) as [m|] eqn:Hp; [|apply maintains_fault]. apply maintains_ret. by apply (og_messages _ Hs).
Qed.
Lemma outgoing_update p f : (forall m, known p m -> known p (f m)) -> maintains outgoing any (update p f).
Proof.
  intros Hf. apply maintains_modify. intros s [Ht Hn Hm Hp Hw]. split; try done. unfold over; cbn.
  intros q m Hq. apply lookup_alter_Some in Hq as [(<- & m0 & Hm0 & ->)|[_ Hq]]; [apply Hf|]; by apply Hm.
Qed.
Lemma outgoing_bucket b f : maintains outgoing any (update_bucket b f).
Proof. apply maintains_modify. intros s []. by split. Qed.
Lemma find_in_id h mid l p : find_in h mid l = Ok (Some p) -> exists m, h !! p = Some m /\ id m = mid.
Proof.
  induction l as [|q l IH]; simpl; [done|]. destruct (h !! q) as [m|] eqn:Hq; [|done].
  destruct (Protocol.eqMessageId (id m) mid) eqn:He; [|done]. intros [= <-]. exists m. split; [done|].
  rewrite Protocol.eqMessageId_spec in He. by apply bool_decide_eq_true in He.
Qed.
Definition found mid (r : option ptr) : Prop := forall p mid', r = Some p -> K !! p = Some mid' -> mid' = mid.
Lemma outgoing_findMessage b mid : maintains outgoing (found mid) (findMessage b mid).
Proof.
  intros s Hs. unfold findMessage, get, lift, mbind, M_bind. destruct (find_in _ _ _) as [[p|]|] eqn:Hf; [|by split|done].
  split; [done|]. intros p' mid' [= <-] Hk. destruct (find_in_id _ _ _ _ Hf) as (m & Hp & <-).
  destruct (og_messages _ Hs p m Hp) as [Hm _]. rewrite Hk in Hm. destruct Hm as (_ & o & _ & [<- _ _ _ _]). done.
Qed.
Lemma outgoing_downCast_u16 n : maintains outgoing (fun a => a = u16 n) (Util.downCast_u16_of_int n).
Proof. unfold Util.downCast_u16_of_int, Util.downCast. maintain. Qed.
Lemma outgoing_resendPriority : maintains outgoing any (policy_op (gets Policy.getResendPriority)).
Proof. intros s []. by split. Qed.
Lemma outgoing_unscheduled dst len :
  maintains outgoing (fun pol => 0 <= unscheduled_limit pol <= MAX_MESSAGE_PACKETS)
    (policy_op (Policy.getUnscheduledPolicy dst len)).
Proof.
  intros s [Ht Hn Hm [Hp Hl] Hw]. unfold policy_op, zoom.
  pose proof (Policy.getUnscheduledPolicy_wp dst len (policyManager s) (fun pol pm' =>
    unscheduled_limit pol = packets_for (Policy.RTT_BYTES (policyManager s)) /\ 0 <= unscheduled_limit pol /\ limit_ok pm')) as Hg.
  unfold wp in Hg. destruct (Policy.getUnscheduledPolicy dst len (policyManager s)) as [[pol pm']|]; [|done].
  destruct Hg as (E & E0 & Hpm); [apply Hp| |split; [by split|lia]].
  intros pol' pm'' Hok _ _ Hu Hr _ _. destruct (unscheduled_limit_eq pol' s Hp Hu) as [? ?].
  split_and!; [done|lia|]. split; rewrite ?Hr; [|done]. destruct Hp as (? & ? & ?). split_and!; [done|by rewrite Hr..].
Qed.
#[local] Hint Resolve outgoing_world outgoing_deref outgoing_bucket outgoing_findMessage outgoing_downCast_u16
  outgoing_resendPriority outgoing_unscheduled : maintain.

(** Changes that leave what was sent alone. *)
Lemma known_ext p m m' :
  id m' = id m -> source m' = source m -> destination m' = destination m -> packets m' = packets m ->
  q_packets (queuedMessageInfo m') = q_packets (queuedMessageInfo m) ->
  (state m <> NOT_STARTED -> state m' <> NOT_STARTED) ->
  (state m' = IN_PROGRESS \/ state m' = SENT -> is_Some (K !! p) \/ state m' = state m) ->
  (state m' = COMPLETED -> state m = COMPLETED) ->
  known p m -> known p m'.
Proof.
  intros E1 E2 E3 E4 E5 Hs Hp Hc (Hk & Hq & Ha & Hport & Hd). split.
  2:{ rewrite E5, E2, E1. do 3 (split; [done|]). intros Hst. by apply Hd, Hc. }
  revert Hk Hp Hc.
  destruct (K !! p) as [mid|]; rewrite ?E5.
  - intros (Hst & o & Hl & [S1 S2 S3 S4 S5]) _ _. split; [by apply Hs|]. exists o. split; [done|].
    split; rewrite ?E1, ?E2, ?E3, ?E4; done.
  - intros (H1 & H2 & H3 & H4) Hp Hc. split_and!; [| |by intros E%Hc|done]; intros E;
      (destruct Hp as [[? ?]|Hp]; [auto|done|congruence]).
Qed.

Lemma outgoing_info p f : (forall i, q_packets (f i) = q_packets i) -> maintains outgoing any (update_info p f).
Proof. intros Hf. apply outgoing_update. intros m. apply known_ext; try done; [apply Hf|auto..]. Qed.
Lemma outgoing_held p b : maintains outgoing any (update p (fun m => m <| held := b |>)).
Proof. apply outgoing_update. intros m. apply known_ext; auto. Qed.
Lemma outgoing_state p st :
  st <> NOT_STARTED -> st <> COMPLETED -> (st = IN_PROGRESS \/ st = SENT -> is_Some (K !! p)) ->
  maintains outgoing any (set_state p st).
Proof. intros Hst Hc Hk. apply outgoing_update. intros m. apply known_ext; try done. intros Hs. left. by apply Hk. Qed.
Lemma outgoing_close p st : st = CANCELED \/ st = FAILED -> maintains outgoing any (set_state p st).
Proof. intros Hst. apply outgoing_state; intuition congruence. Qed.
Lemma outgoing_complete p mid : K !! p = Some mid -> confirmed mid -> maintains outgoing any (set_state p COMPLETED).
Proof.
  intros Hk Hc. apply outgoing_update. intros m (Hm & Hq & Ha & Hport & _). split; [|do 3 (split; [done|])].
  - rewrite Hk in *. destruct Hm as (_ & o & Ho & [S1 S2 S3 S4 S5]). split; [done|]. exists o. by split.
  - intros _. rewrite Hk in Hm. destruct Hm as (_ & o & _ & Hs). change (confirmed (id m)). by rewrite (sl_id _ _ _ Hs).
Qed.

Lemma outgoing_set_messageTimeout b p : maintains outgoing any (set_messageTimeout b p).
Proof. unfold set_messageTimeout. maintain. Qed.
Lemma outgoing_set_pingTimeout b p : maintains outgoing any (set_pingTimeout b p).
Proof. unfold set_pingTimeout. maintain. Qed.
#[local] Hint Resolve outgoing_set_messageTimeout outgoing_set_pingTimeout outgoing_held : maintain.
#[local] Hint Extern 1 (maintains _ _ (update_info _ _)) => apply outgoing_info; done : maintain.
#[local] Hint Extern 1 (maintains _ _ (set_state _ _)) => apply outgoing_close; tauto : maintain.
#[local] Hint Extern 3 (maintains _ _ (modify _)) => apply maintains_modify; by intros ? [] : maintain.
Lemma outgoing_set_timeouts b p : maintains outgoing any (set_timeouts b p).
Proof. unfold set_timeouts. maintain. Qed.
Lemma outgoing_cancel_ping b p : maintains outgoing any (cancel_pingTimeout b p).
Proof. unfold cancel_pingTimeout. maintain. Qed.
Lemma outgoing_cancel_timeouts b p : maintains outgoing any (cancel_timeouts b p).
Proof. unfold cancel_timeouts, cancel_messageTimeout, cancel_pingTimeout. maintain. Qed.
Lemma outgoing_release k : maintains outgoing any (release_packet k).
Proof. unfold release_packet. maintain. Qed.
Lemma outgoing_queue_remove p : maintains outgoing any (queue_remove p).
Proof. unfold queue_remove. maintain. Qed.
Lemma outgoing_queue_insert p : maintains outgoing any (queue_insert p).
Proof. unfold queue_insert. maintain. Qed.
Lemma outgoing_queue_prioritize p : maintains outgoing any (queue_prioritize p).
Proof. unfold queue_prioritize. maintain. Qed.
#[local] Hint Resolve outgoing_set_timeouts outgoing_cancel_ping outgoing_cancel_timeouts outgoing_release
  outgoing_queue_remove outgoing_queue_insert outgoing_queue_prioritize : maintain.

Lemma outgoing_destruct dtor p : maintains outgoing any (allocator_op (destroy dtor p)).
Proof.
  unfold allocator_op. eapply maintains_zoom; [| |apply (destroy_maintains known)]; [by intros s' []|].
  intros s' o [] Ho. by split.
Qed.
#[local] Hint Resolve outgoing_destruct : maintain.
Lemma outgoing_destroy p : maintains outgoing any (destroy_message p).
Proof. unfold destroy_message. maintain. Qed.
#[local] Hint Resolve outgoing_destroy : maintain.
Lemma outgoing_remove b p : maintains outgoing any (remove_message b p).
Proof. unfold remove_message. maintain. Qed.
Lemma outgoing_dequeue p : maintains outgoing any (dequeue_in_progress p).
Proof. unfold dequeue_in_progress. maintain. Qed.
#[local] Hint Resolve outgoing_remove outgoing_dequeue : maintain.
(** ** Sending a packet *)

Lemma outgoing_send_data k to prio :
  wire_ok log getLocalAddress to (packet_bytes k) -> maintains outgoing any (send_data k to prio).
Proof. intros Hk. unfold send_data. maintain. Qed.

Lemma outgoing_info_packets p m :
  known p m -> maintains outgoing (fun pm => known p pm /\ is_Some (K !! p)) (info_packets (queuedMessageInfo m)).
Proof.
  intros (Hk & Hq & _). unfold info_packets. destruct Hq as [Hq|Hq]; rewrite Hq; [apply maintains_fault|].
  eapply maintains_mono; [apply outgoing_deref|]. intros pm Hpm. split; [done|].
  destruct (K !! p); [by eexists|]. destruct Hk as (_ & _ & _ & E). congruence.
Qed.

Lemma getPacket_lookup m i d : getPacket m i = Ok (Some d) -> packets m !! i = Some d.
Proof. unfold getPacket. case_match; [by intros [=]|done]. Qed.

(** The packets of a message that was sent agree with the log. *)
Lemma known_wire p m pm i d :
  known p m -> known p pm -> is_Some (K !! p) -> packets pm !! i = Some d ->
  wire_ok log getLocalAddress (ip (destination m)) (packet_bytes d).
Proof.
  intros (Hm & _ & Ha & _) (Hpm & _) [mid Hmid] Hd. rewrite Hmid in Hm, Hpm.
  destruct Hm as (_ & o & Ho & [S1 S2 S3 S4 S5]), Hpm as (_ & o' & Ho' & [T1 T2 T3 T4 T5]).
  assert (o' = o) as -> by congruence. rewrite <- Ha, S3, S4. eapply keeps_packet_wire; [done|done|by apply (T5 i)].
Qed.
Lemma known_sends p m pm i d :
  known p m -> known p pm /\ is_Some (K !! p) -> getPacket pm i = Ok (Some d) ->
  wire_ok log getLocalAddress (ip (destination m)) (packet_bytes d).
Proof. intros Hm [Hpm Hk] Hd. by eapply (known_wire p m pm i), getPacket_lookup. Qed.
#[local] Hint Resolve outgoing_info_packets : maintain.
#[local] Hint Extern 2 (maintains _ _ (send_data _ _ _)) => eapply outgoing_send_data, known_sends; eassumption : maintain.

Lemma outgoing_send_single b p prio : is_Some (K !! p) -> maintains outgoing any (send_single b p prio).
Proof.
  intros Hk. unfold send_single. eapply maintains_bind; [apply outgoing_deref|]. intros m Hm.
  eapply maintains_bind; [apply maintains_lift|]. intros [d|] Hd; [|apply maintains_fault].
  eapply maintains_bind; [eapply outgoing_send_data, known_sends; [done|by split|done]|]. intros _ _.
  apply (maintains_bind _ any); [by apply outgoing_state|]. intros _ _. maintain.
Qed.

(** ** Incoming packets *)

Lemma known_sent p m : known p m -> state m = IN_PROGRESS \/ state m = SENT -> is_Some (K !! p).
Proof. intros [Hk _] Hst. destruct (K !! p); [by eexists|]. destruct Hk as (? & ? & _). by destruct Hst. Qed.

Lemma outgoing_handleDonePacket k :
  confirmed (Protocol.messageId (read_header Protocol.CommonHeader k)) -> maintains outgoing any (handleDonePacket k).
Proof.
  intros Hc. unfold handleDonePacket. cbv zeta. eapply maintains_bind; [apply outgoing_findMessage|].
  intros [p|] Hf; [|maintain]. eapply maintains_bind; [apply outgoing_deref|]. intros m Hm.
  apply (maintains_bind _ any); [|maintain]. destruct (state m) eqn:Hst; try by apply maintains_ret.
  destruct (known_sent p m Hm) as [mid Hmid]; [by right|].
  assert (maintains outgoing any (set_state p COMPLETED)) by (eapply outgoing_complete; [done|by rewrite (Hf p mid)]). maintain.
Qed.
Lemma outgoing_handleErrorPacket k : maintains outgoing any (handleErrorPacket k).
Proof. unfold handleErrorPacket. maintain. Qed.
Lemma outgoing_handleGrantPacket k : maintains outgoing any (handleGrantPacket k).
Proof. unfold handleGrantPacket. maintain. Qed.
Lemma outgoing_handleResendPacket k : maintains outgoing any (handleResendPacket k).
Proof. unfold handleResendPacket. maintain. Qed.

Lemma outgoing_policy_fields p m i version limit d :
  is_Some (K !! p) -> known p m -> 0 <= limit <= MAX_MESSAGE_PACKETS -> getPacket m i = Ok (Some d) ->
  maintains outgoing any (update p (fun m => m <| packets ::= <[i := set_policy_fields version limit d]> |>)).
Proof.
  intros [mid Hmid] (Hm & _) Hlim Hd%getPacket_lookup. rewrite Hmid in Hm. destruct Hm as (_ & o & Ho & Hs).
  apply outgoing_update. intros m' (Hk & Hq & Ha). split; [|done]. rewrite Hmid in *.
  destruct Hk as (Hst & o' & Ho' & [S1 S2 S3 S4 S5]). assert (o' = o) as -> by congruence. split; [done|].
  exists o. split; [done|]. split; try done. unfold over; cbn.
  intros j d' [[<- <-]|[_ Hd']]%lookup_insert_Some; [|by apply S5]. apply keeps_packet_policy; [done|done|by apply Hs].
Qed.

Lemma outgoing_restart b p : is_Some (K !! p) -> maintains outgoing any (restart_message b p).
Proof.
  intros Hk. unfold restart_message. eapply maintains_bind; [apply outgoing_deref|]. intros m Hm.
  apply (maintains_bind _ any); [maintain|]. intros _ _.
  apply (maintains_bind _ any); [by apply outgoing_state|]. intros _ _.
  eapply maintains_bind; [apply outgoing_unscheduled|]. intros pol Hpol.
  pose proof (outgoing_send_single b p (Policy.u_priority pol) Hk) as Hsingle.
  apply (maintains_bind _ any); [|intros _ _; maintain]. apply maintains_for_each. intros i _.
  eapply maintains_bind; [apply outgoing_deref|]. intros m' Hm'. eapply maintains_bind; [apply maintains_lift|].
  intros [d|] Hd; [|apply maintains_fault].
  eapply maintains_bind; [apply outgoing_downCast_u16|]. intros limit ->.
  rewrite u16_small by (unfold MAX_MESSAGE_PACKETS in Hpol; lia). by eapply outgoing_policy_fields.
Qed.

Lemma outgoing_handleUnknownPacket k : maintains outgoing any (handleUnknownPacket k).
Proof.
  unfold handleUnknownPacket. cbv zeta. eapply maintains_bind; [apply outgoing_findMessage|]. intros [p|] _; [|maintain].
  eapply maintains_bind; [apply outgoing_deref|]. intros m Hm. eapply maintains_bind; [apply maintains_check|]. intros _ _.
  apply (maintains_bind _ any); [|maintain]. destruct (negb _ && negb _) eqn:Hb; [maintain|].
  assert (is_Some (K !! p)) as Hk.
  { apply (known_sent p m Hm). apply andb_false_iff in Hb as [Hb|Hb]; bool_to_prop; tauto. }
  pose proof (outgoing_restart (getBucket (Protocol.messageId (Protocol.unknown_common (read_header Protocol.UnknownHeader k)))) p Hk).
  maintain.
Qed.

(** ** Calls of the application *)

Lemma outgoing_cancelMessage p : maintains outgoing any (cancelMessage p).
Proof. unfold cancelMessage. maintain. Qed.
Lemma outgoing_dropMessage p : maintains outgoing any (dropMessage p).
Proof. unfold dropMessage. maintain. Qed.

(** ** Timeouts *)

Lemma outgoing_message_timeout_loop fuel t b : maintains outgoing any (message_timeout_loop fuel t b).
Proof. induction fuel; simpl; maintain. Qed.
Lemma outgoing_ping_timeout_loop fuel t b : maintains outgoing any (ping_timeout_loop fuel t b).
Proof. induction fuel; simpl; maintain. Qed.
#[local] Hint Resolve outgoing_message_timeout_loop outgoing_ping_timeout_loop : maintain.
Lemma outgoing_checkTimeouts : maintains outgoing any checkTimeouts.
Proof. unfold checkTimeouts, checkPingTimeouts, checkMessageTimeouts. maintain. Qed.

(** ** Sending *)

Lemma outgoing_send_granted fuel p est busy : maintains outgoing any (send_granted fuel p est busy).
Proof. revert est busy. induction fuel; intros est busy; simpl; maintain. Qed.
#[local] Hint Resolve outgoing_send_granted outgoing_checkTimeouts : maintain.

Lemma outgoing_send_queue fuel it est busy sent : maintains outgoing any (send_queue fuel it est busy sent).
Proof.
  revert it est busy sent. induction fuel as [|fuel IH]; intros it est busy sent; simpl; [maintain|].
  destruct it as [p|]; [|maintain]. eapply maintains_bind; [apply outgoing_deref|]. intros m Hm.
  eapply maintains_bind; [apply maintains_check|]. intros ? Hst. cbv beta in Hst. bool_to_prop.
  assert (is_Some (K !! p)) as Hk by (apply (known_sent p m Hm); by left).
  assert (maintains outgoing any (set_state p SENT)) by (by apply outgoing_state).
  assert (maintains outgoing any (retire p)) by (unfold retire, retire_steps; simpl; maintain). maintain.
Qed.
#[local] Hint Resolve outgoing_send_queue : maintain.
Lemma outgoing_finish_sent mid : maintains outgoing any (finish_sent mid).
Proof. unfold finish_sent. maintain. Qed.
#[local] Hint Resolve outgoing_finish_sent : maintain.
Lemma outgoing_trySend : maintains outgoing any trySend.
Proof. unfold trySend, trySend_queue. maintain. Qed.
#[local] Hint Resolve outgoing_trySend : maintain.
Lemma outgoing_poll : maintains outgoing any poll.
Proof. unfold poll. maintain. Qed.
End calls.

(** ** Calls that change what the Sender has to send *)

Lemma outgoing_mono log log' K tid next s : grows log log' -> outgoing log K tid next s -> outgoing log' K tid next s.
Proof.
  intros Hl [? ? Hm ? Hs]. split; try done.
  - intros p m Hp. destruct (Hm p m Hp) as (Hk & ? & ? & ? & Hd). split.
    + destruct (K !! p); [|done]. destruct Hk as (? & o & ? & ?). split; [done|]. exists o.
      split; [by eapply lookup_weaken, Hl|done].
    + do 3 (split; [done|]). intros Hc. destruct (Hd Hc) as [host Ha]. exists host. by apply Hl.
  - eapply Forall_impl; [exact Hs|]. intros e. by apply event_ok_mono.
Qed.

(** What is not in the heap has no place in [K]. *)
Lemma outgoing_free log K tid next s p :
  outgoing log K tid next s -> heap s !! p = None -> outgoing log (delete p K) tid next s.
Proof.
  intros [? ? Hm ? ?] Hp. split; try done. intros q m Hq. unfold known.
  rewrite lookup_delete_ne by congruence. by apply Hm.
Qed.

Lemma outgoing_allocMessage log K tid next sp s :
  SenderInv.inv None s -> outgoing log K tid next s -> 0 <= sp < 2 ^ 16 ->
  wp (allocMessage sp) s (fun _ s' => exists K', outgoing log K' tid next s').
Proof.
  intros Hi Ho Hsp. unfold allocMessage, world_op, count, allocator_op. repeat wp_step.
  eapply construct_wp; [apply Hi|]. intros p o Hp Hobj Hpo. wp_step. exists (delete p K).
  destruct (outgoing_free _ _ _ _ _ p Ho Hp) as [? ? Hm ? ?]. split; try done. unfold over; cbn. rewrite Hobj.
  intros q m [[<- <-]|[_ Hq]]%lookup_insert_Some; [|by apply Hm]. unfold known. rewrite lookup_delete_eq.
  split; [done|]. split; [by left|]. by do 2 (split; [done|]).
Qed.

(** What a call that fills the message [m] leaves alone. *)
Definition drafted m w (t : MessageState) : Prop :=
  state (message t) = state m /\ queuedMessageInfo (message t) = queuedMessageInfo m /\ source (message t) = source m /\
  trace (mworld t) = trace w.

Lemma outgoing_message_op log K tid next p m op s :
  outgoing log K tid next s -> heap s !! p = Some m -> state m = NOT_STARTED ->
  wp op (mkMessageState m (world s)) (fun _ t => drafted m (world s) t) ->
  wp (message_op p op) s (fun _ s' => outgoing log K tid next s').
Proof.
  intros [? ? Hm ? Hs] Hp Hst Hop. unfold message_op. wp_step. eapply wp_deref; [done|]. repeat wp_step.
  apply wp_ok in Hop as ([] & t & E & D1 & D2 & D3 & D4). unfold wp at 1, lift. rewrite E. unfold world_op. repeat wp_step.
  apply wp_update. split; try done; [|by apply (sent_ok_quiet _ _ _ _ D4)]. unfold over; cbn.
  intros q n Hq. apply lookup_alter_Some in Hq as [(<- & n0 & Hn0 & ->)|[_ Hq]]; [|by apply Hm].
  pose proof (Hm p m Hp) as (Hk & Hq' & Ha & Hport & _). unfold known in *. rewrite D2, D3. split.
  { destruct (K !! p); [by destruct Hk|]. by rewrite D1. }
  do 3 (split; [done|]). rewrite D1, Hst. done.
Qed.

Lemma append_drafted m w bytes :
  message_ok m -> messageLength m + zlength bytes < 2 ^ 31 ->
  wp (SenderMessage.append bytes) (mkMessageState m w) (fun _ t => drafted m w t).
Proof. intros Hok Hl. by apply append_wp. Qed.
Lemma prepend_drafted m w bytes :
  message_ok m -> zlength bytes <= start m -> wp (SenderMessage.prepend bytes) (mkMessageState m w) (fun _ t => drafted m w t).
Proof. intros Hok Hl. by apply prepend_wp. Qed.
Lemma reserve_drafted m w n :
  message_ok m -> start m = messageLength m -> 0 <= n -> messageLength m + n < 2 ^ 31 ->
  wp (SenderMessage.reserve n) (mkMessageState m w) (fun _ t => drafted m w t).
Proof. intros Hok Hs Hn Hl. by apply reserve_wp. Qed.

(** ** sendMessage *)

Lemma range_same_bytes ps ps' a n : same_bytes ps ps' -> ReceiverMessage.range ps' a n = ReceiverMessage.range ps a n.
Proof. intros Hs. apply omap_ext_elem. intros k _. apply Hs. Qed.

(** The log with the message [m] that is sent from [s]. *)
Definition log_send (log : Log) s m dst : Log :=
  mkLog (<[Protocol.mkMessageId (transportId s) (nextMessageSequenceNumber s) := original_of m dst]> (originals log)) (handed log) (acked log).
Lemma log_send_grows log s m dst :
  originals log !! Protocol.mkMessageId (transportId s) (nextMessageSequenceNumber s) = None -> grows log (log_send log s m dst).
Proof. intros Hl. split; [by apply insert_subseteq|done..]. Qed.

Lemma outgoing_sendMessage log K tid next p m dst opts s :
  SenderInv.inv None s -> outgoing log K tid next s -> SenderSystem.draft p m s -> 0 < numPackets m ->
  0 <= next < 2 ^ 64 - 1 -> 0 <= tid < 2 ^ 64 -> originals log !! Protocol.mkMessageId tid next = None ->
  wp (sendMessage p dst opts) s (fun _ s' =>
    exists K', outgoing (log_send log s m dst) K' tid (next + 1) s').
Proof.
  intros Hi Ho [[Hp Hh] Hst] Hn Hnext Htid Hfresh. pose proof (og_next _ _ _ _ _ Ho) as En. pose proof (og_tid _ _ _ _ _ Ho) as Et.
  pose proof (og_messages _ _ _ _ _ Ho p m Hp) as (Hk & Hq & Hip & Hport & _).
  eapply sendMessage_spec; [done..|by rewrite En|].
  intros s' policy m' Hi' Hheap Hv Hl _ Hsent Hmulti Hone (S1 & S2 & S3). rewrite Et, En in *.
  set (mid := Protocol.mkMessageId tid next) in *. exists (<[p := mid]> K).
  pose proof (log_send_grows log s m dst) as Hgrow. unfold log_send in *. rewrite Et, En in *. fold mid in Hgrow |- *.
  assert (heap s' !! p = Some m') as Hp' by (rewrite Hheap; apply lookup_insert_eq).
  destruct (og_policy _ _ _ _ _ Ho) as [Hpol Hlim].
  pose proof (sent_sendable s' p mid dst opts _ policy m m' Hi' Hp' Hsent ltac:(by split; simpl; lia) Hport Hv
    (conj (proj1 Hl) Hlim)) as Hsend. pose proof Hsent as [E1 E2 _ E3 E4 _ E5 E6 _ E7 E8 E9].
  assert (original_of m' dst = original_of m dst) as Eo.
  { unfold original_of. rewrite E3, E4, E6. f_equal. by apply range_same_bytes. }
  assert (sealed mid (original_of m dst) m') as Hsealed.
  { rewrite <- Eo. split; [done| |done|done|].
    - unfold original_ok. rewrite original_size by apply Hsend. by eapply sent_length.
    - intros i d Hd. rewrite <- E1. by eapply sendable_keeps. }
  apply (outgoing_mono _ _ _ _ _ _ (Hgrow Hfresh)) in Ho.
  destruct Ho as [_ _ Hm _ Hs]. split; [by rewrite S1|by rewrite S2| | |].
  - rewrite Hheap. intros q n [[<- <-]|[Hne Hqn]]%lookup_insert_Some.
    + unfold known. rewrite lookup_insert_eq. split; [split|].
      * rewrite E7. by case_match.
      * exists (original_of m dst). split; [apply lookup_insert_eq|done].
      * rewrite E3. split.
        2:{ do 2 (split; [done|]). rewrite E7. by case_match. }
        destruct (decide (2 <= numPackets m)) as [H2|H2].
        -- right. apply E8; done.
        -- left. rewrite E9 by lia. destruct (K !! p); [by destruct Hk|]. apply Hk.
    + unfold known. rewrite lookup_insert_ne by done. by apply Hm.
  - split; [apply Hi'|]. by rewrite S3.
  - destruct (decide (numPackets m = 1)) as [H1|H1].
    + destruct (Hone H1) as (d & Hd & Ht). unfold sent_ok. rewrite Ht. apply Forall_app. split; [done|].
      apply Forall_singleton. rewrite <- Hip. change (source m) with (o_source (original_of m dst)).
      eapply (keeps_packet_wire _ mid (original_of m dst) 0); [apply lookup_insert_eq|apply Hsealed|by apply Hsealed].
    + destruct Hmulti as (_ & _ & Ht); [lia|]. by apply (sent_ok_quiet _ _ _ _ Ht).
Qed.

(** ** Every call *)

(** The log after the call, and the next sequence number. *)
Definition log_after (log : Log) (o : SenderSystem.Op) s : Log :=
  match o with
  | SenderSystem.OpSend p dst _ => match heap s !! p with Some m => log_send log s m dst | None => log end
  | _ => log
  end.
Definition next_after (o : SenderSystem.Op) (next : Z) : Z :=
  match o with SenderSystem.OpSend _ _ _ => next + 1 | _ => next end.
(** The argument of allocMessage is a 16-bit port. *)
Definition typed (o : SenderSystem.Op) : Prop :=
  match o with SenderSystem.OpAlloc sp => 0 <= sp < 2 ^ 16 | _ => True end.

(** The calls that leave [K] alone. *)
Definition steady_call (o : SenderSystem.Op) : bool :=
  match o with
  | SenderSystem.OpAlloc _ | SenderSystem.OpAppend _ _ | SenderSystem.OpPrepend _ _ | SenderSystem.OpReserve _ _
  | SenderSystem.OpSend _ _ _ | SenderSystem.OpDone _ => false
  | _ => true
  end.

Lemma outgoing_steady log K tid next (o : SenderSystem.Op) :
  steady_call o = true -> maintains (outgoing log K tid next) any (SenderSystem.run o).
Proof.
  destruct o; try done; intros _.
  - apply outgoing_cancelMessage.
  - apply outgoing_dropMessage.
  - apply outgoing_handleResendPacket.
  - apply outgoing_handleGrantPacket.
  - apply outgoing_handleUnknownPacket.
  - apply outgoing_handleErrorPacket.
  - apply outgoing_poll.
Qed.

Lemma outgoing_run log K tid next (o : SenderSystem.Op) s :
  SenderInv.inv None s -> outgoing log K tid next s -> SenderSystem.allowed o s -> typed o ->
  match o with SenderSystem.OpDone _ => False | _ => True end ->
  0 <= tid < 2 ^ 64 -> originals log !! Protocol.mkMessageId tid next = None ->
  wp (SenderSystem.run o) s (fun _ s' => exists K', outgoing (log_after log o s) K' tid (next_after o next) s').
Proof.
  intros Hi Ho Ha Ht Hnd Htid Hfresh. destruct (steady_call o) eqn:Hst.
  { pose proof (SenderSystem.run_spec o s Hi Ha) as Hw. eapply wp_mono;
      [eapply maintains_wp; [by apply outgoing_steady|exact Ho|exact Hw]|].
    intros [] s' (_ & Ho' & _). exists K. by destruct o. }
  assert (forall p op m, heap s !! p = Some m -> state m = NOT_STARTED ->
    wp op (mkMessageState m (world s)) (fun _ t => drafted m (world s) t) ->
    wp (message_op p op) s (fun _ s' => exists K', outgoing log K' tid next s')) as Hdraft.
  { intros p op m Hp Hst' Hop. eapply wp_mono; [by eapply outgoing_message_op|]. intros ? s' Ho'. by exists K. }
  assert (forall p m, heap s !! p = Some m -> message_ok m) as Hok by (intros p m Hp; by apply (SenderInv.inv_message _ _ Hi p)).
  destruct o as [sp|p bytes|p bytes|p c|p dst opts|p|p|k|k|k|k|k|]; try done; simpl in *.
  - wp_step. by apply (wp_mono _ _ _ _ (outgoing_allocMessage log K tid next sp s Hi Ho Ht)).
  - destruct Ha as (m & [[Hp Hh] Hs] & Hl). apply (Hdraft p _ m Hp Hs). by eapply append_drafted; [eapply Hok|].
  - destruct Ha as (m & [[Hp Hh] Hs] & Hl). apply (Hdraft p _ m Hp Hs). by eapply prepend_drafted; [eapply Hok|].
  - destruct Ha as (m & [[Hp Hh] Hs] & Hl & ? & ?). apply (Hdraft p _ m Hp Hs). by eapply reserve_drafted; [eapply Hok|..].
  - destruct Ha as (m & Hd & Hn & ?). rewrite (proj1 (proj1 Hd)). eapply outgoing_sendMessage; try done.
    by rewrite <- (og_next _ _ _ _ _ Ho).
Qed.
End outgoing.
End Outgoing.
