(* ===== verification/Incoming.v ===== *)
(** * Incoming: what a Receiver sends, and what it has assembled

    A Receiver sends control packets only ([replies]); and when the packets that it
    is given agree with the log, every message it holds is an original of the log
    with some of its packets ([gathered]).  A complete message is in the queue or was
    handed to the application ([accounted]). *)

From S2P Require Import Prelude Intrusive Util Timeout ObjectPool Perf Protocol Policy Driver SenderMessage ReceiverMessage Receiver ReceiverInv ReceiverHandlers ReceiverSystem Transfer Wire Maintains.
Import Driver ReceiverMessage Receiver ReceiverHandlers Transfer Wire Maintains.

Module Incoming.

Section incoming.
Context `{DriverLaws}.
Implicit Types (s : Receiver) (p : ptr) (m : Message).
Variables (log : Log) (addr : IpAddress).

(** ** Replies *)

Definition replies s : Prop := sent_ok log addr (world s).

Lemma replies_world {A} (P : A -> Prop) (m : M World A) :
  maintains (sent_ok log addr) P m -> maintains replies P (world_op m).
Proof. by apply maintains_zoom. Qed.
Lemma replies_allocator {A} (m : M (ObjectPool Message) A) : maintains replies any (allocator_op m).
Proof. intros s Hs. unfold allocator_op, zoom. by destruct (m (messageAllocator s)) as [[]|]. Qed.
Lemma replies_policy {A} (m : M Policy.Manager A) : maintains replies any (policy_op m).
Proof. intros s Hs. unfold policy_op, zoom. by destruct (m (policyManager s)) as [[]|]. Qed.
Lemma replies_deref p : maintains replies any (deref p).
Proof. unfold deref. maintain. Qed.
#[local] Hint Extern 3 (maintains _ _ (modify _)) => by apply maintains_modify : maintain.
Lemma replies_update p f : maintains replies any (update p f).
Proof. unfold update. maintain. Qed.
Lemma replies_bucket b f : maintains replies any (update_bucket b f).
Proof. unfold update_bucket. maintain. Qed.
Lemma replies_list ip l : maintains replies any (set_scheduledMessages ip l).
Proof. unfold set_scheduledMessages. maintain. Qed.
#[local] Hint Resolve replies_world replies_allocator replies_policy replies_deref replies_update replies_bucket
  replies_list : maintain.
Lemma replies_downCast f g n : maintains replies any (Util.downCast f g n).
Proof. unfold Util.downCast. maintain. Qed.
#[local] Hint Extern 1 (maintains _ _ (Util.downCast_u16_of_int _)) => apply replies_downCast : maintain.
#[local] Hint Extern 1 (maintains _ _ (Util.downCast_u32_of_int _)) => apply replies_downCast : maintain.
#[local] Hint Extern 1 (maintains _ _ (Util.downCast_int_of_u32 _)) => apply replies_downCast : maintain.
#[local] Hint Extern 1 (maintains _ _ (Util.downCast_int_of_size _)) => apply replies_downCast : maintain.

Lemma replies_find b i : maintains replies any (findMessage b i).
Proof. unfold findMessage. maintain. Qed.
Lemma replies_messageTimeout b p : maintains replies any (set_messageTimeout b p).
Proof. unfold set_messageTimeout. maintain. Qed.
Lemma replies_resendTimeout b p : maintains replies any (set_resendTimeout b p).
Proof. unfold set_resendTimeout. maintain. Qed.
Lemma replies_cancel b p : maintains replies any (cancel_timeouts b p).
Proof. unfold cancel_timeouts, cancel_messageTimeout, cancel_resendTimeout. maintain. Qed.
Lemma replies_cancel_resend b p : maintains replies any (cancel_resendTimeout b p).
Proof. unfold cancel_resendTimeout. maintain. Qed.
Lemma replies_release k : maintains replies any (release_packet k).
Proof. unfold release_packet. maintain. Qed.
Lemma replies_info p f : maintains replies any (update_info p f).
Proof. unfold update_info. maintain. Qed.
Lemma replies_check_peers : maintains replies any check_peers.
Proof. unfold check_peers. maintain. Qed.
#[local] Hint Resolve replies_find replies_messageTimeout replies_resendTimeout replies_cancel replies_cancel_resend
  replies_release replies_info replies_check_peers : maintain.
Lemma replies_schedule p : maintains replies any (schedule p).
Proof. unfold schedule. maintain. Qed.
Lemma replies_unschedule p : maintains replies any (unschedule p).
Proof. unfold unschedule. maintain. Qed.
Lemma replies_updateSchedule p : maintains replies any (updateSchedule p).
Proof. unfold updateSchedule. maintain. Qed.
Lemma replies_destroy p : maintains replies any (destroy_message p).
Proof. unfold destroy_message. maintain. Qed.
#[local] Hint Resolve replies_schedule replies_unschedule replies_updateSchedule replies_destroy : maintain.
Lemma replies_unschedule_if p : maintains replies any (unschedule_if_linked p).
Proof. unfold unschedule_if_linked. maintain. Qed.
Lemma replies_packet_added b p k : maintains replies any (packet_added b p k).
Proof. unfold packet_added. maintain. Qed.
Lemma replies_new_message b h ip : maintains replies any (new_message b h ip).
Proof. unfold new_message. maintain. Qed.
#[local] Hint Resolve replies_unschedule_if replies_packet_added replies_new_message : maintain.
Lemma replies_handleDataPacket k ip : maintains replies any (handleDataPacket k ip).
Proof. unfold handleDataPacket. maintain. Qed.

Lemma replies_message_timeouts fuel t b : maintains replies any (message_timeout_loop fuel t b).
Proof. induction fuel; simpl; maintain. Qed.
Lemma replies_send_resend m i n : maintains replies any (send_resend m i n).
Proof. unfold send_resend. maintain. Qed.
#[local] Hint Resolve replies_message_timeouts replies_send_resend : maintain.
Lemma replies_scan m l i n : maintains replies any (resend_scan m l i n).
Proof. revert i n. induction l; intros i n; simpl; maintain. Qed.
#[local] Hint Resolve replies_scan : maintain.
Lemma replies_resend_timeouts fuel t b : maintains replies any (resend_timeout_loop fuel t b).
Proof. induction fuel; simpl; maintain. Qed.
#[local] Hint Resolve replies_resend_timeouts : maintain.
Lemma replies_checkTimeouts : maintains replies any checkTimeouts.
Proof. unfold checkTimeouts, checkResendTimeouts, checkMessageTimeouts. maintain. Qed.

Lemma replies_active t : maintains replies any (add_active_cycles t).
Proof. unfold add_active_cycles. maintain. Qed.
#[local] Hint Resolve replies_active : maintain.
Lemma replies_grant pol p t : maintains replies any (grant_message pol p t).
Proof. unfold grant_message. maintain. Qed.
#[local] Hint Resolve replies_grant : maintain.
Lemma replies_grants fuel pol u it slot t : maintains replies any (grant_loop fuel pol u it slot t).
Proof. revert it slot t. induction fuel; intros it slot t; simpl; maintain. Qed.
#[local] Hint Resolve replies_grants : maintain.
Lemma replies_trySendGrants : maintains replies any trySendGrants.
Proof. unfold trySendGrants. maintain. Qed.
#[local] Hint Resolve replies_trySendGrants replies_checkTimeouts replies_handleDataPacket : maintain.

(** The bytes of a message are read without a trace. *)
Lemma replies_get_loop fuel m c i o b d : maintains replies any (get_loop fuel m c i o b d).
Proof. revert i o b d. induction fuel; intros i o b d; simpl; maintain. Qed.
#[local] Hint Resolve replies_get_loop : maintain.

(** DONE is sent for the message that the application acknowledges. *)
Lemma replies_acknowledge p m s :
  heap s !! p = Some m -> Protocol.MessageId_ok (id m) -> (addr, id m) ∈ acked log -> replies s ->
  match acknowledge p s with Ok (_, s') => replies s' | Error _ => True end.
Proof.
  intros Hp Hm Ha Hs.
  assert (maintains replies any (world_op (send_control (ip (source m)) (Protocol.DoneHeader_new (id m))))) as Hd.
  { apply replies_world. apply send_control_sent; [typeclasses eauto|]. by apply done_wire_ok. }
  set (rest := _ ← world_op (count Perf.tx_done_pkts 1);
    world_op (send_control (ip (source m)) (Protocol.DoneHeader_new (id m)))).
  assert (maintains replies any rest) as Hrest by (unfold rest; maintain). specialize (Hrest s Hs).
  assert (acknowledge p s = rest s) as ->.
  { unfold acknowledge, deref, get, mbind at 1 2 3, M_bind at 1 2 3. by rewrite Hp. }
  destruct (rest s) as [[]|]; [apply Hrest|done].
Qed.

Lemma replies_run (o : ReceiverSystem.Op) :
  match o with ReceiverSystem.OpAcknowledge _ => False | _ => True end -> maintains replies any (ReceiverSystem.run o).
Proof.
  destruct o; simpl; try done; intros _; unfold handleBusyPacket, handlePingPacket, receiveMessage, fail, dropped, get_bytes,
    Message_get, strip_bytes, Message_strip, dropMessage, poll; maintain.
Qed.

(** ** Messages *)

(** The DATA packet [k] from [from] agrees with the log. *)
Definition arrives dst k from : Prop :=
  exists o, originals log !! data_id k = Some o /\ ip (o_destination o) = dst /\ original_ok o /\ packet_ok k /\
    data_source k from = o_source o /\ Protocol.totalLength (data_header k) = o_size o /\
    brings (data_id k) o (Protocol.dh_index (data_header k)) (length k) (payload k).

Definition gathered dst s : Prop :=
  forall p m, heap s !! p = Some m -> exists o, originals log !! id m = Some o /\ assembled dst o m.

Lemma gathered_data_ok dst k from s : gathered dst s -> arrives dst k from -> data_ok s k from.
Proof.
  intros Hg (o & Hl & _ & _ & Hok & Hs & Ht & _). split; [done|]. intros p m Hp Hid.
  destruct (Hg p m Hp) as (o' & Hl' & [_ A1 A2 A3 _ _]). assert (o' = o) as -> by congruence.
  split; [by rewrite A1, Hs|by rewrite A3, Ht].
Qed.

Lemma assembled_same dst o m m' : same_contents m m' -> assembled dst o m -> assembled dst o m'.
Proof. intros (E1 & E2 & E3 & E4) [A0 A1 A2 A3 A4 A5]. split; rewrite ?E1, ?E2, ?E3, ?E4; done. Qed.
Lemma gathered_keeps dst s s' : keeps (heap s) (heap s') -> gathered dst s -> gathered dst s'.
Proof.
  intros Hk Hg p m' Hp. destruct (Hk p m' Hp) as (m & Hm & Hs & _). destruct (Hg p m Hm) as (o & Hl & Ha).
  exists o. split; [by rewrite (proj1 Hs)|by eapply assembled_same].
Qed.

Lemma gathered_data dst k from s s' :
  data_effect k from s s' -> gathered dst s -> arrives dst k from -> gathered dst s'.
Proof.
  intros (q & m & Hadd & He) Hg (o & Hl & Hdst & Hoo & Hok & Hs & Ht & Hb).
  assert (id m = data_id k /\ assembled dst o m) as [Hid Has].
  { destruct Hadd as [[Hm Hid]|(_ & _ & ->)].
    - split; [done|]. destruct (Hg q m Hm) as (o' & Hl' & Ha'). by assert (o' = o) as <- by congruence.
    - destruct (announced_ok k from Hok) as (_ & A1 & A2 & A3 & _ & A5). split; [done|].
      split; [rewrite A1; by apply (ds_id_ok _ _ _ _ (br_header _ _ _ _ _ Hb))|by rewrite A2|done|by rewrite A5|done|]. intros i d. by rewrite A3, lookup_empty. }
  destruct (packets m !! Protocol.dh_index (data_header k)).
  { destruct He as [Hh _]. intros p0 n. rewrite Hh. exact (Hg p0 n). }
  destruct He as [Hh _]. intros p0 n. rewrite Hh. intros [[<- <-]|[_ Hp]]%lookup_insert_Some; [|exact (Hg p0 n Hp)].
  set (i := Protocol.dh_index (data_header k)) in *.
  assert (same_contents (stored i k m) (received i k m)) as Hsame.
  { unfold received, finished, counted. by repeat case_match. }
  exists o. split; [rewrite (proj1 Hsame); change (id (stored i k m)) with (id m); by rewrite Hid|].
  eapply assembled_same; [exact Hsame|]. destruct Has as [A0 A1 A2 A3 A4 A5]. split; try done.
  intros j d. unfold stored, over; cbn [packets]. intros [[<- <-]|[_ Hd]]%lookup_insert_Some; [|by apply A5].
  change (id (stored i k m)) with (id m). by rewrite Hid.
Qed.

Lemma gathered_run dst (o : ReceiverSystem.Op) s :
  ReceiverSystem.idle s -> ReceiverSystem.allowed o s -> gathered dst s ->
  match o with ReceiverSystem.OpData k from => arrives dst k from | _ => True end ->
  wp (ReceiverSystem.run o) s (fun _ s' => gathered dst s').
Proof.
  intros Hi Ha Hg Harr. eapply wp_mono; [by apply ReceiverSystem.rcv_run_spec|]. intros _ s' (_ & _ & He).
  destruct o; try by eapply gathered_keeps; [apply He|]. by eapply gathered_data.
Qed.

(** ** What the application was handed *)

(** A complete message waits in the queue, or the log says that it was handed out. *)
Definition accounted s : Prop :=
  forall p m, heap s !! p = Some m -> state m <> IN_PROGRESS -> p ∉ receivedMessages s -> (addr, id m) ∈ handed log.

Lemma accounted_data k from s s' : data_effect k from s s' -> accounted s -> accounted s'.
Proof.
  intros (q & m & Hadd & He) Ha p n Hp Hst Hq. destruct (packets m !! Protocol.dh_index (data_header k)).
  { destruct He as (Hh & Hr & _). rewrite Hh in Hp. rewrite Hr in Hq. by apply (Ha p). }
  destruct He as (Hh & _ & Hr). rewrite Hh in Hp. rewrite Hr in Hq. apply not_elem_of_app in Hq as [Hq Hnew].
  apply lookup_insert_Some in Hp as [[<- <-]|[_ Hp]]; [|by apply (Ha p)].
  destruct Hnew. rewrite bool_decide_false by done. by left.
Qed.

Lemma accounted_run (o : ReceiverSystem.Op) s :
  ReceiverSystem.idle s -> ReceiverSystem.allowed o s -> accounted s ->
  (o = ReceiverSystem.OpReceive -> forall p m,
     head (receivedMessages s) = Some p -> heap s !! p = Some m -> (addr, id m) ∈ handed log) ->
  wp (ReceiverSystem.run o) s (fun _ s' => accounted s').
Proof.
  intros Hi Hal Ha Hrec. eapply wp_mono; [by apply ReceiverSystem.rcv_run_spec|]. intros _ s' (_ & _ & He).
  assert (forall l, keeps (heap s) (heap s') -> receivedMessages s' = l ->
    (forall p m, heap s !! p = Some m -> state m <> IN_PROGRESS -> p ∉ l -> (addr, id m) ∈ handed log) ->
    accounted s') as Hkeep.
  { intros l Hk <- Hl p m' Hp Hst Hq. destruct (Hk p m' Hp) as (m & Hm & (Eid & _) & Hs). rewrite Eid. by eapply Hl; auto. }
  destruct o; try by destruct He as [Hk Hr]; eapply Hkeep; [done|exact Hr|apply Ha].
  - by eapply accounted_data.
  - destruct He as [Hk Hr]. eapply Hkeep; [done|exact Hr|]. intros p m Hp Hst Hq.
    destruct (receivedMessages s) as [|q l] eqn:E; [apply (Ha p); [done|done|rewrite E; apply not_elem_of_nil]|].
    destruct (decide (p = q)) as [->|Hne]; [by apply (Hrec eq_refl q)|]. apply (Ha p); [done|done|].
    rewrite E. by apply not_elem_of_cons.
Qed.
End incoming.
End Incoming.
