(* ===== verification/Steady.v ===== *)
(** * Steady: relations that every step of a computation respects

    [preserves R m]: whenever [m] returns, its states are related by the preorder
    [R].  The rules follow the structure of a computation, so that one tactic goes
    through an operation whatever it does.  They give, without a
    specification, that no operation of the Sender turns back the clock or touches
    the scheduled policy, and that every handler ends by releasing its packet. *)

From S2P Require Import Prelude Intrusive Util Timeout ObjectPool Perf Protocol Policy Driver SenderMessage Sender.
Import Driver.

Module Steady.

Definition preserves {St A} (R : relation St) (m : M St A) : Prop :=
  forall s, match m s with Ok (_, s') => R s s' | Error _ => True end.

Section rules.
Context {St : Type} (R : relation St) `{!PreOrder R}.

Lemma preserves_ret {A} (a : A) : preserves R (mret a).
Proof. intros s. simpl. reflexivity. Qed.
Lemma preserves_bind {A B} (m : M St A) (f : A -> M St B) :
  preserves R m -> (forall a, preserves R (f a)) -> preserves R (m ≫= f).
Proof.
  intros Hm Hf s. unfold mbind, M_bind. specialize (Hm s). destruct (m s) as [[a s1]|]; [|done].
  specialize (Hf a s1). destruct (f a s1) as [[b s2]|]; [|done]. by etransitivity.
Qed.
Lemma preserves_get : preserves R get.
Proof. intros s. simpl. reflexivity. Qed.
Lemma preserves_gets {A} (f : St -> A) : preserves R (gets f).
Proof. intros s. simpl. reflexivity. Qed.
Lemma preserves_modify f : (forall s, R s (f s)) -> preserves R (modify f).
Proof. intros Hf s. apply Hf. Qed.
Lemma preserves_fault {A} e : preserves R (fault (A := A) e).
Proof. done. Qed.
Lemma preserves_check b : preserves R (check b).
Proof. destruct b; [apply preserves_ret|apply preserves_fault]. Qed.
Lemma preserves_lift {A} (r : Result A) : preserves R (lift r).
Proof. intros s. unfold lift. destruct r; [reflexivity|done]. Qed.
Lemma preserves_when b m : preserves R m -> preserves R (when b m).
Proof. intros Hm. destruct b; [done|apply preserves_ret]. Qed.
Lemma preserves_for_each {A} (l : list A) body :
  (forall x, preserves R (body x)) -> preserves R (for_each l body).
Proof. intros Hb. induction l as [|x l IH]; [apply preserves_ret|]. simpl. by apply preserves_bind. Qed.
Lemma preserves_zoom {T A} (R' : relation T) (proj : St -> T) (inj : T -> St -> St) (m : M T A) :
  (forall s t, R' (proj s) t -> R s (inj t s)) -> preserves R' m -> preserves R (zoom proj inj m).
Proof. intros Hr Hm s. unfold zoom. specialize (Hm (proj s)). destruct (m (proj s)) as [[a t]|]; [by apply Hr|done]. Qed.
End rules.

Lemma preserves_Ok {St A} (R : relation St) (m : M St A) s a s' : preserves R m -> m s = Ok (a, s') -> R s s'.
Proof. intros Hm E. specialize (Hm s). by rewrite E in Hm. Qed.

Create HintDb steady.
#[export] Hint Resolve preserves_ret preserves_get preserves_gets preserves_fault preserves_check
  preserves_lift : steady.

(** One step through the structure of a computation. *)
Ltac steady_step :=
  first [ solve [eauto 4 with steady typeclass_instances]
        | apply preserves_when
        | apply preserves_for_each; [apply _|intros ?]
        | apply preserves_bind; [apply _| |intros ?]
        | apply preserves_modify; intros ?; done
        | case_match ].
Ltac steady := cbv zeta; repeat steady_step.

(** ** The clock of the driver *)

Section clock.
Context `{Driver}.

(** The clock does not go back and the trace grows. *)
Definition later (w w' : World) : Prop :=
  (clock_reads w <= clock_reads w')%nat /\ exists evs, trace w' = trace w ++ evs.
#[export] Instance later_preorder : PreOrder later.
Proof.
  split; [intros w; split; [apply le_n|exists []; by rewrite app_nil_r]|].
  intros w1 w2 w3 [H1 [e1 E1]] [H2 [e2 E2]]. split; [lia|]. exists (e1 ++ e2). by rewrite E2, E1, app_assoc.
Qed.

Lemma later_quiet w w' : (clock_reads w <= clock_reads w')%nat -> trace w' = trace w -> later w w'.
Proof. intros Hc Ht. split; [done|]. exists []. by rewrite app_nil_r. Qed.
Lemma rdtsc_later : preserves later rdtsc.
Proof. intros w. apply later_quiet; simpl; [lia|done]. Qed.
Lemma count_later c n : preserves later (count c n).
Proof. intros w. by apply later_quiet. Qed.
Lemma emit_later e : preserves later (emit e).
Proof. intros w. split; [done|]. by exists [e]. Qed.
Lemma getQueuedBytes_later : preserves later getQueuedBytes.
Proof. intros w. by apply later_quiet. Qed.
Lemma allocPacket_later : preserves later allocPacket.
Proof. intros w. by apply later_quiet. Qed.
#[local] Hint Resolve rdtsc_later count_later emit_later getQueuedBytes_later allocPacket_later : steady.

Lemma sendPacket_later p dst prio : preserves later (sendPacket p dst prio).
Proof. unfold sendPacket. auto with steady. Qed.
Lemma releasePackets_later ids : preserves later (releasePackets ids).
Proof. unfold releasePackets. auto with steady. Qed.
#[local] Hint Resolve sendPacket_later releasePackets_later : steady.

Lemma send_control_later {Hd : Type} `{Protocol.PacketHeader Hd} dst (h : Hd) : preserves later (send_control dst h).
Proof. unfold send_control. steady. Qed.
#[local] Hint Resolve send_control_later : steady.

Lemma later_now w w' `{!DriverLaws} : later w w' -> now w <= now w'.
Proof. intros [Hl _]. unfold now. by apply rdtsc_le. Qed.
End clock.
#[export] Hint Resolve rdtsc_later count_later emit_later getQueuedBytes_later allocPacket_later
  sendPacket_later releasePackets_later send_control_later : steady.

(** ** Messages under construction *)

Section message.
Context `{Driver}.
Import SenderMessage.

Definition later_message (t t' : MessageState) : Prop := later (mworld t) (mworld t').
#[export] Instance later_message_preorder : PreOrder later_message.
Proof. split; [intros t; unfold later_message; reflexivity|intros t1 t2 t3; unfold later_message; by etransitivity]. Qed.

Lemma set_message_later f : preserves later_message (set_message f).
Proof. apply preserves_modify. intros t. unfold later_message. reflexivity. Qed.
#[local] Hint Resolve set_message_later : steady.
Lemma put_packet_later i p : preserves later_message (put_packet i p).
Proof. unfold put_packet. auto with steady. Qed.
Lemma message_world_later {A} (m : M World A) : preserves later m -> preserves later_message (message_world m).
Proof. intros Hm. unfold message_world. by eapply preserves_zoom. Qed.
Lemma copy_into_later p off bs : preserves later_message (copy_into p off bs).
Proof. unfold copy_into. steady. Qed.
Lemma downCast_later n : preserves later_message (Util.downCast_int_of_size n).
Proof. unfold Util.downCast_int_of_size, Util.downCast. steady. Qed.
#[local] Hint Resolve put_packet_later message_world_later copy_into_later downCast_later : steady.
Lemma getOrAllocPacket_later i : preserves later_message (getOrAllocPacket i).
Proof. unfold getOrAllocPacket. steady. Qed.
#[local] Hint Resolve getOrAllocPacket_later : steady.

Lemma walk_packets_later fuel count body i off d :
  (forall i off d n, preserves later_message (body i off d n)) ->
  preserves later_message (walk_packets fuel count body i off d).
Proof.
  intros Hb. revert i off d. induction fuel as [|fuel IH]; intros i off d; simpl; case_match; auto with steady typeclass_instances.
  apply preserves_bind; [apply _|apply Hb|]. intros _. apply IH.
Qed.

Lemma append_chunk_later bs i off d n : preserves later_message (append_chunk bs i off d n).
Proof. unfold append_chunk. steady. Qed.
Lemma prepend_chunk_later bs i off d n : preserves later_message (prepend_chunk bs i off d n).
Proof. unfold prepend_chunk. steady. Qed.
Lemma reserve_chunk_later i off d n : preserves later_message (reserve_chunk i off d n).
Proof. unfold reserve_chunk. steady. Qed.
#[local] Hint Resolve walk_packets_later append_chunk_later prepend_chunk_later reserve_chunk_later : steady.

Lemma append_later bs : preserves later_message (append bs).
Proof. unfold append. steady. Qed.
Lemma prepend_later bs : preserves later_message (prepend bs).
Proof. unfold prepend. steady. Qed.
Lemma reserve_later n : preserves later_message (reserve n).
Proof. unfold reserve. steady. Qed.
End message.

(** ** The Sender *)

Section sender.
Context `{Driver}.
Import SenderMessage Sender.

(** What the Sender shares with the Receiver: the clock only goes on, and the
    scheduled policy stays. *)
Definition shared (s s' : Sender) : Prop :=
  later (world s) (world s') /\
  Policy.localScheduledPolicy (policyManager s') = Policy.localScheduledPolicy (policyManager s).
#[export] Instance shared_preorder : PreOrder shared.
Proof.
  split; [intros s; split; [reflexivity|done]|].
  intros s1 s2 s3 [H1 E1] [H2 E2]. split; [by etransitivity|congruence].
Qed.

Ltac kept := apply preserves_modify; intros ?; split; [reflexivity|done].

Lemma world_op_shared {A} (m : M World A) : preserves later m -> preserves shared (world_op m).
Proof. intros Hm. unfold world_op. eapply preserves_zoom; [|done]. by intros s w Hw. Qed.
Lemma allocator_op_shared {A} (m : M (ObjectPool Message) A) : preserves shared (allocator_op m).
Proof.
  unfold allocator_op. eapply (preserves_zoom _ (fun _ _ => True)); [by intros s o _|].
  intros o. by destruct (m o) as [[]|].
Qed.
Lemma deref_shared p : preserves shared (deref p).
Proof. unfold deref. steady. Qed.
Lemma update_shared p f : preserves shared (update p f).
Proof. unfold update. kept. Qed.
Lemma update_bucket_shared b f : preserves shared (update_bucket b f).
Proof. unfold update_bucket. kept. Qed.
Lemma findMessage_shared b i : preserves shared (findMessage b i).
Proof. unfold findMessage. steady. Qed.
Lemma resendPriority_shared : preserves shared (policy_op (gets Policy.getResendPriority)).
Proof. by intros s. Qed.
Lemma unscheduledPolicy_shared dst len : preserves shared (policy_op (Policy.getUnscheduledPolicy dst len)).
Proof. by intros s. Qed.
Lemma downCast_u32_shared n : preserves shared (Util.downCast_u32_of_int n).
Proof. unfold Util.downCast_u32_of_int, Util.downCast. steady. Qed.
Lemma downCast_u16_shared n : preserves shared (Util.downCast_u16_of_int n).
Proof. unfold Util.downCast_u16_of_int, Util.downCast. steady. Qed.
#[local] Hint Resolve world_op_shared allocator_op_shared deref_shared update_shared update_bucket_shared
  findMessage_shared resendPriority_shared unscheduledPolicy_shared downCast_u32_shared downCast_u16_shared : steady.

Lemma modify_shared f : (forall s, shared s (f s)) -> preserves shared (modify f).
Proof. apply preserves_modify. Qed.
Ltac steady_modify := repeat (steady_step || kept).

Lemma set_messageTimeout_shared b p : preserves shared (set_messageTimeout b p).
Proof. unfold set_messageTimeout. steady. Qed.
Lemma set_pingTimeout_shared b p : preserves shared (set_pingTimeout b p).
Proof. unfold set_pingTimeout. steady. Qed.
Lemma cancel_timeouts_shared b p : preserves shared (cancel_timeouts b p).
Proof. unfold cancel_timeouts, cancel_messageTimeout, cancel_pingTimeout. steady. Qed.
Lemma cancel_pingTimeout_shared b p : preserves shared (cancel_pingTimeout b p).
Proof. unfold cancel_pingTimeout. steady. Qed.
Lemma update_info_shared p f : preserves shared (update_info p f).
Proof. unfold update_info. steady. Qed.
Lemma set_state_shared p st : preserves shared (set_state p st).
Proof. unfold set_state. steady. Qed.
Lemma info_packets_shared i : preserves shared (info_packets i).
Proof. unfold info_packets. steady. Qed.
Lemma release_packet_shared k : preserves shared (release_packet k).
Proof. unfold release_packet. steady. Qed.
Lemma send_data_shared k dst prio : preserves shared (send_data k dst prio).
Proof. unfold send_data. steady. Qed.
#[local] Hint Resolve set_messageTimeout_shared set_pingTimeout_shared cancel_timeouts_shared
  cancel_pingTimeout_shared update_info_shared set_state_shared info_packets_shared release_packet_shared
  send_data_shared : steady.
Lemma set_timeouts_shared b p : preserves shared (set_timeouts b p).
Proof. unfold set_timeouts. steady. Qed.
Lemma queue_remove_shared p : preserves shared (queue_remove p).
Proof. unfold queue_remove. kept. Qed.
Lemma queue_insert_shared p : preserves shared (queue_insert p).
Proof. unfold queue_insert. steady_modify. Qed.
Lemma queue_prioritize_shared p : preserves shared (queue_prioritize p).
Proof. unfold queue_prioritize. kept. Qed.
Lemma destroy_message_shared p : preserves shared (destroy_message p).
Proof. unfold destroy_message. steady. Qed.
#[local] Hint Resolve set_timeouts_shared queue_remove_shared queue_insert_shared queue_prioritize_shared
  destroy_message_shared : steady.
Lemma remove_message_shared b p : preserves shared (remove_message b p).
Proof. unfold remove_message. steady. Qed.
Lemma dequeue_in_progress_shared p : preserves shared (dequeue_in_progress p).
Proof. unfold dequeue_in_progress. steady. Qed.
Lemma send_single_shared b p prio : preserves shared (send_single b p prio).
Proof. unfold send_single. steady. Qed.
#[local] Hint Resolve remove_message_shared dequeue_in_progress_shared send_single_shared : steady.

(** ** The handlers and calls *)

(** [m] ends by giving the packet [k] back to the driver. *)
Definition finishes (k : Packet) {A} (m : M Sender A) : Prop :=
  forall s, match m s with
            | Ok (_, s') => exists evs, trace (world s') = trace (world s) ++ evs ++ [EvRelease [pkt_id k]]
            | Error _ => True
            end.
Lemma finishes_bind k {A B} (m : M Sender A) (f : A -> M Sender B) :
  preserves shared m -> (forall a, finishes k (f a)) -> finishes k (m ≫= f).
Proof.
  intros Hm Hf s. unfold mbind, M_bind. specialize (Hm s). destruct (m s) as [[a s1]|]; [|done].
  destruct Hm as [[_ [e1 E1]] _]. specialize (Hf a s1). destruct (f a s1) as [[b s2]|]; [|done].
  destruct Hf as [e2 E2]. exists (e1 ++ e2). by rewrite E2, E1, !app_assoc.
Qed.
Lemma finishes_release k : finishes k (release_packet k).
Proof. intros s. by exists []. Qed.
Ltac finishing :=
  cbv zeta; repeat first [ apply finishes_release | apply finishes_bind; [solve [repeat (steady_step || kept)]|intros ?] | done | case_match ].

Lemma handleDonePacket_finishes k : finishes k (handleDonePacket k).
Proof. unfold handleDonePacket. finishing. Qed.
Lemma handleDonePacket_shared k : preserves shared (handleDonePacket k).
Proof. unfold handleDonePacket. steady. Qed.
Lemma handleErrorPacket_finishes k : finishes k (handleErrorPacket k).
Proof. unfold handleErrorPacket. finishing. Qed.
Lemma handleErrorPacket_shared k : preserves shared (handleErrorPacket k).
Proof. unfold handleErrorPacket. steady. Qed.
Lemma handleGrantPacket_finishes k : finishes k (handleGrantPacket k).
Proof. unfold handleGrantPacket. finishing. Qed.
Lemma handleGrantPacket_shared k : preserves shared (handleGrantPacket k).
Proof. unfold handleGrantPacket. steady_modify. Qed.
Lemma handleResendPacket_finishes k : finishes k (handleResendPacket k).
Proof. unfold handleResendPacket. finishing. Qed.
Lemma handleResendPacket_shared k : preserves shared (handleResendPacket k).
Proof. unfold handleResendPacket. steady_modify. Qed.
Lemma restart_message_shared b p : preserves shared (restart_message b p).
Proof. unfold restart_message. steady_modify. Qed.
#[local] Hint Resolve restart_message_shared : steady.
Lemma handleUnknownPacket_finishes k : finishes k (handleUnknownPacket k).
Proof. unfold handleUnknownPacket. finishing. Qed.
Lemma handleUnknownPacket_shared k : preserves shared (handleUnknownPacket k).
Proof. unfold handleUnknownPacket. steady. Qed.

Lemma message_op_shared p m : preserves later_message m -> preserves shared (message_op p m).
Proof.
  intros Hm s. unfold message_op, deref, get, mbind, M_bind. destruct (heap s !! p) as [v|]; [|done].
  unfold mret, M_ret, lift. specialize (Hm (mkMessageState v (world s))).
  destruct (m (mkMessageState v (world s))) as [[[] t]|]; [|done]. by split.
Qed.
Lemma fill_headers_shared p dst v l xs acc : preserves shared (fill_headers p dst v l xs acc).
Proof. revert acc. induction xs as [|i xs IH]; intros acc; simpl; steady. Qed.
#[local] Hint Resolve fill_headers_shared : steady.
Lemma sendMessage_shared p dst opts : preserves shared (sendMessage p dst opts).
Proof. unfold sendMessage. steady_modify. Qed.
Lemma cancelMessage_shared p : preserves shared (cancelMessage p).
Proof. unfold cancelMessage. steady. Qed.
Lemma dropMessage_shared p : preserves shared (dropMessage p).
Proof. unfold dropMessage. steady. Qed.
Lemma allocMessage_shared sp : preserves shared (allocMessage sp).
Proof. unfold allocMessage. steady. Qed.

(** ** Timeouts and sending *)

Lemma message_timeout_loop_shared fuel t b : preserves shared (message_timeout_loop fuel t b).
Proof. induction fuel; simpl; steady. Qed.
Lemma ping_timeout_loop_shared fuel t b : preserves shared (ping_timeout_loop fuel t b).
Proof. induction fuel; simpl; steady. Qed.
#[local] Hint Resolve message_timeout_loop_shared ping_timeout_loop_shared : steady.
Lemma checkTimeouts_shared : preserves shared checkTimeouts.
Proof. unfold checkTimeouts, checkPingTimeouts, checkMessageTimeouts. steady_modify. Qed.

Lemma send_granted_shared fuel p est busy : preserves shared (send_granted fuel p est busy).
Proof. revert est busy. induction fuel; intros est busy; simpl; steady. Qed.
#[local] Hint Resolve send_granted_shared : steady.
Lemma retire_shared p : preserves shared (retire p).
Proof. unfold retire, retire_steps. simpl. steady. Qed.
#[local] Hint Resolve retire_shared : steady.
Lemma send_queue_shared fuel it est busy sent : preserves shared (send_queue fuel it est busy sent).
Proof. revert it est busy sent. induction fuel; intros it est busy sent; simpl; steady_modify. Qed.
#[local] Hint Resolve send_queue_shared checkTimeouts_shared : steady.
Lemma trySend_shared : preserves shared trySend.
Proof. unfold trySend, trySend_queue, finish_sent. steady_modify. Qed.
#[local] Hint Resolve trySend_shared : steady.
Lemma poll_shared : preserves shared poll.
Proof. unfold poll. steady. Qed.
End sender.
End Steady.
