(* ===== verification/Transport.v ===== *)
(** * Transport: src/src/TransportImpl.h, TransportImpl.cc

    One transport: a Sender and a Receiver that share a driver and a policy
    manager, the dispatch of incoming packets to them, and the calls of the
    application.  The records of the two ends each have a [world] and a
    [policyManager]; in a transport both stand for the shared ones, which
    [on_sender] and [on_receiver] put in place before and take back after each call. *)

From S2P Require Import Prelude Intrusive Util Timeout ObjectPool Perf Protocol Policy Driver SenderMessage Sender SenderInv SenderSystem ReceiverMessage Receiver ReceiverInv ReceiverHandlers ReceiverSystem Steady.
Import Driver Steady.

Module Transport.

(** Times in microseconds. *)
Definition BASE_TIMEOUT_US : Z := 2000.
Definition MESSAGE_TIMEOUT_US : Z := 40 * BASE_TIMEOUT_US.
Definition PING_INTERVAL_US : Z := 3 * BASE_TIMEOUT_US.
Definition RESEND_INTERVAL_US : Z := BASE_TIMEOUT_US.

Record TransportImpl := mkTransportImpl {
  transportId : Z;
  policyManager : Policy.Manager;
  sender : Sender.Sender;
  receiver : Receiver.Receiver;
  nextTimeoutCycles : Z;
  world : World
}.
#[global] Instance eta_TransportImpl : Eta TransportImpl := fun r =>
  mkTransportImpl (transportId r) (policyManager r) (sender r) (receiver r) (nextTimeoutCycles r) (world r).

Section transport.
Context `{Driver}.

(** [TransportImpl(driver, transportId)]; [fromMicroseconds] is
    [PerfUtils::Cycles::fromMicroseconds]. *)
Definition TransportImpl_new (fromMicroseconds : Z -> Z) (tid : Z) (w : World) : TransportImpl :=
  let policy := Policy.Manager_new getBandwidth getHighestPacketPriority in
  {| transportId := tid;
     policyManager := policy;
     sender := Sender.Sender_new tid (fromMicroseconds MESSAGE_TIMEOUT_US) (fromMicroseconds PING_INTERVAL_US) policy w;
     receiver := Receiver.Receiver_new (fromMicroseconds MESSAGE_TIMEOUT_US) (fromMicroseconds RESEND_INTERVAL_US) policy w;
     nextTimeoutCycles := 0;
     world := w |}.

(** The Sender and the Receiver with the shared parts in place. *)
Definition sender_of (t : TransportImpl) : Sender.Sender :=
  (sender t) <| Sender.world := world t |> <| Sender.policyManager := policyManager t |>.
Definition receiver_of (t : TransportImpl) : Receiver.Receiver :=
  (receiver t) <| Receiver.world := world t |> <| Receiver.policyManager := policyManager t |>.

Definition on_sender {A} (m : M Sender.Sender A) : M TransportImpl A :=
  zoom sender_of (fun s t => t <| sender := s |> <| policyManager := Sender.policyManager s |>
                                <| world := Sender.world s |>) m.
Definition on_receiver {A} (m : M Receiver.Receiver A) : M TransportImpl A :=
  zoom receiver_of (fun r t => t <| receiver := r |> <| policyManager := Receiver.policyManager r |>
                                  <| world := Receiver.world r |>) m.
Definition on_world {A} (m : M World A) : M TransportImpl A := zoom world (fun w t => t <| world := w |>) m.

(** The case of the switch that an opcode selects; there is no default case. *)
Definition opcode_of (v : Z) : option Protocol.Opcode :=
  List.find (fun o => Protocol.opcode_value o =? v)
    [Protocol.DATA; Protocol.GRANT; Protocol.DONE; Protocol.RESEND; Protocol.BUSY; Protocol.PING;
     Protocol.UNKNOWN; Protocol.ERROR].

Definition processPacket (packet : Packet) (sourceIp : IpAddress) : M TransportImpl unit :=
  _ ← check (Protocol.header_size Protocol.CommonHeader <=? length packet);
  _ ← on_world (count Perf.rx_bytes (length packet));
  let header := read_header Protocol.CommonHeader packet in
  match opcode_of (Protocol.opcode header) with
  | Some Protocol.DATA =>
      _ ← on_world (count Perf.rx_data_pkts 1); on_receiver (Receiver.handleDataPacket packet sourceIp)
  | Some Protocol.GRANT =>
      _ ← on_world (count Perf.rx_grant_pkts 1); on_sender (Sender.handleGrantPacket packet)
  | Some Protocol.DONE =>
      _ ← on_world (count Perf.rx_done_pkts 1); on_sender (Sender.handleDonePacket packet)
  | Some Protocol.RESEND =>
      _ ← on_world (count Perf.rx_resend_pkts 1); on_sender (Sender.handleResendPacket packet)
  | Some Protocol.BUSY =>
      _ ← on_world (count Perf.rx_busy_pkts 1); on_receiver (Receiver.handleBusyPacket packet)
  | Some Protocol.PING =>
      _ ← on_world (count Perf.rx_ping_pkts 1); on_receiver (Receiver.handlePingPacket packet sourceIp)
  | Some Protocol.UNKNOWN =>
      _ ← on_world (count Perf.rx_unknown_pkts 1); on_sender (Sender.handleUnknownPacket packet)
  | Some Protocol.ERROR =>
      _ ← on_world (count Perf.rx_error_pkts 1); on_sender (Sender.handleErrorPacket packet)
  | None => mret tt
  end.

(** [burst] is what [driver->receivePackets] returned, with the addresses. *)
Definition processPackets (burst : list (Packet * IpAddress)) : M TransportImpl unit :=
  timer ← on_world rdtsc;
  _ ← for_each burst (fun k => processPacket k.1 k.2);
  when (0 <? zlength burst)
    (t ← on_world rdtsc; on_world (count Perf.active_cycles (Perf.timer_split timer t).1)).

Definition poll (burst : list (Packet * IpAddress)) : M TransportImpl unit :=
  timer ← on_world rdtsc;
  _ ← processPackets burst;
  _ ← on_sender Sender.poll;
  _ ← on_receiver Receiver.poll;
  t ← on_world rdtsc;
  on_world (count Perf.total_cycles (Perf.timer_split timer t).1).

Definition alloc (sourcePort : Z) : M TransportImpl ptr := on_sender (Sender.allocMessage sourcePort).
Definition receive : M TransportImpl (option ptr) := on_receiver Receiver.receiveMessage.
Definition getId (t : TransportImpl) : Z := transportId t.
End transport.
End Transport.
