(* ===== verification/TransportSystem.v ===== *)
(** * TransportSystem: the transport as a transition system

    The invariants of the two ends together with what they share: each call of
    one end leaves the clock and the policies so that the other end's invariant
    still holds.  [Op] has the calls of the application and [poll], which brings in
    the packets that the driver received. *)

From S2P Require Import Prelude Intrusive Util Timeout ObjectPool Perf Protocol Policy Driver SenderMessage Sender SenderInv SenderSystem ReceiverMessage Receiver ReceiverInv ReceiverHandlers ReceiverSystem Steady Transport.
Import Driver Steady Transport.

Module TransportSystem.

Inductive Op :=
  | OpSender (o : SenderSystem.Op)
  | OpReceiver (o : ReceiverSystem.Op)
  | OpPoll (burst : list (Packet * IpAddress)).

Section system.
Context `{DriverLaws}.
Implicit Types (t : TransportImpl) (k : Packet) (ip : IpAddress).

(** ** The invariant *)

Definition transport_inv t : Prop :=
  SenderInv.inv None (sender_of t) /\ ReceiverSystem.idle (receiver_of t).

Lemma policy_ok_shared p q :
  Policy.localScheduledPolicy q = Policy.localScheduledPolicy p -> ReceiverInv.policy_ok p -> ReceiverInv.policy_ok q.
Proof. intros E []. split; by rewrite E. Qed.
Lemma receiver_idle_shared r w pol :
  now (Receiver.world r) <= now w ->
  Policy.localScheduledPolicy pol = Policy.localScheduledPolicy (Receiver.policyManager r) ->
  ReceiverSystem.idle r -> ReceiverSystem.idle (r <| Receiver.world := w |> <| Receiver.policyManager := pol |>).
Proof.
  intros Hw Hp [Hi Hg]. split; [|done]. apply (ReceiverInv.rcv_inv_world _ _ _ Hw) in Hi.
  destruct Hi. split; try done. by apply (policy_ok_shared (Receiver.policyManager r)).
Qed.

Lemma on_sender_spec {A} (m : M Sender.Sender A) t (Q : A -> TransportImpl -> Prop) :
  transport_inv t -> preserves shared m ->
  wp m (sender_of t) (fun a s' => SenderInv.inv None s' /\
    let t' := t <| sender := s' |> <| policyManager := Sender.policyManager s' |> <| world := Sender.world s' |> in
    (transport_inv t' -> Q a t')) ->
  wp (on_sender m) t Q.
Proof.
  intros [Hs Hr] Hm Hw. unfold on_sender. apply wp_zoom. specialize (Hm (sender_of t)).
  unfold wp in *. destruct (m (sender_of t)) as [[a s']|]; [|done]. destruct Hw as [Hi HQ], Hm as [Hl Hpol].
  apply HQ. split.
  - by destruct s'.
  - apply (later_now _ _) in Hl. apply (receiver_idle_shared _ (Sender.world s') (Sender.policyManager s')) in Hr; [|done|done].
    unfold receiver_of, over in *; cbn in *. exact Hr.
Qed.

Lemma on_receiver_spec {A} (m : M Receiver.Receiver A) t (Q : A -> TransportImpl -> Prop) :
  transport_inv t ->
  wp m (receiver_of t) (fun a r' => ReceiverSystem.idle r' /\ ReceiverHandlers.quiet (receiver_of t) r' /\
    let t' := t <| receiver := r' |> <| policyManager := Receiver.policyManager r' |> <| world := Receiver.world r' |> in
    (transport_inv t' -> Q a t')) ->
  wp (on_receiver m) t Q.
Proof.
  intros [Hs Hr] Hw. unfold on_receiver. apply wp_zoom.
  eapply wp_mono; [exact Hw|]. intros a r' (Hi & [Hpol _ Hc] & HQ). apply HQ. split.
  - apply (SenderInv.inv_world _ _ (Receiver.world r')) in Hs; [|exact Hc].
    unfold sender_of, over in *; cbn in *. by rewrite Hpol.
  - by destruct r'.
Qed.

Lemma on_world_spec {A} (m : M World A) t (Q : A -> TransportImpl -> Prop) :
  transport_inv t -> preserves later m ->
  wp m (world t) (fun a w => transport_inv (t <| world := w |>) -> Q a (t <| world := w |>)) ->
  wp (on_world m) t Q.
Proof.
  intros [Hs Hr] Hm Hw. unfold on_world. apply wp_zoom. specialize (Hm (world t)). unfold wp in *.
  destruct (m (world t)) as [[a w]|]; [|done]. apply later_now in Hm; [|done]. apply Hw. split.
  - apply (SenderInv.inv_world _ _ w) in Hs; [exact Hs|done].
  - by apply (receiver_idle_shared _ w (policyManager t)) in Hr.
Qed.

(** ** One packet *)

Lemma opcode_of_Some v o : opcode_of v = Some o -> v = Protocol.opcode_value o.
Proof. intros [_ Hv]%List.find_some. symmetry. by apply Z.eqb_eq. Qed.
Lemma opcode_of_value o : opcode_of (Protocol.opcode_value o) = Some o.
Proof. by destruct o. Qed.

(** The opcode in the header of [k]. *)
Definition opcode_in k : Z := Protocol.opcode (read_header Protocol.CommonHeader k).

(** What a packet must be for a debug build to go on: long enough for the
    common header, made of bytes, and DATA from a conforming sender. *)
Definition packet_allowed k ip t : Prop :=
  Protocol.header_size Protocol.CommonHeader <= length k /\ Forall Protocol.is_byte (payload k) /\
  (opcode_in k = Protocol.opcode_value Protocol.DATA ->
   ReceiverHandlers.data_ok (receiver_of t) k ip).

(** What became of the buffer of [k]. *)
Definition released k t t' : Prop :=
  exists evs, trace (world t') = trace (world t) ++ evs ++ [EvRelease [pkt_id k]].
Definition kept k t t' : Prop :=
  trace (world t') = trace (world t) /\
  exists p m i, objects (Receiver.messageAllocator (receiver t')) !! p = Some m /\ ReceiverMessage.packets m !! i = Some k.
Definition lost t t' : Prop :=
  trace (world t') = trace (world t) /\ sender t' = sender t /\ receiver t' = receiver t.
Definition disposed k t t' : Prop :=
  (forall o, opcode_in k = Protocol.opcode_value o -> released k t t' \/ o = Protocol.DATA /\ kept k t t') /\
  ((forall o, opcode_in k <> Protocol.opcode_value o) -> lost t t').

(** The same, by the case that processPacket takes. *)
Definition disposed_by (o : option Protocol.Opcode) k t t' : Prop :=
  match o with
  | Some Protocol.DATA => released k t t' \/ kept k t t'
  | Some _ => released k t t'
  | None => lost t t'
  end.

Lemma disposed_by_case k t t' : disposed_by (opcode_of (opcode_in k)) k t t' -> disposed k t t'.
Proof.
  intros Hd. split.
  - intros o Ho. rewrite Ho, opcode_of_value in Hd. destruct o; cbn in Hd; tauto.
  - intros Hn. destruct (opcode_of (opcode_in k)) as [o|] eqn:Ho; [|done]. destruct (Hn o). by apply opcode_of_Some.
Qed.

Lemma wp_handler_sender k (m : M Sender.Sender unit) o t (Q : unit -> TransportImpl -> Prop) :
  transport_inv t -> SenderSystem.run o = m -> SenderSystem.allowed o (sender_of t) -> preserves shared m -> finishes k m ->
  (forall t', transport_inv t' -> released k t t' -> Q tt t') ->
  wp (on_sender m) t Q.
Proof.
  intros Hi <- Ha Hsh Hf HQ. apply on_sender_spec; [done|done|].
  pose proof (SenderSystem.run_spec o (sender_of t) (proj1 Hi) Ha) as Hw. specialize (Hf (sender_of t)). unfold wp in *.
  destruct (SenderSystem.run o (sender_of t)) as [[[] s']|]; [|done]. split; [done|]. intros Ht'.
  apply HQ; [done|]. exact Hf.
Qed.

Lemma wp_handler_receiver k (m : M Receiver.Receiver unit) o t (Q : unit -> TransportImpl -> Prop) :
  transport_inv t -> ReceiverSystem.run o = m -> ReceiverSystem.allowed o (receiver_of t) ->
  wp m (receiver_of t) (fun _ r' => trace (Receiver.world r') = trace (world t) /\ (exists p n i,
      objects (Receiver.messageAllocator r') !! p = Some n /\ ReceiverMessage.packets n !! i = Some k) \/
    exists evs, trace (Receiver.world r') = trace (world t) ++ evs ++ [EvRelease [pkt_id k]]) ->
  (forall t', transport_inv t' -> released k t t' \/ kept k t t' -> Q tt t') ->
  wp (on_receiver m) t Q.
Proof.
  intros Hi <- Ha Hd HQ. apply on_receiver_spec; [done|].
  pose proof (ReceiverSystem.rcv_run_spec o (receiver_of t) (proj2 Hi) Ha) as Hw. unfold wp in *.
  destruct (ReceiverSystem.run o (receiver_of t)) as [[[] r']|]; [|done]. destruct Hw as (? & ? & _).
  split; [done|]. split; [done|]. intros Ht'. apply HQ; [done|]. destruct Hd as [[? ?]|?]; [right; by split|by left].
Qed.

Lemma wp_on_count c n t (Q : unit -> TransportImpl -> Prop) :
  transport_inv t ->
  (forall w, trace w = trace (world t) -> transport_inv (t <| world := w |>) -> Q tt (t <| world := w |>)) ->
  wp (on_world (count c n)) t Q.
Proof.
  intros Hi HQ. apply on_world_spec; [done|apply count_later|]. apply wp_count. intros Hi'. by apply HQ.
Qed.

Lemma processPacket_spec k ip t :
  transport_inv t -> packet_allowed k ip t ->
  wp (processPacket k ip) t (fun _ t' => transport_inv t' /\ disposed_by (opcode_of (opcode_in k)) k t t').
Proof.
  intros Hi (Hlen & Hbytes & Hdata). unfold processPacket, disposed_by, lost. wp_step.
  wp_step; [by apply Z.leb_le|]. wp_step. apply wp_on_count; [done|]. intros w1 Hw1 Hi1. cbv zeta.
  set (t1 := t <| world := w1 |>) in *.
  fold (opcode_in k). destruct (opcode_of (opcode_in k)) as [op|] eqn:Hop; [|wp_step; split; [done|by split_and!]].
  apply opcode_of_Some in Hop.
  destruct op; wp_step; (apply wp_on_count; [done|]); intros w2 Hw2 Hi2; set (t2 := t1 <| world := w2 |>) in *;
    (assert (trace (world t2) = trace (world t)) as Ht2 by (change (trace w2 = trace (world t)); by rewrite Hw2));
    (assert (forall t', released k t2 t' -> released k t t') as Hrel by (intros t' [evs E]; exists evs; by rewrite E, Ht2)).
  - eapply (wp_handler_receiver k _ (ReceiverSystem.OpData k ip)); [done|done|by apply Hdata| |].
    + eapply wp_mono; [apply ReceiverHandlers.handleDataPacket_spec; [apply Hi2|by apply Hdata]|].
      intros _ r' (_ & (p & m & _ & He) & _). destruct (ReceiverMessage.packets m !! _).
      * right. destruct He as (_ & _ & E). by exists [].
      * left. destruct He as (Hh & E & _). split; [done|]. eexists p, _, _. rewrite Hh, lookup_insert_eq.
        split; [done|]. unfold ReceiverMessage.received, ReceiverMessage.finished, ReceiverMessage.counted.
        repeat case_match; apply lookup_insert_eq.
    + intros t' Hi' [?|[E ?]]; (split; [done|]); [left; by apply Hrel|right; split; [by rewrite E|done]].
  - eapply (wp_handler_sender k _ (SenderSystem.OpGrant k)); [done|done|done|apply handleGrantPacket_shared
      |apply handleGrantPacket_finishes|]. auto.
  - eapply (wp_handler_sender k _ (SenderSystem.OpDone k)); [done|done|done|apply handleDonePacket_shared
      |apply handleDonePacket_finishes|]. auto.
  - eapply (wp_handler_sender k _ (SenderSystem.OpResend k)); [done|done|done|apply handleResendPacket_shared
      |apply handleResendPacket_finishes|]. auto.
  - apply on_receiver_spec; [done|].
    eapply wp_mono; [apply ReceiverHandlers.handleBusyPacket_spec; apply Hi2|]. intros _ r' (Hr & Ha).
    pose proof (ReceiverHandlers.quiet_agree _ _ _ Ha) as Hq. split; [by eapply ReceiverSystem.idle_quiet; [apply Hi2|..]|].
    split; [done|]. intros Hi'. split; [done|]. apply Hrel. exists []. apply (ReceiverInv.ag_trace _ _ _ Ha).
  - apply on_receiver_spec; [done|].
    eapply wp_mono; [apply ReceiverHandlers.handlePingPacket_spec; apply Hi2|]. intros _ r' (Hr & evs & _ & Ha).
    pose proof (ReceiverHandlers.quiet_agree _ _ _ Ha) as Hq. split; [by eapply ReceiverSystem.idle_quiet; [apply Hi2|..]|].
    split; [done|]. intros Hi'. split; [done|]. apply Hrel. exists evs. apply (ReceiverInv.ag_trace _ _ _ Ha).
  - eapply (wp_handler_sender k _ (SenderSystem.OpUnknown k)); [done|done|done|apply handleUnknownPacket_shared
      |apply handleUnknownPacket_finishes|]. auto.
  - eapply (wp_handler_sender k _ (SenderSystem.OpError k)); [done|done|done|apply handleErrorPacket_shared
      |apply handleErrorPacket_finishes|]. auto.
Qed.

(** ** The calls *)

(** The application's calls, without the handlers and [poll]. *)
Definition sender_call (o : SenderSystem.Op) : bool :=
  match o with
  | SenderSystem.OpAlloc _ | SenderSystem.OpAppend _ _ | SenderSystem.OpPrepend _ _ | SenderSystem.OpReserve _ _
  | SenderSystem.OpSend _ _ _ | SenderSystem.OpCancel _ | SenderSystem.OpDrop _ => true
  | _ => false
  end.
Definition receiver_call (o : ReceiverSystem.Op) : bool :=
  match o with
  | ReceiverSystem.OpData _ _ | ReceiverSystem.OpBusy _ | ReceiverSystem.OpPing _ _ | ReceiverSystem.OpPoll => false
  | _ => true
  end.

Definition run (o : Op) : M TransportImpl unit :=
  match o with
  | OpSender o => on_sender (SenderSystem.run o)
  | OpReceiver o => on_receiver (ReceiverSystem.run o)
  | OpPoll burst => poll burst
  end.

(** Every packet of the burst is allowed when its turn comes, and at the end the
    Receiver has fewer than 2^31 peers. *)
Fixpoint burst_allowed (burst : list (Packet * IpAddress)) t : Prop :=
  match burst with
  | [] => zlength (Receiver.scheduledPeers (receiver t)) < 2 ^ 31
  | (k, ip) :: burst => packet_allowed k ip t /\
      forall t', processPacket k ip t = Ok (tt, t') -> burst_allowed burst t'
  end.

(** [poll] starts with a reading of the clock. *)
Definition read_clock t : TransportImpl := t <| world ::= fun w => w <| clock_reads ::= S |> |>.

Definition allowed (o : Op) t : Prop :=
  match o with
  | OpSender o => sender_call o = true /\ SenderSystem.allowed o (sender_of t)
  | OpReceiver o => receiver_call o = true /\ ReceiverSystem.allowed o (receiver_of t)
  | OpPoll burst => burst_allowed burst (read_clock (read_clock t))
  end.

Definition initial t : Prop := exists fromMicroseconds tid w,
  t = TransportImpl_new fromMicroseconds tid w /\
  SenderSystem.initial (sender_of t) /\ ReceiverSystem.initial (receiver_of t).

Inductive reachable : TransportImpl -> Prop :=
  | reach_initial t : initial t -> reachable t
  | reach_run t o t' : reachable t -> allowed o t -> run o t = Ok (tt, t') -> reachable t'.

Lemma processPackets_loop burst t (Q : unit -> TransportImpl -> Prop) :
  transport_inv t -> burst_allowed burst t ->
  (forall t', transport_inv t' -> zlength (Receiver.scheduledPeers (receiver t')) < 2 ^ 31 -> Q tt t') ->
  wp (for_each burst (fun a => processPacket a.1 a.2)) t Q.
Proof.
  intros Hi Ha HQ. revert t Hi Ha. induction burst as [|[k ip] burst IH]; intros t Hi Ha; simpl in *; [by apply HQ|].
  destruct Ha as [Hk Hrest]. wp_step. destruct (wp_ok _ _ _ (processPacket_spec k ip t Hi Hk)) as ([] & t1 & E & Hi1 & _).
  unfold wp at 1. rewrite E. apply IH; [done|by apply Hrest].
Qed.

Lemma sender_run_shared o : sender_call o = true -> preserves shared (SenderSystem.run o).
Proof.
  destruct o; try done; intros _; simpl.
  - apply preserves_bind; [apply _|apply allocMessage_shared|intros a; apply preserves_ret; apply _].
  - apply message_op_shared, append_later.
  - apply message_op_shared, prepend_later.
  - apply message_op_shared, reserve_later.
  - apply sendMessage_shared.
  - apply cancelMessage_shared.
  - apply dropMessage_shared.
Qed.

Lemma read_clock_spec t (Q : Z -> TransportImpl -> Prop) :
  transport_inv t -> (forall n, transport_inv (read_clock t) -> Q n (read_clock t)) -> wp (on_world rdtsc) t Q.
Proof. intros Hi HQ. apply on_world_spec; [done|apply rdtsc_later|]. apply wp_rdtsc. intros Hi'. by apply HQ. Qed.

Lemma transport_poll_spec burst t :
  transport_inv t -> allowed (OpPoll burst) t -> wp (poll burst) t (fun _ t' => transport_inv t').
Proof.
  intros Hi Ha. unfold poll, processPackets. wp_step. apply read_clock_spec; [done|]. intros n1 Hi1.
  wp_step. wp_step. apply read_clock_spec; [done|]. intros n2 Hi2. wp_step.
  apply processPackets_loop; [done|done|]. intros t3 Hi3 Hp3.
  assert (forall t, transport_inv t -> zlength (Receiver.scheduledPeers (receiver t)) < 2 ^ 31 ->
    wp (_ ← on_sender Sender.poll; _ ← on_receiver Receiver.poll; t' ← on_world rdtsc;
        on_world (count Perf.total_cycles (Perf.timer_split n1 t').1)) t (fun _ t' => transport_inv t')) as Hrest.
  { clear -H0. intros t Hi Hp. wp_step. apply on_sender_spec; [done|apply poll_shared|].
    eapply wp_mono; [apply (SenderSystem.run_spec SenderSystem.OpPoll); [apply Hi|done]|]. intros ? s' Hs'.
    split; [done|]. intros t1 Hi1. wp_step. apply on_receiver_spec; [done|].
    eapply wp_mono; [apply (ReceiverSystem.rcv_run_spec ReceiverSystem.OpPoll); [apply Hi1|exact Hp]|].
    intros ? r' (? & ? & _). split; [done|]. split; [done|]. intros t2 Hi2. wp_step. apply read_clock_spec; [done|].
    intros n Hi3. by apply wp_on_count. }
  unfold when. destruct (0 <? zlength burst).
  - wp_step. apply read_clock_spec; [done|]. intros n4 Hi4. apply wp_on_count; [done|]. intros w5 _ Hi5. by apply Hrest.
  - wp_step. by apply Hrest.
Qed.

Lemma transport_run_spec o t : transport_inv t -> allowed o t -> wp (run o) t (fun _ t' => transport_inv t').
Proof.
  intros Hi Ha. destruct o as [o|o|burst]; simpl in *.
  - destruct Ha as [Hc Ha]. apply on_sender_spec; [done|by apply sender_run_shared|].
    eapply wp_mono; [apply SenderSystem.run_spec; [apply Hi|done]|]. intros ? s' Hs'. by split.
  - destruct Ha as [Hc Ha]. apply on_receiver_spec; [done|].
    eapply wp_mono; [apply ReceiverSystem.rcv_run_spec; [apply Hi|done]|]. intros _ r' (? & ? & _). by split_and!.
  - by apply transport_poll_spec.
Qed.

Lemma transport_reachable_inv t : reachable t -> transport_inv t.
Proof.
  induction 1 as [t (f & tid & w & _ & Hs & Hr)|t o t' _ IH Ha Hrun].
  - split; [|by apply ReceiverSystem.idle_new]. apply SenderSystem.reachable_inv. by apply SenderSystem.reach_initial.
  - pose proof (transport_run_spec o t IH Ha) as Hw. unfold wp in Hw. by rewrite Hrun in Hw.
Qed.
End system.
End TransportSystem.
