(* ===== verification/TransportProps.v ===== *)
(** * TransportProps: the properties of a transport *)

From S2P Require Import Prelude Intrusive Util Timeout ObjectPool Perf Protocol Policy Driver SenderMessage Sender SenderInv SenderSystem Sample ReceiverMessage Receiver ReceiverInv ReceiverHandlers ReceiverSystem ReceiverSample Steady Transport TransportSystem.
Import Driver Transport TransportSystem.

Module TransportProps.

Section props.
Context `{DriverLaws}.

(** C10: Every call of the transport's interface returns: a call of the application on
    the messages it holds, or a poll, whatever packets the driver hands over, as
    long as they are long enough for their header and DATA comes from conforming
    senders.  The Sender and the Receiver keep each other's invariants although they
    share the clock, the driver and the policies. *)
Theorem transport_calls_return o t :
  reachable t -> allowed o t -> exists t', run o t = Ok (tt, t') /\ reachable t'.
Proof.
  intros Hr Ha. destruct (wp_ok _ _ _ (transport_run_spec o t (transport_reachable_inv t Hr) Ha)) as ([] & t' & E & _).
  exists t'. split; [done|by eapply reach_run].
Qed.

(** C34: Every packet with a known opcode is accounted for once it is processed: the
    buffer goes back to the driver at the end of the handler, or, for DATA, stays
    in a message of the Receiver and nothing was released.  A packet with any other
    opcode is neither released nor kept: its buffer is lost. *)
Theorem packet_buffers_accounted packet ip t :
  reachable t -> packet_allowed packet ip t ->
  wp (processPacket packet ip) t (fun _ t' => disposed packet t t').
Proof.
  intros Hr Hp. eapply wp_mono; [apply processPacket_spec; [by apply transport_reachable_inv|done]|]. intros _ t' [_ ?]. by apply disposed_by_case.
Qed.
End props.

(** ** Witnesses *)

Definition transport0 : TransportImpl := TransportImpl_new (fun us => us / 100) 2 World_new.

Lemma transport0_reachable : reachable transport0.
Proof.
  apply reach_initial. exists (fun us => us / 100), 2, World_new. split; [done|]. split.
  - exists 2, 800, 60, Sample.policy, World_new. split_and!; [done|apply Sample.policy_is_ok|lia|lia|simpl; lia|simpl; lia].
  - exists 800, 20, Sample.policy, World_new.
    split_and!; [done|split; vm_compute; intuition congruence|intros n; simpl; lia|intros n; simpl; lia].
Qed.

Lemma sample_packet_allowed t :
  Receiver.messageAllocator (receiver t) = ObjectPool.ObjectPool_new ->
  packet_allowed (ReceiverSample.data_packet 1) ReceiverSample.from t.
Proof.
  intros Hn. split; [vm_compute; congruence|]. split; [apply (bool_decide_unpack _); vm_compute; exact I|].
  intros _. split; [apply ReceiverSystem.packet_okb_ok; vm_compute; reflexivity|].
  intros p m Hp. unfold receiver_of, over in Hp; cbn in Hp. rewrite Hn in Hp.
  change (objects (ObjectPool.ObjectPool_new (T := ReceiverMessage.Message))) with (∅ : gmap ptr ReceiverMessage.Message) in Hp.
  rewrite lookup_empty in Hp. discriminate Hp.
Qed.

Lemma transport_calls_return_witness :
  exists t', run (OpPoll [(ReceiverSample.data_packet 1, ReceiverSample.from)]) transport0 = Ok (tt, t') /\ reachable t'.
Proof.
  apply (transport_calls_return (OpPoll [(ReceiverSample.data_packet 1, ReceiverSample.from)])); [apply transport0_reachable|].
  split; [apply sample_packet_allowed; vm_compute; reflexivity|]. intros t' E. vm_compute in E. injection E as <-. vm_compute. reflexivity.
Defined.

Lemma packet_buffers_accounted_witness :
  wp (processPacket (ReceiverSample.data_packet 1) ReceiverSample.from) transport0 (fun _ t' =>
    disposed (ReceiverSample.data_packet 1) transport0 t').
Proof.
  apply packet_buffers_accounted; [apply transport0_reachable|apply sample_packet_allowed; vm_compute; reflexivity].
Defined.
End TransportProps.
