(* ===== verification/Host.v ===== *)
(** * Host: one transport among others

    What a transport maintains when the packets that its driver hands it agree with
    the log: what it sends agrees with the log as well, and its Receiver holds
    originals.  A burst of such packets is one that [poll] allows, so nothing more
    has to be assumed of the network. *)

From S2P Require Import Prelude Intrusive Util Timeout ObjectPool Perf Protocol Policy Driver SenderMessage Sender SenderInv SenderSystem ReceiverMessage Receiver ReceiverSchedule ReceiverInv ReceiverHandlers ReceiverSystem Transfer Steady Transport TransportSystem Wire Maintains Outgoing Incoming.
Import Driver ReceiverSchedule Steady Transport TransportSystem Transfer Wire Maintains Outgoing Incoming.

Module Host.

Section host.
Context `{DriverLaws}.
Implicit Types (t : TransportImpl) (k : Packet) (from : IpAddress) (log : Log).

(** The parts of a transport that agree with the log. *)
Record agrees log (tid next : Z) t : Prop := {
  ho_inv : transport_inv t;
  ho_out : exists K, outgoing log K tid next (sender_of t);
  ho_in : gathered log getLocalAddress (receiver_of t);
  ho_accounted : accounted log getLocalAddress (receiver_of t)
}.

(** A packet that the driver hands over, for bytes that [from] sent here. *)
Definition delivered log from k : Prop :=
  exists bs, wire_ok log from getLocalAddress bs /\ carries bs k /\ Forall Protocol.is_byte (payload k).

(** ** The parts *)

Lemma outgoing_eq log K tid next s s' :
  Sender.transportId s' = Sender.transportId s ->
  Sender.nextMessageSequenceNumber s' = Sender.nextMessageSequenceNumber s ->
  Sender.messageAllocator s' = Sender.messageAllocator s ->
  limit_ok (Sender.policyManager s') -> sent_ok log getLocalAddress (Sender.world s') ->
  outgoing log K tid next s -> outgoing log K tid next s'.
Proof. intros E1 E2 E3 Hp Hs []. split; rewrite ?E1, ?E2, ?E3; done. Qed.

Lemma gathered_mono log log' dst r : grows log log' -> gathered log dst r -> gathered log' dst r.
Proof. intros Hl Hg p m Hp. destruct (Hg p m Hp) as (o & Ho & Ha). exists o. split; [by eapply lookup_weaken, Hl|done]. Qed.

Lemma accounted_mono log log' addr r : grows log log' -> accounted log addr r -> accounted log' addr r.
Proof. intros Hl Ha p m Hp Hst Hq. by eapply (gr_handed _ _ Hl), Ha. Qed.

Lemma agrees_sender {A} (m : M Sender.Sender A) log log' tid next next' t :
  agrees log tid next t -> grows log log' -> preserves shared m ->
  wp m (sender_of t) (fun _ s' => SenderInv.inv None s') ->
  wp m (sender_of t) (fun _ s' => exists K, outgoing log' K tid next' s') ->
  wp (on_sender m) t (fun _ t' => agrees log' tid next' t').
Proof.
  intros [Hi _ Hin Hac] Hl Hsh Hw1 Hw2. apply on_sender_spec; [done|done|]. unfold wp in *.
  destruct (m (sender_of t)) as [[a s']|]; [|done]. split; [done|]. intros Hi'. split; [done| | |].
  - destruct Hw2 as [K Ho]. exists K. by destruct s'.
  - by eapply gathered_mono, Hin.
  - by eapply accounted_mono, Hac.
Qed.

Lemma agrees_steady log tid next o t :
  agrees log tid next t -> steady_call o = true -> preserves shared (SenderSystem.run o) ->
  SenderSystem.allowed o (sender_of t) ->
  wp (on_sender (SenderSystem.run o)) t (fun _ t' => agrees log tid next t').
Proof.
  intros Ht Hst Hsh Ha. pose proof (SenderSystem.run_spec o _ (proj1 (ho_inv _ _ _ _ Ht)) Ha) as Hw.
  eapply (agrees_sender _ log); [done|apply grows_refl|done|exact Hw|]. destruct (ho_out _ _ _ _ Ht) as [K Ho].
  eapply wp_mono; [eapply maintains_wp; [by apply outgoing_steady|exact Ho|exact Hw]|].
  intros ? s' (_ & Ho' & _). by exists K.
Qed.

(** [handleDonePacket] of a DONE that agrees with the log. *)
Lemma agrees_done log tid next k from t :
  agrees log tid next t -> (from, Protocol.messageId (read_header Protocol.CommonHeader k)) ∈ acked log ->
  wp (on_sender (Sender.handleDonePacket k)) t (fun _ t' => agrees log tid next t').
Proof.
  intros Ht Ha. pose proof (SenderSystem.run_spec (SenderSystem.OpDone k) _ (proj1 (ho_inv _ _ _ _ Ht)) I) as Hw.
  eapply (agrees_sender _ log); [done|apply grows_refl|apply handleDonePacket_shared|exact Hw|].
  destruct (ho_out _ _ _ _ Ht) as [K Ho].
  eapply wp_mono; [eapply maintains_wp; [eapply outgoing_handleDonePacket; by exists from|exact Ho|exact Hw]|].
  intros ? s' (_ & Ho' & _). by exists K.
Qed.

Lemma agrees_receiver_grows log log' tid next o t :
  agrees log tid next t -> grows log log' -> ReceiverSystem.allowed o (receiver_of t) ->
  match o with ReceiverSystem.OpData k from => arrives log' getLocalAddress k from | _ => True end ->
  (o = ReceiverSystem.OpReceive -> forall p m, head (Receiver.receivedMessages (receiver_of t)) = Some p ->
     Receiver.heap (receiver_of t) !! p = Some m -> (getLocalAddress, ReceiverMessage.id m) ∈ handed log') ->
  match ReceiverSystem.run o (receiver_of t) with Ok (_, r') => replies log' getLocalAddress r' | Error _ => True end ->
  wp (on_receiver (ReceiverSystem.run o)) t (fun _ t' => agrees log' tid next t').
Proof.
  intros [[Hs Hr] [K Ho] Hin Hac] Hl Ha Harr Hrec Hrep. apply (gathered_mono _ _ _ _ Hl) in Hin.
  apply (accounted_mono _ _ _ _ Hl) in Hac. apply (outgoing_mono _ _ _ _ _ _ Hl) in Ho.
  apply on_receiver_spec; [done|]. pose proof (ReceiverSystem.rcv_run_spec o _ Hr Ha) as Hw.
  pose proof (gathered_run log' getLocalAddress o _ Hr Ha Hin Harr) as Hg.
  pose proof (accounted_run log' getLocalAddress o _ Hr Ha Hac Hrec) as Hc. unfold wp in *.
  destruct (ReceiverSystem.run o (receiver_of t)) as [[a r']|]; [|done]. destruct Hw as (Hi' & Hq & _).
  split; [done|]. split; [done|]. intros Ht'. split; [done| |by destruct r'|by destruct r'].
  exists K. eapply outgoing_eq; [..|exact Ho]; try done. change (limit_ok (Receiver.policyManager r')).
  rewrite (ReceiverHandlers.qu_policy _ _ Hq). apply (og_policy _ _ _ _ _ Ho).
Qed.

Lemma agrees_receiver log tid next o t :
  agrees log tid next t -> ReceiverSystem.allowed o (receiver_of t) ->
  match o with
  | ReceiverSystem.OpData k from => arrives log getLocalAddress k from
  | ReceiverSystem.OpAcknowledge _ | ReceiverSystem.OpReceive => False
  | _ => True
  end ->
  wp (on_receiver (ReceiverSystem.run o)) t (fun _ t' => agrees log tid next t').
Proof.
  intros Ht Ha Harr. apply (agrees_receiver_grows log); [done|apply grows_refl|done|by destruct o|by intros ->|].
  destruct (ho_out _ _ _ _ Ht) as [K Ho].
  pose proof (replies_run log getLocalAddress o ltac:(by destruct o) (receiver_of t) (og_sent _ _ _ _ _ Ho)) as Hrep.
  destruct (ReceiverSystem.run o (receiver_of t)) as [[a r']|]; [apply Hrep|done].
Qed.

(** The log when the application acknowledges the message at [p]. *)
Definition log_ack log p t : Log :=
  match Receiver.heap (receiver_of t) !! p with
  | Some m => mkLog (originals log) (handed log) ({[(getLocalAddress, ReceiverMessage.id m)]} ∪ acked log)
  | None => log
  end.
Lemma log_ack_grows log p t : grows log (log_ack log p t).
Proof. unfold log_ack. case_match; [|apply grows_refl]. split; [done|done|apply union_subseteq_r]. Qed.

Lemma agrees_acknowledge log tid next p t :
  agrees log tid next t -> ReceiverSystem.allowed (ReceiverSystem.OpAcknowledge p) (receiver_of t) ->
  wp (on_receiver (ReceiverSystem.run (ReceiverSystem.OpAcknowledge p))) t (fun _ t' => agrees (log_ack log p t) tid next t').
Proof.
  intros Ht Ha. pose proof (log_ack_grows log p t) as Hg. apply (agrees_receiver_grows log); [done|done|done|done|done|].
  destruct Ha as (m & Hp & _). destruct (ho_in _ _ _ _ Ht p m Hp) as (o & _ & Has).
  apply (replies_acknowledge _ _ p m); [done|by apply (as_id _ _ _ Has)| |].
  - unfold log_ack. rewrite Hp. apply elem_of_union_l. by apply elem_of_singleton.
  - destruct (ho_out _ _ _ _ Ht) as [K Ho]. eapply Forall_impl; [apply (og_sent _ _ _ _ _ Ho)|].
    intros e. by apply event_ok_mono.
Qed.

(** The log when the application is handed the first message of the queue. *)
Definition log_receive log t : Log :=
  match head (Receiver.receivedMessages (receiver_of t)) ≫= (Receiver.heap (receiver_of t) !!.) with
  | Some m => mkLog (originals log) ({[(getLocalAddress, ReceiverMessage.id m)]} ∪ handed log) (acked log)
  | None => log
  end.
Lemma log_receive_grows log t : grows log (log_receive log t).
Proof. unfold log_receive. case_match; [|apply grows_refl]. split; [done|apply union_subseteq_r|done]. Qed.

Lemma agrees_receive log tid next t :
  agrees log tid next t ->
  wp (on_receiver (ReceiverSystem.run ReceiverSystem.OpReceive)) t (fun _ t' => agrees (log_receive log t) tid next t').
Proof.
  intros Ht. pose proof (log_receive_grows log t) as Hg. apply (agrees_receiver_grows log); [done|done|done|done| |].
  - intros _ p m Hq Hp. unfold log_receive. rewrite Hq. cbn [mbind option_bind]. rewrite Hp. apply elem_of_union_l. by apply elem_of_singleton.
  - destruct (ho_out _ _ _ _ Ht) as [K Ho]. apply (outgoing_mono _ _ _ _ _ _ Hg) in Ho.
    pose proof (replies_run (log_receive log t) getLocalAddress ReceiverSystem.OpReceive I (receiver_of t) (og_sent _ _ _ _ _ Ho)) as Hrep.
    destruct (ReceiverSystem.run ReceiverSystem.OpReceive (receiver_of t)) as [[a r']|]; [apply Hrep|done].
Qed.

Lemma agrees_world log tid next w t :
  agrees log tid next t -> trace w = trace (world t) -> transport_inv (t <| world := w |>) ->
  agrees log tid next (t <| world := w |>).
Proof.
  intros [_ [K Ho] Hin Hac] Hw Hi. split; [done| |exact Hin|exact Hac]. exists K.
  eapply outgoing_eq; [..|exact Ho]; try done; [apply (og_policy _ _ _ _ _ Ho)|].
  apply (sent_ok_quiet _ _ _ _ Hw). apply (og_sent _ _ _ _ _ Ho).
Qed.
Lemma agrees_count log tid next c n t (Q : unit -> TransportImpl -> Prop) :
  agrees log tid next t -> (forall t', agrees log tid next t' -> Q tt t') -> wp (on_world (count c n)) t Q.
Proof.
  intros Ht HQ. apply wp_on_count; [apply Ht|]. intros w Hw Hi. apply HQ. by apply agrees_world.
Qed.
Lemma agrees_clock log tid next t (Q : Z -> TransportImpl -> Prop) :
  agrees log tid next t -> (forall n t', t' = read_clock t -> agrees log tid next t' -> Q n t') -> wp (on_world rdtsc) t Q.
Proof.
  intros Ht HQ. apply read_clock_spec; [apply Ht|]. intros n Hi. apply HQ; [done|]. by apply agrees_world.
Qed.
(** ** Packets *)

Lemma delivered_opcode log from k :
  delivered log from k ->
  Protocol.header_size Protocol.CommonHeader <= length k /\ Forall Protocol.is_byte (payload k) /\
  (opcode_in k = Protocol.opcode_value Protocol.DATA -> arrives log getLocalAddress k from) /\
  (opcode_in k = Protocol.opcode_value Protocol.DONE ->
   (from, Protocol.messageId (read_header Protocol.CommonHeader k)) ∈ acked log).
Proof.
  intros (bs & Hw & Hc & Hb). split; [rewrite (ca_length _ _ Hc); apply Hw|]. split; [done|]. split; intros Hop.
  - destruct (wire_ok_arrives log from getLocalAddress bs k Hw Hc Hop) as (o & ? & _ & ? & ? & ? & ? & ? & ?). by exists o.
  - destruct Hw as (Hz & _ & Hd). revert Hop. unfold opcode_in. rewrite (carries_common _ _ Hc Hz). exact Hd.
Qed.

Lemma delivered_allowed log tid next from k t :
  agrees log tid next t -> delivered log from k -> packet_allowed k from t.
Proof.
  intros Ht Hd. destruct (delivered_opcode _ _ _ Hd) as (Hl & Hb & Harr & _). split; [done|]. split; [done|].
  intros Hop. by eapply gathered_data_ok; [apply Ht|apply Harr].
Qed.

Lemma agrees_packet log tid next from k t :
  agrees log tid next t -> delivered log from k ->
  wp (processPacket k from) t (fun _ t' => agrees log tid next t').
Proof.
  intros Ht Hd. destruct (delivered_opcode _ _ _ Hd) as (Hl & Hb & Harr & Hdone). unfold processPacket. wp_step.
  wp_step; [by apply Z.leb_le|]. wp_step. apply (agrees_count log tid next); [done|]. intros t1 Ht1. cbv zeta.
  fold (opcode_in k). destruct (opcode_of (opcode_in k)) as [op|] eqn:Hop; [|by wp_step].
  apply opcode_of_Some in Hop. destruct op; wp_step; (apply (agrees_count log tid next); [done|]); intros t2 Ht2.
  - specialize (Harr Hop). apply (agrees_receiver log tid next (ReceiverSystem.OpData k from)); [done| |done].
    by eapply gathered_data_ok; [apply Ht2|].
  - by apply (agrees_steady log tid next (SenderSystem.OpGrant k)); [| |apply handleGrantPacket_shared|].
  - by apply (agrees_done log tid next k from), Hdone.
  - by apply (agrees_steady log tid next (SenderSystem.OpResend k)); [| |apply handleResendPacket_shared|].
  - by apply (agrees_receiver log tid next (ReceiverSystem.OpBusy k)).
  - by apply (agrees_receiver log tid next (ReceiverSystem.OpPing k from)).
  - by apply (agrees_steady log tid next (SenderSystem.OpUnknown k)); [| |apply handleUnknownPacket_shared|].
  - by apply (agrees_steady log tid next (SenderSystem.OpError k)); [| |apply handleErrorPacket_shared|].
Qed.

(** ** The number of peers *)

(** The hosts that send. *)
Definition senders_in log (hosts : gset IpAddress) : Prop :=
  forall mid o, originals log !! mid = Some o -> ip (o_source o) ∈ hosts.

Lemma peers_bounded log hosts tid next t :
  agrees log tid next t -> senders_in log hosts ->
  zlength (Receiver.scheduledPeers (receiver t)) <= Z.of_nat (size hosts).
Proof.
  intros Ht Hh. destruct (proj2 (ho_inv _ _ _ _ Ht)) as [Hi _]. pose proof (ReceiverInv.inv_order _ _ Hi) as Ho.
  change (Receiver.scheduledPeers (receiver_of t)) with (Receiver.scheduledPeers (receiver t)) in Ho.
  set (peers := Receiver.scheduledPeers (receiver t)) in *.
  unfold zlength. rewrite <- (size_list_to_set (C := gset IpAddress)) by apply (io_peers_nodup _ _ _ Ho).
  apply Nat2Z.inj_le, subseteq_size. intros a Ha%elem_of_list_to_set.
  apply (io_peers _ _ _ Ho) in Ha. destruct (Receiver.scheduledMessages (receiver_of t) a) as [|p l] eqn:E; [done|].
  destruct (ReceiverInv.inv_scheduled _ _ Hi a p) as (m & Hm & Hlink); [rewrite E; by left|].
  destruct (ReceiverInv.inv_linked _ _ Hi p m a Hm Hlink) as (_ & Hsrc & _).
  destruct (ho_in _ _ _ _ Ht p m Hm) as (o & Hlog & Has). rewrite <- Hsrc, (as_source _ _ _ Has). by eapply Hh.
Qed.

(** ** poll *)

Section poll.
Variables (log : Log) (tid next : Z) (hosts : gset IpAddress).
Hypothesis Hhosts : senders_in log hosts.
Hypothesis Hcount : Z.of_nat (size hosts) < 2 ^ 31.

Lemma delivered_burst burst t :
  agrees log tid next t -> Forall (fun a => delivered log a.2 a.1) burst -> burst_allowed burst t.
Proof.
  revert t. induction burst as [|[k from] burst IH]; intros t Ht Hb; simpl.
  - pose proof (peers_bounded _ _ _ _ _ Ht Hhosts). lia.
  - apply Forall_cons in Hb as [Hk Hb]. split; [by eapply delivered_allowed|]. intros t' E. apply IH; [|done].
    pose proof (agrees_packet _ _ _ _ _ _ Ht Hk) as Hw. unfold wp in Hw. cbn [fst snd] in Hw. by rewrite E in Hw.
Qed.

Lemma agrees_poll burst t :
  agrees log tid next t -> Forall (fun a => delivered log a.2 a.1) burst ->
  allowed (OpPoll burst) t /\ wp (poll burst) t (fun _ t' => agrees log tid next t').
Proof.
  intros Ht Hb. split.
  { apply delivered_burst; [|done]. pose proof (agrees_clock log tid next) as Hc.
    assert (forall t, agrees log tid next t -> agrees log tid next (read_clock t)) as Hr.
    { intros t0 Ht0. specialize (Hc t0 (fun _ t' => agrees log tid next t') Ht0 ltac:(by intros ? ? _ ?)). exact Hc. }
    by apply Hr, Hr. }
  unfold poll, processPackets. wp_step. apply (agrees_clock log tid next); [done|]. intros n1 t1 _ Ht1.
  wp_step. wp_step. apply (agrees_clock log tid next); [done|]. intros n2 t2 _ Ht2. wp_step.
  assert (forall t, agrees log tid next t ->
    wp (_ ← on_sender Sender.poll; _ ← on_receiver Receiver.poll; t' ← on_world rdtsc;
        on_world (count Perf.total_cycles (Perf.timer_split n1 t').1)) t (fun _ t' => agrees log tid next t')) as Hrest.
  { intros t3 Ht3. wp_step. eapply wp_mono; [by apply (agrees_steady log tid next SenderSystem.OpPoll); [| |apply poll_shared|]|].
    intros ? t4 Ht4. wp_step. eapply wp_mono; [apply (agrees_receiver log tid next ReceiverSystem.OpPoll); [done| |done]|].
    - pose proof (peers_bounded _ _ _ _ _ Ht4 Hhosts). change (zlength (Receiver.scheduledPeers (receiver t4)) < 2 ^ 31). lia.
    - intros ? t5 Ht5. wp_step. apply (agrees_clock log tid next); [done|]. intros n t6 _ Ht6. by apply (agrees_count log tid next). }
  eapply (wp_for_each (fun l t => agrees log tid next t /\ Forall (fun a => delivered log a.2 a.1) l)); [done| |].
  - intros [k from] l t3 [Ht3 [Hk Hl]%Forall_cons]. eapply wp_mono; [by eapply agrees_packet|]. intros ? t4 Ht4. by split.
  - intros t3 [Ht3 _]. unfold when. destruct (0 <? zlength burst); [|by apply Hrest].
    wp_step. apply (agrees_clock log tid next); [done|]. intros n t4 _ Ht4. apply (agrees_count log tid next); [done|]. intros t5 Ht5.
    by apply Hrest.
Qed.
End poll.
(** ** Every call *)

Definition log_of log (o : Op) t : Log := 
  match o with
  | OpSender o => log_after log o (sender_of t)
  | OpReceiver ReceiverSystem.OpReceive => log_receive log t
  | OpReceiver (ReceiverSystem.OpAcknowledge p) => log_ack log p t
  | _ => log
  end.
Definition next_of (o : Op) (next : Z) : Z := match o with OpSender o => next_after o next | _ => next end.

(** What the interface of a transport asks, if the packets of a burst are what the
    network may hand over. *)
Definition host_allowed log (o : Op) t : Prop :=
  match o with
  | OpSender o => sender_call o = true /\ SenderSystem.allowed o (sender_of t) /\ typed o
  | OpReceiver o => receiver_call o = true /\ ReceiverSystem.allowed o (receiver_of t)
  | OpPoll burst => Forall (fun a => delivered log a.2 a.1) burst
  end.

Lemma log_of_grows log tid next o t :
  agrees log tid next t -> originals log !! Protocol.mkMessageId tid next = None -> grows log (log_of log o t).
Proof.
  intros Ht Hf. destruct (ho_out _ _ _ _ Ht) as [K [Et En _ _ _]]. destruct o as [o|o|]; simpl; [| |apply grows_refl].
  - unfold log_after. destruct o; try apply grows_refl. case_match; [|apply grows_refl]. apply log_send_grows. by rewrite Et, En.
  - destruct o; try apply grows_refl; [apply log_receive_grows|apply log_ack_grows].
Qed.

Lemma agrees_run log tid next hosts o t :
  agrees log tid next t -> host_allowed log o t -> senders_in log hosts -> Z.of_nat (size hosts) < 2 ^ 31 ->
  0 <= tid < 2 ^ 64 -> originals log !! Protocol.mkMessageId tid next = None ->
  allowed o t /\ wp (run o) t (fun _ t' => agrees (log_of log o t) tid (next_of o next) t').
Proof.
  intros Ht Ha Hh Hn Htid Hf. pose proof (log_of_grows _ _ _ o t Ht Hf) as Hgrow.
  destruct o as [o|o|burst]; [| |by eapply agrees_poll].
  - destruct Ha as (Hc & Ha & Hty). split; [by split|]. destruct (ho_out _ _ _ _ Ht) as [K Ho].
    pose proof (proj1 (ho_inv _ _ _ _ Ht)) as Hi. eapply (agrees_sender _ log); [done|done|by apply sender_run_shared| |].
    + by apply SenderSystem.run_spec.
    + eapply outgoing_run; try done. by destruct o.
  - destruct Ha as (Hc & Ha). split; [by split|]. destruct o; try done; try (by apply agrees_receiver); [by apply agrees_receive|by apply agrees_acknowledge].
Qed.

(** What a call adds to the log is of this host. *)
Lemma log_of_new log tid next o t mid org :
  agrees log tid next t -> originals (log_of log o t) !! mid = Some org ->
  originals log !! mid = Some org \/
  mid = Protocol.mkMessageId tid next /\ ip (o_source org) = getLocalAddress /\ next_of o next = next + 1.
Proof.
  intros Ht. destruct (ho_out _ _ _ _ Ht) as [K [Et En Hm _ _]]. destruct o as [o|o|]; simpl; [| |by left].
  2:{ destruct o; try (by left); unfold log_receive, log_ack; case_match; by left. }
  unfold log_after. destruct o as [| | | |p dst opts| | | | | | | |]; try by left.
  destruct (Sender.heap (sender_of t) !! p) as [m|] eqn:Hp; [|by left]. unfold log_send. rewrite Et, En. cbn [originals].
  intros [[<- <-]|[_ Hl]]%lookup_insert_Some; [right|by left]. split_and!; [done| |done]. by apply (Hm p m Hp).
Qed.
Lemma log_of_acked log tid next o t host mid :
  agrees log tid next t -> (host, mid) ∈ acked (log_of log o t) ->
  (host, mid) ∈ acked log \/
  host = getLocalAddress /\ exists org, originals log !! mid = Some org /\ ip (o_destination org) = host.
Proof.
  intros Ht. destruct o as [o|o|]; simpl; [| |by left].
  { unfold log_after. destruct o; try by left. case_match; by left. }
  destruct o as [| | | |p| | | | | |]; try (by left); [unfold log_receive; case_match; by left|]. unfold log_ack.
  destruct (Receiver.heap (receiver_of t) !! p) as [m|] eqn:Hp; [|by left]. cbn [acked].
  intros [[= -> ->]%elem_of_singleton|?]%elem_of_union; [right|by left]. split; [done|].
  destruct (ho_in _ _ _ _ Ht p m Hp) as (o & Hl & Ha). exists o. split; [done|]. by apply (as_destination _ _ _ Ha).
Qed.
Lemma next_of_le o next : next <= next_of o next.
Proof. destruct o as [[]| |]; simpl; lia. Qed.

(** ** What was received *)

(** A message that the application holds is an original of the log, to this host,
    with the bytes that were sent. *)
Lemma agrees_received log tid next t p m :
  agrees log tid next t -> ReceiverSystem.delivered p m (receiver_of t) ->
  exists o, originals log !! ReceiverMessage.id m = Some o /\ ReceiverMessage.source m = o_source o /\
    ip (o_destination o) = getLocalAddress /\ ReceiverMessage.messageLength m = o_size o /\
    forall off n, 0 <= off -> 0 <= n -> off + n + o_size o < 2 ^ 31 ->
      Receiver.get_bytes p off n (receiver_of t) =
        Ok (slice off n (drop (Z.to_nat (ReceiverMessage.start m)) (o_bytes o)), receiver_of t).
Proof.
  intros Ht Hd. destruct (proj2 (ho_inv _ _ _ _ Ht)) as [Hi _]. pose proof Hd as (Hp & Hst & _).
  destruct (ho_in _ _ _ _ Ht p m Hp) as (o & Hl & Ha). pose proof Ha as [_ A1 A2 A3 A4 _]. exists o. split_and!; try done.
  intros off n Hoff Hn Hlen. rewrite <- A3 in Hlen.
  destruct (wp_ok _ _ _ (ReceiverSystem.get_bytes_spec p m off n _ Hi Hd Hoff Hn Hlen)) as (bs & r' & Hg & -> & ->).
  rewrite Hg. do 3 f_equal. pose proof (ReceiverInv.inv_message _ _ Hi p m Hp ltac:(done)) as Hok.
  pose proof (ReceiverMessage.mo_start _ Hok). unfold ReceiverMessage.data.
  fold (ReceiverMessage.range (ReceiverMessage.packets m) (ReceiverMessage.start m) (ReceiverMessage.messageLength m - ReceiverMessage.start m)).
  rewrite (assembled_range getLocalAddress o m); [|done|by apply ReceiverMessage.complete_state|done|lia|lia|lia].
  unfold slice. rewrite A3. apply take_ge. rewrite length_drop. unfold o_size, zlength. lia.
Qed.

(** ** What was acknowledged *)

(** A message that the Sender reports as completed. *)
Lemma agrees_completed log tid next t p m :
  agrees log tid next t -> Sender.heap (sender_of t) !! p = Some m -> SenderMessage.state m = SenderMessage.COMPLETED ->
  exists o host, originals log !! SenderMessage.id m = Some o /\ SenderMessage.source m = o_source o /\
    SenderMessage.destination m = o_destination o /\ (host, SenderMessage.id m) ∈ acked log.
Proof.
  intros Ht Hp Hst. destruct (ho_out _ _ _ _ Ht) as [K Ho].
  destruct (og_messages _ _ _ _ _ Ho p m Hp) as (Hk & _ & _ & _ & Hd). destruct (Hd Hst) as [host Ha].
  destruct (K !! p) as [mid|]; [|by destruct Hk as (_ & _ & ? & _)]. destruct Hk as (_ & o & Hl & [<- _ S3 S4 _]). by exists o, host.
Qed.
End host.
End Host.
