(* ===== verification/Network.v ===== *)
(** * Network: any number of transports and a network that loses, delays,
    duplicates and reorders packets

    A [Net] is a transport per address and the log of what was sent, received and
    acknowledged.
    A step is one call at one host: of the application, or a poll whose burst is
    made of packets that some host has sent there, each in a buffer of this host's
    driver.  Nothing else is assumed of the network: a packet may be handed over
    at any time after it was sent, any number of times or never.  The drivers of the
    hosts differ in all but the size of a packet. *)

From S2P Require Import Prelude Intrusive Util Timeout ObjectPool Perf Protocol Policy Driver SenderMessage Sender SenderInv SenderSystem ReceiverMessage Receiver ReceiverHandlers ReceiverSystem Transfer Steady Transport TransportSystem Wire Maintains Outgoing Incoming Host.
Import Driver SenderMessage ReceiverMessage Steady Transport TransportSystem Transfer Wire Maintains Outgoing Incoming Host.

Module Network.

(** A driver for each address. *)
Class Hosts := {
  driver_of : IpAddress -> Driver;
  driver_laws a :: DriverLaws (H := driver_of a);
  driver_address a : getLocalAddress (Driver := driver_of a) = a;
  driver_payload a b : getMaxPayloadSize (Driver := driver_of a) = getMaxPayloadSize (Driver := driver_of b)
}.

Record Net := mkNet { transports : gmap IpAddress TransportImpl; log : Log }.

Section network.
Context `{Hosts}.
Implicit Types (N : Net) (a b from : IpAddress) (t : TransportImpl) (k : Packet).

(** The host at [from] has sent these bytes to [a]. *)
Definition in_flight N from a (bytes : list Z) : Prop :=
  exists t prio, transports N !! from = Some t /\ EvSend a prio bytes ∈ trace (world t).

(** The driver of [a] may hand over [k] as a packet from [from]. *)
Definition arrives_at N a k from : Prop :=
  exists bytes, in_flight N from a bytes /\ carries (H := driver_of a) bytes k /\ Forall Protocol.is_byte (payload k).

Definition net_allowed N a (o : Op) t : Prop :=
  match o with
  | OpSender o => sender_call o = true /\ SenderSystem.allowed o (sender_of t) /\ typed o
  | OpReceiver o => receiver_call o = true /\ ReceiverSystem.allowed (H := driver_of a) o (receiver_of t)
  | OpPoll burst => Forall (fun x => arrives_at N a x.1 x.2) burst
  end.

(** New transports with ids of their own, that have sent nothing yet. *)
Record initial N : Prop := {
  ini_log : log N = mkLog ∅ ∅ ∅;
  ini_transport a t : transports N !! a = Some t -> TransportSystem.initial (H := driver_of a) t;
  ini_trace a t : transports N !! a = Some t -> trace (world t) = [];
  ini_limit a t : transports N !! a = Some t ->
    packets_for (H := driver_of a) (Policy.RTT_BYTES (policyManager t)) <= MAX_MESSAGE_PACKETS;
  ini_id a t : transports N !! a = Some t -> 0 <= Sender.transportId (sender t) < 2 ^ 64;
  ini_ids a b t u : transports N !! a = Some t -> transports N !! b = Some u ->
    Sender.transportId (sender t) = Sender.transportId (sender u) -> a = b;
  ini_size : Z.of_nat (size (transports N)) < 2 ^ 31
}.

Inductive reachable : Net -> Prop :=
  | net_initial N : initial N -> reachable N
  | net_step N a t o t' : reachable N -> transports N !! a = Some t -> net_allowed N a o t ->
      run (H := driver_of a) o t = Ok (tt, t') ->
      reachable (mkNet (<[a := t']> (transports N)) (log_of (H := driver_of a) (log N) o t)).

(** ** The invariant *)

(** The same packets are in agreement with the log for all drivers. *)
Lemma wire_ok_payload a b lg addr dst bs :
  wire_ok (H := driver_of a) lg addr dst bs -> wire_ok (H := driver_of b) lg addr dst bs.
Proof.
  assert (PACKET_DATA_LENGTH (H := driver_of a) = PACKET_DATA_LENGTH (H := driver_of b)) as E
    by (unfold PACKET_DATA_LENGTH; by rewrite (driver_payload a b)).
  intros (Hz & Hd & Hn). split; [done|]. split; [|exact Hn]. intros Hop. destruct (Hd Hop) as (o & i & Hl & Ha & Hdst & Hok & [B1 B2 B3 B4]).
  exists o, i. split_and!; try done.
  - unfold original_ok, maxMessageLength in *. by rewrite <- E.
  - unfold packets_for, chunk in *. rewrite E in *. by split.
Qed.

Definition tid t : Z := Sender.transportId (sender t).
Definition next t : Z := Sender.nextMessageSequenceNumber (sender t).

Record net_inv N : Prop := {
  ni_reachable a t : transports N !! a = Some t -> TransportSystem.reachable (H := driver_of a) t;
  ni_agrees a t : transports N !! a = Some t -> agrees (H := driver_of a) (log N) (tid t) (next t) t;
  ni_id a t : transports N !! a = Some t -> 0 <= tid t < 2 ^ 64;
  ni_ids a b t u : transports N !! a = Some t -> transports N !! b = Some u -> tid t = tid u -> a = b;
  ni_log mid o : originals (log N) !! mid = Some o -> exists t, transports N !! ip (o_source o) = Some t /\
    Protocol.transportId mid = tid t /\ Protocol.sequence mid < next t;
  ni_acked host mid : (host, mid) ∈ acked (log N) ->
    exists o, originals (log N) !! mid = Some o /\ ip (o_destination o) = host;
  ni_size : Z.of_nat (size (transports N)) < 2 ^ 31
}.

Lemma net_fresh N a t :
  net_inv N -> transports N !! a = Some t -> originals (log N) !! Protocol.mkMessageId (tid t) (next t) = None.
Proof.
  intros Hi Ht. destruct (originals (log N) !! _) as [o|] eqn:Hl; [|done]. exfalso.
  destruct (ni_log _ Hi _ _ Hl) as (u & Hu & E & Hlt). simpl in *.
  assert (a = ip (o_source o)) as -> by (eapply (ni_ids _ Hi); done). simplify_eq. lia.
Qed.

Lemma net_senders N : net_inv N -> senders_in (log N) (dom (transports N)).
Proof. intros Hi mid o Hl. destruct (ni_log _ Hi _ _ Hl) as (t & Ht & _). by apply elem_of_dom. Qed.

Lemma net_delivered N a k from : net_inv N -> arrives_at N a k from -> delivered (H := driver_of a) (log N) from k.
Proof.
  intros Hi (bs & (t & prio & Ht & Hev) & Hc & Hb). exists bs. split; [|done]. apply (wire_ok_payload from).
  rewrite driver_address. destruct (ni_agrees _ Hi from t Ht) as [_ [K Ho] _]. pose proof (og_sent _ _ _ _ _ Ho) as Hs.
  rewrite (driver_address from) in Hs. unfold sent_ok in Hs. rewrite Forall_forall in Hs. by apply (Hs _ Hev).
Qed.

Lemma net_host_allowed N a o t : net_inv N -> net_allowed N a o t -> host_allowed (H := driver_of a) (log N) o t.
Proof.
  intros Hi. destruct o as [o|o|burst]; simpl; try done. intros Hb. eapply Forall_impl; [exact Hb|].
  intros [k from] Hk. by apply net_delivered.
Qed.

(** An allowed call returns, and its host agrees with the log that it leaves. *)
Lemma net_run N a o t :
  net_inv N -> transports N !! a = Some t -> net_allowed N a o t ->
  TransportSystem.allowed (H := driver_of a) o t /\
  wp (run (H := driver_of a) o) t (fun _ t' =>
    agrees (H := driver_of a) (log_of (H := driver_of a) (log N) o t) (tid t) (next_of o (next t)) t').
Proof.
  intros Hi Ht Ha. eapply (agrees_run (log N) (tid t) (next t) (dom (transports N))); [by apply ni_agrees| | | | |].
  - by apply net_host_allowed.
  - by apply net_senders.
  - rewrite size_dom. apply Hi.
  - by eapply ni_id.
  - by apply (net_fresh N a).
Qed.

(** A log that grows keeps every host in agreement. *)
Lemma agrees_mono `{Driver} lg lg' td nx t : grows lg lg' -> agrees lg td nx t -> agrees lg' td nx t.
Proof.
  intros Hl [Hi [K Ho] Hg Ha]. split; [done| |by eapply gathered_mono|by eapply accounted_mono]. exists K. by eapply outgoing_mono.
Qed.

Lemma agrees_initial `{DriverLaws} lg t :
  TransportSystem.initial t -> trace (world t) = [] ->
  packets_for (Policy.RTT_BYTES (policyManager t)) <= MAX_MESSAGE_PACKETS ->
  agrees lg (tid t) (next t) t.
Proof.
  intros Hi Htr Hl. pose proof (transport_reachable_inv t (reach_initial _ Hi)) as Hinv.
  destruct Hi as (f & id & w & -> & (? & ? & ? & pol & w1 & Es & Hpol & _) & _).
  assert (Sender.policyManager (sender_of (TransportImpl_new f id w)) = pol) as Ep by (by rewrite Es).
  split; [done| | |].
  - exists ∅. split; [done|done| | |].
    + intros p m Hp. discriminate (eq_trans (eq_sym (lookup_empty p)) Hp).
    + split; [by rewrite Ep|done].
    + unfold sent_ok. change (Sender.world (sender_of (TransportImpl_new f id w))) with w. cbn in Htr. rewrite Htr. by apply Forall_nil.
  - intros p m Hp. discriminate (eq_trans (eq_sym (lookup_empty p)) Hp).
  - intros p m Hp. discriminate (eq_trans (eq_sym (lookup_empty p)) Hp).
Qed.

Lemma net_inv_initial N : initial N -> net_inv N.
Proof.
  intros []. split; try done.
  - intros a t Ht. apply reach_initial. by eapply ini_transport0.
  - intros a t Ht. apply agrees_initial; [by eapply ini_transport0|by eapply ini_trace0|by eapply ini_limit0].
  - intros mid o. rewrite ini_log0; cbn. by rewrite lookup_empty.
  - intros host mid. rewrite ini_log0; cbn. by rewrite elem_of_empty.
Qed.

Lemma agrees_tid `{Driver} lg td nx t : agrees lg td nx t -> tid t = td /\ next t = nx.
Proof. intros [_ [K []] _ _]. done. Qed.

Lemma net_inv_step N a t o t' :
  net_inv N -> transports N !! a = Some t -> net_allowed N a o t -> run (H := driver_of a) o t = Ok (tt, t') ->
  net_inv (mkNet (<[a := t']> (transports N)) (log_of (H := driver_of a) (log N) o t)).
Proof.
  intros Hi Ht Ha E. destruct (net_run N a o t Hi Ht Ha) as [Hal Hw]. unfold wp in Hw. rewrite E in Hw.
  destruct (agrees_tid _ _ _ _ Hw) as [Etid Enext]. pose proof (next_of_le o (next t)) as Hle.
  pose proof (log_of_grows _ _ _ o _ (ni_agrees _ Hi a t Ht) (net_fresh N a t Hi Ht)) as Hgrow.
  split; simpl.
  - intros b u [[<- <-]|[_ Hu]]%lookup_insert_Some; [|by apply Hi]. eapply reach_run; [by apply Hi|done|done].
  - intros b u [[<- <-]|[_ Hu]]%lookup_insert_Some; [by rewrite Etid, Enext|].
    eapply agrees_mono; [exact Hgrow|by apply Hi].
  - intros b u [[<- <-]|[_ Hu]]%lookup_insert_Some; [rewrite Etid|]; by eapply ni_id.
  - intros b c u v [[<- <-]|[Hb Hu]]%lookup_insert_Some [[<- <-]|[Hc Hv]]%lookup_insert_Some; rewrite ?Etid; try done;
      by eapply (ni_ids N Hi).
  - intros mid org Hl. destruct (log_of_new _ _ _ _ _ _ _ (ni_agrees _ Hi a t Ht) Hl) as [Hold|(-> & Eip & En)].
    + destruct (ni_log _ Hi _ _ Hold) as (u & Hu & Eu & Hlt). destruct (decide (a = ip (o_source org))) as [->|Hne].
      * exists t'. rewrite lookup_insert_eq. simplify_eq. rewrite Etid, Enext. split_and!; [done|done|lia].
      * exists u. by rewrite lookup_insert_ne.
    + rewrite driver_address in Eip. exists t'. rewrite Eip, lookup_insert_eq. simpl. rewrite Etid, Enext, En.
      split_and!; [done|done|lia].
  - intros host mid Hin. destruct (log_of_acked _ _ _ _ _ _ _ (ni_agrees _ Hi a t Ht) Hin) as [Hold|(_ & org & Hl & Hd)].
    + destruct (ni_acked _ Hi _ _ Hold) as (org & Hl & Hd). exists org. split; [by eapply lookup_weaken, Hgrow|done].
    + exists org. split; [by eapply lookup_weaken, Hgrow|done].
  - rewrite <- (size_dom (D := gset IpAddress)), dom_insert_lookup_L by done. rewrite size_dom. apply Hi.
Qed.

Lemma net_reachable_inv N : reachable N -> net_inv N.
Proof. induction 1; [by apply net_inv_initial|by eapply net_inv_step]. Qed.
End network.
End Network.
