(* ===== verification/Service.v ===== *)
(** * Service: what a network of transports promises to its applications

    The applications see that they send, receive and acknowledge messages and that a
    message is reported as completed; packets, timeouts, grants and resends are not
    seen.  [Service] is the abstract service: it knows which messages were sent, which
    were received where and which were acknowledged, and [serve] is its only step, that
    accepts an observation or refuses it.  [traced] collects the observations along a
    run of the network.  Every trace is one that the service accepts, one observation
    after the other, and its state is then the log of the network. *)

From S2P Require Import Prelude Intrusive Util Timeout ObjectPool Perf Protocol Policy Driver SenderMessage Sender SenderInv SenderSystem ReceiverMessage Receiver ReceiverInv ReceiverHandlers ReceiverSystem Transfer Steady Transport TransportSystem Wire Maintains Outgoing Incoming Host Network.
Import Driver Transport TransportSystem Transfer Wire Outgoing Incoming Host Network.

Module Service.

Implicit Types (mid : Protocol.MessageId) (host : IpAddress).

(** ** The service *)

Inductive Observation :=
  | Sends mid (o : Original)
  | Receives host mid (source : SocketAddress) (bytes : list Z)
  | Acknowledges host mid
  | Completes host mid.

Record Service := mkService {
  sent : gmap Protocol.MessageId Original;
  received : gset (IpAddress * Protocol.MessageId);
  acknowledged : gset (IpAddress * Protocol.MessageId)
}.
Definition Service_new : Service := mkService ∅ ∅ ∅.

(** A message is sent under an id of its own; it is received at its destination only,
    with its source and its bytes; what was received may be acknowledged; and a
    message is reported as completed at its source, if its destination acknowledged
    it. *)
Definition serve (e : Observation) (S : Service) : option Service :=
  match e with
  | Sends mid o =>
      match sent S !! mid with
      | None => Some (mkService (<[mid := o]> (sent S)) (received S) (acknowledged S))
      | Some _ => None
      end
  | Receives host mid source bytes =>
      o ← sent S !! mid;
      if bool_decide (ip (o_destination o) = host /\ source = o_source o /\ bytes = o_bytes o)
      then Some (mkService (sent S) ({[(host, mid)]} ∪ received S) (acknowledged S)) else None
  | Acknowledges host mid =>
      if bool_decide ((host, mid) ∈ received S)
      then Some (mkService (sent S) (received S) ({[(host, mid)]} ∪ acknowledged S)) else None
  | Completes host mid =>
      o ← sent S !! mid;
      if bool_decide (ip (o_source o) = host /\ (ip (o_destination o), mid) ∈ acknowledged S) then Some S else None
  end.
Fixpoint serve_all (es : list Observation) (S : Service) : option Service :=
  match es with
  | [] => Some S
  | e :: es => S ← serve e S; serve_all es S
  end.

Lemma serve_all_app es es' S : serve_all (es ++ es') S = serve_all es S ≫= serve_all es'.
Proof. revert S. induction es as [|e es IH]; intros S; simpl; [done|]. destruct (serve e S); simpl; [apply IH|done]. Qed.
Lemma serve_all_snoc es e S : serve_all (es ++ [e]) S = serve_all es S ≫= serve e.
Proof. rewrite serve_all_app. destruct (serve_all es S) as [S'|]; simpl; [|done]. by destruct (serve e S'). Qed.

(** What the state of the service says of the observations. *)
Record recorded (es : list Observation) (S : Service) : Prop := {
  re_sent mid o : sent S !! mid = Some o -> Sends mid o ∈ es;
  re_received host mid : (host, mid) ∈ received S -> exists o, sent S !! mid = Some o /\
    ip (o_destination o) = host /\ Receives host mid (o_source o) (o_bytes o) ∈ es;
  re_acknowledged host mid : (host, mid) ∈ acknowledged S -> (host, mid) ∈ received S /\ Acknowledges host mid ∈ es
}.

Lemma serve_recorded es e S S' : serve e S = Some S' -> recorded es S -> recorded (es ++ [e]) S'.
Proof.
  intros He [R1 R2 R3]. assert (forall e', e' ∈ es -> e' ∈ es ++ [e]) as Hold by (intros; apply elem_of_app; by left).
  assert (e ∈ es ++ [e]) as Hnew by (apply elem_of_app; right; by left).
  destruct e as [mid o|host mid src bs|host mid|host mid]; simpl in He.
  - destruct (sent S !! mid) eqn:Hf; [done|]. injection He as <-. split; simpl.
    + intros mid' o' [[<- <-]|[_ ?]]%lookup_insert_Some; auto.
    + intros host mid' (o' & Ho' & ? & ?)%R2. exists o'. split_and!; [|done|by apply Hold].
      by rewrite lookup_insert_ne by congruence.
    + intros host mid' [? ?]%R3. auto.
  - destruct (sent S !! mid) as [o|] eqn:Ho; [|done]. simpl in He. case_bool_decide as Hd; [|done].
    destruct Hd as (Hd & -> & ->). injection He as <-. split; simpl; [auto| |].
    + intros host' mid' [[= -> ->]%elem_of_singleton|(o' & ? & ? & ?)%R2]%elem_of_union; [by exists o|].
      exists o'. auto.
    + intros host' mid' [? ?]%R3. split; [by apply elem_of_union_r|auto].
  - case_bool_decide as Hr; [|done]. injection He as <-. split; simpl; [auto| |].
    + intros host' mid' (o' & ? & ? & ?)%R2. exists o'. auto.
    + intros host' mid' [[= -> ->]%elem_of_singleton|[? ?]%R3]%elem_of_union; auto.
  - destruct (sent S !! mid) as [o|]; [|done]. simpl in He. case_bool_decide; [|done]. injection He as <-.
    split; [auto| |].
    + intros host' mid' (o' & ? & ? & ?)%R2. exists o'. auto.
    + intros host' mid' [? ?]%R3. auto.
Qed.

Lemma serve_all_recorded es S : serve_all es Service_new = Some S -> recorded es S.
Proof.
  revert S. induction es as [|e es IH] using rev_ind; intros S.
  - intros [= <-]. split; simpl; [intros ? ?; by rewrite lookup_empty|intros ? ?; by rewrite elem_of_empty..].
  - rewrite serve_all_snoc. destruct (serve_all es Service_new) as [S0|]; simpl; [|done].
    intros He. eapply serve_recorded; [exact He|]. by apply IH.
Qed.

(** ** What is observed of the network *)

Section host.
Context `{DriverLaws}.
Implicit Types (t : TransportImpl).

(** What the application at this host does in the call. *)
Definition observed_call (o : Op) t : list Observation :=
  match o with
  | OpSender (SenderSystem.OpSend p dst _) =>
      match Sender.heap (sender_of t) !! p with
      | Some m => [Sends (Protocol.mkMessageId (tid t) (next t)) (original_of m dst)]
      | None => []
      end
  | OpReceiver ReceiverSystem.OpReceive =>
      match head (Receiver.receivedMessages (receiver_of t)) ≫= (Receiver.heap (receiver_of t) !!.) with
      | Some m => [Receives getLocalAddress (ReceiverMessage.id m) (ReceiverMessage.source m)
                     (ReceiverMessage.range (ReceiverMessage.packets m) 0 (ReceiverMessage.messageLength m))]
      | None => []
      end
  | OpReceiver (ReceiverSystem.OpAcknowledge p) =>
      match Receiver.heap (receiver_of t) !! p with
      | Some m => [Acknowledges getLocalAddress (ReceiverMessage.id m)]
      | None => []
      end
  | _ => []
  end.

(** The messages that the Sender reports as completed after the call, and did not
    before. *)
Definition completed_in t (p : ptr) mid : bool :=
  match Sender.heap (sender_of t) !! p with
  | Some m => bool_decide (SenderMessage.id m = mid /\ SenderMessage.state m = SenderMessage.COMPLETED)
  | None => false
  end.
Definition completions t t' : list Observation :=
  omap (fun '(p, m) =>
    if completed_in t' p (SenderMessage.id m) && negb (completed_in t p (SenderMessage.id m))
    then Some (Completes getLocalAddress (SenderMessage.id m)) else None) (map_to_list (Sender.heap (sender_of t'))).

Definition observed (o : Op) t t' : list Observation := observed_call o t ++ completions t t'.

(** The state of the service that the log stands for. *)
Definition service_of (lg : Log) : Service := mkService (originals lg) (handed lg) (acked lg).

(** The first message of the queue is complete, with the bytes that were sent. *)
Lemma queued_original lg td nx t p m :
  agrees lg td nx t -> head (Receiver.receivedMessages (receiver_of t)) = Some p ->
  Receiver.heap (receiver_of t) !! p = Some m ->
  exists o, originals lg !! ReceiverMessage.id m = Some o /\ ip (o_destination o) = getLocalAddress /\
    ReceiverMessage.source m = o_source o /\
    ReceiverMessage.range (ReceiverMessage.packets m) 0 (ReceiverMessage.messageLength m) = o_bytes o.
Proof.
  intros Ht Hq Hp. destruct (proj2 (ho_inv _ _ _ _ Ht)) as [Hi _]. destruct (ho_in _ _ _ _ Ht p m Hp) as (o & Hl & Has).
  exists o. split_and!; [done|apply Has|apply Has|]. pose proof (ReceiverInv.inv_message _ _ Hi p m Hp ltac:(done)) as Hok.
  destruct (ReceiverInv.inv_received _ _ Hi p) as (m' & Hp' & Hst).
  { destruct (Receiver.receivedMessages (receiver_of t)) as [|q l]; [done|]. injection Hq as ->. by left. }
  simplify_eq. rewrite (as_length _ _ _ Has).
  rewrite (assembled_range getLocalAddress o m); [|done|by apply ReceiverMessage.complete_state|done|lia|apply Zle_0_nat|lia].
  unfold slice. rewrite Z2Nat.inj_0, drop_0. apply take_ge. unfold o_size, zlength. lia.
Qed.

End host.

Section network.
Context `{Hosts}.
Implicit Types (N : Net) (a : IpAddress) (t : TransportImpl).

(** A run of the network and what is observed of it. *)
Inductive traced : Net -> list Observation -> Prop :=
  | traced_initial N : initial N -> traced N []
  | traced_step N es a t o t' : traced N es -> transports N !! a = Some t -> net_allowed N a o t ->
      run (H := driver_of a) o t = Ok (tt, t') ->
      traced (mkNet (<[a := t']> (transports N)) (log_of (H := driver_of a) (log N) o t)) (es ++ observed (H := driver_of a) o t t').

Lemma traced_reachable N es : traced N es -> reachable N.
Proof. induction 1; [by apply net_initial|by eapply net_step]. Qed.

(** ** Simulation *)

Lemma serve_call N a t o :
  net_inv N -> transports N !! a = Some t -> net_allowed N a o t ->
  serve_all (observed_call (H := driver_of a) o t) (service_of (log N)) = Some (service_of (log_of (H := driver_of a) (log N) o t)).
Proof.
  intros Hi Ht Ha. pose proof (ni_agrees _ Hi a t Ht) as Hag. destruct o as [o|o|burst]; [| |done].
  - destruct o as [| | | |p dst opts| | | | | | | |]; try done. cbn [observed_call log_of]. unfold log_after.
    destruct (Sender.heap (sender_of t) !! p) as [m|]; [|done]. simpl. by rewrite (net_fresh N a t Hi Ht).
  - destruct o as [| | | |p| | | | | |]; try done; cbn [observed_call log_of].
    + unfold log_receive. destruct (head _) as [p|] eqn:Hq; [|done]. cbn [mbind option_bind].
      destruct (Receiver.heap (receiver_of t) !! p) as [m|] eqn:Hp; [|done]. simpl.
      destruct (queued_original _ _ _ _ _ _ Hag Hq Hp) as (o & Hl & Hd & Hs & Hb). rewrite Hl. simpl.
      by rewrite bool_decide_true.
    + destruct Ha as (_ & m & Hp & Hst & Hq). unfold log_ack. rewrite Hp. simpl.
      pose proof (ho_accounted _ _ _ _ Hag p m Hp Hst Hq) as Hh. by rewrite bool_decide_true.
Qed.

Lemma serve_completions N a t t' :
  net_inv N -> transports N !! a = Some t' ->
  serve_all (completions (H := driver_of a) t t') (service_of (log N)) = Some (service_of (log N)).
Proof.
  intros Hi Ht. unfold completions. set (l := map_to_list _). induction l as [|[p m] l IH]; simpl; [done|].
  destruct (completed_in t' p (SenderMessage.id m)) eqn:Hc; [|done]. destruct (completed_in t p (SenderMessage.id m)); [done|].
  simpl. unfold completed_in in Hc. destruct (Sender.heap (sender_of t') !! p) as [m'|] eqn:Hp; [|done].
  apply bool_decide_eq_true in Hc as [Eid Hst].
  destruct (agrees_completed _ _ _ _ _ _ (ni_agrees _ Hi a t' Ht) Hp Hst) as (o & host & Hl & Hs & Hd & Ha).
  destruct (ni_acked _ Hi _ _ Ha) as (o' & Hl' & <-). rewrite Eid in *. simplify_eq. rewrite Hl. simpl.
  rewrite bool_decide_true; [exact IH|]. split; [|done]. destruct (ho_out _ _ _ _ (ni_agrees _ Hi a t' Ht)) as [K Ho].
  destruct (og_messages _ _ _ _ _ Ho p m' Hp) as (_ & _ & Hip & _). by rewrite <- Hs.
Qed.

(** Every run of the network is one of the service. *)
Lemma traced_served N es : traced N es -> serve_all es Service_new = Some (service_of (log N)).
Proof.
  induction 1 as [N HN|N es a t o t' Htr IH Ht Ha Hr].
  { simpl. by rewrite (ini_log _ HN). }
  pose proof (net_reachable_inv N (traced_reachable _ _ Htr)) as Hi. unfold observed.
  rewrite serve_all_app, IH. cbn [mbind option_bind]. rewrite serve_all_app, (serve_call N a t o Hi Ht Ha). cbn [mbind option_bind].
  apply (serve_completions (mkNet (<[a := t']> (transports N)) _) a); [by eapply net_inv_step|apply lookup_insert_eq].
Qed.
End network.
End Service.
