(* ===== verification/NetworkSample.v ===== *)
(** * NetworkSample: a network to evaluate the model on

    Two hosts with the driver of Sample.v.  A script says which host makes which
    call and which of the packets sent so far the network hands over, again if it
    likes; [follow] checks each call before it makes it. *)

From S2P Require Import Prelude ObjectPool Perf Protocol Policy Driver SenderMessage Sender SenderInv SenderSystem Sample ReceiverMessage Receiver ReceiverInv ReceiverSystem Steady Transfer Transport TransportSystem Wire Outgoing Host Network Service.
Import Driver Steady Transfer Transport TransportSystem Wire Outgoing Network.

Module NetworkSample.

Definition sample_driver (a : IpAddress) : Driver := {|
  getHighestPacketPriority := 7;
  getMaxPayloadSize := 40;
  getBandwidth := 16;
  getLocalAddress := a;
  getQueuedBytes_nth := fun _ => 0;
  payload_nth := fun _ => repeat 0 40;
  rdtsc_nth := fun n => Z.min (Z.of_nat n) 100000;
  std_hash := fun v => v
|}.

Lemma sample_laws a : DriverLaws (H := sample_driver a).
Proof. split; simpl; try (intros; lia); done. Qed.

#[global] Instance hosts : Hosts := {
  driver_of := sample_driver;
  driver_laws := sample_laws;
  driver_address a := eq_refl;
  driver_payload a b := eq_refl
}.

(** ** Calls that are allowed, decided *)

Definition sends_to (a : IpAddress) (k : Packet) (e : Event) : bool :=
  match e with
  | EvSend d _ bytes => (d =? a) && bool_decide (length k = zlength bytes /\ packet_bytes k = bytes)
  | EvRelease _ => false
  end.
Definition arrivesb (N : Net) a (k : Packet) from : bool :=
  match transports N !! from with
  | Some t => existsb (sends_to a k) (trace (world t))
  | None => false
  end && (zlength (payload k) =? 40) && bool_decide (Forall Protocol.is_byte (payload k)).

Definition typedb (o : SenderSystem.Op) : bool :=
  match o with SenderSystem.OpAlloc sp => (0 <=? sp) && (sp <? 2 ^ 16) | _ => true end.

Definition net_allowedb N a (o : Op) t : bool :=
  match o with
  | OpSender o => sender_call o && SenderSystem.allowedb o (sender_of t) && typedb o
  | OpReceiver o => receiver_call o && ReceiverSystem.allowedb (H := driver_of a) o (receiver_of t)
  | OpPoll burst => forallb (fun x => arrivesb N a x.1 x.2) burst
  end.

Lemma arrivesb_arrives N a k from : arrivesb N a k from = true -> arrives_at N a k from.
Proof.
  unfold arrivesb. intros [[He Hp%Z.eqb_eq]%andb_prop Hb%bool_decide_eq_true]%andb_prop.
  destruct (transports N !! from) as [t|] eqn:Ht; [|done].
  apply existsb_exists in He as (e & Hin & He). destruct e as [d prio bytes|]; [|done].
  apply andb_prop in He as [->%Z.eqb_eq [Hl Hk]%bool_decide_eq_true]. exists bytes.
  split; [exists t, prio; split; [done|by apply list_elem_of_In]|]. split; [|done]. by split.
Qed.

Lemma net_allowedb_allowed N a o t : net_allowedb N a o t = true -> net_allowed N a o t.
Proof.
  destruct o as [o|o|burst]; simpl.
  - intros [[Hc Ha]%andb_prop Ht]%andb_prop. split; [done|]. split; [by apply SenderSystem.allowedb_allowed|].
    destruct o; simpl in *; try done. lia.
  - intros [Hc Ha]%andb_prop. split; [done|]. by apply ReceiverSystem.rcv_allowedb_allowed.
  - intros Hb. rewrite Forall_forall. intros x Hx%list_elem_of_In. apply arrivesb_arrives.
    by apply (proj1 (forallb_forall _ _) Hb).
Qed.

(** ** Scripts *)

Inductive Turn :=
  | Call (a : IpAddress) (o : Op)
  | Deliver (a from : IpAddress) (which : list nat).

(** What [from] sent so far, in order, as [a] would get it. *)
Definition packet_of (bytes : list Z) : Packet :=
  mkPacket 50 (bytes ++ repeat 0 (40 - List.length bytes)) (zlength bytes).
Definition sent_by N from : list Packet :=
  match transports N !! from with
  | Some t => omap (fun e => match e with EvSend _ _ bytes => Some (packet_of bytes) | _ => None end) (trace (world t))
  | None => []
  end.
Definition op_of N (m : Turn) : IpAddress * Op :=
  match m with
  | Call a o => (a, o)
  | Deliver a from which => (a, OpPoll (omap (fun i => (fun k => (k, from)) <$> sent_by N from !! i) which))
  end.

Fixpoint follow (ms : list Turn) N : option Net :=
  match ms with
  | [] => Some N
  | m :: ms =>
      let '(a, o) := op_of N m in
      match transports N !! a with
      | Some t =>
          if net_allowedb N a o t then
            match run (H := driver_of a) o t with
            | Ok (_, t') => follow ms (mkNet (<[a := t']> (transports N)) (Host.log_of (H := driver_of a) (log N) o t))
            | Error _ => None
            end
          else None
      | None => None
      end
  end.

Lemma net_follow_reachable ms N N' : reachable N -> follow ms N = Some N' -> reachable N'.
Proof.
  revert N. induction ms as [|m ms IH]; cbn [follow]; intros N HN; [by intros [= <-]|].
  destruct (op_of N m) as [a o]. destruct (transports N !! a) as [t|] eqn:Ht; [|done].
  destruct (net_allowedb N a o t) eqn:Ha; [|done].
  destruct (run (H := driver_of a) o t) as [[[] t']|] eqn:Hr; [|done].
  apply IH. eapply net_step; [exact HN|exact Ht|by apply net_allowedb_allowed|exact Hr].
Qed.

(** What is observed of a script. *)
Fixpoint trace_of (ms : list Turn) N : list Service.Observation :=
  match ms with
  | [] => []
  | m :: ms =>
      let '(a, o) := op_of N m in
      match transports N !! a, follow [m] N with
      | Some t, Some N' =>
          from_option (Service.observed (H := driver_of a) o t) [] (transports N' !! a) ++ trace_of ms N'
      | _, _ => []
      end
  end.

Lemma net_follow_traced ms N N' es :
  Service.traced N es -> follow ms N = Some N' -> Service.traced N' (es ++ trace_of ms N).
Proof.
  revert N es. induction ms as [|m ms IH]; cbn [follow trace_of]; intros N es HN; [intros [= <-]; by rewrite app_nil_r|].
  destruct (op_of N m) as [a o]. destruct (transports N !! a) as [t|] eqn:Ht; [|done].
  destruct (net_allowedb N a o t) eqn:Ha; [|done].
  destruct (run (H := driver_of a) o t) as [[[] t']|] eqn:Hr; [|done].
  cbn [transports]. rewrite lookup_insert_eq, app_assoc. apply IH.
  eapply Service.traced_step; [exact HN|exact Ht|by apply net_allowedb_allowed|exact Hr].
Qed.

(** ** Two hosts *)

Definition host (a : IpAddress) : TransportImpl :=
  TransportImpl_new (H := driver_of a) (fun us => us / 100) a World_new.
Definition net0 : Net := mkNet {[10 := host 10; 20 := host 20]} (mkLog ∅ ∅ ∅).

Lemma host_initial a : TransportSystem.initial (H := driver_of a) (host a).
Proof.
  exists (fun us => us / 100), a, World_new. split; [done|]. split.
  - exists a, 800, 60, Sample.policy, World_new. split_and!; [vm_compute; reflexivity|apply Sample.policy_is_ok|lia|lia|simpl; lia|simpl; lia].
  - exists 800, 20, Sample.policy, World_new.
    split_and!; [vm_compute; reflexivity|split; vm_compute; intuition congruence|intros n; simpl; lia|intros n; simpl; lia].
Qed.

Lemma host_at a t : transports net0 !! a = Some t -> t = host a /\ (a = 10 \/ a = 20).
Proof.
  simpl. intros [[<- <-]|[_ [<- <-]%lookup_singleton_Some]]%lookup_insert_Some; auto.
Qed.

Lemma net0_initial : initial net0.
Proof.
  split; try done.
  - intros a t [-> _]%host_at. apply host_initial.
  - by intros a t [-> _]%host_at.
  - intros a t [-> [-> | ->]]%host_at; vm_compute; congruence.
  - intros a t [-> [-> | ->]]%host_at; simpl; lia.
  - by intros a b t u [-> _]%host_at [-> _]%host_at.
Qed.

Lemma net0_reachable : reachable net0.
Proof. apply net_initial, net0_initial. Qed.

Definition after (ms : list Turn) : Net := default net0 (follow ms net0).
Lemma net_after_reachable ms : (if follow ms net0 is Some _ then true else false) = true -> reachable (after ms).
Proof.
  unfold after. destruct (follow ms net0) as [N|] eqn:Hf; [|done]. intros _.
  eapply net_follow_reachable; [apply net0_reachable|done].
Qed.
Lemma net_after_traced ms :
  (if follow ms net0 is Some _ then true else false) = true -> Service.traced (after ms) (trace_of ms net0).
Proof.
  unfold after. destruct (follow ms net0) as [N|] eqn:Hf; [|done]. intros _.
  apply (net_follow_traced ms net0 N []); [apply Service.traced_initial, net0_initial|done].
Qed.
Definition host_after (ms : list Turn) a : TransportImpl := default (host a) (transports (after ms) !! a).

(** Host 10 sends 27 bytes to host 20: three packets, two of them unscheduled.
    The second arrives first, and twice; the grant brings the third. *)
Definition sending : list Turn :=
  [Call 10 (OpSender (SenderSystem.OpAlloc 5));
   Call 10 (OpSender (SenderSystem.OpAppend 1%positive (Sample.bytes 27)));
   Call 10 (OpSender (SenderSystem.OpSend 1%positive Sample.peer SenderMessage.NONE));
   Call 10 (OpPoll [])].
Definition half : list Turn := sending ++ [Deliver 20 10 [1%nat]; Deliver 20 10 [1%nat; 0%nat]].
Definition transferred : list Turn :=
  half ++ [Deliver 10 20 [0%nat]; Deliver 20 10 [2%nat]; Call 20 (OpReceiver ReceiverSystem.OpReceive)].

(** The application at host 20 acknowledges, and host 10 hears of it. *)
Definition acknowledged : list Turn :=
  transferred ++ [Call 20 (OpReceiver (ReceiverSystem.OpAcknowledge 1%positive)); Deliver 10 20 [1%nat]].

Definition the_message (ms : list Turn) a : ReceiverMessage.Message :=
  default (ReceiverMessage.Message_new 0 (Protocol.mkMessageId 0 0) (SenderMessage.mkSocketAddress 0 0) 0)
    (Receiver.heap (receiver_of (host_after ms a)) !! 1%positive).

(** The messages that the applications received, in order. *)
Definition handed_out N (o : IpAddress * Op) : list (IpAddress * Protocol.MessageId) :=
  match o, transports N !! o.1 with
  | (a, OpReceiver ReceiverSystem.OpReceive), Some t =>
      match Receiver.receivedMessages (receiver_of t) with
      | p :: _ => (fun m => (a, ReceiverMessage.id m)) <$> option_list (Receiver.heap (receiver_of t) !! p)
      | [] => []
      end
  | _, _ => []
  end.
Fixpoint receipts (ms : list Turn) N : list (IpAddress * Protocol.MessageId) :=
  match ms with
  | [] => []
  | m :: ms => handed_out N (op_of N m) ++ match follow [m] N with Some N' => receipts ms N' | None => [] end
  end.

(** The packets that the network hands over. *)
Definition deliveries (ms : list Turn) : list (IpAddress * nat) :=
  ms ≫= (fun m => match m with Deliver _ from which => pair from <$> which | Call _ _ => [] end).

(** The same message with NO_RETRY.  Its first packet is late and asked for again;
    it arrives when the message was received, acknowledged and released, and
    starts a second one, whose other packets are asked for and sent. *)
Definition idle_polls (n : nat) (a : IpAddress) : list Turn := repeat (Call a (OpPoll [])) n.
Definition at_20 (o : ReceiverSystem.Op) : Turn := Call 20 (OpReceiver o).
Definition redelivered : list Turn :=
  [Call 10 (OpSender (SenderSystem.OpAlloc 5));
   Call 10 (OpSender (SenderSystem.OpAppend 1%positive (Sample.bytes 27)));
   Call 10 (OpSender (SenderSystem.OpSend 1%positive Sample.peer SenderMessage.NO_RETRY));
   Call 10 (OpPoll []); Deliver 20 10 [1%nat]] ++ idle_polls 20 20 ++
  [Deliver 10 20 [0%nat; 1%nat; 2%nat]; Deliver 20 10 [2%nat; 3%nat; 4%nat];
   at_20 ReceiverSystem.OpReceive; at_20 (ReceiverSystem.OpAcknowledge 1%positive);
   at_20 (ReceiverSystem.OpRelease 1%positive); Deliver 10 20 [3%nat]] ++ idle_polls 230 20 ++
  [Deliver 20 10 [0%nat]] ++ idle_polls 40 20 ++
  [Deliver 10 20 [4%nat; 5%nat]; Deliver 20 10 [5%nat; 6%nat]; at_20 ReceiverSystem.OpReceive].

Definition sent_message (ms : list Turn) a : SenderMessage.Message :=
  default (SenderMessage.Message_new 0) (Sender.heap (sender_of (host_after ms a)) !! 1%positive).

Example transferred_data : ReceiverMessage.data (the_message transferred 20) = Sample.bytes 27.
Proof. by vm_compute. Qed.
End NetworkSample.
