(* ===== verification/NetworkProps.v ===== *)
(** * NetworkProps: the properties of a network of transports

    Nothing is assumed of the network but that the packets it hands over were sent
    to that host: they may be lost, late, out of order or handed over many times. *)

From S2P Require Import Prelude ObjectPool Perf Protocol Policy Driver SenderMessage Sender SenderSystem Sample ReceiverMessage Receiver ReceiverSystem ReceiverProps Steady Transfer Transport TransportSystem Wire Outgoing Host Network Service NetworkSample.
Import Driver Transfer Transport TransportSystem Wire Host Network Service.

Module NetworkProps.

Section props.
Context `{Hosts}.

(** C7: Every call at every host of a network of transports returns: a call of the
    application, or a poll with any packets that other hosts have sent.  That DATA
    comes from a conforming sender is not assumed here: it holds of what the
    transports send, however packets are lost, duplicated and reordered. *)
Theorem network_calls_return N a t o :
  reachable N -> transports N !! a = Some t -> net_allowed N a o t ->
  TransportSystem.allowed (H := driver_of a) o t /\
  exists t', run (H := driver_of a) o t = Ok (tt, t') /\
    reachable (mkNet (<[a := t']> (transports N)) (log_of (H := driver_of a) (log N) o t)).
Proof.
  intros HN Ht Ha. destruct (net_run N a o t (net_reachable_inv N HN) Ht Ha) as [Hal Hw]. split; [done|].
  destruct (wp_ok _ _ _ Hw) as ([] & t' & E & _). exists t'. split; [exact E|].
  eapply net_step; [exact HN|exact Ht|exact Ha|exact E].
Qed.

(** C4: A message that a transport hands to its application is one that an application
    gave to [send] at the host that it names as its source, for this host, and [get]
    returns the bytes that were in it then: no interleaving of the hosts and no
    loss, duplication or reordering of packets mixes up, truncates or invents data. *)
Theorem network_delivers_intact N a t p m :
  reachable N -> transports N !! a = Some t -> ReceiverSystem.delivered p m (receiver_of t) ->
  exists o u, originals (log N) !! ReceiverMessage.id m = Some o /\
    transports N !! SenderMessage.ip (o_source o) = Some u /\
    Protocol.transportId (ReceiverMessage.id m) = Sender.transportId (sender u) /\
    SenderMessage.ip (o_destination o) = a /\
    ReceiverMessage.source m = o_source o /\ ReceiverMessage.messageLength m = o_size o /\
    forall off n, 0 <= off -> 0 <= n -> off + n + o_size o < 2 ^ 31 ->
      Receiver.get_bytes (H := driver_of a) p off n (receiver_of t) =
        Ok (slice off n (drop (Z.to_nat (ReceiverMessage.start m)) (o_bytes o)), receiver_of t).
Proof.
  intros HN Ht Hd. pose proof (net_reachable_inv N HN) as Hi.
  destruct (agrees_received _ _ _ _ _ _ (ni_agrees _ Hi a t Ht) Hd) as (o & Hl & Hs & Ha & Hm & Hg).
  destruct (ni_log _ Hi _ _ Hl) as (u & Hu & Hid & _). rewrite driver_address in Ha. by exists o, u.
Qed.

(** C5: The network implements the abstract message service: what the applications
    observe along any run (which messages are sent, received with which bytes,
    acknowledged and reported as completed, at which hosts) is a trace that the
    service accepts, and leads to the state that the log of the network records.
    Packets, grants, timeouts, resends and restarts are not observed. *)
Theorem network_refines_service N es :
  traced N es -> reachable N /\ serve_all es Service_new = Some (service_of (log N)).
Proof. intros Ht. split; [by eapply traced_reachable|by apply traced_served]. Qed.

(** C6: When a Sender reports a message as completed, an application gave it to [send]
    at that host before; the application at its destination received it, with all of
    its bytes, and acknowledged it.  No loss, duplication or reordering of packets
    completes a message that was not delivered. *)
Theorem network_completed_received N before host mid rest :
  traced N (before ++ Completes host mid :: rest) ->
  exists o, SenderMessage.ip (o_source o) = host /\ (Sends mid o ∈ before) /\
    (Receives (SenderMessage.ip (o_destination o)) mid (o_source o) (o_bytes o) ∈ before) /\
    (Acknowledges (SenderMessage.ip (o_destination o)) mid ∈ before).
Proof.
  intros Ht%traced_served. rewrite serve_all_app in Ht.
  destruct (serve_all before Service_new) as [S|] eqn:Hb; [|done]. cbn in Ht. apply serve_all_recorded in Hb as [R1 R2 R3].
  destruct (sent S !! mid) as [o|] eqn:Ho; [|done]. cbn in Ht. case_bool_decide as Hc; [|done]. destruct Hc as [Hsrc Hack].
  apply R3 in Hack as [Hr Hack]. apply R2 in Hr as (o' & Ho' & _ & Hr). rewrite Ho in Ho'. injection Ho' as <-.
  exists o. split_and!; [done|by apply R1|done|done].
Qed.
End props.

Import NetworkSample.

Ltac reach_net := apply net_after_reachable; vm_compute; reflexivity.

(** C32: NO_RETRY does not give the at-most-once delivery that its documentation promises:
    an application receives a message twice, although its Sender reports it as
    completed and the network handed over no packet twice.  The packet that was
    late finds no trace of the message at the Receiver, and handleResendPacket sends
    the packets of a message again in whatever state it is. *)
Theorem no_retry_redelivers :
  let mid := Protocol.mkMessageId 10 1 in
  reachable (after redelivered) /\ NoDup (deliveries redelivered) /\
  receipts redelivered net0 = [(20, mid); (20, mid)] /\
  SenderMessage.id (sent_message redelivered 10) = mid /\
  SenderMessage.options (sent_message redelivered 10) = SenderMessage.NO_RETRY /\
  SenderMessage.state (sent_message redelivered 10) = SenderMessage.COMPLETED.
Proof.
  split_and!; [reach_net|apply (bool_decide_unpack _); vm_compute; exact I|vm_compute; reflexivity..].
Qed.

(** ** Witnesses *)

Lemma host_after_at ms a : is_Some (transports (after ms) !! a) -> transports (after ms) !! a = Some (host_after ms a).
Proof. intros [t Ht]. unfold host_after. by rewrite Ht. Qed.

Definition second_packet : Packet := default (mkPacket 1 [] 0) (sent_by (after sending) 10 !! 1%nat).

Lemma network_calls_return_witness :
  let o := OpPoll [(second_packet, 10); (second_packet, 10)] in
  let N := after sending in
  TransportSystem.allowed (H := driver_of 20) o (host_after sending 20) /\
  exists t', run (H := driver_of 20) o (host_after sending 20) = Ok (tt, t') /\
    reachable (mkNet (<[20 := t']> (transports N)) (log_of (H := driver_of 20) (log N) o (host_after sending 20))).
Proof.
  apply (network_calls_return (after sending)); [reach_net|apply host_after_at|apply net_allowedb_allowed; vm_compute; reflexivity].
  eexists. vm_compute. reflexivity.
Defined.

Lemma network_delivers_intact_witness :
  exists o u, originals (log (after transferred)) !! ReceiverMessage.id (the_message transferred 20) = Some o /\
    transports (after transferred) !! SenderMessage.ip (o_source o) = Some u /\
    Protocol.transportId (ReceiverMessage.id (the_message transferred 20)) = Sender.transportId (sender u) /\
    SenderMessage.ip (o_destination o) = 20 /\
    ReceiverMessage.source (the_message transferred 20) = o_source o /\
    ReceiverMessage.messageLength (the_message transferred 20) = o_size o /\
    forall off n, 0 <= off -> 0 <= n -> off + n + o_size o < 2 ^ 31 ->
      Receiver.get_bytes (H := driver_of 20) 1%positive off n (receiver_of (host_after transferred 20)) =
        Ok (slice off n (drop (Z.to_nat (ReceiverMessage.start (the_message transferred 20))) (o_bytes o)), receiver_of (host_after transferred 20)).
Proof.
  apply (network_delivers_intact (after transferred)); [reach_net|apply host_after_at|].
  - eexists. vm_compute. reflexivity.
  - split_and!; [vm_compute; reflexivity|vm_compute; congruence|]. apply (bool_decide_eq_true _). vm_compute. reflexivity.
Defined.

(** The run in which host 20 receives and acknowledges what host 10 sent. *)
Definition sample_original : Original := mkOriginal (SenderMessage.mkSocketAddress 10 5) Sample.peer 0 (Sample.bytes 27).
Definition sample_trace : list Observation :=
  let mid := Protocol.mkMessageId 10 1 in
  [Sends mid sample_original; Receives 20 mid (o_source sample_original) (Sample.bytes 27); Acknowledges 20 mid].
Example acknowledged_trace :
  trace_of acknowledged net0 = sample_trace ++ [Completes 10 (Protocol.mkMessageId 10 1)].
Proof. vm_compute. reflexivity. Qed.

Lemma network_refines_service_witness :
  reachable (after acknowledged) /\
  serve_all (trace_of acknowledged net0) Service_new = Some (service_of (log (after acknowledged))).
Proof. apply network_refines_service, net_after_traced. vm_compute. reflexivity. Defined.

Lemma network_completed_received_witness :
  exists o, SenderMessage.ip (o_source o) = 10 /\ (Sends (Protocol.mkMessageId 10 1) o ∈ sample_trace) /\
    (Receives (SenderMessage.ip (o_destination o)) (Protocol.mkMessageId 10 1) (o_source o) (o_bytes o) ∈ sample_trace) /\
    (Acknowledges (SenderMessage.ip (o_destination o)) (Protocol.mkMessageId 10 1) ∈ sample_trace).
Proof.
  apply (network_completed_received (after acknowledged) sample_trace 10 (Protocol.mkMessageId 10 1) []).
  rewrite <- acknowledged_trace. apply net_after_traced. vm_compute. reflexivity.
Defined.
End NetworkProps.
