(* ===== verification/Float.v ===== *)
(** * Float: the doubles that the queue estimator computes with

    C++'s double is IEEE 754 binary64 with rounding to nearest, ties to even; the
    operations are those of the Standard Library's SpecFloat.  Here are the
    conversions between doubles and integers, and what rounding does to a number
    below an integer: it stays below. *)

From S2P Require Import Prelude.
From Stdlib Require Import SpecFloat.

Module Float.
#[local] Open Scope Z_scope.

Abbreviation prec := 53.
Abbreviation emax := 1024.
Abbreviation double := spec_float.

(** [static_cast<double>(n)]. *)
Definition of_Z (n : Z) : double := binary_normalize prec emax n 0 false.
Definition dsub (x y : double) : double := SFsub prec emax x y.
Definition dmul (x y : double) : double := SFmul prec emax x y.
Definition ddiv (x y : double) : double := SFdiv prec emax x y.
Definition dlt (x y : double) : bool := SFltb x y.
Definition zero : double := S754_zero false.

(** The number [m * 2 ^ e], rounded down; [static_cast] to an integer type rounds
    towards zero. *)
Definition floor_scale (m e : Z) : Z := if 0 <=? e then m * 2 ^ e else m / 2 ^ (- e).
(** [static_cast<uint32_t>(x)]; without a value it is undefined: x is not a number
    or out of range. *)
Definition to_u32 (x : double) : option Z :=
  match x with
  | S754_zero _ => Some 0
  | S754_finite s m e =>
      let n := floor_scale (Zpos m) e in
      let n := if s then - n else n in
      if (0 <=? n) && (n <? 2 ^ 32) then Some n else None
  | _ => None
  end.

(** ** Digits and shifts *)

Lemma digits_bounds p : 2 ^ (Zpos (digits2_pos p) - 1) <= Zpos p < 2 ^ Zpos (digits2_pos p).
Proof.
  induction p as [p IH|p IH|]; cbn [digits2_pos]; [..|lia]; rewrite Pos2Z.inj_succ;
    replace (Z.succ (Zpos (digits2_pos p)) - 1) with (Zpos (digits2_pos p)) by lia;
    rewrite Z.pow_succ_r by lia;
    assert (2 ^ Zpos (digits2_pos p) = 2 * 2 ^ (Zpos (digits2_pos p) - 1)) by (rewrite <- Z.pow_succ_r by lia; f_equal; lia); lia.
Qed.

Lemma digits_le p n : Zpos p < 2 ^ n -> 0 <= n -> Zpos (digits2_pos p) <= n.
Proof.
  intros Hp Hn. pose proof (digits_bounds p) as [Hl _]. apply Z.nlt_ge. intros Hlt.
  assert (2 ^ n <= 2 ^ (Zpos (digits2_pos p) - 1)) by (apply Z.pow_le_mono_r; lia). lia.
Qed.

(** [r] is [m0] shifted right by [n]; its bits tell whether anything was lost. *)
Definition shifted (m0 n : Z) (r : shr_record) : Prop :=
  shr_m r = m0 / 2 ^ n /\ (shr_r r || shr_s r = false <-> m0 mod 2 ^ n = 0).

Lemma shr_1_shifted m0 n r : 0 <= m0 -> 0 <= n -> shifted m0 n r -> shifted m0 (n + 1) (shr_1 r).
Proof.
  intros Hm Hn [Hsm Hrs]. assert (shr_m (shr_1 r) = shr_m r / 2 /\
    (shr_r (shr_1 r) || shr_s (shr_1 r) = false <-> shr_m r mod 2 = 0 /\ shr_r r || shr_s r = false)) as [H1 H2].
  { assert (0 <= shr_m r) by (rewrite Hsm; apply Z.div_pos; lia).
    destruct r as [[|[p|p|]|p] r s]; cbn in *; (split; [|destruct r, s; cbn; intuition (try congruence)]);
      try (by rewrite Pos2Z.inj_xI in *; Z.to_euclidean_division_equations; lia);
      try (by rewrite Pos2Z.inj_xO in *; Z.to_euclidean_division_equations; lia); try lia. }
  assert (0 < 2 ^ n) by lia. split.
  - rewrite H1, Hsm, Z.pow_add_r, Z.div_div by lia. done.
  - rewrite H2, Hrs, Hsm, Z.pow_add_r, Z.pow_1_r by lia. rewrite (Z.rem_mul_r m0 (2 ^ n) 2) by lia.
    pose proof (Z.mod_pos_bound m0 (2 ^ n)). pose proof (Z.mod_pos_bound (m0 / 2 ^ n) 2). nia.
Qed.

Lemma iter_shifted p m0 n r :
  0 <= m0 -> 0 <= n -> shifted m0 n r -> shifted m0 (n + Zpos p) (iter_pos shr_1 p r).
Proof.
  intros Hm. revert n r. induction p as [p IH|p IH|]; intros n r Hn Hr; cbn [iter_pos].
  - replace (n + Zpos p~1) with (n + 1 + Zpos p + Zpos p) by lia.
    apply IH; [lia|]. apply IH; [lia|]. by apply shr_1_shifted.
  - replace (n + Zpos p~0) with (n + Zpos p + Zpos p) by lia. apply IH; [lia|]. by apply IH.
  - by apply shr_1_shifted.
Qed.

(** [shr] of an exact mantissa. *)
Lemma shr_exact m e n :
  0 <= m -> exists r, shr (Build_shr_record m false false) e n = (r, e + Z.max 0 n) /\ shifted m (Z.max 0 n) r.
Proof.
  intros Hm. assert (shifted m 0 (Build_shr_record m false false)) as H0.
  { split; cbn; [by rewrite Z.div_1_r|by rewrite Z.mod_1_r]. }
  destruct n as [|p|p]; cbn [shr Z.max Z.compare]; eexists; (split; [f_equal; lia|done || exact (iter_shifted p m 0 _ Hm ltac:(lia) H0)]).
Qed.

(** Rounding goes up only when something was lost: the result is at most any
    multiple of the unit that is not less. *)
Lemma round_le m0 n r B :
  0 <= m0 -> 0 <= n -> shifted m0 n r -> m0 <= B * 2 ^ n ->
  0 <= round_nearest_even (shr_m r) (loc_of_shr_record r) <= B.
Proof.
  intros Hm Hn [Hsm Hrs] HB. assert (0 < 2 ^ n) as Hp by lia.
  assert (0 <= m0 / 2 ^ n) by (apply Z.div_pos; lia).
  assert (m0 / 2 ^ n <= B) as Hfloor by (apply Z.div_le_upper_bound; lia).
  assert (m0 mod 2 ^ n <> 0 -> m0 / 2 ^ n + 1 <= B) as Hceil.
  { intros Hne. pose proof (Z.mod_pos_bound m0 (2 ^ n) Hp). pose proof (Z.div_mod m0 (2 ^ n)). nia. }
  destruct r as [m [] []]; cbn in *; subst m; try (destruct (Z.even _)); lia ||
    (assert (m0 mod 2 ^ n <> 0) by (intros E; by apply Hrs in E); lia).
Qed.

(** ** Rounding *)

Abbreviation fexp := (SpecFloat.fexp prec emax).

Lemma fexp_eq n : fexp n = Z.max (n - 53) (-1074).
Proof. done. Qed.

Lemma digits_scaled p e B : e <= 0 -> 0 <= B < 2 ^ 32 -> Zpos p <= B * 2 ^ (- e) -> Zpos (digits2_pos p) + e <= 32.
Proof.
  intros He HB Hp. assert (Zpos (digits2_pos p) <= 32 - e); [|lia]. apply digits_le; [|lia].
  replace (32 - e) with (32 + - e) by lia. rewrite Z.pow_add_r by lia. assert (0 < 2 ^ (- e)) by lia. nia.
Qed.

(** One of the two shifts of [binary_round_aux], for a number that is at most [B]. *)
Lemma shr_fexp_below p e B :
  e <= 0 -> 0 <= B < 2 ^ 32 -> Zpos p <= B * 2 ^ (- e) ->
  exists r n, shr_fexp prec emax (Zpos p) e loc_Exact = (r, e + n) /\ 0 <= n /\ e + n <= 0 /\
    shifted (Zpos p) n r /\ Zpos p <= B * 2 ^ (- (e + n)) * 2 ^ n.
Proof.
  intros He HB Hp. pose proof (digits_scaled p e B He HB Hp). unfold shr_fexp. cbn [shr_record_of_loc Zdigits2].
  set (n := fexp _ - e). destruct (shr_exact (Zpos p) e n) as (r & -> & Hr); [lia|].
  exists r, (Z.max 0 n). subst n. rewrite fexp_eq in *. split_and!; [done|lia|lia|done|].
  rewrite <- Z.mul_assoc, <- Z.pow_add_r by lia. replace (- _ + _) with (- e) by lia. done.
Qed.

(** Rounded, a positive number that is at most the integer [B] still is. *)
Definition below (B : Z) (x : double) : Prop :=
  match x with
  | S754_zero false => True
  | S754_finite false m e => e <= 0 /\ Zpos m <= B * 2 ^ (- e)
  | _ => False
  end.

Lemma round_aux_below p e B :
  e <= 0 -> 0 <= B < 2 ^ 32 -> Zpos p <= B * 2 ^ (- e) -> below B (binary_round_aux prec emax false (Zpos p) e loc_Exact).
Proof.
  intros He HB Hp. unfold binary_round_aux.
  destruct (shr_fexp_below p e B He HB Hp) as (r & n & -> & Hn & He1 & Hr & Hle).
  assert (0 <= Zpos p) as Hp0 by lia. apply (round_le _ _ r) in Hle; [|done|done|done]. set (m2 := round_nearest_even _ _) in *.
  destruct m2 as [|p2|p2] eqn:E2; [|..]; [| |lia].
  - unfold shr_fexp. destruct (shr_exact 0 (e + n) (fexp (Zdigits2 0 + (e + n)) - (e + n))) as (r2 & E & Hr2 & _); [done|].
    cbn [shr_record_of_loc]. rewrite E, Hr2. by rewrite Z.div_0_l by lia.
  - destruct (shr_fexp_below p2 (e + n) B) as (r2 & n2 & -> & Hn2 & He2 & [Hr2 _] & Hle2); [done|done|lia|].
    rewrite Hr2. assert (0 <= Zpos p2 / 2 ^ n2) by (apply Z.div_pos; lia).
    assert (Zpos p2 / 2 ^ n2 <= B * 2 ^ (- (e + n + n2))) by (apply Z.div_le_upper_bound; lia).
    destruct (Zpos p2 / 2 ^ n2) as [|p3|p3]; [done| |lia].
    rewrite (proj2 (Z.leb_le _ _)) by lia. cbn. split; [lia|done].
Qed.

Lemma iter_xO p k : Zpos (Pos.iter xO p k) = Zpos p * 2 ^ Zpos k.
Proof.
  induction k as [|k IH] using Pos.peano_ind; [cbn; lia|].
  rewrite Pos.iter_succ, Pos2Z.inj_xO, IH, Pos2Z.inj_succ, Z.pow_succ_r; lia.
Qed.

(** Aligning to another exponent does not change the number. *)
Lemma shl_align_spec p e e' : exists p' , shl_align p e e' = (p', Z.min e e') /\ Zpos p' = Zpos p * 2 ^ (e - Z.min e e').
Proof.
  unfold shl_align. destruct (e' - e) as [|k|k] eqn:E.
  - exists p. split; [f_equal; lia|]. replace (e - _) with 0 by lia. lia.
  - exists p. split; [f_equal; lia|]. replace (e - _) with 0 by lia. lia.
  - exists (Pos.iter xO p k). split; [f_equal; lia|]. rewrite iter_xO. f_equal. f_equal. lia.
Qed.

Lemma round_below p e B :
  e <= 0 -> 0 <= B < 2 ^ 32 -> Zpos p <= B * 2 ^ (- e) -> below B (binary_round prec emax false p e).
Proof.
  intros He HB Hp. unfold binary_round. destruct (shl_align_spec p e (fexp (Zpos (digits2_pos p) + e))) as (p' & -> & Hp').
  set (e' := Z.min _ _) in *. apply round_aux_below; [lia|done|]. rewrite Hp'.
  replace (- e') with (- e + (e - e')) by lia. rewrite Z.pow_add_r by lia.
  assert (0 < 2 ^ (e - e')) by lia. nia.
Qed.

Lemma digits_unique p n : 0 <= n -> 2 ^ (n - 1) <= Zpos p < 2 ^ n -> Zpos (digits2_pos p) = n.
Proof.
  intros Hn [Hl Hh]. pose proof (digits_le p n Hh Hn). pose proof (digits_bounds p) as [_ Hd]. apply Z.le_antisymm; [done|].
  apply Z.nlt_ge. intros Hlt. assert (2 ^ Zpos (digits2_pos p) <= 2 ^ (n - 1)) by (apply Z.pow_le_mono_r; lia). lia.
Qed.

(** [static_cast<double>] of an unsigned 32-bit integer is exact. *)
Lemma of_Z_exact p : Zpos p < 2 ^ 32 ->
  exists m e, of_Z (Zpos p) = S754_finite false m e /\ e <= 0 /\ Zpos m = Zpos p * 2 ^ (- e).
Proof.
  intros Hp. assert (Zpos (digits2_pos p) <= 32) as Hd by (apply digits_le; lia).
  unfold of_Z, binary_normalize, binary_round.
  destruct (shl_align_spec p 0 (fexp (Zpos (digits2_pos p) + 0))) as (p' & -> & Hp'). rewrite fexp_eq in *.
  set (e' := Z.min _ _) in *. assert (e' = Zpos (digits2_pos p) - 53) as He' by lia.
  assert (Zpos (digits2_pos p') = 53) as Hd'.
  { apply digits_unique; [lia|]. pose proof (digits_bounds p) as [Hl Hh]. rewrite Hp', He'.
    replace (53 - 1) with ((Zpos (digits2_pos p) - 1) + (0 - (Zpos (digits2_pos p) - 53))) by lia.
    replace 53 with (Zpos (digits2_pos p) + (0 - (Zpos (digits2_pos p) - 53))) at 4 by lia.
    rewrite !Z.pow_add_r by lia. split; [apply Z.mul_le_mono_nonneg_r|apply Z.mul_lt_mono_pos_r]; lia. }
  assert (shr_fexp prec emax (Zpos p') e' loc_Exact = (Build_shr_record (Zpos p') false false, e')) as Hshr.
  { unfold shr_fexp. cbn [Zdigits2 shr_record_of_loc]. rewrite Hd', fexp_eq. by replace (_ - e') with 0 by lia. }
  exists p', e'. unfold binary_round_aux. rewrite Hshr. cbn [shr_m loc_of_shr_record round_nearest_even]. rewrite Hshr. cbn [shr_m].
  rewrite (proj2 (Z.leb_le _ _)) by lia. split_and!; [done|lia|]. by rewrite Hp'.
Qed.

(** ** Numbers that are not negative *)

(** [x] is finite and not negative, and below [2 ^ k]. *)
Definition small (k : Z) (x : double) : Prop :=
  match x with
  | S754_zero false => True
  | S754_finite false m e => Zpos (digits2_pos m) + e <= k /\ e <= k
  | _ => False
  end.

Lemma small_mono k k' x : k <= k' -> small k x -> small k' x.
Proof. destruct x as [[]|[]| |[] m e]; cbn; try done. lia. Qed.

Lemma shr_1_m r : 0 <= shr_m r -> shr_m (shr_1 r) = shr_m r / 2.
Proof.
  destruct r as [[|[p|p|]|p] r s]; cbn; intros Hr; try done;
    [rewrite Pos2Z.inj_xI|rewrite Pos2Z.inj_xO]; Z.to_euclidean_division_equations; lia.
Qed.

Lemma iter_m p r : 0 <= shr_m r -> shr_m (iter_pos shr_1 p r) = shr_m r / 2 ^ Zpos p.
Proof.
  revert r. induction p as [p IH|p IH|]; intros r Hr; cbn [iter_pos].
  - assert (0 <= shr_m (shr_1 r)) by (rewrite shr_1_m by done; apply Z.div_pos; lia).
    rewrite IH, IH, shr_1_m; [|done|done|rewrite IH by done; apply Z.div_pos; lia].
    rewrite !Z.div_div by lia. f_equal. rewrite (Pos2Z.inj_xI p). replace (2 * Zpos p + 1) with (1 + (Zpos p + Zpos p)) by lia.
    rewrite !Z.pow_add_r by lia. lia.
  - rewrite IH, IH; [|done|rewrite IH by done; apply Z.div_pos; lia].
    rewrite !Z.div_div by lia. f_equal. rewrite (Pos2Z.inj_xO p). replace (2 * Zpos p) with (Zpos p + Zpos p) by lia. by rewrite Z.pow_add_r by lia.
  - by rewrite shr_1_m.
Qed.

Lemma shr_fexp_m m e l : 0 <= m ->
  exists r n, shr_fexp prec emax m e l = (r, e + n) /\ shr_m r = m / 2 ^ n /\ n = Z.max 0 (fexp (Zdigits2 m + e) - e).
Proof.
  intros Hm. unfold shr_fexp. set (k := fexp _ - e). assert (shr_m (shr_record_of_loc m l) = m) as Hl by by destruct l as [|[]].
  exists (fst (shr (shr_record_of_loc m l) e k)), (Z.max 0 k). destruct k as [|p|p] eqn:Hk; cbn [shr fst Z.max Z.compare].
  - split_and!; [f_equal; lia|by rewrite Hl, Z.div_1_r|lia].
  - split_and!; [done|rewrite iter_m by (by rewrite Hl); by rewrite Hl|lia].
  - split_and!; [f_equal; lia|by rewrite Hl, Z.div_1_r|lia].
Qed.

Lemma Zdigits2_spec m : 0 <= m -> m < 2 ^ Zdigits2 m /\ 0 <= Zdigits2 m /\ (0 < m -> 2 ^ (Zdigits2 m - 1) <= m).
Proof. destruct m as [|p|p]; cbn [Zdigits2]; intros ?; [lia| |lia]. pose proof (digits_bounds p). lia. Qed.

Lemma Zdigits2_le m n : 0 <= m < 2 ^ n -> 0 <= n -> Zdigits2 m <= n.
Proof. destruct m as [|p|p]; cbn [Zdigits2]; intros ? ?; [done|apply digits_le; lia|lia]. Qed.

Lemma Zdigits2_shift m n : 0 <= m -> 0 <= n -> Zdigits2 (m / 2 ^ n) <= Z.max 0 (Zdigits2 m - n).
Proof.
  intros Hm Hn. destruct (Zdigits2_spec m Hm) as (Hlt & ? & _). apply Zdigits2_le; [|lia]. split; [apply Z.div_pos; lia|].
  apply Z.div_lt_upper_bound; [lia|]. rewrite <- Z.pow_add_r by lia. eapply Z.lt_le_trans; [done|]. apply Z.pow_le_mono_r; lia.
Qed.

(** Rounding keeps the sign, and overflows only for numbers that are too large. *)
Lemma round_aux_class s m e l : 0 <= m ->
  match binary_round_aux prec emax s m e l with
  | S754_zero s' | S754_infinity s' | S754_finite s' _ _ => s' = s
  | S754_nan => False
  end.
Proof.
  intros Hm. unfold binary_round_aux. destruct (shr_fexp_m m e l Hm) as (r & n & -> & Hr & Hn).
  assert (0 <= round_nearest_even (shr_m r) (loc_of_shr_record r)) as Hm2.
  { assert (0 <= shr_m r) by (rewrite Hr; apply Z.div_pos; try lia; lia). destruct (loc_of_shr_record r) as [|[]]; cbn [round_nearest_even]; try destruct (Z.even _); lia. }
  destruct (shr_fexp_m _ (e + n) loc_Exact Hm2) as (r2 & n2 & -> & Hr2 & Hn2).
  assert (0 <= shr_m r2) by (rewrite Hr2; apply Z.div_pos; lia).
  destruct (shr_m r2); [done|by destruct (_ <=? _)|lia].
Qed.

Lemma round_aux_small k m e l :
  0 <= m -> Zdigits2 m + e <= k -> e <= k -> 0 <= k <= 900 -> small (k + 2) (binary_round_aux prec emax false m e l).
Proof.
  intros Hm Hd He Hk. pose proof (round_aux_class false m e l Hm) as Hc. revert Hc. unfold binary_round_aux.
  destruct (shr_fexp_m m e l Hm) as (r & n & -> & Hr & Hn). rewrite fexp_eq in Hn.
  set (m2 := round_nearest_even (shr_m r) (loc_of_shr_record r)).
  assert (0 <= m / 2 ^ n) by (apply Z.div_pos; lia).
  assert (m / 2 ^ n <= m2 <= m / 2 ^ n + 1) as Hm2.
  { subst m2. rewrite <- Hr. destruct (loc_of_shr_record r) as [|[]]; cbn [round_nearest_even]; try destruct (Z.even _); lia. }
  assert (Zdigits2 m2 + (e + n) <= k + 1) as Hd2.
  { pose proof (Zdigits2_shift m n Hm ltac:(lia)). destruct (Zdigits2_spec (m / 2 ^ n)) as (Hlt & Hnn & _); [done|].
    assert (Zdigits2 m2 <= Zdigits2 (m / 2 ^ n) + 1); [|lia].
    apply Zdigits2_le; [|lia]. rewrite Z.pow_add_r by lia. lia. }
  destruct (shr_fexp_m m2 (e + n) loc_Exact) as (r2 & n2 & -> & Hr2 & Hn2); [lia|]. rewrite fexp_eq in Hn2.
  pose proof (Zdigits2_shift m2 n2 ltac:(lia) ltac:(lia)) as Hd3. rewrite <- Hr2 in Hd3.
  assert (0 <= shr_m r2) by (rewrite Hr2; apply Z.div_pos; lia).
  destruct (shr_m r2) as [|p3|p3]; [done| |lia]. cbn [Zdigits2] in Hd3.
  rewrite (proj2 (Z.leb_le _ _)) by lia. intros _. cbn. lia.
Qed.

Lemma digits_mul p k : Zdigits2 (Zpos p * 2 ^ k) <= Zpos (digits2_pos p) + Z.max 0 k.
Proof.
  pose proof (digits_bounds p) as [_ Hp]. destruct (Z.le_gt_cases 0 k).
  - apply Zdigits2_le; [|lia]. rewrite Z.max_r, Z.pow_add_r by lia. assert (0 < 2 ^ k) by lia. nia.
  - rewrite Z.pow_neg_r, Z.mul_0_r by lia. cbn. lia.
Qed.

Lemma small_of_Z n : 0 <= n < 2 ^ 63 -> small 65 (of_Z n).
Proof.
  intros Hn. destruct n as [|p|p]; [done| |lia]. unfold of_Z, binary_normalize, binary_round.
  destruct (shl_align_spec p 0 (fexp (Zpos (digits2_pos p) + 0))) as (p' & -> & Hp').
  set (e' := Z.min _ _) in *. assert (e' <= 0) by lia. apply (round_aux_small 63); [lia| |lia|lia].
  rewrite Hp'. pose proof (digits_mul p (0 - e')). pose proof (digits_le p 63 ltac:(lia) ltac:(lia)). lia.
Qed.

Lemma small_dmul k1 k2 x y :
  small k1 x -> small k2 y -> 0 <= k1 + k2 <= 900 -> small (k1 + k2 + 2) (dmul x y).
Proof.
  destruct x as [[]|[]| |[] m1 e1], y as [[]|[]| |[] m2 e2]; cbn [small]; try done. intros [Hd1 He1] [Hd2 He2] Hk.
  unfold dmul, SFmul. cbn [xorb]. apply round_aux_small; [lia| |lia|lia].
  assert (Zdigits2 (Zpos (m1 * m2)) <= Zpos (digits2_pos m1) + Zpos (digits2_pos m2)); [|lia].
  pose proof (digits_bounds m1). pose proof (digits_bounds m2).
  apply Zdigits2_le; [|lia]. rewrite Pos2Z.inj_mul, Z.pow_add_r by lia. nia.
Qed.

Lemma small_ddiv k x m2 e2 :
  small k x -> 0 <= k - e2 <= 900 -> small (k - e2 + 2) (ddiv x (S754_finite false m2 e2)).
Proof.
  destruct x as [[]|[]| |[] m1 e1]; cbn [small]; try done. intros [Hd He] Hk. unfold ddiv, SFdiv, SFdiv_core_binary.
  set (e' := Z.min _ _). assert (e' <= e1 - e2) by lia. set (s := e1 - e2 - e').
  set (m' := match s with Z0 => _ | Zpos _ => _ | Zneg _ => _ end).
  assert (m' = Zpos m1 * 2 ^ s) as Hm'.
  { subst m'. destruct s eqn:Hs; [by rewrite Z.mul_1_r|apply Z.shiftl_mul_pow2; lia|lia]. }
  destruct (Z.div_eucl m' (Zpos m2)) as [q r] eqn:Hqr. assert (q = m' / Zpos m2) as Hq by (unfold Z.div; by rewrite Hqr).
  assert (0 <= m') by (rewrite Hm'; assert (0 <= 2 ^ s) by (apply Z.pow_nonneg; lia); nia).
  assert (0 <= q <= m') by (rewrite Hq; split; [apply Z.div_pos; lia|apply Z.div_le_upper_bound; nia]).
  cbn [xorb]. apply round_aux_small; [lia| |lia|lia].
  assert (Zdigits2 q <= Zdigits2 m').
  { destruct (Zdigits2_spec m') as (? & ? & _); [lia|]. apply Zdigits2_le; lia. }
  pose proof (digits_mul m1 s). rewrite <- Hm' in *. lia.
Qed.

(** ** Taking something from an integer *)

(** The value of a double that is read as an unsigned 32-bit integer. *)
Lemma below_to_u32 B x : 0 <= B < 2 ^ 32 -> below B x -> exists n, to_u32 x = Some n /\ 0 <= n <= B.
Proof.
  intros HB. destruct x as [[]|[]| |[] m e]; cbn [below]; try done; [exists 0; split; [done|lia]|]. intros [He Hm]. cbn [to_u32].
  assert (0 <= floor_scale (Zpos m) e <= B) as Hf.
  { unfold floor_scale. destruct (Z.leb_spec 0 e).
    - assert (e = 0) as -> by lia. lia.
    - split; [apply Z.div_pos; lia|apply Z.div_le_upper_bound; lia]. }
  exists (floor_scale (Zpos m) e). rewrite (proj2 (Z.leb_le _ _)), (proj2 (Z.ltb_lt _ _)) by lia. done.
Qed.

(** From an integer, something that is not negative is taken: the result is
    negative or at most the integer. *)
Lemma dsub_below q k y : 0 <= q < 2 ^ 32 -> small k y -> dlt (dsub (of_Z q) y) zero = true \/ exists x, dsub (of_Z q) y = x /\
  dlt x zero = false /\ (below q x \/ x = S754_zero true).
Proof.
  intros Hq Hy. destruct q as [|p|p]; [| |lia].
  - change (of_Z 0) with zero. destruct y as [[]|[]| |[] my ey]; cbn [small] in Hy; try done; cbn; eauto 6.
  - destruct (of_Z_exact p) as (mx & ex & -> & Hex & Hmx); [lia|].
    destruct y as [[]|[]| |[] my ey]; cbn [small] in Hy; try done; cbn [dsub SFsub].
    + right. eexists. split; [done|]. split; [done|]. left. cbn. lia.
    + unfold dsub, SFsub. destruct (shl_align_spec mx ex (Z.min ex ey)) as (mx' & Ex & Hmx').
      destruct (shl_align_spec my ey (Z.min ex ey)) as (my' & Ey & Hmy'). rewrite Ex, Ey. cbn [fst cond_Zopp].
      replace (Z.min ex (Z.min ex ey)) with (Z.min ex ey) in * by lia. set (ez := Z.min ex ey) in *.
      assert (Zpos mx' = Zpos p * 2 ^ (- ez)) as Hx.
      { rewrite Hmx', Hmx, <- Z.mul_assoc, <- Z.pow_add_r by lia. f_equal. f_equal. lia. }
      destruct (Zpos mx' - Zpos my') as [|d|d] eqn:Hd; cbn [binary_normalize].
      * right. eexists. split; [done|]. split; [done|]. by left.
      * assert (below (Zpos p) (binary_round prec emax false d ez)) as Hb by (apply round_below; lia).
        right. eexists. split; [done|]. split; [|by left].
        destruct (binary_round _ _ _ _ _) as [[]|[]| |[] ? ?]; done.
      * unfold binary_round. destruct (shl_align_spec d ez (fexp (Zpos (digits2_pos d) + ez))) as (d' & -> & _).
        pose proof (round_aux_class true (Zpos d') (Z.min ez (fexp (Zpos (digits2_pos d) + ez))) loc_Exact ltac:(lia)) as Hc.
        destruct (binary_round_aux _ _ _ _ _ _) as [[]|[]| |[] ? ?]; try done; [|by left..].
        right. eexists. split; [done|]. split; [done|]. by right.
Qed.
(** A factor that is at most one does not make an integer larger. *)
Lemma dmul_below p m2 e2 :
  Zpos p < 2 ^ 32 -> e2 <= 0 -> Zpos m2 <= 2 ^ (- e2) -> below (Zpos p) (dmul (of_Z (Zpos p)) (S754_finite false m2 e2)).
Proof.
  intros Hp He2 Hm2. destruct (of_Z_exact p Hp) as (m & e & -> & He & Hm). unfold dmul, SFmul. cbn [xorb].
  apply round_aux_below; [lia|lia|]. rewrite Pos2Z.inj_mul, Hm. replace (- (e + e2)) with (- e + - e2) by lia.
  rewrite Z.pow_add_r by lia. assert (0 < 2 ^ (- e)) by lia. nia.
Qed.

End Float.
