(* ===== verification/QueueEstimator.v ===== *)
(** * QueueEstimator: src/include/Homa/Drivers/Util/QueueEstimator.h

    The estimate of the bytes that wait in a NIC's transmit queue.  The clock is
    steady_clock, which counts nanoseconds; its reading is an argument of the
    operations.  The products are rounded one by one (no fused multiply-add). *)

From S2P Require Import Prelude Float.
From Stdlib Require Import SpecFloat.
Import Float.

Module QueueEstimator.
#[local] Open Scope Z_scope.

Record QueueEstimator := mkQueueEstimator {
  bandwidth : double;      (* bytes per second *)
  queuedBytes : Z;         (* uint32_t *)
  lastUpdateTime : Z }.    (* nanoseconds *)

(** [QueueEstimator(bandwidth)], in Megabits per second. *)
Definition QueueEstimator_new (now : Z) (mbps : Z) : QueueEstimator :=
  mkQueueEstimator (ddiv (dmul (of_Z mbps) (of_Z 1000000)) (of_Z 8)) 0 now.

(** [std::chrono::duration<double>] of a difference of time points. *)
Definition seconds (ns : Z) : double := ddiv (of_Z ns) (of_Z 1000000000).

Definition refreshQueuedBytesEstimate (now : Z) : M QueueEstimator unit :=
  q ← get;
  _ ← check (lastUpdateTime q <=? now);
  let updateInterval := seconds (now - lastUpdateTime q) in
  let queuedBytesEstimate := dsub (of_Z (queuedBytes q)) (dmul (bandwidth q) updateInterval) in
  match (if dlt queuedBytesEstimate zero then Some 0 else to_u32 queuedBytesEstimate) with
  | Some n => modify (fun q => mkQueueEstimator (bandwidth q) n now)
  | None => fault OutOfRange
  end.

Definition getQueuedBytes (now : Z) : M QueueEstimator Z :=
  _ ← refreshQueuedBytesEstimate now;
  gets queuedBytes.

Definition signalBytesSent (now sentBytes : Z) : M QueueEstimator unit :=
  _ ← refreshQueuedBytesEstimate now;
  modify (fun q => mkQueueEstimator (bandwidth q) (u32 (queuedBytes q + sentBytes)) (lastUpdateTime q)).

(** ** What the estimate can be *)

(** Time points of the clock, in its 63 bits. *)
Record ok (q : QueueEstimator) : Prop := {
  ok_bandwidth : small 183 (bandwidth q);
  ok_bytes : 0 <= queuedBytes q < 2 ^ 32;
  ok_time : 0 <= lastUpdateTime q < 2 ^ 63 }.

Lemma of_Z_8 : of_Z 8 = S754_finite false 4503599627370496 (-49).
Proof. by vm_compute. Qed.
Lemma of_Z_giga : of_Z 1000000000 = S754_finite false 8388608000000000 (-23).
Proof. by vm_compute. Qed.

Lemma new_ok now mbps : 0 <= now < 2 ^ 63 -> 0 <= mbps < 2 ^ 32 -> ok (QueueEstimator_new now mbps).
Proof.
  intros Ht Hm. split; cbn [bandwidth queuedBytes lastUpdateTime QueueEstimator_new]; [|lia|done].
  rewrite of_Z_8. apply (small_ddiv 132 _ _ (-49)); [|lia]. apply (small_dmul 65 65); [apply small_of_Z; lia|apply small_of_Z; lia|lia].
Qed.

Lemma small_seconds ns : 0 <= ns < 2 ^ 63 -> small 90 (seconds ns).
Proof. intros Hn. unfold seconds. rewrite of_Z_giga. apply (small_ddiv 65 _ _ (-23)); [by apply small_of_Z|lia]. Qed.

Lemma refresh_spec now q :
  ok q -> lastUpdateTime q <= now < 2 ^ 63 ->
  wp (refreshQueuedBytesEstimate now) q (fun _ q' =>
    ok q' /\ bandwidth q' = bandwidth q /\ lastUpdateTime q' = now /\ 0 <= queuedBytes q' <= queuedBytes q).
Proof.
  intros [Hb Hq Ht] Hn. unfold refreshQueuedBytesEstimate. wp_step. wp_step. wp_step. wp_step; [apply Z.leb_le; lia|]. cbv zeta.
  assert (small 275 (dmul (bandwidth q) (seconds (now - lastUpdateTime q)))) as Hy.
  { apply (small_dmul 183 90); [done|apply small_seconds; lia|lia]. }
  assert (exists n, (if dlt (dsub (of_Z (queuedBytes q)) (dmul (bandwidth q) (seconds (now - lastUpdateTime q)))) zero then Some 0
    else to_u32 (dsub (of_Z (queuedBytes q)) (dmul (bandwidth q) (seconds (now - lastUpdateTime q))))) = Some n /\ 0 <= n <= queuedBytes q) as (n & -> & Hle).
  { destruct (dsub_below _ _ _ Hq Hy) as [->|(x & -> & -> & [Hx| ->])]; [exists 0; split; [done|lia]| |exists 0; split; [done|lia]].
    by apply below_to_u32. }
  wp_step. cbn [bandwidth queuedBytes lastUpdateTime]. split_and!; [split; cbn; [done|lia|lia]|done|done|lia|lia].
Qed.

Lemma signal_spec now n q :
  ok q -> lastUpdateTime q <= now < 2 ^ 63 -> 0 <= n ->
  wp (signalBytesSent now n) q (fun _ q' => ok q' /\ lastUpdateTime q' = now /\ 0 <= queuedBytes q' <= queuedBytes q + n).
Proof.
  intros Hq Hn Hs. unfold signalBytesSent. wp_step. eapply wp_mono; [by apply refresh_spec|].
  intros _ q' ([Hb Hq' Ht] & _ & Hl & Hle). wp_step. cbn [queuedBytes lastUpdateTime].
  pose proof (u32_range (queuedBytes q' + n)). assert (u32 (queuedBytes q' + n) <= queuedBytes q' + n) by (apply Z.mod_le; lia).
  split_and!; [by split|done|lia|lia].
Qed.

(** ** Properties *)

Inductive Op := OpGet | OpSignal (sentBytes : Z).
(** Calls with the clock's readings. *)
Definition run (c : Z * Op) : M QueueEstimator unit :=
  match c.2 with OpGet => _ ← getQueuedBytes c.1; mret tt | OpSignal n => signalBytesSent c.1 n end.
Definition signalled (calls : list (Z * Op)) : Z :=
  foldr (fun c n => match c.2 with OpGet => n | OpSignal k => k + n end) 0 calls.
(** The clock does not go back, and bytes are not negative. *)
Fixpoint calls_ok (now : Z) (calls : list (Z * Op)) : Prop :=
  match calls with
  | [] => True
  | (t, o) :: calls => now <= t < 2 ^ 63 /\ match o with OpGet => True | OpSignal n => 0 <= n end /\ calls_ok t calls
  end.

Lemma run_bounded calls q :
  ok q -> calls_ok (lastUpdateTime q) calls ->
  wp (for_each calls run) q (fun _ q' => ok q' /\ 0 <= queuedBytes q' <= queuedBytes q + signalled calls).
Proof.
  revert q. induction calls as [|[t o] calls IH]; intros q Hq Hc; cbn [for_each signalled foldr] in *.
  - pose proof (ok_bytes q Hq). wp_step. split; [done|lia].
  - destruct Hc as (Ht & Ho & Hc). wp_step. destruct o as [|n]; cbn [run snd fst].
    + unfold getQueuedBytes. do 2 wp_step. eapply wp_mono; [by apply refresh_spec|]. intros _ q' (Hq' & _ & Hl & Hle).
      do 2 wp_step. eapply wp_mono; [apply IH; [done|by rewrite Hl]|]. intros _ q2 (? & ?). split; [done|].
      change (foldr _ 0 calls) with (signalled calls). lia.
    + eapply wp_mono; [by apply signal_spec|]. intros _ q' (Hq' & Hl & Hle).
      eapply wp_mono; [apply IH; [done|by rewrite Hl]|]. intros _ q2 (? & ?). split; [done|].
      change (foldr _ 0 calls) with (signalled calls). lia.
Qed.

(** C29: In spite of rounding, the estimate is never negative and never more than the
    bytes that were signalled, whatever the bandwidth and the times of the calls;
    the conversion back to an integer is always defined. *)
Theorem estimate_bounded now mbps calls :
  0 <= now < 2 ^ 63 -> 0 <= mbps < 2 ^ 32 -> calls_ok now calls ->
  wp (for_each calls run) (QueueEstimator_new now mbps) (fun _ q => 0 <= queuedBytes q <= signalled calls).
Proof.
  intros Hn Hm Hc. eapply wp_mono; [apply run_bounded; [by apply new_ok|done]|]. intros _ q (_ & Hq). exact Hq.
Qed.

(** A 10 Gigabit link sends 1250 bytes in a microsecond. *)
Definition sample_calls : list (Z * Op) := [(1000, OpSignal 5000); (2000, OpGet); (2500, OpSignal 100)].
Lemma estimate_bounded_witness :
  wp (for_each sample_calls run) (QueueEstimator_new 0 10000) (fun _ q => 0 <= queuedBytes q <= 5100).
Proof. apply (estimate_bounded 0 10000 sample_calls); [lia|lia|cbn; lia]. Defined.
Example sample_estimate :
  match for_each sample_calls run (QueueEstimator_new 0 10000) with Ok (_, q) => queuedBytes q | Error _ => 0 end = 3225.
Proof. by vm_compute. Qed.

End QueueEstimator.
