(* ===== verification/FakeDriver.v ===== *)
(** * FakeDriver: src/include/Homa/Drivers/Fake/FakeDriver.h, FakeDriver.cc

    The simulated network of the tests: drivers register a NIC, a packet that is
    sent is copied into the queue of its priority in the NIC of its destination,
    and is received from there, highest priority first.  Packets and NICs are heap
    objects: [live] holds the packets that were allocated and not yet deleted,
    [nics] the NICs by address of the object, [estimators] the queue estimators of
    the drivers, each under the address of its driver's NIC.  The random draw that
    decides on the loss of a packet and the reading of the clock are arguments of
    sendPacket. *)

From S2P Require Import Prelude Intrusive ObjectPool Driver SenderMessage Transfer Float QueueEstimator.
Import Driver Float.
Import QueueEstimator(QueueEstimator, QueueEstimator_new, lastUpdateTime).

Module FakeDriver.

Definition NUM_PRIORITIES : Z := 8.
Definition MAX_PAYLOAD_SIZE : Z := 1500.

Record FakePacket := mkFakePacket { base : Packet; sourceIp : IpAddress }.

(** The deques of [FakeNIC::priorityQueue], by priority. *)
Abbreviation FakeNIC := (list (list FakePacket)).
Definition FakeNIC_new : FakeNIC := replicate (Z.to_nat NUM_PRIORITIES) [].

Record FakeNetwork := mkFakeNetwork {
  network : gmap IpAddress ptr;
  nextAddressId : Z;
  packetLossRate : double;
  nics : gmap ptr FakeNIC;
  estimators : gmap ptr QueueEstimator;
  live : gset positive
}.
#[global] Instance eta_FakeNetwork : Eta FakeNetwork := fun r =>
  mkFakeNetwork (network r) (nextAddressId r) (packetLossRate r) (nics r) (estimators r) (live r).
Definition FakeNetwork_new : FakeNetwork := mkFakeNetwork ∅ 1 zero ∅ ∅ ∅.

(** ** The network *)

(** [registerNIC(nic)]; [insert] keeps the entry of an address that is taken. *)
Definition registerNIC (nic : ptr) : M FakeNetwork Z :=
  addressId ← gets nextAddressId;
  _ ← modify (fun n => n <| nextAddressId ::= fun a => u32 (a + 1) |>);
  _ ← modify (fun n => n <| network ::= fun m =>
        match m !! addressId with Some _ => m | None => <[addressId := nic]> m end |>);
  mret addressId.

Definition deregisterNIC (addressId : Z) : M FakeNetwork unit :=
  modify (fun n => n <| network ::= delete addressId |>).

Definition setPacketLossRate (lossRate : double) : M FakeNetwork unit :=
  modify (fun n => n <| packetLossRate :=
    if dlt (of_Z 1) lossRate then of_Z 1 else if dlt lossRate zero then zero else lossRate |>).

(** [new FakePacket()] and the copy constructor: a buffer of its own with the
    other one's bytes. *)
Definition new_packet (payload : list Z) (length : Z) : M FakeNetwork Packet :=
  l ← gets live;
  let id := fresh l in
  _ ← modify (fun n => n <| live ::= fun l => {[id]} ∪ l |>);
  mret (mkPacket id payload length).

(** [delete packet]. *)
Definition delete_packet (id : positive) : M FakeNetwork unit :=
  l ← gets live;
  if bool_decide (id ∈ l) then modify (fun n => n <| live ::= fun l => l ∖ {[id]} |>) else fault BadPointer.

(** [FakeNetwork::sendPacket(packet, priority, src, dst)]; [draw] is the
    random number, uniform over [0, 1).  [priorityQueue.at(priority)] is in range by the assertions. *)
Definition network_sendPacket (draw : double) (packet : Packet) (priority : Z) (src dst : IpAddress)
    : M FakeNetwork unit :=
  n ← get;
  if dlt draw (packetLossRate n) then mret tt
  else
    match network n !! dst with
    | None => mret tt
    | Some nic =>
        match nics n !! nic with
        | None => fault BadPointer
        | Some queues =>
            copy ← new_packet (take (Z.to_nat MAX_PAYLOAD_SIZE) (payload packet)) (length packet);
            let dstPacket := mkFakePacket copy src in
            _ ← check (priority <? NUM_PRIORITIES);
            _ ← check (0 <=? priority);
            modify (fun n => n <| nics ::= <[nic := alter (fun q => q ++ [dstPacket]) (Z.to_nat priority) queues]> |>)
        end
    end.

(** ** The driver *)

Record FakeDriver := mkFakeDriver { localAddressId : Z; nic : ptr }.

Definition getBandwidth : Z := 10000.

(** [FakeDriver()] with its NIC at [nic]. *)
Definition FakeDriver_new (now : Z) (nic : ptr) : M FakeNetwork FakeDriver :=
  _ ← modify (fun n => n <| nics ::= <[nic := FakeNIC_new]> |>
                         <| estimators ::= <[nic := QueueEstimator_new now getBandwidth]> |>);
  addressId ← registerNIC nic;
  mret (mkFakeDriver addressId nic).

(** [~FakeDriver()], then [~FakeNIC()], which deletes the packets that were not
    received. *)
Definition FakeDriver_destroy (d : FakeDriver) : M FakeNetwork unit :=
  _ ← deregisterNIC (localAddressId d);
  n ← get;
  match nics n !! nic d with
  | None => fault BadPointer
  | Some queues =>
      _ ← for_each (concat queues) (fun k => delete_packet (pkt_id (base k)));
      modify (fun n => n <| nics ::= delete (nic d) |> <| estimators ::= delete (nic d) |>)
  end.

Definition allocPacket : M FakeNetwork Packet := new_packet (repeat 0 (Z.to_nat MAX_PAYLOAD_SIZE)) 0.

(** A call on the driver's own estimator. *)
Definition estimator_op {A} (d : FakeDriver) (m : M QueueEstimator A) : M FakeNetwork A :=
  n ← get;
  match estimators n !! nic d with
  | None => fault BadPointer
  | Some q => zoom (fun _ => q) (fun q n => n <| estimators ::= <[nic d := q]> |>) m
  end.

Definition sendPacket (now : Z) (draw : double) (d : FakeDriver) (packet : Packet) (destination : IpAddress)
    (priority : Z) : M FakeNetwork unit :=
  _ ← network_sendPacket draw packet priority (localAddressId d) destination;
  estimator_op d (QueueEstimator.signalBytesSent now (length packet)).

Definition getQueuedBytes (now : Z) (d : FakeDriver) : M FakeNetwork Z :=
  estimator_op d (QueueEstimator.getQueuedBytes now).

(** The inner loop of receivePackets: what is taken from one deque when
    [numReceived] packets were taken before, and what stays. *)
Fixpoint take_queue (maxPackets numReceived : Z) (q : list FakePacket) : list FakePacket * list FakePacket :=
  match q with
  | [] => ([], [])
  | k :: rest =>
      if numReceived <? maxPackets then
        let '(taken, remaining) := take_queue maxPackets (numReceived + 1) rest in (k :: taken, remaining)
      else ([], q)
  end.

(** The outer loop, from priority [i - 1] down to 0. *)
Fixpoint receive_loop (i : nat) (maxPackets : Z) (queues : FakeNIC) (received : list FakePacket)
    : list FakePacket * FakeNIC :=
  match i with
  | O => (received, queues)
  | S i' =>
      let '(taken, remaining) := take_queue maxPackets (zlength received) (default [] (queues !! i')) in
      receive_loop i' maxPackets (<[i' := remaining]> queues) (received ++ taken)
  end.

Definition receivePackets (d : FakeDriver) (maxPackets : Z) : M FakeNetwork (list FakePacket) :=
  n ← get;
  match nics n !! nic d with
  | None => fault BadPointer
  | Some queues =>
      let '(received, queues') := receive_loop (Z.to_nat NUM_PRIORITIES) maxPackets queues [] in
      _ ← modify (fun n => n <| nics ::= <[nic d := queues']> |>);
      mret received
  end.

Definition releasePackets (packets : list Packet) : M FakeNetwork unit :=
  for_each packets (fun k => delete_packet (pkt_id k)).

Definition getHighestPacketPriority : Z := NUM_PRIORITIES - 1.
Definition getMaxPayloadSize : Z := MAX_PAYLOAD_SIZE.
Definition getLocalAddress (d : FakeDriver) : IpAddress := localAddressId d.

(** ** What is received *)

Lemma take_queue_spec mx n q :
  take_queue mx n q = (take (Z.to_nat (mx - n)) q, drop (Z.to_nat (mx - n)) q).
Proof.
  revert n. induction q as [|k q IH]; intros n; simpl; [by rewrite take_nil, drop_nil|].
  destruct (Z.ltb_spec n mx).
  - rewrite IH. replace (Z.to_nat (mx - n)) with (S (Z.to_nat (mx - (n + 1)))) by lia. done.
  - by replace (Z.to_nat (mx - n)) with O by lia.
Qed.

(** The packets of the priorities below [i], highest priority first, in the
    order of arrival within a priority. *)
Fixpoint pending (i : nat) (queues : FakeNIC) : list FakePacket :=
  match i with O => [] | S i' => default [] (queues !! i') ++ pending i' queues end.

Lemma pending_insert i j q queues : (i <= j)%nat -> pending i (<[j := q]> queues) = pending i queues.
Proof.
  intros Hij. induction i as [|i IH]; cbn [pending]; [done|]. rewrite IH by lia. by rewrite list_lookup_insert_ne by lia.
Qed.

Lemma receive_loop_spec i mx queues rec :
  (i <= List.length queues)%nat ->
  let n := Z.to_nat (mx - zlength rec) in
  let '(r, queues') := receive_loop i mx queues rec in
  r = rec ++ take n (pending i queues) /\ pending i queues' = drop n (pending i queues) /\
  List.length queues' = List.length queues /\ forall j, (i <= j)%nat -> queues' !! j = queues !! j.
Proof.
  revert queues rec. induction i as [|i IH]; intros queues rec Hi n; cbn [receive_loop pending].
  { rewrite take_nil, drop_nil, app_nil_r. done. }
  rewrite take_queue_spec. fold n. set (q := default [] (queues !! i)).
  specialize (IH (<[i := drop n q]> queues) (rec ++ take n q)). rewrite length_insert in IH.
  specialize (IH ltac:(lia)). cbv zeta in IH.
  destruct (receive_loop i mx (<[i := drop n q]> queues) (rec ++ take n q)) as [r queues'].
  destruct IH as (Hr & Hp & Hl & Hsame). rewrite pending_insert in Hr, Hp by lia.
  assert (Z.to_nat (mx - zlength (rec ++ take n q)) = n - List.length q)%nat as Hn.
  { rewrite zlength_app. unfold n, zlength. rewrite length_take. lia. }
  rewrite Hn in Hr, Hp. split_and!.
  - rewrite Hr, <- app_assoc. by rewrite take_app.
  - rewrite Hsame by lia. rewrite list_lookup_insert_eq by lia. simpl. rewrite Hp. by rewrite drop_app.
  - lia.
  - intros j Hj. rewrite Hsame by lia. by rewrite list_lookup_insert_ne by lia.
Qed.

Lemma receivePackets_spec d mx n queues (Q : list FakePacket -> FakeNetwork -> Prop) :
  nics n !! nic d = Some queues -> List.length queues = Z.to_nat NUM_PRIORITIES ->
  (forall queues', pending (Z.to_nat NUM_PRIORITIES) queues' =
      drop (Z.to_nat mx) (pending (Z.to_nat NUM_PRIORITIES) queues) -> List.length queues' = List.length queues ->
    Q (take (Z.to_nat mx) (pending (Z.to_nat NUM_PRIORITIES) queues)) (n <| nics ::= <[nic d := queues']> |>)) ->
  wp (receivePackets d mx) n Q.
Proof.
  intros Hn Hl HQ. unfold receivePackets. wp_step. wp_step. rewrite Hn.
  pose proof (receive_loop_spec (Z.to_nat NUM_PRIORITIES) mx queues [] ltac:(lia)) as Hr. cbv zeta in Hr.
  destruct (receive_loop _ mx queues []) as [r queues']. destruct Hr as (-> & Hp & Hq & _).
  change (zlength (@nil FakePacket)) with 0 in *. rewrite Z.sub_0_r in *. wp_step. wp_step. wp_step. by apply HQ.
Qed.

(** ** What is delivered *)

Section delivery.
Context `{DriverLaws}.

(** A call of sendPacket. *)
Record Send := mkSend { packet : Packet; priority : Z; draw : double; at_time : Z }.

(** [k] is the packet that was sent by [s]. *)
Definition delivered (src : IpAddress) (s : Send) (k : FakePacket) : Prop :=
  Transfer.carries (packet_bytes (packet s)) (base k) /\ sourceIp k = src.

(** The order of reception: by priority, and by time within a priority. *)
Fixpoint in_priority_order (i : nat) (sends : list Send) : list Send :=
  match i with
  | O => []
  | S i' => filter (fun s => priority s = Z.of_nat i') sends ++ in_priority_order i' sends
  end.

(** Each deque holds the packets of its priority. *)
Definition queued src (sends : list Send) (queues : FakeNIC) : Prop :=
  List.length queues = Z.to_nat NUM_PRIORITIES /\
  forall i q, queues !! i = Some q -> Forall2 (delivered src) (filter (fun s => priority s = Z.of_nat i) sends) q.

Definition sendable_packet (s : Send) : Prop :=
  zlength (payload (packet s)) = MAX_PAYLOAD_SIZE /\ 0 <= length (packet s) <= MAX_PAYLOAD_SIZE /\
  0 <= priority s < NUM_PRIORITIES.

(** The clock does not go back. *)
Fixpoint in_time (now : Z) (sends : list Send) : Prop :=
  match sends with [] => True | s :: sends => now <= at_time s < 2 ^ 63 /\ in_time (at_time s) sends end.

Lemma copy_carries s src id :
  Driver.getMaxPayloadSize = MAX_PAYLOAD_SIZE -> sendable_packet s ->
  delivered src s (mkFakePacket (mkPacket id (take (Z.to_nat MAX_PAYLOAD_SIZE) (payload (packet s))) (length (packet s))) src).
Proof.
  intros Hm (Hp & Hl & _). split; [|done]. cbn [base].
  assert (take (Z.to_nat MAX_PAYLOAD_SIZE) (payload (packet s)) = payload (packet s)) as ->
    by (apply take_ge; unfold zlength in Hp; lia).
  split; cbn [payload Driver.length]; [|done|by rewrite Hm].
  unfold packet_bytes. rewrite zlength_slice; [done|lia|lia|]. unfold MAX_PAYLOAD_SIZE in *. lia.
Qed.

Lemma queued_push src sends queues s k :
  queued src sends queues -> 0 <= (priority s) < NUM_PRIORITIES -> delivered src s k ->
  queued src (sends ++ [s]) (alter (fun q => q ++ [k]) (Z.to_nat (priority s)) queues).
Proof.
  intros [Hl Hq] Hs Hk. split; [by rewrite length_alter|]. intros i q Hi. rewrite filter_app.
  destruct (decide (i = Z.to_nat (priority s))) as [->|Hne].
  - rewrite list_lookup_alter_eq in Hi. destruct (queues !! Z.to_nat (priority s)) as [q0|] eqn:Hq0; [|done].
    injection Hi as <-. apply Forall2_app; [by apply Hq|]. rewrite filter_cons_True, filter_nil by lia. by apply Forall2_cons.
  - rewrite list_lookup_alter_ne in Hi by done. rewrite filter_cons_False by lia. rewrite filter_nil, app_nil_r. by apply Hq.
Qed.

Lemma queued_pending src sends queues i :
  queued src sends queues -> (i <= List.length queues)%nat ->
  Forall2 (delivered src) (in_priority_order i sends) (pending i queues).
Proof.
  intros [Hl Hq] Hi. induction i as [|i IH]; cbn [in_priority_order pending]; [constructor|].
  destruct (lookup_lt_is_Some_2 queues i) as [q Hqi]; [lia|]. rewrite Hqi. apply Forall2_app; [by apply Hq|apply IH; lia].
Qed.

(** What sendPacket leaves of the estimator. *)
Lemma wp_signal_estimator d q t len n (Q : unit -> FakeNetwork -> Prop) :
  estimators n !! nic d = Some q -> QueueEstimator.ok q -> lastUpdateTime q <= t < 2 ^ 63 -> 0 <= len ->
  (forall q', QueueEstimator.ok q' -> lastUpdateTime q' = t -> Q tt (n <| estimators ::= <[nic d := q']> |>)) ->
  wp (estimator_op d (QueueEstimator.signalBytesSent t len)) n Q.
Proof.
  intros Hq Hok Ht Hl HQ. unfold estimator_op. wp_step. wp_step. rewrite Hq. wp_step.
  eapply wp_mono; [by apply QueueEstimator.signal_spec|]. intros [] q' (Hok' & Ht' & _). by apply HQ.
Qed.

(** C39: Packets that the random draw does not lose arrive: what the driver at [dst]
    receives, at most [mx] at a time, are copies of the packets that were sent to
    its address, with the bytes that were sent and the address of the sender; the
    highest priority comes first, and within a priority the packets come in the
    order of sending.  No call fails, and the sender's estimate of queued bytes
    stays well-formed. *)
Theorem fake_network_delivers d q dst sends mx n :
  Driver.getMaxPayloadSize = MAX_PAYLOAD_SIZE ->
  network n !! getLocalAddress dst = Some (nic dst) -> nics n !! nic dst = Some FakeNIC_new ->
  estimators n !! nic d = Some q -> QueueEstimator.ok q -> in_time (lastUpdateTime q) sends ->
  Forall sendable_packet sends -> Forall (fun s => dlt (draw s) (packetLossRate n) = false) sends ->
  wp (_ ← for_each sends (fun s => sendPacket (at_time s) (draw s) d (packet s) (getLocalAddress dst) (priority s));
      receivePackets dst mx) n
    (fun received n' => Forall2 (delivered (getLocalAddress d))
       (take (Z.to_nat mx) (in_priority_order (Z.to_nat NUM_PRIORITIES) sends)) received /\
       exists q', estimators n' !! nic d = Some q' /\ QueueEstimator.ok q').
Proof.
  intros Hm Hnet Hnic Hest Hok Htime Hall Hkept. wp_step.
  apply (wp_for_each (fun l n' => exists pre queues q', sends = pre ++ l /\
    network n' !! getLocalAddress dst = Some (nic dst) /\ nics n' !! nic dst = Some queues /\
    queued (getLocalAddress d) pre queues /\ packetLossRate n' = packetLossRate n /\
    estimators n' !! nic d = Some q' /\ QueueEstimator.ok q' /\ in_time (lastUpdateTime q') l)).
  - exists [], FakeNIC_new, q. split_and!; [done..| |done|done|done|done].
    split; [done|]. intros i r Hi. apply lookup_replicate in Hi as [-> _]. constructor.
  - intros s l n' (pre & queues & q' & Hs & Hn & Hq & Hqs & Hrate & He & Hok' & Ht & Htl). rewrite Hs in Hall, Hkept.
    apply Forall_app in Hall as [_ [Hsp _]%Forall_cons]. apply Forall_app in Hkept as [_ [Hd _]%Forall_cons].
    pose proof Hsp as (_ & Hlen & Hprio). unfold sendPacket, network_sendPacket, new_packet. repeat wp_step.
    rewrite Hrate, Hd, Hn, Hq. repeat wp_step; [apply Z.ltb_lt; lia|apply Z.leb_le; lia|].
    eapply wp_signal_estimator; [done|done|done|lia|]. intros q2 Hok2 Ht2.
    exists (pre ++ [s]), (alter (fun q => q ++ [mkFakePacket (mkPacket (fresh (live n'))
      (take (Z.to_nat MAX_PAYLOAD_SIZE) (payload (packet s))) (length (packet s))) (localAddressId d)]) (Z.to_nat (priority s)) queues), q2.
    split_and!; [by rewrite <- app_assoc|done|apply lookup_insert_eq| |done|apply lookup_insert_eq|done|by rewrite Ht2].
    apply queued_push; [done|done|by apply copy_carries].
  - intros n' (pre & queues & q' & Hs & Hn & Hq & Hqs & _ & He & Hok' & _). rewrite app_nil_r in Hs. subst pre.
    eapply receivePackets_spec; [done|apply Hqs|]. intros queues' _ _. split; [|by exists q']. apply Forall2_take.
    apply queued_pending; [done|]. destruct Hqs as [-> _]. lia.
Qed.

(** A loss rate is a probability, unless it is not a number. *)
Lemma setPacketLossRate_clamps lossRate n :
  wp (setPacketLossRate lossRate) n (fun _ n' =>
    dlt (packetLossRate n') zero = false /\ dlt (of_Z 1) (packetLossRate n') = false).
Proof.
  unfold setPacketLossRate. wp_step. cbn [packetLossRate].
  change (packetLossRate (n <| packetLossRate := ?v |>)) with v.
  destruct (dlt (of_Z 1) lossRate) eqn:H1; [by vm_compute|]. destruct (dlt lossRate zero) eqn:H2; [by vm_compute|done].
Qed.
End delivery.

(** ** A sample *)

#[local] Instance fake : Driver := {
  Driver.getHighestPacketPriority := getHighestPacketPriority;
  Driver.getMaxPayloadSize := getMaxPayloadSize;
  Driver.getBandwidth := getBandwidth;
  Driver.getLocalAddress := 1;
  getQueuedBytes_nth := fun _ => 0;
  payload_nth := fun _ => repeat 0 1500;
  rdtsc_nth := fun n => Z.of_nat n;
  std_hash := fun v => v
}.
#[local] Instance fake_laws : DriverLaws.
Proof. split; simpl; try (intros; lia); done. Qed.

(** Two drivers on the network, at the addresses 1 and 2. *)
Definition two_drivers : FakeNetwork :=
  match (_ ← FakeDriver_new 0 1%positive; FakeDriver_new 0 2%positive) FakeNetwork_new with
  | Ok (_, n) => n
  | Error _ => FakeNetwork_new
  end.
Definition driver1 : FakeDriver := mkFakeDriver 1 1%positive.
Definition driver2 : FakeDriver := mkFakeDriver 2 2%positive.
Definition packet_of (id : positive) (b : Z) : Packet := mkPacket id (repeat b 1500) 100.
Definition sample_sends : list Send :=
  [mkSend (packet_of 7 1) 0 zero 10; mkSend (packet_of 8 2) 5 (of_Z 1) 20].

Lemma fake_network_delivers_witness :
  wp (_ ← for_each sample_sends
        (fun s => sendPacket (at_time s) (draw s) driver1 (packet s) (getLocalAddress driver2) (priority s));
      receivePackets driver2 10) two_drivers
    (fun received n' => Forall2 (delivered (getLocalAddress driver1))
       (take 10 (in_priority_order (Z.to_nat NUM_PRIORITIES) sample_sends)) received /\
       exists q', estimators n' !! nic driver1 = Some q' /\ QueueEstimator.ok q').
Proof.
  apply (fake_network_delivers driver1 (QueueEstimator_new 0 getBandwidth) driver2 _ 10);
    [reflexivity|vm_compute; reflexivity|vm_compute; reflexivity|vm_compute; reflexivity| |cbn; lia| |].
  - apply QueueEstimator.new_ok; vm_compute; split; congruence.
  - repeat constructor; vm_compute; congruence.
  - repeat constructor; vm_compute; congruence.
Defined.
Example sample_order :
  (fun s => pkt_id (packet s)) <$> in_priority_order 8 sample_sends = [8; 7]%positive.
Proof. by vm_compute. Qed.
(** 200 bytes were sent and 12 are gone by the second packet. *)
Example sample_queued :
  match (_ ← for_each sample_sends
        (fun s => sendPacket (at_time s) (draw s) driver1 (packet s) (getLocalAddress driver2) (priority s));
      getQueuedBytes 20 driver1) two_drivers with Ok (b, _) => b | Error _ => 0 end = 187.
Proof. by vm_compute. Qed.

End FakeDriver.
