(* ===== verification/StringUtil.v ===== *)
(** * StringUtil: src/src/StringUtil.cc

    Strings are lists of characters.  [format] is the C library's, apart from the
    one conversion that [flags] uses. *)

From S2P Require Import Prelude.
From Stdlib Require Import Ascii.
From Stdlib Require String.

Module StringUtil.
#[local] Open Scope string_scope.
#[local] Open Scope list_scope.
#[local] Open Scope nat_scope.

Abbreviation str := (list ascii).
Definition chars (s : String.string) : str := String.list_ascii_of_string s.
#[global] Instance ascii_eq_dec : EqDecision ascii := Ascii.ascii_dec.

Implicit Types (s h needle rep glue item : str) (c d : ascii).

(** ** Printable strings *)

Definition display c : bool := (32 <=? nat_of_ascii c) && (nat_of_ascii c <? 127).

(** [isPrintable(data, length)]. *)
Definition isPrintable (data : str) : bool :=
  match last data with
  | None => false
  | Some c => bool_decide (c = zero) && forallb display (removelast data)
  end.
(** [isPrintable(str)] of the null-terminated string [s]. *)
Definition isPrintable_cstr s : bool := isPrintable (s ++ [zero]).

(** ** Flags *)

Definition hex_digit (n : Z) : ascii := ascii_of_nat (Z.to_nat (if n <? 10 then 48 + n else 87 + n))%Z.
Fixpoint hex_digits (fuel : nat) (n : Z) (acc : str) : str :=
  match fuel with
  | O => acc
  | S fuel' => let acc := hex_digit (n mod 16) :: acc in
      if (n / 16 =? 0)%Z then acc else hex_digits fuel' (n / 16) acc
  end.
(** [format("0x%x", value)]. *)
Definition format_hex (value : Z) : str := chars "0x" ++ hex_digits 8 (u32 value) [].

(** [join(components, glue)]; [i] counts up to [size - 1]. *)
Fixpoint join (components : list str) glue : str :=
  match components with
  | [] => []
  | x :: rest => x ++ (match rest with [] => [] | _ :: _ => glue end) ++ join rest glue
  end.

Fixpoint flags_loop (value : Z) (fs : list (Z * str)) (strings : list str) : Z * list str :=
  match fs with
  | [] => (value, strings)
  | (f, name) :: fs =>
      if negb (Z.land value f =? 0)%Z then flags_loop (Z.land value (Z.lnot f)) fs (strings ++ [name])
      else flags_loop value fs strings
  end.
Definition flags (value : Z) (fs : list (Z * str)) : str :=
  if (value =? 0)%Z then chars "0"
  else let '(value, strings) := flags_loop value fs [] in
       join (if negb (value =? 0)%Z then strings ++ [format_hex value] else strings) (chars "|").

(** ** Searching *)

Definition starts_at needle h (i : nat) : bool := bool_decide (take (length needle) (drop i h) = needle).
Fixpoint find_loop needle h (n i : nat) : option nat :=
  match n with
  | O => None
  | S n' => if starts_at needle h i then Some i else find_loop needle h n' (S i)
  end.
(** [haystack.find(needle, pos)], [None] for [npos]. *)
Definition find_from needle h (pos : nat) : option nat :=
  if pos <=? length h then find_loop needle h (S (length h - pos)) pos else None.

(** [replaceAll(haystack, needle, replacement)]. *)
Fixpoint replaceAll_loop (fuel : nat) needle rep h (startPos : nat) : Result str :=
  match fuel with
  | O => Error OutOfFuel
  | S fuel' =>
      match find_from needle h startPos with
      | None => Ok h
      | Some i => replaceAll_loop fuel' needle rep (take i h ++ rep ++ drop (i + length needle) h) (i + length rep)
      end
  end.
Definition replaceAll h needle rep : Result str := replaceAll_loop (S (length h)) needle rep h 0.

(** [split(subject, delimiter)]: [getline] reads up to a delimiter or the end; it
    fails when there is nothing left to read.  [item] is the line so far. *)
Fixpoint getlines (d : ascii) s item : list str :=
  match s with
  | [] => match item with [] => [] | _ :: _ => [item] end
  | c :: s => if bool_decide (c = d) then item :: getlines d s [] else getlines d s (item ++ [c])
  end.
Definition split s d : list str := getlines d s [].

(** [haystack.compare(pos, n, needle) == 0]. *)
Definition compare_eq h (pos n : nat) needle : bool := bool_decide (take n (drop pos h) = needle).
Definition startsWith h needle : bool := compare_eq h 0 (length needle) needle.
Definition endsWith h needle : bool :=
  if length h <? length needle then false
  else compare_eq h (length h - length needle) (length needle) needle.

(** ** Trimming *)

(** [std::isspace] in the C locale. *)
Definition isspace c : bool := bool_decide (nat_of_ascii c = 32) || ((9 <=? nat_of_ascii c) && (nat_of_ascii c <=? 13)).
(** [find_if(begin, end, not isspace)] and the erasure up to it. *)
Fixpoint drop_space s : str :=
  match s with [] => [] | c :: s' => if isspace c then drop_space s' else s end.
Definition trim s : str := drop_space (reverse (drop_space (reverse s))).

(** ** What they compute *)

Lemma startsWith_spec h needle : startsWith h needle = true <-> exists rest, h = needle ++ rest.
Proof.
  unfold startsWith, compare_eq. rewrite drop_0, bool_decide_eq_true. split.
  - intros E. exists (drop (length needle) h). rewrite <- E at 1. symmetry. apply take_drop.
  - intros [rest ->]. apply take_app_length.
Qed.

Lemma endsWith_spec h needle : endsWith h needle = true <-> exists rest, h = rest ++ needle.
Proof.
  unfold endsWith, compare_eq. destruct (Nat.ltb_spec (length h) (length needle)) as [Hl|Hl].
  - split; [done|]. intros [rest ->]. rewrite length_app in Hl. lia.
  - rewrite bool_decide_eq_true. rewrite take_ge by (rewrite length_drop; lia). split.
    + intros E. exists (take (length h - length needle) h). rewrite <- E at 2. symmetry. apply take_drop.
    + intros [rest ->]. rewrite length_app. replace (length rest + length needle - length needle) with (length rest) by lia.
      apply drop_app_length.
Qed.

Lemma drop_space_spec s :
  exists pre, s = pre ++ drop_space s /\ Forall (fun c => isspace c = true) pre /\
    forall c rest, drop_space s = c :: rest -> isspace c = false.
Proof.
  induction s as [|c s (pre & E & Hp & Hn)]; simpl; [by exists []|].
  destruct (isspace c) eqn:Hc.
  - exists (c :: pre). rewrite E at 1. split; [done|]. split; [by constructor|done].
  - exists []. split; [done|]. split; [done|]. by intros ? ? [= <- <-].
Qed.

(** [trim] removes white space at both ends, and all of it. *)
Lemma trim_spec s :
  exists pre post, s = pre ++ trim s ++ post /\ Forall (fun c => isspace c = true) (pre ++ post) /\
    (forall c rest, trim s = c :: rest -> isspace c = false) /\
    (forall c rest, trim s = rest ++ [c] -> isspace c = false).
Proof.
  unfold trim. destruct (drop_space_spec (reverse s)) as (post & E1 & H1 & N1).
  set (t := reverse (drop_space (reverse s))) in *. destruct (drop_space_spec t) as (pre & E2 & H2 & N2).
  exists pre, (reverse post). split_and!.
  - rewrite app_assoc, <- E2. unfold t. rewrite <- reverse_app, <- E1. by rewrite reverse_involutive.
  - apply Forall_app. split; [done|]. by apply Forall_reverse.
  - done.
  - intros c rest E. rewrite E in E2. apply (N1 c (reverse (pre ++ rest))).
    rewrite <- (reverse_involutive (drop_space (reverse s))). fold t. rewrite E2, app_assoc, reverse_app. done.
Qed.

(** ** Replacing *)

(** [h'] is [h] with each occurrence replaced, from the left, without overlaps. *)
Inductive replaced needle rep : str -> str -> Prop :=
  | replaced_none h : (forall i, i <= length h -> starts_at needle h i = false) -> replaced needle rep h h
  | replaced_first a b b' :
      (forall i, i < length a -> starts_at needle (a ++ needle ++ b) i = false) ->
      replaced needle rep b b' -> replaced needle rep (a ++ needle ++ b) (a ++ rep ++ b').

Lemma starts_at_app needle pre h i : starts_at needle (pre ++ h) (length pre + i) = starts_at needle h i.
Proof. unfold starts_at. by rewrite drop_app_add. Qed.

Lemma find_loop_app needle pre h n i :
  find_loop needle (pre ++ h) n (length pre + i) = (fun j => length pre + j) <$> find_loop needle h n i.
Proof.
  revert i. induction n as [|n IH]; intros i; simpl; [done|]. rewrite starts_at_app. destruct (starts_at _ _ _); [done|].
  rewrite <- Nat.add_succ_r. apply IH.
Qed.

Lemma find_from_app needle pre h :
  find_from needle (pre ++ h) (length pre) = (fun j => length pre + j) <$> find_loop needle h (S (length h)) 0.
Proof.
  unfold find_from. rewrite length_app. replace (length pre <=? length pre + length h) with true by (symmetry; apply Nat.leb_le; lia).
  replace (length pre + length h - length pre) with (length h) by lia.
  rewrite <- find_loop_app. f_equal. lia.
Qed.

Lemma find_loop_spec needle h n i :
  match find_loop needle h n i with
  | Some j => i <= j < i + n /\ starts_at needle h j = true /\ forall k, i <= k < j -> starts_at needle h k = false
  | None => forall k, i <= k < i + n -> starts_at needle h k = false
  end.
Proof.
  revert i. induction n as [|n IH]; intros i; simpl; [intros; lia|]. destruct (starts_at needle h i) eqn:Hi.
  { split_and!; [lia|lia|done|intros; lia]. }
  specialize (IH (S i)). destruct (find_loop needle h n (S i)) as [j|].
  - destruct IH as (H1 & H2 & H3). split_and!; [lia|lia|done|]. intros k Hk.
    destruct (decide (k = i)) as [->|]; [done|]. apply H3. lia.
  - intros k Hk. destruct (decide (k = i)) as [->|]; [done|]. apply IH. lia.
Qed.

Lemma starts_at_split needle h i : starts_at needle h i = true -> h = take i h ++ needle ++ drop (i + length needle) h.
Proof.
  unfold starts_at. rewrite bool_decide_eq_true. intros E. rewrite <- (take_drop i h) at 1. f_equal.
  rewrite <- (take_drop (length needle) (drop i h)), E at 1. f_equal. by rewrite drop_drop.
Qed.

Lemma replaceAll_loop_spec fuel needle rep pre h :
  needle <> [] -> length h < fuel ->
  exists h', replaceAll_loop fuel needle rep (pre ++ h) (length pre) = Ok (pre ++ h') /\ replaced needle rep h h'.
Proof.
  intros Hn. revert pre h. induction fuel as [|fuel IH]; intros pre h Hf; [lia|]. cbn [replaceAll_loop].
  rewrite find_from_app. pose proof (find_loop_spec needle h (S (length h)) 0) as Hs.
  destruct (find_loop needle h (S (length h)) 0) as [j|]; simpl.
  2:{ exists h. split; [done|]. apply replaced_none. intros i Hi. apply Hs. lia. }
  destruct Hs as (Hj & Hat & Hbefore). pose proof (starts_at_split _ _ _ Hat) as E.
  set (a := take j h) in *. set (b := drop (j + length needle) h) in *.
  assert (length a = j) as Hla.
  { unfold a. rewrite length_take. apply (f_equal length) in E. rewrite !length_app in E.
    unfold a, b in E. rewrite length_take, length_drop in E. destruct needle; [done|]. simpl in *. lia. }
  assert (length b < fuel) as Hb.
  { apply (f_equal length) in E. rewrite !length_app in E. destruct needle; [done|]. simpl in *. lia. }
  destruct (IH (pre ++ a ++ rep) b Hb) as (b' & Hr & Hrep). exists (a ++ rep ++ b'). split.
  - rewrite take_app_add, <- Nat.add_assoc, drop_app_add. fold a b. rewrite !length_app, Hla, <- !app_assoc in Hr.
    rewrite <- !app_assoc, Nat.add_assoc in *. exact Hr.
  - rewrite E. apply replaced_first; [|done]. intros i Hi. rewrite <- E. apply Hbefore. lia.
Qed.

(** [replaceAll] ends, and replaces every occurrence, unless it looks for the
    empty string: then it never ends. *)
Theorem replaceAll_replaces h needle rep :
  (needle <> [] -> exists h', replaceAll h needle rep = Ok h' /\ replaced needle rep h h') /\
  (needle = [] -> forall fuel pos, pos <= length h -> replaceAll_loop fuel needle rep h pos = Error OutOfFuel).
Proof.
  split.
  - intros Hn. apply (replaceAll_loop_spec (S (length h)) needle rep [] h); [done|lia].
  - intros -> fuel. revert h. induction fuel as [|fuel IH]; intros h pos Hp; [done|]. cbn [replaceAll_loop].
    unfold find_from. replace (pos <=? length h) with true by (symmetry; by apply Nat.leb_le).
    cbn [find_loop]. unfold starts_at. simpl.
    apply IH. rewrite !length_app, length_take, Nat.add_0_r. lia.
Qed.

(** ** Splitting and joining *)

Lemma getlines_nil d s item : getlines d s item = [] -> s = [] /\ item = [].
Proof.
  revert item. induction s as [|c s IH]; intros item; simpl; [by destruct item|]. case_bool_decide; [done|].
  intros [_ E]%IH. by destruct item.
Qed.

Lemma join_getlines d s item :
  item ++ s = join (getlines d s item) [d] ++ (if bool_decide (last s = Some d) then [d] else []).
Proof.
  revert item. induction s as [|c s IH]; intros item; cbn [getlines].
  { destruct item; simpl; [done|]. by rewrite !app_nil_r. }
  destruct (decide (c = d)) as [->|Hc]; [rewrite (bool_decide_true (d = d)) by done|rewrite (bool_decide_false (c = d)) by done].
  - cbn [join]. destruct (getlines d s []) as [|l ls] eqn:E.
    + destruct (getlines_nil _ _ _ E) as [-> _]. simpl. rewrite bool_decide_true by done. by rewrite !app_nil_r.
    + assert (last (d :: s) = last s) as -> by (destruct s; [done|by rewrite last_cons_cons]).
      specialize (IH []). rewrite E in IH. rewrite <- !app_assoc. cbn [app] in IH. rewrite <- IH. done.
  - rewrite (cons_middle c item s), app_assoc, IH. do 2 f_equal. destruct s as [|c' s]; [|done].
    cbn [last]. by rewrite !bool_decide_false by congruence.
Qed.

Lemma getlines_app d s item rest : d ∉ s -> getlines d (s ++ rest) item = getlines d rest (item ++ s).
Proof.
  revert item. induction s as [|c s IH]; intros item Hd; simpl; [by rewrite app_nil_r|].
  apply not_elem_of_cons in Hd as [Hc Hd]. rewrite bool_decide_false by done. rewrite IH by done.
  by rewrite <- app_assoc.
Qed.

Lemma split_join d (components : list str) :
  Forall (fun x => d ∉ x) components -> last components <> Some [] -> split (join components [d]) d = components.
Proof.
  unfold split. induction components as [|x rest IH]; [done|]. intros [Hx Hr]%Forall_cons Hl. cbn [join].
  rewrite getlines_app by done. cbn [app]. destruct rest as [|y rest]; simpl.
  - by destruct x.
  - rewrite bool_decide_true by done. f_equal. apply IH; [done|]. by rewrite last_cons_cons in Hl.
Qed.

(** [join] is the inverse of [split], up to one delimiter at the end, which
    [split] drops; and [split] of [join], for components without the delimiter of
    which the last is not empty. *)
Theorem split_join_roundtrip d :
  (forall s, s = join (split s d) [d] ++ (if bool_decide (last s = Some d) then [d] else [])) /\
  (forall components, Forall (fun x => d ∉ x) components -> last components <> Some [] ->
     split (join components [d]) d = components).
Proof. split; [intros s; apply (join_getlines d s [])|apply split_join]. Qed.

(** The lines of [s], the last one included when it is empty. *)
Fixpoint lines d s item : list str :=
  match s with
  | [] => [item]
  | c :: s => if bool_decide (c = d) then item :: lines d s [] else lines d s (item ++ [c])
  end.
Lemma getlines_delimiter d s t item : getlines d (s ++ d :: t) item = lines d s item ++ getlines d t [].
Proof.
  revert item. induction s as [|c s IH]; intros item; cbn [getlines lines app].
  - by rewrite bool_decide_true by done.
  - case_bool_decide; cbn [app]; [f_equal|]; apply IH.
Qed.
Lemma lines_cons d s item : exists x xs, lines d s item = x :: xs.
Proof. revert item. induction s as [|c s IH]; intros item; simpl; [eauto|]. case_bool_decide; eauto. Qed.
Lemma join_lines d s item : join (lines d s item) [d] = item ++ s.
Proof.
  revert item. induction s as [|c s IH]; intros item; cbn [lines]; [by cbn [join]; rewrite !app_nil_r|].
  case_bool_decide as Hc.
  - cbn [join]. rewrite IH. destruct (lines_cons d s []) as (x & xs & ->). by rewrite Hc.
  - rewrite IH. by rewrite <- app_assoc.
Qed.
Lemma split_one d s : d ∉ s -> s <> [] -> split s d = [s].
Proof.
  intros Hd Hs. unfold split. rewrite <- (app_nil_r s) at 1. rewrite getlines_app by done. simpl. by destruct s.
Qed.
End StringUtil.
