(* ===== verification/Debug.v ===== *)
(** * Debug: src/include/Homa/Debug.h, src/src/Debug.cc

    Log levels, log policies and their text form, and the cache of isLogging.  Where
    a message goes is in LogOutput.v. *)

From S2P Require Import Prelude ObjectPool StringUtil.
From Stdlib Require Import Ascii.
From Stdlib Require String.
Import StringUtil.

Module Debug.
#[local] Open Scope string_scope.
#[local] Open Scope list_scope.
#[local] Open Scope Z_scope.

Inductive LogLevel := SILENT | ERROR | WARNING | NOTICE | VERBOSE.
#[global] Instance LogLevel_eq_dec : EqDecision LogLevel.
Proof. solve_decision. Defined.
Definition level_value (l : LogLevel) : Z :=
  match l with SILENT => 0 | ERROR => 10 | WARNING => 20 | NOTICE => 30 | VERBOSE => 40 end.

(** ** Messages *)

Record DebugMessage := mkDebugMessage {
  filename : str; linenum : Z; function : str; logLevel : Z; logLevelString : str;
  processName : str; threadName : str; message : str
}.
(** The copy assignment; the two names are assigned to themselves. *)
Definition DebugMessage_assign (this other : DebugMessage) : DebugMessage :=
  mkDebugMessage (filename other) (linenum other) (function other) (logLevel other) (logLevelString other)
    (processName this) (threadName this) (message other).
(** The copy constructor, and the move constructor. *)
Definition DebugMessage_copy (other : DebugMessage) : DebugMessage :=
  mkDebugMessage (filename other) (linenum other) (function other) (logLevel other) (logLevelString other)
    (processName other) (threadName other) (message other).
Definition DebugMessage_moved (other : DebugMessage) : DebugMessage := other.
(** The move assignment. *)
Definition DebugMessage_move (this other : DebugMessage) : DebugMessage := other.

(** ** Levels as text *)

Definition logLevelToString (l : LogLevel) : str :=
  match l with
  | SILENT => chars "SILENT" | ERROR => chars "ERROR" | WARNING => chars "WARNING"
  | NOTICE => chars "NOTICE" | VERBOSE => chars "VERBOSE"
  end.

Definition tolower (c : ascii) : ascii :=
  let n := nat_of_ascii c in if (65 <=? n)%nat && (n <=? 90)%nat then ascii_of_nat (n + 32) else c.
(** [strcasecmp(a, b) == 0]. *)
Definition equal_nocase (a b : str) : bool := bool_decide (map tolower a = map tolower b).

(** The five comparisons in turn; no match aborts the process. *)
Definition logLevelFromString (level : str) : Result LogLevel :=
  match List.find (fun l => equal_nocase level (logLevelToString l)) [SILENT; ERROR; WARNING; NOTICE; VERBOSE] with
  | Some l => Ok l
  | None => Error Panicked
  end.

(** ** Policies *)

Abbreviation policy := (list (str * str)).

(** The loop of [getLogLevel(fileName)]. *)
Fixpoint getLogLevel (logPolicy : policy) (fileName : str) : Result LogLevel :=
  match logPolicy with
  | [] => Ok NOTICE
  | (pattern, level) :: rest =>
      if startsWith fileName pattern || endsWith fileName pattern then logLevelFromString level
      else getLogLevel rest fileName
  end.

(** One rule of [logPolicyFromString].  Without any component the assertion on
    the size fails. *)
Definition rule_of (rule : str) : Result (str * str) :=
  match split rule "@"%char with
  | [] => Error AssertFailed
  | [level] => Ok ([], level)
  | [pattern; level] => Ok (pattern, level)
  | x :: xs => Ok (join (removelast (x :: xs)) (chars "@"), default [] (last (x :: xs)))
  end.
Fixpoint rules_of (rules : list str) : Result policy :=
  match rules with
  | [] => Ok []
  | r :: rest => p ← rule_of r; ps ← rules_of rest; mret (p :: ps)
  end.
Definition logPolicyFromString (s : str) : Result policy := rules_of (split s ","%char).

Definition rule_text (r : str * str) : str :=
  match r.1 with [] => r.2 | _ :: _ => r.1 ++ chars "@" ++ r.2 end.
(** The loop of [logPolicyToString]; [lastPatternEmpty] is about the rule before. *)
Fixpoint policy_text (p : policy) (lastPatternEmpty : bool) : str :=
  match p with
  | [] => if lastPatternEmpty then [] else chars "," ++ logLevelToString NOTICE
  | r :: rest => rule_text r ++ (match rest with [] => [] | _ :: _ => chars "," end) ++
      policy_text rest (match r.1 with [] => true | _ :: _ => false end)
  end.
Definition logPolicyToString (p : policy) : str :=
  match p with [] => logLevelToString NOTICE | _ :: _ => policy_text p false end.

(** ** The state *)

(** A file name is a string literal, known by its address. *)
Record State := mkState { logPolicy : policy; isLoggingCache : gmap ptr LogLevel }.
#[global] Instance eta_State : Eta State := fun r => mkState (logPolicy r) (isLoggingCache r).
Definition State_new : State := mkState [] ∅.

Section state.
(** The literal at an address, and the prefix of [__FILE__] up to the tree. *)
Variable literal : ptr -> str.
Variable filePrefix : str.

Definition relativeFileName (fileName : str) : str :=
  if startsWith fileName filePrefix then drop (List.length filePrefix) fileName else fileName.

Definition getLogPolicy : M State policy := gets logPolicy.
Definition setLogPolicy (newPolicy : policy) : M State unit :=
  _ ← modify (fun s => s <| logPolicy := newPolicy |>); modify (fun s => s <| isLoggingCache := ∅ |>).

Definition isLogging (level : LogLevel) (fileName : ptr) : M State bool :=
  s ← get;
  verbosity ← match isLoggingCache s !! fileName with
              | None =>
                  v ← lift (getLogLevel (logPolicy s) (relativeFileName (literal fileName)));
                  _ ← modify (fun s => s <| isLoggingCache ::= <[fileName := v]> |>);
                  mret v
              | Some v => mret v
              end;
  mret (level_value level <=? level_value verbosity).

(** The cache only holds what [getLogLevel] computes. *)
Definition coherent (s : State) : Prop :=
  forall f v, isLoggingCache s !! f = Some v -> getLogLevel (logPolicy s) (relativeFileName (literal f)) = Ok v.

Inductive reachable : State -> Prop :=
  | reach_new : reachable State_new
  | reach_policy s p s' : reachable s -> setLogPolicy p s = Ok (tt, s') -> reachable s'
  | reach_query s l f b s' : reachable s -> isLogging l f s = Ok (b, s') -> reachable s'.

Lemma isLogging_spec l f s :
  coherent s ->
  match isLogging l f s with
  | Ok (b, s') => exists v, getLogLevel (logPolicy s) (relativeFileName (literal f)) = Ok v /\
      b = (level_value l <=? level_value v) /\ logPolicy s' = logPolicy s /\ coherent s'
  | Error e => getLogLevel (logPolicy s) (relativeFileName (literal f)) = Error e
  end.
Proof.
  intros Hc. unfold isLogging, get, lift, modify, mbind, M_bind, mret, M_ret.
  destruct (isLoggingCache s !! f) as [v|] eqn:Hf.
  { exists v. split_and!; [by apply Hc|done..]. }
  destruct (getLogLevel (logPolicy s) (relativeFileName (literal f))) as [v|e] eqn:Hv; [|done].
  exists v. split_and!; [done|done|done|]. intros g w. unfold over; cbn.
  intros [[<- <-]|[_ Hg]]%lookup_insert_Some; [done|by apply Hc].
Qed.

Lemma reachable_coherent s : reachable s -> coherent s.
Proof.
  induction 1 as [|s p s' _ _ Hs|s l f b s' _ IH Hs].
  - intros f v Hf. change ((∅ : gmap ptr LogLevel) !! f = Some v) in Hf. by rewrite lookup_empty in Hf.
  - injection Hs as <-. intros f v Hf. change ((∅ : gmap ptr LogLevel) !! f = Some v) in Hf.
    by rewrite lookup_empty in Hf.
  - pose proof (isLogging_spec l f s IH) as H. rewrite Hs in H. by destruct H as (v & _ & _ & _ & ?).
Qed.

(** The cache cannot be observed: after any policies were set and any queries
    made, [isLogging] answers what the current policy says about the file, or aborts
    when the policy names a level that does not exist. *)
Theorem isLogging_uncached l f s :
  reachable s ->
  match isLogging l f s with
  | Ok (b, s') => logPolicy s' = logPolicy s /\
      (v ← getLogLevel (logPolicy s) (relativeFileName (literal f)); mret (level_value l <=? level_value v)) = Ok b
  | Error e => getLogLevel (logPolicy s) (relativeFileName (literal f)) = Error e
  end.
Proof.
  intros Hr. pose proof (isLogging_spec l f s (reachable_coherent s Hr)) as H.
  destruct (isLogging l f s) as [[b s']|e]; [|done]. destruct H as (v & Hv & -> & Hp & _). by rewrite Hv.
Qed.
End state.

(** ** Policies as text *)

(** A rule that can be written down. *)
Definition rule_ok (r : str * str) : Prop :=
  (","%char ∉ r.1) /\ (","%char ∉ r.2) /\ ("@"%char ∉ r.2) /\ r.2 <> [].

Lemma rule_of_text r : rule_ok r -> rule_of (rule_text r) = Ok r.
Proof.
  destruct r as [pattern level]. intros (_ & _ & Hat & Hne). cbn [fst snd] in *. unfold rule_of, rule_text. cbn [fst snd].
  destruct pattern as [|c cs]; [by rewrite split_one|]. set (pattern := c :: cs).
  change (chars "@") with ["@"%char]. cbn [app]. unfold split. rewrite getlines_delimiter. fold (split level "@"%char).
  rewrite split_one by done. pose proof (join_lines "@"%char pattern []) as Hj. cbn [app] in Hj.
  destruct (lines_cons "@"%char pattern []) as (x & xs & E). rewrite E in *. destruct xs as [|y ys]; cbn [app].
  - cbn [join] in Hj. rewrite !app_nil_r in Hj. by rewrite Hj.
  - destruct (ys ++ [level]) as [|z zs] eqn:Ez; [by destruct ys|]. rewrite <- Ez.
    change (x :: y :: ys ++ [level]) with ((x :: y :: ys) ++ [level]).
    rewrite removelast_last, last_snoc. change (chars "@") with ["@"%char]. by rewrite Hj.
Qed.

Lemma rules_of_texts p : Forall rule_ok p -> rules_of (map rule_text p) = Ok p.
Proof. induction 1 as [|r p Hr _ IH]; [done|]. cbn [map rules_of]. rewrite rule_of_text by done. simpl. by rewrite IH. Qed.

Lemma rule_text_ok r : rule_ok r -> (","%char ∉ rule_text r) /\ rule_text r <> [].
Proof.
  destruct r as [pattern level]. intros (Hc1 & Hc2 & _ & Hne). unfold rule_text. cbn [fst snd] in *.
  destruct pattern as [|c cs]; [done|]. split; [|done]. rewrite !not_elem_of_app. split_and!; [done| |done].
  intros H%list_elem_of_singleton. done.
Qed.

Lemma from_string_join p : Forall rule_ok p -> logPolicyFromString (join (map rule_text p) (chars ",")) = Ok p.
Proof.
  intros Hp. unfold logPolicyFromString. change (chars ",") with [","%char]. rewrite split_join; [by apply rules_of_texts| |].
  - apply Forall_map. eapply Forall_impl; [exact Hp|]. intros r Hr. by apply rule_text_ok.
  - change (map rule_text p) with (rule_text <$> p). rewrite fmap_last. destruct (last p) as [r|] eqn:Hl; [|done]. simpl. intros [= E].
    apply last_Some in Hl as [q ->]. apply Forall_app in Hp as [_ [Hr _]%Forall_cons]. by apply rule_text_ok in Hr as [_ ?].
Qed.

(** The policy with its default written out. *)
Definition catch_all (r : option (str * str)) : policy :=
  match r with Some ([], _) => [] | _ => [([], chars "NOTICE")] end.
Definition completed (p : policy) : policy := p ++ catch_all (last p).

Lemma join_map_snoc (p : policy) r :
  p <> [] -> join (map rule_text (p ++ [r])) (chars ",") = join (map rule_text p) (chars ",") ++ chars "," ++ rule_text r.
Proof.
  induction p as [|x p IH]; [done|]. intros _. destruct p as [|y p].
  - cbn [map app join]. by rewrite !app_nil_r.
  - change (map rule_text ((x :: y :: p) ++ [r])) with (rule_text x :: map rule_text ((y :: p) ++ [r])).
    change (map rule_text (x :: y :: p)) with (rule_text x :: map rule_text (y :: p)).
    cbn [join]. rewrite IH by done. cbn [map app join]. by rewrite <- !app_assoc.
Qed.

Lemma policy_text_join p flag :
  p <> [] -> policy_text p flag = join (map rule_text p) (chars ",") ++
    (match catch_all (last p) with [] => [] | _ :: _ => chars "," ++ chars "NOTICE" end).
Proof.
  revert flag. induction p as [|r p IH]; [done|]. intros flag _. cbn [policy_text map join]. destruct p as [|q p].
  - cbn [map join policy_text last]. destruct r as [[|c cs] level]; cbn [fst catch_all]; by rewrite !app_nil_r.
  - rewrite IH by done. rewrite last_cons_cons. change (map rule_text (q :: p)) with (rule_text q :: map rule_text p) at 2.
    cbv iota. by rewrite <- !app_assoc.
Qed.

Lemma completed_join p : logPolicyToString p = join (map rule_text (completed p)) (chars ",").
Proof.
  unfold logPolicyToString, completed. destruct p as [|r p]; [done|]. rewrite policy_text_join by done.
  destruct (last (r :: p)) as [[[|c cs] level]|]; cbn [catch_all].
  - by rewrite !app_nil_r.
  - by rewrite join_map_snoc.
  - by rewrite join_map_snoc.
Qed.

Lemma completed_ok p : Forall rule_ok p -> Forall rule_ok (completed p).
Proof.
  intros Hp. apply Forall_app. split; [done|]. assert (Forall rule_ok [([], chars "NOTICE")]) as Hd.
  { apply Forall_singleton. repeat split; try apply not_elem_of_nil; try done; intros H;
      repeat (apply elem_of_cons in H as [?|H]; [done|]); by apply elem_of_nil in H. }
  unfold catch_all. repeat case_match; done.
Qed.

Lemma completed_level p f : getLogLevel (completed p) f = getLogLevel p f.
Proof.
  assert (startsWith f [] = true) as Hs by (apply startsWith_spec; by exists f).
  assert (forall q, getLogLevel (p ++ q) f = getLogLevel p f \/ getLogLevel p f = Ok NOTICE /\ getLogLevel (p ++ q) f = getLogLevel q f) as Ha.
  { intros q. induction p as [|[pat lvl] p IH]; cbn [app getLogLevel]; [by right|]. destruct (_ || _); [by left|apply IH]. }
  unfold completed. destruct (Ha (catch_all (last p))) as [E|[E1 E2]]; [done|]. rewrite E1, E2.
  unfold catch_all. repeat case_match; cbn [getLogLevel]; rewrite ?Hs; done.
Qed.

(** A policy that is written as text and read again is the policy with its default
    rule, NOTICE for every file, written out, and says the same about every file. *)
Theorem logPolicy_roundtrip p :
  Forall rule_ok p ->
  logPolicyFromString (logPolicyToString p) = Ok (completed p) /\
  forall fileName, getLogLevel (completed p) fileName = getLogLevel p fileName.
Proof.
  intros Hp. split; [|apply completed_level]. rewrite completed_join. by apply from_string_join, completed_ok.
Qed.

(** ** Witnesses *)

Definition sample_policy : policy := [(chars "src/Sender", chars "VERBOSE"); (chars "a@b", chars "ERROR")].

Lemma logPolicy_roundtrip_witness :
  logPolicyFromString (logPolicyToString sample_policy) = Ok (completed sample_policy) /\
  forall fileName, getLogLevel (completed sample_policy) fileName = getLogLevel sample_policy fileName.
Proof. apply logPolicy_roundtrip. apply (bool_decide_unpack _). vm_compute. exact I. Defined.

Example sample_policy_text :
  logPolicyToString sample_policy = chars "src/Sender@VERBOSE,a@b@ERROR,NOTICE".
Proof. by vm_compute. Qed.

Lemma isLogging_uncached_witness :
  match isLogging (fun _ => chars "src/Sender.cc") [] VERBOSE 1%positive (mkState sample_policy ∅) with
  | Ok (b, s') => logPolicy s' = sample_policy /\
      (v ← getLogLevel sample_policy (relativeFileName [] (chars "src/Sender.cc"));
       mret (level_value VERBOSE <=? level_value v)) = Ok b
  | Error e => getLogLevel sample_policy (relativeFileName [] (chars "src/Sender.cc")) = Error e
  end.
Proof.
  apply (isLogging_uncached (fun _ => chars "src/Sender.cc") [] VERBOSE 1%positive (mkState sample_policy ∅)).
  eapply (reach_policy _ _ State_new sample_policy); [apply reach_new|reflexivity].
Defined.
End Debug.
