(* ===== verification/SpinLock.v ===== *)
(** * SpinLock: src/src/SpinLock.h, and threads that use it

    The lock is an atomic flag; [test_and_set] and [clear] are single steps.  A
    machine of threads runs programs that acquire and release locks and change the
    data behind them, one step of one thread at a time, in the order of a schedule.
    Every schedule keeps the locks exclusive and isolates critical sections, and
    programs that acquire locks in the order of their ranks can always finish. *)

From S2P Require Import Prelude.

Module SpinLock.

(** ** The lock *)

(** [flag]: false means free, true means locked. *)
Record SpinLock := mkSpinLock { flag : bool }.
#[global] Instance SpinLock_eta : Eta SpinLock := fun r => mkSpinLock (flag r).
#[global] Instance SpinLock_eq_dec : EqDecision SpinLock.
Proof. solve_decision. Defined.

(** The constructor clears the flag. *)
Definition SpinLock_new : SpinLock := mkSpinLock false.

(** [std::atomic_flag]: sets the flag and returns what it was. *)
Definition test_and_set : M SpinLock bool := fun k => Ok (flag k, mkSpinLock true).
Definition clear : M SpinLock unit := modify (fun k => k <| flag := false |>).

(** One round of the loop of [lock]: true when it was the last one. *)
Definition try_lock : M SpinLock bool := old ← test_and_set; mret (negb old).

(** [lock]: the loop alone, with nobody else to release the lock. *)
Fixpoint lock (fuel : nat) : M SpinLock unit :=
  match fuel with
  | O => fault OutOfFuel
  | S fuel' => old ← test_and_set; if (old : bool) then lock fuel' else mret tt
  end.
Definition unlock : M SpinLock unit := clear.

(** ** Threads *)

Section threads.
Context {name : Type} `{Countable name} {data_t : Type}.
Implicit Types (l : name).

(** What a thread still has to do.  [Try] is a [try_lock] with the code for
    either answer. *)
Inductive code :=
  | Done
  | Acquire l (k : code)
  | Try l (k_taken k_busy : code)
  | Release l (k : code)
  | Act l (f : data_t -> data_t) (k : code).

(** A thread; [holds] are the locks that it took, which the code does not record. *)
Record Thread := mkThread { todo : code; holds : list name }.

(** [data l] is what the lock [l] protects. *)
Record Machine := mkMachine { locks : gmap name SpinLock; data : name -> data_t; threads : list Thread }.

Definition lock_of l (m : Machine) : SpinLock := default SpinLock_new (locks m !! l).

(** The lock [l] after the operation [op] of the thread [i], which goes on as [t]. *)
Definition on_lock {A} l (op : M SpinLock A) (i : nat) (m : Machine) (t : A -> Thread) : Machine :=
  match op (lock_of l m) with
  | Ok (a, k) => mkMachine (<[l := k]> (locks m)) (data m) (<[i := t a]> (threads m))
  | Error _ => m
  end.

(** One step of thread [i]; an [Acquire] that finds the lock taken spins. *)
Definition step (i : nat) (m : Machine) : Machine :=
  match threads m !! i with
  | None => m
  | Some (mkThread c h) =>
      match c with
      | Done => m
      | Acquire l k =>
          on_lock l try_lock i m (fun taken : bool => if taken then mkThread k (l :: h) else mkThread c h)
      | Try l k k' =>
          on_lock l try_lock i m (fun taken : bool => if taken then mkThread k (l :: h) else mkThread k' h)
      | Release l k => on_lock l unlock i m (fun _ => mkThread k (list_difference h [l]))
      | Act l f k =>
          mkMachine (locks m) (fun l' => if decide (l' = l) then f (data m l) else data m l')
            (<[i := mkThread k h]> (threads m))
      end
  end.

(** A schedule names the thread that moves in each step. *)
Definition run (schedule : list nat) (m : Machine) : Machine := fold_left (fun m i => step i m) schedule m.

Definition start (programs : list code) (d : name -> data_t) : Machine :=
  mkMachine ∅ d ((fun c => mkThread c []) <$> programs).

(** ** Locking in order *)

Context (rank : name -> nat).

(** [c], run with the locks [h], waits only for locks of a higher rank than those
    it has, changes only data whose lock it has, releases only what it has, and
    ends with no lock. *)
Fixpoint well_locked (h : list name) (c : code) : bool :=
  match c with
  | Done => bool_decide (h = [])
  | Acquire l k => forallb (fun l' => rank l' <? rank l)%nat h && well_locked (l :: h) k
  | Try l k k' => bool_decide (l ∉ h) && well_locked (l :: h) k && well_locked h k'
  | Release l k => bool_decide (l ∈ h) && well_locked (list_difference h [l]) k
  | Act l f k => bool_decide (l ∈ h) && well_locked h k
  end.

Definition held (m : Machine) : list name := threads m ≫= holds.

Record inv (m : Machine) : Prop := {
  inv_programs : Forall (fun t => well_locked (holds t) (todo t)) (threads m);
  inv_exclusive : NoDup (held m);
  inv_flags : forall l, flag (lock_of l m) = bool_decide (l ∈ held m) }.

(** ** Steps *)

Lemma insert_middle {A} (before after : list A) (x y : A) : <[length before := x]> (before ++ y :: after) = before ++ x :: after.
Proof. induction before; csimpl; [done|by f_equal]. Qed.

(** The locks of every thread but the one between [before] and [after]. *)
Definition others (before after : list Thread) : list name := (before ≫= holds) ++ (after ≫= holds).

Lemma held_middle lks d before t after : held (mkMachine lks d (before ++ t :: after)) ≡ₚ holds t ++ others before after.
Proof. unfold held, others. cbn [threads]. rewrite bind_app, bind_cons. solve_Permutation. Qed.

Lemma inv_replace lks lks' d d' before t t' after :
  inv (mkMachine lks d (before ++ t :: after)) ->
  well_locked (holds t') (todo t') ->
  NoDup (holds t' ++ others before after) ->
  (forall l, flag (default SpinLock_new (lks' !! l)) = bool_decide (l ∈ holds t' ++ others before after)) ->
  inv (mkMachine lks' d' (before ++ t' :: after)).
Proof.
  intros Hi Hw Hn Hf. split.
  - pose proof (inv_programs _ Hi) as Hp. cbn [threads] in *. rewrite Forall_app, Forall_cons in *. naive_solver.
  - by rewrite held_middle.
  - intros l. unfold lock_of. cbn [locks]. rewrite Hf. apply bool_decide_ext. by rewrite held_middle.
Qed.

Section one_step.
Context (lks : gmap name SpinLock) (d : name -> data_t) (before after : list Thread) (c : code) (h : list name).
Let m := mkMachine lks d (before ++ mkThread c h :: after).
Hypothesis Hinv : inv m.

Lemma this_well_locked : well_locked h c.
Proof. pose proof (inv_programs _ Hinv) as Hp. cbn [m threads] in Hp. rewrite Forall_app, Forall_cons in Hp. naive_solver. Qed.
Lemma this_nodup : NoDup (h ++ others before after).
Proof. pose proof (inv_exclusive _ Hinv) as Hn. unfold m in Hn. by rewrite held_middle in Hn. Qed.
Lemma this_flag l : flag (default SpinLock_new (lks !! l)) = bool_decide (l ∈ h ++ others before after).
Proof. pose proof (inv_flags _ Hinv l) as Hf. unfold m, lock_of in Hf. cbn [locks] in Hf. rewrite Hf. apply bool_decide_ext. by rewrite held_middle. Qed.

(** [try_lock] in the middle of the threads: who gets the lock. *)
Lemma on_try_lock l (t : bool -> Thread) (free := bool_decide (l ∉ h ++ others before after)) :
  on_lock l try_lock (length before) m t = mkMachine (<[l := mkSpinLock true]> lks) d (before ++ t free :: after).
Proof.
  unfold on_lock, try_lock, test_and_set, lock_of, m, mbind, M_bind. cbn [locks data threads mret M_ret].
  rewrite insert_middle, this_flag. unfold free. by rewrite bool_decide_not.
Qed.

Lemma on_unlock l (t : unit -> Thread) :
  on_lock l unlock (length before) m t = mkMachine (<[l := mkSpinLock false]> lks) d (before ++ t tt :: after).
Proof. unfold on_lock, unlock, clear, modify, lock_of, m. cbn [locks data threads]. by rewrite insert_middle. Qed.

(** After an attempt at [l]: with the lock if it was free, otherwise with the
    locks of before. *)
Lemma inv_try l (t : bool -> Thread) :
  holds (t true) = l :: h -> holds (t false) = h ->
  (l ∉ h -> well_locked (l :: h) (todo (t true))) -> well_locked h (todo (t false)) ->
  inv (on_lock l try_lock (length before) m t).
Proof.
  intros Ht Hf Hwt Hwf. rewrite on_try_lock. pose proof this_nodup as Hn.
  case_bool_decide as Hl; (eapply inv_replace; [exact Hinv|..]); rewrite ?Ht, ?Hf.
  - apply Hwt. set_solver.
  - cbn [app]. by apply NoDup_cons.
  - intros l'. rewrite lookup_insert. case_decide; [subst; symmetry; apply bool_decide_eq_true; set_solver|].
    rewrite this_flag. apply bool_decide_ext. set_solver.
  - done.
  - done.
  - intros l'. rewrite lookup_insert. case_decide; [subst; symmetry; apply bool_decide_eq_true; done|apply this_flag].
Qed.
End one_step.

Lemma step_inv i m : inv m -> inv (step i m).
Proof.
  intros Hi. unfold step. destruct (threads m !! i) as [[c h]|] eqn:Ht; [|done].
  apply list_elem_of_split_length in Ht as (before & after & Hs & ->). destruct m as [lks d ts]. cbn [threads] in Hs. subst ts.
  pose proof (this_well_locked _ _ _ _ _ _ Hi) as Hw. pose proof (this_nodup _ _ _ _ _ _ Hi) as Hn.
  pose proof (this_flag _ _ _ _ _ _ Hi) as Hf.
  destruct c as [|l k|l k k'|l k|l f k]; cbn [well_locked] in Hw; [done|..].
  - apply andb_True in Hw as [Hr Hw]. apply inv_try; [done..|]. cbn [todo well_locked]. by apply andb_True.
  - apply andb_True in Hw as [[_ Hw]%andb_True Hw']. by apply inv_try.
  - apply andb_True in Hw as [Hl%bool_decide_unpack Hw]. rewrite on_unlock. eapply inv_replace; [exact Hi|done| |]; cbn [holds].
    + apply NoDup_app in Hn as (? & Hd & ?). apply NoDup_app. split_and!; [by apply NoDup_list_difference| |done].
      intros x [? _]%list_elem_of_difference. by apply Hd.
    + apply NoDup_app in Hn as (? & Hd & ?). intros l'. rewrite lookup_insert. case_decide as He.
      * subst. symmetry. apply bool_decide_eq_false. rewrite elem_of_app, list_elem_of_difference. set_solver.
      * rewrite Hf. apply bool_decide_ext. rewrite !elem_of_app, list_elem_of_difference. set_solver.
  - apply andb_True in Hw as [_ Hw]. cbn [locks data threads]. rewrite insert_middle. by eapply inv_replace.
Qed.

Lemma run_inv schedule m : inv m -> inv (run schedule m).
Proof. unfold run. revert m. induction schedule as [|i schedule IH]; intros m Hi; [done|]. apply IH. by apply step_inv. Qed.

Lemma start_inv programs d : Forall (fun c => well_locked [] c) programs -> inv (start programs d).
Proof.
  intros Hp. assert (held (start programs d) = []) as Hh.
  { unfold held, start. cbn. clear Hp. induction programs; [done|by csimpl]. }
  split.
  - cbn. by apply Forall_fmap.
  - rewrite Hh. constructor.
  - intros l. rewrite Hh. unfold lock_of. cbn. by rewrite lookup_empty.
Qed.

(** ** Exclusion and isolation *)

Lemma elem_of_held (m : Machine) i t (l : name) : threads m !! i = Some t -> l ∈ holds t -> l ∈ held m.
Proof. intros Ht Hl. unfold held. apply list_elem_of_bind. exists t. split; [done|by eapply list_elem_of_lookup_2]. Qed.

Lemma holder_unique m i j ti tj (l : name) :
  inv m -> threads m !! i = Some ti -> threads m !! j = Some tj -> l ∈ holds ti -> l ∈ holds tj -> i = j.
Proof.
  intros Hi Hti Htj Hl Hl'. destruct (decide (i = j)) as [|Hne]; [done|exfalso].
  apply list_elem_of_split_length in Hti as (before & after & Hs & ->). destruct m as [lks d ts]. cbn [threads] in *. subst ts.
  destruct ti as [c h]. pose proof (this_nodup _ _ _ _ _ _ Hi) as Hn. apply NoDup_app in Hn as (_ & Hd & _).
  apply (Hd l Hl). unfold others. apply elem_of_app. apply lookup_app_Some in Htj as [Htj|[Hge Htj]].
  - left. apply list_elem_of_bind. exists tj. split; [done|by eapply list_elem_of_lookup_2].
  - right. destruct (j - length before)%nat eqn:Hj; [lia|]. apply list_elem_of_bind. exists tj. split; [done|by eapply list_elem_of_lookup_2].
Qed.

Lemma step_thread i j m : i <> j -> threads (step i m) !! j = threads m !! j.
Proof.
  intros Hne. unfold step, on_lock. destruct (threads m !! i) as [[[] h]|]; [..|done]; [done|..];
    try (destruct (_ : Result _) as [[]|]; [|done]); cbn [threads]; by rewrite list_lookup_insert_ne.
Qed.

Lemma step_isolated i j m t (l : name) :
  inv m -> threads m !! j = Some t -> l ∈ holds t -> i <> j -> data (step i m) l = data m l.
Proof.
  intros Hi Hj Hl Hne. unfold step, on_lock. destruct (threads m !! i) as [[[] h]|] eqn:Ht; [..|done]; [done|..];
    try (by destruct (_ : Result _) as [[]|]). cbn [data]. case_decide as He; [|done]. subst. exfalso. apply Hne.
  pose proof (inv_programs _ Hi) as Hp. pose proof (Forall_lookup_1 _ _ _ _ Hp Ht) as Hw. cbn in Hw.
  apply andb_True in Hw as [Hw%bool_decide_unpack _]. by eapply holder_unique.
Qed.

Lemma run_isolated schedule j m t (l : name) :
  inv m -> threads m !! j = Some t -> l ∈ holds t -> j ∉ schedule -> data (run schedule m) l = data m l.
Proof.
  unfold run. revert m. induction schedule as [|i schedule IH]; intros m Hi Hj Hl Hn; [done|].
  apply not_elem_of_cons in Hn as [Hne Hn]. cbn [fold_left]. rewrite IH; [by eapply step_isolated|by apply step_inv| |done|done].
  by rewrite step_thread.
Qed.

(** ** Progress *)

(** Steps a program takes at most, the rounds of its spinning apart. *)
Fixpoint work (c : code) : nat :=
  match c with
  | Done => O
  | Acquire _ k | Release _ k | Act _ _ k => S (work k)
  | Try _ k k' => S (work k + work k')
  end.
Definition total_work (m : Machine) : nat := sum_list_with (fun t => work (todo t)) (threads m).

(** The thread does not spin in its next step. *)
Definition can_move (m : Machine) (t : Thread) : Prop :=
  match todo t with Done => False | Acquire l _ => l ∉ held m | _ => True end.

Lemma total_work_middle lks d before t after :
  total_work (mkMachine lks d (before ++ t :: after)) = (work (todo t) + total_work (mkMachine lks d (before ++ after)))%nat.
Proof. unfold total_work. cbn [threads]. rewrite !sum_list_with_app. cbn [sum_list_with]. lia. Qed.

Lemma total_work_data lks lks' d d' ts : total_work (mkMachine lks d ts) = total_work (mkMachine lks' d' ts).
Proof. done. Qed.

Lemma move_works i m t : inv m -> threads m !! i = Some t -> can_move m t -> (total_work (step i m) < total_work m)%nat.
Proof.
  intros Hi Ht Hm. unfold step. rewrite Ht. destruct t as [c h].
  apply list_elem_of_split_length in Ht as (before & after & Hs & ->). destruct m as [lks d ts]. cbn [threads] in Hs. subst ts.
  destruct c as [|l k|l k k'|l k|l f k]; cbn [can_move todo] in Hm; [done|..].
  - rewrite held_middle in Hm. rewrite on_try_lock by done. rewrite bool_decide_true by done.
    rewrite !total_work_middle. cbn [todo work]. rewrite (total_work_data _ lks _ d). lia.
  - rewrite on_try_lock by done. rewrite !total_work_middle, (total_work_data _ lks _ d). case_bool_decide; cbn [todo work]; lia.
  - rewrite on_unlock. rewrite !total_work_middle. cbn [todo work]. rewrite (total_work_data _ lks _ d). lia.
  - cbn [locks data threads]. rewrite insert_middle, !total_work_middle. cbn [todo work]. rewrite (total_work_data _ lks _ d). lia.
Qed.

(** A thread that waits for [l] waits for one that holds [l], and which, if it
    waits in turn, waits for a lock of a higher rank. *)
Lemma some_mover n m (l : name) :
  inv m -> l ∈ held m -> (max_list (rank <$> held m) - rank l < n)%nat ->
  exists i t, threads m !! i = Some t /\ can_move m t.
Proof.
  intros Hi. revert l. induction n as [|n IH]; intros l Hl Hr; [lia|].
  pose proof Hl as (t & Hlt & [i Ht]%list_elem_of_lookup)%list_elem_of_bind.
  pose proof (Forall_lookup_1 _ _ _ _ (inv_programs _ Hi) Ht) as Hw. destruct t as [c h]. cbn [holds todo] in *.
  destruct c as [|l' k|l' k k'|l' k|l' f k]; cbn [well_locked] in Hw.
  2:{ destruct (decide (l' ∈ held m)) as [Hl'|Hl']; [|by exists i, (mkThread (Acquire l' k) h)].
      apply (IH l' Hl'). apply andb_True in Hw as [Hw _]. apply Is_true_true, forallb_forall with (x := l) in Hw; [|by apply list_elem_of_In].
      apply Nat.ltb_lt in Hw. pose proof (max_list_elem_of_le (rank l') (rank <$> held m)) as Hmax.
      specialize (Hmax ltac:(by apply list_elem_of_fmap_2)). lia. }
  1:{ apply bool_decide_unpack in Hw. subst. by apply not_elem_of_nil in Hlt. }
  all: by eexists i, _.
Qed.

Lemma progress m :
  inv m -> Forall (fun t => todo t = Done) (threads m) \/ exists i, (total_work (step i m) < total_work m)%nat.
Proof.
  intros Hi. assert (forall c, {c = Done} + {c <> Done}) as dec by (intros []; first [by left|by right]).
  destruct (Forall_Exists_dec (fun t => todo t = Done) (fun t => todo t <> Done) (fun t => dec (todo t)) (threads m)) as [|He]; [by left|right].
  apply Exists_exists in He as (t & [i Ht]%list_elem_of_lookup & Hne).
  assert (exists i t, threads m !! i = Some t /\ can_move m t) as (j & t' & Hj & Hm).
  { destruct t as [c h]. cbn [todo] in Hne. destruct c as [|l k|l k k'|l k|l f k]; [done|..].
    - destruct (decide (l ∈ held m)) as [Hl|Hl]; [|by exists i, (mkThread (Acquire l k) h)].
      eapply (some_mover (S _) m l Hi Hl), Nat.lt_succ_diag_r.
    - by eexists i, _.
    - by eexists i, _.
    - by eexists i, _. }
  exists j. by eapply move_works.
Qed.

Lemma can_finish m : inv m -> exists schedule, Forall (fun t => todo t = Done) (threads (run schedule m)).
Proof.
  induction m as [m IH] using (induction_ltof1 _ total_work). intros Hi.
  destruct (progress m Hi) as [?|[i Hlt]]; [by exists []|].
  destruct (IH (step i m) Hlt (step_inv i m Hi)) as [schedule ?]. by exists (i :: schedule).
Qed.

(** ** Properties *)

(** C21: However the threads are scheduled: no two of them hold the same lock, the flag
    of a lock is set exactly while a thread holds it, and while a thread holds a
    lock, what the lock protects is changed by no other thread. *)
Theorem spinlock_excludes programs d schedule :
  Forall (fun c => well_locked [] c) programs ->
  let m := run schedule (start programs d) in
  (forall l i j ti tj, threads m !! i = Some ti -> threads m !! j = Some tj ->
     l ∈ holds ti -> l ∈ holds tj -> i = j) /\
  (forall l, flag (lock_of l m) = true <-> exists i t, threads m !! i = Some t /\ l ∈ holds t) /\
  (forall l i t later, threads m !! i = Some t -> l ∈ holds t -> i ∉ later -> data (run later m) l = data m l).
Proof.
  intros Hp m. assert (inv m) as Hi by (by apply run_inv, start_inv). split_and!.
  - intros l i j ti tj. by apply holder_unique.
  - intros l. rewrite (inv_flags _ Hi), bool_decide_eq_true. unfold held. rewrite list_elem_of_bind. split.
    + intros (t & Hl & [i Ht]%list_elem_of_lookup). eauto.
    + intros (i & t & Ht & Hl). exists t. split; [done|by eapply list_elem_of_lookup_2].
  - intros l i t later. by apply run_isolated.
Qed.

End threads.
Arguments code : clear implicits.
Arguments Thread : clear implicits.
Arguments Machine name {_ _} data_t.

(** [lock] takes a free lock at once; on a taken one it spins for as long as nobody
    releases it. *)
Lemma lock_free fuel : lock (S fuel) SpinLock_new = Ok (tt, mkSpinLock true).
Proof. done. Qed.
Lemma lock_taken fuel : lock fuel (mkSpinLock true) = Error OutOfFuel.
Proof. induction fuel as [|fuel IH]; [done|]. cbn [lock]. unfold test_and_set, mbind, M_bind. exact IH. Qed.

(** ** Witnesses *)

(** Two threads that increment a counter behind lock 1, each with a section of its own. *)
Definition counting : code nat nat := Acquire 1%nat (Act 1%nat S (Release 1%nat Done)).

Lemma spinlock_excludes_witness :
  let m := run [0; 1; 0; 1]%nat (start [counting; counting] (fun _ => O)) in
  flag (lock_of 1%nat m) = true /\ data (run [1; 1; 1]%nat m) 1%nat = data m 1%nat.
Proof.
  destruct (spinlock_excludes (fun n => n) [counting; counting] (fun _ => O) [0; 1; 0; 1]%nat) as (_ & Hf & Hi).
  - apply (bool_decide_unpack _). vm_compute. exact I.
  - split.
    + apply Hf. exists O, (mkThread (Release 1%nat Done) [1%nat]). split; [vm_compute; reflexivity|apply (bool_decide_unpack _); vm_compute; exact I].
    + apply (Hi 1%nat O (mkThread (Release 1%nat Done) [1%nat])).
      * vm_compute. reflexivity.
      * apply (bool_decide_unpack _). vm_compute. exact I.
      * apply (bool_decide_unpack _). vm_compute. exact I.
Defined.

Example both_counted :
  data (run [0; 1; 0; 1; 1; 0; 1; 1; 1]%nat (start [counting; counting] (fun _ => O))) 1%nat = 2%nat.
Proof. by vm_compute. Qed.

End SpinLock.
