(* ===== verification/Locking.v ===== *)
(** * Locking: the locks that the Sender and the Receiver take

    For each call of the transport, the locks that its code takes and releases, in
    order, as a program of SpinLock.v; the arguments say which branches it takes.
    SpinLock::Lock is a guard: the lock is released at the end of its scope.  The
    driver and the counters have locks of their own, below all of these.  The
    destructor of the Receiver, which takes the locks in the opposite order and
    gives none back, is left out: nobody else may use the Receiver by then. *)

From S2P Require Import Prelude SpinLock.
Import SpinLock.

Module Locking.

(** The mutexes of the Sender, of the Receiver and of the policy manager, and
    the flags that keep a second thread out of trySend and trySendGrants. *)
Inductive LockName :=
  | tx_bucket (b : Z) | queueMutex | tx_allocator | sending
  | rx_bucket (b : Z) | schedulerMutex | receivedMessages | rx_allocator | granting
  | policy.
#[global] Instance LockName_eq_dec : EqDecision LockName.
Proof. solve_decision. Defined.
#[global] Instance LockName_countable : Countable LockName.
Proof.
  refine (inj_countable'
    (fun l => match l with
      | tx_bucket b => (0%nat, b) | queueMutex => (1%nat, 0) | tx_allocator => (2%nat, 0) | sending => (3%nat, 0)
      | rx_bucket b => (4%nat, b) | schedulerMutex => (5%nat, 0) | receivedMessages => (6%nat, 0)
      | rx_allocator => (7%nat, 0) | granting => (8%nat, 0) | policy => (9%nat, 0) end)
    (fun c => match c with
      | (0%nat, b) => tx_bucket b | (1%nat, _) => queueMutex | (2%nat, _) => tx_allocator | (3%nat, _) => sending
      | (4%nat, b) => rx_bucket b | (5%nat, _) => schedulerMutex | (6%nat, _) => receivedMessages
      | (7%nat, _) => rx_allocator | (8%nat, _) => granting | _ => policy end) _).
  by intros [].
Defined.

(** The order in which a thread takes locks: buckets, then the lists that span
    them, then the policies. *)
Definition rank (l : LockName) : nat :=
  match l with
  | tx_bucket _ | rx_bucket _ | sending | granting => 0
  | queueMutex | tx_allocator | schedulerMutex | receivedMessages | rx_allocator => 1
  | policy => 2
  end.

Section calls.
(** What a section does to the data of its lock. *)
Context {data_t : Type} (touch : LockName -> data_t -> data_t).

(** A part of a program, to be followed by the rest. *)
Abbreviation part := (code LockName data_t -> code LockName data_t).

Definition skip : part := fun k => k.
Definition If (b : bool) (c : part) : part := if b then c else skip.
Definition then_ (c1 c2 : part) : part := fun k => c1 (c2 k).
Definition each {A} (f : A -> part) (l : list A) : part := fun k => foldr f k l.
(** [SpinLock::Lock lock(l)] with the rest of its scope. *)
Definition guarded (l : LockName) (scope : part) : part :=
  fun k => Acquire l (Act l (touch l) (scope (Release l k))).
Infix ">>>" := then_ (at level 60, right associativity).

(** ** The Sender *)

Definition allocMessage : part := guarded tx_allocator skip.
Definition tx_handleDonePacket (b : Z) : part := guarded (tx_bucket b) skip.
(** [several]: the message is known and has several packets. *)
Definition handleResendPacket (b : Z) (several : bool) : part :=
  guarded (tx_bucket b) (If several (guarded queueMutex skip)).
Definition handleGrantPacket (b : Z) (in_progress : bool) : part :=
  guarded (tx_bucket b) (If in_progress (guarded queueMutex skip)).
(** What handleUnknownPacket does with the message; [several] packets go through
    the queue. *)
Inductive Unknown := Stale | Fails (several : bool) | Restarts (several : bool).
Definition handleUnknownPacket (b : Z) (u : Unknown) : part :=
  guarded (tx_bucket b)
    match u with
    | Stale => skip
    | Fails several => If several (guarded queueMutex skip)
    | Restarts several =>
        If several (guarded queueMutex skip) >>> guarded policy skip >>> If several (guarded queueMutex skip)
    end.
Definition handleErrorPacket (b : Z) : part := guarded (tx_bucket b) skip.
Definition sendMessage (b : Z) (several : bool) : part :=
  guarded policy skip >>> guarded (tx_bucket b) (If several (guarded queueMutex skip)).
Definition cancelMessage (b : Z) (queued : bool) : part :=
  guarded (tx_bucket b) (If queued (guarded queueMutex skip)).
Definition tx_dropMessage (b : Z) (destroyed : bool) : part :=
  guarded (tx_bucket b) (If destroyed (guarded tx_allocator skip)).

(** The loops over timeouts lock the bucket anew in each round; [rounds] has an
    entry for each expired timeout, true if its message is in progress.  The last
    round finds none.  [None]: no timeout had elapsed. *)
Definition tx_timeout_rounds (b : Z) (rounds : option (list bool)) : part :=
  match rounds with
  | None => skip
  | Some rounds =>
      each (fun in_progress => guarded (tx_bucket b) (If in_progress (guarded queueMutex skip))) rounds >>>
      guarded (tx_bucket b) skip
  end.
Definition tx_checkMessageTimeouts := tx_timeout_rounds.
Definition checkPingTimeouts := tx_timeout_rounds.
Definition tx_checkTimeouts (b : Z) (pings messages : option (list bool)) : part :=
  checkPingTimeouts b pings >>> tx_checkMessageTimeouts b messages.

(** [sent] has the bucket of each message that was finished, and whether it is
    destroyed. *)
Definition trySend (ready : bool) (sent : list (Z * bool)) : part :=
  fun k =>
    if ready then
      Try sending
        (Acquire queueMutex (Act queueMutex (touch queueMutex) (Release sending (Release queueMutex
          (each (fun m => guarded (tx_bucket m.1) (If m.2 (guarded tx_allocator skip))) sent k)))))
        k
    else k.

(** ** The Receiver *)

Definition handleDataPacket (b : Z) (new scheduled added complete : bool) : part :=
  guarded (rx_bucket b)
    (If new (guarded rx_allocator skip >>> guarded policy skip >>> If scheduled (guarded schedulerMutex skip)) >>>
     If added (If scheduled (guarded schedulerMutex skip) >>> If complete (guarded receivedMessages skip))).
Definition handleBusyPacket (b : Z) : part := guarded (rx_bucket b) skip.
Definition handlePingPacket (b : Z) (scheduled : bool) : part :=
  guarded (rx_bucket b) (If scheduled (guarded schedulerMutex skip)).
Definition receiveMessage : part := guarded receivedMessages skip.
Definition acknowledge (b : Z) : part := guarded (rx_bucket b) skip.
Definition fail (b : Z) : part := guarded (rx_bucket b) skip.
Definition rx_dropMessage (b : Z) (found scheduled : bool) : part :=
  guarded (rx_bucket b) (If found (If scheduled (guarded schedulerMutex skip) >>> guarded rx_allocator skip)).

(** A round of checkMessageTimeouts: [None] for a complete message, or whether
    the message that is destroyed was scheduled. *)
Definition rx_checkMessageTimeouts (b : Z) (rounds : option (list (option bool))) : part :=
  match rounds with
  | None => skip
  | Some rounds =>
      each (fun r => guarded (rx_bucket b)
              match r with
              | None => skip
              | Some scheduled => If scheduled (guarded schedulerMutex skip) >>> guarded rx_allocator skip
              end) rounds >>>
      guarded (rx_bucket b) skip
  end.
(** A round of checkResendTimeouts: whether the message is scheduled, and the
    number of RESENDs. *)
Definition checkResendTimeouts (b : Z) (rounds : option (list (bool * nat))) : part :=
  match rounds with
  | None => skip
  | Some rounds =>
      each (fun r => guarded (rx_bucket b)
              (If r.1 (guarded schedulerMutex skip) >>>
               each (fun _ => guarded schedulerMutex skip) (replicate r.2 tt))) rounds >>>
      guarded (rx_bucket b) skip
  end.
Definition rx_checkTimeouts (b : Z) (resends : option (list (bool * nat))) (messages : option (list (option bool))) : part :=
  checkResendTimeouts b resends >>> rx_checkMessageTimeouts b messages.
Definition trySendGrants (peers : bool) : part :=
  fun k =>
    Try granting
      (Acquire schedulerMutex (Act schedulerMutex (touch schedulerMutex)
        (If peers (guarded policy skip) (Release granting (Release schedulerMutex k)))))
      k.

(** ** Threads that use a transport *)

Inductive Call :=
  | CallAlloc | CallSend (b : Z) (several : bool) | CallCancel (b : Z) (queued : bool)
  | CallDrop (b : Z) (destroyed : bool)
  | CallDone (b : Z) | CallResend (b : Z) (several : bool) | CallGrant (b : Z) (in_progress : bool)
  | CallUnknown (b : Z) (u : Unknown) | CallError (b : Z)
  | CallTrySend (ready : bool) (sent : list (Z * bool)) | CallTimeouts (b : Z) (pings messages : option (list bool))
  | CallData (b : Z) (new scheduled added complete : bool) | CallBusy (b : Z) | CallPing (b : Z) (scheduled : bool)
  | CallReceive | CallAcknowledge (b : Z) | CallFail (b : Z) | CallRelease (b : Z) (found scheduled : bool)
  | CallTryGrants (peers : bool)
  | CallExpire (b : Z) (resends : option (list (bool * nat))) (messages : option (list (option bool))).

Definition call_code (c : Call) : part :=
  match c with
  | CallAlloc => allocMessage
  | CallSend b several => sendMessage b several
  | CallCancel b queued => cancelMessage b queued
  | CallDrop b destroyed => tx_dropMessage b destroyed
  | CallDone b => tx_handleDonePacket b
  | CallResend b several => handleResendPacket b several
  | CallGrant b in_progress => handleGrantPacket b in_progress
  | CallUnknown b u => handleUnknownPacket b u
  | CallError b => handleErrorPacket b
  | CallTrySend ready sent => trySend ready sent
  | CallTimeouts b pings messages => tx_checkTimeouts b pings messages
  | CallData b new scheduled added complete => handleDataPacket b new scheduled added complete
  | CallBusy b => handleBusyPacket b
  | CallPing b scheduled => handlePingPacket b scheduled
  | CallReceive => receiveMessage
  | CallAcknowledge b => acknowledge b
  | CallFail b => fail b
  | CallRelease b found scheduled => rx_dropMessage b found scheduled
  | CallTryGrants peers => trySendGrants peers
  | CallExpire b resends messages => rx_checkTimeouts b resends messages
  end.

(** A thread that makes these calls, one after the other. *)
Definition calls_code (calls : list Call) : code LockName data_t := each call_code calls Done.

(** ** Every call takes its locks in order *)

(** A part that is run, and leaves, with the locks [h]. *)
Definition ordered (h : list LockName) (c : part) : Prop :=
  forall k, well_locked rank h k -> well_locked rank h (c k).

Lemma ordered_skip h : ordered h skip.
Proof. by intros k. Qed.
Lemma ordered_if h b c : ordered h c -> ordered h (If b c).
Proof. intros Hc. destruct b; [done|apply ordered_skip]. Qed.
Lemma ordered_then h c1 c2 : ordered h c1 -> ordered h c2 -> ordered h (c1 >>> c2).
Proof. intros H1 H2 k Hk. apply H1. by apply H2. Qed.
Lemma ordered_each {A} h (f : A -> part) l : (forall x, ordered h (f x)) -> ordered h (each f l).
Proof. intros Hf k Hk. unfold each. induction l as [|x l IH]; [done|by apply Hf]. Qed.

Lemma released_again l h : forallb (fun l' => rank l' <? rank l)%nat h = true -> list_difference (l :: h) [l] = h.
Proof.
  intros Hr. assert (l ∉ h) as Hl.
  { intros Hl. rewrite forallb_forall in Hr. specialize (Hr l ltac:(by apply list_elem_of_In)). apply Nat.ltb_lt in Hr. lia. }
  clear Hr. cbn [list_difference]. case_decide as Hd; [|exfalso; set_solver]. clear Hd.
  induction h as [|l' h IH]; [done|]. cbn [list_difference]. apply not_elem_of_cons in Hl as [? ?].
  case_decide; [exfalso; set_solver|]. by rewrite IH.
Qed.

Lemma ordered_guarded h l c :
  forallb (fun l' => rank l' <? rank l)%nat h = true -> ordered (l :: h) c -> ordered h (guarded l c).
Proof.
  intros Hr Hc k Hk. unfold guarded. cbn [well_locked]. rewrite Hr, bool_decide_true by set_solver.
  cbn [andb]. apply Hc. cbn [well_locked]. rewrite bool_decide_true by set_solver. by rewrite released_again.
Qed.

Ltac ordered :=
  repeat match goal with
  | x : option _ |- _ => destruct x
  | u : Unknown |- _ => destruct u
  | |- forall x, _ => intros []
  | |- ordered _ (_ >>> _) => apply ordered_then
  | |- ordered _ (guarded _ _) => apply ordered_guarded
  | |- ordered _ (If _ _) => apply ordered_if
  | |- ordered _ (each _ _) => apply ordered_each
  | |- ordered _ skip => apply ordered_skip
  | |- ordered _ _ => progress cbn [fst snd] || done
  end; try done.

Lemma ordered_trySend ready sent : ordered [] (trySend ready sent).
Proof.
  intros k Hk. unfold trySend. destruct ready; [|done]. cbn. apply andb_True. split; [|done].
  apply (ordered_each [] _ sent); [|done]. ordered.
Qed.
Lemma ordered_trySendGrants peers : ordered [] (trySendGrants peers).
Proof. intros k Hk. unfold trySendGrants. destruct peers; repeat (apply andb_True; split); first [exact Hk|by vm_compute]. Qed.

Lemma ordered_call c : ordered [] (call_code c).
Proof.
  destruct c; cbn [call_code]; try apply ordered_trySend; try apply ordered_trySendGrants.
  all: unfold allocMessage, sendMessage, cancelMessage, tx_dropMessage, tx_handleDonePacket, handleResendPacket,
    handleGrantPacket, handleUnknownPacket, handleErrorPacket, tx_checkTimeouts, checkPingTimeouts,
    tx_checkMessageTimeouts, tx_timeout_rounds, handleDataPacket, handleBusyPacket, handlePingPacket, receiveMessage,
    acknowledge, fail, rx_dropMessage, rx_checkTimeouts, checkResendTimeouts, rx_checkMessageTimeouts.
  all: ordered.
Qed.

Lemma calls_well_locked calls : well_locked rank [] (calls_code calls).
Proof. apply (ordered_each [] call_code calls); [apply ordered_call|done]. Qed.

(** ** Properties *)

(** C20: Any number of threads that call the Sender and the Receiver never block each
    other for good: from every state that a schedule can reach, some schedule
    leads to the end of all calls, and no lock is held then. *)
Theorem transport_never_deadlocks (programs : list (list Call)) d schedule :
  let m := run schedule (start (calls_code <$> programs) d) in
  exists later, let m' := run later m in
    Forall (fun t => todo t = Done) (threads m') /\ forall l, flag (lock_of l m') = false.
Proof.
  intros m. assert (inv rank m) as Hi.
  { apply run_inv, start_inv, Forall_fmap, Forall_forall. intros calls _. apply calls_well_locked. }
  destruct (can_finish rank m Hi) as [later Hl]. exists later. split; [done|]. intros l.
  pose proof (run_inv rank later m Hi) as Hi'. rewrite (inv_flags _ _ Hi'). apply bool_decide_eq_false.
  intros (t & Hh & Ht)%list_elem_of_bind. rewrite Forall_forall in Hl. specialize (Hl t Ht).
  pose proof (inv_programs _ _ Hi') as Hp. rewrite Forall_forall in Hp. specialize (Hp t Ht). rewrite Hl in Hp.
  cbn in Hp. apply bool_decide_unpack in Hp. rewrite Hp in Hh. by apply not_elem_of_nil in Hh.
Qed.
End calls.
End Locking.
