(* ===== verification/Address.v ===== *)
(** * Address: network addresses and their text

    [IpAddress] of src/src/Driver.cc and src/src/Drivers/DPDK/MacAddress.cc.  The
    conversions of printf and sscanf that they use are modelled as in the C
    standard: a number is read after optional white space and an optional sign. *)

From S2P Require Import Prelude Util StringUtil.
From Stdlib Require Import Ascii.
Import StringUtil.

Module Address.
#[local] Open Scope Z_scope.
Implicit Types (s t : str) (c sep : ascii).

(** ** printf *)

Definition dec_digit (n : Z) : ascii := ascii_of_nat (Z.to_nat (48 + n)).
Fixpoint dec_digits (fuel : nat) (n : Z) (acc : str) : str :=
  match fuel with
  | O => acc
  | S fuel' => let acc := dec_digit (n mod 10) :: acc in
      if n / 10 =? 0 then acc else dec_digits fuel' (n / 10) acc
  end.
(** [%d] of a non-negative [int]. *)
Definition format_d (n : Z) : str := dec_digits 10 n [].
(** [%d] of any [int]. *)
Definition format_int (n : Z) : str := if n <? 0 then "-"%char :: format_d (- n) else format_d n.
(** [%02x] of a byte. *)
Definition format_02x (b : Z) : str := [hex_digit (b / 16); hex_digit (b mod 16)].

(** ** sscanf *)

Definition digit_value (base : Z) c : option Z :=
  let n := Z.of_nat (nat_of_ascii c) in
  let v := if (48 <=? n) && (n <=? 57) then n - 48
           else if (97 <=? n) && (n <=? 102) then n - 87
           else if (65 <=? n) && (n <=? 70) then n - 55 else base in
  if v <? base then Some v else None.

(** The longest run of digits: what they say, starting from [acc], and the rest. *)
Fixpoint scan_digits (base acc : Z) s : Z * str :=
  match s with
  | [] => (acc, [])
  | c :: s' => match digit_value base c with
               | Some v => scan_digits base (base * acc + v) s'
               | None => (acc, s)
               end
  end.

Definition sign s : bool * str :=
  match s with
  | c :: s' => if bool_decide (c = "-"%char) then (true, s')
               else if bool_decide (c = "+"%char) then (false, s') else (false, s)
  | [] => (false, [])
  end.

(** [strtoul], then the conversion to [unsigned int]. *)
Definition to_unsigned (negative : bool) (v : Z) : Z :=
  u32 (if UINT64_MAX <? v then UINT64_MAX else if negative then u64 (- v) else v).

(** A number in [base] at the front of [s]: it needs a digit. *)
Definition scan_number (base : Z) s : option (Z * str) :=
  let '(negative, t) := sign s in
  match t with
  | c :: _ => match digit_value base c with
              | Some _ => let '(v, rest) := scan_digits base 0 t in Some (to_unsigned negative v, rest)
              | None => None
              end
  | [] => None
  end.

(** [%u] and [%02x]: the second reads at most two characters after the space.
    (With two characters a prefix 0x leaves no digit.) *)
Definition scan_u s : option (Z * str) := scan_number 10 (drop_space s).
Definition starts_0x c1 c2 : bool :=
  bool_decide (c1 = "0"%char) && (bool_decide (c2 = "x"%char) || bool_decide (c2 = "X"%char)).
Definition scan_02x s : option (Z * str) :=
  let s := drop_space s in
  let field := take 2 s in
  match field with
  | c1 :: c2 :: _ =>
      if starts_0x c1 c2 then None
      else match scan_number 16 field with Some (v, rest) => Some (v, rest ++ drop 2 s) | None => None end
  | _ => match scan_number 16 field with Some (v, rest) => Some (v, rest ++ drop 2 s) | None => None end
  end.

(** [n] conversions with [sep] between them; it stops at the first that fails. *)
Fixpoint scan_fields (conv : str -> option (Z * str)) sep (n : nat) s : list Z :=
  match n with
  | O => []
  | S n' =>
      match conv s with
      | None => []
      | Some (v, rest) =>
          v :: match rest with
               | c :: rest' => if bool_decide (c = sep) then scan_fields conv sep n' rest' else []
               | [] => []
               end
      end
  end.

(** ** IpAddress *)

(** [IpAddress::toString]. *)
Definition ip_toString (ip : Z) : str :=
  format_d (Z.land (Z.shiftr ip 24) 255) ++ chars "." ++ format_d (Z.land (Z.shiftr ip 16) 255) ++ chars "." ++
  format_d (Z.land (Z.shiftr ip 8) 255) ++ chars "." ++ format_d (Z.land ip 255).

(** [IpAddress::fromString]; [garbage] is what the four variables hold before
    sscanf, whose result is not looked at. *)
Definition ip_fromString (addressStr : str) (garbage : list Z) : Z :=
  let read := scan_fields scan_u "."%char 4 addressStr in
  match read ++ drop (length read) garbage with
  | [b0; b1; b2; b3] =>
      Z.lor (Z.lor (Z.lor (u32 (Z.shiftl b0 24)) (u32 (Z.shiftl b1 16))) (u32 (Z.shiftl b2 8))) b3
  | _ => 0
  end.

(** ** MacAddress *)

Record MacAddress := mkMacAddress { address : list Z }.
#[global] Instance MacAddress_eq_dec : EqDecision MacAddress.
Proof. solve_decision. Defined.

Definition of_raw (raw : list Z) : MacAddress := mkMacAddress (take 6 raw).

(** The character of a C string at [i]: its terminator is the last that may be read. *)
Definition char_at s (i : nat) : Result ascii :=
  match s !! i with
  | Some c => Ok c
  | None => if (i =? length s)%nat then Ok zero else Error BadPointer
  end.

Definition downCast_bytes (vs : list Z) : M unit (list Z) :=
  mapM (fun v => Util.downCast u8 u32 v) vs.

(** [MacAddress(macStr)]; [None] when it throws BadAddress. *)
Definition of_string (macStr : str) : Result (option MacAddress) :=
  let bytes := scan_fields scan_02x ":"%char 6 macStr in
  if negb (length bytes =? 6)%nat then Ok None
  else
    c ← char_at macStr 17;
    if negb (bool_decide (c = zero)) then Ok None
    else match downCast_bytes bytes tt with
         | Ok (bs, _) => Ok (Some (mkMacAddress bs))
         | Error e => Error e
         end.

Definition toString (a : MacAddress) : str := join (format_02x <$> address a) (chars ":").
Definition isNull (a : MacAddress) : bool := forallb (fun b => b =? 0) (address a).

(** [operator==] compares the first four bytes and the last two as integers. *)
Definition le_value (bs : list Z) : Z := foldr (fun b n => b + 256 * n) 0 bs.
Definition equal (a b : MacAddress) : bool :=
  (le_value (take 4 (address a)) =? le_value (take 4 (address b))) &&
  (le_value (take 2 (drop 4 (address a))) =? le_value (take 2 (drop 4 (address b)))).

(** ** Reading back what was printed *)

(** A number at the front is not affected by what follows it, unless that
    starts with a digit. *)
Definition ends_number (base : Z) t : Prop := match t with c :: _ => digit_value base c = None | [] => True end.

Lemma scan_digits_app base acc s v t :
  scan_digits base acc s = (v, []) -> ends_number base t -> scan_digits base acc (s ++ t) = (v, t).
Proof.
  revert acc. induction s as [|c s IH]; intros acc Hs Ht; cbn [scan_digits app] in *.
  - injection Hs as <-. destruct t as [|c t]; [done|]. cbn in Ht |- *. by rewrite Ht.
  - destruct (digit_value base c); [by apply IH|discriminate].
Qed.

Definition plain c : Prop := isspace c = false /\ c <> "-"%char /\ c <> "+"%char.
#[global] Instance plain_dec c : Decision (plain c).
Proof. apply _. Defined.

Lemma sign_plain c s : plain c -> sign (c :: s) = (false, c :: s).
Proof. intros (_ & H1 & H2). cbn. by rewrite !bool_decide_false. Qed.

Lemma scan_number_app base c s v t :
  plain c -> is_Some (digit_value base c) -> scan_digits base 0 (c :: s) = (v, []) -> 0 <= v < 2 ^ 32 ->
  ends_number base t -> scan_number base ((c :: s) ++ t) = Some (v, t).
Proof.
  intros Hp [d Hd] Hs Hv Ht. unfold scan_number. cbn [app]. rewrite sign_plain by done. rewrite Hd.
  change (c :: s ++ t) with ((c :: s) ++ t). rewrite (scan_digits_app _ _ _ v) by done.
  unfold to_unsigned. rewrite (proj2 (Z.ltb_ge _ _)) by (unfold UINT64_MAX; lia). by rewrite u32_small.
Qed.

(** [s] is read as [v] by [conv], whatever other field follows. *)
Definition reads (conv : str -> option (Z * str)) sep s (v : Z) : Prop :=
  forall t, match t with c :: _ => c = sep | [] => True end -> conv (s ++ t) = Some (v, t).

Lemma scan_fields_join conv sep (vs : list Z) (texts : list str) :
  Forall2 (reads conv sep) texts vs -> scan_fields conv sep (length vs) (join texts [sep]) = vs.
Proof.
  induction 1 as [|s v texts vs Hr Hall IH]; [done|]. cbn [join length scan_fields].
  destruct texts as [|s2 texts].
  - inversion Hall; subst. cbn [join app]. by rewrite Hr.
  - rewrite Hr by done. cbn [app]. rewrite bool_decide_true by done. by rewrite IH.
Qed.

(** A property of all bytes, by evaluation. *)
Lemma every_byte (P : Z -> bool) b : forallb P (seqZ 0 256) = true -> 0 <= b < 256 -> P b = true.
Proof. rewrite forallb_forall. intros HP Hb. apply HP, list_elem_of_In, elem_of_seqZ. lia. Qed.

Definition readable (base : Z) (text : Z -> str) (b : Z) : bool :=
  match text b with
  | c :: s => bool_decide (plain c) && bool_decide (is_Some (digit_value base c)) &&
              bool_decide (scan_digits base 0 (c :: s) = (b, []))
  | [] => false
  end.
Lemma readable_inv base text b : readable base text b = true ->
  exists c s, text b = c :: s /\ plain c /\ is_Some (digit_value base c) /\ scan_digits base 0 (c :: s) = (b, []).
Proof.
  unfold readable. destruct (text b) as [|c s]; [done|]. rewrite !andb_true_iff, !bool_decide_eq_true. naive_solver.
Qed.

Lemma drop_space_plain c s : plain c -> drop_space (c :: s) = c :: s.
Proof. intros [Hc _]. cbn. by rewrite Hc. Qed.

Lemma reads_format_d b : 0 <= b < 256 -> reads scan_u "."%char (format_d b) b.
Proof.
  intros Hb t Ht. destruct (readable_inv 10 format_d b) as (c & s & -> & Hp & Hd & Hs); [by apply every_byte; [vm_compute|]|].
  unfold scan_u. rewrite <- app_comm_cons, drop_space_plain by done. rewrite app_comm_cons.
  apply scan_number_app; [done..|lia|]. destruct t; [done|]. by subst.
Qed.

Lemma reads_format_02x b : 0 <= b < 256 -> reads scan_02x ":"%char (format_02x b) b.
Proof.
  intros Hb t Ht. destruct (readable_inv 16 format_02x b) as (c & s & E & Hp & Hd & Hs); [by apply every_byte; [vm_compute|]|].
  assert (starts_0x (hex_digit (b / 16)) (hex_digit (b mod 16)) = false) as H0x.
  { apply negb_true_iff. by apply (every_byte (fun b => negb (starts_0x (hex_digit (b / 16)) (hex_digit (b mod 16)))) b). }
  unfold format_02x in *. injection E as Ec Es. unfold scan_02x. cbn [app]. rewrite drop_space_plain by (by rewrite Ec).
  cbn [take drop]. change (take 0 t) with (@nil ascii). rewrite H0x. rewrite Ec, Es, <- (app_nil_r (c :: s)).
  rewrite (scan_number_app 16 c s b []); [done|done|done|done|lia|done].
Qed.

(** ** Properties *)

Lemma ip_toString_join ip :
  ip_toString ip = join (format_d <$> [Z.land (Z.shiftr ip 24) 255; Z.land (Z.shiftr ip 16) 255;
                                       Z.land (Z.shiftr ip 8) 255; Z.land ip 255]) (chars ".").
Proof. unfold ip_toString. cbn [fmap list_fmap join]. by rewrite !app_nil_r. Qed.

Lemma land_255_range n : 0 <= Z.land n 255 < 256.
Proof. change 255 with (Z.ones 8). rewrite Z.land_ones by lia. by apply Z.mod_pos_bound. Qed.

(** A byte of [ip], moved back to its place. *)
Lemma byte_testbit ip i n : 0 <= i <= 24 -> 0 <= n ->
  Z.testbit (u32 (Z.shiftl (Z.land (Z.shiftr ip i) 255) i)) n = (i <=? n) && (n <? i + 8) && Z.testbit ip n.
Proof.
  intros Hi Hn. unfold u32. change 255 with (Z.ones 8). rewrite <- Z.land_ones by lia.
  rewrite Z.land_spec, Z.shiftl_spec, Z.testbit_ones by lia.
  destruct (Z.leb_spec i n).
  - rewrite Z.land_spec, Z.shiftr_spec, Z.testbit_ones by lia. replace (n - i + i) with n by lia.
    destruct (Z.ltb_spec n (i + 8)); destruct (Z.testbit ip n); lia.
  - by rewrite Z.testbit_neg_r by lia.
Qed.

Lemma ip_bytes ip : 0 <= ip < 2 ^ 32 ->
  Z.lor (Z.lor (Z.lor (u32 (Z.shiftl (Z.land (Z.shiftr ip 24) 255) 24)) (u32 (Z.shiftl (Z.land (Z.shiftr ip 16) 255) 16)))
    (u32 (Z.shiftl (Z.land (Z.shiftr ip 8) 255) 8))) (Z.land ip 255) = ip.
Proof.
  intros Hip. apply Z.bits_inj'. intros n Hn. rewrite !Z.lor_spec, !byte_testbit by lia.
  change 255 with (Z.ones 8). rewrite Z.land_spec, Z.testbit_ones by lia.
  destruct (Z.testbit ip n) eqn:Hb; [|by rewrite !andb_false_r].
  assert (n < 32) by (apply Z.nle_gt; intros Hge; rewrite <- (Z.mod_small ip (2 ^ 32)), Z.mod_pow2_bits_high in Hb by lia; done).
  lia.
Qed.

Lemma ip_reads_back ip b0 b1 b2 b3 : 0 <= ip < 2 ^ 32 -> ip_fromString (ip_toString ip) [b0; b1; b2; b3] = ip.
Proof.
  intros Hip. unfold ip_fromString. rewrite ip_toString_join.
  rewrite (scan_fields_join scan_u "."%char [Z.land (Z.shiftr ip 24) 255; Z.land (Z.shiftr ip 16) 255;
                                       Z.land (Z.shiftr ip 8) 255; Z.land ip 255]); [by apply ip_bytes|].
  repeat constructor; apply reads_format_d, land_255_range.
Qed.

(** The text of an address is read back as the address.  When nothing can be
    read, the result is what the variables held. *)
Theorem ip_roundtrip ip b0 b1 b2 b3 :
  0 <= ip < 2 ^ 32 ->
  ip_fromString (ip_toString ip) [b0; b1; b2; b3] = ip /\
  ip_fromString [] [b0; b1; b2; b3] = Z.lor (Z.lor (Z.lor (u32 (Z.shiftl b0 24)) (u32 (Z.shiftl b1 16))) (u32 (Z.shiftl b2 8))) b3.
Proof.
  intros Hip. split; [by apply ip_reads_back|done].
Qed.

Definition mac_ok (a : MacAddress) : Prop := length (address a) = 6%nat /\ Forall (fun b => 0 <= b < 256) (address a).

Lemma length_toString a : mac_ok a -> length (toString a) = 17%nat.
Proof. intros [Hl _]. destruct a as [bs]. cbn in Hl. by destruct bs as [|? [|? [|? [|? [|? [|? []]]]]]]. Qed.

Lemma downCast_bytes_id bs : Forall (fun b => 0 <= b < 256) bs -> downCast_bytes bs tt = Ok (bs, tt).
Proof.
  unfold downCast_bytes. induction 1 as [|b bs Hb _ IH]; [done|]. cbn [mapM]. unfold mbind, M_bind in *.
  assert (Util.downCast u8 u32 b tt = Ok (b, tt)) as ->; [|by rewrite IH].
  unfold Util.downCast, mbind, M_bind, check. by rewrite u8_small, Z.sub_diag by lia.
Qed.

Lemma mac_reads_back a : mac_ok a -> of_string (toString a) = Ok (Some a).
Proof.
  intros Ha. pose proof Ha as [Hl Hb]. assert (scan_fields scan_02x ":"%char 6 (toString a) = address a) as Hscan.
  { unfold toString. rewrite <- Hl at 1. apply scan_fields_join.
    apply Forall2_fmap_l, Forall_Forall2_diag. eapply Forall_impl; [done|]. apply reads_format_02x. }
  unfold of_string. rewrite Hscan, Hl. cbn [negb Nat.eqb]. unfold char_at.
  rewrite (lookup_ge_None_2 (toString a)), (length_toString a Ha) by (rewrite (length_toString a Ha); lia).
  cbn -[downCast_bytes]. rewrite (downCast_bytes_id _ Hb). by destruct a.
Qed.

(** The text of an address is read back as the address.  But the test that the
    text ends after 17 characters reads past its end when six short numbers fit
    in less. *)
Theorem mac_roundtrip a :
  mac_ok a ->
  of_string (toString a) = Ok (Some a) /\
  forall s, (length s < 17)%nat -> length (scan_fields scan_02x ":"%char 6 s) = 6%nat -> of_string s = Error BadPointer.
Proof.
  intros Ha. split; [by apply mac_reads_back|].
  intros s Hs H6. unfold of_string. rewrite H6. cbn [negb Nat.eqb]. unfold char_at.
    rewrite lookup_ge_None_2 by lia. by rewrite (proj2 (Nat.eqb_neq _ _)) by lia.
Qed.

(** [operator==] is equality, although it compares words. *)
Lemma le_value_inj bs cs : length bs = length cs -> Forall (fun b => 0 <= b < 256) bs -> Forall (fun b => 0 <= b < 256) cs ->
  le_value bs = le_value cs -> bs = cs.
Proof.
  revert cs. induction bs as [|b bs IH]; intros [|c cs] Hl Hb Hc He; [done..|]. unfold le_value in *. cbn in Hl, He.
  apply Forall_cons in Hb as [Hb1 Hb], Hc as [Hc1 Hc].
  assert (b = c) as -> by lia. f_equal. apply IH; [congruence|done|done|lia].
Qed.

Lemma equal_spec a b : mac_ok a -> mac_ok b -> equal a b = true <-> a = b.
Proof.
  intros [Ha Ha'] [Hb Hb']. unfold equal. rewrite andb_true_iff, !Z.eqb_eq. split; [|by intros ->].
  intros [H1 H2]. destruct a as [bs], b as [cs]. cbn in *. f_equal.
  rewrite <- (take_drop 4 bs), <- (take_drop 4 cs). f_equal.
  - apply le_value_inj; [by rewrite !length_take, Ha, Hb|by apply Forall_take..|done].
  - rewrite (take_ge (drop 4 bs)), (take_ge (drop 4 cs)) in H2 by (rewrite length_drop; lia).
    apply le_value_inj; [by rewrite !length_drop, Ha, Hb|by apply Forall_drop..|done].
Qed.

(** ** Witnesses *)

Lemma ip_roundtrip_witness :
  ip_fromString (ip_toString 3232235530) [0; 0; 0; 0] = 3232235530 /\
  ip_fromString [] [1; 2; 3; 4] = Z.lor (Z.lor (Z.lor (u32 (Z.shiftl 1 24)) (u32 (Z.shiftl 2 16))) (u32 (Z.shiftl 3 8))) 4.
Proof. split; [apply (ip_roundtrip 3232235530 0 0 0 0); lia|apply (ip_roundtrip 0 1 2 3 4); lia]. Defined.

Lemma mac_roundtrip_witness :
  of_string (chars "01:23:45:67:89:ab") = Ok (Some (mkMacAddress [1; 35; 69; 103; 137; 171])) /\
  of_string (chars "1:2:3:4:5:6") = Error BadPointer.
Proof.
  split.
  - apply (mac_roundtrip (mkMacAddress [1; 35; 69; 103; 137; 171])). split; [reflexivity|repeat constructor; lia].
  - apply (mac_roundtrip (mkMacAddress [0; 0; 0; 0; 0; 0])); [split; [reflexivity|repeat constructor; lia]|simpl; lia|vm_compute; reflexivity].
Defined.
End Address.
