(* ===== verification/HexDump.v ===== *)
(** * HexDump: hexDump of src/src/Util.cc

    A hex dump of memory, sixteen bytes to a line, and its reading back. *)

From S2P Require Import Prelude StringUtil Address.
From Stdlib Require Import Ascii.
Import StringUtil Address.

Module HexDump.
Implicit Types (bs : list Z) (s : str) (i : Z).

(** [%016lx]. *)
Fixpoint hex_padded (width : nat) (n : Z) (acc : str) : str :=
  match width with
  | O => acc
  | S width' => hex_padded width' (n / 16) (hex_digit (n mod 16) :: acc)
  end.
Definition format_016x (n : Z) : str := hex_padded 16 n [].

(** [isprint] in the C locale. *)
Definition isprint (b : Z) : bool := (32 <=? b) && (b <=? 126).

(** [hex[j]] and what becomes of [ascii], for the [chunk] of bytes of one line. *)
Definition hex_at (chunk : list Z) (j : nat) : str :=
  match chunk !! j with Some b => format_02x b | None => chars "  " end.
Definition ascii_of (chunk : list Z) : str :=
  (fun b => if isprint b then ascii_of_nat (Z.to_nat b) else "."%char) <$> chunk.

(** One round of the loop, at offset [i]. *)
Definition dump_line (i : Z) (chunk : list Z) : str :=
  format_016x i ++ chars "  " ++ join (hex_at chunk <$> seq 0 8) (chars " ") ++ chars "  " ++
  join (hex_at chunk <$> seq 8 8) (chars " ") ++ chars "  |" ++ ascii_of chunk ++ chars "|" ++ ["010"%char].

(** The loop over the bytes from [i] on; each round takes sixteen. *)
Fixpoint dump_loop (fuel : nat) (i : Z) bs : Result str :=
  match bs with
  | [] => Ok []
  | _ :: _ =>
      match fuel with
      | O => Error OutOfFuel
      | S fuel' => rest ← dump_loop fuel' (i + 16) (drop 16 bs); Ok (dump_line i (take 16 bs) ++ rest)
      end
  end.
Definition hexDump bs : Result str := dump_loop (length bs) 0 bs.

(** ** Reading a dump *)

(** The column of byte [j] in a line. *)
Definition column (j : nat) : nat := (18 + 3 * j + if (j <? 8)%nat then 0 else 1)%nat.
Definition read_byte s (j : nat) : option Z :=
  match s !! column j, s !! S (column j) with
  | Some c1, Some c2 =>
      match digit_value 16 c1, digit_value 16 c2 with Some d1, Some d2 => Some (16 * d1 + d2) | _, _ => None end
  | _, _ => None
  end.
Definition read_line s : list Z := omap (read_byte s) (seq 0 16).
Definition read_dump s : list Z := split s "010"%char ≫= read_line.

(** ** The dump can be read back *)

Lemma hex_digit_value n : 0 <= n < 16 -> digit_value 16 (hex_digit n) = Some n.
Proof.
  intros Hn. assert (forallb (fun n => bool_decide (digit_value 16 (hex_digit n) = Some n)) (seqZ 0 16) = true) as H by done.
  rewrite forallb_forall in H. specialize (H n ltac:(apply list_elem_of_In, elem_of_seqZ; lia)). by apply bool_decide_eq_true in H.
Qed.

(** Not a control character, so not the end of a line. *)
Definition visible c : Prop := (32 <= nat_of_ascii c)%nat.

Lemma hex_digit_visible n : 0 <= n < 16 -> visible (hex_digit n).
Proof.
  intros Hn. assert (forallb (fun n => (32 <=? nat_of_ascii (hex_digit n))%nat) (seqZ 0 16) = true) as H by done.
  rewrite forallb_forall in H. apply Nat.leb_le, H, list_elem_of_In, elem_of_seqZ. lia.
Qed.

Lemma hex_padded_visible w n acc : Forall visible acc -> Forall visible (hex_padded w n acc).
Proof.
  revert n acc. induction w as [|w IH]; intros n acc Ha; [done|]. apply IH. constructor; [|done].
  apply hex_digit_visible. by apply Z.mod_pos_bound.
Qed.
Lemma length_hex_padded w n acc : length (hex_padded w n acc) = (w + length acc)%nat.
Proof. revert n acc. induction w as [|w IH]; intros n acc; [done|]. cbn. rewrite IH. cbn. lia. Qed.

Definition byte (b : Z) : Prop := 0 <= b < 256.

Lemma hex_at_visible chunk j : Forall byte chunk -> Forall visible (hex_at chunk j).
Proof.
  intros Hc. unfold hex_at. destruct (chunk !! j) as [b|] eqn:Hb.
  - pose proof (Forall_lookup_1 _ _ _ _ Hc Hb) as [? ?]. cbn. repeat constructor; apply hex_digit_visible.
    + split; [apply Z.div_pos; lia|apply Z.div_lt_upper_bound; lia].
    + by apply Z.mod_pos_bound.
  - repeat constructor; by apply Nat.leb_le.
Qed.

Lemma join_visible (l : list str) glue : Forall (Forall visible) l -> Forall visible glue -> Forall visible (join l glue).
Proof. intros Hl Hg. induction Hl as [|x l Hx _ IH]; [done|]. cbn. rewrite !Forall_app. destruct l; [naive_solver|done]. Qed.

Lemma ascii_of_visible chunk : Forall byte chunk -> Forall visible (ascii_of chunk).
Proof.
  intros Hc. apply Forall_fmap. eapply Forall_impl; [done|]. intros b Hb. cbn. unfold isprint.
  destruct (Z.leb_spec 32 b), (Z.leb_spec b 126); cbn [andb]; unfold visible;
    try (rewrite nat_ascii_embedding; unfold byte in Hb; lia); by apply Nat.leb_le.
Qed.

(** A line without its end. *)
Definition line_body (i : Z) (chunk : list Z) : str :=
  format_016x i ++ chars "  " ++ join (hex_at chunk <$> seq 0 8) (chars " ") ++ chars "  " ++
  join (hex_at chunk <$> seq 8 8) (chars " ") ++ chars "  |" ++ ascii_of chunk ++ chars "|".

Lemma dump_line_body i chunk : dump_line i chunk = line_body i chunk ++ ["010"%char].
Proof. unfold dump_line, line_body. by rewrite <- !app_assoc. Qed.

Lemma line_body_visible i chunk : Forall byte chunk -> Forall visible (line_body i chunk).
Proof.
  intros Hc. assert (forall n k, Forall (Forall visible) (hex_at chunk <$> seq n k)) as Hhex.
  { intros n k. apply Forall_fmap, Forall_forall. intros j _. by apply hex_at_visible. }
  assert (Forall visible (chars " ")) by (repeat constructor).
  unfold line_body. rewrite !Forall_app. split_and!;
    [by apply hex_padded_visible|repeat constructor; by apply Nat.leb_le|by apply join_visible|
     repeat constructor; by apply Nat.leb_le|by apply join_visible|repeat constructor; by apply Nat.leb_le
     |by apply ascii_of_visible|repeat constructor; by apply Nat.leb_le].
Qed.

(** The fields of a line are where [column] looks for them. *)
Lemma read_byte_body i chunk j :
  (j < 16)%nat -> Forall byte chunk -> read_byte (line_body i chunk) j = chunk !! j.
Proof.
  intros Hj Hc. unfold read_byte.
  assert (exists c1 c2, hex_at chunk j = [c1; c2] /\ line_body i chunk !! column j = Some c1 /\
    line_body i chunk !! S (column j) = Some c2) as (c1 & c2 & E & -> & ->).
  { assert (forall k, exists c1 c2, hex_at chunk k = [c1; c2]) as H2.
    { intros k. unfold hex_at. destruct (chunk !! k); cbn; eauto. }
    destruct (H2 j) as (c1 & c2 & E). exists c1, c2. split; [done|]. unfold line_body.
    assert (length (format_016x i) = 16%nat) as Hl by apply length_hex_padded.
    destruct (format_016x i) as [|? [|? [|? [|? [|? [|? [|? [|? [|? [|? [|? [|? [|? [|? [|? [|? []]]]]]]]]]]]]]]]]; try discriminate Hl.
    destruct (H2 0%nat) as (? & ? & E0), (H2 1%nat) as (? & ? & E1), (H2 2%nat) as (? & ? & E2), (H2 3%nat) as (? & ? & E3),
      (H2 4%nat) as (? & ? & E4), (H2 5%nat) as (? & ? & E5), (H2 6%nat) as (? & ? & E6), (H2 7%nat) as (? & ? & E7),
      (H2 8%nat) as (? & ? & E8), (H2 9%nat) as (? & ? & E9), (H2 10%nat) as (? & ? & E10), (H2 11%nat) as (? & ? & E11),
      (H2 12%nat) as (? & ? & E12), (H2 13%nat) as (? & ? & E13), (H2 14%nat) as (? & ? & E14), (H2 15%nat) as (? & ? & E15).
    cbn [seq fmap list_fmap]. rewrite E0, E1, E2, E3, E4, E5, E6, E7, E8, E9, E10, E11, E12, E13, E14, E15.
    do 16 (destruct j as [|j]; [split; cbn; congruence|]). lia. }
  unfold hex_at in E. destruct (chunk !! j) as [b|] eqn:Hb.
  - pose proof (Forall_lookup_1 _ _ _ _ Hc Hb) as [? ?]. injection E as <- <-. rewrite !hex_digit_value.
    + f_equal. pose proof (Z.div_mod b 16). lia.
    + by apply Z.mod_pos_bound.
    + split; [apply Z.div_pos; lia|apply Z.div_lt_upper_bound; lia].
  - by injection E as <- <-.
Qed.

Lemma omap_lookup_seq (pre l : list Z) n :
  (length l <= n)%nat -> omap (fun j => (pre ++ l) !! j) (seq (length pre) n) = l.
Proof.
  revert pre n. induction l as [|x l IH]; intros pre n Hn; cbn in Hn.
  - clear Hn. rewrite app_nil_r. assert (length pre <= length pre)%nat as Hk by lia. revert Hk. generalize (length pre) at 2 3 as k.
    induction n as [|n IHn]; intros k Hk; [done|]. cbn. rewrite lookup_ge_None_2 by done. apply IHn. lia.
  - destruct n as [|n]; [lia|]. cbn. rewrite list_lookup_middle by done. f_equal.
    specialize (IH (pre ++ [x]) n ltac:(lia)). rewrite <- app_assoc, length_app, Nat.add_1_r in IH. exact IH.
Qed.

Lemma read_line_body i chunk : (length chunk <= 16)%nat -> Forall byte chunk -> read_line (line_body i chunk) = chunk.
Proof.
  intros Hl Hc. unfold read_line. rewrite <- (omap_lookup_seq [] chunk 16) at 2 by done.
  apply list_omap_ext, Forall_Forall2_diag, Forall_forall. intros j Hj%elem_of_seq. apply read_byte_body; [cbn in Hj; lia|done].
Qed.

Lemma getlines_line d s item t : d ∉ s -> getlines d (s ++ d :: t) item = (item ++ s) :: getlines d t [].
Proof.
  revert item. induction s as [|c s IH]; intros item Hd; cbn.
  - by rewrite bool_decide_true, app_nil_r by done.
  - apply not_elem_of_cons in Hd as [Hc Hd]. rewrite bool_decide_false by done. rewrite IH by done. by rewrite <- app_assoc.
Qed.

Lemma dump_loop_spec fuel i bs :
  (length bs <= fuel)%nat -> Forall byte bs -> exists s, dump_loop fuel i bs = Ok s /\ read_dump s = bs.
Proof.
  revert i bs. induction fuel as [|fuel IH]; intros i bs Hf Hb; [by destruct bs; [exists []|cbn in Hf; lia]|].
  destruct bs as [|b bs]; [by exists []|]. cbn [dump_loop].
  destruct (IH (i + 16) (drop 16 (b :: bs))) as (s & Hs & Hr); [rewrite length_drop; cbn in *; lia|by apply Forall_drop|].
  rewrite Hs. eexists. split; [done|]. assert (Forall byte (take 16 (b :: bs))) as Ht by by apply Forall_take.
  unfold read_dump, split in *. rewrite dump_line_body, <- app_assoc. cbn [app]. rewrite getlines_line.
  - rewrite bind_cons, Hr. cbn [app]. rewrite read_line_body; [apply take_drop|rewrite length_take; lia|done].
  - intros Hin. pose proof (line_body_visible i _ Ht) as Hv. rewrite Forall_forall in Hv. specialize (Hv _ Hin). apply Nat.leb_le in Hv. discriminate Hv.
Qed.

(** ** Properties *)

(** The dump of any memory ends, and tells its bytes. *)
Theorem hexDump_roundtrip bs : Forall byte bs -> exists s, hexDump bs = Ok s /\ read_dump s = bs.
Proof. intros Hb. by apply dump_loop_spec. Qed.

Lemma hexDump_roundtrip_witness : exists s, hexDump [72; 111; 109; 97; 0; 255] = Ok s /\ read_dump s = [72; 111; 109; 97; 0; 255].
Proof. apply hexDump_roundtrip. repeat constructor; lia. Defined.
End HexDump.
