(* ===== verification/CodeLocation.v ===== *)
(** * CodeLocation: src/src/CodeLocation.cc, src/include/Homa/Exception.h

    Where a line of code is, as text, and the exceptions that carry such a text.
    The regular expression of [qualifiedFunction] is written out as the search
    that it stands for, for functions whose name is an identifier. *)

From S2P Require Import Prelude StringUtil Address.
From Stdlib Require Import Ascii.
From Stdlib Require String.
Import StringUtil.

Module CodeLocation.
#[local] Open Scope string_scope.
#[local] Open Scope list_scope.
#[local] Open Scope Z_scope.

Record CodeLocation := mkCodeLocation { file : str; line : Z; function : str; prettyFunction : str }.
#[global] Instance eta_CodeLocation : Eta CodeLocation := fun r => mkCodeLocation (file r) (line r) (function r) (prettyFunction r).

Implicit Types (loc : CodeLocation) (s fn u scope args ret pretty : str) (c before : ascii).

(** [baseFileName()]: behind the last slash. *)
Fixpoint strrchr s c : option str :=
  match s with
  | [] => None
  | x :: s' => match strrchr s' c with Some r => Some r | None => if bool_decide (x = c) then Some s else None end
  end.
Definition baseFileName loc : str :=
  match strrchr (file loc) "/"%char with None => file loc | Some lastSlash => drop 1 lastSlash end.

Section file.
(** [__FILE__] of CodeLocation.cc. *)
Variable FILE : str.

Definition length__FILE__Prefix : Result Z :=
  match find_from (chars "src/CodeLocation.cc") FILE 0 with
  | Some i => let n := i32 (Z.of_nat i) in if Z.of_nat i - n =? 0 then Ok n else Error AssertFailed (* [downCast<int>] *)
  | None => Error AssertFailed
  end.
(** The prefix is that of every file that is compiled from the same directory;
    [strncmp] of a file that is shorter than the prefix is not 0. *)
Definition relativeFile loc : Result str :=
  n ← length__FILE__Prefix;
  mret (if startsWith (file loc) (take (Z.to_nat n) FILE) then drop (Z.to_nat n) (file loc) else file loc).

(** ** qualifiedFunction *)

(** [\b] between [before] and the rest [s]. *)
Definition is_word c : bool :=
  let n := nat_of_ascii c in
  ((48 <=? n)%nat && (n <=? 57)%nat) || ((65 <=? n)%nat && (n <=? 90)%nat) || ((97 <=? n)%nat && (n <=? 122)%nat) || (n =? 95)%nat.
Definition boundary before s : bool := xorb (is_word before) (match s with c :: _ => is_word c | [] => false end).

(** The longest match of [(\S*\bfn)\(] at [s]. *)
Fixpoint capture fn before s : option str :=
  let here := if boundary before s && startsWith s (fn ++ chars "(") then Some fn else None in
  match s with
  | [] => here
  | c :: s' => if isspace c then here else match capture fn c s' with Some r => Some (c :: r) | None => here end
  end.
(** [regex_search] of [\s(\S*\bfn)\(]: the first white space that starts a match. *)
Fixpoint regex_search fn s : option str :=
  match s with
  | [] => None
  | c :: s' =>
      match (if isspace c then capture fn c s' else None) with Some r => Some r | None => regex_search fn s' end
  end.
Definition qualifiedFunction loc : str := default (function loc) (regex_search (function loc) (prettyFunction loc)).

Definition to_str loc : Result str :=
  f ← relativeFile loc;
  mret (qualifiedFunction loc ++ chars " at " ++ f ++ chars ":" ++ Address.format_int (i32 (line loc))).
End file.

(** ** The search finds the qualified name *)

(** The name of a function that is not an operator. *)
Definition identifier fn : Prop := fn <> [] /\ Forall (fun c => is_word c = true) fn.

Lemma word_char fn c : identifier fn -> is_word c = false -> c ∉ fn.
Proof. intros [_ Hf] Hc Hin. rewrite Forall_forall in Hf. specialize (Hf c Hin). congruence. Qed.
Lemma space_not_word c : isspace c = true -> is_word c = false.
Proof. destruct c as [[] [] [] [] [] [] [] []]; vm_compute; congruence. Qed.

Lemma no_match fn u c s :
  ("("%char ∉ u) -> c ∉ fn -> (c = "("%char -> (List.length u < List.length fn)%nat) ->
  startsWith (u ++ c :: s) (fn ++ chars "(") = false.
Proof.
  intros Hu Hc Hl. apply not_true_is_false. intros [r Hr]%startsWith_spec. rewrite <- app_assoc in Hr.
  change (chars "(" ++ r) with ("("%char :: r) in Hr.
  assert (forall i, (u ++ c :: s) !! i = (fn ++ "("%char :: r) !! i) as He by (intros i; by rewrite Hr).
  destruct (decide (List.length u < List.length fn)%nat) as [Hlt|Hge].
  - specialize (He (List.length u)). rewrite list_lookup_middle, lookup_app_l in He by done. symmetry in He.
    apply list_elem_of_lookup_2 in He. by apply Hc.
  - destruct (decide (List.length u = List.length fn)) as [E|Hne].
    + specialize (He (List.length u)). rewrite list_lookup_middle in He by done.
      rewrite list_lookup_middle in He by done. injection He as ->. specialize (Hl eq_refl). lia.
    + specialize (He (List.length fn)). rewrite (list_lookup_middle fn), lookup_app_l in He by (done || lia).
      apply list_elem_of_lookup_2 in He. by apply Hu.
Qed.

(** No match starts in [u] or at [c] when the text behind has none. *)
Lemma capture_none fn before u c s :
  identifier fn -> "("%char ∉ u -> c ∉ fn ->
  (c = "("%char -> (List.length u < List.length fn)%nat) ->
  isspace c = true \/ (forall b, capture fn b s = None) -> capture fn before (u ++ c :: s) = None.
Proof.
  intros Hid. revert before. induction u as [|x u IH]; intros before Hu Hc Hl Hs.
  - cbn [app capture]. pose proof (no_match fn [] c s Hu Hc Hl) as Hno. cbn [app] in Hno. rewrite Hno, andb_false_r.
    destruct (isspace c); [done|]. destruct Hs as [[=]|Hs]. by rewrite Hs.
  - apply not_elem_of_cons in Hu as [Hx Hu]. cbn [app capture]. change (x :: u ++ c :: s) with ((x :: u) ++ c :: s).
    rewrite (no_match fn (x :: u) c s), andb_false_r; [|by apply not_elem_of_cons|done|done].
    destruct (isspace x); [done|]. rewrite IH; [done..| |done]. intros E. specialize (Hl E). simpl in Hl. lia.
Qed.

Lemma capture_no_paren fn before s : "("%char ∉ s -> capture fn before s = None.
Proof.
  revert before. induction s as [|c s IH]; intros before Hs.
  - cbn [capture]. assert (startsWith [] (fn ++ chars "(") = false) as ->; [|by rewrite andb_false_r].
    apply not_true_is_false. intros [r Hr]%startsWith_spec. by destruct fn.
  - cbn [capture]. assert (startsWith (c :: s) (fn ++ chars "(") = false) as ->.
    { apply not_true_is_false. intros [r Hr]%startsWith_spec. apply Hs. rewrite Hr. set_solver. }
    rewrite andb_false_r. destruct (isspace c); [done|]. rewrite IH; [done|]. by apply not_elem_of_cons in Hs as [_ ?].
Qed.

(** What stands in front of the name and belongs to it. *)
Definition scope_ok scope : Prop :=
  Forall (fun c => isspace c = false) scope /\ ("("%char ∉ scope) /\ forall c, last scope = Some c -> is_word c = false.

Lemma capture_scope fn before scope args :
  identifier fn -> scope_ok scope -> (scope = [] -> is_word before = false) -> "("%char ∉ args ->
  capture fn before (scope ++ fn ++ "("%char :: args) = Some (scope ++ fn).
Proof.
  intros Hid (Hs & Hp & Hl) Hb Ha. revert before Hb. induction scope as [|c scope IH]; intros before Hb.
  - specialize (Hb eq_refl). pose proof Hid as [Hne Hf]. destruct fn as [|f fn']; [done|].
    apply Forall_cons in Hf as [Hf Hf']. cbn [app capture].
    assert (boundary before (f :: fn' ++ "("%char :: args) = true) as -> by (unfold boundary; by rewrite Hb, Hf).
    assert (startsWith (f :: fn' ++ "("%char :: args) ((f :: fn') ++ chars "(") = true) as Hst.
    { apply startsWith_spec. exists args. by rewrite <- app_assoc. }
    assert (isspace f = false) as -> by (destruct (isspace f) eqn:E; [by rewrite (space_not_word f E) in Hf|done]).
    rewrite capture_none; [cbn [app] in Hst; by rewrite Hst|done| | |simpl; lia|right; intros b; by apply capture_no_paren].
    + intros Hin. rewrite Forall_forall in Hf'. by specialize (Hf' _ Hin).
    + by apply word_char.
  - apply Forall_cons in Hs as [Hc Hs]. apply not_elem_of_cons in Hp as [Hpc Hp]. cbn [app capture]. rewrite Hc.
    rewrite IH; [done|done|done| |].
    + intros d Hd. apply Hl. destruct scope; [done|]. by rewrite last_cons_cons.
    + intros ->. by apply Hl.
Qed.

Lemma regex_search_none fn s : (forall u c r, s = u ++ c :: r -> isspace c = true -> capture fn c r = None) -> regex_search fn s = None.
Proof.
  induction s as [|c s IH]; intros Hs; [done|]. cbn [regex_search].
  assert ((if isspace c then capture fn c s else None) = None) as -> by (destruct (isspace c) eqn:Hc; [by apply (Hs [] c s)|done]).
  apply IH. intros u d r ->. apply (Hs (c :: u)). done.
Qed.
Lemma regex_search_skip fn u s :
  (forall v c r, u = v ++ c :: r -> isspace c = true -> capture fn c (r ++ s) = None) -> regex_search fn (u ++ s) = regex_search fn s.
Proof.
  induction u as [|c u IH]; intros Hu; [done|]. cbn [app regex_search].
  assert ((if isspace c then capture fn c (u ++ s) else None) = None) as -> by (destruct (isspace c) eqn:Hc; [by apply (Hu [] c u)|done]).
  apply IH. intros v d r ->. apply (Hu (c :: v)). done.
Qed.

Lemma capture_shape fn before s r : capture fn before s = Some r ->
  exists scope, r = scope ++ fn /\ Forall (fun c => isspace c = false) scope.
Proof.
  revert before r. induction s as [|c s IH]; intros before r; cbn [capture].
  - destruct (_ && _); [intros [= <-]; by exists []|done].
  - destruct (isspace c) eqn:Hc; [destruct (_ && _); [intros [= <-]; by exists []|done]|].
    destruct (capture fn c s) as [r'|] eqn:E; [|destruct (_ && _); [intros [= <-]; by exists []|done]].
    intros [= <-]. destruct (IH c r' E) as (scope & -> & Hs). exists (c :: scope). split; [done|by constructor].
Qed.

(** [qualifiedFunction] is the name of the function, behind what qualifies it, and
    has no white space in front of it. *)
Theorem qualifiedFunction_suffix loc :
  exists scope, qualifiedFunction loc = scope ++ function loc /\ Forall (fun c => isspace c = false) scope.
Proof.
  unfold qualifiedFunction. generalize (prettyFunction loc). intros s. induction s as [|c s IH]; cbn [regex_search]; [by exists []|].
  destruct (isspace c); [|done]. destruct (capture (function loc) c s) as [r|] eqn:E; [|done]. by eapply capture_shape.
Qed.

(** For a function with a result type, whose parameters are not functions, it is the
    name with all that qualifies it. *)
Theorem qualifiedFunction_qualifies loc ret c scope args :
  identifier (function loc) -> scope_ok scope -> isspace c = true -> "("%char ∉ ret -> "("%char ∉ args ->
  prettyFunction loc = ret ++ c :: scope ++ function loc ++ "("%char :: args ->
  qualifiedFunction loc = scope ++ function loc.
Proof.
  intros Hid Hs Hc Hr Ha E. unfold qualifiedFunction. rewrite E, regex_search_skip.
  - cbn [regex_search]. rewrite Hc, capture_scope; [done|done|done|intros _; by apply space_not_word|done].
  - intros v d r -> Hd. apply capture_none; [done| | | |by left].
    + apply not_elem_of_app in Hr as [_ [_ ?]%not_elem_of_cons]. done.
    + by apply word_char, space_not_word.
    + intros ->. by vm_compute in Hc.
Qed.

(** A constructor or destructor, which has no result type, is not found: the result
    is its name alone. *)
Theorem qualifiedFunction_constructor loc scope args :
  identifier (function loc) -> Forall (fun c => isspace c = false) scope -> "("%char ∉ args ->
  prettyFunction loc = scope ++ function loc ++ "("%char :: args -> qualifiedFunction loc = function loc.
Proof.
  intros Hid Hs Ha E. unfold qualifiedFunction. rewrite E.
  rewrite regex_search_none; [done|]. intros u c r Hu Hc. apply capture_no_paren. intros Hin.
  assert (forall c, c ∈ scope ++ function loc ++ ["("%char] -> isspace c = false) as Hns.
  { intros d [Hd|[Hd|Hd%list_elem_of_singleton]%elem_of_app]%elem_of_app.
    - rewrite Forall_forall in Hs. by apply Hs.
    - destruct (isspace d) eqn:Ed; [|done]. exfalso. revert Hd. by apply word_char, space_not_word.
    - by subst. }
  replace (scope ++ function loc ++ "("%char :: args) with ((scope ++ function loc ++ ["("%char]) ++ args) in Hu
    by (by rewrite <- !app_assoc). set (front := scope ++ function loc ++ ["("%char]) in *.
  apply app_eq_app in Hu as [l [[-> Hu]|[-> Hu]]].
  - destruct l as [|d l]; [|injection Hu as <- _; rewrite Hns in Hc; [done|set_solver]].
    cbn [app] in Hu. subst. apply Ha. by right.
  - subst. apply Ha. set_solver.
Qed.

(** ** Witnesses *)

Definition a_method : CodeLocation := mkCodeLocation [] 0 (chars "poll") (chars "void Homa::Sender::poll()").
Lemma qualifiedFunction_qualifies_witness : qualifiedFunction a_method = chars "Homa::Sender::" ++ chars "poll".
Proof.
  apply (qualifiedFunction_qualifies a_method (chars "void") " "%char (chars "Homa::Sender::") (chars ")")); try reflexivity.
  - split; [done|]. apply (bool_decide_unpack _). vm_compute. exact I.
  - split; [|split].
    + apply (bool_decide_unpack _). vm_compute. exact I.
    + apply (bool_decide_unpack _). vm_compute. exact I.
    + intros c [= <-]. reflexivity.
  - apply (bool_decide_unpack _). vm_compute. exact I.
  - apply (bool_decide_unpack _). vm_compute. exact I.
Defined.

Definition a_constructor : CodeLocation := mkCodeLocation [] 0 (chars "Sender") (chars "Homa::Sender::Sender(int)").
Lemma qualifiedFunction_constructor_witness : qualifiedFunction a_constructor = chars "Sender".
Proof.
  apply (qualifiedFunction_constructor a_constructor (chars "Homa::Sender::") (chars "int)")); try reflexivity.
  - split; [done|]. apply (bool_decide_unpack _). vm_compute. exact I.
  - apply (bool_decide_unpack _). vm_compute. exact I.
  - apply (bool_decide_unpack _). vm_compute. exact I.
Defined.

(** ** Exceptions *)

Section exception.
(** [strerror], and the demangled name of the class of the exception. *)
Variable strerror : Z -> str.
Variable type_name : str.

Record Exception := mkException { message : str; errNo : Z; where_ : str; whatCache : option str }.
#[global] Instance eta_Exception : Eta Exception := fun r => mkException (message r) (errNo r) (where_ r) (whatCache r).

(** The four constructors: with a message or not, with an error number or not. *)
Definition Exception_new (where_ : str) (msg : option str) (errNo : option Z) : Exception :=
  match msg, errNo with
  | None, None => mkException [] 0 where_ None
  | Some msg, None => mkException msg 0 where_ None
  | None, Some n => mkException (strerror n) n where_ None
  | Some msg, Some n => mkException (msg ++ chars ": " ++ strerror n) n where_ None
  end.
(** The copy constructor does not copy the cache. *)
Definition Exception_copy (other : Exception) : Exception := mkException (message other) (errNo other) (where_ other) None.

Definition exception_str (e : Exception) : str := type_name ++ chars ": " ++ message e ++ chars ", thrown at " ++ where_ e.
Definition what : M Exception str :=
  e ← get;
  match whatCache e with
  | Some s => mret s
  | None => let s := exception_str e in _ ← modify (fun e => e <| whatCache := Some s |>); mret s
  end.

(** [what] gives the text of the exception when it was first asked, and the same text
    ever after, whatever becomes of the fields; a copy starts afresh. *)
Theorem what_is_cached e (msg : str) (n : Z) (place : str) :
  whatCache e = None ->
  exists e', what e = Ok (exception_str e, e') /\
    fst <$> match what (e' <| message := msg |> <| errNo := n |> <| where_ := place |>) with Ok r => Some r | Error _ => None end =
      Some (exception_str e) /\
    fst <$> match what (Exception_copy (e' <| message := msg |>)) with Ok r => Some r | Error _ => None end =
      Some (exception_str (e <| message := msg |>)).
Proof.
  intros Hc. unfold what, get, modify, mbind, M_bind, mret, M_ret. rewrite Hc. eexists. split; [done|]. done.
Qed.
End exception.

Lemma what_is_cached_witness :
  let e := Exception_new (fun _ => chars "No such file") (chars "f at src/a.cc:1") None (Some 2) in
  let text := chars "Homa::FatalError: No such file, thrown at f at src/a.cc:1" in
  exists e', what (chars "Homa::FatalError") e = Ok (text, e') /\
    fst <$> match what (chars "Homa::FatalError") (e' <| message := [] |> <| errNo := 0 |> <| where_ := [] |>) with Ok r => Some r | Error _ => None end =
      Some text /\
    fst <$> match what (chars "Homa::FatalError") (Exception_copy (e' <| message := [] |>)) with Ok r => Some r | Error _ => None end =
      Some (exception_str (chars "Homa::FatalError") (e <| message := [] |>)).
Proof. apply (what_is_cached (chars "Homa::FatalError")). reflexivity. Defined.
End CodeLocation.
