(* ===== verification/Dpdk.v ===== *)
(** * Dpdk: src/src/Drivers/DPDK/DpdkDriverImpl.h, DpdkDriverImpl.cc

    The driver for real NICs.  The DPDK library, the NIC and the memory of the
    packet buffers (mbufs) are the parameter [Dpdk]: an abstract state and the
    functions that the driver calls.  The transmit functions answer with the
    bursts they hand to the driver's callback.  The driver's own state is [Impl]:
    its tables and counters, the two object pools and, as [lib], the state of the
    library.  A call is atomic here; the spin locks that make it so are those of
    [SpinLock].  An overflow buffer is constructed without arguments, so its bytes
    start as zeros. *)

From S2P Require Import Prelude Util ObjectPool Protocol Driver Address QueueEstimator.
Import Driver(IpAddress) Protocol(le_bytes, read_le, bswap16).
Import Address(MacAddress, address).
Import QueueEstimator(QueueEstimator, QueueEstimator_new).

Module Dpdk.

Abbreviation mbuf := positive.

(** ** Constants *)

Definition NB_MBUF : Z := 16383.
Definition NB_MBUF_RESERVED : Z := 4096.
Definition VLAN_TAG_LEN : Z := 4.
Definition IP_HDR_LEN : Z := 4.
(** From DPDK's rte_ether.h. *)
Definition ETHER_HDR_LEN : Z := 14.
Definition ETHER_MTU : Z := 1500.
Definition ETHER_TYPE_VLAN : Z := 33024. (* 0x8100 *)
Definition HOMA : Z := 35001. (* 0x88b5 *)
Definition PACKET_HDR_LEN : Z := ETHER_HDR_LEN + VLAN_TAG_LEN + IP_HDR_LEN.
Definition MAX_PAYLOAD_SIZE : Z := ETHER_MTU.
Definition MBUF_ALLOC_LIMIT : Z := NB_MBUF - NB_MBUF_RESERVED.
Definition PRIORITY_TO_PCP : list Z :=
  [Z.shiftl 1 13; Z.shiftl 0 13; Z.shiftl 2 13; Z.shiftl 3 13;
   Z.shiftl 4 13; Z.shiftl 5 13; Z.shiftl 6 13; Z.shiftl 7 13].

(** ** The library *)

Class Dpdk := {
  rte : Type;
  rte_pktmbuf_alloc : rte -> option mbuf * rte;
  (** The offset in the packet at which the new bytes start. *)
  rte_pktmbuf_append : mbuf -> Z -> rte -> option Z * rte;
  rte_pktmbuf_free : mbuf -> rte -> rte;
  rte_pktmbuf_clone : mbuf -> rte -> option mbuf * rte;
  rte_pktmbuf_trim : mbuf -> Z -> rte -> bool * rte;
  rte_mbuf_refcnt_read : mbuf -> rte -> Z;
  rte_mbuf_refcnt_update : mbuf -> Z -> rte -> rte;
  rte_pktmbuf_pkt_len : mbuf -> rte -> Z;
  nb_segs : mbuf -> rte -> Z;
  (** Access through [rte_pktmbuf_mtod_offset]. *)
  rte_load : mbuf -> Z -> Z -> rte -> list Z;
  rte_store : mbuf -> Z -> list Z -> rte -> rte;
  rte_ring_count : rte -> Z;
  rte_ring_enqueue : mbuf -> rte -> bool * rte;
  rte_ring_dequeue : rte -> option mbuf * rte;
  rte_eth_rx_burst : Z -> rte -> list mbuf * rte;
  rte_eth_tx_buffer : mbuf -> rte -> list (list mbuf) * rte;
  rte_eth_tx_buffer_flush : rte -> list (list mbuf) * rte;
  (** The n-th reading of std::chrono::steady_clock. *)
  steady_clock_nth : nat -> Z
}.

(** ** The state *)

Inductive BufRef :=
  | MBUF (m : mbuf)
  | OVERFLOW_BUF (b : ptr).

(** [Impl::Packet]; the payload starts at [payload_off] in the buffer. *)
Record Packet := mkPacket { payload_off : Z; length : Z; bufRef : BufRef }.

(** The bytes of an OverflowBuffer, [char* data[MAX_PAYLOAD_SIZE]]. *)
Definition OverflowBuffer := list Z.
Definition OverflowBuffer_new : OverflowBuffer := replicate (Z.to_nat (8 * MAX_PAYLOAD_SIZE)) 0.

Section driver.
Context `{Dpdk}.

Record Impl := mkImpl {
  arpTable : gmap IpAddress MacAddress;
  localIp : IpAddress;
  localMac : MacAddress;
  HIGHEST_PACKET_PRIORITY : Z;
  packetPool : ObjectPool Packet;
  overflowBufferPool : ObjectPool OverflowBuffer;
  mbufsOutstanding : Z;
  bufferedBytes : Z;
  queueEstimator : QueueEstimator;
  hasHardwareFilter : bool;
  corked : Z;
  bandwidthMbps : Z;
  clock_reads : nat;
  lib : rte
}.
#[global] Instance eta_Impl : Eta Impl := fun r =>
  mkImpl (arpTable r) (localIp r) (localMac r) (HIGHEST_PACKET_PRIORITY r) (packetPool r) (overflowBufferPool r)
    (mbufsOutstanding r) (bufferedBytes r) (queueEstimator r) (hasHardwareFilter r) (corked r) (bandwidthMbps r)
    (clock_reads r) (lib r).

(** A driver whose initialisation is done: [priorityOverride] is that of the
    configuration, the rest is what _init found; [lib] has an empty ring. *)
Definition Impl_new (arpTable : gmap IpAddress MacAddress) (localIp : IpAddress) (localMac : MacAddress)
    (priorityOverride : Z) (hasHardwareFilter : bool) (bandwidthMbps : Z) (lib : rte) : Impl :=
  mkImpl arpTable localIp localMac (if priorityOverride <? 0 then zlength PRIORITY_TO_PCP - 1 else priorityOverride)
    ObjectPool_new ObjectPool_new 0 0 (QueueEstimator_new (steady_clock_nth 0) bandwidthMbps) hasHardwareFilter 0
    bandwidthMbps 1 lib.

(** ** Access to the parts *)

Definition rte_op {A} (f : rte -> A * rte) : M Impl A := fun s => let '(a, r) := f (lib s) in Ok (a, s <| lib := r |>).
Definition rte_do (f : rte -> rte) : M Impl unit := modify (fun s => s <| lib ::= f |>).
Definition rte_get {A} (f : rte -> A) : M Impl A := gets (fun s => f (lib s)).
Definition packet_op {A} (m : M (ObjectPool Packet) A) : M Impl A :=
  zoom packetPool (fun o s => s <| packetPool := o |>) m.
Definition overflow_op {A} (m : M (ObjectPool OverflowBuffer) A) : M Impl A :=
  zoom overflowBufferPool (fun o s => s <| overflowBufferPool := o |>) m.
Definition estimator_op {A} (m : M QueueEstimator A) : M Impl A :=
  zoom queueEstimator (fun q s => s <| queueEstimator := q |>) m.

(** [pool.construct(args)] of a constructor that does not throw. *)
Definition construct_nothrow {T} (t : T) : M (ObjectPool T) ptr :=
  p ← construct (Some t); match p with Some p => mret p | None => fault Panicked end.

Definition deref (p : ptr) : M Impl Packet :=
  s ← get;
  match objects (packetPool s) !! p with Some k => mret k | None => fault BadPointer end.
Definition deref_overflow (b : ptr) : M Impl OverflowBuffer :=
  s ← get;
  match objects (overflowBufferPool s) !! b with Some d => mret d | None => fault BadPointer end.
Definition set_length (p : ptr) (n : Z) : M Impl unit :=
  modify (fun s => s <| packetPool ::= fun o => o <| objects ::= alter (fun k => mkPacket (payload_off k) n (bufRef k)) p |> |>).

Definition steady_clock_now : M Impl Z :=
  n ← gets clock_reads; _ ← modify (fun s => s <| clock_reads ::= S |>); mret (steady_clock_nth n).

(** ** Packets *)

(** An mbuf from the pool with [n] bytes appended, and where they start; without
    room for them it is freed again. *)
Definition alloc_append (n : Z) : M Impl (option (mbuf * Z)) :=
  mbuf ← rte_op rte_pktmbuf_alloc;
  match mbuf with
  | None => mret None
  | Some mbuf =>
      len ← Util.downCast u16 u32 n;
      buf ← rte_op (rte_pktmbuf_append mbuf len);
      match buf with
      | None => _ ← rte_do (rte_pktmbuf_free mbuf); mret None
      | Some buf => mret (Some (mbuf, buf))
      end
  end.

Definition allocPacket : M Impl ptr :=
  outstanding ← gets mbufsOutstanding;
  packet ← (if outstanding <? MBUF_ALLOC_LIMIT then
      mbuf ← alloc_append (PACKET_HDR_LEN + MAX_PAYLOAD_SIZE);
      match mbuf with
      | None => mret None
      | Some (mbuf, buf) =>
          packet ← packet_op (construct_nothrow (mkPacket (buf + PACKET_HDR_LEN) 0 (MBUF mbuf)));
          _ ← modify (fun s => s <| mbufsOutstanding ::= fun n => u32 (n + 1) |>);
          mret (Some packet)
      end
    else mret None);
  match packet with
  | Some packet => mret packet
  | None =>
      buf ← overflow_op (construct_nothrow OverflowBuffer_new);
      packet_op (construct_nothrow (mkPacket 0 0 (OVERFLOW_BUF buf)))
  end.

(** One turn of the loop of releasePackets. *)
Definition releasePacket (p : ptr) : M Impl unit :=
  packet ← deref p;
  _ ← (match bufRef packet with
       | MBUF mbuf =>
           _ ← rte_do (rte_pktmbuf_free mbuf);
           modify (fun s => s <| mbufsOutstanding ::= fun n => u32 (n - 1) |>)
       | OVERFLOW_BUF buf => overflow_op (destroy (fun _ => Ok tt) buf)
       end);
  packet_op (destroy (fun _ => Ok tt) p).

Definition releasePackets (packets : list ptr) : M Impl unit := for_each packets releasePacket.

(** ** Sending *)

(** [txBurstCallback]. *)
Definition txBurstCallback (pkts : list mbuf) : M Impl Z :=
  bytesToSend ← rte_get (fun r => foldl (fun n m => u64 (n + rte_pktmbuf_pkt_len m r)) 0 pkts);
  buffered ← gets bufferedBytes;
  _ ← check (bytesToSend <=? buffered);
  _ ← modify (fun s => s <| bufferedBytes ::= fun n => u64 (n - bytesToSend) |>);
  now ← steady_clock_now;
  _ ← estimator_op (QueueEstimator.signalBytesSent now (u32 bytesToSend));
  mret (zlength pkts).

(** A call that transmits: the callback sees each burst before the NIC does. *)
Definition rte_tx (f : rte -> list (list mbuf) * rte) : M Impl unit :=
  r ← gets lib;
  let '(bursts, r') := f r in
  _ ← for_each bursts (fun pkts => _ ← txBurstCallback pkts; mret tt);
  modify (fun s => s <| lib := r' |>).

(** The mbuf to send: that of the packet, or a new one with the bytes of an
    overflow buffer. *)
Definition mbuf_to_send (pkt : Packet) : M Impl (option mbuf) :=
  match bufRef pkt with
  | OVERFLOW_BUF overflowBuf =>
      mbuf ← alloc_append (u32 (PACKET_HDR_LEN + length pkt));
      match mbuf with
      | None => mret None
      | Some (mbuf, buf) =>
          data ← deref_overflow overflowBuf;
          _ ← (if (0 <=? length pkt) && (length pkt <=? zlength data) then mret tt else fault BadPointer);
          _ ← rte_do (rte_store mbuf (buf + PACKET_HDR_LEN) (slice 0 (length pkt) data));
          mret (Some mbuf)
      end
  | MBUF mbuf =>
      refcnt ← rte_get (rte_mbuf_refcnt_read mbuf);
      if 1 <? refcnt then mret None else mret (Some mbuf)
  end.

(** The header that sendPacket fills in, field by field. *)
Definition fill_header (mbuf : mbuf) (destMac : MacAddress) (priority : Z) : M Impl unit :=
  mac ← gets localMac;
  ip ← gets localIp;
  _ ← rte_do (rte_store mbuf 0 (address destMac));
  _ ← rte_do (rte_store mbuf 6 (address mac));
  _ ← rte_do (rte_store mbuf 12 (le_bytes 2 (bswap16 ETHER_TYPE_VLAN)));
  match (if 0 <=? priority then PRIORITY_TO_PCP !! Z.to_nat priority else None) with
  | None => fault OutOfRange
  | Some pcp =>
      _ ← rte_do (rte_store mbuf 14 (le_bytes 2 (bswap16 pcp)));
      _ ← rte_do (rte_store mbuf 16 (le_bytes 2 (bswap16 HOMA)));
      rte_do (rte_store mbuf (PACKET_HDR_LEN - 4) (le_bytes 4 ip))
  end.

(** A packet that is shorter than its mbuf is cut. *)
Definition trim_to (mbuf : mbuf) (length : Z) : M Impl unit :=
  let actualLength := u32 (PACKET_HDR_LEN + length) in
  mbufDataLength ← rte_get (rte_pktmbuf_pkt_len mbuf);
  if actualLength <? mbufDataLength then
    _ ← rte_op (rte_pktmbuf_trim mbuf (u16 (mbufDataLength - actualLength))); mret tt
  else mret tt.

Definition send_loopback (mbuf : mbuf) : M Impl unit :=
  mbuf_clone ← rte_op (rte_pktmbuf_clone mbuf);
  match mbuf_clone with
  | None => mret tt
  | Some mbuf_clone =>
      enqueued ← rte_op (rte_ring_enqueue mbuf_clone);
      if enqueued : bool then mret tt else rte_do (rte_pktmbuf_free mbuf_clone)
  end.

Definition send_nic (pkt : Packet) (mbuf : mbuf) : M Impl unit :=
  _ ← (match bufRef pkt with MBUF _ => rte_do (rte_mbuf_refcnt_update mbuf 1) | OVERFLOW_BUF _ => mret tt end);
  len ← rte_get (rte_pktmbuf_pkt_len mbuf);
  _ ← modify (fun s => s <| bufferedBytes ::= fun n => u64 (n + len) |>);
  _ ← rte_tx (rte_eth_tx_buffer mbuf);
  corked ← gets corked;
  if corked <? 1 then rte_tx rte_eth_tx_buffer_flush else mret tt.

Definition sendPacket (p : ptr) (destination : IpAddress) (priority : Z) : M Impl unit :=
  pkt ← deref p;
  mbuf ← mbuf_to_send pkt;
  match mbuf with
  | None => mret tt
  | Some mbuf =>
      s ← get;
      match arpTable s !! destination with
      | None => mret tt
      | Some destMac =>
          _ ← fill_header mbuf destMac priority;
          _ ← trim_to mbuf (length pkt);
          if Address.equal (localMac s) destMac then send_loopback mbuf else send_nic pkt mbuf
      end
  end.

Definition cork : M Impl unit := modify (fun s => s <| corked ::= fun n => i32 (n + 1) |>).
Definition uncork : M Impl unit :=
  old ← gets corked;
  _ ← modify (fun s => s <| corked ::= fun n => i32 (n - 1) |>);
  if old =? 1 then rte_tx rte_eth_tx_buffer_flush else mret tt.

(** ** Receiving *)

Definition MAX_PACKETS_AT_ONCE : Z := 32.

(** [n] calls of rte_ring_dequeue; one that fails leaves its entry of mPkts as it was. *)
Fixpoint dequeue_loop (n : nat) : M Impl (list mbuf) :=
  match n with
  | O => mret []
  | S n' =>
      m ← rte_op rte_ring_dequeue;
      match m with
      | None => fault BadPointer
      | Some m => ms ← dequeue_loop n'; mret (m :: ms)
      end
  end.

(** The mbufs of a call of receivePackets: those of the loopback ring first. *)
Definition take_mbufs (maxPackets : Z) : M Impl (list mbuf) :=
  let maxPackets := if MAX_PACKETS_AT_ONCE <? maxPackets then MAX_PACKETS_AT_ONCE else maxPackets in
  let maxLoopbackPkts := maxPackets / 2 in
  loopbackPkts ← rte_get rte_ring_count;
  let loopbackPkts := Z.min loopbackPkts maxLoopbackPkts in
  loopback ← dequeue_loop (Z.to_nat loopbackPkts);
  n ← Util.downCast u16 u32 (maxPackets - loopbackPkts);
  incoming ← rte_op (rte_eth_rx_burst n);
  mret (loopback ++ incoming).

(** The type of a frame and the length of its Ethernet header. *)
Definition parse_ether (m : mbuf) (r : rte) : Z * Z :=
  let ether_type := read_le 0 2 (rte_load m 12 2 r) in
  if ether_type =? bswap16 ETHER_TYPE_VLAN then
    (read_le 0 2 (rte_load m (ETHER_HDR_LEN + 2) 2 r), ETHER_HDR_LEN + VLAN_TAG_LEN)
  else (ether_type, ETHER_HDR_LEN).

(** One turn of the loop of receivePackets. *)
Definition receive_mbuf (m : mbuf) : M Impl (option (ptr * IpAddress)) :=
  segs ← rte_get (nb_segs m);
  if 1 <? segs then _ ← rte_do (rte_pktmbuf_free m); mret None
  else
    ether ← rte_get (parse_ether m);
    let '(ether_type, headerLength) := ether in
    filter ← gets hasHardwareFilter;
    if negb filter && negb (ether_type =? bswap16 HOMA) then _ ← rte_do (rte_pktmbuf_free m); mret None
    else
      srcIp ← rte_get (fun r => read_le 0 4 (rte_load m headerLength 4 r));
      let headerLength := headerLength + 4 in
      pkt_len ← rte_get (rte_pktmbuf_pkt_len m);
      _ ← check (headerLength <=? pkt_len);
      let len := pkt_len - headerLength in
      _ ← check (len <=? MAX_PAYLOAD_SIZE);
      outstanding ← gets mbufsOutstanding;
      packet ← (if outstanding <? MBUF_ALLOC_LIMIT then
          packet ← packet_op (construct_nothrow (mkPacket headerLength 0 (MBUF m)));
          _ ← modify (fun s => s <| mbufsOutstanding ::= fun n => u32 (n + 1) |>);
          mret packet
        else
          buf ← overflow_op (construct_nothrow OverflowBuffer_new);
          data ← deref_overflow buf;
          _ ← rte_do (rte_store m headerLength (slice 0 len data));
          packet_op (construct_nothrow (mkPacket 0 0 (OVERFLOW_BUF buf))));
      _ ← set_length packet len;
      mret (Some (packet, srcIp)).

Fixpoint receive_loop (ms : list mbuf) : M Impl (list (ptr * IpAddress)) :=
  match ms with
  | [] => mret []
  | m :: ms =>
      k ← receive_mbuf m;
      ks ← receive_loop ms;
      mret (match k with Some k => k :: ks | None => ks end)
  end.

Definition receivePackets (maxPackets : Z) : M Impl (list (ptr * IpAddress)) :=
  ms ← take_mbufs maxPackets;
  receive_loop ms.

(** ** Getters *)

Definition getHighestPacketPriority : M Impl Z := gets HIGHEST_PACKET_PRIORITY.
Definition getMaxPayloadSize : Z := MAX_PAYLOAD_SIZE.
Definition getBandwidth : M Impl Z := gets bandwidthMbps.
Definition getLocalAddress : M Impl IpAddress := gets localIp.
Definition getQueuedBytes : M Impl Z :=
  buffered ← gets bufferedBytes;
  now ← steady_clock_now;
  queued ← estimator_op (QueueEstimator.getQueuedBytes now);
  mret (u32 (buffered + queued)).

End driver.
Arguments Impl : clear implicits.
Arguments Impl {_}.

End Dpdk.
