(* ===== verification/DpdkInv.v ===== *)
(** * DpdkInv: what the driver relies on, and what it keeps

    [DpdkLaws] states the documented behaviour of the DPDK functions in terms of
    what the driver can know of the library's state: the references that it holds
    to each mbuf, the bytes of its frame, and the contents of the transmit buffer
    and of the ring.  [Inv] is the invariant of the driver. *)

From S2P Require Import Prelude Util ObjectPool Protocol Driver Address QueueEstimator Dpdk.
Import Driver(IpAddress) Protocol(le_bytes, read_le, bswap16).
Import Address(MacAddress, address).
Import QueueEstimator(QueueEstimator).
Import Dpdk.

Module DpdkInv.

(** What the transmit buffer holds, MAX_PKT_BURST. *)
Definition MAX_PKT_BURST : Z := 32.

(** ** The library *)

Class DpdkViews `{Dpdk} := {
  valid : rte -> Prop;                (* reached by proper use *)
  refs : rte -> mbuf -> Z;            (* references the driver holds *)
  data : rte -> mbuf -> list Z;       (* the frame, when it is in one segment *)
  tx_queue : rte -> list mbuf;
  ring : rte -> list mbuf
}.

Section views.
Context `{DpdkViews}.

Definition live (r : rte) (m : mbuf) : Prop := 0 < refs r m \/ m ∈ tx_queue r \/ m ∈ ring r.
Definition same_shape (r r' : rte) (m : mbuf) : Prop :=
  rte_pktmbuf_pkt_len m r' = rte_pktmbuf_pkt_len m r /\ nb_segs m r' = nb_segs m r.

(** From [r] to [r'] the references and the queues become those given, and the
    mbufs that are still in use, but for [changed], are as they were. *)
Record moves (r r' : rte) (refs' : mbuf -> Z) (tx' ring' : list mbuf) (changed : mbuf -> Prop) : Prop := {
  moves_valid : valid r';
  moves_refs m : refs r' m = refs' m;
  moves_tx : tx_queue r' = tx';
  moves_ring : ring r' = ring';
  moves_shape m : live r' m -> ~ changed m -> same_shape r r' m;
  moves_data m : live r' m -> ~ changed m -> data r' m = data r m
}.
Definition add_ref (m : mbuf) (n : Z) (f : mbuf -> Z) : mbuf -> Z := fun m' => if decide (m' = m) then f m' + n else f m'.
Definition none : mbuf -> Prop := fun _ => False.
End views.

Class DpdkLaws `{DpdkViews} := {
  (** An mbuf that is in the transmit buffer has a reference of its own there. *)
  refs_counted r m : valid r -> 0 <= refs r m /\ (m ∈ tx_queue r -> refs r m + 1 <= rte_mbuf_refcnt_read m r);
  tx_bound r : valid r -> zlength (tx_queue r) <= MAX_PKT_BURST;
  len_range r m : 0 <= rte_pktmbuf_pkt_len m r < 2 ^ 32;
  len_data r m : valid r -> live r m -> nb_segs m r <= 1 -> rte_pktmbuf_pkt_len m r = zlength (data r m);
  load_data r m off n : valid r -> live r m -> nb_segs m r <= 1 -> 0 <= off -> 0 <= n -> off + n <= zlength (data r m) ->
    rte_load m off n r = slice off n (data r m);
  alloc_law r : valid r ->
    match rte_pktmbuf_alloc r with
    | (Some m, r') => ~ live r m /\ moves r r' (add_ref m 1 (refs r)) (tx_queue r) (ring r) (eq m) /\
        data r' m = [] /\ nb_segs m r' = 1
    | (None, r') => moves r r' (refs r) (tx_queue r) (ring r) none
    end;
  append_law r m n : valid r -> 0 < refs r m -> 0 <= n -> nb_segs m r = 1 ->
    match rte_pktmbuf_append m n r with
    | (Some off, r') => off = zlength (data r m) /\ moves r r' (refs r) (tx_queue r) (ring r) (eq m) /\
        nb_segs m r' = 1 /\ zlength (data r' m) = off + n
    | (None, r') => moves r r' (refs r) (tx_queue r) (ring r) none
    end;
  free_law r m : valid r -> 0 < refs r m ->
    moves r (rte_pktmbuf_free m r) (add_ref m (-1) (refs r)) (tx_queue r) (ring r) none;
  clone_law r m : valid r -> 0 < refs r m ->
    match rte_pktmbuf_clone m r with
    | (Some c, r') => ~ live r c /\ moves r r' (add_ref c 1 (refs r)) (tx_queue r) (ring r) (eq c) /\
        data r' c = data r m /\ rte_pktmbuf_pkt_len c r' = rte_pktmbuf_pkt_len m r /\ nb_segs c r' = nb_segs m r
    | (None, r') => moves r r' (refs r) (tx_queue r) (ring r) none
    end;
  trim_law r m n : valid r -> 0 < refs r m -> nb_segs m r = 1 -> 0 <= n ->
    let '(ok, r') := rte_pktmbuf_trim m n r in
    moves r r' (refs r) (tx_queue r) (ring r) (eq m) /\ nb_segs m r' = 1 /\
    (n <= zlength (data r m) -> ok = true /\ data r' m = take (Z.to_nat (zlength (data r m) - n)) (data r m));
  refcnt_law r m n : valid r -> 0 < refs r m -> 0 <= refs r m + n ->
    moves r (rte_mbuf_refcnt_update m n r) (add_ref m n (refs r)) (tx_queue r) (ring r) none;
  (** Other mbufs can share the bytes, from the first one on. *)
  store_law r m off bs : valid r -> 0 < refs r m -> nb_segs m r <= 1 -> 0 <= off -> off + zlength bs <= zlength (data r m) ->
    let r' := rte_store m off bs r in
    moves r r' (refs r) (tx_queue r) (ring r) (fun _ => True) /\ (forall m', same_shape r r' m') /\
    data r' m = write_at off bs (data r m) /\
    forall m', live r m' -> slice 0 off (data r' m') = slice 0 off (data r m');
  count_law r : valid r -> rte_ring_count r = zlength (ring r);
  enqueue_law r m : valid r -> 0 < refs r m ->
    match rte_ring_enqueue m r with
    | (true, r') => moves r r' (add_ref m (-1) (refs r)) (tx_queue r) (ring r ++ [m]) none
    | (false, r') => moves r r' (refs r) (tx_queue r) (ring r) none
    end;
  dequeue_law r m ms : valid r -> ring r = m :: ms ->
    exists r', rte_ring_dequeue r = (Some m, r') /\ moves r r' (add_ref m 1 (refs r)) (tx_queue r) ms none;
  rx_law r n : valid r -> 0 <= n ->
    let '(ms, r') := rte_eth_rx_burst n r in
    zlength ms <= n /\ NoDup ms /\ Forall (fun m => ~ live r m) ms /\
    moves r r' (fun m => if decide (m ∈ ms) then 1 else refs r m) (tx_queue r) (ring r) (fun m => m ∈ ms);
  tx_buffer_law r m : valid r -> 0 < refs r m ->
    let '(bursts, r') := rte_eth_tx_buffer m r in
    concat bursts ++ tx_queue r' = tx_queue r ++ [m] /\
    (zlength (tx_queue r) + 1 < MAX_PKT_BURST -> bursts = []) /\
    moves r r' (add_ref m (-1) (refs r)) (tx_queue r') (ring r) none;
  tx_flush_law r : valid r ->
    let '(bursts, r') := rte_eth_tx_buffer_flush r in
    concat bursts = tx_queue r /\ moves r r' (refs r) [] (ring r) none;
  clock_mono n : 0 <= steady_clock_nth n <= steady_clock_nth (S n);
  clock_range n : steady_clock_nth n < 2 ^ 63
}.

Section driver.
Context `{DpdkLaws}.
Implicit Types (s : Impl) (r : rte) (m : mbuf) (p : ptr).

(** ** Steps of the library *)

Lemma wp_rte_op {A} (f : rte -> A * rte) s (Q : A -> Impl -> Prop) :
  wp (rte_op f) s Q <-> let '(a, r) := f (lib s) in Q a (s <| lib := r |>).
Proof. unfold wp, rte_op. by destruct (f (lib s)). Qed.

Lemma set_lib_twice s r r' : (s <| lib := r |>) <| lib := r' |> = s <| lib := r' |>.
Proof. done. Qed.
Lemma set_lib_same s : s <| lib := lib s |> = s.
Proof. by destruct s. Qed.

Lemma moves_live r r' refs' tx' ring' changed m :
  moves r r' refs' tx' ring' changed -> live r' m <-> 0 < refs' m \/ m ∈ tx' \/ m ∈ ring'.
Proof. intros [_ Hr Ht Hi _ _]. unfold live. by rewrite Hr, Ht, Hi. Qed.

(** The bytes that a list of mbufs has in all. *)
Definition total r (ms : list mbuf) : Z := foldr (fun m n => rte_pktmbuf_pkt_len m r + n) 0 ms.

Lemma total_app r ms1 ms2 : total r (ms1 ++ ms2) = total r ms1 + total r ms2.
Proof. induction ms1 as [|m ms1 IH]; cbn; [done|]. fold (total r (ms1 ++ ms2)). rewrite IH. unfold total. lia. Qed.
Lemma total_ext r r' ms :
  (forall m, m ∈ ms -> rte_pktmbuf_pkt_len m r' = rte_pktmbuf_pkt_len m r) -> total r' ms = total r ms.
Proof.
  induction ms as [|m ms IH]; intros Hm; [done|]. cbn. fold (total r' ms) (total r ms).
  rewrite (Hm m), IH by set_solver. done.
Qed.
Lemma total_bounds r ms : 0 <= total r ms <= 2 ^ 32 * zlength ms.
Proof.
  induction ms as [|m ms IH]; cbn; [done|]. fold (total r ms). pose proof (len_range r m). unfold zlength in *. cbn. lia.
Qed.

(** ** The invariant *)

Definition is_mbuf (k : Packet) : bool := match bufRef k with MBUF _ => true | OVERFLOW_BUF _ => false end.
Definition mbuf_count (packets : gmap ptr Packet) : Z := Z.of_nat (size (filter (fun kv => is_mbuf kv.2 = true) packets)).

(** The pools: what is outstanding is counted, every buffer belongs to exactly
    one packet. *)
Record packets_ok (packets : ObjectPool Packet) (buffers : ObjectPool OverflowBuffer) (outstanding : Z) : Prop := {
  packets_pool : pool_ok packets;
  buffers_pool : pool_ok buffers;
  outstanding_exact : outstanding = mbuf_count (objects packets);
  outstanding_bound : 0 <= outstanding <= MBUF_ALLOC_LIMIT;
  buffer_owned b : is_Some (objects buffers !! b) <->
    exists p k, objects packets !! p = Some k /\ bufRef k = OVERFLOW_BUF b;
  buffer_size b d : objects buffers !! b = Some d -> zlength d = 8 * MAX_PAYLOAD_SIZE;
  owner_unique p1 k1 p2 k2 : objects packets !! p1 = Some k1 -> objects packets !! p2 = Some k2 ->
    bufRef k1 = bufRef k2 -> p1 = p2
}.

(** The references: each packet holds its mbuf, the ring holds its own. *)
Record refs_ok (packets : gmap ptr Packet) r : Prop := {
  lib_valid : valid r;
  ring_nodup : NoDup (ring r);
  ring_free m : m ∈ ring r -> refs r m = 0;
  packet_held p k m : packets !! p = Some k -> bufRef k = MBUF m -> 0 < refs r m /\ nb_segs m r <= 1
}.

Record stats_ok r (buffered : Z) (q : QueueEstimator) (reads : nat) : Prop := {
  buffered_exact : buffered = total r (tx_queue r);
  estimator_ok : QueueEstimator.ok q;
  estimator_time : QueueEstimator.lastUpdateTime q <= steady_clock_nth reads
}.

Definition macs_ok s : Prop :=
  Address.mac_ok (localMac s) /\ forall d a, arpTable s !! d = Some a -> Address.mac_ok a.

Record Inv s : Prop := {
  inv_packets : packets_ok (packetPool s) (overflowBufferPool s) (mbufsOutstanding s);
  inv_refs : refs_ok (objects (packetPool s)) (lib s);
  inv_stats : stats_ok (lib s) (bufferedBytes s) (queueEstimator s) (clock_reads s);
  inv_macs : macs_ok s
}.


(** ** The pools *)

Lemma mbuf_count_insert packets p k :
  packets !! p = None -> mbuf_count (<[p := k]> packets) = mbuf_count packets + (if is_mbuf k then 1 else 0).
Proof.
  intros Hp. unfold mbuf_count. destruct (is_mbuf k) eqn:Hk.
  - rewrite map_filter_insert_True by done. rewrite map_size_insert_None by (by rewrite map_lookup_filter, Hp). lia.
  - rewrite map_filter_insert_False by (cbn; congruence). rewrite delete_id by done. lia.
Qed.
Lemma mbuf_count_delete packets p k :
  packets !! p = Some k -> mbuf_count (delete p packets) = mbuf_count packets - (if is_mbuf k then 1 else 0).
Proof.
  intros Hp. rewrite <- (insert_delete_id _ _ _ Hp) at 2. rewrite mbuf_count_insert by apply lookup_delete_eq. lia.
Qed.
Lemma mbuf_count_nonneg packets : 0 <= mbuf_count packets.
Proof. unfold mbuf_count. lia. Qed.

Definition held (packets : gmap ptr Packet) (m : mbuf) : Prop := exists p k, packets !! p = Some k /\ bufRef k = MBUF m.

Lemma packets_ok_mbuf P P' O n p k m :
  packets_ok P O n -> n < MBUF_ALLOC_LIMIT -> objects P !! p = None -> objects P' = <[p := k]> (objects P) -> pool_ok P' ->
  bufRef k = MBUF m -> ~ held (objects P) m -> packets_ok P' O (n + 1).
Proof.
  intros [_ HO Hn Hb Hown Hsize Huniq] Hlt Hp HP HP' Hk Hfresh. split; [done|done| |lia| |done|].
  - rewrite HP, mbuf_count_insert by done. unfold is_mbuf. rewrite Hk. lia.
  - intros b. rewrite Hown, HP. split.
    + intros (q & kq & Hq & ?). exists q, kq. split; [|done]. rewrite lookup_insert_ne; congruence.
    + intros (q & kq & Hq & ?). exists q, kq. split; [|done]. apply lookup_insert_Some in Hq as [[<- <-]|[_ Hq]]; [congruence|done].
  - rewrite HP. intros p1 k1 p2 k2 [[<- <-]|[_ E1]]%lookup_insert_Some [[<- <-]|[_ E2]]%lookup_insert_Some He;
      [done| | |by eapply Huniq]; exfalso; apply Hfresh; [exists p2, k2|exists p1, k1]; split; congruence.
Qed.

Lemma packets_ok_overflow P P' O O' n p k b d :
  packets_ok P O n -> objects P !! p = None -> objects P' = <[p := k]> (objects P) -> pool_ok P' ->
  objects O !! b = None -> objects O' = <[b := d]> (objects O) -> pool_ok O' ->
  bufRef k = OVERFLOW_BUF b -> zlength d = 8 * MAX_PAYLOAD_SIZE -> packets_ok P' O' n.
Proof.
  intros [_ _ Hn Hb Hown Hsize Huniq] Hp HP HP' Hb0 HO HO' Hk Hd.
  assert (forall q kq, objects P !! q = Some kq -> bufRef kq <> OVERFLOW_BUF b) as Hfresh.
  { intros q kq Hq Hkq. assert (is_Some (objects O !! b)) as [? ?] by (apply Hown; eauto). congruence. }
  split; [done|done| |done| | |].
  - rewrite HP, mbuf_count_insert by done. unfold is_mbuf. rewrite Hk. lia.
  - intros b'. rewrite HO, HP, lookup_insert_is_Some'. rewrite Hown. split.
    + intros [<-|(q & kq & Hq & ?)]; [exists p, k; split; [by rewrite lookup_insert_eq|done]|].
      exists q, kq. split; [|done]. rewrite lookup_insert_ne; congruence.
    + intros (q & kq & [[<- <-]|[_ Hq]]%lookup_insert_Some & ?); [left; congruence|right; eauto].
  - rewrite HO. intros b' d' [[<- <-]|[_ Hd']]%lookup_insert_Some; [done|by eapply Hsize].
  - rewrite HP. intros p1 k1 p2 k2 [[<- <-]|[_ E1]]%lookup_insert_Some [[<- <-]|[_ E2]]%lookup_insert_Some He;
      [done| | |by eapply Huniq]; exfalso; [apply (Hfresh _ _ E2)|apply (Hfresh _ _ E1)]; congruence.
Qed.

Lemma packets_ok_delete_mbuf P P' O n p k m :
  packets_ok P O n -> objects P !! p = Some k -> objects P' = delete p (objects P) -> pool_ok P' ->
  bufRef k = MBUF m -> packets_ok P' O (n - 1) /\ 1 <= n.
Proof.
  intros [_ HO Hn Hb Hown Hsize Huniq] Hp HP HP' Hk.
  assert (n - 1 = mbuf_count (objects P')) as Hn1.
  { rewrite HP, (mbuf_count_delete _ _ k) by done. unfold is_mbuf. rewrite Hk. lia. }
  pose proof (mbuf_count_nonneg (objects P')). split; [|lia]. split; [done|done|done|lia| |done|].
  - intros b. rewrite Hown, HP. split; intros (q & kq & Hq & Hkq); exists q, kq; (split; [|done]).
    + rewrite lookup_delete_ne; [done|]. congruence.
    + by apply lookup_delete_Some in Hq as [_ ?].
  - rewrite HP. intros p1 k1 p2 k2 [_ E1]%lookup_delete_Some [_ E2]%lookup_delete_Some He. by eapply Huniq.
Qed.

Lemma packets_ok_delete_overflow P P' O O' n p k b :
  packets_ok P O n -> objects P !! p = Some k -> objects P' = delete p (objects P) -> pool_ok P' ->
  objects O' = delete b (objects O) -> pool_ok O' -> bufRef k = OVERFLOW_BUF b -> packets_ok P' O' n.
Proof.
  intros [_ _ Hn Hb Hown Hsize Huniq] Hp HP HP' HO HO' Hk. split; [done|done| |done| | |].
  - rewrite HP, (mbuf_count_delete _ _ k) by done. unfold is_mbuf. rewrite Hk. lia.
  - intros b'. rewrite HO, HP. rewrite lookup_delete_is_Some, Hown. split.
    + intros [Hne (q & kq & Hq & Hkq)]. exists q, kq. split; [|done]. rewrite lookup_delete_ne; [done|]. congruence.
    + intros (q & kq & [Hne Hq]%lookup_delete_Some & Hkq). split; [|eauto]. intros ->. apply Hne. eapply Huniq; [done|done|congruence].
  - rewrite HO. intros b' d' [_ Hd']%lookup_delete_Some. by eapply Hsize.
  - rewrite HP. intros p1 k1 p2 k2 [_ E1]%lookup_delete_Some [_ E2]%lookup_delete_Some He. by eapply Huniq.
Qed.

(** Changing a packet but for its buffer changes nothing of this. *)
Lemma alter_same_buf (packets : gmap ptr Packet) p f q k :
  (forall k, bufRef (f k) = bufRef k) -> alter f p packets !! q = Some k ->
  exists k0, packets !! q = Some k0 /\ bufRef k0 = bufRef k.
Proof.
  intros Hf Hq. destruct (decide (p = q)) as [->|Hne].
  - rewrite lookup_alter_eq in Hq. destruct (packets !! q) as [k0|]; [|done]. injection Hq as <-. eauto.
  - rewrite lookup_alter_ne in Hq by done. eauto.
Qed.
Lemma alter_same_buf' (packets : gmap ptr Packet) p f q k :
  (forall k, bufRef (f k) = bufRef k) -> packets !! q = Some k ->
  exists k0, alter f p packets !! q = Some k0 /\ bufRef k0 = bufRef k.
Proof.
  intros Hf Hq. destruct (decide (p = q)) as [->|Hne].
  - rewrite lookup_alter_eq, Hq. cbn. eauto.
  - rewrite lookup_alter_ne by done. eauto.
Qed.
Lemma mbuf_count_alter packets p f :
  (forall k, bufRef (f k) = bufRef k) -> mbuf_count (alter f p packets) = mbuf_count packets.
Proof.
  intros Hf. destruct (packets !! p) as [k|] eqn:Hp.
  - rewrite <- (insert_delete_id _ _ _ Hp), alter_insert_eq, !mbuf_count_insert by apply lookup_delete_eq.
    unfold is_mbuf. by rewrite Hf.
  - f_equal. apply map_eq. intros q. destruct (decide (p = q)) as [->|].
    + by rewrite lookup_alter_eq, Hp.
    + by rewrite lookup_alter_ne.
Qed.
Lemma packets_ok_alter P O n p f :
  (forall k, bufRef (f k) = bufRef k) -> packets_ok P O n -> packets_ok (P <| objects ::= alter f p |>) O n.
Proof.
  intros Hf [HP HO Hn Hb Hown Hsize Huniq]. split; [|done| |done| |done|]; unfold over; cbn [objects].
  - apply (pool_ok_alter P (alter f p)); [done|]. intros. apply dom_alter_L.
  - by rewrite mbuf_count_alter.
  - intros b. rewrite Hown. split; intros (q & k & Hq & Hk).
    + destruct (alter_same_buf' _ p f _ _ Hf Hq) as (k0 & ? & ?). exists q, k0. split; [done|congruence].
    + destruct (alter_same_buf _ p f _ _ Hf Hq) as (k0 & ? & ?). exists q, k0. split; [done|congruence].
  - intros p1 k1 p2 k2 E1 E2 He. destruct (alter_same_buf _ p f _ _ Hf E1) as (k1' & ? & ?), (alter_same_buf _ p f _ _ Hf E2) as (k2' & ? & ?).
    eapply Huniq; [done|done|congruence].
Qed.

Lemma wp_construct {T} (t : T) o (Q : ptr -> ObjectPool T -> Prop) :
  pool_ok o -> (forall p o', objects o !! p = None -> objects o' = <[p := t]> (objects o) -> pool_ok o' -> Q p o') ->
  wp (construct_nothrow t) o Q.
Proof. intros Ho HQ. unfold construct_nothrow. wp_step. apply construct_wp; [done|]. intros p o' ???. wp_step. by apply HQ. Qed.

(** ** The references *)

Lemma not_in_hand P r m : refs_ok P r -> ~ live r m -> ~ held P m.
Proof. intros Hr Hm (p & k & Hp & Hk). apply Hm. left. by eapply packet_held. Qed.
Lemma not_live_refs r m : valid r -> ~ live r m -> refs r m = 0.
Proof. intros Hv Hm. destruct (refs_counted r m Hv) as [? _]. assert (~ 0 < refs r m) by (intros ?; apply Hm; by left). lia. Qed.

Lemma refs_ok_moves P r r' refs' tx' ring' changed :
  refs_ok P r -> moves r r' refs' tx' ring' changed ->
  NoDup ring' -> (forall m, m ∈ ring' -> refs' m = 0) ->
  (forall m, held P m -> 0 < refs' m /\ (changed m -> nb_segs m r' <= 1)) -> (forall m, Decision (changed m)) -> refs_ok P r'.
Proof.
  intros [Hv Hnd Hfree Hheld] Hm Hnd' Hfree' Hheld' Hdec. pose proof Hm as [Hv' Hr' _ Hi' Hsh _]. split; [done|by rewrite Hi'| |].
  - intros m. rewrite Hi', Hr'. apply Hfree'.
  - intros p k m Hp Hk. destruct (Hheld p k m Hp Hk) as [_ Hs]. destruct (Hheld' m) as [E1 E2]; [by exists p, k|].
    rewrite Hr'. split; [done|]. destruct (Hdec m); [by apply E2|]. destruct (Hsh m) as [_ ->]; [|done|done].
    left. by rewrite Hr'.
Qed.

(** Moves that leave the queues alone. *)
Lemma refs_ok_quiet P r r' refs' changed :
  refs_ok P r -> moves r r' refs' (tx_queue r) (ring r) changed ->
  (forall m, m ∈ ring r -> refs' m = 0) ->
  (forall m, held P m -> 0 < refs' m /\ (changed m -> nb_segs m r' <= 1)) -> (forall m, Decision (changed m)) -> refs_ok P r'.
Proof. intros Hr Hm ???. eapply refs_ok_moves; [done|done| |done..]. apply Hr. Qed.

Lemma stats_ok_quiet r r' refs' ring' changed b q n :
  stats_ok r b q n -> moves r r' refs' (tx_queue r) ring' changed -> (forall m, m ∈ tx_queue r -> ~ changed m) ->
  stats_ok r' b q n.
Proof.
  intros [Hb Hq Ht] Hm Hc. split; [|done|done]. pose proof Hm as [_ _ Htx _ Hsh _]. rewrite Hb, Htx. symmetry.
  apply total_ext. intros m Hin. apply Hsh; [|by apply Hc]. right; left. by rewrite Htx.
Qed.

Lemma Inv_lib s r' :
  Inv s -> refs_ok (objects (packetPool s)) r' -> stats_ok r' (bufferedBytes s) (queueEstimator s) (clock_reads s) ->
  Inv (s <| lib := r' |>).
Proof. intros [? _ _ ?] ??. by split. Qed.

(** The driver may drop a reference that no packet holds, and hold one more. *)
Lemma Inv_moves s r' refs' changed :
  Inv s -> moves (lib s) r' refs' (tx_queue (lib s)) (ring (lib s)) changed ->
  (forall m, m ∈ ring (lib s) -> refs' m = 0) ->
  (forall m, held (objects (packetPool s)) m -> 0 < refs' m /\ (changed m -> nb_segs m r' <= 1)) ->
  (forall m, m ∈ tx_queue (lib s) -> ~ changed m) -> (forall m, Decision (changed m)) -> Inv (s <| lib := r' |>).
Proof.
  intros Hi Hm ????. apply Inv_lib; [done|eapply refs_ok_quiet; [apply Hi|done..]|eapply stats_ok_quiet; [apply Hi|done|done]].
Qed.

#[local] Instance none_dec m : Decision (none m).
Proof. right. intros []. Defined.

Lemma held_refs s m : Inv s -> held (objects (packetPool s)) m -> 0 < refs (lib s) m.
Proof. intros Hi (p & k & Hp & Hk). by eapply packet_held; [apply Hi|..]. Qed.
Lemma ring_refs s m : Inv s -> m ∈ ring (lib s) -> refs (lib s) m = 0.
Proof. intros Hi. apply Hi. Qed.

(** The library does nothing that the driver sees. *)
Lemma Inv_idle s r' :
  Inv s -> moves (lib s) r' (refs (lib s)) (tx_queue (lib s)) (ring (lib s)) none -> Inv (s <| lib := r' |>).
Proof. intros Hi Hm. eapply Inv_moves; [done|done| | |by intros ? ? []|apply _]; [by intros; apply ring_refs|]. intros m Hh. split; [by apply held_refs|by intros []]. Qed.

(** A new mbuf in hand. *)
Lemma Inv_alloc s r' m :
  Inv s -> ~ live (lib s) m -> moves (lib s) r' (add_ref m 1 (refs (lib s))) (tx_queue (lib s)) (ring (lib s)) (eq m) ->
  Inv (s <| lib := r' |>).
Proof.
  intros Hi Hn Hm. assert (forall m', m' ∈ ring (lib s) \/ m' ∈ tx_queue (lib s) \/ held (objects (packetPool s)) m' -> m' <> m) as Hne.
  { intros m' Hin ->. apply Hn. destruct Hin as [|[|Hh]]; [by right; right|by right; left|left; by apply held_refs]. }
  eapply Inv_moves; [done|done| | | |apply _].
  - intros m' Hin. unfold add_ref. rewrite decide_False by (apply Hne; tauto). by apply ring_refs.
  - intros m' Hin. unfold add_ref. rewrite decide_False by (apply Hne; tauto). split; [by apply held_refs|].
    intros ->. exfalso. eapply Hne; [right; right; done|done].
  - intros m' Hin ->. eapply Hne; [right; left; done|done].
Qed.

(** An mbuf in hand that no packet holds is freed. *)
Lemma Inv_free s m :
  Inv s -> 0 < refs (lib s) m -> ~ held (objects (packetPool s)) m -> Inv (s <| lib := rte_pktmbuf_free m (lib s) |>).
Proof.
  intros Hi Hm Hh. eapply Inv_moves; [done|apply free_law; [apply Hi|done]| | |by intros ? ? []|apply _].
  - intros m' Hin. unfold add_ref. case_decide as E; [subst|by apply ring_refs]. rewrite ring_refs in Hm by done. lia.
  - intros m' Hin. unfold add_ref. rewrite decide_False by congruence. split; [by apply held_refs|by intros []].
Qed.

(** An mbuf in hand that is not in the transmit buffer changes. *)
Lemma Inv_change s r' m :
  Inv s -> moves (lib s) r' (refs (lib s)) (tx_queue (lib s)) (ring (lib s)) (eq m) -> m ∉ tx_queue (lib s) -> nb_segs m r' <= 1 ->
  Inv (s <| lib := r' |>).
Proof.
  intros Hi Hm Htx Hs. eapply Inv_moves; [done|done| | | |apply _].
  - by intros; apply ring_refs.
  - intros m' Hh. split; [by apply held_refs|by intros <-].
  - by intros m' Hin <-.
Qed.

(** Bytes that are written in an mbuf are nothing that the invariant sees. *)
Lemma Inv_store s m off bs :
  Inv s -> 0 < refs (lib s) m -> nb_segs m (lib s) <= 1 -> 0 <= off -> off + zlength bs <= zlength (data (lib s) m) ->
  Inv (s <| lib := rte_store m off bs (lib s) |>).
Proof.
  intros Hi Hm Hs Ho Hl. destruct (store_law (lib s) m off bs) as (Hmv & Hsh & _); [apply Hi|done..|].
  apply Inv_lib; [done| |].
  - eapply refs_ok_quiet; [apply Hi|done|by intros; apply ring_refs| |intros; left; exact I].
    intros m' Hh. split; [by apply held_refs|]. intros _. destruct (Hsh m') as [_ ->].
    destruct Hh as (p & k & Hp & Hk). by eapply (packet_held _ _ (inv_refs _ Hi)).
  - destruct (inv_stats _ Hi) as [Hb Hq Ht]. split; [|done|done]. rewrite Hb, (moves_tx _ _ _ _ _ _ Hmv). symmetry.
    apply total_ext. intros. apply Hsh.
Qed.

(** ** Packets *)

Definition in_hand s m : Prop := 0 < refs (lib s) m /\ nb_segs m (lib s) <= 1 /\ ~ held (objects (packetPool s)) m.
#[local] Abbreviation packets s := (objects (packetPool s)).

Lemma Inv_new_mbuf s P' p k m :
  Inv s -> mbufsOutstanding s < MBUF_ALLOC_LIMIT -> in_hand s m ->
  packets s !! p = None -> objects P' = <[p := k]> (packets s) -> pool_ok P' -> bufRef k = MBUF m ->
  Inv (s <| packetPool := P' |> <| mbufsOutstanding ::= fun n => u32 (n + 1) |>).
Proof.
  intros Hi Hlt (Hr & Hs & Hh) Hp HP HP' Hk. pose proof Hi as [Hpk [Hv Hnd Hf Hheld] Hst Hmac]. split; [| |done|done].
  - change (packets_ok P' (overflowBufferPool s) (u32 (mbufsOutstanding s + 1))).
    pose proof (outstanding_bound _ _ _ Hpk). rewrite u32_small by (unfold MBUF_ALLOC_LIMIT, NB_MBUF, NB_MBUF_RESERVED in *; lia).
    by eapply packets_ok_mbuf.
  - change (refs_ok (objects P') (lib s)). split; [done..|]. rewrite HP.
    intros q kq m' [[<- <-]|[_ Hq]]%lookup_insert_Some E; [|by eapply Hheld]. by replace m' with m by congruence.
Qed.

Lemma Inv_new_overflow s P' O' p k b d :
  Inv s -> packets s !! p = None -> objects P' = <[p := k]> (packets s) -> pool_ok P' ->
  objects (overflowBufferPool s) !! b = None -> objects O' = <[b := d]> (objects (overflowBufferPool s)) -> pool_ok O' ->
  bufRef k = OVERFLOW_BUF b -> zlength d = 8 * MAX_PAYLOAD_SIZE ->
  Inv (s <| overflowBufferPool := O' |> <| packetPool := P' |>).
Proof.
  intros Hi Hp HP HP' Hb HO HO' Hk Hd. pose proof Hi as [Hpk [Hv Hnd Hf Hheld] Hst Hmac]. split; [| |done|done].
  - change (packets_ok P' O' (mbufsOutstanding s)). by eapply packets_ok_overflow.
  - change (refs_ok (objects P') (lib s)). split; [done..|]. rewrite HP.
    intros q kq m' [[<- <-]|[_ Hq]]%lookup_insert_Some E; [congruence|by eapply Hheld].
Qed.

Lemma Inv_set_length s p n :
  Inv s -> Inv (s <| packetPool ::= fun o => o <| objects ::= alter (fun k => mkPacket (payload_off k) n (bufRef k)) p |> |>).
Proof.
  intros [Hpk [Hv Hnd Hf Hheld] Hst Hmac]. split; [by apply packets_ok_alter| |done|done].
  split; [done..|]. intros q k m Hq Hk. apply alter_same_buf in Hq as (k0 & Hq & Hk0); [|done]. eapply Hheld; [done|congruence].
Qed.

Lemma overflow_size : zlength OverflowBuffer_new = 8 * MAX_PAYLOAD_SIZE.
Proof. unfold zlength, OverflowBuffer_new. rewrite length_replicate. done. Qed.

(** What a packet that was allocated has room for. *)
Definition room s (k : Packet) : Prop :=
  match bufRef k with
  | MBUF m => nb_segs m (lib s) = 1 /\ payload_off k = PACKET_HDR_LEN /\ rte_pktmbuf_pkt_len m (lib s) = PACKET_HDR_LEN + MAX_PAYLOAD_SIZE
  | OVERFLOW_BUF _ => payload_off k = 0
  end.

(** A new packet: the other packets stay. *)
Definition allocated s s' (p : ptr) : Prop :=
  exists k, packets s !! p = None /\ packets s' = <[p := k]> (packets s) /\ length k = 0 /\ room s' k /\
    queueEstimator s' = queueEstimator s /\ bufferedBytes s' = bufferedBytes s.

Lemma wp_alloc_overflow s r' (Q : ptr -> Impl -> Prop) :
  Inv (s <| lib := r' |>) -> (forall p s', Inv s' -> allocated s s' p -> Q p s') ->
  wp (buf ← overflow_op (construct_nothrow OverflowBuffer_new); packet_op (construct_nothrow (mkPacket 0 0 (OVERFLOW_BUF buf))))
    (s <| lib := r' |>) Q.
Proof.
  intros Hi HQ. wp_step. unfold overflow_op. wp_step. apply wp_construct; [apply Hi|]. intros b O' Hb HO HO'.
  unfold packet_op. wp_step. apply wp_construct; [apply Hi|]. intros p P' Hp HP HP'. apply HQ.
  - eapply (Inv_new_overflow _ P' O'); [done..|apply overflow_size].
  - eexists. split_and!; [exact Hp|exact HP|done|done|done|done].
Qed.

Lemma downCast_u16_small n s Q : 0 <= n < 2 ^ 16 -> Q n s -> wp (Util.downCast u16 u32 n) s Q.
Proof. intros Hn HQ. unfold Util.downCast. rewrite u16_small by lia. wp_step. wp_step; [by rewrite Z.sub_diag|done]. Qed.

Lemma add_ref_self m n f : add_ref m n f m = f m + n.
Proof. unfold add_ref. by rewrite decide_True. Qed.

Lemma live_refs r m : 0 < refs r m -> live r m.
Proof. by left. Qed.

Lemma wp_alloc_append n s (Q : option (mbuf * Z) -> Impl -> Prop) :
  Inv s -> 0 <= n < 2 ^ 16 ->
  (forall r', Inv (s <| lib := r' |>) -> tx_queue r' = tx_queue (lib s) -> ring r' = ring (lib s) -> Q None (s <| lib := r' |>)) ->
  (forall m r', Inv (s <| lib := r' |>) -> ~ live (lib s) m -> refs r' m = 1 -> nb_segs m r' = 1 -> zlength (data r' m) = n ->
    tx_queue r' = tx_queue (lib s) -> ring r' = ring (lib s) -> Q (Some (m, 0)) (s <| lib := r' |>)) ->
  wp (alloc_append n) s Q.
Proof.
  intros Hi Hn HN HQ. unfold alloc_append. wp_step. apply wp_rte_op. pose proof (alloc_law (lib s) (lib_valid _ _ (inv_refs _ Hi))) as Hal.
  destruct (rte_pktmbuf_alloc (lib s)) as [[m|] r1]; [|wp_step; apply HN; [by apply Inv_idle|apply (moves_tx _ _ _ _ _ _ Hal)|apply (moves_ring _ _ _ _ _ _ Hal)]].
  destruct Hal as (Hnl & Hmv & Hd & Hs). pose proof (Inv_alloc _ _ _ Hi Hnl Hmv) as Hi1.
  pose proof (moves_refs _ _ _ _ _ _ Hmv m) as Hr. rewrite add_ref_self, (not_live_refs (lib s)) in Hr; [|apply Hi|done].
  wp_step. apply downCast_u16_small; [done|]. wp_step. apply wp_rte_op. change (lib (s <| lib := r1 |>)) with r1.
  assert (~ held (packets s) m) as Hh by (eapply not_in_hand; [apply Hi|done]).
  pose proof (append_law r1 m n (moves_valid _ _ _ _ _ _ Hmv)) as Hap.
  destruct (rte_pktmbuf_append m n r1) as [[off|] r2].
  - destruct Hap as (-> & Hmv2 & Hs2 & Hl2); [lia|lia|done|]. rewrite Hd in *. change (zlength []) with 0 in *.
    wp_step. rewrite set_lib_twice.
    assert (m ∉ tx_queue r1) as Hntx.
    { rewrite (moves_tx _ _ _ _ _ _ Hmv). intros Hin. apply Hnl. by right; left. }
    apply HQ; [|done| |done|lia| |].
    + rewrite <- (set_lib_twice s r1 r2). eapply Inv_change; [done|exact Hmv2|done|lia].
    + rewrite (moves_refs _ _ _ _ _ _ Hmv2). lia.
    + by rewrite (moves_tx _ _ _ _ _ _ Hmv2), (moves_tx _ _ _ _ _ _ Hmv).
    + by rewrite (moves_ring _ _ _ _ _ _ Hmv2), (moves_ring _ _ _ _ _ _ Hmv).
  - specialize (Hap ltac:(lia) ltac:(lia) Hs).
    assert (Inv (s <| lib := r2 |>)) as Hi2 by (rewrite <- (set_lib_twice s r1 r2); by apply Inv_idle).
    wp_step. unfold rte_do. wp_step. wp_step. assert (0 < refs r2 m) as Hr2 by (rewrite (moves_refs _ _ _ _ _ _ Hap); lia).
    pose proof (free_law r2 m (moves_valid _ _ _ _ _ _ Hap) Hr2) as Hfr. apply (HN (rte_pktmbuf_free m r2)).
    + by apply (Inv_free _ m Hi2).
    + by rewrite (moves_tx _ _ _ _ _ _ Hfr), (moves_tx _ _ _ _ _ _ Hap), (moves_tx _ _ _ _ _ _ Hmv).
    + by rewrite (moves_ring _ _ _ _ _ _ Hfr), (moves_ring _ _ _ _ _ _ Hap), (moves_ring _ _ _ _ _ _ Hmv).
Qed.

Lemma wp_allocPacket s (Q : ptr -> Impl -> Prop) :
  Inv s -> (forall p s', Inv s' -> allocated s s' p -> Q p s') -> wp allocPacket s Q.
Proof.
  intros Hi HQ. unfold allocPacket. do 3 wp_step. destruct (Z.ltb_spec (mbufsOutstanding s) MBUF_ALLOC_LIMIT) as [Hlt|Hge].
  - wp_step. apply wp_alloc_append; [done|by vm_compute| |].
    + intros r' Hi' _ _. wp_step. by apply wp_alloc_overflow.
    + intros m r' Hi' Hnl Hr Hs Hl _ _.
      assert (in_hand (s <| lib := r' |>) m) as Hm.
      { split_and!; [change (0 < refs r' m); lia|change (nb_segs m r' <= 1); lia|]. eapply not_in_hand; [apply Hi|done]. }
      wp_step. unfold packet_op. wp_step. apply wp_construct; [apply Hi|]. intros p P' Hp HP HP'. do 3 wp_step. wp_step. apply HQ.
      * apply (Inv_new_mbuf (s <| lib := r' |>) P' p _ m Hi' Hlt Hm Hp HP HP'). done.
      * eexists. split_and!; [exact Hp|exact HP|done| |done|done]. split_and!; [exact Hs|done|].
        change (rte_pktmbuf_pkt_len m r' = PACKET_HDR_LEN + MAX_PAYLOAD_SIZE).
        rewrite (len_data r'); [done|apply Hi'|apply live_refs; lia|lia].
  - wp_step. rewrite <- (set_lib_same s). apply wp_alloc_overflow; rewrite ?set_lib_same; done.
Qed.

(** ** Releasing *)

Lemma wp_deref_packet p k s Q : packets s !! p = Some k -> Q k s -> wp (deref p) s Q.
Proof. intros Hp HQ. unfold deref. wp_step. wp_step. rewrite Hp. by wp_step. Qed.

Lemma held_delete s p k m :
  Inv s -> packets s !! p = Some k -> bufRef k = MBUF m -> ~ held (delete p (packets s)) m.
Proof.
  intros Hi Hp Hk (q & kq & [Hne Hq]%lookup_delete_Some & Hkq). apply Hne.
  eapply owner_unique; [apply Hi|done|done|congruence].
Qed.

Lemma refs_ok_subset P P' r : refs_ok P r -> P' ⊆ P -> refs_ok P' r.
Proof. intros [Hv Hnd Hf Hh] Hs. split; [done..|]. intros q k m Hq. eapply Hh. by eapply lookup_weaken. Qed.

Lemma wp_releasePacket s p k (Q : unit -> Impl -> Prop) :
  Inv s -> packets s !! p = Some k ->
  (forall s', Inv s' -> packets s' = delete p (packets s) -> Q tt s') -> wp (releasePacket p) s Q.
Proof.
  intros Hi Hp HQ. unfold releasePacket. wp_step. eapply wp_deref_packet; [done|]. wp_step. pose proof Hi as [Hpk Hrf Hst Hmac].
  pose proof (outstanding_bound _ _ _ Hpk).
  destruct (bufRef k) as [m|b] eqn:Hk.
  - wp_step. unfold rte_do. do 2 wp_step. unfold packet_op. wp_step.
    eapply destroy_wp; [apply Hpk|exact Hp|done|]. intros P' HP HP'.
    destruct (packets_ok_delete_mbuf _ P' _ _ _ _ _ Hpk Hp HP HP' Hk) as [Hpk' Hn]. apply HQ; [|done].
    assert (Inv (s <| packetPool := P' |> <| mbufsOutstanding ::= fun n => u32 (n - 1) |>)) as Hi'.
    { split; [| |done|done].
      - change (packets_ok P' (overflowBufferPool s) (u32 (mbufsOutstanding s - 1))).
        rewrite u32_small by (unfold MBUF_ALLOC_LIMIT, NB_MBUF, NB_MBUF_RESERVED in *; lia). done.
      - change (refs_ok (objects P') (lib s)). rewrite HP. eapply refs_ok_subset; [done|]. apply delete_subseteq. }
    apply (Inv_free _ m Hi').
    + change (0 < refs (lib s) m). by eapply packet_held.
    + change (~ held (objects P') m). rewrite HP. exact (held_delete s p k m Hi Hp Hk).
  - unfold overflow_op. wp_step. assert (is_Some (objects (overflowBufferPool s) !! b)) as [d Hd].
    { apply Hpk. eauto. }
    eapply destroy_wp; [apply Hpk|exact Hd|done|]. intros O' HO HO'. unfold packet_op. wp_step.
    eapply destroy_wp; [apply Hpk|exact Hp|done|]. intros P' HP HP'. apply HQ; [|done]. split; [| |done|done].
    + change (packets_ok P' O' (mbufsOutstanding s)). by eapply (packets_ok_delete_overflow (packetPool s) P' (overflowBufferPool s)).
    + change (refs_ok (objects P') (lib s)). rewrite HP. eapply refs_ok_subset; [done|]. apply delete_subseteq.
Qed.

Lemma wp_releasePackets s ps (Q : unit -> Impl -> Prop) :
  Inv s -> NoDup ps -> (forall p, p ∈ ps -> is_Some (packets s !! p)) ->
  (forall s', Inv s' -> Q tt s') -> wp (releasePackets ps) s Q.
Proof.
  intros Hi Hnd Hps HQ. unfold releasePackets.
  apply (wp_for_each (fun ps s => Inv s /\ NoDup ps /\ forall p, p ∈ ps -> is_Some (packets s !! p))); [done| |].
  - clear s ps Hi Hnd Hps HQ. intros p ps s (Hi & [Hn Hnd]%NoDup_cons & Hps). destruct (Hps p) as [k Hk]; [by left|].
    eapply wp_releasePacket; [done|done|]. intros s' Hi' Hp'. split_and!; [done|done|]. intros q Hq. rewrite Hp'.
    rewrite lookup_delete_ne by (intros ->; done). apply Hps. by right.
  - intros s' (Hi' & _). by apply HQ.
Qed.
End driver.
Abbreviation packets s := (objects (packetPool s)).
End DpdkInv.
