(* ===== verification/DpdkSend.v ===== *)
(** * DpdkSend: what sendPacket, cork and uncork do

    The frame that sendPacket builds, the loopback, and the bytes that wait in the
    transmit buffer, on the library of [DpdkInv]. *)

From S2P Require Import Prelude Util ObjectPool Protocol Driver Address QueueEstimator Dpdk DpdkInv.
Import Driver(IpAddress) Protocol(le_bytes, bswap16).
Import Address(MacAddress, address).
Import Dpdk DpdkInv.

Module DpdkSend.
Section driver.
Context `{DpdkLaws}.
Implicit Types (s : Impl) (r : rte) (m : mbuf) (p : ptr).

(** ** The transmit callback *)

Lemma foldl_total r ms a :
  0 <= a -> a + total r ms < 2 ^ 64 -> foldl (fun n m => u64 (n + rte_pktmbuf_pkt_len m r)) a ms = a + total r ms.
Proof.
  revert a. induction ms as [|m ms IH]; intros a Ha Hb; cbn [foldl total foldr] in *; [lia|]. fold (total r ms) in *.
  pose proof (len_range r m). pose proof (total_bounds r ms). rewrite u64_small by lia. rewrite IH by lia. lia.
Qed.

(** The statistics, in a state. *)
Definition with_stats s (b : Z) q (n : nat) : Impl :=
  s <| bufferedBytes := b |> <| queueEstimator := q |> <| clock_reads := n |>.
Definition estimating (q : QueueEstimator.QueueEstimator) (n : nat) : Prop :=
  QueueEstimator.ok q /\ QueueEstimator.lastUpdateTime q <= steady_clock_nth n.

Lemma wp_txBurstCallback pkts s rest (Q : Z -> Impl -> Prop) :
  bufferedBytes s = total (lib s) pkts + rest -> 0 <= rest -> bufferedBytes s < 2 ^ 64 ->
  estimating (queueEstimator s) (clock_reads s) ->
  (forall q n, estimating q n -> Q (zlength pkts) (with_stats s rest q n)) -> wp (txBurstCallback pkts) s Q.
Proof.
  intros Hb Hr Hlt [Hq Ht] HQ. unfold txBurstCallback, rte_get. wp_step. wp_step. pose proof (total_bounds (lib s) pkts).
  rewrite foldl_total by lia. repeat wp_step; [apply Z.leb_le; lia|]. unfold steady_clock_now, estimator_op. repeat wp_step.
  pose proof (clock_mono (clock_reads s)). pose proof (clock_range (clock_reads s)) as Hc.
  pose proof (u32_range (0 + total (lib s) pkts)).
  eapply wp_mono; [apply QueueEstimator.signal_spec; [exact Hq|exact (conj Ht Hc)|lia]|].
  intros [] q (Hq' & Ht' & _). change (clock_reads (_ <| bufferedBytes ::= _ |>)) with (clock_reads s) in Ht'. wp_step.
  assert (estimating q (S (clock_reads s))) as He by (split; [done|lia]). specialize (HQ _ _ He).
  unfold with_stats in HQ. replace rest with (u64 (bufferedBytes s - (0 + total (lib s) pkts))) in HQ by (rewrite u64_small; lia).
  exact HQ.
Qed.

Lemma with_stats_twice s b q n b' q' n' : with_stats (with_stats s b q n) b' q' n' = with_stats s b' q' n'.
Proof. done. Qed.

(** The callback sees every burst; what stays buffered is [rest]. *)
Lemma wp_rte_tx f s rest (Q : unit -> Impl -> Prop) :
  let '(bursts, r') := f (lib s) in
  bufferedBytes s = total (lib s) (concat bursts) + rest -> 0 <= rest -> bufferedBytes s < 2 ^ 64 ->
  estimating (queueEstimator s) (clock_reads s) ->
  (forall q n, estimating q n -> Q tt ((with_stats s rest q n) <| lib := r' |>)) -> wp (rte_tx f) s Q.
Proof.
  destruct (f (lib s)) as [bursts r'] eqn:Hf. intros Hb Hr Hlt He HQ. unfold rte_tx. wp_step. wp_step. rewrite Hf. wp_step.
  apply (wp_for_each (fun bs s' => exists b q n, s' = with_stats s b q n /\ estimating q n /\
    b = total (lib s) (concat bs) + rest /\ b < 2 ^ 64)).
  - exists (bufferedBytes s), (queueEstimator s), (clock_reads s). split_and!; [by destruct s|done|done|done].
  - intros ms bs s' (b & q & n & -> & He' & -> & Hlt'). cbn [concat] in *. rewrite total_app in *. pose proof (total_bounds (lib s) ms).
    pose proof (total_bounds (lib s) (concat bs)). wp_step.
    apply (wp_txBurstCallback _ _ (total (lib s) (concat bs) + rest)); [|lia|done|done|].
    { change (lib (with_stats s _ _ _)) with (lib s). change (bufferedBytes (with_stats s ?b _ _)) with b. by rewrite Z.add_assoc. }
    intros q' n' He2. wp_step. exists (total (lib s) (concat bs) + rest), q', n'. split_and!; [done|done|done|lia].
  - intros s' (b & q & n & -> & He' & Hb' & _). wp_step. cbn [concat total foldr] in Hb'. rewrite Z.add_0_l in Hb'. subst b. by apply HQ.
Qed.

(** ** Handing an mbuf to the transmit buffer *)

Lemma tx_small r : valid r -> total r (tx_queue r) <= 2 ^ 32 * MAX_PKT_BURST.
Proof. intros Hv. pose proof (tx_bound r Hv). pose proof (total_bounds r (tx_queue r)). lia. Qed.

Lemma Inv_estimating s : Inv s -> estimating (queueEstimator s) (clock_reads s).
Proof. intros Hi. destruct (inv_stats _ Hi) as [_ ? ?]. done. Qed.

(** The parts that sending does not touch. *)
Definition same_packets s s' : Prop :=
  packetPool s' = packetPool s /\ overflowBufferPool s' = overflowBufferPool s /\ corked s' = corked s /\
  arpTable s' = arpTable s /\ localMac s' = localMac s /\ localIp s' = localIp s.

Lemma Inv_transmitted s b q n r' refs' changed :
  Inv s -> estimating q n -> moves (lib s) r' refs' (tx_queue r') (ring (lib s)) changed -> (forall m, Decision (changed m)) ->
  b = total r' (tx_queue r') -> (forall m, m ∈ ring (lib s) -> refs' m = 0) ->
  (forall m, held (packets s) m -> 0 < refs' m /\ ~ changed m) -> Inv ((with_stats s b q n) <| lib := r' |>).
Proof.
  intros Hi [Hq Ht] Hm Hdec Hb Hring Hheld. pose proof Hi as [Hpk Hrf Hst Hmac]. split; [done| |by split|done].
  eapply (refs_ok_moves (packets s) (lib s)); [done|exact Hm|apply Hrf|done| |done].
  intros m Hh. destruct (Hheld m Hh). by split.
Qed.

(** [len] counts for a buffer that holds [m] as well. *)
Lemma wp_tx_buffer s m (Q : unit -> Impl -> Prop) :
  Inv s -> 0 < refs (lib s) m -> (held (packets s) m -> 1 < refs (lib s) m) ->
  (forall s', Inv s' -> same_packets s s' -> ring (lib s') = ring (lib s) -> live (lib s') m \/ m ∉ tx_queue (lib s') ->
    (zlength (tx_queue (lib s)) + 1 < MAX_PKT_BURST ->
      tx_queue (lib s') = tx_queue (lib s) ++ [m] /\ data (lib s') m = data (lib s) m) ->
    (let '(bursts, r') := rte_eth_tx_buffer m (lib s) in
     lib s' = r' /\ concat bursts ++ tx_queue r' = tx_queue (lib s) ++ [m]) -> Q tt s') ->
  wp (len ← rte_get (rte_pktmbuf_pkt_len m); _ ← modify (fun s => s <| bufferedBytes ::= fun n => u64 (n + len) |>);
      rte_tx (rte_eth_tx_buffer m)) s Q.
Proof.
  intros Hi Hm Hh HQ. pose proof Hi as [Hpk Hrf Hst Hmac]. pose proof (lib_valid _ _ Hrf) as Hv.
  unfold rte_get. wp_step. wp_step. wp_step. wp_step. set (s1 := s <| bufferedBytes ::= _ |>).
  pose proof (tx_buffer_law (lib s) m Hv Hm) as Hlaw. pose proof (wp_rte_tx (rte_eth_tx_buffer m) s1) as Htx.
  change (lib s1) with (lib s) in Htx. destruct (rte_eth_tx_buffer m (lib s)) as [bursts r'].
  destruct Hlaw as (Hcat & Hfull & Hmv). pose proof (tx_small (lib s) Hv). pose proof (len_range (lib s) m).
  pose proof (total_bounds (lib s) (tx_queue (lib s))). pose proof (buffered_exact _ _ _ _ Hst) as Hb.
  assert (bufferedBytes s1 = total (lib s) (concat bursts) + total (lib s) (tx_queue r')) as Hb1.
  { rewrite <- total_app, Hcat, total_app. cbn [total foldr]. change (bufferedBytes s1) with (u64 (bufferedBytes s + rte_pktmbuf_pkt_len m (lib s))).
    unfold MAX_PKT_BURST in *. rewrite u64_small; lia. }
  pose proof (total_bounds (lib s) (tx_queue r')).
  apply (Htx (total (lib s) (tx_queue r'))); [done|lia| |by apply (Inv_estimating s)|].
  { change (bufferedBytes s1) with (u64 (bufferedBytes s + rte_pktmbuf_pkt_len m (lib s))). apply u64_range. }
  intros q n He.
  assert (total (lib s) (tx_queue r') = total r' (tx_queue r')) as Hrest.
  { symmetry. apply total_ext. intros m' Hin. apply (moves_shape _ _ _ _ _ _ Hmv); [by right; left|by intros []]. }
  change (with_stats s1 ?b q n) with (with_stats s b q n). apply HQ.
  - eapply Inv_transmitted; [done|done|exact Hmv|apply none_dec|done| |].
    + intros m' Hin. unfold add_ref. case_decide as E; [subst|by apply ring_refs]. rewrite ring_refs in Hm by done. lia.
    + intros m' Hin. split; [|by intros []]. unfold add_ref. case_decide as E; [subst|by apply held_refs]. specialize (Hh Hin). lia.
  - by repeat split.
  - apply (moves_ring _ _ _ _ _ _ Hmv).
  - change (lib ((with_stats s (total (lib s) (tx_queue r')) q n) <| lib := r' |>)) with r'.
    destruct (decide (m ∈ tx_queue r')); [left; by right; left|by right].
  - intros Hlt. change (tx_queue r' = tx_queue (lib s) ++ [m] /\ data r' m = data (lib s) m). rewrite (Hfull Hlt) in Hcat.
    clear Hfull. cbn in Hcat. split; [done|]. apply (moves_data _ _ _ _ _ _ Hmv); [|by intros []]. right; left. rewrite Hcat. set_solver.
  - split; [done|exact Hcat].
Qed.

Lemma wp_flush s (Q : unit -> Impl -> Prop) :
  Inv s ->
  (forall s', Inv s' -> same_packets s s' -> tx_queue (lib s') = [] -> bufferedBytes s' = 0 -> ring (lib s') = ring (lib s) ->
    (let '(bursts, r') := rte_eth_tx_buffer_flush (lib s) in lib s' = r' /\ concat bursts = tx_queue (lib s)) -> Q tt s') ->
  wp (rte_tx rte_eth_tx_buffer_flush) s Q.
Proof.
  intros Hi HQ. pose proof Hi as [Hpk Hrf Hst Hmac]. pose proof (lib_valid _ _ Hrf) as Hv.
  pose proof (tx_flush_law (lib s) Hv) as Hlaw. pose proof (wp_rte_tx rte_eth_tx_buffer_flush s 0) as Htx.
  destruct (rte_eth_tx_buffer_flush (lib s)) as [bursts r']. destruct Hlaw as (Hcat & Hmv). pose proof (tx_small (lib s) Hv).
  pose proof (buffered_exact _ _ _ _ Hst) as Hb. apply Htx; [rewrite Hcat; lia|done|unfold MAX_PKT_BURST in *; lia|by apply Inv_estimating|].
  intros q n He. apply HQ; [|by repeat split|apply (moves_tx _ _ _ _ _ _ Hmv)|done|apply (moves_ring _ _ _ _ _ _ Hmv)|done].
  assert (tx_queue r' = []) as Hnil by apply (moves_tx _ _ _ _ _ _ Hmv).
  eapply Inv_transmitted; [done|done|by rewrite Hnil|apply none_dec|by rewrite Hnil|by intros; apply ring_refs|].
  intros m Hin. split; [by apply held_refs|by intros []].
Qed.

(** ** The frame *)

(** Header and payload of the frame, as they go over the wire. *)
Definition frame_header (destMac localMac : MacAddress) (pcp : Z) (localIp : IpAddress) : list Z :=
  address destMac ++ address localMac ++ le_bytes 2 (bswap16 ETHER_TYPE_VLAN) ++
  le_bytes 2 (bswap16 pcp) ++ le_bytes 2 (bswap16 HOMA) ++ le_bytes 4 localIp.

Lemma write_front (pre bs l : list Z) off :
  off = zlength pre -> write_at off bs (pre ++ drop (Z.to_nat off) l) = (pre ++ bs) ++ drop (Z.to_nat (off + zlength bs)) l.
Proof.
  intros ->. unfold write_at, zlength. rewrite !Nat2Z.id, take_app_length, drop_app, drop_drop, <- app_assoc.
  rewrite (drop_ge pre) by lia. cbn [app]. do 3 f_equal. lia.
Qed.

(** The library after writes in [m]: only bytes changed, those of [m] to [d]. *)
Record written r r' m (d : list Z) : Prop := {
  written_refs m' : refs r' m' = refs r m';
  written_tx : tx_queue r' = tx_queue r;
  written_ring : ring r' = ring r;
  written_shape m' : same_shape r r' m';
  written_data : data r' m = d
}.

Lemma written_refl r m : written r r m (data r m).
Proof. by split. Qed.

Lemma written_live r r' m d m' : written r r' m d -> live r' m' <-> live r m'.
Proof. intros [Hr Ht Hg _ _]. unfold live. by rewrite Hr, Ht, Hg. Qed.

(** One more write, in front of bytes that were there at first. *)
Lemma wp_store_front s r m off pre l bs s' (Q : unit -> Impl -> Prop) :
  Inv s' -> written r (lib s') m (pre ++ drop (Z.to_nat off) l) -> 0 < refs r m -> nb_segs m r = 1 ->
  off = zlength pre -> off + zlength bs <= zlength l -> (exists r', s' = s <| lib := r' |>) ->
  (forall s2, Inv s2 -> (exists r', s2 = s <| lib := r' |>) ->
     written r (lib s2) m ((pre ++ bs) ++ drop (Z.to_nat (off + zlength bs)) l) -> Q tt s2) ->
  wp (rte_do (rte_store m off bs)) s' Q.
Proof.
  intros Hi [Hr Ht Hg Hsh Hd] Hm Hs Ho Hl [r1 ->] HQ. unfold rte_do. wp_step. cbn [lib] in *.
  pose proof (zlength_nonneg pre). destruct (Hsh m) as [_ Hs'].
  assert (0 < refs r1 m) as Hm1 by (change (0 < refs (lib (s <| lib := r1 |>)) m); by rewrite Hr).
  assert (nb_segs m r1 <= 1) as Hs1 by (change (nb_segs m (lib (s <| lib := r1 |>)) <= 1); rewrite Hs'; lia).
  assert (off + zlength bs <= zlength (data r1 m)) as Hl1.
  { change r1 with (lib (s <| lib := r1 |>)). rewrite Hd, zlength_app. unfold zlength in *. rewrite length_drop. lia. }
  destruct (store_law r1 m off bs (lib_valid _ _ (inv_refs _ Hi)) Hm1 Hs1 ltac:(lia) Hl1) as (Hmv & Hsh2 & Hd2 & _).
  apply HQ; [by apply (Inv_store (s <| lib := r1 |>) m off bs); [| | |lia|]|by eexists|].
  change (written r (rte_store m off bs r1) m ((pre ++ bs) ++ drop (Z.to_nat (off + zlength bs)) l)). split.
  - intros m'. rewrite (moves_refs _ _ _ _ _ _ Hmv). apply Hr.
  - rewrite (moves_tx _ _ _ _ _ _ Hmv). apply Ht.
  - rewrite (moves_ring _ _ _ _ _ _ Hmv). apply Hg.
  - intros m'. destruct (Hsh m') as [E1 E2], (Hsh2 m') as [E3 E4]. split; [exact (eq_trans E3 E1)|exact (eq_trans E4 E2)].
  - rewrite Hd2. change (data r1 m) with (data (lib (s <| lib := r1 |>)) m). rewrite Hd. by apply write_front.
Qed.

Lemma mac_size a : Address.mac_ok a -> zlength (address a) = 6.
Proof. intros [Hl _]. unfold zlength. by rewrite Hl. Qed.

Lemma wp_fill_header s m destMac priority pcp (Q : unit -> Impl -> Prop) :
  Inv s -> 0 < refs (lib s) m -> nb_segs m (lib s) = 1 -> PACKET_HDR_LEN <= zlength (data (lib s) m) ->
  Address.mac_ok destMac -> 0 <= priority -> PRIORITY_TO_PCP !! Z.to_nat priority = Some pcp ->
  (forall s', Inv s' -> (exists r', s' = s <| lib := r' |>) ->
     written (lib s) (lib s') m (frame_header destMac (localMac s) pcp (localIp s) ++ drop (Z.to_nat PACKET_HDR_LEN) (data (lib s) m)) ->
     Q tt s') ->
  wp (fill_header m destMac priority) s Q.
Proof.
  intros Hi Hm Hs Hl Hmac Hp Hpcp HQ. pose proof (inv_macs _ Hi) as [Hlm _]. apply mac_size in Hmac, Hlm.
  unfold fill_header. rewrite (proj2 (Z.leb_le _ _) Hp), Hpcp. set (d := data (lib s) m) in *.
  pose proof (written_refl (lib s) m) as W. fold d in W.
  assert (zlength d = 22 + (zlength d - 22)) as Hd by lia. change PACKET_HDR_LEN with 22 in *.
  do 4 wp_step. wp_step.
  eapply (wp_store_front s _ _ _ [] d); [done|exact W|done|done|done|rewrite Hmac; lia|by exists (lib s); rewrite set_lib_same|].
  clear W. intros s1 Hi1 He1 W. wp_step.
  eapply (wp_store_front s _ _ _ _ d); [done| |done|done| | |exact He1|];
    [replace 6 with (0 + zlength (address destMac)) by lia; exact W|cbn [app]; lia|rewrite Hlm; lia|].
  clear W. intros s2 Hi2 He2 W. wp_step.
  eapply (wp_store_front s _ _ _ _ d); [done| |done|done| | |exact He2|];
    [replace 12 with (6 + zlength (address (localMac s))) by lia; exact W|rewrite !zlength_app; cbn [app]; change (zlength []) with 0; lia|rewrite Protocol.zlength_le_bytes; lia|].
  clear W. intros s3 Hi3 He3 W. wp_step.
  eapply (wp_store_front s _ _ _ _ d); [done| |done|done| | |exact He3|];
    [exact W|rewrite !zlength_app, Protocol.zlength_le_bytes; change (zlength []) with 0; lia|rewrite Protocol.zlength_le_bytes; lia|].
  clear W. intros s4 Hi4 He4 W. wp_step.
  eapply (wp_store_front s _ _ _ _ d); [done| |done|done| | |exact He4|];
    [exact W|rewrite !zlength_app, !Protocol.zlength_le_bytes; change (zlength []) with 0; lia|rewrite Protocol.zlength_le_bytes; lia|].
  clear W. intros s5 Hi5 He5 W.
  eapply (wp_store_front s _ _ _ _ d); [done| |done|done| | |exact He5|];
    [exact W|rewrite !zlength_app, !Protocol.zlength_le_bytes; change (zlength []) with 0; change (22 - 4) with 18; lia|rewrite Protocol.zlength_le_bytes; change (22 - 4) with 18; lia|].
  clear W. intros s6 Hi6 He6 W. apply HQ; [done|done|]. unfold frame_header. rewrite <- !app_assoc in *. cbn [app] in W. exact W.
Qed.

(** A library step after which [m] is in hand with the bytes [d], and that the
    queues do not see. *)
Record ready r r' m (d : list Z) : Prop := {
  ready_refs : refs r' m = refs r m;
  ready_held m' : m' <> m -> refs r' m' = refs r m';
  ready_tx : tx_queue r' = tx_queue r;
  ready_ring : ring r' = ring r;
  ready_segs : nb_segs m r' = 1;
  ready_data : data r' m = d
}.

Lemma wp_trim_to s m len (Q : unit -> Impl -> Prop) :
  Inv s -> 0 < refs (lib s) m -> nb_segs m (lib s) = 1 -> m ∉ tx_queue (lib s) ->
  0 <= len -> PACKET_HDR_LEN + len <= zlength (data (lib s) m) <= PACKET_HDR_LEN + MAX_PAYLOAD_SIZE ->
  (forall r', Inv (s <| lib := r' |>) ->
     ready (lib s) r' m (take (Z.to_nat (PACKET_HDR_LEN + len)) (data (lib s) m)) -> Q tt (s <| lib := r' |>)) ->
  wp (trim_to m len) s Q.
Proof.
  intros Hi Hm Hs Htx Hl Hd HQ. pose proof (lib_valid _ _ (inv_refs _ Hi)) as Hv.
  unfold trim_to, rte_get. do 2 wp_step. rewrite (len_data (lib s)) by (done || lia || by apply live_refs).
  change PACKET_HDR_LEN with 22 in *. change MAX_PAYLOAD_SIZE with 1500 in *. rewrite u32_small by lia. set (d := data (lib s) m) in *.
  destruct (Z.ltb_spec (22 + len) (zlength d)) as [Hlt|Hge].
  - wp_step. apply wp_rte_op. rewrite u16_small by lia.
    pose proof (trim_law (lib s) m (zlength d - (22 + len)) Hv Hm Hs ltac:(lia)) as Hlaw.
    destruct (rte_pktmbuf_trim m (zlength d - (22 + len)) (lib s)) as [ok r']. destruct Hlaw as (Hmv & Hs' & Hcut).
    destruct Hcut as [_ Hcut]; [fold d; lia|]. wp_step. apply HQ; [eapply Inv_change; [done|exact Hmv|done|lia]|]. split.
    + apply (moves_refs _ _ _ _ _ _ Hmv).
    + intros. apply (moves_refs _ _ _ _ _ _ Hmv).
    + apply (moves_tx _ _ _ _ _ _ Hmv).
    + apply (moves_ring _ _ _ _ _ _ Hmv).
    + done.
    + rewrite Hcut. fold d. f_equal. lia.
  - wp_step. rewrite <- (set_lib_same s). apply HQ; [by rewrite set_lib_same|]. split; [done..|]. fold d.
    rewrite take_ge; [done|]. unfold zlength in *. lia.
Qed.

(** The bytes of a packet. *)
Definition payload_bytes s (k : Packet) : list Z :=
  match bufRef k with
  | MBUF m => slice (payload_off k) (length k) (data (lib s) m)
  | OVERFLOW_BUF b =>
      match objects (overflowBufferPool s) !! b with Some d => slice (payload_off k) (length k) d | None => [] end
  end.

(** A packet that the application may send: one that it allocated. *)
Definition sendable s (k : Packet) : Prop :=
  0 <= length k <= MAX_PAYLOAD_SIZE /\
  match bufRef k with
  | MBUF m => payload_off k = PACKET_HDR_LEN /\ nb_segs m (lib s) = 1 /\
      PACKET_HDR_LEN + length k <= rte_pktmbuf_pkt_len m (lib s) <= PACKET_HDR_LEN + MAX_PAYLOAD_SIZE
  | OVERFLOW_BUF _ => payload_off k = 0
  end.

(** The mbuf that goes out. *)
Record outgoing s s' (k : Packet) m : Prop := {
  outgoing_inv : Inv s';
  outgoing_refs : 0 < refs (lib s') m;
  outgoing_segs : nb_segs m (lib s') = 1;
  outgoing_tx : (m ∉ tx_queue (lib s')) /\ tx_queue (lib s') = tx_queue (lib s);
  outgoing_ring : ring (lib s') = ring (lib s);
  outgoing_size : PACKET_HDR_LEN + length k <= zlength (data (lib s') m) <= PACKET_HDR_LEN + MAX_PAYLOAD_SIZE;
  outgoing_payload : slice PACKET_HDR_LEN (length k) (data (lib s') m) = payload_bytes s k;
  outgoing_held : match bufRef k with MBUF m' => m' = m | OVERFLOW_BUF _ => ~ held (packets s) m end
}.

(** There is no mbuf to send: the packet's own is still being sent, or none is left
    for the bytes of its overflow buffer. *)
Definition no_mbuf s (k : Packet) : Prop :=
  match bufRef k with
  | MBUF m => 1 < rte_mbuf_refcnt_read m (lib s)
  | OVERFLOW_BUF _ => exists s', alloc_append (PACKET_HDR_LEN + length k) s = Ok (None, s')
  end.

Lemma wp_mbuf_to_send s p k (Q : option mbuf -> Impl -> Prop) :
  Inv s -> packets s !! p = Some k -> sendable s k ->
  (forall r', no_mbuf s k -> Inv (s <| lib := r' |>) -> tx_queue r' = tx_queue (lib s) -> ring r' = ring (lib s) ->
     Q None (s <| lib := r' |>)) ->
  (forall m r', outgoing s (s <| lib := r' |>) k m -> Q (Some m) (s <| lib := r' |>)) ->
  wp (mbuf_to_send k) s Q.
Proof.
  intros Hi Hp [Hlen Hbuf] HN HS. pose proof (inv_refs _ Hi) as Hrf. pose proof (lib_valid _ _ Hrf) as Hv.
  unfold mbuf_to_send, no_mbuf in *. destruct (bufRef k) as [m|b] eqn:Hk.
  - destruct Hbuf as (Hoff & Hs & Hroom). destruct (packet_held _ _ Hrf p k m Hp Hk) as [Hm _].
    unfold rte_get. do 2 wp_step. destruct (Z.ltb_spec 1 (rte_mbuf_refcnt_read m (lib s))).
    { wp_step. rewrite <- (set_lib_same s). apply HN; [done|by rewrite set_lib_same|done|done]. }
    wp_step. rewrite <- (set_lib_same s). apply HS. split; rewrite ?Hk.
    + by rewrite set_lib_same.
    + done.
    + done.
    + split; [|done]. intros Hin. apply refs_counted in Hin; [|done]. change (lib (s <| lib := lib s |>)) with (lib s) in Hin. lia.
    + done.
    + change (lib (s <| lib := lib s |>)) with (lib s). rewrite <- (len_data (lib s)); [done|done|by apply live_refs|lia].
    + unfold payload_bytes. rewrite Hk, Hoff. done.
    + done.
  - change MAX_PAYLOAD_SIZE with 1500 in *. wp_step. change PACKET_HDR_LEN with 22 in *. rewrite u32_small by lia.
    assert (is_Some (objects (overflowBufferPool s) !! b)) as [d Hd] by (apply (buffer_owned _ _ _ (inv_packets _ Hi)); eauto).
    pose proof (buffer_size _ _ _ (inv_packets _ Hi) b d Hd) as Hsz. change (8 * MAX_PAYLOAD_SIZE) with 12000 in Hsz.
    apply wp_remember, wp_alloc_append; [done|lia| |].
    { intros r' Hi' Htx Hring Heq. wp_step. apply HN; [by eexists|done..]. }
    intros m r' Hi' Hnl Hr Hs Hl Htx Hring _. wp_step. unfold deref_overflow. do 2 wp_step.
    change (overflowBufferPool (s <| lib := r' |>)) with (overflowBufferPool s). rewrite Hd. wp_step.
    rewrite (proj2 (Z.leb_le 0 _)), (proj2 (Z.leb_le _ (zlength d))) by lia. cbn [andb]. repeat wp_step. unfold rte_do. repeat wp_step.
    assert (zlength (slice 0 (length k) d) = length k) as Hzl by (apply zlength_slice; lia).
    destruct (store_law r' m 22 (slice 0 (length k) d)) as (Hmv & Hsh & Hd2 & _); [apply Hi'|lia|lia|lia|lia|].
    apply (HS m (rte_store m (0 + 22) (slice 0 (length k) d) r')). split; rewrite ?Hk.
    + apply (Inv_store (s <| lib := r' |>) m 22 (slice 0 (length k) d) Hi'); cbn; [change (0 < refs r' m)|change (nb_segs m r' <= 1)| |change (22 + zlength (slice 0 (length k) d) <= zlength (data r' m))]; lia.
    + change (0 < refs (rte_store m 22 (slice 0 (length k) d) r') m). rewrite (moves_refs _ _ _ _ _ _ Hmv). lia.
    + change (nb_segs m (rte_store m 22 (slice 0 (length k) d) r') = 1). destruct (Hsh m) as [_ ->]. done.
    + change ((m ∉ tx_queue (rte_store m 22 (slice 0 (length k) d) r')) /\ tx_queue (rte_store m 22 (slice 0 (length k) d) r') = tx_queue (lib s)).
      rewrite (moves_tx _ _ _ _ _ _ Hmv), Htx. split; [|done]. intros Hin. apply Hnl. by right; left.
    + change (ring (rte_store m 22 (slice 0 (length k) d) r') = ring (lib s)). by rewrite (moves_ring _ _ _ _ _ _ Hmv).
    + change (22 + length k <= zlength (data (rte_store m 22 (slice 0 (length k) d) r') m) <= 22 + 1500).
      rewrite Hd2, zlength_write_at by lia. lia.
    + change (slice 22 (length k) (data (rte_store m 22 (slice 0 (length k) d) r') m) = payload_bytes s k).
      rewrite Hd2. unfold payload_bytes. rewrite Hk, Hbuf. setoid_rewrite Hd. rewrite <- Hzl at 1. apply slice_write_at_same; lia.
    + by eapply not_in_hand.
Qed.

(** ** sendPacket *)

(** The frame of a packet. *)
Definition frame s (k : Packet) (destMac : MacAddress) (pcp : Z) : list Z :=
  frame_header destMac (localMac s) pcp (localIp s) ++ payload_bytes s k.

Lemma frame_header_size a b pcp ip : Address.mac_ok a -> Address.mac_ok b -> zlength (frame_header a b pcp ip) = PACKET_HDR_LEN.
Proof. intros Ha%mac_size Hb%mac_size. unfold frame_header. rewrite !zlength_app, !Protocol.zlength_le_bytes. change PACKET_HDR_LEN with 22. lia. Qed.

Lemma take_frame (h d pay : list Z) len :
  zlength h = PACKET_HDR_LEN -> 0 <= len -> slice PACKET_HDR_LEN len d = pay ->
  take (Z.to_nat (PACKET_HDR_LEN + len)) (h ++ drop (Z.to_nat PACKET_HDR_LEN) d) = h ++ pay.
Proof.
  intros Hh Hl <-. unfold zlength in Hh. rewrite take_app_ge by lia. f_equal. unfold slice. f_equal. lia.
Qed.

(** What sending in the loopback leaves: nothing, or a copy of the mbuf in the ring. *)
Lemma wp_send_loopback s m (Q : unit -> Impl -> Prop) :
  Inv s -> 0 < refs (lib s) m -> nb_segs m (lib s) = 1 ->
  (forall r', Inv (s <| lib := r' |>) -> tx_queue r' = tx_queue (lib s) ->
     (ring r' = ring (lib s) \/ exists c, ring r' = ring (lib s) ++ [c] /\ data r' c = data (lib s) m /\
       rte_pktmbuf_pkt_len c r' = rte_pktmbuf_pkt_len m (lib s) /\ nb_segs c r' = 1) -> Q tt (s <| lib := r' |>)) ->
  wp (send_loopback m) s Q.
Proof.
  intros Hi Hm Hs HQ. pose proof (inv_refs _ Hi) as Hrf. pose proof (lib_valid _ _ Hrf) as Hv. unfold send_loopback.
  wp_step. apply wp_rte_op. pose proof (clone_law (lib s) m Hv Hm) as Hlaw.
  destruct (rte_pktmbuf_clone m (lib s)) as [[c|] r1].
  2: { wp_step. apply HQ; [by apply Inv_idle|apply (moves_tx _ _ _ _ _ _ Hlaw)|left; apply (moves_ring _ _ _ _ _ _ Hlaw)]. }
  destruct Hlaw as (Hnl & Hmv & Hd & Hlen & Hseg). pose proof (Inv_alloc _ _ _ Hi Hnl Hmv) as Hi1.
  assert (refs r1 c = 1) as Hc by (rewrite (moves_refs _ _ _ _ _ _ Hmv), add_ref_self, not_live_refs; done).
  assert (~ held (packets s) c) as Hh by (eapply not_in_hand; [apply Hi|done]).
  wp_step. apply wp_rte_op. change (lib (s <| lib := r1 |>)) with r1.
  pose proof (enqueue_law r1 c (moves_valid _ _ _ _ _ _ Hmv) ltac:(lia)) as Hen.
  destruct (rte_ring_enqueue c r1) as [[] r2].
  - wp_step. rewrite set_lib_twice.
    assert (c ∉ ring r1) as Hcr.
    { rewrite (moves_ring _ _ _ _ _ _ Hmv). intros Hin. apply Hnl. by right; right. }
    assert (live r2 c) as Hlv by (right; right; rewrite (moves_ring _ _ _ _ _ _ Hen); set_solver).
    apply HQ.
    + rewrite <- (set_lib_twice s r1 r2). pose proof (inv_refs _ Hi1) as Hrf1. apply Inv_lib; [done| |].
      * eapply refs_ok_moves; [done|exact Hen| | | |apply none_dec].
        -- apply NoDup_app. split_and!; [apply Hrf1|by intros m' Hin ->%list_elem_of_singleton|apply NoDup_singleton].
        -- intros m' [Hin| ->%list_elem_of_singleton]%elem_of_app; [|rewrite add_ref_self; change (lib (s <| lib := r1 |>)) with r1; lia].
           unfold add_ref. case_decide as E; [by subst|]. by apply Hrf1.
        -- intros m' Hh'. unfold add_ref. case_decide as E; [by subst|]. split; [by apply (held_refs _ _ Hi1)|by intros []].
      * eapply stats_ok_quiet; [apply Hi1|exact Hen|by intros ? ? []].
    + by rewrite (moves_tx _ _ _ _ _ _ Hen), (moves_tx _ _ _ _ _ _ Hmv).
    + right. exists c. split_and!.
      * by rewrite (moves_ring _ _ _ _ _ _ Hen), (moves_ring _ _ _ _ _ _ Hmv).
      * by rewrite (moves_data _ _ _ _ _ _ Hen) by (done || by intros []).
      * destruct (moves_shape _ _ _ _ _ _ Hen c) as [-> _]; [done|by intros []|done].
      * destruct (moves_shape _ _ _ _ _ _ Hen c) as [_ ->]; [done|by intros []|congruence].
  - unfold rte_do. wp_step. assert (Inv (s <| lib := r2 |>)) as Hi2 by (rewrite <- (set_lib_twice s r1 r2); by apply Inv_idle).
    assert (0 < refs r2 c) as Hc2 by (rewrite (moves_refs _ _ _ _ _ _ Hen); lia).
    pose proof (free_law r2 c (moves_valid _ _ _ _ _ _ Hen) Hc2) as Hfr. apply (HQ (rte_pktmbuf_free c r2)).
    + by apply (Inv_free _ c Hi2).
    + by rewrite (moves_tx _ _ _ _ _ _ Hfr), (moves_tx _ _ _ _ _ _ Hen), (moves_tx _ _ _ _ _ _ Hmv).
    + left. by rewrite (moves_ring _ _ _ _ _ _ Hfr), (moves_ring _ _ _ _ _ _ Hen), (moves_ring _ _ _ _ _ _ Hmv).
Qed.

(** What sending the frame [d] through the NIC does: an mbuf with the frame goes to the
    transmit buffer, which is flushed unless the driver is corked.  The bursts that the
    NIC gets, and then what is left in the buffer, are the buffer of before and the
    mbuf behind it; when corked, nothing is handed over as long as there is room. *)
Definition transmitted s s' (d : list Z) : Prop := exists r m,
  data r m = d /\ 0 < refs r m /\ tx_queue r = tx_queue (lib s) /\
  let '(b1, r1) := rte_eth_tx_buffer m r in
  let '(b2, r2) := if corked s <? 1 then rte_eth_tx_buffer_flush r1 else ([], r1) in
  lib s' = r2 /\ concat (b1 ++ b2) ++ tx_queue r2 = tx_queue (lib s) ++ [m] /\
  (corked s < 1 -> tx_queue r2 = [] /\ bufferedBytes s' = 0) /\
  (1 <= corked s -> zlength (tx_queue (lib s)) + 1 < MAX_PKT_BURST ->
     tx_queue r2 = tx_queue (lib s) ++ [m] /\ data r2 m = d).

Lemma wp_send_nic s k m (Q : unit -> Impl -> Prop) :
  Inv s -> 0 < refs (lib s) m -> match bufRef k with MBUF m' => m' = m | OVERFLOW_BUF _ => ~ held (packets s) m end ->
  (forall s', Inv s' -> same_packets s s' -> ring (lib s') = ring (lib s) -> transmitted s s' (data (lib s) m) -> Q tt s') ->
  wp (send_nic k m) s Q.
Proof.
  intros Hi Hm Hh HQ. unfold send_nic. wp_step.
  assert (forall s1, Inv s1 -> (exists r1, s1 = s <| lib := r1 |>) -> 0 < refs (lib s1) m -> (held (packets s1) m -> 1 < refs (lib s1) m) ->
    tx_queue (lib s1) = tx_queue (lib s) -> ring (lib s1) = ring (lib s) -> data (lib s1) m = data (lib s) m ->
    wp (len ← rte_get (rte_pktmbuf_pkt_len m); _ ← modify (fun s => s <| bufferedBytes ::= fun n => u64 (n + len) |>);
        _ ← rte_tx (rte_eth_tx_buffer m); c ← gets corked; if c <? 1 then rte_tx rte_eth_tx_buffer_flush else mret tt) s1 Q) as Hrest.
  { intros s1 Hi1 [r1 ->] Hm1 Hh1 Htx Hring Hd. change (lib (s <| lib := r1 |>)) with r1 in *.
    assert (forall k : M Impl unit, wp (_ ← (len ← rte_get (rte_pktmbuf_pkt_len m);
      _ ← modify (fun s => s <| bufferedBytes ::= fun n => u64 (n + len) |>); rte_tx (rte_eth_tx_buffer m)); k) (s <| lib := r1 |>) Q ->
      wp (len ← rte_get (rte_pktmbuf_pkt_len m); _ ← modify (fun s => s <| bufferedBytes ::= fun n => u64 (n + len) |>);
      _ ← rte_tx (rte_eth_tx_buffer m); k) (s <| lib := r1 |>) Q) as Hassoc by done.
    apply Hassoc. clear Hassoc. wp_step. apply wp_tx_buffer; [done..|]. intros s2 Hi2 Hsame Hring2 _ Hbuf Hout. do 2 wp_step.
    change (lib (s <| lib := r1 |>)) with r1 in *. rewrite Htx in Hout, Hbuf.
    destruct Hsame as (Hs1 & Hs2 & Hs3 & Hs4 & Hs5 & Hs6). rewrite Hs3. change (corked (s <| lib := r1 |>)) with (corked s).
    destruct (rte_eth_tx_buffer m r1) as [b1 r2] eqn:E1. destruct Hout as [<- Hcat].
    destruct (Z.ltb_spec (corked s) 1) as [Hlt|Hge].
    - apply wp_flush; [done|]. intros s3 Hi3 (Ht1 & Ht2 & Ht3 & Ht4 & Ht5 & Ht6) Htx3 Hb3 Hr3 Hout3. apply HQ; [done| | |].
      + split_and!; etransitivity; [exact Ht1|exact Hs1|exact Ht2|exact Hs2|exact Ht3|exact Hs3|exact Ht4|exact Hs4|exact Ht5|exact Hs5|exact Ht6|exact Hs6].
      + rewrite Hr3, Hring2. exact Hring.
      + exists r1, m. rewrite E1, (proj2 (Z.ltb_lt _ _)) by done. destruct (rte_eth_tx_buffer_flush (lib s2)) as [b2 r3].
        destruct Hout3 as [<- Hcat3]. split_and!; [done..| |done|lia]. by rewrite Htx3, app_nil_r, concat_app, Hcat3.
    - wp_step. apply HQ; [done|by split_and!|rewrite Hring2; exact Hring|]. exists r1, m. rewrite E1, (proj2 (Z.ltb_ge _ _)) by done.
      split_and!; [done..|by rewrite app_nil_r|lia|]. intros _ Hroom. rewrite <- Hd. by apply Hbuf. }
  destruct (bufRef k) as [m'|b]; [subst m'|].
  - unfold rte_do. wp_step. pose proof (refcnt_law (lib s) m 1 (lib_valid _ _ (inv_refs _ Hi)) Hm ltac:(lia)) as Hmv.
    assert (refs (rte_mbuf_refcnt_update m 1 (lib s)) m = refs (lib s) m + 1) as Hr by by rewrite (moves_refs _ _ _ _ _ _ Hmv), add_ref_self.
    apply Hrest.
    + eapply Inv_moves; [done|exact Hmv| | |by intros ? ? []|apply none_dec].
      * intros m' Hin. unfold add_ref. case_decide as E; [subst|by apply ring_refs]. rewrite ring_refs in Hm by done. lia.
      * intros m' Hin. pose proof (held_refs _ _ Hi Hin). unfold add_ref. split; [case_decide; lia|by intros []].
    + by eexists.
    + change (0 < refs (rte_mbuf_refcnt_update m 1 (lib s)) m). lia.
    + intros _. change (1 < refs (rte_mbuf_refcnt_update m 1 (lib s)) m). lia.
    + apply (moves_tx _ _ _ _ _ _ Hmv).
    + apply (moves_ring _ _ _ _ _ _ Hmv).
    + apply (moves_data _ _ _ _ _ _ Hmv); [left|by intros []]. change (0 < refs (rte_mbuf_refcnt_update m 1 (lib s)) m). lia.
  - wp_step. apply Hrest; [done|by exists (lib s); rewrite set_lib_same|done|done|done|done|done].
Qed.


(** Why sendPacket drops a packet: there is no mbuf to send, the destination has no ARP
    record, or it is this host and the copy for the loopback ring cannot be made. *)
Inductive drop_reason s (k : Packet) (destination : IpAddress) : Prop :=
  | drop_no_mbuf : no_mbuf s k -> drop_reason s k destination
  | drop_no_arp : arpTable s !! destination = None -> drop_reason s k destination
  | drop_loopback : arpTable s !! destination = Some (localMac s) -> drop_reason s k destination.

(** The three ways in which sendPacket ends: the packet is dropped, a copy of its
    frame waits in the loopback ring, or the frame was given to the NIC. *)
Inductive sent s s' (k : Packet) (destination : IpAddress) (priority : Z) : Prop :=
  | sent_dropped :
      drop_reason s k destination ->
      tx_queue (lib s') = tx_queue (lib s) -> ring (lib s') = ring (lib s) -> sent s s' k destination priority
  | sent_loopback destMac pcp c :
      arpTable s !! destination = Some destMac -> destMac = localMac s -> PRIORITY_TO_PCP !! Z.to_nat priority = Some pcp ->
      tx_queue (lib s') = tx_queue (lib s) -> ring (lib s') = ring (lib s) ++ [c] ->
      data (lib s') c = frame s k destMac pcp -> nb_segs c (lib s') = 1 ->
      rte_pktmbuf_pkt_len c (lib s') = PACKET_HDR_LEN + length k -> sent s s' k destination priority
  | sent_nic destMac pcp :
      arpTable s !! destination = Some destMac -> destMac <> localMac s -> PRIORITY_TO_PCP !! Z.to_nat priority = Some pcp ->
      ring (lib s') = ring (lib s) -> transmitted s s' (frame s k destMac pcp) -> sent s s' k destination priority.

Lemma payload_size s p k :
  Inv s -> packets s !! p = Some k -> sendable s k -> zlength (payload_bytes s k) = length k.
Proof.
  intros Hi Hp [Hlen Hbuf]. unfold payload_bytes. destruct (bufRef k) as [m|b] eqn:Hk.
  - destruct Hbuf as (Hoff & Hs & Hl). destruct (packet_held _ _ (inv_refs _ Hi) p k m Hp Hk) as [Hm _].
    rewrite (len_data (lib s)) in Hl; [|apply (inv_refs _ Hi)|by apply live_refs|lia].
    rewrite Hoff. apply zlength_slice; change PACKET_HDR_LEN with 22 in *; lia.
  - assert (is_Some (objects (overflowBufferPool s) !! b)) as [d Hd] by (apply (buffer_owned _ _ _ (inv_packets _ Hi)); eauto).
    setoid_rewrite Hd. pose proof (buffer_size _ _ _ (inv_packets _ Hi) b d Hd) as Hsz. change (8 * MAX_PAYLOAD_SIZE) with 12000 in Hsz.
    change MAX_PAYLOAD_SIZE with 1500 in *. apply zlength_slice; lia.
Qed.

Lemma pcp_defined priority : 0 <= priority < 8 -> exists pcp, PRIORITY_TO_PCP !! Z.to_nat priority = Some pcp.
Proof. intros Hp. apply lookup_lt_is_Some. change (Datatypes.length PRIORITY_TO_PCP) with 8%nat. lia. Qed.

Lemma wp_sendPacket s p k destination priority (Q : unit -> Impl -> Prop) :
  Inv s -> packets s !! p = Some k -> sendable s k -> 0 <= priority < 8 ->
  (forall s', Inv s' -> same_packets s s' -> sent s s' k destination priority -> Q tt s') ->
  wp (sendPacket p destination priority) s Q.
Proof.
  intros Hi Hp Hsend Hprio HQ. pose proof (payload_size s p k Hi Hp Hsend) as Hpay. pose proof Hsend as [Hlen _].
  unfold sendPacket. wp_step. eapply wp_deref_packet; [done|]. wp_step. apply (wp_mbuf_to_send s p); [done..| |].
  { intros r' Hno Hi' Htx Hring. wp_step. apply HQ; [done|done|]. apply sent_dropped; [by apply drop_no_mbuf|done..]. }
  intros m r1 [Hi1 Hm Hs [Hntx Htx] Hring Hsize Hbytes Hheld]. do 2 wp_step. set (s1 := s <| lib := r1 |>) in *.
  change (arpTable s1) with (arpTable s). change (localMac s1) with (localMac s).
  destruct (arpTable s !! destination) as [destMac|] eqn:Harp.
  2: { wp_step. apply HQ; [done|done|]. apply sent_dropped; [by apply drop_no_arp|done..]. }
  destruct (pcp_defined priority Hprio) as [pcp Hpcp]. pose proof (inv_macs _ Hi) as [Hlm Harps]. pose proof (Harps _ _ Harp) as Hdm.
  wp_step. eapply wp_fill_header; [done|done|done|lia|done|lia|done|]. intros s2 Hi2 [r2 ->] [Hr2 Ht2 Hg2 Hsh2 Hd2].
  change (localMac s1) with (localMac s) in Hd2. change (localIp s1) with (localIp s) in Hd2.
  pose proof (frame_header_size destMac (localMac s) pcp (localIp s) Hdm Hlm) as Hhs.
  assert (nb_segs m (lib (s1 <| lib := r2 |>)) = 1) as Hs2 by (destruct (Hsh2 m) as [_ ->]; done).
  wp_step. apply wp_trim_to; [done|by rewrite Hr2|done|by rewrite Ht2|lia| |].
  { rewrite Hd2, zlength_app, Hhs. unfold zlength in *. rewrite length_drop. change PACKET_HDR_LEN with 22 in *. lia. }
  intros r3 Hi3 [Hr3 _ Ht3 Hg3 Hs3 Hd3]. rewrite Hd2, (take_frame _ _ (payload_bytes s k)) in Hd3 by (done || lia).
  fold (frame s k destMac pcp) in Hd3. change ((s1 <| lib := r2 |>) <| lib := r3 |>) with (s <| lib := r3 |>) in *.
  assert (0 < refs r3 m) as Hm3 by (rewrite Hr3, Hr2; done).
  assert (tx_queue r3 = tx_queue (lib s)) as Ht by by rewrite Ht3, Ht2, Htx.
  assert (ring r3 = ring (lib s)) as Hg by by rewrite Hg3, Hg2, Hring.
  assert (rte_pktmbuf_pkt_len m r3 = PACKET_HDR_LEN + length k) as Hl3.
  { rewrite (len_data r3), Hd3 by (apply Hi3 || by apply live_refs || lia). unfold frame. rewrite zlength_app, Hhs, Hpay. done. }
  destruct (Address.equal (localMac s) destMac) eqn:He.
  - apply (Address.equal_spec _ _ Hlm Hdm) in He. apply wp_send_loopback; [done|done|done|].
    intros r4 Hi4 Ht4 [Hg4|(c & Hg4 & Hc & Hcl & Hcs)]; (apply HQ; [done|done|]).
    + apply sent_dropped; [apply drop_loopback; congruence|by etransitivity|by etransitivity].
    + eapply (sent_loopback _ _ _ _ _ destMac pcp c); [done|done|done|by etransitivity|by etransitivity; [exact Hg4|f_equal]|
        by etransitivity|done|by etransitivity].
  - assert (destMac <> localMac s) as Hne by (intros ->; assert (Address.equal (localMac s) (localMac s) = true) by (by apply (Address.equal_spec _ _ Hlm Hlm)); congruence).
    apply wp_send_nic; [done|done|done|]. intros s4 Hi4 Hsame Hg4 (r4 & m4 & Hd4 & Hm4 & Htx4 & Hout). apply HQ; [done|exact Hsame|].
    change (lib (s <| lib := r3 |>)) with r3 in *. change (corked (s <| lib := r3 |>)) with (corked s) in Hout. rewrite Ht, Hd3 in *.
    eapply (sent_nic _ _ _ _ _ destMac pcp); [done|done|done|by etransitivity|]. by exists r4, m4.
Qed.

Lemma wp_uncork s (Q : unit -> Impl -> Prop) :
  Inv s ->
  (forall s', Inv s' -> packetPool s' = packetPool s -> corked s' = i32 (corked s - 1) ->
     (corked s = 1 -> tx_queue (lib s') = [] /\ bufferedBytes s' = 0 /\
        let '(bursts, r') := rte_eth_tx_buffer_flush (lib s) in lib s' = r' /\ concat bursts = tx_queue (lib s)) -> Q tt s') ->
  wp uncork s Q.
Proof.
  intros Hi HQ. unfold uncork. do 4 wp_step. set (s1 := s <| corked ::= _ |>).
  assert (Inv s1) as Hi1 by by destruct Hi. destruct (Z.eqb_spec (corked s) 1) as [Hc|Hc].
  - apply wp_flush; [done|]. intros s' Hi' (Hp & _ & Hck & _) Ht Hb _ Hout. by apply HQ.
  - wp_step. by apply HQ.
Qed.
End driver.
End DpdkSend.
