(* ===== verification/DpdkReceive.v ===== *)
(** * DpdkReceive: what receivePackets does

    Taking mbufs from the loopback ring and from the NIC, filtering them, and the
    packets that are handed out, on the library of [DpdkInv]. *)

From S2P Require Import Prelude Util ObjectPool Protocol Driver Address QueueEstimator Dpdk DpdkInv.
Import Driver(IpAddress) Protocol(le_bytes, read_le, bswap16).
Import Dpdk DpdkInv.

Module DpdkReceive.
Section driver.
Context `{DpdkLaws}.
Implicit Types (s : Impl) (r : rte) (m : mbuf) (p : ptr).

(** ** Frames *)

(** [parse_ether] on the bytes of the frame. *)
Definition parse_data (d : list Z) : Z * Z :=
  let ether_type := read_le 12 2 d in
  if ether_type =? bswap16 ETHER_TYPE_VLAN then (read_le 16 2 d, 18) else (ether_type, 14).

(** Frames on which the assertions of receivePackets hold. *)
Definition acceptable r m : Prop :=
  1 < nb_segs m r \/
  (parse_data (data r m)).2 + 4 <= zlength (data r m) <= (parse_data (data r m)).2 + 4 + MAX_PAYLOAD_SIZE.

Lemma parse_data_header d : (parse_data d).2 = 14 \/ (parse_data d).2 = 18.
Proof. unfold parse_data. case_match; auto. Qed.

Lemma load_le r m off n :
  valid r -> live r m -> nb_segs m r <= 1 -> 0 <= off -> 0 <= n -> off + n <= zlength (data r m) ->
  read_le 0 n (rte_load m off n r) = read_le off n (data r m).
Proof.
  intros. rewrite load_data by done. unfold read_le. f_equal. apply slice_all. by rewrite zlength_slice.
Qed.

Lemma parse_ether_data r m :
  valid r -> live r m -> nb_segs m r <= 1 -> 18 <= zlength (data r m) -> parse_ether m r = parse_data (data r m).
Proof.
  intros. unfold parse_ether, parse_data. change (ETHER_HDR_LEN + 2) with 16. rewrite !load_le by (done || lia). done.
Qed.

(** The header is in the first 18 bytes. *)
Lemma slice_prefix {A} (l l' : list A) n off k :
  slice 0 n l = slice 0 n l' -> 0 <= off -> 0 <= k -> off + k <= n -> slice off k l = slice off k l'.
Proof.
  intros Hn Ho Hk Hle. unfold slice in *. cbn [drop Z.to_nat] in Hn. 
  assert (forall l0 : list A, take (Z.to_nat k) (drop (Z.to_nat off) l0) = take (Z.to_nat k) (drop (Z.to_nat off) (take (Z.to_nat n) l0))) as Hcut.
  { intros l0. rewrite skipn_firstn_comm, take_take. f_equal. lia. }
  rewrite (Hcut l), (Hcut l'). do 2 f_equal. exact Hn.
Qed.

Lemma parse_data_prefix d d' n : 18 <= n -> slice 0 n d' = slice 0 n d -> parse_data d' = parse_data d.
Proof. intros Hn Hpre. unfold parse_data, read_le. by rewrite !(slice_prefix d' d n) by (done || lia). Qed.

Lemma acceptable_prefix r r' m n :
  acceptable r m -> 18 <= n -> slice 0 n (data r' m) = slice 0 n (data r m) ->
  zlength (data r' m) = zlength (data r m) -> nb_segs m r' = nb_segs m r -> acceptable r' m.
Proof.
  intros [Hs|Ha] Hn Hpre Hlen Hsegs; [left; lia|right].
  by rewrite (parse_data_prefix (data r m) _ n), Hlen.
Qed.

Lemma acceptable_same r r' m : acceptable r m -> data r' m = data r m -> same_shape r r' m -> acceptable r' m.
Proof. unfold acceptable. by intros Ha -> [_ ->]. Qed.

(** ** Taking mbufs *)

(** The mbufs that a call has taken and not dealt with. *)
Definition hand s (ms : list mbuf) : Prop :=
  NoDup ms /\ forall m, m ∈ ms -> 0 < refs (lib s) m /\ ~ held (packets s) m.

(** A library step that leaves every mbuf in use as it is. *)
Definition unchanged r r' : Prop :=
  tx_queue r' = tx_queue r /\ forall m, live r m -> live r' m /\ data r' m = data r m /\ same_shape r r' m.

Lemma unchanged_refl r : unchanged r r.
Proof. by split. Qed.
Lemma unchanged_trans r1 r2 r3 : unchanged r1 r2 -> unchanged r2 r3 -> unchanged r1 r3.
Proof.
  intros [Ht1 E1] [Ht2 E2]. split; [congruence|]. intros m Hm. destruct (E1 m Hm) as (Hl & Hd & Hs1 & Hs2).
  destruct (E2 m Hl) as (? & ? & ? & ?). split_and!; [done|congruence|]. split; congruence.
Qed.

Lemma wp_dequeue_loop n s (Q : list mbuf -> Impl -> Prop) :
  Inv s -> (n <= Datatypes.length (ring (lib s)))%nat ->
  (forall r', Inv (s <| lib := r' |>) -> unchanged (lib s) r' -> ring r' = drop n (ring (lib s)) ->
     (forall m, refs r' m = if decide (m ∈ take n (ring (lib s))) then 1 else refs (lib s) m) ->
     Q (take n (ring (lib s))) (s <| lib := r' |>)) ->
  wp (dequeue_loop n) s Q.
Proof.
  revert s Q. induction n as [|n IH]; intros s Q Hi Hn HQ; cbn [dequeue_loop].
  - wp_step. specialize (HQ (lib s)). rewrite set_lib_same in HQ. apply HQ; [done|apply unchanged_refl|done|].
    intros m. case_decide as E; [|done]. cbn in E. set_solver.
  - destruct (ring (lib s)) as [|m ms] eqn:Hring; [cbn in Hn; lia|].
    pose proof (inv_refs _ Hi) as Hrf. destruct (dequeue_law (lib s) m ms (lib_valid _ _ Hrf) Hring) as (r1 & Hdq & Hmv).
    pose proof (ring_nodup _ _ Hrf) as Hnd. rewrite Hring in Hnd. apply NoDup_cons in Hnd as [Hnin Hnd].
    assert (refs (lib s) m = 0) as Hm0 by (apply Hrf; rewrite Hring; by left).
    wp_step. apply wp_rte_op. rewrite Hdq. wp_step.
    assert (Inv (s <| lib := r1 |>)) as Hi1.
    { apply Inv_lib; [done| |].
      - eapply refs_ok_moves; [done|exact Hmv|done| | |apply none_dec].
        + intros m' Hin. unfold add_ref. rewrite decide_False by congruence. apply Hrf. rewrite Hring. by right.
        + intros m' Hh. pose proof (held_refs _ _ Hi Hh). split; [unfold add_ref; case_decide; lia|by intros []].
      - eapply stats_ok_quiet; [apply Hi|exact Hmv|by intros ? ? []]. }
    pose proof (moves_ring _ _ _ _ _ _ Hmv) as Hring1.
    apply IH; [done|change (lib (s <| lib := r1 |>)) with r1; rewrite Hring1; cbn in Hn; lia|].
    intros r2 Hi2 Hun Hr2 Hrefs. change (lib (s <| lib := r1 |>)) with r1 in *. rewrite Hring1 in *. wp_step.
    apply (HQ r2); [done| |done|].
    + eapply unchanged_trans; [|exact Hun]. split; [apply (moves_tx _ _ _ _ _ _ Hmv)|]. intros m' Hl.
      assert (live r1 m') as Hl1.
      { eapply moves_live; [exact Hmv|]. unfold add_ref. destruct Hl as [Hl|[Hl|Hl]]; [left; case_decide; lia|by right; left|].
        rewrite Hring in Hl. apply elem_of_cons in Hl as [->|Hl]; [left; rewrite decide_True by done; lia|by right; right]. }
      split_and!; [done|by apply (moves_data _ _ _ _ _ _ Hmv); [|intros []]|by apply (moves_shape _ _ _ _ _ _ Hmv); [|intros []]].
    + intros m'. rewrite Hrefs, (moves_refs _ _ _ _ _ _ Hmv). cbn [take]. unfold add_ref.
      repeat case_decide; try done; subst; try set_solver; lia.
Qed.

(** How many mbufs a call takes from the ring. *)
Definition from_ring (maxPackets : Z) r : Z := Z.min (zlength (ring r)) (Z.min maxPackets MAX_PACKETS_AT_ONCE / 2).

Lemma wp_take_mbufs maxPackets s (Q : list mbuf -> Impl -> Prop) :
  Inv s -> 0 <= maxPackets ->
  (forall incoming r',
     let n := Z.to_nat (from_ring maxPackets (lib s)) in
     let ms := take n (ring (lib s)) ++ incoming in
     Inv (s <| lib := r' |>) -> unchanged (lib s) r' -> ring r' = drop n (ring (lib s)) ->
     hand (s <| lib := r' |>) ms -> zlength ms <= Z.min maxPackets MAX_PACKETS_AT_ONCE -> Q ms (s <| lib := r' |>)) ->
  wp (take_mbufs maxPackets) s Q.
Proof.
  intros Hi Hmx HQ. pose proof (inv_refs _ Hi) as Hrf. unfold take_mbufs, rte_get. wp_step. wp_step. rewrite count_law by apply Hrf.
  assert ((if MAX_PACKETS_AT_ONCE <? maxPackets then MAX_PACKETS_AT_ONCE else maxPackets) = Z.min maxPackets MAX_PACKETS_AT_ONCE) as ->.
  { destruct (Z.ltb_spec MAX_PACKETS_AT_ONCE maxPackets); lia. }
  fold (from_ring maxPackets (lib s)). set (k := from_ring maxPackets (lib s)).
  assert (0 <= k <= zlength (ring (lib s)) /\ k <= Z.min maxPackets MAX_PACKETS_AT_ONCE) as [Hk Hk2].
  { unfold k, from_ring. change MAX_PACKETS_AT_ONCE with 32. pose proof (zlength_nonneg (ring (lib s))). Z.to_euclidean_division_equations. lia. }
  change MAX_PACKETS_AT_ONCE with 32 in *. wp_step. apply wp_dequeue_loop; [done|unfold zlength in Hk; lia|].
  intros r1 Hi1 Hun Hring Hrefs. wp_step. apply downCast_u16_small; [lia|]. wp_step. apply wp_rte_op. change (lib (s <| lib := r1 |>)) with r1.
  pose proof (rx_law r1 (Z.min maxPackets 32 - k) (lib_valid _ _ (inv_refs _ Hi1)) ltac:(lia)) as Hrx.
  destruct (rte_eth_rx_burst (Z.min maxPackets 32 - k) r1) as [incoming r2]. destruct Hrx as (Hnum & Hnd & Hfresh & Hmv).
  rewrite Forall_forall in Hfresh. wp_step. rewrite set_lib_twice.
  assert (forall m, live r1 m -> m ∉ incoming) as Hnew by (intros m Hl Hin; by apply (Hfresh m Hin)).
  assert (Inv (s <| lib := r2 |>)) as Hi2.
  { rewrite <- (set_lib_twice s r1 r2). eapply Inv_moves; [done|exact Hmv| | | |apply _].
    - intros m Hin. cbv beta. rewrite decide_False by (apply Hnew; right; by right). by apply (ring_refs _ _ Hi1).
    - intros m Hh. pose proof (held_refs _ _ Hi1 Hh) as Hr. assert (m ∉ incoming) by (apply Hnew; by left). cbv beta. by rewrite decide_False.
    - intros m Hin Hin2. eapply Hnew; [|done]. right. by left. }
  assert (forall m, m ∈ take (Z.to_nat k) (ring (lib s)) -> refs r1 m = 1) as Hone by (intros m Hin; rewrite Hrefs; by rewrite decide_True).
  apply (HQ incoming r2); [done| | | |].
  - eapply unchanged_trans; [done|]. split; [apply (moves_tx _ _ _ _ _ _ Hmv)|]. intros m Hl. pose proof (Hnew m Hl).
    assert (live r2 m) by (eapply moves_live; [exact Hmv|]; cbv beta; by rewrite decide_False).
    split_and!; [done|by apply (moves_data _ _ _ _ _ _ Hmv)|by apply (moves_shape _ _ _ _ _ _ Hmv)].
  - by rewrite (moves_ring _ _ _ _ _ _ Hmv).
  - split.
    + apply NoDup_app. split_and!; [|intros m Hin; apply Hnew; left; rewrite Hone by done; lia|done].
      eapply sublist_NoDup; [apply Hrf|apply sublist_take].
    + change (lib (s <| lib := r2 |>)) with r2. intros m Hin. rewrite (moves_refs _ _ _ _ _ _ Hmv).
      apply elem_of_app in Hin as [Hin|Hin].
      * rewrite decide_False by (apply Hnew; left; rewrite Hone by done; lia). rewrite Hone by done. split; [lia|].
        intros Hh. apply (held_refs s) in Hh; [|done]. rewrite (ring_refs s) in Hh; [lia|done|]. eapply elem_of_sublist; [done|apply sublist_take].
      * rewrite decide_True by done. split; [lia|]. intros Hh. apply (Hfresh m Hin). left. by apply (held_refs _ _ Hi1).
  - fold k. rewrite zlength_app. assert (zlength (take (Z.to_nat k) (ring (lib s))) = k); [|lia]. unfold zlength in *. rewrite length_take. lia.
Qed.

(** ** Handing out packets *)

(** A frame that the driver's filter drops. *)
Definition filtered s m : Prop :=
  1 < nb_segs m (lib s) \/ (hasHardwareFilter s = false /\ (parse_data (data (lib s) m)).1 <> bswap16 HOMA).

Lemma set_length_insert s p k n :
  packets s !! p = Some k -> packets (s <| packetPool ::= fun o => o <| objects ::= alter (fun k => mkPacket (payload_off k) n (bufRef k)) p |> |>) =
    <[p := mkPacket (payload_off k) n (bufRef k)]> (packets s).
Proof.
  intros Hp. change (alter (fun k => mkPacket (payload_off k) n (bufRef k)) p (packets s) = <[p := mkPacket (payload_off k) n (bufRef k)]> (packets s)).
  apply map_eq. intros q. destruct (decide (p = q)) as [->|Hne].
  - by rewrite lookup_alter_eq, Hp, lookup_insert_eq.
  - by rewrite lookup_alter_ne, lookup_insert_ne.
Qed.

Lemma wp_receive_mbuf s m (Q : option (ptr * IpAddress) -> Impl -> Prop) :
  let d := data (lib s) m in
  let hl := (parse_data d).2 + 4 in
  Inv s -> 0 < refs (lib s) m -> ~ held (packets s) m -> acceptable (lib s) m ->
  (filtered s m -> Inv (s <| lib := rte_pktmbuf_free m (lib s) |>) -> Q None (s <| lib := rte_pktmbuf_free m (lib s) |>)) ->
  (forall p s', ~ filtered s m -> mbufsOutstanding s < MBUF_ALLOC_LIMIT -> Inv s' -> packets s !! p = None ->
     packets s' = <[p := mkPacket hl (zlength d - hl) (MBUF m)]> (packets s) -> lib s' = lib s -> hasHardwareFilter s' = hasHardwareFilter s ->
     Q (Some (p, read_le (parse_data d).2 4 d)) s') ->
  (forall p b s', ~ filtered s m -> mbufsOutstanding s = MBUF_ALLOC_LIMIT -> Inv s' -> packets s !! p = None ->
     packets s' = <[p := mkPacket 0 (zlength d - hl) (OVERFLOW_BUF b)]> (packets s) ->
     objects (overflowBufferPool s) !! b = None ->
     objects (overflowBufferPool s') = <[b := OverflowBuffer_new]> (objects (overflowBufferPool s)) -> hasHardwareFilter s' = hasHardwareFilter s ->
     lib s' = rte_store m hl (slice 0 (zlength d - hl) OverflowBuffer_new) (lib s) ->
     Q (Some (p, read_le (parse_data d).2 4 d)) s') ->
  wp (receive_mbuf m) s Q.
Proof.
  intros d hl Hi Hm Hh Ha Hfree Hkeep Hover. pose proof (inv_refs _ Hi) as Hrf. pose proof (lib_valid _ _ Hrf) as Hv.
  pose proof (live_refs _ _ Hm) as Hl. unfold receive_mbuf, rte_get, rte_do. do 2 wp_step. destruct (Z.ltb_spec 1 (nb_segs m (lib s))) as [Hs|Hs].
  { do 3 wp_step. apply Hfree; [by left|by apply Inv_free]. }
  destruct Ha as [?|Ha]; [lia|]. fold d in Ha. pose proof (parse_data_header d) as Hhl. change MAX_PAYLOAD_SIZE with 1500 in Ha.
  do 2 wp_step. rewrite (parse_ether_data (lib s)) by (done || (fold d; lia)). fold d.
  destruct (parse_data d) as [ty hl0] eqn:Hparse. cbn [snd] in *. do 2 wp_step. destruct (negb (hasHardwareFilter s) && negb (ty =? bswap16 HOMA)) eqn:Hf.
  { do 3 wp_step. apply Hfree; [|by apply Inv_free]. right. fold d. rewrite Hparse. cbn [fst]. bool_to_prop. done. }
  assert (~ filtered s m) as Hnf.
  { intros [?|[Hhf Hty]]; [lia|]. fold d in Hty. rewrite Hparse in Hty. cbn [fst] in Hty. rewrite Hhf in Hf. cbn in Hf.
    apply negb_false_iff, Z.eqb_eq in Hf. done. }
  do 2 wp_step. rewrite load_le by (done || (fold d; lia)). do 2 wp_step. rewrite (len_data (lib s)) by done. fold d. change MAX_PAYLOAD_SIZE with 1500 in *.
  repeat wp_step; [apply Z.leb_le; lia|apply Z.leb_le; lia|].
  fold hl. pose proof (inv_packets _ Hi) as Hpk. pose proof (outstanding_bound _ _ _ Hpk).
  destruct (Z.ltb_spec (mbufsOutstanding s) MBUF_ALLOC_LIMIT) as [Hlt|Hge].
  - wp_step. unfold packet_op. wp_step. apply wp_construct; [apply Hpk|]. intros p P' Hp HP HP'. unfold set_length. repeat wp_step.
    assert (in_hand s m) as Hin by by split_and!.
    pose proof (Inv_new_mbuf s P' p _ m Hi Hlt Hin Hp HP HP' eq_refl) as Hi2.
    apply (Hkeep p); [done|done|by apply Inv_set_length|done| |done|done].
    rewrite (set_length_insert _ _ (mkPacket hl 0 (MBUF m))); [cbn [payload_off bufRef]|change (objects P' !! p = Some (mkPacket hl 0 (MBUF m))); rewrite HP; apply lookup_insert_eq].
    change (<[p := mkPacket hl (zlength d - hl) (MBUF m)]> (objects P') = <[p := mkPacket hl (zlength d - hl) (MBUF m)]> (packets s)).
    rewrite HP. apply insert_insert_eq.
  - wp_step. unfold overflow_op. wp_step. apply wp_construct; [apply Hpk|]. intros b O' Hb HO HO'.
    unfold deref_overflow. do 3 wp_step. change (objects (overflowBufferPool (s <| overflowBufferPool := O' |>))) with (objects O').
    rewrite HO, lookup_insert_eq. do 3 wp_step. unfold packet_op. wp_step. apply wp_construct; [apply Hpk|]. intros p P' Hp HP HP'.
    unfold set_length. repeat wp_step.
    pose proof (Inv_new_overflow s P' O' p _ b _ Hi Hp HP HP' Hb HO HO' eq_refl overflow_size) as Hi2.
    assert (zlength (slice 0 (zlength d - hl) OverflowBuffer_new) = zlength d - hl) as Hz.
    { apply zlength_slice; rewrite ?overflow_size; change (8 * MAX_PAYLOAD_SIZE) with 12000; unfold hl; lia. }
    apply (Hover p b); [done|lia| |done| |exact Hb|exact HO|done|done].
    + apply Inv_set_length. apply (Inv_store _ m hl (slice 0 (zlength d - hl) OverflowBuffer_new) Hi2);
        change (lib (s <| overflowBufferPool := O' |> <| packetPool := P' |>)) with (lib s); [done|done|unfold hl; lia|fold d; lia].
    + rewrite (set_length_insert _ _ (mkPacket 0 0 (OVERFLOW_BUF b))); [cbn [payload_off bufRef]|change (objects P' !! p = Some (mkPacket 0 0 (OVERFLOW_BUF b))); rewrite HP; apply lookup_insert_eq].
      change (<[p := mkPacket 0 (zlength d - hl) (OVERFLOW_BUF b)]> (objects P') = <[p := mkPacket 0 (zlength d - hl) (OVERFLOW_BUF b)]> (packets s)).
      rewrite HP. apply insert_insert_eq.
Qed.

Lemma hand_cons s m ms : hand s (m :: ms) -> (0 < refs (lib s) m /\ ~ held (packets s) m) /\ (m ∉ ms) /\ hand s ms.
Proof.
  intros [[Hn Hnd]%NoDup_cons Hms]. split; [apply Hms; by left|]. split; [done|]. split; [done|]. intros m' Hin. apply Hms. by right.
Qed.

(** After a call that handed out [ks] of the mbufs [n]. *)
Record received s s' (ks : list (ptr * IpAddress)) (n : Z) : Prop := {
  received_inv : Inv s';
  received_packets p k : packets s !! p = Some k -> packets s' !! p = Some k;
  received_new : NoDup ks.*1 /\ forall p, p ∈ ks.*1 -> packets s !! p = None /\ is_Some (packets s' !! p);
  received_number : zlength ks <= n;
  received_count : mbufsOutstanding s' <= mbufsOutstanding s + n;
  received_bytes : mbufsOutstanding s + n <= MBUF_ALLOC_LIMIT -> forall m, held (packets s) m -> data (lib s') m = data (lib s) m
}.

Lemma received_nil s : Inv s -> received s s [] 0.
Proof. intros Hi. split; [done|done| |done|lia|done]. split; [constructor|]. intros p Hp. by apply elem_of_nil in Hp. Qed.

Lemma received_app s1 s2 s3 ks1 ks2 n1 n2 :
  0 <= n1 -> received s1 s2 ks1 n1 -> 0 <= n2 -> received s2 s3 ks2 n2 -> received s1 s3 (ks1 ++ ks2) (n1 + n2).
Proof.
  intros Hn1 [Hi1 Hp1 [Hnd1 Hk1] Hl1 Hc1 Hb1] Hn2 [Hi2 Hp2 [Hnd2 Hk2] Hl2 Hc2 Hb2]. split; [done|auto| |rewrite zlength_app; lia|lia|].
  - rewrite fmap_app. split.
    + apply NoDup_app. split_and!; [done| |done]. intros p E1 E2. destruct (Hk1 p E1) as [_ [k Hk]], (Hk2 p E2) as [Hk' _]. congruence.
    + intros p [Hp|Hp]%elem_of_app.
      * destruct (Hk1 p Hp) as [? [k Hk]]. split; [done|]. exists k. by apply Hp2.
      * destruct (Hk2 p Hp) as [Hn Hs]. split; [|done]. destruct (packets s1 !! p) as [k|] eqn:E; [|done]. apply Hp1 in E. congruence.
  - intros Hle m Hh. rewrite Hb2, Hb1; [done|lia|done|lia|]. destruct Hh as (p & k & Hp & Hk). exists p, k. auto.
Qed.

(** One mbuf dealt with; the others are still in hand, and acceptable. *)
Lemma wp_receive_next s m ms (Q : option (ptr * IpAddress) -> Impl -> Prop) :
  Inv s -> hand s (m :: ms) -> Forall (acceptable (lib s)) (m :: ms) ->
  (forall o s', received s s' (match o with Some k => [k] | None => [] end) 1 -> hand s' ms ->
     Forall (acceptable (lib s')) ms -> Q o s') ->
  wp (receive_mbuf m) s Q.
Proof.
  intros Hi [[Hm Hh] (Hn & Hnd & Hms)]%hand_cons [Ha Has]%Forall_cons HQ. pose proof (lib_valid _ _ (inv_refs _ Hi)) as Hv.
  rewrite Forall_forall in Has. apply wp_receive_mbuf; [done..| | |].
  - intros _ Hi'. pose proof (free_law (lib s) m Hv Hm) as Hmv.
    assert (forall m', 0 < refs (lib s) m' -> m' <> m -> 0 < refs (rte_pktmbuf_free m (lib s)) m') as Hstill.
    { intros m' Hr Hne. rewrite (moves_refs _ _ _ _ _ _ Hmv). unfold add_ref. by rewrite decide_False. }
    assert (forall m', 0 < refs (lib s) m' -> m' <> m -> data (rte_pktmbuf_free m (lib s)) m' = data (lib s) m' /\ same_shape (lib s) (rte_pktmbuf_free m (lib s)) m') as Hsame.
    { intros m' Hr Hne. assert (live (rte_pktmbuf_free m (lib s)) m') by (left; auto).
      split; [by apply (moves_data _ _ _ _ _ _ Hmv); [|intros []]|by apply (moves_shape _ _ _ _ _ _ Hmv); [|intros []]]. }
    apply HQ.
    + split; [done|done| |done|cbn; change (mbufsOutstanding s <= mbufsOutstanding s + 1); lia|].
      * split; [constructor|]. intros p Hp. by apply elem_of_nil in Hp.
      * intros _ m' Hh'. apply Hsame; [by apply held_refs|congruence].
    + split; [done|]. intros m' Hin. destruct (Hms m' Hin). split; [|done]. apply Hstill; [done|congruence].
    + apply Forall_forall. intros m' Hin. destruct (Hms m' Hin), (Hsame m') as [? ?]; [done|congruence|].
      eapply acceptable_same; [by apply Has|done|done].
  - intros p s' _ Hlt Hi' Hp HP Hlib _. apply HQ.
    + split; [done| | |done| |by rewrite Hlib].
      * intros q k Hq. rewrite HP, lookup_insert_ne; congruence.
      * cbn. split; [apply NoDup_singleton|]. intros q ->%list_elem_of_singleton. split; [done|]. rewrite HP, lookup_insert_eq. eauto.
      * rewrite (outstanding_exact _ _ _ (inv_packets _ Hi')), (outstanding_exact _ _ _ (inv_packets _ Hi)), HP, mbuf_count_insert by done. cbn. lia.
    + split; [done|]. intros m' Hin. rewrite Hlib. destruct (Hms m' Hin) as [? Hh']. split; [done|].
      intros (q & k & Hq & Hk). rewrite HP in Hq. apply lookup_insert_Some in Hq as [[<- <-]|[_ Hq]]; [cbn in Hk; congruence|].
      apply Hh'. by exists q, k.
    + rewrite Hlib. by apply Forall_forall.
  - intros p b s' Hnf Hge Hi' Hp HP _ _ _ Hlib. set (hl := (parse_data (data (lib s) m)).2 + 4) in *.
    destruct Ha as [Hs|Ha]; [exfalso; apply Hnf; by left|]. fold hl in Ha. pose proof (parse_data_header (data (lib s) m)).
    assert (nb_segs m (lib s) <= 1) as Hs by (destruct (Z.lt_ge_cases 1 (nb_segs m (lib s))); [exfalso; apply Hnf; by left|done]).
    set (zeros := slice 0 (zlength (data (lib s) m) - hl) OverflowBuffer_new) in *. change MAX_PAYLOAD_SIZE with 1500 in Ha.
    assert (zlength zeros = zlength (data (lib s) m) - hl) as Hz.
    { apply zlength_slice; rewrite ?overflow_size; change (8 * MAX_PAYLOAD_SIZE) with 12000; lia. }
    destruct (store_law (lib s) m hl zeros Hv Hm Hs ltac:(unfold hl; lia) ltac:(lia)) as (Hmv & Hsh & _ & Hpre). rewrite <- Hlib in *.
    apply HQ.
    + split; [done| | |done| |].
      * intros q k Hq. rewrite HP, lookup_insert_ne; congruence.
      * cbn. split; [apply NoDup_singleton|]. intros q ->%list_elem_of_singleton. split; [done|]. rewrite HP, lookup_insert_eq. eauto.
      * rewrite (outstanding_exact _ _ _ (inv_packets _ Hi')), (outstanding_exact _ _ _ (inv_packets _ Hi)), HP, mbuf_count_insert by done. cbn. lia.
      * intros Hle. lia.
    + split; [done|]. intros m' Hin. rewrite (moves_refs _ _ _ _ _ _ Hmv). destruct (Hms m' Hin) as [? Hh']. split; [done|].
      intros (q & k & Hq & Hk). rewrite HP in Hq. apply lookup_insert_Some in Hq as [[<- <-]|[_ Hq]]; [cbn in Hk; congruence|].
      apply Hh'. by exists q, k.
    + apply Forall_forall. intros m' Hin. destruct (Hms m' Hin) as [Hr Hh'], (Hsh m') as [Hlen Hsegs].
      assert (live (lib s') m') as Hl' by (left; by rewrite (moves_refs _ _ _ _ _ _ Hmv)).
      destruct (Has m' Hin) as [?|Ham]; [left; lia|]. destruct (Z.le_gt_cases (nb_segs m' (lib s)) 1); [|left; lia].
      apply (acceptable_prefix (lib s) _ m' hl); [by right|unfold hl; lia|by apply Hpre; left| |done].
      rewrite <- !len_data; [done|done|by left|done|apply (inv_refs _ Hi')|done|lia].
Qed.

Lemma wp_receive_loop ms s (Q : list (ptr * IpAddress) -> Impl -> Prop) :
  Inv s -> hand s ms -> Forall (acceptable (lib s)) ms ->
  (forall ks s', received s s' ks (zlength ms) -> Q ks s') -> wp (receive_loop ms) s Q.
Proof.
  revert s Q. induction ms as [|m ms IH]; intros s Q Hi Hms Ha HQ; cbn [receive_loop].
  - wp_step. apply HQ. by apply received_nil.
  - wp_step. apply (wp_receive_next _ _ ms); [done..|]. intros o s1 Hr1 Hms1 Ha1. wp_step. apply IH; [apply Hr1|done|done|].
    intros ks s2 Hr2. wp_step. apply HQ. pose proof (received_app _ _ _ _ _ _ _ Z.le_0_1 Hr1 (zlength_nonneg ms) Hr2) as Hr.
    replace (zlength (m :: ms)) with (1 + zlength ms) by (unfold zlength; cbn; lia). by destruct o.
Qed.

(** ** At the limit

    When as many mbufs are out as the driver allows, every frame that passes the filter
    is copied the wrong way round, and its mbuf is forgotten. *)

(** The driver holds a reference to [m] that is not that of a packet: at the end of a
    call, nothing is left that could release it. *)
Definition lost s m : Prop := 0 < refs (lib s) m /\ ~ held (packets s) m.

#[global] Instance filtered_dec s m : Decision (filtered s m).
Proof. unfold filtered. apply _. Defined.

(** What is kept when mbufs are dealt with at the limit. *)
Record full_step s s' : Prop := {
  full_inv : Inv s';
  full_limit : mbufsOutstanding s' = mbufsOutstanding s;
  full_packets p k : packets s !! p = Some k -> packets s' !! p = Some k;
  full_buffers b d : objects (overflowBufferPool s) !! b = Some d -> objects (overflowBufferPool s') !! b = Some d;
  full_held m : held (packets s') m -> held (packets s) m
}.

Lemma full_step_trans s1 s2 s3 : full_step s1 s2 -> full_step s2 s3 -> full_step s1 s3.
Proof. intros [] []. split; [done|congruence|auto..]. Qed.

(** The packet at [p] holds nothing but zeros. *)
Definition blank s (p : ptr) : Prop := exists k b,
  packets s !! p = Some k /\ bufRef k = OVERFLOW_BUF b /\ payload_off k = 0 /\ length k <= 8 * MAX_PAYLOAD_SIZE /\
  objects (overflowBufferPool s) !! b = Some OverflowBuffer_new.

Lemma blank_step s s' p : full_step s s' -> blank s p -> blank s' p.
Proof. intros [] (k & b & ? & ? & ? & ? & ?). exists k, b. split_and!; auto. Qed.

(** One mbuf at the limit; the others stay as they are, as far as this goes. *)
Definition full_next m s (o : option (ptr * IpAddress)) s' : Prop :=
  full_step s s' /\ (forall m', m' <> m -> 0 < refs (lib s) m' -> 0 < refs (lib s') m' /\ (filtered s' m' <-> filtered s m')) /\
  if decide (filtered s m) then o = None else lost s' m /\ exists p ip, o = Some (p, ip) /\ blank s' p.

Lemma wp_receive_full s m :
  Inv s -> lost s m -> acceptable (lib s) m -> mbufsOutstanding s = MBUF_ALLOC_LIMIT ->
  wp (receive_mbuf m) s (full_next m s).
Proof.
  intros Hi [Hm Hh] Ha Hfull. pose proof (lib_valid _ _ (inv_refs _ Hi)) as Hv.
  apply wp_receive_mbuf; [done..| |intros; lia|].
  - intros Hf Hi'. pose proof (free_law (lib s) m Hv Hm) as Hmv. split; [by split|]. rewrite decide_True by done. split; [|done].
    intros m' Hne Hr. assert (0 < refs (rte_pktmbuf_free m (lib s)) m') as Hr'.
    { rewrite (moves_refs _ _ _ _ _ _ Hmv). unfold add_ref. by rewrite decide_False. }
    split; [done|]. unfold filtered. change (lib (s <| lib := ?r |>)) with r.
    destruct (moves_shape _ _ _ _ _ _ Hmv m') as [_ ->]; [by left|by intros []|].
    by rewrite (moves_data _ _ _ _ _ _ Hmv m') by (by left || by intros []).
  - intros p b s' Hnf _ Hi' Hp HP Hb HO Hfilter Hlib. set (d := data (lib s) m) in *. pose proof (parse_data_header d) as Hhl.
    destruct Ha as [Hs|Ha]; [exfalso; apply Hnf; by left|]. fold d in Ha. change MAX_PAYLOAD_SIZE with 1500 in Ha.
    assert (nb_segs m (lib s) <= 1) as Hs by (destruct (Z.lt_ge_cases 1 (nb_segs m (lib s))); [exfalso; apply Hnf; by left|done]).
    set (hl := (parse_data d).2 + 4) in *. set (zeros := slice 0 (zlength d - hl) OverflowBuffer_new) in *.
    assert (zlength zeros = zlength d - hl) as Hz by (apply zlength_slice; rewrite ?overflow_size; change (8 * MAX_PAYLOAD_SIZE) with 12000; lia).
    destruct (store_law (lib s) m hl zeros Hv Hm Hs ltac:(unfold hl; lia) ltac:(fold d; lia)) as (Hmv & Hsh & _ & Hpre). rewrite <- Hlib in *.
    assert (forall m', held (packets s') m' -> held (packets s) m') as Hheld.
    { intros m' (q & kq & Hq & Hkq). rewrite HP in Hq. apply lookup_insert_Some in Hq as [[<- <-]|[_ Hq]]; [done|by exists q, kq]. }
    split; [split; [done| | | |done]|].
    + rewrite (outstanding_exact _ _ _ (inv_packets _ Hi')), (outstanding_exact _ _ _ (inv_packets _ Hi)), HP, mbuf_count_insert by done. cbn. lia.
    + intros q k Hq. rewrite HP, lookup_insert_ne; congruence.
    + intros b' d' Hb'. rewrite HO, lookup_insert_ne; congruence.
    + rewrite decide_False by done. split; [|split].
      * intros m' _ Hr. split; [by rewrite (moves_refs _ _ _ _ _ _ Hmv)|]. unfold filtered. rewrite Hfilter.
        destruct (Hsh m') as [_ ->]. rewrite (parse_data_prefix (data (lib s) m') _ hl); [done|unfold hl; lia|]. apply Hpre. by left.
      * split; [by rewrite (moves_refs _ _ _ _ _ _ Hmv)|]. intros Hin. by apply Hh, Hheld.
      * eexists p, _. split; [done|]. eexists _, b. split; [rewrite HP; apply lookup_insert_eq|]. cbn [bufRef payload_off length].
        split_and!; [done|done|change (8 * MAX_PAYLOAD_SIZE) with 12000; lia|rewrite HO; apply lookup_insert_eq].
Qed.

(** After the mbufs [ms] of a call: every frame that passed the filter became a packet
    of zeros, and its mbuf is lost. *)
Record wasted s ms (ks : list (ptr * IpAddress)) s' : Prop := {
  wasted_step : full_step s s';
  wasted_others m : m ∉ ms -> lost s m -> lost s' m;
  wasted_number : Datatypes.length ks = Datatypes.length (filter (fun m => ~ filtered s m) ms);
  wasted_blank p ip : (p, ip) ∈ ks -> blank s' p;
  wasted_lost m : m ∈ ms -> ~ filtered s m -> lost s' m
}.

Lemma wp_receive_loop_full ms s :
  Inv s -> hand s ms -> Forall (acceptable (lib s)) ms -> mbufsOutstanding s = MBUF_ALLOC_LIMIT ->
  wp (receive_loop ms) s (wasted s ms).
Proof.
  revert s. induction ms as [|m ms IH]; intros s Hi Hms Ha Hfull; cbn [receive_loop].
  { wp_step. split; [by split|done|done|by intros ? ? ?%elem_of_nil|by intros ? ?%elem_of_nil]. }
  wp_step. pose proof (hand_cons _ _ _ Hms) as (Hm & Hnin & _). pose proof Ha as [Ham _]%Forall_cons.
  eapply wp_mono; [apply wp_and; [apply (wp_receive_next s m ms (fun _ s' => hand s' ms /\ Forall (acceptable (lib s')) ms)); [done..|by intros]|by apply wp_receive_full]|].
  intros o s1 [[Hms1 Ha1] (F & Hothers & Hout)]. wp_step.
  assert (forall m', m' <> m -> lost s m' -> lost s1 m') as Hlost.
  { intros m' Hne [Hr Hh]. split; [by apply Hothers|]. intros Hin. by apply Hh, F. }
  assert (forall m', m' ∈ ms -> filtered s1 m' <-> filtered s m') as Hsame.
  { intros m' Hin. apply Hothers; [by intros ->|]. destruct Hms as [_ Hms]. apply Hms. by right. }
  eapply wp_mono; [apply IH; [apply F|done|done|by rewrite (full_limit _ _ F)]|].
  intros ks s2 [W1 W2 W3 W4 W5]. wp_step.
  assert (filter (fun m => ~ filtered s1 m) ms = filter (fun m => ~ filtered s m) ms) as E.
  { apply filter_ext_in. intros m' Hin. by rewrite Hsame. }
  rewrite E in W3. split.
  - by eapply full_step_trans.
  - intros m' [Hne Hin]%not_elem_of_cons Hl. auto.
  - destruct (decide (filtered s m)) as [Hf|Hf].
    + subst o. by rewrite filter_cons_False by naive_solver.
    + destruct Hout as (_ & p & ip & -> & _). rewrite filter_cons_True by done. cbn. by rewrite W3.
  - intros p ip Hin. destruct (decide (filtered s m)) as [Hf|Hf]; [subst o; by apply (W4 p ip)|].
    destruct Hout as (_ & q & iq & -> & Hb). apply elem_of_cons in Hin as [[= -> ->]|Hin]; [by eapply blank_step|by apply (W4 p ip)].
  - intros m' [->|Hin]%elem_of_cons Hnf.
    + rewrite decide_False in Hout by done. destruct Hout as [Hl _]. by apply W2.
    + apply W5; [done|]. by rewrite Hsame.
Qed.

End driver.
End DpdkReceive.
