(* ===== verification/DpdkSample.v ===== *)
(** * DpdkSample: a library on which the driver's laws hold

    A small model of mbufs, transmit buffer, ring and NIC, for concrete runs of
    the driver.  A clone copies the bytes; frames arrive one per call; a script says
    which allocations fail. *)

From S2P Require Import Prelude Dpdk DpdkInv.
Import Dpdk DpdkInv.

Module DpdkSample.

Record Lib := mkLib {
  l_refs : mbuf -> Z;
  l_data : mbuf -> list Z;
  l_tx : list mbuf;
  l_ring : list mbuf;
  l_next : mbuf;
  l_arrivals : list (list Z);
  l_script : list bool     (* the answers of the next allocations *)
}.

Definition upd {A} (m : mbuf) (v : A) (f : mbuf -> A) : mbuf -> A := fun m' => if decide (m' = m) then v else f m'.
Definition in_tx r m : Z := if decide (m ∈ l_tx r) then 1 else 0.
Definition set_data m d r := mkLib (l_refs r) (upd m d (l_data r)) (l_tx r) (l_ring r) (l_next r) (l_arrivals r) (l_script r).
Definition add m n r := mkLib (add_ref m n (l_refs r)) (l_data r) (l_tx r) (l_ring r) (l_next r) (l_arrivals r) (l_script r).
Definition set_queues tx rg r := mkLib (l_refs r) (l_data r) tx rg (l_next r) (l_arrivals r) (l_script r).
Definition fresh_mbuf d r : Lib :=
  mkLib (add_ref (l_next r) 1 (l_refs r)) (upd (l_next r) d (l_data r)) (l_tx r) (l_ring r) (Pos.succ (l_next r)) (l_arrivals r) (l_script r).

Arguments upd : simpl never.

Definition next_script r : Lib :=
  mkLib (l_refs r) (l_data r) (l_tx r) (l_ring r) (l_next r) (l_arrivals r) (tail (l_script r)).
Definition available r : bool := default true (head (l_script r)).

(** The room in an mbuf. *)
Definition max_data : Z := 2048.

#[export] Instance sample_dpdk : Dpdk := {
  rte := Lib;
  rte_pktmbuf_alloc r := if available r then (Some (l_next r), fresh_mbuf [] (next_script r)) else (None, next_script r);
  rte_pktmbuf_append m n r :=
    if zlength (l_data r m) + n <=? max_data
    then (Some (zlength (l_data r m)), set_data m (l_data r m ++ replicate (Z.to_nat n) 0) r) else (None, r);
  rte_pktmbuf_free m r := add m (-1) r;
  rte_pktmbuf_clone m r :=
    if available r then (Some (l_next r), fresh_mbuf (l_data r m) (next_script r)) else (None, next_script r);
  rte_pktmbuf_trim m n r :=
    if n <=? zlength (l_data r m) then (true, set_data m (take (Z.to_nat (zlength (l_data r m) - n)) (l_data r m)) r) else (false, r);
  rte_mbuf_refcnt_read m r := l_refs r m + in_tx r m;
  rte_mbuf_refcnt_update m n r := add m n r;
  rte_pktmbuf_pkt_len m r := u32 (zlength (l_data r m));
  nb_segs _ _ := 1;
  rte_load m off n r := slice off n (l_data r m);
  rte_store m off bs r := if off + zlength bs <=? zlength (l_data r m) then set_data m (write_at off bs (l_data r m)) r else r;
  rte_ring_count r := zlength (l_ring r);
  rte_ring_enqueue m r :=
    if zlength (l_ring r) <? 4096 then (true, add m (-1) (set_queues (l_tx r) (l_ring r ++ [m]) r)) else (false, r);
  rte_ring_dequeue r :=
    match l_ring r with [] => (None, r) | m :: ms => (Some m, add m 1 (set_queues (l_tx r) ms r)) end;
  rte_eth_rx_burst n r :=
    match l_arrivals r with
    | d :: rest => if (0 <? n) && (zlength d <=? max_data)
        then ([l_next r], fresh_mbuf d (mkLib (l_refs r) (l_data r) (l_tx r) (l_ring r) (l_next r) rest (l_script r))) else ([], r)
    | [] => ([], r)
    end;
  rte_eth_tx_buffer m r :=
    let tx := l_tx r ++ [m] in
    if zlength tx <? MAX_PKT_BURST then ([], add m (-1) (set_queues tx (l_ring r) r))
    else ([tx], add m (-1) (set_queues [] (l_ring r) r));
  rte_eth_tx_buffer_flush r := ([l_tx r], set_queues [] (l_ring r) r);
  steady_clock_nth n := Z.min (Z.of_nat n) (2 ^ 62)
}.

Record lib_ok (r : Lib) : Prop := {
  ok_refs m : 0 <= l_refs r m;
  ok_live m : (l_next r <= m)%positive -> l_refs r m = 0 /\ (m ∉ l_tx r) /\ (m ∉ l_ring r);
  ok_tx : zlength (l_tx r) < MAX_PKT_BURST;
  ok_data m : zlength (l_data r m) <= max_data
}.

#[export] Instance sample_views : DpdkViews := {
  valid := lib_ok; refs := l_refs; data := l_data; tx_queue := l_tx; ring := l_ring
}.

Lemma upd_eq {A} m (v : A) f : upd m v f m = v.
Proof. unfold upd. by rewrite decide_True. Qed.
Lemma upd_ne {A} m m' (v : A) f : m <> m' -> upd m v f m' = f m'.
Proof. intros. unfold upd. by rewrite decide_False. Qed.

(** Moves that keep the bytes. *)
Lemma moves_kept (r r' : Lib) refs' tx' ring' changed :
  lib_ok r' -> l_refs r' = refs' -> l_tx r' = tx' -> l_ring r' = ring' ->
  (forall m, ~ changed m -> l_data r' m = l_data r m) -> moves r r' refs' tx' ring' changed.
Proof.
  intros Hv <- <- <- Hd. split; try done.
  - intros m _ Hm. split; [cbn; by rewrite Hd|done].
  - intros m _ Hm. by apply Hd.
Qed.

Lemma lib_ok_data r m d : lib_ok r -> zlength d <= max_data -> lib_ok (set_data m d r).
Proof.
  intros [Hr Hl Ht Hd] Hlen. split; [done..|]. intros m'. cbn. unfold upd. by case_decide.
Qed.
Lemma lib_ok_add r m n : lib_ok r -> 0 <= l_refs r m + n -> (m < l_next r)%positive -> lib_ok (add m n r).
Proof.
  intros [Hr Hl Ht Hd] Hn Hm. split; [|intros m' Hm'|done|done]; cbn; unfold add_ref.
  - intros m'. case_decide; [by subst|done].
  - rewrite decide_False by (intros ->; cbn in Hm'; lia). by apply Hl.
Qed.
Lemma lib_ok_queues r tx rg : lib_ok r -> zlength tx < MAX_PKT_BURST ->
  (forall m, m ∈ tx \/ m ∈ rg -> (m < l_next r)%positive) -> lib_ok (set_queues tx rg r).
Proof.
  intros [Hr Hl Ht Hd] Htx Hin. split; [done| |done|done]. intros m Hm. cbn in *. split; [by apply Hl|].
  split; intros Hq; assert (m < l_next r)%positive by (apply Hin; auto); lia.
Qed.
Lemma lib_ok_fresh r d : lib_ok r -> zlength d <= max_data -> lib_ok (fresh_mbuf d r).
Proof.
  intros [Hr Hl Ht Hd] Hlen. split; [| |done|]; cbn; unfold add_ref, upd.
  - intros m. specialize (Hr m). case_decide; lia.
  - intros m Hm. rewrite decide_False by lia. apply Hl. lia.
  - intros m. by case_decide.
Qed.
Lemma lib_ok_script r : lib_ok r -> lib_ok (next_script r).
Proof. by intros []. Qed.
Lemma used_below r m : lib_ok r -> 0 < l_refs r m \/ m ∈ l_tx r \/ m ∈ l_ring r -> (m < l_next r)%positive.
Proof.
  intros Hok Hm. destruct (Pos.lt_total m (l_next r)) as [|Hge]; [done|]. destruct (ok_live r Hok m) as (? & ? & ?); [lia|]. intuition lia.
Qed.
Lemma not_live_next r : lib_ok r -> ~ live r (l_next r).
Proof. intros Hok Hl. apply used_below in Hl; [|done]. lia. Qed.

#[export] Instance sample_laws : DpdkLaws.
Proof.
  split; cbn.
  - intros r m Hok. split; [apply Hok|]. intros Hin. unfold in_tx. rewrite decide_True by done. done.
  - intros r Hok. pose proof (ok_tx r Hok). lia.
  - intros r m. apply u32_range.
  - intros r m Hok _ _. pose proof (ok_data r Hok m). unfold max_data in *. rewrite u32_small; [done|unfold zlength in *; lia].
  - done.
  - intros r Hok%lib_ok_script. destruct (available r); [|by apply moves_kept]. split; [exact (not_live_next _ Hok)|]. split; [|split; [by apply upd_eq|done]].
    apply moves_kept; [by apply lib_ok_fresh|done..|]. intros m Hm. by apply upd_ne.
  - intros r m n Hok Hm Hn _. destruct (Z.leb_spec (zlength (l_data r m) + n) max_data); [|by apply moves_kept].
    assert (zlength (l_data r m ++ replicate (Z.to_nat n) 0) = zlength (l_data r m) + n) as Hz.
    { rewrite zlength_app. unfold zlength at 2. rewrite length_replicate. lia. }
    split; [done|]. split; [|split; [done|cbn; by rewrite upd_eq]].
    apply moves_kept; [apply lib_ok_data; [done|lia]|done..|]. intros m' Hm'. by apply upd_ne.
  - intros r m Hok Hm. apply moves_kept; try done. apply lib_ok_add; [done|lia|]. apply used_below; auto.
  - intros r m Hok%lib_ok_script Hm. destruct (available r); [|by apply moves_kept]. split; [exact (not_live_next _ Hok)|]. cbn. rewrite upd_eq. split; [|done].
    apply moves_kept; [apply lib_ok_fresh; [done|apply Hok]|done..|]. intros m' Hm'. by apply upd_ne.
  - intros r m n Hok Hm _ Hn. destruct (Z.leb_spec n (zlength (l_data r m))) as [Hle|Hgt].
    + split; [|split; [done|intros _; split; [done|by apply upd_eq]]]. apply moves_kept; [apply lib_ok_data; [done|]|done..|].
      * pose proof (ok_data r Hok m). unfold zlength in *. rewrite length_take. lia.
      * intros m' Hm'. by apply upd_ne.
    + split; [by apply moves_kept|]. split; [done|lia].
  - intros r m n Hok Hm Hn. apply moves_kept; try done. apply lib_ok_add; [done|done|]. apply used_below; auto.
  - intros r m off bs Hok Hm _ Ho Hl. rewrite (proj2 (Z.leb_le _ _)) by done.
    assert (zlength (write_at off bs (l_data r m)) = zlength (l_data r m)) as Hz by by apply zlength_write_at.
    split_and!.
    + apply moves_kept; [apply lib_ok_data; [done|rewrite Hz; apply Hok]|done..|]. by intros m' [].
    + intros m'. split; [|done]. change (u32 (zlength (upd m (write_at off bs (l_data r m)) (l_data r) m')) = u32 (zlength (l_data r m'))).
      unfold upd. case_decide; [subst; by rewrite Hz|done].
    + by apply upd_eq.
    + intros m' _. cbn. unfold upd. case_decide; [subst|done]. apply slice_write_at_before; [done|done|lia|]. pose proof (zlength_nonneg bs). lia.
  - done.
  - intros r m Hok Hm. destruct (Z.ltb_spec (zlength (l_ring r)) 4096); [|by apply moves_kept].
    assert (m < l_next r)%positive by (apply used_below; auto).
    apply moves_kept; try done. apply lib_ok_add; [|cbn; lia|done]. apply lib_ok_queues; [done|apply Hok|].
    intros m' [Hin|[Hin| ->%list_elem_of_singleton]%elem_of_app]; [apply used_below; auto|apply used_below; auto|done].
  - intros r m ms Hok Hr. rewrite Hr. eexists; split; [done|]. pose proof (ok_refs r Hok m).
    assert (forall m', m' ∈ l_ring r -> (m' < l_next r)%positive) as Hin by (intros; apply used_below; auto).
    apply moves_kept; try done. apply lib_ok_add; [|cbn; lia|apply Hin; rewrite Hr; by left]. apply lib_ok_queues; [done|apply Hok|].
    intros m' [Hm'|Hm']; [apply used_below; auto|apply Hin; rewrite Hr; by right].
  - intros r n Hok Hn. assert (moves r r (fun m => if decide (m ∈ []) then 1 else l_refs r m) (l_tx r) (l_ring r) (fun m => m ∈ [])) as Hnone.
    { by split. }
    destruct (l_arrivals r) as [|d rest]; [split_and!; [done|constructor|constructor|done]|].
    destruct (Z.ltb_spec 0 n), (Z.leb_spec (zlength d) max_data); cbn [andb]; try (split_and!; [done|constructor|constructor|done]).
    split_and!; [unfold zlength; cbn; lia|apply NoDup_singleton|constructor; [by apply not_live_next|constructor]|].
    assert (lib_ok (mkLib (l_refs r) (l_data r) (l_tx r) (l_ring r) (l_next r) rest (l_script r))) as Hok2 by by destruct Hok.
    pose proof (ok_live r Hok (l_next r) (Pos.le_refl _)) as [Hz0 _]. split; try done.
    + by apply lib_ok_fresh.
    + intros m. cbn. unfold add_ref. destruct (decide (m = l_next r)) as [->|Hne].
      * rewrite decide_True by by left. lia.
      * rewrite decide_False by set_solver. done.
    + intros m _ Hm. split; [cbn|done]. rewrite upd_ne; [done|set_solver].
    + intros m _ Hm. cbn. rewrite upd_ne; [done|set_solver].
  - intros r m Hok Hm. assert (m < l_next r)%positive as Hlt by (apply used_below; auto).
    assert (forall m', m' ∈ l_ring r -> (m' < l_next r)%positive) as Hin by (intros; apply used_below; auto).
    assert (zlength (l_tx r ++ [m]) = zlength (l_tx r) + 1) as Hz by by rewrite zlength_app.
    destruct (Z.ltb_spec (zlength (l_tx r ++ [m])) MAX_PKT_BURST); split_and!; try done.
    + apply moves_kept; try done. apply lib_ok_add; [|cbn; lia|done]. apply lib_ok_queues; [done|done|].
      intros m' [[Hm'| ->%list_elem_of_singleton]%elem_of_app|Hm']; [apply used_below; auto|done|auto].
    + cbn. by rewrite !app_nil_r.
    + lia.
    + apply moves_kept; try done. apply lib_ok_add; [|cbn; lia|done]. apply lib_ok_queues; [done|done|].
      intros m' [Hm'|Hm']; [set_solver|auto].
  - intros r Hok. split; [by rewrite app_nil_r|]. apply moves_kept; try done. apply lib_ok_queues; [done|done|].
    intros m' [Hm'|Hm']; [set_solver|apply used_below; auto].
  - intros n. lia.
  - intros n. lia.
Qed.

End DpdkSample.
