(* ===== verification/DpdkProps.v ===== *)
(** * DpdkProps: the properties of the DPDK driver

    Each is proved for every library that obeys [DpdkLaws] and applied to the one
    of [DpdkSample]. *)

From S2P Require Import Prelude Util ObjectPool Protocol Driver Address QueueEstimator Dpdk DpdkInv DpdkSend DpdkReceive DpdkSample.
Import Driver(IpAddress) Protocol(le_bytes, read_le, bswap16).
Import Address(MacAddress, mkMacAddress, address).
Import Dpdk DpdkInv DpdkSend DpdkReceive.

Module DpdkProps.
Section driver.
Context `{DpdkLaws}.
Implicit Types (s : Impl) (r : rte) (m : mbuf) (p : ptr).

(** ** Calls *)

(** The application writes the payload of a packet. *)
Definition fill (p : ptr) (bytes : list Z) : M Impl unit :=
  k ← deref p;
  _ ← (match bufRef k with
       | MBUF m => rte_do (rte_store m (payload_off k) bytes)
       | OVERFLOW_BUF b => modify (fun s => s <| overflowBufferPool ::= fun o => o <| objects ::= alter (write_at (payload_off k) bytes) b |> |>)
       end);
  set_length p (zlength bytes).

Inductive Op :=
  | OpAlloc
  | OpFill (p : ptr) (bytes : list Z)
  | OpSend (p : ptr) (destination : IpAddress) (priority : Z)
  | OpCork
  | OpUncork
  | OpReceive (maxPackets : Z)
  | OpRelease (packets : list ptr)
  | OpQueued.

Definition run (o : Op) : M Impl unit :=
  match o with
  | OpAlloc => _ ← allocPacket; mret tt
  | OpFill p bytes => fill p bytes
  | OpSend p destination priority => sendPacket p destination priority
  | OpCork => cork
  | OpUncork => uncork
  | OpReceive maxPackets => _ ← receivePackets maxPackets; mret tt
  | OpRelease packets => releasePackets packets
  | OpQueued => _ ← getQueuedBytes; mret tt
  end.

(** What the interface of Driver allows: packets that were handed out and not
    released, payloads that fit, priorities that were announced; and frames from
    the network of a possible size. *)
Definition allowed s (o : Op) : Prop :=
  match o with
  | OpAlloc | OpCork | OpUncork | OpQueued => True
  | OpFill p bytes => zlength bytes <= MAX_PAYLOAD_SIZE /\ exists k, packets s !! p = Some k /\ room s k
  | OpSend p _ priority => 0 <= priority < 8 /\ exists k, packets s !! p = Some k /\ sendable s k
  | OpReceive maxPackets => 0 <= maxPackets /\
      forall ms s', take_mbufs maxPackets s = Ok (ms, s') -> Forall (acceptable (lib s')) ms
  | OpRelease ps => NoDup ps /\ forall p, p ∈ ps -> is_Some (packets s !! p)
  end.

(** A library that has handed out nothing. *)
Definition fresh_lib r : Prop := valid r /\ tx_queue r = [] /\ ring r = [].

(** A driver that was initialised, after calls that are allowed. *)
Inductive reachable : Impl -> Prop :=
  | reachable_new arpTable localIp localMac override filter mbps r :
      fresh_lib r -> 0 <= mbps < 2 ^ 32 -> Address.mac_ok localMac ->
      (forall d a, arpTable !! d = Some a -> Address.mac_ok a) ->
      reachable (Impl_new arpTable localIp localMac override filter mbps r)
  | reachable_call s o s' : reachable s -> allowed s o -> run o s = Ok (tt, s') -> reachable s'.

Lemma Inv_new arpTable localIp localMac override filter mbps r :
  fresh_lib r -> 0 <= mbps < 2 ^ 32 -> Address.mac_ok localMac -> (forall d a, arpTable !! d = Some a -> Address.mac_ok a) ->
  Inv (Impl_new arpTable localIp localMac override filter mbps r).
Proof.
  intros (Hv & Htx & Hring) Hm Hmac Harp. pose proof (clock_mono 0). pose proof (clock_range 0). split; cbn.
  - split; cbn; [apply pool_ok_new|apply pool_ok_new|done|done| |done|done].
    intros b. split; [by intros [? ?]|by intros (? & ? & ? & _)].
  - split; [done|by rewrite Hring; constructor|by rewrite Hring; intros m; rewrite elem_of_nil|done].
  - split; [cbn; by rewrite Htx|apply QueueEstimator.new_ok; lia|cbn; lia].
  - by split.
Qed.

Lemma wp_fill s p bytes (Q : unit -> Impl -> Prop) :
  Inv s -> allowed s (OpFill p bytes) -> (forall s', Inv s' -> Q tt s') -> wp (fill p bytes) s Q.
Proof.
  intros Hi (Hb & k & Hp & Hroom) HQ. unfold fill. wp_step. eapply wp_deref_packet; [done|]. wp_step. unfold room in Hroom.
  assert (forall s', Inv s' -> wp (set_length p (zlength bytes)) s' Q) as Hset.
  { intros s' Hi'. unfold set_length. wp_step. apply HQ. by apply Inv_set_length. }
  destruct (bufRef k) as [m|b] eqn:Hk.
  - destruct Hroom as (Hs & Hoff & Hl). unfold rte_do. wp_step. apply Hset.
    destruct (packet_held _ _ (inv_refs _ Hi) p k m Hp Hk) as [Hm _]. rewrite (len_data (lib s)) in Hl by (apply Hi || by apply live_refs || lia).
    change (Inv (s <| lib := rte_store m (payload_off k) bytes (lib s) |>)). apply Inv_store; [done|done|lia|rewrite Hoff; done|rewrite Hoff, Hl; lia].
  - wp_step. apply Hset. destruct Hi as [[HP HO Hn Hbd Hown Hsize Huniq] Hrf Hst Hmac]. split; [|done|done|done]. split; [done| |done|done| | |done].
    + apply (pool_ok_alter (overflowBufferPool s) (alter (write_at (payload_off k) bytes) b)); [done|]. intros. apply dom_alter_L.
    + intros b'. rewrite <- Hown. apply lookup_alter_is_Some.
    + intros b' d Hd. change (alter (write_at (payload_off k) bytes) b (objects (overflowBufferPool s)) !! b' = Some d) in Hd.
      apply lookup_alter_Some in Hd as [(<- & d0 & Hd0 & ->)|[_ Hd]]; [|by eapply Hsize].
      pose proof (Hsize _ _ Hd0) as Hsz. rewrite zlength_write_at; [done|by rewrite Hroom|rewrite Hroom, Hsz; change (8 * MAX_PAYLOAD_SIZE) with 12000; change MAX_PAYLOAD_SIZE with 1500 in Hb; lia].
Qed.

Lemma wp_getQueuedBytes s (Q : Z -> Impl -> Prop) :
  Inv s -> (forall n s', Inv s' -> Q n s') -> wp getQueuedBytes s Q.
Proof.
  intros Hi HQ. unfold getQueuedBytes, steady_clock_now, estimator_op. repeat wp_step. destruct (inv_stats _ Hi) as [Hb Hq Ht].
  pose proof (clock_mono (clock_reads s)) as Hc. pose proof (clock_range (clock_reads s)) as Hc'.
  unfold QueueEstimator.getQueuedBytes. wp_step. eapply wp_mono; [apply QueueEstimator.refresh_spec; [exact Hq|exact (conj Ht Hc')]|].
  intros [] q (Hq' & _ & Ht' & _). do 2 wp_step. apply HQ. pose proof Hi as [Hpk Hrf _ Hmac]. split; [done|done| |done].
  split; [done|done|]. change (QueueEstimator.lastUpdateTime q <= steady_clock_nth (S (clock_reads s))). rewrite Ht'. change (clock_reads (s <| clock_reads ::= _ |>)) with (S (clock_reads s)) || cbn. lia.
Qed.

Lemma wp_run s o (Q : unit -> Impl -> Prop) :
  Inv s -> allowed s o -> (forall s', Inv s' -> Q tt s') -> wp (run o) s Q.
Proof.
  intros Hi Ha HQ. destruct o as [|p bytes|p d priority| | |maxPackets|ps|]; cbn [run].
  - wp_step. apply wp_allocPacket; [done|]. intros p s' Hi' _. wp_step. by apply HQ.
  - by apply wp_fill.
  - destruct Ha as (Hp & k & Hk & Hs). eapply wp_sendPacket; [done..|]. intros s' Hi' _ _. by apply HQ.
  - unfold cork. wp_step. apply HQ. by destruct Hi.
  - apply wp_uncork; [done|]. intros s' Hi' _ _ _. by apply HQ.
  - destruct Ha as [Hm Ha]. wp_step. unfold receivePackets. wp_step.
    assert (wp (take_mbufs maxPackets) s (fun ms s1 => Inv s1 /\ hand s1 ms)) as Ht.
    { apply wp_take_mbufs; [done|done|]. by intros. }
    apply wp_ok in Ht as (ms & s1 & Heq & Hi1 & Hms). unfold wp at 1. rewrite Heq.
    apply wp_receive_loop; [done|done|by eapply Ha|]. intros ks s2 Hr. wp_step. apply HQ. apply Hr.
  - destruct Ha as [Hnd Ha]. by apply wp_releasePackets.
  - wp_step. apply wp_getQueuedBytes; [done|]. intros n s' Hi'. wp_step. by apply HQ.
Qed.

Lemma reachable_Inv s : reachable s -> Inv s.
Proof.
  induction 1 as [|s o s' _ IH Ha Hr]; [by apply Inv_new|].
  pose proof (wp_run s o (fun _ s' => Inv s') IH Ha (fun s' Hs' => Hs')) as Hw. unfold wp in Hw. by rewrite Hr in Hw.
Qed.

(** ** Properties *)

(** C25: Every call that the interface allows returns: no assertion fails, and no buffer
    or pool is used that does not exist.  Afterwards the driver is well-formed
    again: mbufsOutstanding counts the packets in mbufs and is within its limit,
    each overflow buffer belongs to one packet, every packet holds a reference
    to its mbuf and no two share one, and bufferedBytes is the number of bytes in
    the transmit buffer, which the assertion of the transmit callback rests on. *)
Theorem dpdk_calls_return s o :
  reachable s -> allowed s o -> wp (run o) s (fun _ s' => reachable s' /\ Inv s').
Proof.
  intros Hs Ha. pose proof (reachable_Inv s Hs) as Hi.
  pose proof (wp_run s o (fun _ s' => Inv s') Hi Ha (fun s' Hs' => Hs')) as Hw.
  apply wp_ok in Hw as ([] & s' & Hr & Hi'). unfold wp. rewrite Hr. split; [by eapply reachable_call|done].
Qed.

(** *** The loopback *)

Lemma parse_frame s k pcp d :
  Address.mac_ok d -> Address.mac_ok (localMac s) -> 0 <= localIp s < 2 ^ 32 ->
  parse_data (frame s k d pcp) = (bswap16 HOMA, 18) /\ read_le 18 4 (frame s k d pcp) = localIp s.
Proof.
  intros Hd%mac_size Hl%mac_size Hip. unfold frame, frame_header. rewrite <- !app_assoc.
  assert (forall off n rest, 12 <= off -> read_le off n (address d ++ address (localMac s) ++ rest) = read_le (off - 12) n rest) as Hskip.
  { intros off n rest Ho. unfold read_le. rewrite app_assoc, slice_app_r by (rewrite zlength_app; lia). rewrite zlength_app. do 2 f_equal. lia. }
  unfold parse_data. rewrite !Hskip by lia. change (12 - 12) with 0. change (16 - 12) with 4. change (18 - 12) with 6.
  pose proof (Protocol.bswap16_range ETHER_TYPE_VLAN). pose proof (Protocol.bswap16_range HOMA).
  change (2 ^ 16) with (256 ^ 2) in *. change (2 ^ 32) with (256 ^ 4) in *.
  rewrite Protocol.read_le_here, Z.eqb_refl by done. rewrite (Protocol.read_le_skip 4), (Protocol.read_le_skip (4 - Z.of_nat 2)) by lia.
  rewrite (Protocol.read_le_skip 6), (Protocol.read_le_skip (6 - Z.of_nat 2)), (Protocol.read_le_skip (6 - Z.of_nat 2 - Z.of_nat 2)) by lia.
  split; [f_equal|]; by apply Protocol.read_le_here.
Qed.

Lemma frame_size s p k d pcp :
  Inv s -> packets s !! p = Some k -> sendable s k -> Address.mac_ok d -> zlength (frame s k d pcp) = PACKET_HDR_LEN + length k.
Proof.
  intros Hi Hp Hs Hd. unfold frame. pose proof (inv_macs _ Hi) as [Hl _]. by rewrite zlength_app, frame_header_size, (payload_size s p).
Qed.

Lemma frame_payload s k d pcp n :
  Address.mac_ok d -> Address.mac_ok (localMac s) -> zlength (payload_bytes s k) = n -> slice PACKET_HDR_LEN n (frame s k d pcp) = payload_bytes s k.
Proof.
  intros Hd Hl <-. unfold frame. rewrite slice_app_r by (by rewrite frame_header_size). rewrite frame_header_size by done.
  rewrite Z.sub_diag. by apply slice_all.
Qed.

(** A frame that was sent is received: at the head of what a call took, with [c]
    in hand and room for more mbufs, it becomes a packet with the bytes that were sent. *)
Lemma receive_frame s1 c ms s k d pcp (Q : list (ptr * IpAddress) -> Impl -> Prop) :
  Inv s1 -> hand s1 (c :: ms) -> Forall (acceptable (lib s1)) ms -> nb_segs c (lib s1) = 1 ->
  mbufsOutstanding s1 + zlength (c :: ms) <= MBUF_ALLOC_LIMIT ->
  data (lib s1) c = frame s k d pcp -> zlength (payload_bytes s k) = length k -> 0 <= length k <= MAX_PAYLOAD_SIZE ->
  Address.mac_ok d -> Address.mac_ok (localMac s) -> 0 <= localIp s < 2 ^ 32 ->
  (forall p' k' rest s2, Inv s2 -> packets s1 !! p' = None -> packets s2 !! p' = Some k' -> length k' = length k ->
     payload_bytes s2 k' = payload_bytes s k -> Q ((p', localIp s) :: rest) s2) ->
  wp (receive_loop (c :: ms)) s1 Q.
Proof.
  intros Hi Hhand Hacc Hseg Hcount Hdata Hpay Hlen Hd Hl Hip HQ. destruct (parse_frame s k pcp d Hd Hl Hip) as [Hparse Hsrc].
  assert (zlength (frame s k d pcp) = 22 + length k) as Hz by (unfold frame; rewrite zlength_app, frame_header_size by done; rewrite Hpay; done).
  pose proof (hand_cons _ _ _ Hhand) as ([Hr Hh] & Hn & Hms). cbn [receive_loop]. wp_step.
  assert (acceptable (lib s1) c) as Hac by (right; rewrite Hdata, Hparse, Hz; cbn [snd]; lia).
  apply wp_receive_mbuf; [done|done|done|done| | |].
  - intros [Hs|[_ Hty]] _; [lia|]. by rewrite Hdata, Hparse in Hty.
  - intros p' s2 _ _ Hi2 Hp' HP Hlib _. rewrite Hdata, Hparse in *. cbn [fst snd] in *. rewrite Hsrc. wp_step.
    apply wp_receive_loop; [done| |by rewrite Hlib|].
    { split; [apply Hms|]. intros m Hin. rewrite Hlib. destruct Hms as [_ Hms]. destruct (Hms m Hin) as [? Hnh]. split; [done|].
      intros (q & kq & Hq & Hkq). rewrite HP in Hq. apply lookup_insert_Some in Hq as [[<- <-]|[_ Hq]]; [cbn in Hkq; congruence|]. apply Hnh. by exists q, kq. }
    intros rest s3 [Hi3 Hkeep _ _ _ Hbytes]. wp_step.
    set (k' := mkPacket (18 + 4) (zlength (frame s k d pcp) - (18 + 4)) (MBUF c)) in *.
    assert (packets s2 !! p' = Some k') as Hk' by (rewrite HP; apply lookup_insert_eq).
    apply (HQ p' k' rest s3); [done|done|by apply Hkeep|cbn; rewrite Hz; lia|]. unfold payload_bytes at 1, k'. cbn [bufRef payload_off length].
    rewrite Hbytes, Hlib, Hdata.
    + rewrite Hz. replace (22 + length k - (18 + 4)) with (length k) by lia. by apply frame_payload.
    + rewrite (outstanding_exact _ _ _ (inv_packets _ Hi2)), HP, mbuf_count_insert by done. cbn.
      rewrite <- (outstanding_exact _ _ _ (inv_packets _ Hi)). unfold zlength in *. cbn in Hcount. lia.
    + exists p', k'. done.
  - intros p' b s2 _ Hfull. unfold zlength in Hcount. cbn in Hcount. lia.
Qed.

(** C26: A packet that is sent to the driver's own MAC address comes back: unless it is
    dropped (it is still being sent, or no mbuf or room in the ring is left), the
    next receivePackets hands out, first, a packet with the bytes that were sent
    and the driver's own IP address as its source. *)
Theorem loopback_roundtrip s p k destination priority maxPackets :
  reachable s -> packets s !! p = Some k -> sendable s k -> 0 <= priority < 8 ->
  arpTable s !! destination = Some (localMac s) -> 0 <= localIp s < 2 ^ 32 -> ring (lib s) = [] ->
  2 <= maxPackets -> mbufsOutstanding s + MAX_PACKETS_AT_ONCE <= MBUF_ALLOC_LIMIT ->
  wp (sendPacket p destination priority) s (fun _ s1 =>
    ring (lib s1) = [] \/
    ((forall ms s2, take_mbufs maxPackets s1 = Ok (ms, s2) -> Forall (acceptable (lib s2)) (tail ms)) ->
     wp (receivePackets maxPackets) s1 (fun received s2 => exists p' k' rest,
       received = (p', localIp s) :: rest /\ packets s1 !! p' = None /\ packets s2 !! p' = Some k' /\
       length k' = length k /\ payload_bytes s2 k' = payload_bytes s k))).
Proof.
  intros Hreach Hp Hsend Hprio Harp Hip Hring Hmx Hcount. pose proof (reachable_Inv s Hreach) as Hi.
  pose proof (inv_macs _ Hi) as [Hl _]. pose proof (payload_size s p k Hi Hp Hsend) as Hpay.
  eapply wp_sendPacket; [done..|]. intros s1 Hi1 (Hpk & _) Hsent.
  destruct Hsent as [_ _ Hg|dm pcp c Ha -> Hpcp _ Hg Hd Hsegs _|dm pcp Ha Hne]; [left; congruence| |congruence].
  right. intros Hacc. rewrite Hring in Hg. cbn [app] in Hg.
  assert (wp (take_mbufs maxPackets) s1 (fun ms s2 => exists incoming, ms = c :: incoming /\ Inv s2 /\ hand s2 ms /\
    zlength ms <= MAX_PACKETS_AT_ONCE /\ data (lib s2) c = data (lib s1) c /\ nb_segs c (lib s2) = nb_segs c (lib s1) /\
    mbufsOutstanding s2 = mbufsOutstanding s1 /\ packets s2 = packets s1)) as Htake.
  { apply wp_take_mbufs; [done|lia|]. intros incoming r' n ms Hi' Hun _ Hhand Hlen. subst n ms. exists incoming.
    assert (from_ring maxPackets (lib s1) = 1) as Hone.
    { unfold from_ring. rewrite Hg. change (zlength [c]) with 1. change MAX_PACKETS_AT_ONCE with 32. Z.to_euclidean_division_equations. lia. }
    rewrite Hone, Hg in *. destruct Hun as [_ Hun]. destruct (Hun c) as (_ & Hdc & _ & Hsc); [right; right; rewrite Hg; by left|].
    change (take (Z.to_nat 1) [c] ++ incoming) with (c :: incoming) in *.
    split; [done|]. split; [done|]. split; [done|]. split; [lia|]. by split_and!. }
  apply wp_ok in Htake as (ms & s2 & Heq & incoming & -> & Hi2 & Hhand & Hlen & Hdc & Hsc & Hout & Hpk2).
  unfold receivePackets. wp_step. unfold wp at 1. rewrite Heq. specialize (Hacc _ _ Heq). cbn [tail] in Hacc.
  assert (mbufsOutstanding s1 = mbufsOutstanding s) as Hsame.
  { rewrite (outstanding_exact _ _ _ (inv_packets _ Hi1)), (outstanding_exact _ _ _ (inv_packets _ Hi)). by rewrite Hpk. }
  eapply (receive_frame s2 c incoming s k (localMac s) pcp); [done|done|done|congruence|lia|congruence|done|apply Hsend|done|done|done|].
  intros p' k' rest s3 _ Hnew Hk' Hlen' Hbytes. exists p', k', rest. split_and!; [done|by rewrite <- Hpk2|done|done|done].
Qed.

(** *** Corking *)

(** C27: A packet for another host is given to the transmit buffer as one frame: Ethernet
    header with VLAN tag, the driver's IP address, payload; it is dropped only when its
    mbuf is still being sent, or no mbuf is left for the bytes of an overflow buffer.
    While the driver is corked the frame waits there behind those sent before, as long
    as the buffer is not full; when it is not corked, the buffer and behind it the frame
    go to the NIC at once, as the buffer does at the last uncork.  Behind its VLAN tag
    the frame has four bytes more than the payload, so a full packet exceeds the MTU by
    these. *)
Theorem corked_frames_wait s p k destination priority destMac :
  reachable s -> packets s !! p = Some k -> sendable s k -> 0 <= priority < 8 ->
  arpTable s !! destination = Some destMac -> destMac <> localMac s ->
  wp (sendPacket p destination priority) s (fun _ s1 =>
    ring (lib s1) = ring (lib s) /\
    (no_mbuf s k /\ tx_queue (lib s1) = tx_queue (lib s) \/
     exists pcp, PRIORITY_TO_PCP !! Z.to_nat priority = Some pcp /\
       let d := frame_header destMac (localMac s) pcp (localIp s) ++ payload_bytes s k in
       transmitted s s1 d /\ zlength d - (ETHER_HDR_LEN + VLAN_TAG_LEN) = length k + IP_HDR_LEN) /\
    (corked s = 1 -> wp uncork s1 (fun _ s2 => tx_queue (lib s2) = [] /\ bufferedBytes s2 = 0 /\
       let '(bursts, r) := rte_eth_tx_buffer_flush (lib s1) in
       lib s2 = r /\ concat bursts = tx_queue (lib s1)))).
Proof.
  intros Hreach Hp Hsend Hprio Harp Hne. pose proof (reachable_Inv s Hreach) as Hi. pose proof (inv_macs _ Hi) as [Hl Harps].
  eapply wp_sendPacket; [done..|]. intros s1 Hi1 (_ & _ & Hck & _) Hsent. split; [by destruct Hsent; congruence|]. split.
  - destruct Hsent as [[Hno|Hno|Hno] Htx Hg|dm pcp c Ha -> Hpcp|dm pcp Ha Hdm Hpcp Hg Htr]; [by left|congruence..|].
    right. replace dm with destMac in * by congruence. exists pcp. split; [done|]. split; [exact Htr|]. fold (frame s k destMac pcp).
    rewrite (frame_size s p) by (done || by eapply Harps). change PACKET_HDR_LEN with 22. change (ETHER_HDR_LEN + VLAN_TAG_LEN) with 18.
    unfold IP_HDR_LEN. lia.
  - intros Hc. apply wp_uncork; [done|]. intros s2 _ _ _ Hempty. apply Hempty. congruence.
Qed.

(** *** Overflow buffers *)

(** C30: Packets in overflow buffers lose mbufs and bytes.  When sendPacket has copied one
    into a new mbuf and finds no ARP record, it drops the mbuf without freeing it.
    When receivePackets is at the limit of mbufs, every packet that it hands out, one for
    each frame taken that passes the filter, holds zeros instead of the bytes of the
    frame, and the frame's mbuf is not freed. *)
Theorem overflow_buffers_lose s :
  reachable s ->
  (forall p k b destination priority m off s1,
     packets s !! p = Some k -> bufRef k = OVERFLOW_BUF b -> sendable s k -> arpTable s !! destination = None ->
     alloc_append (PACKET_HDR_LEN + length k) s = Ok (Some (m, off), s1) ->
     wp (sendPacket p destination priority) s (fun _ s' =>
       packets s' = packets s /\ refs (lib s) m = 0 /\ lost s' m /\ tx_queue (lib s') = tx_queue (lib s) /\ (m ∉ tx_queue (lib s)))) /\
  (forall maxPackets ms s1,
     0 <= maxPackets -> mbufsOutstanding s = MBUF_ALLOC_LIMIT ->
     take_mbufs maxPackets s = Ok (ms, s1) -> Forall (acceptable (lib s1)) ms ->
     wp (receivePackets maxPackets) s (fun ks s' =>
       Datatypes.length ks = Datatypes.length (filter (fun m => ~ filtered s1 m) ms) /\
       (forall p ip, (p, ip) ∈ ks -> exists k, packets s' !! p = Some k /\
          payload_bytes s' k = replicate (Z.to_nat (length k)) 0) /\
       (forall m, m ∈ ms -> ~ filtered s1 m -> lost s' m))).
Proof.
  intros Hreach. pose proof (reachable_Inv s Hreach) as Hi. pose proof (lib_valid _ _ (inv_refs _ Hi)) as Hv. split.
  - intros p k b destination priority m off s1 Hp Hk Hsend Harp Halloc. pose proof Hsend as [Hlen _].
    unfold sendPacket. wp_step. eapply wp_deref_packet; [done|]. wp_step.
    pose proof (wp_mbuf_to_send s p k (fun o s2 => match o with Some m' => outgoing s s2 k m' /\ exists r, s2 = s <| lib := r |> | None => True end) Hi Hp Hsend
      ltac:(done) (fun m r Ho => conj Ho (ex_intro _ r eq_refl))) as Hout.
    pose proof (wp_alloc_append (PACKET_HDR_LEN + length k) s (fun o _ => match o with Some (m, _) => ~ live (lib s) m | None => True end) Hi) as Hfresh.
    unfold wp at 1 in Hfresh. rewrite Halloc in Hfresh. change MAX_PAYLOAD_SIZE with 1500 in Hlen. change PACKET_HDR_LEN with 22 in *.
    specialize (Hfresh ltac:(lia) ltac:(done) ltac:(by intros)).
    assert (exists s2, mbuf_to_send k s = Ok (Some m, s2)) as [s2 Hmb].
    { apply wp_ok in Hout as (o & s2 & Heq & _). unfold mbuf_to_send in Heq |- *. rewrite Hk in *. change PACKET_HDR_LEN with 22 in *.
      rewrite u32_small in * by lia. unfold mbind, M_bind in *. rewrite Halloc in *. destruct (deref_overflow b s1) as [[d s3]|]; [|done].
      destruct ((0 <=? length k) && (length k <=? zlength d)); [|done]. unfold mret, M_ret, rte_do, modify in *. by eexists. }
    unfold wp in Hout |- *. rewrite Hmb in *. destruct Hout as [[Hi2 Hr _ [Hnt Htx] Hring _ _ Hheld] [r2 ->]]. rewrite Hk in Hheld.
    unfold mbind, M_bind, get, mret, M_ret. change (arpTable (s <| lib := r2 |>)) with (arpTable s). rewrite Harp. split; [done|].
    split; [by apply not_live_refs|]. split; [split; [exact Hr|exact Hheld]|]. split; [exact Htx|].
    change (lib (s <| lib := r2 |>)) with r2 in Hnt, Htx. by rewrite <- Htx.
  - intros maxPackets ms s1 Hmax Hfull Htake Hacc.
    pose proof (wp_take_mbufs maxPackets s (fun ms s1 => Inv s1 /\ hand s1 ms /\ mbufsOutstanding s1 = mbufsOutstanding s) Hi Hmax
      ltac:(by intros)) as Hw. unfold wp in Hw. rewrite Htake in Hw. destruct Hw as (Hi1 & Hms & Hn).
    unfold receivePackets. wp_step. unfold wp at 1. rewrite Htake.
    eapply wp_mono; [apply wp_receive_loop_full; [done|done|done|congruence]|]. intros ks s' [_ _ W3 W4 W5]. split; [done|]. split; [|done].
    intros p ip Hin. destruct (W4 p ip Hin) as (k & b & Hk & Hb & Hoff & Hlen & Hd). exists k. split; [done|].
    unfold payload_bytes. rewrite Hb, Hoff. setoid_rewrite Hd. unfold slice, OverflowBuffer_new.
    change (Z.to_nat 0) with 0%nat. rewrite drop_0, take_replicate. f_equal. lia.
Qed.

End driver.
(** ** Witnesses *)

Section after.
Context `{DpdkLaws}.
Definition after (o : Op) (s : Impl) : Impl := match run o s with Ok (_, s') => s' | Error _ => s end.
Lemma reachable_after o s : reachable s -> allowed s o -> reachable (after o s).
Proof.
  intros Hs Ha. pose proof (wp_run s o (fun _ s' => Inv s') (reachable_Inv s Hs) Ha (fun s' Hs' => Hs')) as Hw.
  apply wp_ok in Hw as ([] & s' & Hr & _). unfold after. rewrite Hr. by eapply reachable_call.
Qed.
End after.

Import DpdkSample.

Definition own_mac : MacAddress := mkMacAddress [2; 0; 0; 0; 0; 1].
Definition other_mac : MacAddress := mkMacAddress [2; 0; 0; 0; 0; 2].
Definition sample_arp : gmap IpAddress MacAddress := {[10 := own_mac; 11 := other_mac]}.
(** A driver at 10 whose library answers allocations as [script] says. *)
Definition driver_with (script : list bool) : Impl :=
  Impl_new sample_arp 10 own_mac (-1) true 10000 (mkLib (fun _ => 0) (fun _ => []) [] [] 1 [] script).

Lemma sample_reachable arrivals script :
  reachable (Impl_new sample_arp 10 own_mac (-1) true 10000 (mkLib (fun _ => 0) (fun _ => []) [] [] 1 arrivals script)).
Proof.
  apply reachable_new; [|lia|split; [done|repeat constructor; lia]|].
  - split; [|done]. split; cbn; [done| |done|done]. intros m _. split; [done|]. split; apply not_elem_of_nil.
  - intros d a Ha. assert (a = own_mac \/ a = other_mac) as [-> | ->].
    { unfold sample_arp in Ha. apply lookup_insert_Some in Ha as [[_ <-]|[_ Ha]]; [by left|].
      apply lookup_singleton_Some in Ha as [_ <-]. by right. }
    all: split; [done|repeat constructor; lia].
Qed.
Lemma driver_reachable script : reachable (driver_with script).
Proof. apply sample_reachable. Qed.

Definition sample_bytes : list Z := [1; 2; 3; 4; 5; 6; 7].
(** A packet with seven bytes. *)
Definition driver1 (script : list bool) : Impl := after (OpFill 1%positive sample_bytes) (after OpAlloc (driver_with script)).
Definition packet1 : Packet := mkPacket 22 7 (MBUF 1%positive).

Lemma driver1_reachable : reachable (driver1 []).
Proof.
  apply reachable_after; [apply reachable_after; [apply driver_reachable|done]|].
  split; [done|]. exists (mkPacket 22 0 (MBUF 1%positive)). split; [by vm_compute|]. by vm_compute.
Qed.
Lemma packet1_sendable : sendable (driver1 []) packet1.
Proof. split; [by vm_compute|]. split; [done|]. split; [done|]. by vm_compute. Qed.
Lemma packet1_there : packets (driver1 []) !! 1%positive = Some packet1.
Proof. by vm_compute. Qed.

Lemma dpdk_calls_return_witness :
  wp (run (OpSend 1%positive 11 3)) (driver1 []) (fun _ s' => reachable s' /\ Inv s').
Proof.
  apply dpdk_calls_return; [apply driver1_reachable|]. split; [lia|]. exists packet1. split; [apply packet1_there|apply packet1_sendable].
Defined.

Lemma loopback_roundtrip_witness :
  wp (sendPacket 1%positive 10 3) (driver1 []) (fun _ s1 =>
    ring (lib s1) = [] \/
    ((forall ms s2, take_mbufs 4 s1 = Ok (ms, s2) -> Forall (acceptable (lib s2)) (tail ms)) ->
     wp (receivePackets 4) s1 (fun received s2 => exists p' k' rest,
       received = (p', localIp (driver1 [])) :: rest /\ packets s1 !! p' = None /\ packets s2 !! p' = Some k' /\
       length k' = length packet1 /\ payload_bytes s2 k' = payload_bytes (driver1 []) packet1))).
Proof.
  apply loopback_roundtrip; [apply driver1_reachable|apply packet1_there|apply packet1_sendable|lia|
    vm_compute; reflexivity|vm_compute; split; congruence|vm_compute; reflexivity|lia|vm_compute; congruence].
Defined.
(** It is not dropped here: the packet that comes back is the second one. *)
Example sample_loopback :
  match (_ ← sendPacket 1%positive 10 3; receivePackets 4) (driver1 []) with
  | Ok (received, s2) => Some (received, (fun k => payload_bytes s2 k) <$> (packets s2 !! 2%positive))
  | Error _ => None
  end = Some ([(2%positive, 10)], Some sample_bytes).
Proof. by vm_compute. Qed.

Definition corked1 : Impl := after OpCork (driver1 []).
Lemma corked_frames_wait_witness :
  wp (sendPacket 1%positive 11 3) corked1 (fun _ s1 =>
    ring (lib s1) = ring (lib corked1) /\
    (no_mbuf corked1 packet1 /\ tx_queue (lib s1) = tx_queue (lib corked1) \/
     exists pcp, PRIORITY_TO_PCP !! Z.to_nat 3 = Some pcp /\
       let d := frame_header other_mac (localMac corked1) pcp (localIp corked1) ++ payload_bytes corked1 packet1 in
       transmitted corked1 s1 d /\ zlength d - (ETHER_HDR_LEN + VLAN_TAG_LEN) = length packet1 + IP_HDR_LEN) /\
    (corked corked1 = 1 -> wp uncork s1 (fun _ s2 => tx_queue (lib s2) = [] /\ bufferedBytes s2 = 0 /\
       let '(bursts, r) := rte_eth_tx_buffer_flush (lib s1) in
       lib s2 = r /\ concat bursts = tx_queue (lib s1)))).
Proof.
  apply (corked_frames_wait corked1 1%positive packet1 11 3 other_mac).
  - apply reachable_after; [apply driver1_reachable|exact I].
  - vm_compute. reflexivity.
  - split; [vm_compute; split; congruence|]. split; [reflexivity|]. split; [reflexivity|]. vm_compute. split; congruence.
  - lia.
  - vm_compute. reflexivity.
  - discriminate.
Defined.
(** 22 bytes of header and seven of payload wait until the driver is uncorked. *)
Example sample_cork :
  match sendPacket 1%positive 11 3 corked1 with
  | Ok (_, s1) => (bufferedBytes s1, match uncork s1 with Ok (_, s2) => bufferedBytes s2 | Error _ => -1 end)
  | Error _ => (-1, -1)
  end = (29, 0).
Proof. by vm_compute. Qed.

(** The first allocation fails, so the packet is in an overflow buffer; its
    destination 12 has no ARP record. *)
Definition overflow_packet : Packet := mkPacket 0 7 (OVERFLOW_BUF 1%positive).
Definition returned {A} (r : Result (A * Impl)) : option A := match r with Ok (a, _) => Some a | Error _ => None end.
Definition ran {A} (r : Result (A * Impl)) : Impl := match r with Ok (_, s) => s | Error _ => driver_with [] end.
Lemma ran_eq {A} (r : Result (A * Impl)) a : returned r = Some a -> r = Ok (a, ran r).
Proof. destruct r as [[b s]|]; [|done]. by intros [= ->]. Qed.

(** A driver that has received as many frames as it may have mbufs out, one per call,
    and one more frame that waits. *)
Definition short_frame : list Z := replicate 18 0 ++ [1; 2; 3].
Definition acceptableb (r : rte) (m : mbuf) : bool :=
  let d := data r m in ((parse_data d).2 + 4 <=? zlength d) && (zlength d <=? (parse_data d).2 + 4 + MAX_PAYLOAD_SIZE).
Fixpoint receive_each (n : nat) (s : Impl) : option Impl :=
  match n with
  | O => Some s
  | S n =>
      match take_mbufs 2 s with
      | Ok (ms, s1) =>
          if forallb (acceptableb (lib s1)) ms
          then match run (OpReceive 2) s with Ok (_, s') => receive_each n s' | Error _ => None end else None
      | Error _ => None
      end
  end.
Definition driver_arrivals : Impl :=
  Impl_new sample_arp 10 own_mac (-1) true 10000
    (mkLib (fun _ => 0) (fun _ => []) [] [] 1 (repeat short_frame (S (Z.to_nat MBUF_ALLOC_LIMIT))) []).
Definition driver_full : Impl := default driver_arrivals (receive_each (Z.to_nat MBUF_ALLOC_LIMIT) driver_arrivals).

Lemma forallb_acceptable (r : rte) ms : forallb (acceptableb r) ms = true -> Forall (acceptable r) ms.
Proof.
  rewrite forallb_forall. intros Ha. apply Forall_forall. intros m Hm%list_elem_of_In%Ha. right.
  unfold acceptableb in Hm. bool_to_prop. lia.
Qed.
Lemma receive_each_reachable n s s' : reachable s -> receive_each n s = Some s' -> reachable s'.
Proof.
  revert s. induction n as [|n IH]; intros s Hs; cbn [receive_each]; [by intros [= <-]|].
  destruct (take_mbufs 2 s) as [[ms s1]|] eqn:Ht; [|done]. destruct (forallb (acceptableb (lib s1)) ms) eqn:Ha; [|done].
  destruct (run (OpReceive 2) s) as [[[] s2]|] eqn:Hr; [|done]. apply IH. eapply reachable_call; [done| |exact Hr].
  split; [lia|]. intros ms' s1' E. rewrite Ht in E. injection E as <- <-. by apply forallb_acceptable.
Qed.
Lemma driver_full_reachable : reachable driver_full.
Proof.
  unfold driver_full. destruct (receive_each _ driver_arrivals) as [s|] eqn:Hr; cbn [default from_option Datatypes.id].
  - eapply receive_each_reachable; [|exact Hr]. apply sample_reachable.
  - apply sample_reachable.
Qed.

(** It is at the limit, and takes one acceptable frame. *)
Lemma driver_full_next :
  mbufsOutstanding driver_full = MBUF_ALLOC_LIMIT /\
  exists s1, take_mbufs 2 driver_full = Ok ([12288%positive], s1) /\ Forall (acceptable (lib s1)) [12288%positive].
Proof.
  assert (match take_mbufs 2 driver_full with
    | Ok (ms, s1) => (mbufsOutstanding driver_full =? MBUF_ALLOC_LIMIT) && bool_decide (ms = [12288%positive]) &&
        forallb (acceptableb (lib s1)) [12288%positive]
    | Error _ => false
    end = true) as E by (vm_compute; reflexivity).
  destruct (take_mbufs 2 driver_full) as [[ms s1]|]; [|done]. apply andb_true_iff in E as [[E1%Z.eqb_eq E2%bool_decide_eq_true]%andb_true_iff E3].
  split; [done|]. exists s1. split; [by rewrite E2|by apply forallb_acceptable].
Qed.

Lemma overflow_buffers_lose_witness :
  wp (sendPacket 1%positive 12 3) (driver1 [false]) (fun _ s' =>
    packets s' = packets (driver1 [false]) /\ refs (lib (driver1 [false])) 1%positive = 0 /\ lost s' 1%positive /\
    tx_queue (lib s') = tx_queue (lib (driver1 [false])) /\ (1%positive ∉ tx_queue (lib (driver1 [false])))) /\
  (exists s1, take_mbufs 2 driver_full = Ok ([12288%positive], s1) /\
   wp (receivePackets 2) driver_full (fun ks s' =>
     Datatypes.length ks = Datatypes.length (filter (fun m => ~ filtered s1 m) [12288%positive]) /\
     (forall p ip, (p, ip) ∈ ks -> exists k, packets s' !! p = Some k /\
        payload_bytes s' k = replicate (Z.to_nat (length k)) 0) /\
     (forall m, m ∈ [12288%positive] -> ~ filtered s1 m -> lost s' m))).
Proof.
  split.
  - assert (reachable (driver1 [false])) as Hreach.
    { apply reachable_after; [apply reachable_after; [apply driver_reachable|exact I]|]. split; [vm_compute; congruence|].
      exists (mkPacket 0 0 (OVERFLOW_BUF 1%positive)). split; [vm_compute; reflexivity|vm_compute; reflexivity]. }
    eapply (proj1 (overflow_buffers_lose (driver1 [false]) Hreach) 1%positive overflow_packet 1%positive 12 3 1%positive 0);
      [vm_compute; reflexivity|reflexivity| |vm_compute; reflexivity|apply ran_eq; vm_compute; reflexivity].
    change (sendable (driver1 [false]) overflow_packet) with
      (0 <= 7 <= MAX_PAYLOAD_SIZE /\ 0 = 0).
    split; [split; [lia|by vm_compute]|reflexivity].
  - destruct driver_full_next as (Hfull & s1 & Htake & Hacc). exists s1. split; [exact Htake|].
    apply (proj2 (overflow_buffers_lose driver_full driver_full_reachable) 2 [12288%positive] s1 ltac:(lia) Hfull Htake Hacc).
Defined.

End DpdkProps.
