(* ===== verification/DpdkInit.v ===== *)
(** * DpdkInit: the construction of the DPDK driver (DpdkDriverImpl.cc)

    [_eal_init], [_init] and the constructors.  What the operating system and the
    library answer is the record [Env], a parameter; an answer to a call that
    can be made in a state of its own is a function of its arguments.  The ARP
    table is read from the lines of /proc/net/arp with sscanf. *)

From S2P Require Import Prelude Util StringUtil Address Float Driver Dpdk DpdkInv DpdkSample DpdkProps.
From Stdlib Require Import Ascii SpecFloat.
Import StringUtil Address Float Driver(IpAddress) Dpdk.

Module DpdkInit.
#[local] Open Scope Z_scope.
Implicit Types (s t : str) (c : ascii).

(** ** The ARP table *)

(** [%s] and [%<width>s]: a word, of at most [width] characters. *)
Fixpoint take_word s : str * str :=
  match s with
  | [] => ([], [])
  | c :: s' => if isspace c then ([], s) else let '(w, rest) := take_word s' in (c :: w, rest)
  end.
Definition scan_s (width : nat) s : option (str * str) :=
  let '(w, rest) := take_word (drop_space s) in
  match w with [] => None | _ => Some (take width w, drop width w ++ rest) end.

(** [ 0x%x]: the two characters, then a number that may have the prefix again. *)
Definition strip_0x s : str :=
  match s with
  | c1 :: c2 :: s' => if starts_0x c1 c2 then s' else s
  | _ => s
  end.
Definition scan_x s : option (Z * str) :=
  let '(negative, t) := sign (drop_space s) in
  match strip_0x t with
  | c :: _ => match digit_value 16 c with
              | Some _ => let '(v, rest) := scan_digits 16 0 (strip_0x t) in Some (to_unsigned negative v, rest)
              | None => None
              end
  | [] => None
  end.
Definition scan_0x s : option (Z * str) :=
  match drop_space s with
  | c1 :: c2 :: s' => if bool_decide (c1 = "0"%char) && bool_decide (c2 = "x"%char) then scan_x s' else None
  | _ => None
  end.

(** The conversions of one line: the address and the hardware address, when all
    six were made.  The first word has no width: it is stored, in an array of 100
    bytes, whatever the rest of the line is. *)
Definition scan_arp_line (line : str) : Result (option (str * str)) :=
  match scan_s (Datatypes.length line) line with
  | None => Ok None
  | Some (ip, s1) =>
      if (99 <? zlength ip) then Error BadPointer
      else Ok (
        '(_, s2) ← scan_0x s1;
        '(_, s3) ← scan_0x s2;
        '(hwa, s4) ← scan_s 99 s3;
        '(_, s5) ← scan_s 99 s4;
        '(_, _) ← scan_s 99 s5;
        Some (ip, hwa))
  end.

(** ** Failures *)

Inductive InitFailure :=
  | ThreadAffinity | EalInit | BadAddress | NameTooLong | NoSocket | NoIpAddress | NoMacAddress | NoPool | NoPort
  | NoTxCallback | NoTxBuffer | NoMtu | MtuNotSet | NotStarted | NoLink | NoRing | AffinityNotRestored.

(** A step of the construction: it returns, throws, or does what it must not. *)
Inductive Init (A : Type) :=
  | Done (a : A)
  | Throw (e : InitFailure)
  | Crash (e : Fault).
Arguments Done {A} a.
Arguments Throw {A} e.
Arguments Crash {A} e.
#[global] Instance Init_ret : MRet Init := fun _ a => Done a.
#[global] Instance Init_bind : MBind Init :=
  fun _ _ f m => match m with Done a => f a | Throw e => Throw e | Crash e => Crash e end.

(** [if (!b) throw DriverInitFailure(...)]. *)
Definition require (b : bool) (e : InitFailure) : Init unit := if b then Done tt else Throw e.
Definition some_or {A} (o : option A) (e : InitFailure) : Init A := match o with Some a => Done a | None => Throw e end.

(** ** What the calls answer *)

Record Env := mkEnv {
  arp_lines : list str;                         (* /proc/net/arp *)
  garbage : list Z;                             (* uninitialised bytes of fromString *)
  name_garbage : ascii;                         (* and the byte behind the name in ifr_name *)
  socket_ok : bool;
  ioctl_SIOCGIFADDR : str -> option Z;          (* the address, converted to the host's order *)
  ioctl_SIOCGIFHWADDR : str -> option (list Z);
  eth_devices : list (Z * list Z);              (* the ports and their addresses, in order *)
  rte_pktmbuf_pool_create : Z -> bool;
  rte_eth_dev_is_valid_port : Z -> bool;
  rte_eth_dev_filter_supported : Z -> Z;
  rte_eth_dev_filter_ctrl : Z -> Z;
  rte_eth_add_tx_callback : Z -> bool;
  rte_zmalloc_socket : bool;
  rte_eth_dev_get_mtu : Z -> option Z;
  rte_eth_dev_set_mtu : Z -> Z -> Z;
  rte_eth_dev_start : Z -> Z;
  link_status : Z -> bool;
  link_speed : Z -> Z;
  rte_ring_create : bool;
  getaffinity_ok : bool;
  setaffinity_ok : bool;
  rte_eal_init : Z
}.

(** ** Initialisation *)

Section init.
Context `{Dpdk} (env : Env) (lib_after : rte).

(** One record, [arpTable.emplace(IpAddress::fromString(ip), hwa)]. *)
Definition arp_record (table : gmap IpAddress MacAddress) (line : str) : Init (gmap IpAddress MacAddress) :=
  match scan_arp_line line with
  | Error e => Crash e
  | Ok None => Done table
  | Ok (Some (ip, hwa)) =>
      let address := ip_fromString ip (garbage env) in
      match of_string hwa with
      | Error e => Crash e
      | Ok None => Throw BadAddress
      | Ok (Some mac) => Done (match table !! address with Some _ => table | None => <[address := mac]> table end)
      end
  end.
Fixpoint read_arp (table : gmap IpAddress MacAddress) (lines : list str) : Init (gmap IpAddress MacAddress) :=
  match lines with
  | [] => Done table
  | line :: lines => table ← arp_record table line; read_arp table lines
  end.

(** The name that the kernel sees: the terminator is written one byte too far.
    The structure has 40 bytes. *)
Definition IFNAMSIZ : Z := 16.
Definition ifr_name (ifname : str) : str := if bool_decide (name_garbage env = Ascii.zero) then ifname else ifname ++ [name_garbage env].

(** RTE_ETH_FOREACH_DEV, up to the first with our address; [port] stays 0 without one. *)
Definition find_port (localMac : MacAddress) : Z :=
  match find (fun d => equal (of_raw d.2) localMac) (eth_devices env) with Some d => d.1 | None => 0 end.

(** 98 percent of the link's speed. *)
Definition percent_98 : double := ddiv (of_Z 98) (of_Z 100).
Definition ETH_SPEED_NUM_NONE : Z := 0.
Definition bandwidth_of (speed : Z) : Init Z :=
  if speed =? ETH_SPEED_NUM_NONE then Done 10000
  else match to_u32 (dmul (of_Z speed) percent_98) with Some n => Done n | None => Crash OutOfRange end.

(** The filter is there if it is supported and could be added. *)
Definition hardware_filter (port : Z) : bool :=
  (0 <=? rte_eth_dev_filter_supported env port) && (0 <=? rte_eth_dev_filter_ctrl env port).

(** The addresses of the interface. *)
Definition query_interface (ifname : str) : Init (IpAddress * MacAddress) :=
  _ ← (if 40 <=? zlength ifname + 1 then Crash BadPointer else Done tt);
  _ ← require (zlength ifname <? IFNAMSIZ) NameTooLong;
  _ ← require (socket_ok env) NoSocket;
  localIp ← some_or (ioctl_SIOCGIFADDR env (ifr_name ifname)) NoIpAddress;
  hwaddr ← some_or (ioctl_SIOCGIFHWADDR env (ifr_name ifname)) NoMacAddress;
  Done (localIp, of_raw hwaddr).

(** The port, from the pool of mbufs to the loopback ring: its filter and its bandwidth. *)
Definition start_port (port : Z) : Init (bool * Z) :=
  _ ← require (rte_pktmbuf_pool_create env port) NoPool;
  _ ← require (rte_eth_dev_is_valid_port env port) NoPort;
  let hasHardwareFilter := hardware_filter port in
  _ ← require (rte_eth_add_tx_callback env port) NoTxCallback;
  _ ← require (rte_zmalloc_socket env) NoTxBuffer;
  mtu ← some_or (rte_eth_dev_get_mtu env port) NoMtu;
  _ ← require ((mtu =? MAX_PAYLOAD_SIZE) || (rte_eth_dev_set_mtu env port MAX_PAYLOAD_SIZE =? 0)) MtuNotSet;
  _ ← require (rte_eth_dev_start env port =? 0) NotStarted;
  _ ← require (link_status env port) NoLink;
  bandwidthMbps ← bandwidth_of (link_speed env port);
  _ ← require (rte_ring_create env) NoRing;
  Done (hasHardwareFilter, bandwidthMbps).

Definition _init (ifname : str) (priorityOverride : Z) : Init Impl :=
  arpTable ← read_arp ∅ (arp_lines env);
  '(localIp, localMac) ← query_interface ifname;
  '(hasHardwareFilter, bandwidthMbps) ← start_port (find_port localMac);
  Done (Impl_new arpTable localIp localMac priorityOverride hasHardwareFilter bandwidthMbps lib_after).

Definition _eal_init : Init unit := require (0 <=? rte_eal_init env) EalInit.

(** [Impl(ifname, argc, argv, config)]; without a configuration there is no override. *)
Definition Impl_eal (ifname : str) (config : option Z) : Init Impl :=
  _ ← require (getaffinity_ok env) ThreadAffinity;
  _ ← _eal_init;
  s ← _init ifname (default (-1) config);
  _ ← require (setaffinity_ok env) AffinityNotRestored;
  Done s.

(** [Impl(ifname, NO_EAL_INIT, config)] leaves the count of mbufs as the memory was. *)
Definition Impl_no_eal (uninitialised : Z) (ifname : str) (config : option Z) : Init Impl :=
  s ← _init ifname (default (-1) config);
  Done (s <| mbufsOutstanding := uninitialised |>).

End init.

(** ** The bandwidth *)

Lemma percent_98_value : percent_98 = S754_finite false 8827055269646172 (-53).
Proof. by vm_compute. Qed.

(** The bandwidth is never more than the speed of the link. *)
Lemma bandwidth_conservative speed :
  0 <= speed < 2 ^ 32 ->
  exists n, bandwidth_of speed = Done n /\ 0 <= n < 2 ^ 32 /\ (speed = 0 -> n = 10000) /\ (0 < speed -> n <= speed).
Proof.
  intros Hs. unfold bandwidth_of, ETH_SPEED_NUM_NONE. destruct (Z.eqb_spec speed 0) as [->|Hne]; [exists 10000; split_and!; [done|lia|lia|lia|lia]|].
  destruct speed as [|p|p]; [done| |lia]. rewrite percent_98_value.
  pose proof (dmul_below p 8827055269646172 (-53) ltac:(lia) ltac:(lia) ltac:(by vm_compute)) as Hb.
  destruct (below_to_u32 (Zpos p) _ Hs Hb) as (n & -> & Hn). exists n. split_and!; [done|lia|lia|lia|lia].
Qed.

(** ** The ARP table *)

Definition word s : Prop := s <> [] /\ Forall (fun c => isspace c = false) s.
Definition blank s : Prop := s <> [] /\ Forall (fun c => isspace c = true) s.

Lemma drop_space_blank g s : Forall (fun c => isspace c = true) g -> drop_space (g ++ s) = drop_space s.
Proof. induction 1 as [|c g Hc _ IH]; [done|]. cbn. by rewrite Hc. Qed.
Lemma drop_space_word w s : word w -> drop_space (w ++ s) = w ++ s.
Proof. intros [Hne Hw]. destruct w as [|c w]; [done|]. apply Forall_cons in Hw as [Hc _]. cbn. by rewrite Hc. Qed.

Lemma take_word_app w s :
  Forall (fun c => isspace c = false) w -> match s with c :: _ => isspace c = true | [] => True end -> take_word (w ++ s) = (w, s).
Proof.
  induction 1 as [|c w Hc _ IH]; intros Hs.
  - destruct s as [|c s]; [done|]. cbn [app take_word]. by rewrite Hs.
  - cbn [app take_word]. rewrite Hc. by rewrite IH.
Qed.

Lemma blank_starts g s : blank g -> match g ++ s with c :: _ => isspace c = true | [] => True end.
Proof. intros [Hne Hg]. destruct g as [|c g]; [done|]. by apply Forall_cons in Hg as [? _]. Qed.

(** A word is read after any white space, up to the next. *)
Lemma scan_s_word width g w s :
  Forall (fun c => isspace c = true) g -> word w -> (Datatypes.length w <= width)%nat ->
  match s with c :: _ => isspace c = true | [] => True end -> scan_s width (g ++ w ++ s) = Some (w, s).
Proof.
  intros Hg Hw Hl Hs. unfold scan_s. rewrite drop_space_blank, drop_space_word, take_word_app by (done || apply Hw).
  destruct Hw as [Hne _]. destruct w as [|c w]; [done|]. by rewrite take_ge, drop_ge by done.
Qed.

(** A one-digit number with its prefix. *)
Lemma scan_0x_digit g c v g' s :
  Forall (fun c => isspace c = true) g -> digit_value 16 c = Some v -> plain c -> blank g' ->
  exists n, scan_0x (g ++ chars "0x" ++ [c] ++ g' ++ s) = Some (n, g' ++ s).
Proof.
  intros Hg Hv Hc [Hne Hg']. destruct g' as [|c0 g']; [done|]. apply Forall_cons in Hg' as [Hc0 _].
  assert (digit_value 16 c0 = None) as Hd0.
  { unfold isspace in Hc0. apply orb_true_iff in Hc0. rewrite andb_true_iff, bool_decide_eq_true, !Nat.leb_le in Hc0.
    assert (0 <= Z.of_nat (nat_of_ascii c0) <= 32) as Hn by lia. unfold digit_value. rewrite !(proj2 (Z.leb_gt _ (Z.of_nat _))) by lia. done. }
  unfold scan_0x. rewrite drop_space_blank by done. cbn [app].
  change (chars "0x" ++ c :: c0 :: g' ++ s) with ("0"%char :: "x"%char :: c :: c0 :: g' ++ s).
  rewrite drop_space_plain by by vm_compute. rewrite !bool_decide_true by done. cbn [andb].
  unfold scan_x. rewrite drop_space_plain, sign_plain by done.
  assert (strip_0x (c :: c0 :: g' ++ s) = c :: c0 :: g' ++ s) as ->.
  { unfold strip_0x, starts_0x. rewrite !(bool_decide_false (c0 = _)); [by rewrite andb_false_r|by intros ->|by intros ->]. }
  rewrite Hv. cbn [scan_digits]. rewrite Hv, Hd0. eauto.
Qed.

(** A line of /proc/net/arp. *)
Record Entry := mkEntry { entry_ip : IpAddress; entry_mac : MacAddress; entry_type : ascii; entry_flags : ascii; entry_dev : str }.
Definition gap : str := chars "   ".
Definition print_entry (e : Entry) : str :=
  ip_toString (entry_ip e) ++ gap ++ chars "0x" ++ [entry_type e] ++ gap ++ chars "0x" ++ [entry_flags e] ++ gap ++
  toString (entry_mac e) ++ gap ++ chars "*" ++ gap ++ entry_dev e.
Definition hex_char c : Prop := plain c /\ is_Some (digit_value 16 c).
Definition entry_ok (e : Entry) : Prop :=
  0 <= entry_ip e < 2 ^ 32 /\ mac_ok (entry_mac e) /\ hex_char (entry_type e) /\ hex_char (entry_flags e) /\
  word (entry_dev e) /\ (Datatypes.length (entry_dev e) <= 99)%nat.

Lemma gap_blank : blank gap.
Proof. split; [done|by repeat constructor]. Qed.

Lemma word_app w1 w2 : word w1 -> Forall (fun c => isspace c = false) w2 -> word (w1 ++ w2).
Proof. intros [Hne H1] H2. split; [by destruct w1|by apply Forall_app]. Qed.

Lemma nonspace s : forallb (fun c => negb (isspace c)) s = true -> Forall (fun c => isspace c = false) s.
Proof. intros Hf. apply Forall_forall. intros c Hc. rewrite forallb_forall in Hf. apply negb_true_iff, Hf. by apply list_elem_of_In. Qed.
Lemma format_d_word b : 0 <= b < 256 -> word (format_d b) /\ (Datatypes.length (format_d b) <= 3)%nat.
Proof.
  intros Hb. assert (forallb (fun c => negb (isspace c)) (format_d b) && (1 <=? Datatypes.length (format_d b))%nat && (Datatypes.length (format_d b) <=? 3)%nat = true) as E.
  { by apply (every_byte (fun b => forallb (fun c => negb (isspace c)) (format_d b) && (1 <=? Datatypes.length (format_d b))%nat && (Datatypes.length (format_d b) <=? 3)%nat)). }
  rewrite !andb_true_iff, !Nat.leb_le in E. destruct E as [[E1 E2] E3]. split; [|done]. split; [by intros E; rewrite E in E2; cbn in E2; lia|by apply nonspace].
Qed.
Lemma format_02x_word b : 0 <= b < 256 -> Forall (fun c => isspace c = false) (format_02x b).
Proof. intros Hb. apply nonspace. by apply (every_byte (fun b => forallb (fun c => negb (isspace c)) (format_02x b))). Qed.

Lemma ip_word ip : word (ip_toString ip) /\ (Datatypes.length (ip_toString ip) <= 15)%nat.
Proof.
  unfold ip_toString. destruct (format_d_word _ (land_255_range (Z.shiftr ip 24))) as [W1 L1], (format_d_word _ (land_255_range (Z.shiftr ip 16))) as [[_ W2] L2],
    (format_d_word _ (land_255_range (Z.shiftr ip 8))) as [[_ W3] L3], (format_d_word _ (land_255_range ip)) as [[_ W4] L4].
  split; [|rewrite !length_app; change (Datatypes.length (chars ".")) with 1%nat; lia]. apply word_app; [done|]. repeat (apply Forall_app; split; [done || by repeat constructor|]). done.
Qed.

Lemma mac_word a : mac_ok a -> word (toString a) /\ Datatypes.length (toString a) = 17%nat.
Proof.
  intros Ha. pose proof (length_toString a Ha) as Hl. split; [|done]. split; [by intros E; rewrite E in Hl|].
  destruct Ha as [_ Hb]. clear Hl. unfold toString. induction Hb as [|b bs Hb Hbs IH]; [constructor|]. cbn [fmap list_fmap join] in *.
  destruct bs as [|b' bs]; [by apply format_02x_word|]. cbn [fmap list_fmap] in *. apply Forall_app. split; [by apply format_02x_word|].
  apply Forall_app. split; [by repeat constructor|done].
Qed.

(** A line of the table is read as the address and the hardware address in it. *)
Lemma scan_print e : entry_ok e -> scan_arp_line (print_entry e) = Ok (Some (ip_toString (entry_ip e), toString (entry_mac e))).
Proof.
  intros (Hip & Hmac & [Ht [vt Hvt]] & [Hf [vf Hvf]] & Hdev & Hdl). destruct (ip_word (entry_ip e)) as [Wip Lip].
  destruct (mac_word _ Hmac) as [Wmac Lmac]. pose proof gap_blank as Hgap. pose proof Hgap as [_ Hg].
  unfold scan_arp_line. set (line := print_entry e). assert (Datatypes.length (ip_toString (entry_ip e)) <= Datatypes.length line)%nat as Hlen.
  { unfold line, print_entry. rewrite length_app. lia. }
  set (rest := gap ++ chars "0x" ++ [entry_type e] ++ gap ++ chars "0x" ++ [entry_flags e] ++ gap ++ toString (entry_mac e) ++
    gap ++ chars "*" ++ gap ++ entry_dev e).
  pose proof (scan_s_word (Datatypes.length line) [] (ip_toString (entry_ip e)) rest ltac:(constructor) Wip Hlen ltac:(by apply blank_starts)) as Hfirst.
  change ([] ++ ip_toString (entry_ip e) ++ rest) with line in Hfirst. rewrite Hfirst, (proj2 (Z.ltb_ge _ _)) by (unfold zlength; lia). f_equal. unfold rest.
  destruct (scan_0x_digit gap (entry_type e) vt gap (chars "0x" ++ [entry_flags e] ++ gap ++ toString (entry_mac e) ++ gap ++ chars "*" ++ gap ++ entry_dev e) Hg Hvt Ht Hgap) as [n1 ->].
  cbn [mbind option_bind].
  destruct (scan_0x_digit gap (entry_flags e) vf gap (toString (entry_mac e) ++ gap ++ chars "*" ++ gap ++ entry_dev e) Hg Hvf Hf Hgap) as [n2 ->].
  cbn [mbind option_bind]. rewrite (scan_s_word 99 gap (toString (entry_mac e))) by (done || lia || by apply blank_starts). cbn [mbind option_bind].
  rewrite (scan_s_word 99 gap (chars "*") (gap ++ entry_dev e)) by (done || by apply blank_starts || (cbn; lia) || by split; [|repeat constructor]).
  cbn [mbind option_bind]. rewrite <- (app_nil_r (entry_dev e)). by rewrite scan_s_word.
Qed.

(** The first record of an address counts. *)
Definition first_mac (entries : list Entry) (ip : IpAddress) : option MacAddress :=
  entry_mac <$> find (fun e => entry_ip e =? ip) entries.

Lemma ip_fromString_toString env ip :
  Datatypes.length (garbage env) = 4%nat -> 0 <= ip < 2 ^ 32 -> ip_fromString (ip_toString ip) (garbage env) = ip.
Proof.
  intros Hg Hip. destruct (garbage env) as [|b0 [|b1 [|b2 [|b3 [|]]]]]; try done. by apply ip_reads_back.
Qed.

Lemma read_arp_entries env entries table :
  Datatypes.length (garbage env) = 4%nat -> Forall entry_ok entries ->
  exists table', read_arp env table (print_entry <$> entries) = Done table' /\
    forall ip, table' !! ip = match table !! ip with Some a => Some a | None => first_mac entries ip end.
Proof.
  intros Hg Hall. revert table. induction Hall as [|e entries He _ IH]; intros table.
  - exists table. split; [done|]. intros ip. cbn. by destruct (table !! ip).
  - cbn [fmap list_fmap read_arp]. pose proof He as (Hip & Hmac & _). unfold arp_record. rewrite scan_print by done.
    cbv zeta. rewrite ip_fromString_toString, mac_reads_back by done. cbn [mbind Init_bind].
    destruct (IH (match table !! entry_ip e with Some _ => table | None => <[entry_ip e := entry_mac e]> table end)) as (table' & Hr & Ht).
    exists table'. split; [exact Hr|]. intros ip. rewrite Ht. unfold first_mac. cbn [find].
    destruct (Z.eqb_spec (entry_ip e) ip) as [<-|Hne].
    + destruct (table !! entry_ip e) eqn:E; [by rewrite E|]. by rewrite lookup_insert_eq.
    + destruct (table !! entry_ip e) eqn:E; [done|]. by rewrite lookup_insert_ne.
Qed.

(** ** Properties *)

Lemma downCast_bytes_ok vs u bs u' :
  downCast_bytes vs u = Ok (bs, u') -> Datatypes.length bs = Datatypes.length vs /\ Forall (fun b => 0 <= b < 256) bs.
Proof.
  unfold downCast_bytes. revert u bs u'. induction vs as [|v vs IH]; intros u bs u'; cbn [mapM].
  - intros [= <- _]. split; [done|constructor].
  - intros (b & u1 & Hb & (bs' & u2 & Hbs & [= <- _])%bind_Ok)%bind_Ok. destruct (IH _ _ _ Hbs) as [Hl Hf]. split; [cbn; congruence|].
    constructor; [|done]. unfold Util.downCast in Hb. apply bind_Ok in Hb as (? & ? & _ & [= <- _]).
    unfold u8. change (2 ^ 8) with 256. by apply Z.mod_pos_bound.
Qed.

Lemma of_string_ok s a : of_string s = Ok (Some a) -> mac_ok a.
Proof.
  unfold of_string. destruct (Nat.eqb_spec (Datatypes.length (scan_fields scan_02x ":"%char 6 s)) 6) as [Hl|]; [|done]. cbn [negb].
  destruct (char_at s 17) as [c|]; [|done]. cbn [mbind Result_bind]. destruct (negb _); [done|].
  destruct (downCast_bytes _ tt) as [[bs []]|] eqn:Hd; [|done]. intros [= <-]. apply downCast_bytes_ok in Hd as [Hb Hf].
  split; [|done]. cbn. congruence.
Qed.

Lemma read_arp_ok env lines table table' :
  read_arp env table lines = Done table' -> (forall d a, table !! d = Some a -> mac_ok a) -> forall d a, table' !! d = Some a -> mac_ok a.
Proof.
  revert table. induction lines as [|line lines IH]; intros table; cbn [read_arp]; [by intros [= <-]|].
  unfold arp_record. destruct (scan_arp_line line) as [[[ip hwa]|]|]; cbn [mbind Init_bind]; [|apply IH|done].
  cbv zeta. destruct (of_string hwa) as [[mac|]|] eqn:Hmac; cbn [mbind Init_bind]; try done.
  intros Hr Hok. eapply IH; [exact Hr|]. intros d a. case_match; [apply Hok|].
  intros [[_ <-]|[_ Ha]]%lookup_insert_Some; [by eapply of_string_ok|by eapply Hok].
Qed.

(** The ARP table of the driver holds, for each address, the hardware address of
    its first line in /proc/net/arp; the line with the titles is skipped. *)
Theorem arp_table_read env titles entries :
  Datatypes.length (garbage env) = 4%nat -> scan_arp_line titles = Ok None -> Forall entry_ok entries ->
  exists table, read_arp env ∅ (titles :: (print_entry <$> entries)) = Done table /\
    forall ip, table !! ip = first_mac entries ip.
Proof.
  intros Hg Ht Hall. cbn [read_arp]. unfold arp_record at 1. rewrite Ht. cbn [mbind Init_bind].
  destruct (read_arp_entries env entries ∅ Hg Hall) as (table & -> & Hl). exists table. split; [done|]. intros ip. by rewrite Hl, lookup_empty.
Qed.

Section ready.
Context `{DpdkInv.DpdkViews}.

(** What the answers are like. *)
Record env_ok (env : Env) : Prop := {
  speeds port : 0 <= link_speed env port < 2 ^ 32;
  hwaddrs name h : ioctl_SIOCGIFHWADDR env name = Some h -> (6 <= Datatypes.length h)%nat /\ Forall (fun b => 0 <= b < 256) h
}.

Lemma start_port_ok env port filter mbps :
  env_ok env -> start_port env port = Done (filter, mbps) ->
  filter = hardware_filter env port /\ 0 <= mbps < 2 ^ 32 /\
  (link_speed env port = 0 -> mbps = 10000) /\ (0 < link_speed env port -> mbps <= link_speed env port).
Proof.
  intros [Hspeed _]. unfold start_port.
  destruct (rte_pktmbuf_pool_create env port); cbn [require mbind Init_bind]; [|done].
  destruct (rte_eth_dev_is_valid_port env port); cbn [require mbind Init_bind]; [|done].
  destruct (rte_eth_add_tx_callback env port); cbn [require mbind Init_bind]; [|done].
  destruct (rte_zmalloc_socket env); cbn [require mbind Init_bind]; [|done].
  destruct (rte_eth_dev_get_mtu env port) as [mtu|]; cbn [some_or mbind Init_bind]; [|done].
  destruct ((mtu =? MAX_PAYLOAD_SIZE) || (rte_eth_dev_set_mtu env port MAX_PAYLOAD_SIZE =? 0)); cbn [require mbind Init_bind]; [|done].
  destruct (rte_eth_dev_start env port =? 0); cbn [require mbind Init_bind]; [|done].
  destruct (link_status env port); cbn [require mbind Init_bind]; [|done].
  destruct (bandwidth_conservative (link_speed env port) (Hspeed port)) as (n & -> & Hn & Hzero & Hle). cbn [mbind Init_bind].
  destruct (rte_ring_create env); cbn [require mbind Init_bind]; [|done]. by intros [= <- <-].
Qed.

Lemma query_interface_ok env ifname ip mac :
  env_ok env -> query_interface env ifname = Done (ip, mac) -> ioctl_SIOCGIFADDR env (ifr_name env ifname) = Some ip /\ mac_ok mac.
Proof.
  intros [_ Hhw]. unfold query_interface. destruct (40 <=? zlength ifname + 1); cbn [mbind Init_bind]; [done|].
  destruct (zlength ifname <? IFNAMSIZ); cbn [require mbind Init_bind]; [|done].
  destruct (socket_ok env); cbn [require mbind Init_bind]; [|done].
  destruct (ioctl_SIOCGIFADDR env (ifr_name env ifname)) as [ip'|]; cbn [some_or mbind Init_bind]; [|done].
  destruct (ioctl_SIOCGIFHWADDR env (ifr_name env ifname)) as [hwaddr|] eqn:Hhwaddr; cbn [some_or mbind Init_bind]; [|done].
  intros [= <- <-]. split; [done|]. destruct (Hhw _ _ Hhwaddr) as [Hl Hb].
  split; [cbn; rewrite length_take; lia|by apply Forall_take].
Qed.

(** C28: A construction that returns leaves a driver on which every allowed call works:
    the state in which the calls of the interface are proved to return.  Its
    bandwidth is never above the speed of the link, its filter is the NIC's only
    if the NIC supports it and took it, and its priorities are eight unless the
    configuration says otherwise. *)
Theorem init_ready env lib_after ifname config (s : Impl) :
  env_ok env -> DpdkProps.fresh_lib lib_after -> Impl_eal env lib_after ifname config = Done s ->
  DpdkProps.reachable s /\
  ioctl_SIOCGIFADDR env (ifr_name env ifname) = Some (localIp s) /\
  (let port := find_port env (localMac s) in
   (link_speed env port = 0 -> bandwidthMbps s = 10000) /\
   (0 < link_speed env port -> bandwidthMbps s <= link_speed env port) /\
   (hasHardwareFilter s = true <-> 0 <= rte_eth_dev_filter_supported env port /\ 0 <= rte_eth_dev_filter_ctrl env port)) /\
  HIGHEST_PACKET_PRIORITY s = (if default (-1) config <? 0 then 7 else default (-1) config).
Proof.
  intros Henv Hlib. unfold Impl_eal, _eal_init, _init.
  destruct (getaffinity_ok env); cbn [require mbind Init_bind]; [|done].
  destruct (0 <=? rte_eal_init env); cbn [require mbind Init_bind]; [|done].
  destruct (read_arp env ∅ (arp_lines env)) as [table| |] eqn:Harp; cbn [mbind Init_bind]; [|done..].
  destruct (query_interface env ifname) as [[ip mac]| |] eqn:Hq; cbn [mbind Init_bind]; [|done..].
  destruct (start_port env (find_port env mac)) as [[filter mbps]| |] eqn:Hport; cbn [mbind Init_bind]; [|done..].
  apply query_interface_ok in Hq as [Hip Hmac]; [|done]. apply start_port_ok in Hport as (-> & Hmbps & Hzero & Hle); [|done].
  destruct (setaffinity_ok env); cbn [require mbind Init_bind]; [|done].
  intros [= <-]. split; [|split; [done|]].
  - apply DpdkProps.reachable_new; [done|done|done|eapply read_arp_ok; [exact Harp|]; intros d a; by rewrite lookup_empty].
  - split; [|done]. split; [done|]. split; [done|]. cbn. unfold hardware_filter. by rewrite andb_true_iff, !Z.leb_le.
Qed.
End ready.

(** ** Witnesses *)

Import DpdkSample.
Definition titles : str := chars "IP address       HW type     Flags       HW address            Mask     Device".
Definition sample_entries : list Entry :=
  [mkEntry 3232235530 (mkMacAddress [2; 0; 0; 0; 0; 1]) "1"%char "2"%char (chars "eth0");
   mkEntry 3232235531 (mkMacAddress [2; 0; 0; 0; 0; 171]) "1"%char "2"%char (chars "eth0");
   mkEntry 3232235530 (mkMacAddress [2; 0; 0; 0; 0; 3]) "1"%char "0"%char (chars "eth1")].
Definition sample_env : Env :=
  mkEnv (titles :: (print_entry <$> sample_entries)) [0; 0; 0; 0] Ascii.zero true (fun _ => Some 3232235530)
    (fun _ => Some [2; 0; 0; 0; 0; 1]) [(0, [2; 0; 0; 0; 0; 9]); (1, [2; 0; 0; 0; 0; 1])] (fun _ => true) (fun _ => true)
    (fun _ => 0) (fun _ => -22) (fun _ => true) true (fun _ => Some 9000) (fun _ _ => 0) (fun _ => 0) (fun _ => true)
    (fun port => if port =? 1 then 25000 else 0) true true true 0.

Lemma sample_entries_ok : Forall entry_ok sample_entries.
Proof.
  assert (forall c, plain c -> is_Some (digit_value 16 c) -> hex_char c) as Hhex by done.
  repeat constructor; cbn; try lia; try done; try (by eexists); by vm_compute.
Qed.

Lemma arp_table_read_witness :
  exists table, read_arp sample_env ∅ (titles :: (print_entry <$> sample_entries)) = Done table /\
    forall ip, table !! ip = first_mac sample_entries ip.
Proof. apply arp_table_read; [reflexivity|vm_compute; reflexivity|apply sample_entries_ok]. Defined.

Definition empty_lib : DpdkSample.Lib := DpdkSample.mkLib (fun _ => 0) (fun _ => []) [] [] 1 [] [].
Definition sample_init : Init Impl := Impl_eal (H := DpdkSample.sample_dpdk) sample_env empty_lib (chars "eth0") None.
(** The interface is port 1, at 25 Gigabits; no filter could be added. *)
Example sample_init_bandwidth :
  match sample_init with Done s => (bandwidthMbps s, hasHardwareFilter s, HIGHEST_PACKET_PRIORITY s) | _ => (-1, true, -1) end = (24500, false, 7).
Proof. by vm_compute. Qed.

Lemma init_ready_witness :
  exists s : Impl, sample_init = Done s /\ DpdkProps.reachable s /\
    ioctl_SIOCGIFADDR sample_env (ifr_name sample_env (chars "eth0")) = Some (localIp s) /\
    (let port := find_port sample_env (localMac s) in
     (link_speed sample_env port = 0 -> bandwidthMbps s = 10000) /\
     (0 < link_speed sample_env port -> bandwidthMbps s <= link_speed sample_env port) /\
     (hasHardwareFilter s = true <-> 0 <= rte_eth_dev_filter_supported sample_env port /\ 0 <= rte_eth_dev_filter_ctrl sample_env port)) /\
    HIGHEST_PACKET_PRIORITY s = (if default (-1) None <? 0 then 7 else default (-1) None).
Proof.
  assert (match sample_init with Done _ => true | _ => false end = true) as Hd by (vm_compute; reflexivity).
  destruct sample_init as [s| |] eqn:Hs; try discriminate. exists s. split; [reflexivity|].
  apply (@init_ready sample_dpdk sample_views sample_env empty_lib (chars "eth0") None s).
  - split; [|intros name h Hh; injection Hh as <-; split; [cbn; lia|repeat constructor; lia]].
    intros port. cbn. destruct (port =? 1); lia.
  - split; [|split; reflexivity]. split; cbn; [reflexivity || (intros; lia)| |reflexivity|intros; vm_compute; congruence].
    intros m _. split; [reflexivity|]. split; apply not_elem_of_nil.
  - exact Hs.
Defined.

End DpdkInit.
