(* ===== verification/ThreadId.v ===== *)
(** * ThreadId: src/src/ThreadId.cc

    Ids and names of threads.  The thread-local variable [id] is a map from the
    thread to its value, 0 before the first use; the counter and the names are
    shared and behind a mutex, so each operation is a step. *)

From stdpp Require Import pretty.
From S2P Require Import Prelude StringUtil.
Import StringUtil.

Module ThreadId.

Definition NONE : Z := 0.

Record Internal := mkInternal {
  id : gmap nat Z;
  nextId : Z;
  threadNames : gmap Z str }.
#[global] Instance Internal_eta : Eta Internal := fun r => mkInternal (id r) (nextId r) (threadNames r).

Definition Internal_new : Internal := mkInternal ∅ 1 ∅.

Definition local_id (t : nat) (s : Internal) : Z := default NONE (id s !! t).

Definition assign (t : nat) : M Internal unit :=
  modify (fun s => mkInternal (<[t := nextId s]> (id s)) (u64 (nextId s + 1)) (threadNames s)).

Definition getId (t : nat) : M Internal Z :=
  i ← gets (local_id t);
  _ ← when (i =? 0) (assign t);
  gets (local_id t).

Definition setName (t : nat) (name : str) : M Internal unit :=
  i ← getId t;
  match name with
  | [] => modify (fun s => s <| threadNames ::= delete i |>)
  | _ :: _ => modify (fun s => s <| threadNames ::= <[i := name]> |>)
  end.

(** [StringUtil::format("thread %lu", id)]. *)
Definition default_name (i : Z) : str := chars "thread " ++ chars (pretty (Z.to_N i)).

Definition getName (t : nat) : M Internal str :=
  i ← getId t;
  s ← get;
  mret (default (default_name i) (threadNames s !! i)).

(** ** Ids *)

Inductive Op := OpGetId (t : nat) | OpSetName (t : nat) (name : str) | OpGetName (t : nat).
Definition op_thread (o : Op) : nat := match o with OpGetId t | OpSetName t _ | OpGetName t => t end.
Definition run (o : Op) : M Internal unit :=
  match o with
  | OpGetId t => _ ← getId t; mret tt
  | OpSetName t name => setName t name
  | OpGetName t => _ ← getName t; mret tt
  end.

(** The counter does not wrap: fewer than 2^64 - 1 threads have asked for an id. *)
Inductive reachable : Internal -> Prop :=
  | reach_new : reachable Internal_new
  | reach_run s o s' : reachable s -> nextId s < 2 ^ 64 - 1 -> run o s = Ok (tt, s') -> reachable s'.

(** Ids were given out once each, and only they have names. *)
Record inv (s : Internal) : Prop := {
  inv_next : 0 < nextId s;
  inv_given : forall t i, id s !! t = Some i -> 0 < i < nextId s;
  inv_once : forall t t' i, id s !! t = Some i -> id s !! t' = Some i -> t = t';
  inv_named : forall i, is_Some (threadNames s !! i) -> exists t, id s !! t = Some i }.

Implicit Types (s : Internal) (t : nat).

Lemma local_id_zero s t : inv s -> local_id t s = 0 -> id s !! t = None.
Proof.
  intros Hi. unfold local_id. destruct (id s !! t) as [i|] eqn:Ht; [|done]. cbn. pose proof (inv_given s Hi t i Ht). lia.
Qed.

(** [getId] keeps what was given out, and all names. *)
Lemma getId_spec t s :
  inv s -> nextId s < 2 ^ 64 - 1 ->
  wp (getId t) s (fun i s' => inv s' /\ id s' !! t = Some i /\ threadNames s' = threadNames s /\
    nextId s' <= nextId s + 1 /\
    (forall t' j, id s !! t' = Some j -> id s' !! t' = Some j) /\
    (forall j, id s !! t = None -> id s' !! t = Some j -> forall t', id s !! t' <> Some j)).
Proof.
  intros Hi Hb. unfold getId. wp_step. destruct (local_id t s =? 0) eqn:Hz.
  - apply Z.eqb_eq in Hz. pose proof (local_id_zero s t Hi Hz) as Ht. cbn [when].
    assert (u64 (nextId s + 1) = nextId s + 1) as Hu by (apply u64_small; pose proof (inv_next s Hi); lia).
    unfold assign, local_id. do 3 wp_step. rewrite Ht. change (default NONE None =? 0) with true. cbv iota. do 2 wp_step. rewrite Hu. cbn [id nextId threadNames]. rewrite lookup_insert_eq. cbn [default].
    split_and!; [|done|done|lia| |].
    + split; cbn [id nextId threadNames].
      * pose proof (inv_next s Hi). lia.
      * intros t' i. rewrite lookup_insert_Some. pose proof (inv_next s Hi).
        intros [[_ <-]|[_ Hj]]; [lia|]. pose proof (inv_given s Hi _ _ Hj). lia.
      * intros t1 t2 i. rewrite !lookup_insert_Some. intros [[<- <-]|[_ H1]] [[<- H2]|[_ H2]]; try done.
        -- pose proof (inv_given s Hi _ _ H2). lia.
        -- subst. pose proof (inv_given s Hi _ _ H1). lia.
        -- by eapply (inv_once s Hi).
      * intros i Hn. destruct (inv_named s Hi i Hn) as [t' Ht']. exists t'. rewrite lookup_insert_ne; [done|congruence].
    + intros t' j Hj. rewrite lookup_insert_ne; [done|congruence].
    + intros j _. intros [= <-] t' Hj. pose proof (inv_given s Hi _ _ Hj). lia.
  - pose proof Hz as Hz'. apply Z.eqb_neq in Hz'. unfold local_id in *. destruct (id s !! t) as [i|] eqn:Ht; [|done].
    do 3 wp_step. rewrite Ht, Hz. do 2 wp_step. rewrite Ht. cbn [default from_option]. split_and!; [done..|lia|done|]. intros j [=].
Qed.

Lemma inv_names s names i t :
  inv s -> id s !! t = Some i -> (forall j, j <> i -> names !! j = threadNames s !! j) ->
  inv (mkInternal (id s) (nextId s) names).
Proof.
  intros Hi Ht Hj. split; cbn [id nextId threadNames]; [apply (inv_next s Hi)|apply (inv_given s Hi)|apply (inv_once s Hi)|].
  intros j Hs. destruct (decide (j = i)) as [->|Hne]; [by exists t|]. rewrite Hj in Hs by done. by apply (inv_named s Hi).
Qed.

Lemma setName_spec t name s :
  inv s -> nextId s < 2 ^ 64 - 1 ->
  wp (setName t name) s (fun _ s' => inv s' /\ nextId s' <= nextId s + 1 /\
    (forall t' j, id s !! t' = Some j -> id s' !! t' = Some j) /\
    exists i, id s' !! t = Some i /\ (forall j, j <> i -> threadNames s' !! j = threadNames s !! j) /\
      threadNames s' !! i = match name with [] => None | _ :: _ => Some name end).
Proof.
  intros Hi Hb. unfold setName. wp_step. eapply wp_mono; [by apply getId_spec|]. intros i s1 (Hi1 & Ht & <- & Hn & Hk & _).
  destruct name as [|c name]; wp_step; (split_and!; [eapply inv_names; [done|exact Ht|]|done|exact Hk|exists i; split_and!; [exact Ht| |]]).
  - intros j Hne. by rewrite lookup_delete_ne.
  - intros j Hne. unfold over. cbn. by rewrite lookup_delete_ne.
  - unfold over. cbn. by rewrite lookup_delete_eq.
  - intros j Hne. by rewrite lookup_insert_ne.
  - intros j Hne. unfold over. cbn. by rewrite lookup_insert_ne.
  - unfold over. cbn. by rewrite lookup_insert_eq.
Qed.

(** [run] changes at most the name of its own thread. *)
Lemma run_keeps o s :
  inv s -> nextId s < 2 ^ 64 - 1 ->
  wp (run o) s (fun _ s' => inv s' /\ nextId s' <= nextId s + 1 /\ (forall t i, id s !! t = Some i -> id s' !! t = Some i) /\
    (forall i, id s' !! op_thread o <> Some i -> threadNames s' !! i = threadNames s !! i)).
Proof.
  intros Hi Hb. destruct o as [t|t name|t]; cbn [run op_thread]; unfold getName; rewrite ?wp_bind.
  1, 3: eapply wp_mono; [by apply getId_spec|]; intros i s1 (? & ? & Hn & ? & ? & _); repeat wp_step; split_and!; [done..|];
    intros ? _; by rewrite Hn.
  eapply wp_mono; [by apply setName_spec|]. intros _ s1 (? & ? & ? & i & Ht & Hn & _). split_and!; [done..|].
  intros j Hne. apply Hn. congruence.
Qed.

Lemma thread_reachable_inv s : reachable s -> inv s.
Proof.
  induction 1 as [|s o s' _ IH Hb Hr]; [|by pose proof (run_keeps o s IH Hb) as Hw; unfold wp in Hw; rewrite Hr in Hw; destruct Hw].
  split; cbn; [done|by intros ? ? Ht..|intros ? Hn]. exfalso. by destruct Hn.
Qed.

(** ** Properties *)

(** A thread gets the same id every time, never 0, and never the id of another
    thread. *)
Theorem getId_unique t s :
  reachable s -> nextId s < 2 ^ 64 - 1 ->
  wp (getId t) s (fun i s' => i <> NONE /\ (forall t', t' <> t -> id s' !! t' <> Some i) /\
    (forall o s'', nextId s' < 2 ^ 64 - 1 -> run o s' = Ok (tt, s'') -> id s'' !! t = Some i)).
Proof.
  intros Hr Hb. eapply wp_mono; [apply getId_spec; [by apply thread_reachable_inv|done]|]. intros i s' (Hi & Ht & _). split_and!.
  - pose proof (inv_given s' Hi _ _ Ht). unfold NONE. lia.
  - intros t' Hne Ht'. apply Hne. by eapply (inv_once s' Hi).
  - intros o s'' Hb' Hrun. pose proof (run_keeps o s' Hi Hb') as Hw. unfold wp in Hw. rewrite Hrun in Hw. destruct Hw as (_ & _ & Hk & _). by apply Hk.
Qed.

(** A thread reads back the name it set, whatever one other thread did in
    between; the empty name stands for the default. *)
Theorem getName_setName t name o s :
  reachable s -> nextId s < 2 ^ 64 - 3 -> op_thread o <> t ->
  wp (_ ← setName t name; _ ← run o; getName t) s (fun n s' =>
    n = match name with [] => default_name (local_id t s') | _ :: _ => name end).
Proof.
  intros Hr Hb Hne. wp_step. eapply wp_mono; [apply setName_spec; [by apply thread_reachable_inv|lia]|].
  intros _ s1 (Hi1 & Hb1 & _ & i & Ht & _ & Hname). wp_step. eapply wp_mono; [apply run_keeps; [done|lia]|].
  intros _ s2 (Hi2 & Hb2 & Hk & Hn). unfold getName. wp_step. eapply wp_mono; [apply getId_spec; [done|lia]|].
  intros j s3 (Hi3 & Hj & Hn3 & _ & Hk3 & _). do 2 wp_step. pose proof (Hk _ _ Ht) as Ht2. pose proof (Hk3 _ _ Ht2) as Ht3.
  assert (j = i) as -> by congruence. rewrite Hn3, Hn, Hname.
  - unfold local_id. destruct name; [|done]. cbn. by rewrite Hj.
  - intros Ho. apply Hne. by eapply (inv_once s2 Hi2).
Qed.

(** ** Witnesses *)

Lemma getId_unique_witness :
  wp (getId 3) Internal_new (fun i s' => i <> NONE /\ (forall t', t' <> 3%nat -> id s' !! t' <> Some i) /\
    (forall o s'', nextId s' < 2 ^ 64 - 1 -> run o s' = Ok (tt, s'') -> id s'' !! 3%nat = Some i)).
Proof. apply (getId_unique 3 Internal_new); [apply reach_new|reflexivity]. Defined.

Lemma getName_setName_witness :
  wp (_ ← setName 1 (chars "main"); _ ← run (OpSetName 2 (chars "poller")); getName 1) Internal_new
    (fun n s' => n = chars "main").
Proof. apply (getName_setName 1 (chars "main") (OpSetName 2 (chars "poller")) Internal_new); [apply reach_new|reflexivity|cbn; congruence]. Defined.

Example unnamed_thread : fst <$> (match getName 4 Internal_new with Ok r => Some r | Error _ => None end) = Some (chars "thread 1").
Proof. by vm_compute. Qed.

End ThreadId.
