(* ===== verification/Tub.v ===== *)
(** * Tub: src/src/Tub.h

    Storage for at most one object, built and destroyed on demand.  [object] is
    what lives in the raw storage; [log] records the constructors and destructors
    of the element type that ran. *)

From S2P Require Import Prelude.

Module Tub.

Section tub.
Context {ElementType : Type}.
Implicit Types (v : ElementType).

Inductive Event := Constructed v | Destroyed v.

Record Tub := mkTub { object : option ElementType; occupied : bool; log : list Event }.

Definition Tub_new : Tub := mkTub None false [].

(** [object->~ElementType()] needs an object that lives. *)
Definition destroy : M Tub unit :=
  t ← get;
  when (occupied t)
    (match object t with
     | Some v => modify (fun t => mkTub None false (log t ++ [Destroyed v]))
     | None => fault BadPointer
     end).

Definition construct v : M Tub unit :=
  _ ← destroy;
  modify (fun t => mkTub (Some v) true (log t ++ [Constructed v])).

(** The constructors from an element and from a Tub. *)
Definition Tub_of v : M Tub unit := construct v.
Definition Tub_copy (other : Tub) : M Tub unit :=
  if occupied other then
    match object other with Some v => construct v | None => fault BadPointer end
  else mret tt.

(** [*this = other]; [self] when they are the same Tub. *)
Definition assign (self : bool) (other : Tub) : M Tub unit :=
  if self then mret tt
  else if occupied other then
    match object other with
    | None => fault BadPointer
    | Some v =>
        t ← get;
        if occupied t then
          match object t with
          | Some _ => modify (fun t => mkTub (Some v) (occupied t) (log t))
          | None => fault BadPointer
          end
        else construct v
    end
  else destroy.

(** [get()]: null when empty; [operator*] and [operator->] follow the pointer. *)
Definition get_ (t : Tub) : option ElementType := if occupied t then object t else None.
Definition deref (t : Tub) : Result ElementType :=
  match get_ t with Some v => Ok v | None => Error BadPointer end.
Definition operator_bool (t : Tub) : bool := occupied t.

(** ** Lifetimes *)

Inductive Op := OpConstruct v | OpDestroy | OpAssign (self : bool) (other : Tub).
Definition run (o : Op) : M Tub unit :=
  match o with OpConstruct v => construct v | OpDestroy => destroy | OpAssign self other => assign self other end.

(** What the Tub should hold after [o]. *)
Definition expected (now : option ElementType) (o : Op) : option ElementType :=
  match o with
  | OpConstruct v => Some v
  | OpDestroy => None
  | OpAssign self other => if self then now else get_ other
  end.

(** Objects that were constructed and not destroyed. *)
Definition balance (l : list Event) : Z :=
  foldr (fun e n => match e with Constructed _ => n + 1 | Destroyed _ => n - 1 end) 0 l.
#[local] Arguments balance : simpl never.

Record inv (t : Tub) : Prop := {
  inv_object : occupied t = bool_decide (is_Some (object t));
  inv_balance : balance (log t) = if occupied t then 1 else 0 }.

Lemma balance_app l l' : balance (l ++ l') = balance l + balance l'.
Proof. unfold balance. induction l as [|[] l IH]; cbn [app foldr]; [done|..]; rewrite IH; lia. Qed.

Lemma destroy_spec t : inv t -> wp destroy t (fun _ t' => inv t' /\ get_ t' = None /\ occupied t' = false).
Proof.
  intros [Ho Hb]. unfold destroy. wp_step. wp_step. wp_step. destruct t as [[v|] o l]; cbn in *; subst o; cbn [when]; wp_step.
  - split; [|done]. split; [done|]. cbn. by rewrite balance_app, Hb.
  - done.
Qed.

Lemma construct_spec v t : inv t -> wp (construct v) t (fun _ t' => inv t' /\ get_ t' = Some v).
Proof.
  intros Hi. unfold construct. wp_step. eapply wp_mono; [by apply destroy_spec|]. intros _ t' ([Ho Hb] & _ & Hn). wp_step.
  split; [|done]. split; [done|]. cbn. by rewrite balance_app, Hb, Hn.
Qed.

Lemma tub_run_spec o t :
  inv t -> match o with OpAssign _ other => inv other | _ => True end ->
  wp (run o) t (fun _ t' => inv t' /\ get_ t' = expected (get_ t) o).
Proof.
  intros Hi Ho. destruct o as [v| |self other]; cbn [run expected].
  - by apply construct_spec.
  - eapply wp_mono; [by apply destroy_spec|]. naive_solver.
  - unfold assign. destruct self; [done|]. destruct Ho as [Ho _]. destruct other as [[v|] o l]; cbn in Ho; subst o; cbn.
    + do 2 wp_step. destruct Hi as [Ht Hb]. destruct t as [[v'|] o l']; cbn in *; subst o; cbn.
      * by repeat split.
      * by apply construct_spec.
    + eapply wp_mono; [by apply destroy_spec|]. naive_solver.
Qed.

(** ** Properties *)

(** After any use of a Tub: it holds what the last call put there, nothing was
    read or destroyed that did not live, and when the Tub is destroyed, as many
    objects were destroyed as were built. *)
Theorem tub_lifetimes ops :
  Forall (fun o => match o with OpAssign _ other => inv other | _ => True end) ops ->
  wp (for_each ops run) Tub_new (fun _ t =>
    get_ t = fold_left expected ops None /\ wp destroy t (fun _ t' => balance (log t') = 0)).
Proof.
  intros Hops. apply (wp_for_each (fun l t => inv t /\ exists pre, ops = pre ++ l /\ get_ t = fold_left expected pre None)).
  - split; [by split|]. by exists [].
  - intros o l t (Hi & pre & He & Hg). assert (match o with OpAssign _ other => inv other | _ => True end) as Ho.
    { rewrite He in Hops. apply Forall_app in Hops as [_ Hops]. by apply Forall_cons in Hops as [? _]. }
    eapply wp_mono; [by apply tub_run_spec|]. intros _ t' [Hi' Hg']. split; [done|]. exists (pre ++ [o]).
    rewrite <- app_assoc, fold_left_app. cbn. by rewrite Hg', Hg.
  - intros t (Hi & pre & He & Hg). rewrite app_nil_r in He. subst. split; [done|].
    eapply wp_mono; [by apply destroy_spec|]. intros _ t' ([_ Hb] & _ & Hn). by rewrite Hb, Hn.
Qed.
End tub.
Arguments Tub : clear implicits.
Arguments Op : clear implicits.

(** ** Witnesses *)

Lemma tub_lifetimes_witness :
  wp (for_each [OpConstruct 1; OpConstruct 2; OpAssign true Tub_new; OpDestroy; OpAssign false (mkTub (Some 3) true [Constructed 3])] run)
    Tub_new (fun _ t => get_ t = Some 3 /\ wp destroy t (fun _ t' => balance (log t') = 0)).
Proof.
  apply (tub_lifetimes [OpConstruct 1; OpConstruct 2; OpAssign true Tub_new; OpDestroy; OpAssign false (mkTub (Some 3) true [Constructed 3])]).
  repeat constructor.
Defined.
End Tub.
