(* ===== verification/LogOutput.v ===== *)
(** * LogOutput: where log messages go (src/src/Debug.cc, src/src/Debug.h)

    [log] hands a message to the handler that the application set, or prints a line
    to the log file; the macro LOG asks the policy first.  Handlers and files are
    named by numbers, and what they were given is recorded.  The time, which
    [clock_gettime] returns, is an argument. *)

From S2P Require Import Prelude ObjectPool StringUtil Address Debug ThreadId.
From Stdlib Require Import Ascii.
From Stdlib Require String.
Import StringUtil Debug.

Module LogOutput.
#[local] Open Scope string_scope.
#[local] Open Scope list_scope.
#[local] Open Scope Z_scope.

Record Log := mkLog {
  debug : Debug.State;
  threads : ThreadId.Internal;
  processName : str;
  stream : Z;
  logHandler : option Z;
  handled : list (Z * DebugMessage);
  written : list (Z * str)
}.
#[global] Instance eta_Log : Eta Log := fun r =>
  mkLog (debug r) (threads r) (processName r) (stream r) (logHandler r) (handled r) (written r).

Definition debug_op {A} (m : M Debug.State A) : M Log A := zoom debug (fun d s => s <| debug := d |>) m.
Definition threads_op {A} (m : M ThreadId.Internal A) : M Log A := zoom threads (fun i s => s <| threads := i |>) m.

(** [setLogFile], [setLogHandler]: the old one is returned. *)
Definition setLogFile (newFile : Z) : M Log Z :=
  old ← gets stream; _ ← modify (fun s => s <| stream := newFile |>); mret old.
Definition setLogHandler (handler : option Z) : M Log (option Z) :=
  old ← gets logHandler; _ ← modify (fun s => s <| logHandler := handler |>); mret old.

(** ** Time stamps *)

(** [gmtime_r]: the date of a day since 1970 in the Gregorian calendar, with years
    that begin in March; [None] when the year does not fit an [int]. *)
Definition civil (days : Z) : Z * Z * Z :=
  let z := days + 719468 in
  let era := z / 146097 in
  let doe := z mod 146097 in
  let yoe := (doe - doe / 1460 + doe / 36524 - doe / 146096) / 365 in
  let doy := doe - (365 * yoe + yoe / 4 - yoe / 100) in
  let mp := (5 * doy + 2) / 153 in
  let month := if mp <? 10 then mp + 3 else mp - 9 in
  (yoe + era * 400 + (if month <=? 2 then 1 else 0), month, doy - (153 * mp + 2) / 5 + 1).
Record tm := mkTm { tm_year : Z; tm_mon : Z; tm_mday : Z; tm_hour : Z; tm_min : Z; tm_sec : Z }.
Definition gmtime_r (t : Z) : option tm :=
  let '(year, month, day) := civil (t / 86400) in
  let r := t mod 86400 in
  if (-2 ^ 31 <=? year - 1900) && (year - 1900 <? 2 ^ 31) then Some (mkTm year month day (r / 3600) (r / 60 mod 60) (r mod 60)) else None.

(** Decimal with at least [width] digits; 20 are enough for 64 bits. *)
Definition padded (width : nat) (n : Z) : str :=
  let s := Address.dec_digits 20 n [] in repeat "0"%char (width - List.length s) ++ s.
(** [strftime("%F %T")], for years from 1000 on. *)
Definition strftime (c : tm) : str :=
  padded 4 (tm_year c) ++ chars "-" ++ padded 2 (tm_mon c) ++ chars "-" ++ padded 2 (tm_mday c) ++ chars " " ++
  padded 2 (tm_hour c) ++ chars ":" ++ padded 2 (tm_min c) ++ chars ":" ++ padded 2 (tm_sec c).
Definition formattedSeconds (t : Z) : str :=
  match gmtime_r t with Some c => strftime c | None => padded 10 t end.

(** ** log *)

Section log.
Variable literal : ptr -> str.
Variable filePrefix : str.

(** The line that [fprintf] prints; [now] is in seconds and nanoseconds. *)
Definition log_line (now : Z * Z) (level : LogLevel) (fileName : ptr) (lineNum : Z) (functionName process thread message : str) : str :=
  formattedSeconds now.1 ++ chars "." ++ padded 6 (now.2 / 1000) ++ chars " " ++
  relativeFileName filePrefix (literal fileName) ++ chars ":" ++ Address.format_int (i32 lineNum) ++ chars " in " ++
  functionName ++ chars "() " ++ logLevelToString level ++ chars "[" ++ process ++ chars ":" ++ thread ++ chars "]: " ++ message.
Definition newline : str := ["010"%char].

(** [log], called by the thread [t]. *)
Definition log (t : nat) (now : Z * Z) (level : LogLevel) (fileName : ptr) (lineNum : Z) (functionName message : str) : M Log unit :=
  s ← get;
  threadName ← threads_op (ThreadId.getName t);
  match logHandler s with
  | Some h =>
      let d := mkDebugMessage (relativeFileName filePrefix (literal fileName)) (i32 lineNum) functionName (level_value level)
                 (logLevelToString level) (processName s) threadName message in
      modify (fun s => s <| handled ::= fun l => l ++ [(h, DebugMessage_copy d)] |>)
  | None =>
      let text := log_line now level fileName lineNum functionName (processName s) threadName message in
      modify (fun s => s <| written ::= fun l => l ++ [(stream s, text ++ newline)] |>)
  end.

(** The macro LOG. *)
Definition LOG (t : nat) (now : Z * Z) (level : LogLevel) (fileName : ptr) (lineNum : Z) (functionName message : str) : M Log unit :=
  b ← debug_op (isLogging literal filePrefix level fileName);
  when b (log t now level fileName lineNum functionName message).
End log.

(** ** What is logged *)

Section props.
Variable literal : ptr -> str.
Variable filePrefix : str.

(** What printf makes of a format and its arguments: text stays, and each directive, a
    percent sign with a width that zeros fill, is the next argument. *)
Inductive argument := Text (s : str) | Number (n : Z).
Definition show (width : nat) (a : argument) : str :=
  match a with
  | Text s => s
  | Number n => match width with O => Address.format_int n | S _ => padded width n end
  end.
Definition digit_of (c : ascii) : option nat :=
  let n := nat_of_ascii c in if (48 <=? Z.of_nat n) && (Z.of_nat n <=? 57) then Some (n - 48)%nat else None.
Fixpoint printf (directive : option nat) (format : str) (arguments : list argument) : str :=
  match format, directive with
  | [], _ => []
  | c :: format, None =>
      if Ascii.eqb c "%" then printf (Some O) format arguments else c :: printf None format arguments
  | c :: format, Some width =>
      match digit_of c with
      | Some d => printf (Some (10 * width + d)%nat) format arguments
      | None =>
          if Ascii.eqb c "l" then printf (Some width) format arguments
          else match arguments with
               | [] => []
               | a :: arguments => show width a ++ printf None format arguments
               end
      end
  end.

(** The format of a line of the log file. *)
Definition line_format : str := chars "%s.%06lu %s:%d in %s() %s[%s:%s]: %s" ++ newline.

Lemma log_line_printf now level f lineNum functionName process thread message :
  log_line literal filePrefix now level f lineNum functionName process thread message ++ newline =
  printf None line_format [Text (formattedSeconds now.1); Number (now.2 / 1000);
    Text (relativeFileName filePrefix (literal f)); Number (i32 lineNum); Text functionName;
    Text (logLevelToString level); Text process; Text thread; Text message].
Proof. unfold log_line. rewrite <- !app_assoc. reflexivity. Qed.
#[local] Arguments printf : simpl never.
#[local] Arguments line_format : simpl never.

(** The message goes to the handler, or else as a line to the file. *)
Definition logged (now : Z * Z) (level : LogLevel) (f : ptr) (lineNum : Z) (functionName message name : str) (s s' : Log) : Prop :=
  match logHandler s with
  | Some h => written s' = written s /\ handled s' = handled s ++
      [(h, mkDebugMessage (relativeFileName filePrefix (literal f)) (i32 lineNum) functionName (level_value level)
             (logLevelToString level) (processName s) name message)]
  | None => handled s' = handled s /\ written s' = written s ++
      [(stream s, printf None line_format [Text (formattedSeconds now.1); Number (now.2 / 1000);
         Text (relativeFileName filePrefix (literal f)); Number (i32 lineNum); Text functionName;
         Text (logLevelToString level); Text (processName s); Text name; Text message])]
  end.

(** C40: A message is logged exactly if the current policy asks for its level in its file,
    whatever was cached before; it is logged once, with the name of the thread that
    logs it, to the handler if there is one and else to the log file, as one line in
    the format "time file:line in function() LEVEL[process:thread]: message".  It is an
    error if the rule for the file names no level. *)
Theorem LOG_follows_policy t now level f lineNum functionName message s :
  Debug.reachable literal filePrefix (debug s) -> ThreadId.reachable (threads s) -> ThreadId.nextId (threads s) < 2 ^ 64 - 1 ->
  match getLogLevel (logPolicy (debug s)) (relativeFileName filePrefix (literal f)) with
  | Error e => LOG literal filePrefix t now level f lineNum functionName message s = Error e
  | Ok v => exists s', LOG literal filePrefix t now level f lineNum functionName message s = Ok (tt, s') /\
      logPolicy (debug s') = logPolicy (debug s) /\ logHandler s' = logHandler s /\ stream s' = stream s /\
      if level_value level <=? level_value v
      then exists name, ThreadId.getName t (threads s) = Ok (name, threads s') /\
             logged now level f lineNum functionName message name s s'
      else handled s' = handled s /\ written s' = written s /\ threads s' = threads s
  end.
Proof.
  intros Hd Ht Hn. pose proof (isLogging_spec literal filePrefix level f (debug s) (reachable_coherent _ _ _ Hd)) as Hl.
  assert (wp (ThreadId.getName t) (threads s) (fun _ _ => True)) as Hname.
  { unfold ThreadId.getName. wp_step. eapply wp_mono; [apply ThreadId.getId_spec; [by apply ThreadId.thread_reachable_inv|done]|].
    intros i s1 _. by repeat wp_step. }
  apply wp_ok in Hname as (name & th & Hname & _).
  assert (LOG literal filePrefix t now level f lineNum functionName message s =
    match isLogging literal filePrefix level f (debug s) with
    | Ok (b, d) => when b (log literal filePrefix t now level f lineNum functionName message) (s <| debug := d |>)
    | Error e => Error e
    end) as ->.
  { unfold LOG, debug_op, zoom, mbind, M_bind. by destruct (isLogging literal filePrefix level f (debug s)) as [[]|]. }
  destruct (isLogging literal filePrefix level f (debug s)) as [[b d]|e]; [|by rewrite Hl].
  destruct Hl as (v & -> & -> & Hp & _). destruct (level_value level <=? level_value v); [|eexists; split; [reflexivity|]; split; [exact Hp|]; repeat split].
  unfold when, log, get, threads_op, zoom, modify, mbind, M_bind, logged. cbn.
  change (threads (s <| debug := d |>)) with (threads s). rewrite Hname. change (logHandler (s <| debug := d |>)) with (logHandler s).
  destruct (logHandler s) eqn:Hh; (eexists; split; [reflexivity|]).
  all: do 3 (split; [done|]); exists name; split; [reflexivity|]; split; [reflexivity|].
  - reflexivity.
  - by rewrite <- log_line_printf.
Qed.

(** ** A log line is one line *)

Lemma digit_not_newline n : 0 <= n < 10 -> Address.dec_digit n <> "010"%char.
Proof.
  intros Hn. assert (n ∈ seqZ 0 10) as Hin by (apply elem_of_seqZ; lia). revert n Hn Hin.
  assert (Forall (fun n => Address.dec_digit n <> "010"%char) (seqZ 0 10)) as Hall by (apply (bool_decide_unpack _); vm_compute; exact I).
  intros n _ Hin. rewrite Forall_forall in Hall. by apply Hall.
Qed.
Lemma dec_digits_line fuel n acc : ("010"%char ∉ acc) -> "010"%char ∉ Address.dec_digits fuel n acc.
Proof.
  revert n acc. induction fuel as [|fuel IH]; intros n acc Ha; cbn [Address.dec_digits]; [done|]. cbv zeta.
  assert ("010"%char ∉ Address.dec_digit (n mod 10) :: acc) as Hc.
  { apply not_elem_of_cons. split; [|done]. apply not_eq_sym, digit_not_newline. by apply Z.mod_pos_bound. }
  destruct (n / 10 =? 0); [done|by apply IH].
Qed.
Lemma padded_line width n : "010"%char ∉ padded width n.
Proof.
  unfold padded. cbv zeta. apply not_elem_of_app. split; [|apply dec_digits_line, not_elem_of_nil].
  intros Hin%list_elem_of_In%repeat_spec. done.
Qed.
Lemma format_int_line n : "010"%char ∉ Address.format_int n.
Proof.
  unfold Address.format_int, Address.format_d. destruct (n <? 0); [apply not_elem_of_cons; split; [done|]|]; apply dec_digits_line, not_elem_of_nil.
Qed.

(** If none of its parts has a line break, the text of a message is one line, so the
    lines of the log file are the messages. *)
Theorem log_line_is_one_line now level f lineNum functionName process thread message :
  Forall (fun part => "010"%char ∉ part) [relativeFileName filePrefix (literal f); functionName; process; thread; message] ->
  "010"%char ∉ log_line literal filePrefix now level f lineNum functionName process thread message.
Proof.
  intros [H1 [H2 [H3 [H4 [H5 _]%Forall_cons]%Forall_cons]%Forall_cons]%Forall_cons]%Forall_cons.
  assert (forall s, "010"%char ∉ chars s <-> existsb (Ascii.eqb "010") (chars s) = false) as Hch.
  { intros s. rewrite <- not_true_iff_false, existsb_exists. split.
    - intros Hs (c & Hin & Hc%Ascii.eqb_eq). apply Hs. subst. by apply list_elem_of_In.
    - intros Hs Hin. apply Hs. exists "010"%char. split; [by apply list_elem_of_In|done]. }
  assert ("010"%char ∉ formattedSeconds now.1) as Hf.
  { unfold formattedSeconds, strftime. destruct (gmtime_r now.1); [|apply padded_line].
    rewrite !not_elem_of_app. split_and!; try apply padded_line; by apply Hch. }
  assert ("010"%char ∉ logLevelToString level) as Hlv by (destruct level; by apply Hch).
  unfold log_line. rewrite !not_elem_of_app. split_and!; try done; try apply padded_line; try apply format_int_line; by apply Hch.
Qed.
End props.


(** ** Witnesses *)

Definition sample_log : Log := mkLog (mkState sample_policy ∅) ThreadId.Internal_new (chars "4711") 2 None [] [].
Definition sample_literal : ptr -> str := fun _ => chars "/homa/src/Sender.cc".
Definition sample_LOG : M Log unit :=
  LOG sample_literal (chars "/homa/") 0 (951868799, 5000000) VERBOSE 1%positive 12 (chars "poll") (chars "hello").

Lemma LOG_follows_policy_witness :
  exists s', sample_LOG sample_log = Ok (tt, s') /\
    logPolicy (debug s') = logPolicy (debug sample_log) /\ logHandler s' = logHandler sample_log /\ stream s' = stream sample_log /\
    exists name, ThreadId.getName 0 (threads sample_log) = Ok (name, threads s') /\
      logged sample_literal (chars "/homa/") (951868799, 5000000) VERBOSE 1%positive 12 (chars "poll") (chars "hello") name sample_log s'.
Proof.
  apply (LOG_follows_policy sample_literal (chars "/homa/") 0 (951868799, 5000000) VERBOSE 1%positive 12 (chars "poll") (chars "hello") sample_log);
    [|apply ThreadId.reach_new|reflexivity].
  eapply (reach_policy _ _ State_new sample_policy); [apply reach_new|reflexivity].
Defined.

Example sample_line : match sample_LOG sample_log with Ok (_, s') => written s' | Error _ => [] end =
  [(2, chars "2000-02-29 23:59:59.005000 src/Sender.cc:12 in poll() VERBOSE[4711:thread 1]: hello" ++ newline)].
Proof. by vm_compute. Qed.

Lemma log_line_is_one_line_witness :
  "010"%char ∉ log_line sample_literal (chars "/homa/") (0, 0) NOTICE 1%positive 7 (chars "poll") (chars "4711") (chars "main") (chars "hello").
Proof.
  apply (log_line_is_one_line sample_literal (chars "/homa/")). apply (bool_decide_unpack _). vm_compute. exact I.
Defined.
Example the_epoch : formattedSeconds 0 = chars "1970-01-01 00:00:00".
Proof. by vm_compute. Qed.
Example a_leap_day : formattedSeconds 951868799 = chars "2000-02-29 23:59:59".
Proof. by vm_compute. Qed.
Example end_of_32_bits : formattedSeconds (2 ^ 31) = chars "2038-01-19 03:14:08".
Proof. by vm_compute. Qed.
End LogOutput.
