(* ===== verification/STLUtil.v ===== *)
(** * STLUtil: src/src/STLUtil.h

    Copies of the parts of a container of the C++ library.  A map is the list of its
    pairs in the order of iteration: ascending keys for [std::map], any order for
    [std::unordered_map]. *)

From S2P Require Import Prelude.

Module STLUtil.

Section sorted.
Context {A : Type} (lt : A -> A -> bool).

(** [std::sort] with [operator<]: what is not smaller comes later. *)
Definition le (a b : A) : Prop := lt b a = false.
#[global] Instance le_dec : RelDecision le.
Proof. intros a b. unfold le. apply _. Defined.
Definition sorted (container : list A) : list A := merge_sort le container.
End sorted.

Section maps.
Context {K V : Type}.
Implicit Types (map : list (K * V)).

Definition getKeys map : list K := fold_left (fun keys it => keys ++ [it.1]) map [].
Definition getValues map : list V := fold_left (fun values it => values ++ [it.2]) map [].
Definition getItems map : list (K * V) := fold_left (fun items it => items ++ [it]) map [].

Lemma push_back_loop {B} (f : K * V -> B) map acc : fold_left (fun l it => l ++ [f it]) map acc = acc ++ (f <$> map).
Proof.
  revert acc. induction map as [|x map IH]; intros acc; simpl; [by rewrite app_nil_r|]. rewrite IH. by rewrite <- app_assoc.
Qed.

(** The keys and the values are those of the items, in the same order, so that the
    container is what a map with these keys and values iterates over. *)
Theorem getItems_zip map : getItems map = zip (getKeys map) (getValues map) /\ getItems map = map.
Proof.
  unfold getItems, getKeys, getValues. rewrite (push_back_loop fst), (push_back_loop snd), (push_back_loop (fun x => x)).
  cbn [app]. split; [|apply list_fmap_id]. induction map as [|[k v] map IH]; [done|]. simpl. by f_equal.
Qed.
End maps.

Section order.
Context {A : Type} (lt : A -> A -> bool).
(** [operator<] is a strict weak order. *)
Hypothesis lt_asym : forall a b, lt a b = true -> lt b a = false.
Hypothesis lt_neg_trans : forall a b c, lt b a = false -> lt c b = false -> lt c a = false.

(** [sorted] returns the elements of the container in ascending order. *)
Theorem sorted_sorts container : StronglySorted (le lt) (sorted lt container) /\ sorted lt container ≡ₚ container.
Proof.
  unfold sorted. split; [|apply merge_sort_Permutation]. apply Sorted_StronglySorted; [intros a b c; apply lt_neg_trans|].
  apply Sorted_merge_sort. intros a b. unfold le. destruct (lt a b) eqn:E; [left; by apply lt_asym|by right].
Qed.
End order.

Lemma sorted_sorts_witness : StronglySorted (le Z.ltb) (sorted Z.ltb [3; 1; 2]) /\ sorted Z.ltb [3; 1; 2] ≡ₚ [3; 1; 2].
Proof. apply (sorted_sorts Z.ltb); intros *; lia. Defined.
End STLUtil.
