(* ===== verification/UnitTest.v ===== *)
(** * UnitTest: the vocabulary of the program's own unit tests

    The files *Test.v hold the tests of the repository, translated expectation by
    expectation, and evaluate them on the model: they are evidence that the
    definitions do what the code does.  A test is a computation in the monad of the
    part that it tests, and a failed expectation is a failed assertion.  Expectations
    of log messages are left out, since the calls of LOG in the transport have no
    effect on its state. *)

From S2P Require Import Prelude.

Module UnitTest.

Section expectations.
Context {S : Type}.

Definition EXPECT_EQ {A} `{EqDecision A} (expected : A) (actual : S -> A) : M S unit :=
  s ← get; check (bool_decide (expected = actual s)).
Definition EXPECT_NE {A} `{EqDecision A} (unexpected : A) (actual : S -> A) : M S unit :=
  s ← get; check (negb (bool_decide (unexpected = actual s))).
Definition EXPECT_TRUE (actual : S -> bool) : M S unit := s ← get; check (actual s).
Definition EXPECT_FALSE (actual : S -> bool) : M S unit := s ← get; check (negb (actual s)).

(** The process dies in the statement. *)
Definition EXPECT_DEATH (how : Fault) (m : M S unit) : M S unit :=
  s ← get; match m s with Error f => check (bool_decide (f = how)) | Ok _ => fault AssertFailed end.

(** Statement after statement. *)
Fixpoint steps (l : list (M S unit)) : M S unit :=
  match l with
  | [] => mret tt
  | m :: l => _ ← m; steps l
  end.

(** The test returns. *)
Definition passes (s : S) (test : M S unit) : bool :=
  match test s with Ok _ => true | Error _ => false end.
End expectations.

End UnitTest.
