(* ===== verification/IntrusiveTest.v ===== *)
(** * IntrusiveTest: the tests of src/src/IntrusiveTest.cc on IntrusiveHeap.v

    The list and the nodes of the test objects are locations of the heap. *)

From S2P Require Import Prelude IntrusiveHeap UnitTest.
Import IntrusiveList UnitTest.

Module IntrusiveTest.

(** The root of the list, the node and the object [foo[i]], and a local object. *)
Definition root : loc := 1%positive.
Definition node (i : nat) : loc := Pos.of_nat (2 + i).
Definition foo (i : nat) : loc := Pos.of_nat (12 + i).
Definition local_node : loc := 8%positive.
Definition local_foo : loc := 18%positive.

Definition Heap0 : Heap := mkHeap (fun n => n) (fun _ => None) (fun n => n) (fun n => n) (fun _ => 0).

Definition links_are (nexts prevs : list (loc * loc)) : M Heap unit :=
  _ ← steps ((fun '(n, v) => EXPECT_EQ v (fun h => next h n)) <$> nexts);
  steps ((fun '(n, v) => EXPECT_EQ v (fun h => prev h n)) <$> prevs).
Definition size_is (n : Z) : M Heap unit := EXPECT_EQ n (fun h => size h root).

(** The fixture: three objects and an empty list, which is cleared before the
    objects are destroyed. *)
Definition IntrusiveListTest (test : M Heap unit) : M Heap unit :=
  _ ← steps ((fun i => Node_new (node i) (foo i)) <$> [0; 1; 2]%nat);
  _ ← List_new root;
  _ ← test;
  _ ← clear root;
  steps ((fun i => Node_delete (node i)) <$> [0; 1; 2]%nat).
Definition populateList : M Heap unit := steps ((fun i => push_back root (node i)) <$> [0; 1; 2]%nat).
(** A test with an object of its own. *)
Definition with_local (test : M Heap unit) : M Heap unit :=
  _ ← Node_new local_node local_foo; _ ← test; Node_delete local_node.

Definition test_Node_constructor : M Heap unit := with_local (steps
  [EXPECT_EQ local_foo (fun h => owner h local_node); EXPECT_EQ local_node (fun h => next h local_node);
   EXPECT_EQ local_node (fun h => prev h local_node); EXPECT_EQ None (fun h => list_of h local_node)]).

Definition test_Node_unlink : M Heap unit := with_local (steps
  [push_back root local_node; unlink local_node;
   links_are [(root, root); (local_node, local_node)] [(root, root); (local_node, local_node)];
   EXPECT_EQ None (fun h => list_of h local_node)]).

(** An iterator is a location; the second result of an operator is the iterator
    after it. *)
Definition test_Iterator_dereference : M Heap unit := with_local
  (EXPECT_EQ local_foo (fun h => iterator_deref h local_node)).
Definition test_Iterator_structureDereference : M Heap unit := with_local
  (EXPECT_EQ local_foo (fun h => iterator_deref h local_node)).
Definition test_Iterator_preincrement : M Heap unit := steps
  [populateList; EXPECT_EQ (node 1, node 1) (fun h => preincrement h (node 0))].
Definition test_Iterator_predecrement : M Heap unit := steps
  [populateList; EXPECT_EQ (node 0, node 0) (fun h => predecrement h (node 1))].
Definition test_Iterator_postincrement : M Heap unit := steps
  [populateList; EXPECT_EQ (node 0, node 1) (fun h => postincrement h (node 0))].
Definition test_Iterator_postdecrement : M Heap unit := steps
  [populateList; EXPECT_EQ (node 1, node 0) (fun h => postdecrement h (node 1))].
Definition test_Iterator_equal : M Heap unit := steps
  [EXPECT_TRUE (fun _ => iterator_eqb (node 0) (node 0)); EXPECT_FALSE (fun _ => iterator_eqb (node 0) (node 1))].
Definition test_Iterator_notEqual : M Heap unit := steps
  [EXPECT_FALSE (fun _ => iterator_neqb (node 0) (node 0)); EXPECT_TRUE (fun _ => iterator_neqb (node 0) (node 1))].

Definition test_destructor : M Heap unit :=
  _ ← List_new 9%positive;
  with_local (steps [push_back 9%positive local_node; clear 9%positive;
    links_are [(local_node, local_node)] [(local_node, local_node)]; Node_delete 9%positive]).

Definition test_front : M Heap unit := steps [populateList; EXPECT_EQ (foo 0) (fun h => front h root)].
Definition test_back : M Heap unit := steps [populateList; EXPECT_EQ (foo 2) (fun h => back h root)].
Definition test_begin : M Heap unit := steps
  [EXPECT_EQ root (fun h => begin_ h root); populateList; EXPECT_EQ (node 0) (fun h => begin_ h root)].
Definition test_end : M Heap unit := steps
  [populateList; EXPECT_EQ root (fun h => end_ root); EXPECT_EQ (node 2) (fun h => prev h (end_ root))].
Definition test_get : M Heap unit := steps
  [EXPECT_EQ (end_ root) (fun h => get_iter h root (node 0)); push_back root (node 0);
   EXPECT_EQ (node 0) (fun h => get_iter h root (node 0))].
Definition test_empty : M Heap unit := steps
  [populateList; EXPECT_FALSE (fun h => empty h root); pop_front root; EXPECT_FALSE (fun h => empty h root);
   pop_front root; EXPECT_FALSE (fun h => empty h root); pop_front root; EXPECT_TRUE (fun h => empty h root)].
Definition test_clear : M Heap unit := steps
  [populateList; clear root;
   links_are [(node 0, node 0); (node 1, node 1); (node 2, node 2); (root, root)]
             [(node 0, node 0); (node 1, node 1); (node 2, node 2); (root, root)];
   size_is 0].

Definition test_insert : M Heap unit :=
  it ← gets (fun h => begin_ h root);
  _ ← links_are [(root, root)] [(root, root)];
  it ← insert root it (node 1);
  _ ← EXPECT_EQ (node 1) (fun _ => it);
  _ ← links_are [(root, node 1); (node 1, root)] [(root, node 1); (node 1, root)];
  _ ← size_is 1;
  it ← insert root it (node 0);
  _ ← EXPECT_EQ (node 0) (fun _ => it);
  _ ← links_are [(root, node 0); (node 0, node 1); (node 1, root)] [(root, node 1); (node 1, node 0); (node 0, root)];
  _ ← size_is 2;
  it ← insert root (end_ root) (node 2);
  _ ← EXPECT_EQ (node 2) (fun _ => it);
  _ ← links_are [(root, node 0); (node 0, node 1); (node 1, node 2); (node 2, root)]
                [(root, node 2); (node 2, node 1); (node 1, node 0); (node 0, root)];
  size_is 3.

(** What is left when [node 1] was removed. *)
Definition middle_removed : M Heap unit := steps
  [links_are [(node 1, node 1); (root, node 0); (node 0, node 2); (node 2, root)]
             [(node 1, node 1); (root, node 2); (node 2, node 0); (node 0, root)]; size_is 2].
Definition test_remove_iterator : M Heap unit :=
  _ ← populateList;
  it ← gets (fun h => next h (begin_ h root));
  _ ← EXPECT_EQ (node 1) (fun _ => it);
  _ ← size_is 3;
  it ← remove_at root it;
  _ ← EXPECT_EQ (node 2) (fun _ => it);
  middle_removed.
Definition test_remove_node : M Heap unit := steps [populateList; size_is 3; remove root (node 1); middle_removed].

Definition test_push_back : M Heap unit := steps
  [links_are [(root, root)] [(root, root)];
   push_back root (node 0);
   links_are [(root, node 0); (node 0, root)] [(root, node 0); (node 0, root)]; size_is 1;
   push_back root (node 1);
   links_are [(root, node 0); (node 0, node 1); (node 1, root)] [(root, node 1); (node 1, node 0); (node 0, root)]; size_is 2;
   push_back root (node 2);
   links_are [(root, node 0); (node 0, node 1); (node 1, node 2); (node 2, root)]
             [(root, node 2); (node 2, node 1); (node 1, node 0); (node 0, root)]; size_is 3].
Definition test_pop_back : M Heap unit := steps
  [populateList; size_is 3; pop_back root;
   links_are [(node 2, node 2); (root, node 0); (node 0, node 1); (node 1, root)]
             [(node 2, node 2); (root, node 1); (node 1, node 0); (node 0, root)]; size_is 2].
Definition test_push_front : M Heap unit := steps
  [links_are [(root, root)] [(root, root)];
   push_front root (node 2);
   links_are [(root, node 2); (node 2, root)] [(root, node 2); (node 2, root)]; size_is 1;
   push_front root (node 1);
   links_are [(root, node 1); (node 1, node 2); (node 2, root)] [(root, node 2); (node 2, node 1); (node 1, root)]; size_is 2;
   push_front root (node 0);
   links_are [(root, node 0); (node 0, node 1); (node 1, node 2); (node 2, root)]
             [(root, node 2); (node 2, node 1); (node 1, node 0); (node 0, root)]; size_is 3].
Definition test_pop_front : M Heap unit := steps
  [populateList; size_is 3; pop_front root;
   links_are [(node 0, node 0); (root, node 1); (node 1, node 2); (node 2, root)]
             [(node 0, node 0); (root, node 2); (node 2, node 1); (node 1, root)]; size_is 2].
Definition test_contains : M Heap unit := steps
  [populateList; EXPECT_EQ (foo 0) (fun h => front h root); EXPECT_TRUE (fun h => contains h root (node 0));
   pop_front root; EXPECT_FALSE (fun h => contains h root (node 0))].
Definition test___insert : M Heap unit := steps
  [insert_node (node 0) (node 1); insert_node (node 1) (node 2);
   links_are [(node 2, node 1); (node 1, node 0); (node 0, node 2)]
             [(node 0, node 1); (node 1, node 2); (node 2, node 0)];
   unlink (node 0); unlink (node 1); unlink (node 2)].

(** The values of the objects, which the test changes between the calls. *)
Definition smaller (vals : list Z) (a b : loc) : bool :=
  let val o := default 0 (vals !! (Pos.to_nat o - 12)%nat) in val a <? val b.
(** The objects in the order of the list. *)
Fixpoint order_is (l : list nat) (it : loc) : M Heap unit :=
  match l with
  | [] => mret tt
  | i :: l => _ ← EXPECT_EQ (foo i) (fun h => owner h it); it ← gets (fun h => next h it); order_is l it
  end.
Definition list_is (l : list nat) : M Heap unit := it ← gets (fun h => begin_ h root); order_is l it.
Definition four_nodes : M Heap unit :=
  _ ← steps ((fun i => Node_new (node i) (foo i)) <$> [0; 1; 2; 3]%nat);
  _ ← List_new root;
  _ ← steps ((fun i => push_back root (node i)) <$> [0; 1; 2; 3]%nat);
  list_is [0; 1; 2; 3]%nat.

Definition test_prioritize : M Heap unit := steps
  [four_nodes;
   heap_prioritize (smaller [2; 4; 6; 7]) root (node 3); list_is [0; 1; 2; 3]%nat;
   heap_prioritize (smaller [2; 4; 6; 2]) root (node 3); list_is [0; 3; 1; 2]%nat;
   heap_prioritize (smaller [2; 4; 6; 0]) root (node 3); list_is [3; 0; 1; 2]%nat].
Definition test_deprioritize : M Heap unit := steps
  [four_nodes;
   heap_deprioritize (smaller [3; 4; 6; 8]) root (node 0); list_is [0; 1; 2; 3]%nat;
   heap_deprioritize (smaller [6; 4; 6; 8]) root (node 0); list_is [1; 2; 0; 3]%nat;
   heap_deprioritize (smaller [9; 4; 6; 8]) root (node 0); list_is [1; 2; 3; 0]%nat].

Definition tests : list (M Heap unit) :=
  (IntrusiveListTest <$>
    [test_Node_constructor; test_Node_unlink; test_Iterator_dereference; test_Iterator_structureDereference;
     test_Iterator_preincrement; test_Iterator_predecrement; test_Iterator_postincrement; test_Iterator_postdecrement;
     test_Iterator_equal; test_Iterator_notEqual; test_destructor; test_front; test_back; test_begin; test_end; test_get; test_empty;
     test_clear; test_insert; test_remove_iterator; test_remove_node; test_push_back; test_pop_back; test_push_front;
     test_pop_front; test_contains; test___insert]) ++ [test_prioritize; test_deprioritize].
Example intrusive_tests_pass : forallb (passes Heap0) tests = true.
Proof. vm_compute. reflexivity. Qed.
End IntrusiveTest.
