(* ===== verification/SenderTest.v ===== *)
(** * SenderTest: the tests of src/src/SenderTest.cc on Sender.v

    The mocks are an instance of the class of drivers, with the clock at 10000 and an
    empty transmit queue, and a policy manager that answers as the test tells it to.
    The calls that the tests expect of the driver are read off the trace; the packets
    of a test carry their number in their first byte, by which it tells them apart. *)

From S2P Require Import Prelude Util Timeout ObjectPool Perf Protocol Policy Driver SenderMessage Sender UnitTest.
Import Driver SenderMessage Sender UnitTest.

Module SenderTest.

(** [mockDriver] and [mockPolicyManager]: what a mock returns by default is 0. *)
Definition mock (maxPayloadSize : Z) : Driver := {|
  getHighestPacketPriority := 0;
  getMaxPayloadSize := maxPayloadSize;
  getBandwidth := 8000;
  getLocalAddress := 0;
  getQueuedBytes_nth := fun _ => 0;
  payload_nth := fun _ => repeat 0 (Z.to_nat maxPayloadSize);
  rdtsc_nth := fun _ => 10000;
  std_hash := fun v => v
|}.
#[local] Instance mockDriver : Driver := mock 1031.
Definition mockPacket_id : positive := 200%positive.
Definition mockPacket (bytes : list Z) : Packet := mkPacket mockPacket_id (bytes ++ repeat 0 1000) 0.
(** Packet [i] of a message. *)
Definition packet (i len : Z) : Packet := mkPacket (Z.to_pos (100 + i)) (i :: repeat 0 1030) len.
(** A manager whose getResendPriority and getUnscheduledPolicy return what is given. *)
Definition mockPolicyManager (resend : Z) (destination : IpAddress) (policy : Policy.Unscheduled) : Policy.Manager :=
  Policy.mkManager (Policy.mkUnscheduledPolicy 0 0 []) (Policy.mkScheduled 0 0 0 0)
    {[destination := Policy.mkUnscheduledPolicy (Policy.u_version policy) (Policy.u_priority policy) []]}
    (Policy.unscheduledByteLimit policy) resend.
Definition no_policy : Policy.Manager := mockPolicyManager 0 0 (Policy.mkUnscheduled 0 0 0).
Definition EXPECT_policy (m : Policy.Manager) : M Sender unit := modify (fun s => s <| policyManager := m |>).

(** The fixture [SenderTest]. *)
Definition fixture : Sender := Sender_new 22 1000 100 no_policy World_new.

Definition addMessage (msgId : Protocol.MessageId) (p : ptr) (queue : bool) (granted : Z) : M Sender unit :=
  _ ← update p (fun m => m <| id := msgId |>);
  _ ← update_bucket (getBucket msgId) (fun k => k <| messages ::= fun l => l ++ [p] |>);
  when queue
    (m ← deref p;
     _ ← update_info p (fun i => i <| q_id := msgId |> <| q_destination := destination m |> <| q_packets := Some p |>
           <| unsentBytes := messageLength m |> <| packetsGranted := granted |> <| packetsSent := 0 |>);
     queue_insert p).

Definition setMessagePacket (p : ptr) (index : Z) (pk : Packet) : M Sender bool :=
  m ← deref p;
  match packets m !! index with
  | Some _ => mret false
  | None =>
      _ ← update p (fun m => m <| packets ::= <[index := pk]> |> <| numPackets ::= fun n => n + 1 |>);
      mret true
  end.
Definition set_packets (p : ptr) (n len : Z) : M Sender unit :=
  for_each (seqZ 0 n) (fun i => _ ← setMessagePacket p i (packet i len); mret tt).

(** ** Expectations *)

#[local] Instance Event_eq_dec : EqDecision Event.
Proof. solve_decision. Defined.

Definition expect {A} `{EqDecision A} (p : ptr) (f : Message -> A) (v : A) : M Sender unit :=
  m ← deref p; check (bool_decide (f m = v)).
Definition expect_info {A} `{EqDecision A} (p : ptr) (f : QueuedMessageInfo -> A) (v : A) : M Sender unit :=
  expect p (fun m => f (queuedMessageInfo m)) v.
Definition bucket_of (p : ptr) (s : Sender) : MessageBucket :=
  messageBuckets s (from_option (fun m => getBucket (id m)) 0 (heap s !! p)).
Definition timeouts_at (p : ptr) (message ping : Z) : M Sender unit := steps
  [EXPECT_EQ message (fun s => expirationCycleTime p (messageTimeouts (bucket_of p s)));
   EXPECT_EQ ping (fun s => expirationCycleTime p (pingTimeouts (bucket_of p s)))].
Definition no_timeouts (p : ptr) : M Sender unit := EXPECT_TRUE (fun s =>
  bool_decide ((p ∉ timeouts (messageTimeouts (bucket_of p s))) /\ (p ∉ timeouts (pingTimeouts (bucket_of p s))))).
Definition queued (p : ptr) (s : Sender) : bool := bool_decide (p ∈ sendQueue s).
Definition ready (b : bool) : M Sender unit := EXPECT_EQ b sendReady.
Definition outstanding (n : Z) : M Sender unit := EXPECT_EQ n (fun s => outstandingObjects (messageAllocator s)).

(** [releasePackets(Pointee(&mockPacket), Eq(1))] so many times. *)
Definition releases (n : nat) : M Sender unit := EXPECT_EQ n (fun s =>
  List.length (omap (fun e => match e with EvRelease [k] => if bool_decide (k = mockPacket_id) then Some e else None
                              | _ => None end) (trace (world s)))).
(** The destinations, the priorities and the first bytes of the packets that were
    sent; a test does not say in which order. *)
Definition sent_packets (s : Sender) : list (IpAddress * Z * option Z) :=
  omap (fun e => match e with EvSend a p bs => Some (a, p, head bs) | EvRelease _ => None end) (trace (world s)).
Definition sends (l : list (IpAddress * Z * option Z)) : M Sender unit := EXPECT_TRUE (fun s =>
  (List.length l =? List.length (sent_packets s))%nat && forallb (fun x => bool_decide (x ∈ sent_packets s)) l).
(** The opcodes of the control packets that were sent. *)
Definition controls (s : Sender) : list Z :=
  omap (fun e => match e with
    | EvSend _ _ bs => if zlength bs <=? 32 then Some (Protocol.opcode (Protocol.decode_CommonHeader bs)) else None
    | EvRelease _ => None end) (trace (world s)).

Definition id_42_1 : Protocol.MessageId := Protocol.mkMessageId 42 1.
Definition with_header {H : Type} `{Protocol.PacketHeader H} (h : H) : Packet := write_header h (mockPacket []).
Definition state_is (p : ptr) (st : Status) : M Sender unit := expect p state st.

(** ** DONE *)

Definition test_allocMessage : M Sender unit := _ ← outstanding 0; _ ← allocMessage 0; outstanding 1.

Definition done : Packet := with_header (Protocol.DoneHeader_new id_42_1).
Definition test_handleDonePacket_basic : M Sender unit :=
  p ← allocMessage 0;
  steps [expect p (fun m => bool_decide (state m = COMPLETED)) false;
    handleDonePacket done;
    expect p (fun m => bool_decide (state m = COMPLETED)) false;
    addMessage id_42_1 p false 0; set_state p SENT;
    handleDonePacket done;
    no_timeouts p; state_is p COMPLETED; releases 2].
(** In any other state DONE is only released; the tests differ in what is logged. *)
Definition test_handleDonePacket (st : Status) : M Sender unit :=
  p ← allocMessage 0;
  steps [addMessage id_42_1 p false 0; set_state p st; handleDonePacket done; releases 1].
Definition test_handleDonePacket_CANCELED : M Sender unit := test_handleDonePacket CANCELED.
Definition test_handleDonePacket_COMPLETED : M Sender unit := test_handleDonePacket COMPLETED.
Definition test_handleDonePacket_FAILED : M Sender unit := test_handleDonePacket FAILED.
Definition test_handleDonePacket_IN_PROGRESS : M Sender unit := test_handleDonePacket IN_PROGRESS.
Definition test_handleDonePacket_NO_STARTED : M Sender unit := test_handleDonePacket NOT_STARTED.

(** ** RESEND *)

Definition resend (index num prio : Z) : Packet := with_header (Protocol.ResendHeader_new id_42_1 index num prio).
(** A message of ten packets; five are granted and sent. *)
Definition half_sent : M Sender ptr :=
  p ← allocMessage 0;
  _ ← set_packets p 10 1;
  _ ← addMessage id_42_1 p true 5;
  _ ← update_info p (fun i => i <| packetsSent := 5 |> <| q_priority := 6 |>);
  _ ← expect_info p packetsGranted 5;
  _ ← expect p numPackets 10;
  mret p.

Definition test_handleResendPacket_basic : M Sender unit :=
  p ← half_sent;
  steps [EXPECT_policy (mockPolicyManager 7 0 (Policy.mkUnscheduled 0 0 0));
    handleResendPacket (resend 3 5 4);
    expect_info p packetsSent 5; expect_info p packetsGranted 8; expect_info p q_priority 4;
    timeouts_at p 11000 10100;
    sends [(0, 7, Some 3); (0, 7, Some 4)]; releases 1; ready true].
Definition test_handleResendPacket_staleResend : M Sender unit :=
  steps [handleResendPacket (resend 3 5 0); releases 1].
Definition test_handleResendPacket_badRequest_singlePacketMessage : M Sender unit :=
  p ← allocMessage 0;
  _ ← addMessage id_42_1 p false 0;
  _ ← setMessagePacket p 0 (packet 0 1);
  steps [handleResendPacket (resend 3 5 4); releases 1].
Definition test_handleResendPacket_badRequest_outOfRange : M Sender unit :=
  p ← half_sent;
  steps [handleResendPacket (resend 9 5 4); releases 1].
Definition test_handleResendPacket_eagerResend : M Sender unit :=
  p ← half_sent;
  steps [handleResendPacket (resend 5 3 0);
    EXPECT_EQ [Protocol.opcode_value Protocol.BUSY] controls; EXPECT_EQ 1%nat (fun s => List.length (sent_packets s));
    releases 1; expect_info p packetsSent 5; expect_info p packetsGranted 8; timeouts_at p 11000 10100].

(** ** GRANT *)

Definition grant (limit prio : Z) : Packet := with_header (Protocol.GrantHeader_new id_42_1 limit prio).
(** A queued message with five of its ten packets granted. *)
Definition half_granted (st : Status) : M Sender ptr :=
  p ← allocMessage 0;
  _ ← addMessage id_42_1 p true 5;
  _ ← update p (fun m => m <| numPackets := 10 |> <| state := st |>);
  _ ← update_info p (fun i => i <| q_priority := 2 |>);
  _ ← expect_info p packetsGranted 5;
  _ ← timeouts_at p 0 0;
  mret p.
Definition granted_is (p : ptr) (granted prio : Z) (b : bool) : M Sender unit := steps
  [releases 1; expect_info p packetsGranted granted; expect_info p q_priority prio; timeouts_at p 11000 10100; ready b].

Definition test_handleGrantPacket_basic : M Sender unit :=
  p ← half_granted IN_PROGRESS; _ ← handleGrantPacket (grant 7000 6); granted_is p 7 6 true.
Definition test_handleGrantPacket_excessiveGrant : M Sender unit :=
  p ← half_granted IN_PROGRESS; _ ← handleGrantPacket (grant 11000 6); granted_is p 10 6 true.
Definition test_handleGrantPacket_staleGrant : M Sender unit :=
  p ← half_granted NOT_STARTED; _ ← handleGrantPacket (grant 4000 6); granted_is p 5 2 false.
Definition test_handleGrantPacket_dropGrant : M Sender unit := steps [handleGrantPacket (grant 4000 0); releases 1].

(** ** UNKNOWN *)

Definition unknown : Packet := with_header (Protocol.UnknownHeader_new id_42_1).
Definition destination0 : SocketAddress := mkSocketAddress 22 60001.
Definition policyNew : Policy.Manager := mockPolicyManager 0 22 (Policy.mkUnscheduled 2 3000 2).
(** The header of packet [i]. *)
Definition header_of (p : ptr) (i : Z) (s : Sender) : option Protocol.DataHeader :=
  m ← heap s !! p; pk ← packets m !! i; Some (read_header Protocol.DataHeader pk).
(** What the test puts in a DATA header. *)
Definition old_header (i : Z) : Packet :=
  write_header (Protocol.DataHeader_new 0 0 (Protocol.mkMessageId 0 0) 0 1 2 0) (packet i 1).
Definition restarted_header (p : ptr) (i : Z) : M Sender unit := steps
  [EXPECT_EQ (Some 2) (fun s => Protocol.policyVersion <$> header_of p i s);
   EXPECT_EQ (Some 3) (fun s => Protocol.unscheduledIndexLimit <$> header_of p i s)].

Definition test_handleUnknownPacket_basic : M Sender unit :=
  p ← allocMessage 0;
  _ ← for_each (seqZ 0 5) (fun i => _ ← setMessagePacket p i (old_header i); mret tt);
  _ ← update p (fun m => m <| destination := destination0 |> <| messageLength := 4500 |> <| state := IN_PROGRESS |>);
  _ ← addMessage id_42_1 p true 4;
  _ ← update_info p (fun i => i <| unsentBytes := 0 |> <| packetsGranted := 4 |> <| q_priority := 1 |> <| packetsSent := 4 |>);
  steps [EXPECT_TRUE (queued p); timeouts_at p 0 0; EXPECT_policy policyNew;
    handleUnknownPacket unknown;
    state_is p IN_PROGRESS; restarted_header p 0; restarted_header p 1; restarted_header p 2;
    timeouts_at p 11000 10100; expect_info p unsentBytes 4500; expect_info p packetsGranted 3;
    expect_info p q_priority 2; expect_info p packetsSent 0; EXPECT_TRUE (queued p); ready true; releases 1].

(** A message of one packet that was sent. *)
Definition single_sent (options0 : Z) : M Sender ptr :=
  p ← allocMessage 0;
  _ ← setMessagePacket p 0 (old_header 0);
  _ ← update p (fun m => m <| destination := destination0 |> <| messageLength := 500 |> <| state := SENT |>
                         <| options := options0 |>);
  _ ← addMessage id_42_1 p false 0;
  _ ← EXPECT_policy policyNew;
  mret p.
Definition test_handleUnknownPacket_singlePacketMessage : M Sender unit :=
  p ← single_sent NONE;
  steps [EXPECT_FALSE (queued p); timeouts_at p 0 0;
    handleUnknownPacket unknown;
    state_is p SENT; restarted_header p 0; timeouts_at p 11000 10100; EXPECT_FALSE (queued p); ready false;
    EXPECT_EQ 1%nat (fun s => List.length (sent_packets s)); releases 1].
Definition test_handleUnknownPacket_NO_KEEP_ALIVE : M Sender unit :=
  p ← single_sent NO_KEEP_ALIVE;
  steps [set_timeouts (getBucket id_42_1) p;
    EXPECT_FALSE (fun s => timeouts_empty (messageTimeouts (bucket_of p s)));
    EXPECT_FALSE (fun s => timeouts_empty (pingTimeouts (bucket_of p s)));
    handleUnknownPacket unknown;
    EXPECT_EQ [22] (fun s => (sent_packets s).*1.*1); releases 1; state_is p SENT;
    EXPECT_TRUE (fun s => timeouts_empty (messageTimeouts (bucket_of p s)));
    EXPECT_TRUE (fun s => timeouts_empty (pingTimeouts (bucket_of p s)))].
Definition test_handleUnknownPacket_NO_RETRY : M Sender unit :=
  p ← allocMessage 0;
  _ ← update p (fun m => m <| options := NO_RETRY |>);
  _ ← set_packets p 5 1;
  _ ← update p (fun m => m <| destination := destination0 |> <| messageLength := 4500 |> <| state := IN_PROGRESS |>);
  _ ← addMessage id_42_1 p true 0;
  steps [set_timeouts (getBucket id_42_1) p; EXPECT_TRUE (queued p);
    handleUnknownPacket unknown;
    EXPECT_FALSE (queued p); no_timeouts p; state_is p FAILED; ready false; releases 1].
Definition test_handleUnknownPacket_no_message : M Sender unit := steps [handleUnknownPacket unknown; releases 1].
Definition test_handleUnknownPacket_done : M Sender unit :=
  p ← allocMessage 0;
  steps [addMessage id_42_1 p false 0; set_state p COMPLETED; timeouts_at p 0 0;
    handleUnknownPacket unknown; state_is p COMPLETED; timeouts_at p 0 0; releases 1].

(** ** ERROR *)

Definition error : Packet := with_header (Protocol.ErrorHeader_new id_42_1).
Definition test_handleErrorPacket_basic : M Sender unit :=
  p ← allocMessage 0;
  steps [addMessage id_42_1 p false 0; set_timeouts (getBucket id_42_1) p; set_state p SENT;
    handleErrorPacket error; no_timeouts p; state_is p FAILED; releases 1].
(** In any other state ERROR changes nothing. *)
Definition test_handleErrorPacket (st : Status) : M Sender unit :=
  p ← allocMessage 0;
  steps [addMessage id_42_1 p false 0; set_state p st; handleErrorPacket error; state_is p st; releases 1].
Definition test_handleErrorPacket_CANCELED : M Sender unit := test_handleErrorPacket CANCELED.
Definition test_handleErrorPacket_NOT_STARTED : M Sender unit := test_handleErrorPacket NOT_STARTED.
Definition test_handleErrorPacket_IN_PROGRESS : M Sender unit := test_handleErrorPacket IN_PROGRESS.
Definition test_handleErrorPacket_COMPLETED : M Sender unit := test_handleErrorPacket COMPLETED.
Definition test_handleErrorPacket_FAILED : M Sender unit := test_handleErrorPacket FAILED.
Definition test_handleErrorPacket_noMessage : M Sender unit := steps [handleErrorPacket error; releases 1].

Definition test_checkTimeouts : M Sender unit := steps
  [EXPECT_EQ 0 nextBucketIndex; checkTimeouts; EXPECT_EQ 1 nextBucketIndex].

(** ** Messages *)

(** [~Message] gives back the packets, in order. *)
Definition test_Message_destructor : M Sender unit :=
  p ← allocMessage 0;
  steps [set_packets p 5 1; destroy_message p;
    EXPECT_EQ [EvRelease [100; 101; 102; 103; 104]%positive] (fun s => trace (world s))].

(** A message of its own, with the payload size of the test. *)
Definition message_state (maxPayloadSize : Z) : MessageState :=
  mkMessageState (Message_new (H := mock maxPayloadSize) 0) World_new.
(** "Hello, world!" with its terminator. *)
Definition source_bytes : list Z := [72; 101; 108; 108; 111; 44; 32; 119; 111; 114; 108; 100; 33; 0].
Definition packet_length (i : Z) (s : MessageState) : option Z := length <$> packets (message s) !! i.
Definition packet_part (i offset n : Z) (s : MessageState) : option (list Z) :=
  (fun k => slice offset n (payload k)) <$> packets (message s) !! i.
(** Packet [index] of [len] bytes, in a message of [total] bytes. *)
Definition last_packet (index len total : Z) : M MessageState unit := set_message (fun m =>
  m <| packets := {[index := mkPacket 1 (repeat 0 2000) len]} |> <| numPackets := 1 |> <| messageLength := total |>).

Definition test_Message_append_basic : M MessageState unit := steps
  [EXPECT_EQ 2000 (fun _ => TRANSPORT_HEADER_LENGTH + PACKET_DATA_LENGTH (H := mock 2000));
   last_packet 0 (2000 - 7) (PACKET_DATA_LENGTH (H := mock 2000) - 7);
   SenderMessage.append (H := mock 2000) source_bytes;
   EXPECT_EQ (PACKET_DATA_LENGTH (H := mock 2000) + 7) (fun s => messageLength (message s));
   EXPECT_EQ 2 (fun s => numPackets (message s));
   EXPECT_EQ (Some 2000) (packet_length 0); EXPECT_EQ (Some (TRANSPORT_HEADER_LENGTH + 7)) (packet_length 1);
   EXPECT_EQ (Some (slice 0 7 source_bytes)) (packet_part 0 (2000 - 7) 7);
   EXPECT_EQ (Some (slice 7 7 source_bytes)) (packet_part 1 TRANSPORT_HEADER_LENGTH 7)].
Definition test_Message_append_truncated : M MessageState unit := steps
  [last_packet (MAX_MESSAGE_PACKETS - 1) (TRANSPORT_HEADER_LENGTH + PACKET_DATA_LENGTH (H := mock 2000) - 7)
     (PACKET_DATA_LENGTH (H := mock 2000) * MAX_MESSAGE_PACKETS - 7);
   EXPECT_EQ 1 (fun s => numPackets (message s));
   SenderMessage.append (H := mock 2000) source_bytes;
   EXPECT_EQ (PACKET_DATA_LENGTH (H := mock 2000) * MAX_MESSAGE_PACKETS) (fun s => messageLength (message s));
   EXPECT_EQ 1 (fun s => numPackets (message s));
   EXPECT_EQ (Some (TRANSPORT_HEADER_LENGTH + PACKET_DATA_LENGTH (H := mock 2000))) (packet_length (MAX_MESSAGE_PACKETS - 1));
   EXPECT_EQ (Some (slice 0 7 source_bytes)) (packet_part (MAX_MESSAGE_PACKETS - 1) (2000 - 7) 7)].
Definition test_Message_length : M MessageState unit := steps
  [set_message (fun m => m <| messageLength := 200 |> <| start := 20 |>);
   EXPECT_EQ 180 (fun s => message_length (message s))].
Definition test_Message_prepend : M MessageState unit :=
  let L := PACKET_DATA_LENGTH (H := mock 2048) in
  steps
  [SenderMessage.reserve (H := mock 2048) (L + 7);
   EXPECT_EQ (L + 7) (fun s => start (message s)); EXPECT_EQ (L + 7) (fun s => messageLength (message s));
   SenderMessage.prepend (H := mock 2048) source_bytes;
   EXPECT_EQ (L - 7) (fun s => start (message s)); EXPECT_EQ (L + 7) (fun s => messageLength (message s));
   EXPECT_EQ (Some (slice 0 7 source_bytes)) (packet_part 0 (TRANSPORT_HEADER_LENGTH + L - 7) 7);
   EXPECT_EQ (Some (slice 7 7 source_bytes)) (packet_part 1 TRANSPORT_HEADER_LENGTH 7)].
Definition test_Message_reserve : M MessageState unit :=
  let L := PACKET_DATA_LENGTH in
  steps
  [EXPECT_EQ 0 (fun s => start (message s)); EXPECT_EQ 0 (fun s => messageLength (message s));
   EXPECT_EQ 0 (fun s => numPackets (message s));
   SenderMessage.reserve (L - 7);
   EXPECT_EQ (L - 7) (fun s => start (message s)); EXPECT_EQ (L - 7) (fun s => messageLength (message s));
   EXPECT_EQ 1 (fun s => numPackets (message s)); EXPECT_EQ (Some (TRANSPORT_HEADER_LENGTH + L - 7)) (packet_length 0);
   SenderMessage.reserve 14;
   EXPECT_EQ (L + 7) (fun s => start (message s)); EXPECT_EQ (L + 7) (fun s => messageLength (message s));
   EXPECT_EQ 2 (fun s => numPackets (message s)); EXPECT_EQ (Some (TRANSPORT_HEADER_LENGTH + L)) (packet_length 0);
   EXPECT_EQ (Some (TRANSPORT_HEADER_LENGTH + 7)) (packet_length 1)].
(** The packet at [0], which [getPacket] finds if the entry is occupied. *)
Definition found (s : MessageState) : option positive :=
  match getPacket (message s) 0 with Ok k => pkt_id <$> k | Error _ => None end.
Definition test_Message_getPacket : M MessageState unit := steps
  [EXPECT_EQ None found; put_packet 0 (mkPacket 42 [] 0); EXPECT_EQ (Some 42%positive) found].
Definition test_Message_getOrAllocPacket : M MessageState unit :=
  _ ← EXPECT_EQ None found;
  _ ← EXPECT_EQ 0 (fun s => numPackets (message s));
  k ← getOrAllocPacket 0;
  _ ← EXPECT_EQ (Some (pkt_id k)) found;
  _ ← EXPECT_EQ 1 (fun s => numPackets (message s));
  k' ← getOrAllocPacket 0;
  steps [EXPECT_EQ (pkt_id k) (fun _ => pkt_id k'); EXPECT_EQ (Some (pkt_id k)) found;
    EXPECT_EQ 1 (fun s => numPackets (message s))].

(** ** Buckets, sendMessage, cancelMessage and dropMessage *)

Definition test_MessageBucket_findMessage : M Sender unit :=
  p0 ← allocMessage 0;
  p1 ← allocMessage 0;
  let id0 := Protocol.mkMessageId 42 0 in
  _ ← update p0 (fun m => m <| id := id0 |>);
  _ ← update p1 (fun m => m <| id := id_42_1 |>);
  _ ← update_bucket 0 (fun k => k <| messages ::= fun l => l ++ [p0; p1] |>);
  r0 ← findMessage 0 id0;
  r1 ← findMessage 0 id_42_1;
  r2 ← findMessage 0 (Protocol.mkMessageId 42 42);
  steps [EXPECT_EQ (Some p0) (fun _ => r0); EXPECT_EQ (Some p1) (fun _ => r1); EXPECT_EQ None (fun _ => r2)].

(** The policy of the test for [destination0]. *)
Definition policy_for (version limit prio : Z) : M Sender unit :=
  EXPECT_policy (mockPolicyManager 0 22 (Policy.mkUnscheduled version limit prio)).
Definition new_id : Protocol.MessageId := Protocol.mkMessageId 22 1.
Definition in_bucket (p : ptr) (s : Sender) : bool := bool_decide (p ∈ messages (messageBuckets s (getBucket new_id))).
(** A message of [n] packets of which each but the last is full. *)
Definition new_message (n len last : Z) : M Sender ptr :=
  p ← allocMessage 0;
  _ ← set_packets p (n - 1) (1000 + 31);
  _ ← setMessagePacket p (n - 1) (packet (n - 1) (last + 31));
  _ ← update p (fun m => m <| messageLength := len |>);
  mret p.
Definition header_is {A} `{EqDecision A} (p : ptr) (i : Z) (f : Protocol.DataHeader -> A) (v : A) : M Sender unit :=
  EXPECT_EQ (Some v) (fun s => f <$> header_of p i s).

Definition test_sendMessage_basic : M Sender unit :=
  p ← new_message 1 420 420;
  steps [EXPECT_FALSE (in_bucket p); policy_for 1 3000 2;
    sendMessage p destination0 NO_RETRY;
    expect p id new_id; expect p destination destination0; expect p options NO_RETRY;
    header_is p 0 (fun h => Protocol.sport (Protocol.prefix (Protocol.dh_common h))) (Protocol.bswap16 0);
    header_is p 0 (fun h => Protocol.dport (Protocol.prefix (Protocol.dh_common h))) (Protocol.bswap16 60001);
    header_is p 0 (fun h => Protocol.messageId (Protocol.dh_common h)) new_id;
    header_is p 0 Protocol.totalLength 420; header_is p 0 Protocol.policyVersion 1;
    header_is p 0 Protocol.unscheduledIndexLimit 3; header_is p 0 Protocol.dh_index 0;
    EXPECT_TRUE (in_bucket p); timeouts_at p 11000 10100;
    EXPECT_EQ [(22, 2)] (fun s => (sent_packets s).*1); state_is p SENT; ready false].
Definition test_sendMessage_multipacket : M Sender unit :=
  p ← new_message 2 1420 420;
  steps [EXPECT_EQ 31 (fun _ => Protocol.header_size Protocol.DataHeader); EXPECT_EQ 1000 (fun _ => PACKET_DATA_LENGTH);
    policy_for 1 1000 2;
    sendMessage p destination0 NONE;
    expect p id new_id; expect p destination destination0; state_is p IN_PROGRESS;
    header_is p 0 (fun h => Protocol.messageId (Protocol.dh_common h)) new_id; header_is p 0 Protocol.totalLength 1420;
    header_is p 1 (fun h => Protocol.messageId (Protocol.dh_common h)) new_id; header_is p 1 Protocol.totalLength 1420;
    EXPECT_TRUE (in_bucket p); timeouts_at p 11000 10100; EXPECT_TRUE (queued p); ready true].
Definition test_sendMessage_NO_KEEP_ALIVE : M Sender unit :=
  p ← new_message 1 420 420;
  steps [policy_for 1 3000 2;
    sendMessage p destination0 NO_KEEP_ALIVE;
    EXPECT_EQ [22] (fun s => (sent_packets s).*1.*1); expect p options NO_KEEP_ALIVE; EXPECT_TRUE (in_bucket p);
    EXPECT_TRUE (fun s => timeouts_empty (messageTimeouts (bucket_of p s)));
    EXPECT_TRUE (fun s => timeouts_empty (pingTimeouts (bucket_of p s))); state_is p SENT].
Definition test_sendMessage_missingPacket : M Sender unit :=
  p ← allocMessage 0;
  _ ← setMessagePacket p 1 (packet 1 0);
  EXPECT_DEATH Panicked (sendMessage p (mkSocketAddress 0 0) NONE).
Definition test_sendMessage_unscheduledLimit : M Sender unit :=
  p ← new_message 9 9000 1000;
  steps [expect p numPackets 9; policy_for 1 4500 2; sendMessage p destination0 NONE; expect_info p packetsGranted 5].

Definition test_cancelMessage : M Sender unit :=
  p ← allocMessage 0;
  steps [addMessage id_42_1 p true 5; set_timeouts (getBucket id_42_1) p;
    update p (fun m => m <| messageLength := 9000 |> <| numPackets := 9 |> <| state := IN_PROGRESS |>);
    EXPECT_FALSE (fun s => timeouts_empty (messageTimeouts (bucket_of p s)));
    EXPECT_FALSE (fun s => timeouts_empty (pingTimeouts (bucket_of p s))); EXPECT_NE [] sendQueue;
    cancelMessage p;
    EXPECT_TRUE (fun s => timeouts_empty (messageTimeouts (bucket_of p s)));
    EXPECT_TRUE (fun s => timeouts_empty (pingTimeouts (bucket_of p s))); EXPECT_EQ [] sendQueue; state_is p CANCELED].
Definition test_dropMessage_basic : M Sender unit :=
  p ← allocMessage 0;
  steps [outstanding 1; expect p held true; state_is p NOT_STARTED; dropMessage p; outstanding 0].
Definition test_dropMessage_IN_PROGRESS : M Sender unit :=
  p ← allocMessage 0;
  steps [set_state p IN_PROGRESS; outstanding 1; expect p held true; dropMessage p; outstanding 1; expect p held false].

(** ** Timeouts *)

(** [message->messageTimeout.expirationCycleTime = t], and the same for the ping. *)
Definition expire_message (p : ptr) (t : Z) : M Sender unit :=
  update_bucket 0 (fun k => k <| messageTimeouts ::= fun m => m <| expirations ::= <[p := t]> |> |>).
Definition expire_ping (p : ptr) (t : Z) : M Sender unit :=
  update_bucket 0 (fun k => k <| pingTimeouts ::= fun m => m <| expirations ::= <[p := t]> |> |>).
Definition message_linked (p : ptr) (s : Sender) : bool := bool_decide (p ∈ timeouts (messageTimeouts (messageBuckets s 0))).
Definition ping_linked (p : ptr) (s : Sender) : bool := bool_decide (p ∈ timeouts (pingTimeouts (messageBuckets s 0))).

Definition test_checkMessageTimeouts : M Sender unit :=
  p0 ← allocMessage 0; _ ← set_timeouts 0 p0;
  p1 ← allocMessage 0; _ ← set_timeouts 0 p1;
  p2 ← allocMessage 0; _ ← set_timeouts 0 p2;
  p3 ← allocMessage 0; _ ← set_timeouts 0 p3;
  steps [expire_message p0 9998; set_state p0 IN_PROGRESS; modify (fun s => s <| sendQueue ::= cons p0 |>);
    expire_message p1 9999; set_state p1 SENT;
    expire_message p2 10000; set_state p2 COMPLETED;
    expire_message p3 10001; set_state p3 SENT;
    update_bucket 0 (fun k => k <| messageTimeouts ::= fun m => m <| nextTimeout := 9998 |> |>);
    checkMessageTimeouts 10000 0;
    EXPECT_EQ 10001 (fun s => nextTimeout (messageTimeouts (messageBuckets s 0)));
    EXPECT_FALSE (message_linked p0); EXPECT_FALSE (ping_linked p0); state_is p0 FAILED; EXPECT_EQ [] sendQueue;
    EXPECT_FALSE (message_linked p1); EXPECT_FALSE (ping_linked p1); state_is p1 FAILED;
    EXPECT_FALSE (message_linked p2); EXPECT_FALSE (ping_linked p2); state_is p2 COMPLETED;
    EXPECT_TRUE (message_linked p3); EXPECT_TRUE (ping_linked p3); state_is p3 SENT].

(** One PING is sent, for [p4]. *)
Definition test_checkPingTimeouts : M Sender unit :=
  p0 ← allocMessage 0; _ ← set_pingTimeout 0 p0;
  p1 ← allocMessage 0; _ ← set_pingTimeout 0 p1;
  p2 ← allocMessage 0; _ ← set_pingTimeout 0 p2;
  p3 ← allocMessage 0; _ ← set_pingTimeout 0 p3;
  p4 ← allocMessage 0; _ ← set_pingTimeout 0 p4;
  p5 ← allocMessage 0; _ ← set_pingTimeout 0 p5;
  let ping_at p t := EXPECT_EQ t (fun s => expirationCycleTime p (pingTimeouts (messageBuckets s 0))) in
  steps [set_state p0 COMPLETED; expire_ping p0 9996;
    set_state p1 FAILED; expire_ping p1 9997;
    update p2 (fun m => m <| options := NO_KEEP_ALIVE |> <| state := SENT |>); expire_ping p2 9998;
    set_state p3 IN_PROGRESS; expire_ping p3 9999;
    update_info p3 (fun i => i <| packetsSent := 1 |> <| packetsGranted := 2 |>);
    set_state p4 SENT; expire_ping p4 10000;
    expire_ping p5 10001;
    update_bucket 0 (fun k => k <| pingTimeouts ::= fun m => m <| nextTimeout := 9996 |> |>);
    checkPingTimeouts 10000 0;
    EXPECT_EQ 10001 (fun s => nextTimeout (pingTimeouts (messageBuckets s 0)));
    EXPECT_FALSE (ping_linked p0); EXPECT_FALSE (ping_linked p1); EXPECT_FALSE (ping_linked p2);
    ping_at p4 10100; EXPECT_EQ [Protocol.opcode_value Protocol.PING] controls; ping_at p5 10001].

(** ** trySend *)

(** What the test reads of the message after it was destroyed is left out. *)
Definition test_trySend_basic : M Sender unit :=
  p ← allocMessage 0;
  _ ← addMessage (Protocol.mkMessageId 42 10) p true 3;
  _ ← set_packets p 5 1031;
  let after_send (b : bool) granted sent left :=
    steps [ready b; expect_info p packetsGranted granted; expect_info p packetsSent sent;
           expect_info p unsentBytes (left * 1000)] in
  let unfinished := steps [state_is p IN_PROGRESS; EXPECT_TRUE (queued p); outstanding 1] in
  steps [update_info p (fun i => i <| unsentBytes ::= fun u => u + 5 * 1000 |>);
    update p (fun m => m <| state := IN_PROGRESS |> <| held := false |>);
    modify (fun s => s <| sendReady := true |>);
    expect p numPackets 5; after_send true 3 0 5; unfinished;
    trySend; after_send true 3 2 3; unfinished; sends [(0, 0, Some 0); (0, 0, Some 1)];
    trySend; after_send false 3 3 2; unfinished; sends [(0, 0, Some 0); (0, 0, Some 1); (0, 0, Some 2)];
    modify (fun s => s <| sendReady := true |>);
    trySend; after_send false 3 3 2; unfinished; sends [(0, 0, Some 0); (0, 0, Some 1); (0, 0, Some 2)];
    update_info p (fun i => i <| packetsGranted := 5 |>); modify (fun s => s <| sendReady := true |>);
    trySend; ready false;
    sends [(0, 0, Some 0); (0, 0, Some 1); (0, 0, Some 2); (0, 0, Some 3); (0, 0, Some 4)];
    EXPECT_FALSE (queued p); outstanding 0].

(** Message 0 finishes and is not held, message 1 reaches its grants, message 2
    finishes and has no timeouts afterwards. *)
Definition test_trySend_multipleMessages : M Sender unit :=
  let id_of i := Protocol.mkMessageId 22 (10 + i) in
  let queue_one i :=
    p ← allocMessage 0;
    _ ← addMessage (id_of i) p true 1;
    _ ← setMessagePacket p 0 (packet i (1031 / 4));
    _ ← update_info p (fun info => info <| unsentBytes ::= fun u => u + (1031 / 4 - TRANSPORT_HEADER_LENGTH) |>);
    _ ← set_state p IN_PROGRESS;
    _ ← expect_info p packetsGranted 1;
    mret p in
  p0 ← queue_one 0;
  p1 ← queue_one 1;
  p2 ← queue_one 2;
  _ ← steps [modify (fun s => s <| sendReady := true |>);
    update p0 (fun m => m <| held := false |>);
    (_ ← setMessagePacket p1 1 (packet 9 0); expect p1 numPackets 2);
    update p2 (fun m => m <| options := NO_KEEP_ALIVE |>);
    trySend; sends [(0, 0, Some 0); (0, 0, Some 1); (0, 0, Some 2)]];
  gone ← findMessage (getBucket (id_of 0)) (id_of 0);
  steps [EXPECT_EQ None (fun _ => gone); EXPECT_FALSE (queued p0);
    expect_info p1 packetsSent 1; state_is p1 IN_PROGRESS; EXPECT_TRUE (queued p1);
    expect_info p2 packetsSent 1; state_is p2 SENT; EXPECT_FALSE (queued p2); no_timeouts p2].

Definition test_trySend_alreadyRunning : M Sender unit :=
  p ← allocMessage 0;
  _ ← addMessage id_42_1 p true 1;
  _ ← setMessagePacket p 0 (packet 0 0);
  steps [update p (fun m => m <| messageLength := 1000 |>); expect p numPackets 1; expect_info p packetsGranted 1;
    expect_info p packetsSent 0; modify (fun s => s <| sending := true |>);
    trySend; sends []; expect_info p packetsSent 0].
Definition test_trySend_nothingToSend : M Sender unit := steps [EXPECT_EQ [] sendQueue; trySend; sends []].

(** ** All of them *)

Definition tests : list (M Sender unit) :=
  [test_allocMessage; test_handleDonePacket_basic; test_handleDonePacket_CANCELED; test_handleDonePacket_COMPLETED;
   test_handleDonePacket_FAILED; test_handleDonePacket_IN_PROGRESS; test_handleDonePacket_NO_STARTED;
   test_handleResendPacket_basic; test_handleResendPacket_staleResend; test_handleResendPacket_badRequest_singlePacketMessage;
   test_handleResendPacket_badRequest_outOfRange; test_handleResendPacket_eagerResend;
   test_handleGrantPacket_basic; test_handleGrantPacket_excessiveGrant; test_handleGrantPacket_staleGrant;
   test_handleGrantPacket_dropGrant; test_handleUnknownPacket_basic; test_handleUnknownPacket_singlePacketMessage;
   test_handleUnknownPacket_NO_KEEP_ALIVE; test_handleUnknownPacket_NO_RETRY; test_handleUnknownPacket_no_message;
   test_handleUnknownPacket_done; test_handleErrorPacket_basic; test_handleErrorPacket_CANCELED;
   test_handleErrorPacket_NOT_STARTED; test_handleErrorPacket_IN_PROGRESS; test_handleErrorPacket_COMPLETED;
   test_handleErrorPacket_FAILED; test_handleErrorPacket_noMessage; test_checkTimeouts;
   test_Message_destructor; test_MessageBucket_findMessage; test_sendMessage_basic; test_sendMessage_multipacket;
   test_sendMessage_NO_KEEP_ALIVE; test_sendMessage_missingPacket; test_sendMessage_unscheduledLimit; test_cancelMessage;
   test_dropMessage_basic; test_dropMessage_IN_PROGRESS; test_checkMessageTimeouts; test_checkPingTimeouts;
   test_trySend_basic; test_trySend_multipleMessages; test_trySend_alreadyRunning; test_trySend_nothingToSend].
(** With the payload size that each asks of the mock. *)
Definition message_tests : list (Z * M MessageState unit) :=
  [(2000, test_Message_append_basic); (2000, test_Message_append_truncated); (2048, test_Message_length);
   (2048, test_Message_prepend); (1031, test_Message_reserve); (1031, test_Message_getPacket);
   (1031, test_Message_getOrAllocPacket)].

Example sender_tests_pass :
  forallb (passes fixture) tests = true /\
  forallb (fun '(size, test) => passes (message_state size) test) message_tests = true.
Proof. split; vm_compute; reflexivity. Qed.
End SenderTest.
