(* ===== verification/ReceiverTest.v ===== *)
(** * ReceiverTest: the tests of src/src/ReceiverTest.cc on Receiver.v

    As in SenderTest.v, the mocks are an instance of the class of drivers and a policy
    manager that answers as the test tells it to.  The model fixes the length of the
    transport header, which some tests choose as they construct a message: there the
    payload size of the mock is such that a packet holds as many bytes as in the test. *)

From S2P Require Import Prelude Util Timeout ObjectPool Perf Protocol Policy Driver SenderMessage ReceiverMessage Receiver UnitTest.
Import Driver ReceiverMessage Receiver UnitTest.

Module ReceiverTest.

Definition mock (maxPayloadSize : Z) : Driver := {|
  getHighestPacketPriority := 0;
  getMaxPayloadSize := maxPayloadSize;
  getBandwidth := 8000;
  getLocalAddress := 0;
  getQueuedBytes_nth := fun _ => 0;
  payload_nth := fun _ => repeat 0 (Z.to_nat maxPayloadSize);
  rdtsc_nth := fun _ => 10000;
  std_hash := fun v => v
|}.
#[local] Instance mockDriver : Driver := mock 1027.
(** The driver of the tests whose messages have packets without a header. *)
Definition no_header : Driver := mock (1027 + 31).

Definition mockPacket_id : positive := 200%positive.
Definition mockPacket (len : Z) : Packet := mkPacket mockPacket_id (repeat 0 1028) len.
Definition with_header {H : Type} `{Protocol.PacketHeader H} (h : H) : Packet := write_header h (mockPacket 0).
Definition no_policy : Policy.Manager := Policy.Manager_new 0 0.
(** What [getScheduledPolicy] returns. *)
Definition EXPECT_policy (max degree low high : Z) : M Receiver unit := modify (fun s =>
  s <| policyManager ::= fun m => m <| Policy.localScheduledPolicy := Policy.mkScheduled max degree low high |> |>).

(** The fixture [ReceiverTest]. *)
Definition fixture : Receiver := Receiver_new 1000 100 no_policy World_new.

(** [messageAllocator.pool.construct(receiver, driver, ..., length, id, source,
    numUnscheduledPackets)]. *)
Definition construct_message (H : Driver) (length : Z) (msgId : Protocol.MessageId) (source : SocketAddress)
    (unscheduled : Z) : M Receiver ptr :=
  r ← allocator_op (construct (Some (Message_new (H := H) length msgId source unscheduled)));
  match r with Some p => mret p | None => fault BadPointer end.
Definition enter_bucket (b : Z) (p : ptr) : M Receiver unit :=
  update_bucket b (fun k => k <| messages ::= fun l => l ++ [p] |>).

(** ** Expectations *)

#[local] Instance Event_eq_dec : EqDecision Event.
Proof. solve_decision. Defined.

Definition expect {A} `{EqDecision A} (p : ptr) (f : Message -> A) (v : A) : M Receiver unit :=
  m ← deref p; check (bool_decide (f m = v)).
Definition expect_info {A} `{EqDecision A} (p : ptr) (f : ScheduledMessageInfo -> A) (v : A) : M Receiver unit :=
  expect p (fun m => f (scheduledMessageInfo m)) v.
Definition bucket_of (p : ptr) (s : Receiver) : MessageBucket :=
  messageBuckets s (from_option (fun m => getBucket (id m)) 0 (heap s !! p)).
Definition timeouts_at (p : ptr) (message resend : Z) : M Receiver unit := steps
  [EXPECT_EQ message (fun s => expirationCycleTime p (messageTimeouts (bucket_of p s)));
   EXPECT_EQ resend (fun s => expirationCycleTime p (resendTimeouts (bucket_of p s)))].
Definition outstanding (n : Z) : M Receiver unit := EXPECT_EQ n (fun s => outstandingObjects (messageAllocator s)).
Definition releases (n : nat) : M Receiver unit := EXPECT_EQ n (fun s =>
  List.length (omap (fun e => match e with EvRelease [k] => if bool_decide (k = mockPacket_id) then Some e else None
                              | _ => None end) (trace (world s)))).
(** The packets that were sent: destinations and bytes. *)
Definition sent_packets (s : Receiver) : list (IpAddress * list Z) :=
  omap (fun e => match e with EvSend a _ bs => Some (a, bs) | EvRelease _ => None end) (trace (world s)).
Definition sends (l : list (IpAddress * list Z)) : M Receiver unit := EXPECT_EQ l sent_packets.
Definition queue_is (l : list ptr) : M Receiver unit := EXPECT_EQ l receivedMessages.

Definition id_of (i : Z) : Protocol.MessageId := Protocol.mkMessageId 42 i.
Definition address (a : IpAddress) : SocketAddress := mkSocketAddress a 60001.

(** ** DATA *)

Definition data_packet (index len : Z) : Packet :=
  write_header (Protocol.DataHeader_new 0 0 (id_of 33) 3500 1 1 index) (mockPacket (31 + len)).
Definition test_handleDataPacket : M Receiver unit :=
  _ ← handleDataPacket (data_packet 1 1000) 22;
  _ ← releases 0;
  found ← findMessage (getBucket (id_of 33)) (id_of 33);
  match found with
  | None => fault AssertFailed
  | Some p => steps
    [expect p id (id_of 33); expect p messageLength 3500; expect p numExpectedPackets 4; expect p state IN_PROGRESS;
     expect p scheduled true; expect_info p peer (Some 22); expect_info p s_messageLength 3500;
     expect_info p bytesRemaining (3500 - 1000); timeouts_at p 11000 10100; expect p numPackets 1;
     handleDataPacket (data_packet 1 1000) 22; releases 1; expect p numPackets 1;
     handleDataPacket (data_packet 2 1000) 22; releases 1; expect p numPackets 2; expect_info p bytesRemaining 1500;
     handleDataPacket (data_packet 3 500) 22; releases 1; expect p numPackets 3; expect_info p bytesRemaining 1000;
     handleDataPacket (data_packet 0 1000) 22; releases 1; expect p numPackets 4; expect_info p bytesRemaining 0;
     expect p state COMPLETED; EXPECT_EQ (Some p) (fun s => last (receivedMessages s));
     handleDataPacket (data_packet 0 1000) 22; releases 2]
  end.

(** ** BUSY and PING *)

Definition busy : Packet := with_header (Protocol.BusyHeader_new (id_of 32)).
Definition test_handleBusyPacket_basic : M Receiver unit :=
  p ← construct_message no_header 0 (id_of 32) (address 0) 0;
  steps [enter_bucket (getBucket (id_of 32)) p; handleBusyPacket busy; releases 1; timeouts_at p 11000 10100].
Definition test_handleBusyPacket_unknown : M Receiver unit := steps [handleBusyPacket busy; releases 1].
Definition ping : Packet := with_header (Protocol.PingHeader_new (id_of 32)).
Definition test_handlePingPacket_basic : M Receiver unit :=
  p ← construct_message no_header 20000 (id_of 32) (mkSocketAddress 22 0) 0;
  steps [expect p scheduled true; update_info p (fun i => i <| bytesGranted := 500 |> <| priority := 3 |>);
    enter_bucket (getBucket (id_of 32)) p;
    handlePingPacket ping 22;
    sends [(22, Protocol.encode (Protocol.GrantHeader_new (id_of 32) 500 3))]; releases 1; timeouts_at p 11000 0].
Definition test_handlePingPacket_unknown : M Receiver unit := steps
  [handlePingPacket ping 22; sends [(22, Protocol.encode (Protocol.UnknownHeader_new (id_of 32)))]; releases 1].

(** ** The calls of the application *)

Definition test_receiveMessage : M Receiver unit :=
  p0 ← construct_message no_header 0 (id_of 0) (address 22) 0;
  p1 ← construct_message no_header 0 (id_of 0) (address 22) 0;
  _ ← modify (fun s => s <| receivedMessages := [p0; p1] |>);
  r0 ← receiveMessage;
  _ ← queue_is [p1];
  r1 ← receiveMessage;
  _ ← queue_is [];
  r2 ← receiveMessage;
  steps [EXPECT_EQ (Some p0) (fun _ => r0); EXPECT_EQ (Some p1) (fun _ => r1); EXPECT_EQ None (fun _ => r2); queue_is []].
Definition test_checkTimeouts : M Receiver unit := steps
  [EXPECT_EQ 0 nextBucketIndex; checkTimeouts; EXPECT_EQ 1 nextBucketIndex].

(** A message without packets. *)
Definition empty_message : M Receiver ptr := construct_message no_header 0 (id_of 32) (address 22) 0.
(** Packets at the given indices. *)
Definition occupy (p : ptr) (indices : list Z) : M Receiver unit := update p (fun m =>
  m <| packets := list_to_map ((fun i => (i, mkPacket (Z.to_pos (100 + i)) [] 0)) <$> indices) |>
    <| numPackets := zlength indices |>).
Definition test_Message_destructor_basic : M Receiver unit :=
  p ← empty_message;
  steps [occupy p [0; 1; 2; 3; 4]; destroy_message p;
    EXPECT_EQ [EvRelease [100; 101; 102; 103; 104]%positive] (fun s => trace (world s))].
Definition test_Message_destructor_holes : M Receiver unit :=
  p ← empty_message;
  steps [occupy p [0; 1; 3; 4]; destroy_message p;
    EXPECT_EQ [EvRelease [100; 101]%positive; EvRelease [103; 104]%positive] (fun s => trace (world s))].
Definition test_Message_acknowledge : M Receiver unit :=
  p ← empty_message; steps [acknowledge p; sends [(22, Protocol.encode (Protocol.DoneHeader_new (id_of 32)))]].
Definition test_Message_dropped : M Receiver unit :=
  p ← empty_message;
  _ ← update p (fun m => m <| state := IN_PROGRESS |>);
  d0 ← dropped p;
  _ ← update p (fun m => m <| state := DROPPED |>);
  d1 ← dropped p;
  steps [EXPECT_FALSE (fun _ => d0); EXPECT_TRUE (fun _ => d1)].
Definition test_Message_fail : M Receiver unit :=
  p ← empty_message; steps [fail p; sends [(22, Protocol.encode (Protocol.ErrorHeader_new (id_of 32)))]].

(** "Hello, world!" with its terminator, in the packets 0 and 1 of a message of
    2031 bytes. *)
Definition source_bytes : list Z := [72; 101; 108; 108; 111; 44; 32; 119; 111; 114; 108; 100; 33; 0].
Definition for_get : Driver := mock (2024 + 31).
Definition get_message (start0 : Z) (ps : gmap Z Packet) : M Receiver ptr :=
  p ← construct_message for_get (24 + 2007) (id_of 32) (address 22) 0;
  _ ← update p (fun m => m <| packets := ps |> <| numPackets := Z.of_nat (size ps) |> <| start := start0 |>);
  mret p.
Definition get_packet (i : positive) (offset len : Z) (bytes : list Z) : Packet :=
  mkPacket i (write_at (31 + offset) bytes (repeat 0 2055)) (31 + len).
Definition first_packet (bytes : list Z) : Packet := get_packet 1 (24 + 2000 - 7) (24 + 2000) bytes.
Definition second_packet (bytes : list Z) : Packet := get_packet 2 0 7 bytes.
Definition test_Message_get_basic : M Receiver unit :=
  p ← get_message 24 {[0 := first_packet (slice 0 7 source_bytes); 1 := second_packet (slice 7 7 source_bytes)]};
  bytes ← get_bytes (H := for_get) p (2000 - 7) 20;
  steps [EXPECT_EQ 14 (fun _ => zlength bytes); EXPECT_EQ source_bytes (fun _ => bytes)].
Definition test_Message_get_offsetTooLarge : M Receiver unit :=
  p ← get_message 20 {[0 := first_packet []; 1 := second_packet []]};
  bytes ← get_bytes (H := for_get) p 4000 20;
  EXPECT_EQ 0 (fun _ => zlength bytes).
Definition test_Message_get_missingPacket : M Receiver unit :=
  p ← get_message 24 {[0 := first_packet (slice 0 7 source_bytes)]};
  bytes ← get_bytes (H := for_get) p (2000 - 7) 20;
  steps [EXPECT_EQ 7 (fun _ => zlength bytes); EXPECT_EQ (slice 0 7 source_bytes) (fun _ => bytes)].

Definition test_Message_length : M Receiver unit :=
  p ← empty_message;
  _ ← update p (fun m => m <| messageLength := 200 |> <| start := 20 |>);
  m ← deref p;
  n ← message_length m;
  EXPECT_EQ 180 (fun _ => n).
Definition test_Message_strip : M Receiver unit :=
  p ← empty_message;
  steps [update p (fun m => m <| messageLength := 30 |> <| start := 0 |>);
    strip_bytes p 20; expect p start 20; strip_bytes p 20; expect p start 30].

(** The packet at [0], which [getPacket] finds if the entry is occupied. *)
Definition packet_at_0 (m : Message) : option positive :=
  match getPacket m 0 with Ok k => pkt_id <$> k | Error _ => None end.
Definition test_Message_getPacket : M Receiver unit :=
  p ← empty_message;
  steps [expect p packet_at_0 None; update p (fun m => m <| packets := {[0 := mkPacket 42 [] 0]} |>);
    expect p packet_at_0 (Some 42%positive)].
Definition test_Message_setPacket : M Receiver unit :=
  p ← empty_message;
  _ ← steps [expect p packet_at_0 None; expect p numPackets 0];
  m ← deref p;
  r ← lift (setPacket 0 (mkPacket 42 [] 0) m);
  _ ← update p (fun _ => r.2);
  _ ← steps [EXPECT_TRUE (fun _ => r.1); expect p packet_at_0 (Some 42%positive); expect p numPackets 1];
  m ← deref p;
  r ← lift (setPacket 0 (mkPacket 42 [] 0) m);
  EXPECT_FALSE (fun _ => r.1).

Definition test_MessageBucket_findMessage : M Receiver unit :=
  p0 ← construct_message mockDriver 0 (id_of 0) (address 0) 0;
  p1 ← construct_message mockDriver 0 (id_of 1) (address 0) 0;
  _ ← enter_bucket 0 p0;
  _ ← enter_bucket 0 p1;
  r0 ← findMessage 0 (id_of 0);
  r1 ← findMessage 0 (id_of 1);
  r2 ← findMessage 0 (id_of 42);
  steps [EXPECT_EQ (Some p0) (fun _ => r0); EXPECT_EQ (Some p1) (fun _ => r1); EXPECT_EQ None (fun _ => r2)].

(** ** dropMessage and the timeouts *)

Definition test_dropMessage : M Receiver unit :=
  let b := getBucket (id_of 32) in
  p ← construct_message no_header 1000 (id_of 32) (address 22) 0;
  _ ← steps [expect p scheduled true; enter_bucket b p; schedule p; set_messageTimeout b p; set_resendTimeout b p;
    outstanding 1];
  r0 ← findMessage b (id_of 32);
  _ ← steps [EXPECT_EQ (Some p) (fun _ => r0); expect_info p peer (Some 22);
    EXPECT_FALSE (fun s => timeouts_empty (messageTimeouts (messageBuckets s b)));
    EXPECT_FALSE (fun s => timeouts_empty (resendTimeouts (messageBuckets s b)));
    dropMessage p; outstanding 0];
  r1 ← findMessage b (id_of 32);
  steps [EXPECT_EQ None (fun _ => r1); EXPECT_EQ [] (fun s => scheduledMessages s 22);
    EXPECT_TRUE (fun s => timeouts_empty (messageTimeouts (messageBuckets s b)));
    EXPECT_TRUE (fun s => timeouts_empty (resendTimeouts (messageBuckets s b)))].

(** [message->messageTimeout.expirationCycleTime = t], and the same for resends. *)
Definition expire_message (p : ptr) (t : Z) : M Receiver unit :=
  update_bucket 0 (fun k => k <| messageTimeouts ::= fun m => m <| expirations ::= <[p := t]> |> |>).
Definition expire_resend (p : ptr) (t : Z) : M Receiver unit :=
  update_bucket 0 (fun k => k <| resendTimeouts ::= fun m => m <| expirations ::= <[p := t]> |> |>).
Definition message_linked (p : ptr) (s : Receiver) : bool := bool_decide (p ∈ timeouts (messageTimeouts (messageBuckets s 0))).
Definition resend_linked (p : ptr) (s : Receiver) : bool := bool_decide (p ∈ timeouts (resendTimeouts (messageBuckets s 0))).
Definition in_bucket_0 (p : ptr) (s : Receiver) : bool := bool_decide (p ∈ messages (messageBuckets s 0)).
Definition resend_at (p : ptr) (t : Z) : M Receiver unit :=
  EXPECT_EQ t (fun s => expirationCycleTime p (resendTimeouts (messageBuckets s 0))).

(** The first message is destroyed, so its lists are looked at instead of it. *)
Definition test_checkMessageTimeouts : M Receiver unit :=
  let enter i :=
    p ← construct_message no_header 1000 (id_of (10 + i)) (address 0) 0;
    _ ← steps [enter_bucket 0 p; set_messageTimeout 0 p; set_resendTimeout 0 p];
    mret p in
  p0 ← enter 0;
  p1 ← enter 1;
  p2 ← enter 2;
  steps [outstanding 3;
    expire_message p0 9998; expect p0 state IN_PROGRESS; expect p0 scheduled true; schedule p0;
    expire_message p1 10000; update p1 (fun m => m <| state := COMPLETED |>);
    expire_message p2 10001;
    update_bucket 0 (fun k => k <| messageTimeouts ::= fun m => m <| nextTimeout := 9998 |> |>);
    EXPECT_TRUE (fun s => hasElapsed 10000 p0 (messageTimeouts (messageBuckets s 0)));
    EXPECT_TRUE (fun s => hasElapsed 10000 p1 (messageTimeouts (messageBuckets s 0)));
    EXPECT_FALSE (fun s => hasElapsed 10000 p2 (messageTimeouts (messageBuckets s 0)));
    checkMessageTimeouts 10000 0;
    EXPECT_EQ 10001 (fun s => nextTimeout (messageTimeouts (messageBuckets s 0)));
    EXPECT_FALSE (message_linked p0); EXPECT_FALSE (resend_linked p0); EXPECT_EQ [] (fun s => scheduledMessages s 0);
    EXPECT_FALSE (in_bucket_0 p0); outstanding 2;
    EXPECT_FALSE (message_linked p1); EXPECT_FALSE (resend_linked p1); expect p1 state DROPPED; EXPECT_TRUE (in_bucket_0 p1);
    EXPECT_TRUE (message_linked p2); EXPECT_TRUE (resend_linked p2); EXPECT_TRUE (in_bucket_0 p2)].

(** The packets 2 to 5 and 8 to 9 of message 0 are missing. *)
Definition test_checkResendTimeouts : M Receiver unit :=
  let waits i :=
    p ← construct_message no_header 10000 (id_of (10 + i)) (address 22) 5;
    _ ← set_resendTimeout 0 p;
    mret p in
  p0 ← waits 0;
  p1 ← waits 1;
  p2 ← waits 2;
  steps [expect p0 scheduled true; expect p0 numUnscheduledPackets 5; expect p0 state IN_PROGRESS;
    expire_resend p0 9999; update_info p0 (fun i => i <| bytesGranted := 10000 |>); occupy p0 [0; 1; 6; 7];
    expect p1 scheduled true; expect p1 messageLength 10000; expire_resend p1 10000;
    update_info p1 (fun i => i <| bytesGranted := 6000 |> <| bytesRemaining := 4000 |>);
    expect p2 state IN_PROGRESS; expire_resend p2 10001;
    update_bucket 0 (fun k => k <| resendTimeouts ::= fun m => m <| nextTimeout := 9999 |> |>);
    checkResendTimeouts (H := no_header) 10000 0;
    EXPECT_EQ 10001 (fun s => nextTimeout (resendTimeouts (messageBuckets s 0)));
    resend_at p0 10100;
    sends [(22, Protocol.encode (Protocol.ResendHeader_new (id_of 10) 2 4 0));
           (22, Protocol.encode (Protocol.ResendHeader_new (id_of 10) 8 2 0))];
    resend_at p1 10100; resend_at p2 10001].

(** ** Grants *)

(** The messages of the GRANTs that were sent. *)
Definition grants (l : list Z) : M Receiver unit := EXPECT_EQ (id_of <$> l) (fun s =>
  (fun e => Protocol.messageId (Protocol.decode_CommonHeader e.2)) <$> sent_packets s).
Definition test_trySendGrants : M Receiver unit :=
  let grantable i :=
    p ← construct_message mockDriver (10000 * (i + 1)) (id_of (10 + i)) (address (100 + i)) (10 * (i + 1));
    _ ← schedule p;
    _ ← update_info p (fun info => info <| priority := 10 |> <| bytesGranted := 5000 |>);
    mret p in
  p0 ← grantable 0;
  p1 ← grantable 1;
  p2 ← grantable 2;
  p3 ← grantable 3;
  let receives p n := update_info p (fun i => i <| bytesRemaining ::= fun r => r - n |>) in
  steps [EXPECT_policy 1 2 5000 10000; receives p0 1000; trySendGrants;
    expect_info p0 priority 1; expect_info p0 bytesGranted 10000; expect_info p0 peer None; grants [10];
    expect_info p1 priority 0; expect_info p1 bytesGranted 5000;
    EXPECT_policy 0 1 5000 10000; receives p1 1000; trySendGrants;
    expect_info p1 priority 0; expect_info p1 bytesGranted 11000; grants [10; 11];
    EXPECT_policy 1 4 5000 10000; trySendGrants;
    expect_info p1 priority 1; expect_info p2 priority 0; expect_info p3 priority 0; grants [10; 11];
    EXPECT_policy 5 6 5000 10000; trySendGrants;
    expect_info p1 priority 2; expect_info p2 priority 1; expect_info p3 priority 0; grants [10; 11]].

(** ** The schedule *)

Definition first_of (a : IpAddress) (s : Receiver) : option ptr := head (scheduledMessages s a).
Definition last_of (a : IpAddress) (s : Receiver) : option ptr := last (scheduledMessages s a).
Definition first_peer (a : IpAddress) : M Receiver unit := EXPECT_EQ (Some a) (fun s => head (scheduledPeers s)).
Definition last_peer (a : IpAddress) : M Receiver unit := EXPECT_EQ (Some a) (fun s => last (scheduledPeers s)).
(** How many messages of the peers 10 and 11 are scheduled. *)
Definition sizes (n m : nat) : M Receiver unit := steps
  [EXPECT_EQ n (fun s => List.length (scheduledMessages s 10)); EXPECT_EQ m (fun s => List.length (scheduledMessages s 11))].
Definition message_from (i len : Z) (a : IpAddress) : M Receiver ptr :=
  construct_message mockDriver len (id_of (10 + i)) (address a) 0.

Definition test_schedule : M Receiver unit :=
  p0 ← message_from 0 2000 22;
  p1 ← message_from 1 3000 33;
  p2 ← message_from 2 1000 33;
  p3 ← message_from 3 4000 22;
  steps [expect_info p0 bytesRemaining 2000; schedule p0;
    expect_info p0 peer (Some 22); EXPECT_EQ (Some p0) (first_of 22); first_peer 22;
    expect_info p1 bytesRemaining 3000; schedule p1;
    expect_info p1 peer (Some 33); EXPECT_EQ (Some p1) (first_of 33); last_peer 33;
    expect_info p2 bytesRemaining 1000; schedule p2;
    expect_info p2 peer (Some 33); EXPECT_EQ (Some p2) (first_of 33); first_peer 33;
    expect_info p3 bytesRemaining 4000; schedule p3;
    expect_info p3 peer (Some 22); EXPECT_EQ (Some p3) (last_of 22); last_peer 22].

Definition test_unschedule : M Receiver unit :=
  let scheduled_from i len a := p ← message_from i len a; _ ← schedule p; mret p in
  p0 ← scheduled_from 0 10 10;
  p1 ← scheduled_from 1 20 10;
  p2 ← scheduled_from 2 30 10;
  p3 ← scheduled_from 3 10 11;
  p4 ← scheduled_from 4 20 11;
  let removed p := steps [unschedule p; expect_info p peer None] in
  steps [first_peer 10; last_peer 11;
    expect_info p0 bytesRemaining 10; expect_info p1 bytesRemaining 20; expect_info p2 bytesRemaining 30;
    expect_info p3 bytesRemaining 10; expect_info p4 bytesRemaining 20;
    removed p4; first_peer 10; last_peer 11; sizes 3 1;
    removed p1; first_peer 10; last_peer 11; sizes 2 1;
    removed p0; first_peer 11; last_peer 10; sizes 1 1;
    removed p3; first_peer 10; last_peer 10; sizes 1 0].

Definition test_updateSchedule : M Receiver unit :=
  let scheduled_from i len a := p ← message_from i len a; _ ← schedule p; mret p in
  p0 ← scheduled_from 0 10 10;
  p1 ← scheduled_from 1 20 11;
  p2 ← scheduled_from 2 30 11;
  p ← scheduled_from (-9) 100 11;
  let remains n := update_info p (fun i => i <| bytesRemaining := n |>) in
  steps [expect_info p0 peer (Some 10); expect_info p1 peer (Some 11); expect_info p2 peer (Some 11);
    expect_info p peer (Some 11); first_peer 10; last_peer 11;
    remains 25; updateSchedule p; last_peer 11; EXPECT_EQ (Some p) (fun s => scheduledMessages s 11 !! 1%nat);
    remains 10; updateSchedule p; last_peer 11; EXPECT_EQ (Some p) (first_of 11);
    remains 0; updateSchedule p; first_peer 11; EXPECT_EQ (Some p) (first_of 11)].

(** ** All of them *)

Definition tests : list (M Receiver unit) :=
  [test_handleDataPacket; test_handleBusyPacket_basic; test_handleBusyPacket_unknown; test_handlePingPacket_basic;
   test_handlePingPacket_unknown; test_receiveMessage; test_checkTimeouts; test_Message_destructor_basic;
   test_Message_destructor_holes; test_Message_acknowledge; test_Message_dropped; test_Message_fail; test_Message_get_basic;
   test_Message_get_offsetTooLarge; test_Message_get_missingPacket; test_Message_length; test_Message_strip;
   test_Message_getPacket; test_Message_setPacket; test_MessageBucket_findMessage; test_dropMessage;
   test_checkMessageTimeouts; test_checkResendTimeouts; test_trySendGrants; test_schedule; test_unschedule;
   test_updateSchedule].
Example receiver_tests_pass : forallb (passes fixture) tests = true.
Proof. vm_compute. reflexivity. Qed.
End ReceiverTest.
