(* ===== verification/UtilityTests.v ===== *)
(** * UtilityTests: the tests of the utilities on their models

    TimeoutTest.cc, ObjectPoolTest.cc, PolicyTest.cc, TubTest.cc, StringUtilTest.cc,
    SpinLockTest.cc, CodeLocationTest.cc, STLUtilTest.cc, UtilTest.cc and
    Drivers/DPDK/MacAddressTest.cc of src/src.  Left out are format, which calls
    printf, the addresses of elements, and the vector of Tubs. *)

From S2P Require Import Prelude Util Timeout ObjectPool Policy Address StringUtil Debug CodeLocation ThreadId Tub STLUtil.
From S2P Require Import ReceiverTeardown SpinLock UnitTest.
From Stdlib Require Import Ascii.
From Stdlib Require String.
Import StringUtil UnitTest.

Module UtilityTests.
#[local] Open Scope Z_scope.

Section values.
Context {St : Type}.
(** Expectations of values that do not depend on the state. *)
Definition same {A} `{EqDecision A} (expected actual : A) : M St unit := EXPECT_EQ expected (fun _ => actual).
Definition holds (b : bool) : M St unit := EXPECT_TRUE (fun _ => b).
Definition fails (b : bool) : M St unit := EXPECT_FALSE (fun _ => b).
End values.

(** ** Timeouts: [t] and the owners are numbers *)

Definition test_Timeout_hasElapsed : M (TimeoutManager Z) unit := steps
  [modify (fun m => m <| expirations ::= <[1 := 1000]> |>);
   EXPECT_FALSE (hasElapsed 999 1); EXPECT_TRUE (hasElapsed 1000 1)].
Definition test_TimeoutManager_setTimeout : M (TimeoutManager Z) unit :=
  let dummy := 7 in let t := 1 in steps
  [modify (fun m => m <| expirations ::= <[dummy := 42]> |> <| timeouts := [dummy] |> <| nextTimeout := 0 |>);
   EXPECT_EQ 0 (expirationCycleTime t); EXPECT_FALSE (fun m => bool_decide (t ∈ timeouts m));
   EXPECT_EQ (Some dummy) (fun m => last (timeouts m));
   modify (setTimeout 10000 t);
   EXPECT_EQ 10100 (expirationCycleTime t); EXPECT_EQ 42 nextTimeout; EXPECT_TRUE (fun m => bool_decide (t ∈ timeouts m));
   EXPECT_EQ (Some t) (fun m => last (timeouts m))].
Definition test_TimeoutManager_setTimeout_reset : M (TimeoutManager Z) unit :=
  let dummy := 7 in let t := 1 in steps
  [modify (fun m => m <| expirations := {[dummy := 9001; t := 50]} |> <| timeouts := [t; dummy] |>);
   EXPECT_EQ 50 (expirationCycleTime t); EXPECT_TRUE (fun m => bool_decide (t ∈ timeouts m));
   EXPECT_EQ (Some t) timeouts_front; EXPECT_EQ (Some dummy) (fun m => last (timeouts m));
   modify (setTimeout 10000 t);
   EXPECT_EQ 10100 (expirationCycleTime t); EXPECT_EQ 9001 nextTimeout; EXPECT_TRUE (fun m => bool_decide (t ∈ timeouts m));
   EXPECT_EQ (Some dummy) timeouts_front; EXPECT_EQ (Some t) (fun m => last (timeouts m))].
Definition test_TimeoutManager_cancelTimeout : M (TimeoutManager Z) unit :=
  let t1 := 1 in let t2 := 2 in steps
  [modify (fun m => m <| expirations := {[t1 := 42; t2 := 9001]} |> <| timeouts := [t1; t2] |>);
   EXPECT_EQ 2%nat (fun m => List.length (timeouts m));
   modify (cancelTimeout t1);
   EXPECT_FALSE (fun m => bool_decide (t1 ∈ timeouts m)); EXPECT_EQ 9001 nextTimeout; EXPECT_EQ 1%nat (fun m => List.length (timeouts m));
   modify (cancelTimeout t2);
   EXPECT_FALSE (fun m => bool_decide (t2 ∈ timeouts m)); EXPECT_EQ UINT64_MAX nextTimeout; EXPECT_TRUE timeouts_empty].

Definition timeout_tests : list (M (TimeoutManager Z) unit) :=
  [test_Timeout_hasElapsed; test_TimeoutManager_setTimeout; test_TimeoutManager_setTimeout_reset;
   test_TimeoutManager_cancelTimeout].
Example timeout_tests_pass : forallb (passes (TimeoutManager_new 100)) timeout_tests = true.
Proof. vm_compute. reflexivity. Qed.

(** ** The pool: of objects without a content *)

Definition construct_ok : M (ObjectPool unit) ptr :=
  r ← construct (Some tt); match r with Some p => mret p | None => fault BadPointer end.
Definition destroy_ok (p : ptr) : M (ObjectPool unit) unit := destroy (fun _ => Ok tt) p.
Definition pool_size (o : ObjectPool unit) : nat := List.length (pool o).

Definition test_ObjectPool_constructor : M (ObjectPool unit) unit := EXPECT_EQ 0 outstandingObjects.
Definition test_ObjectPool_destructor : M (ObjectPool unit) unit :=
  a ← construct_ok; b ← construct_ok; _ ← destroy_ok a; _ ← destroy_ok b;
  _ ← EXPECT_FALSE ReceiverTeardown.ObjectPool_delete;
  _ ← modify (fun _ => ObjectPool_new);
  a ← construct_ok; b ← construct_ok; _ ← destroy_ok b; _ ← destroy_ok a;
  EXPECT_FALSE ReceiverTeardown.ObjectPool_delete.
Definition test_ObjectPool_destructor_objectsStillAllocated : M (ObjectPool unit) unit :=
  _ ← construct_ok; _ ← EXPECT_TRUE ReceiverTeardown.ObjectPool_delete; EXPECT_EQ 1 outstandingObjects.
(** The first constructor throws. *)
Definition test_ObjectPool_construct : M (ObjectPool unit) unit :=
  r ← construct None;
  _ ← same None r;
  _ ← EXPECT_EQ 1%nat pool_size;
  a ← construct_ok;
  _ ← EXPECT_EQ 1 outstandingObjects;
  destroy_ok a.
Definition test_ObjectPool_destroy : M (ObjectPool unit) unit :=
  p ← construct_ok;
  steps [destroy_ok p; EXPECT_EQ None (fun o => objects o !! p); EXPECT_EQ 0 outstandingObjects; EXPECT_EQ 1%nat pool_size].

Fixpoint construct_many (n : nat) : M (ObjectPool unit) (list ptr) :=
  match n with O => mret [] | S n => p ← construct_ok; l ← construct_many n; mret (p :: l) end.
Definition test_ObjectPool_destroy_inOrder : M (ObjectPool unit) unit :=
  toDestroy ← construct_many 100; for_each toDestroy destroy_ok.
Definition test_ObjectPool_destroy_reverseOrder : M (ObjectPool unit) unit :=
  toDestroy ← construct_many 100; for_each (reverse toDestroy) destroy_ok.
(** The loop that looks for the next object that is left, from [i] on. *)
Fixpoint next_object (fuel i : nat) (toDestroy : list (option ptr)) : option (nat * ptr) :=
  match fuel with
  | O => None
  | S fuel =>
      match toDestroy !! i with
      | Some (Some p) => Some (i, p)
      | _ => next_object fuel ((i + 1) mod 100) toDestroy
      end
  end.
(** The results of [std::rand] are the list [draws]. *)
Fixpoint destroy_random (draws : list nat) (toDestroy : list (option ptr)) : M (ObjectPool unit) unit :=
  match draws with
  | [] => mret tt
  | d :: draws =>
      match next_object 100 (d mod 100) toDestroy with
      | Some (i, p) => _ ← destroy_ok p; destroy_random draws (<[i := None]> toDestroy)
      | None => fault BadPointer
      end
  end.
Definition test_ObjectPool_destroy_randomOrder (draws : list nat) : M (ObjectPool unit) unit :=
  toDestroy ← construct_many 100; destroy_random draws (Some <$> toDestroy).

Definition pool_tests : list (M (ObjectPool unit) unit) :=
  [test_ObjectPool_constructor; test_ObjectPool_destructor; test_ObjectPool_destructor_objectsStillAllocated;
   test_ObjectPool_construct; test_ObjectPool_destroy; test_ObjectPool_destroy_inOrder; test_ObjectPool_destroy_reverseOrder;
   test_ObjectPool_destroy_randomOrder ((fun i => (i * i * 7 + 13) mod 100)%nat <$> seq 0 100)].
Example pool_tests_pass : forallb (passes ObjectPool_new) pool_tests = true.
Proof. vm_compute. reflexivity. Qed.

(** ** The policy manager *)

Definition max_scheduled (m : Policy.Manager) : Z := Policy.maxScheduledPriority (Policy.localScheduledPolicy m).
Definition test_PolicyManager_constructor_default : M Policy.Manager unit := steps
  [modify (fun _ => Policy.Manager_new 8000 7);
   EXPECT_EQ 8000 Policy.RTT_BYTES; EXPECT_EQ 7 Policy.MAX_PRIORITY; EXPECT_EQ 3 max_scheduled].
Definition test_PolicyManager_constructor_limitedPriority : M Policy.Manager unit := steps
  [modify (fun _ => Policy.Manager_new 8000 2);
   EXPECT_EQ 8000 Policy.RTT_BYTES; EXPECT_EQ 2 Policy.MAX_PRIORITY; EXPECT_EQ 0 max_scheduled].
Definition policy_is (dest len version priority : Z) : M Policy.Manager unit :=
  policy ← Policy.getUnscheduledPolicy dest len;
  steps [same version (Policy.u_version policy);
    EXPECT_EQ (Policy.unscheduledByteLimit policy) Policy.RTT_BYTES; same priority (Policy.u_priority policy)].
Definition test_PolicyManager_getUnscheduledPolicy : M Policy.Manager unit :=
  let dest := 22 in steps
  [modify (fun _ => Policy.Manager_new 8000 7);
   policy_is dest 1 0 7;
   modify (fun m => m <| Policy.peerPolicies ::= alter (fun p => Policy.mkUnscheduledPolicy 1 2 (Policy.priorityCutoffBytes p)) dest |>);
   policy_is dest 1000 1 1;
   policy_is dest 100000 1 0].
Definition policy_tests : list (M Policy.Manager unit) :=
  [test_PolicyManager_constructor_default; test_PolicyManager_constructor_limitedPriority; test_PolicyManager_getUnscheduledPolicy].
Example policy_tests_pass : forallb (passes (Policy.Manager_new 0 0)) policy_tests = true.
Proof. vm_compute. reflexivity. Qed.

(** ** Tubs: of [Foo]s with their three numbers, and of integers *)

Abbreviation Foo := (Z * Z * Z)%type.
(** The copy constructors and assignments of other Tubs, as values. *)
Definition built {T} (m : M (Tub.Tub T) unit) : Result (Tub.Tub T) :=
  match m Tub.Tub_new with Ok (_, t) => Ok t | Error e => Error e end.
Definition assigned {T} (this other : Tub.Tub T) : Result (Tub.Tub T) :=
  match Tub.assign false other this with Ok (_, t) => Ok t | Error e => Error e end.
Definition value {T} (t : Tub.Tub T) : option T := match Tub.deref t with Ok v => Some v | Error _ => None end.

Definition test_Tub_basics : M (Tub.Tub Foo) unit := steps
  [EXPECT_FALSE Tub.operator_bool; EXPECT_EQ None Tub.get_;
   Tub.construct (1, 2, 3);
   EXPECT_TRUE Tub.operator_bool; EXPECT_EQ (Some (1, 2, 3)) Tub.get_; EXPECT_EQ (Some (1, 2, 3)) value;
   Tub.construct (5, 6, 0); EXPECT_EQ (Some (5, 6, 0)) value;
   Tub.destroy; EXPECT_EQ 0 (fun t => Tub.balance (Tub.log t))].
(** [b1] holds what was copy-constructed and nothing that was assigned to. *)
Definition test_Tub_copyAndAssign : M (Tub.Tub Foo) unit :=
  x ← lift (built (Tub.construct 5));
  y ← lift (assigned Tub.Tub_new x);
  z ← lift (built (Tub.Tub_copy y));
  _ ← same (Some 5) (value y);
  _ ← same (Some 5) (value z);
  q ← lift (built (Tub.Tub_of 5));
  _ ← same (Some 5) (value q);
  b2 ← lift (built (Tub.construct 123456789));
  b1 ← lift (assigned Tub.Tub_new b2);
  holds (match Tub.log b1 with [Tub.Constructed v] => v =? 123456789 | _ => false end).
Definition test_Tub_boolConversion : M (Tub.Tub Foo) unit := steps
  [EXPECT_FALSE Tub.operator_bool; Tub.construct (5, 0, 0); EXPECT_TRUE Tub.operator_bool].
Definition tub_tests : list (M (Tub.Tub Foo) unit) := [test_Tub_basics; test_Tub_copyAndAssign; test_Tub_boolConversion].
Example tub_tests_pass : forallb (passes Tub.Tub_new) tub_tests = true.
Proof. vm_compute. reflexivity. Qed.

(** ** The spin lock *)

Definition returns {St : Type} (b : bool) (m : M St bool) : M St unit := r ← m; same b r.
Definition test_SpinLock_lock : M SpinLock.SpinLock unit := steps
  [SpinLock.clear; SpinLock.lock 1; returns true SpinLock.test_and_set].
Definition test_SpinLock_try_lock : M SpinLock.SpinLock unit := steps
  [returns true SpinLock.try_lock; returns false SpinLock.try_lock].
Definition test_SpinLock_unlock : M SpinLock.SpinLock unit := steps
  [returns false SpinLock.test_and_set; SpinLock.unlock; returns false SpinLock.test_and_set].
Example lock_tests_pass :
  forallb (passes SpinLock.SpinLock_new) [test_SpinLock_lock; test_SpinLock_try_lock; test_SpinLock_unlock] = true.
Proof. vm_compute. reflexivity. Qed.

(** ** Strings *)

Definition newline : str := ["010"%char].
Definition tab : str := ["009"%char].
Definition abc : list (Z * str) := [(1, chars "A"); (2, chars "B"); (4, chars "C")].
Definition test_StringUtil_flags : M unit unit := steps
  [same (chars "0") (flags 0 abc); same (chars "A") (flags 1 abc); same (chars "A|B") (flags (Z.lor 2 1) abc);
   same (chars "A|B|0x8") (flags (Z.lor (Z.lor 2 1) 8) abc)].
Definition test_StringUtil_isPrintableStr : M unit unit := steps
  [holds (isPrintable_cstr []); holds (isPrintable_cstr (chars "foo")); fails (isPrintable_cstr newline)].
(** The bytes of a literal with its terminator, and how many are looked at. *)
Definition isPrintable_data (s : str) (n : nat) : bool := isPrintable (take n (s ++ ["000"%char])).
Definition test_StringUtil_isPrintableData : M unit unit := steps
  [fails (isPrintable_data [] 0); holds (isPrintable_data [] 1); holds (isPrintable_data (chars "foo") 4);
   fails (isPrintable_data (chars "foo") 3); fails (isPrintable_data newline 2)].
Definition pieces : list str := [[]; chars "abc" ++ newline; chars "def"; []; []].
Definition test_StringUtil_join : M unit unit := steps
  [same [] (join [] (chars ",")); same (chars "a") (join [chars "a"] (chars ","));
   same (chars "abc;def;ghi") (join (chars <$> ["abc"; "def"; "ghi"]%string) (chars ";"));
   same (chars ";abc" ++ newline ++ chars ";def;;") (join pieces (chars ";"))].
Definition test_StringUtil_split : M unit unit := steps
  [same (chars <$> ["abc"; "def"; "ghi"]%string) (split (chars "abc;def;ghi") ";"%char);
   same pieces (split (chars ";abc" ++ newline ++ chars ";def;;;") ";"%char)].
Definition test_StringUtil_startsWith : M unit unit := steps
  [holds (startsWith (chars "foo") (chars "foo")); holds (startsWith (chars "foo") (chars "fo")); holds (startsWith (chars "foo") []);
   holds (startsWith [] []); fails (startsWith (chars "f") (chars "foo"))].
Definition test_StringUtil_endsWith : M unit unit := steps
  [holds (endsWith (chars "foo") (chars "foo")); holds (endsWith (chars "foo") (chars "oo")); holds (endsWith (chars "foo") []);
   holds (endsWith [] []); fails (endsWith (chars "o") (chars "foo"))].
Definition test_StringUtil_trim : M unit unit := steps
  [same (chars "abc") (trim (chars "abc")); same (chars "abc") (trim (chars " abc "));
   same (chars "abc") (trim (tab ++ chars "abc" ++ newline)); same [] (trim (chars "  "))].

(** ** Code locations *)

Definition FILE : str := chars "/home/homa/src/CodeLocation.cc".
Definition foo_bar : CodeLocation.CodeLocation :=
  CodeLocation.mkCodeLocation (chars "src/FOO.cc") 42 (chars "bar") (chars "void FOO::bar(int i)").
Definition test_CodeLocation_str : M unit unit :=
  s ← lift (CodeLocation.to_str FILE foo_bar); same (chars "FOO::bar at src/FOO.cc:42") s.
Definition test_CodeLocation_baseFileName : M unit unit := same (chars "FOO.cc") (CodeLocation.baseFileName foo_bar).
Definition relative_is (file relative : String.string) : M unit unit :=
  f ← lift (CodeLocation.relativeFile FILE (CodeLocation.mkCodeLocation (chars file) 1 [] [])); same (chars relative) f.
Definition test_CodeLocation_relativeFile : M unit unit := steps
  [relative_is "/home/homa/src/CodeLocationTest.cc" "src/CodeLocationTest.cc";
   relative_is "CodeLocationTest.cc" "CodeLocationTest.cc";
   relative_is "/strange/path/to/ramcloud/src/CodeLocationTest.cc" "/strange/path/to/ramcloud/src/CodeLocationTest.cc"].
Definition qualified_is (pretty qualified : String.string) : M unit unit :=
  same (chars qualified) (CodeLocation.qualifiedFunction (CodeLocation.mkCodeLocation [] 0 (chars "func") (chars pretty))).
Definition test_CodeLocation_qualifiedFunction : M unit unit := steps
  [qualified_is "std::string func()" "func";
   qualified_is "std::string Homa::CodeLocationTest::func()" "Homa::CodeLocationTest::func";
   qualified_is "std::string Homa::CodeLocationTest::func(const Homa::CodeLocation&) const" "Homa::CodeLocationTest::func";
   qualified_is "static std::string Homa::CodeLocationTest::func(const Homa::CodeLocation&)" "Homa::CodeLocationTest::func";
   qualified_is "void Homa::func(void (*)(int))" "Homa::func";
   qualified_is "void (* Homa::func())(int)" "Homa::func";
   qualified_is "void (* Homa::func(void (*)(int)))(int)" "Homa::func";
   qualified_is "void (* (* Homa::func(void (* (*)(void (*)(int), void (*)(int)))(int), void (* (*)(void (*)(int), void (*)(int)))(int)))(void (*)(int), void (*)(int)))(int)"
     "Homa::func"].

(** ** Maps, numbers and addresses *)

Definition digits : list (Z * str) := [(1, chars "one"); (2, chars "two"); (3, chars "three")].
Definition test_STLUtil_sorted : M unit unit := steps
  [same [] (STLUtil.sorted Z.ltb []); same [1; 5; 7] (STLUtil.sorted Z.ltb [5; 1; 7])].
Definition test_STLUtil_getKeys : M unit unit := steps
  [same [] (STLUtil.getKeys (K := Z) (V := str) []); same [1; 2; 3] (STLUtil.getKeys digits)].
Definition test_STLUtil_getValues : M unit unit := steps
  [same [] (STLUtil.getValues (K := Z) (V := str) []); same (chars <$> ["one"; "two"; "three"]%string) (STLUtil.getValues digits)].
Definition test_STLUtil_getItems : M unit unit := steps
  [same [] (STLUtil.getItems (K := Z) (V := str) []); same digits (STLUtil.getItems digits)].
(** A [char] is signed. *)
Definition test_Util_downCast : M unit unit :=
  c ← Util.downCast (fun v => (v + 128) mod 256 - 128) (fun v => v) 64; same 64 c.
Definition test_Util_isPowerOfTwo : M unit unit := steps [holds (Util.isPowerOfTwo 4); fails (Util.isPowerOfTwo 3)].

Definition raw : list Z := [222; 173; 190; 239; 152; 118].
Definition mac : str := chars "de:ad:be:ef:98:76".
Definition test_MacAddress_constructorRaw : M unit unit := same mac (Address.toString (Address.of_raw raw)).
Definition test_MacAddress_constructorString : M unit unit :=
  a ← lift (Address.of_string mac); same (Some mac) (Address.toString <$> a).
(** The implicit copy constructor copies the array. *)
Definition test_MacAddress_construct_DefaultCopy : M unit unit :=
  source ← lift (Address.of_string mac);
  let dest := source in same (Some mac) (Address.toString <$> dest).
Definition test_MacAddress_isNull : M unit unit := steps
  [holds (Address.isNull (Address.of_raw [0; 0; 0; 0; 0; 0])); fails (Address.isNull (Address.of_raw raw))].

Definition value_tests : list (M unit unit) :=
  [test_StringUtil_flags; test_StringUtil_isPrintableStr; test_StringUtil_isPrintableData; test_StringUtil_join;
   test_StringUtil_split; test_StringUtil_startsWith; test_StringUtil_endsWith; test_StringUtil_trim;
   test_CodeLocation_str; test_CodeLocation_baseFileName; test_CodeLocation_relativeFile; test_CodeLocation_qualifiedFunction;
   test_STLUtil_sorted; test_STLUtil_getKeys; test_STLUtil_getValues; test_STLUtil_getItems; test_Util_downCast;
   test_Util_isPowerOfTwo; test_MacAddress_constructorRaw; test_MacAddress_constructorString;
   test_MacAddress_construct_DefaultCopy; test_MacAddress_isNull].
Example value_tests_pass : forallb (passes tt) value_tests = true.
Proof. vm_compute. reflexivity. Qed.
End UtilityTests.
