(* ===== verification/DebugTest.v ===== *)
(** * DebugTest: the tests of src/src/DebugTest.cc and src/src/ThreadIdTest.cc

    File names are literals at addresses; the stream [stderr] is 2 and [stdout] is 1.
    The tests run in the thread 0. *)

From S2P Require Import Prelude ObjectPool StringUtil Debug ThreadId LogOutput STLUtil UnitTest.
From Stdlib Require Import Ascii.
From Stdlib Require String.
Import StringUtil Debug LogOutput UnitTest.

Module DebugTest.
#[local] Open Scope Z_scope.

Definition filePrefix : str := chars "/home/homa/".
Definition DebugTest_cc : ptr := 1%positive.
Definition abc : ptr := 2%positive.
Definition literal (p : ptr) : str := if bool_decide (p = abc) then chars "abc" else chars "/home/homa/src/DebugTest.cc".
(** The fixture [DebugTest]. *)
Definition fixture : Log := mkLog State_new ThreadId.Internal_new (chars "4711") 2 None [] [].

Definition same {A} `{EqDecision A} (expected actual : A) : M Log unit := EXPECT_EQ expected (fun _ => actual).
Definition level_is (l : LogLevel) (file : str) : M Log unit :=
  p ← gets (fun s => logPolicy (debug s)); v ← lift (getLogLevel p file); same l v.
Definition set_policy (p : list (String.string * String.string)) : M Log unit :=
  debug_op (setLogPolicy ((fun r => (chars r.1, chars r.2)) <$> p)).
Definition three_rules : list (String.string * String.string) := [("prefix", "VERBOSE"); ("suffix", "ERROR"); ("", "WARNING")]%string.
Definition three_levels : M Log unit := steps
  [level_is VERBOSE (chars "prefixabcsuffix"); level_is ERROR (chars "abcsuffix"); level_is WARNING (chars "asdf")].

Definition test_logLevelToString : M Log unit := steps
  [same (chars "SILENT") (logLevelToString SILENT); same (chars "ERROR") (logLevelToString ERROR);
   same (chars "WARNING") (logLevelToString WARNING); same (chars "NOTICE") (logLevelToString NOTICE);
   same (chars "VERBOSE") (logLevelToString VERBOSE)].
Definition from_string (s : String.string) (l : LogLevel) : M Log unit := v ← lift (logLevelFromString (chars s)); same l v.
Definition test_logLevelFromString : M Log unit := steps
  [from_string "SILeNT" SILENT; from_string "ERrOR" ERROR; from_string "WARNiNG" WARNING; from_string "NOTIcE" NOTICE;
   from_string "VERBOsE" VERBOSE;
   EXPECT_DEATH Panicked (_ ← lift (logLevelFromString (chars "asdlf")); mret tt)].
Definition test_getLogLevel : M Log unit := steps
  [level_is NOTICE (literal DebugTest_cc); set_policy three_rules; three_levels].
Definition test_relativeFileName : M Log unit := steps
  [same (chars "src/DebugTest.cc") (relativeFileName filePrefix (literal DebugTest_cc));
   same (chars "/a/b/c") (relativeFileName filePrefix (chars "/a/b/c"))].
Definition logs (l : LogLevel) (b : bool) : M Log unit := r ← debug_op (isLogging literal filePrefix l abc); same b r.
Definition test_isLogging : M Log unit := steps
  [logs ERROR true; logs ERROR true; logs VERBOSE false;
   EXPECT_EQ [(abc, NOTICE)] (fun s => STLUtil.getItems (map_to_list (isLoggingCache (debug s))))].
Definition file_replaced (newFile old : Z) : M Log unit := r ← setLogFile newFile; same old r.
Definition test_setLogFile : M Log unit := steps [file_replaced 1 2; file_replaced 2 1].

(** What the handler was called with. *)
Definition messages (s : Log) : list DebugMessage := snd <$> handled s.
Definition of_message {A} (f : DebugMessage -> A) (s : Log) : option A := f <$> messages s !! 0%nat.
(** The line of the call is given; its message is formatted. *)
Definition test_setLogHandler : M Log unit :=
  _ ← setLogHandler (Some 1);
  steps [LOG literal filePrefix 0 (0, 0) ERROR DebugTest_cc 116 (chars "TestBody") (chars "Hello, world! 9");
    EXPECT_EQ 1%nat (fun s => List.length (messages s));
    EXPECT_EQ (Some (chars "src/DebugTest.cc")) (of_message filename);
    EXPECT_EQ (Some true) (of_message (fun m => 1 <? linenum m));
    EXPECT_EQ (Some (chars "TestBody")) (of_message function);
    EXPECT_EQ (Some (level_value ERROR)) (of_message logLevel);
    EXPECT_EQ (Some (chars "ERROR")) (of_message logLevelString);
    EXPECT_EQ (Some (chars "Hello, world! 9")) (of_message message)].
Definition test_setLogPolicy : M Log unit := steps [set_policy three_rules; three_levels].

Definition normalize (s : str) : Result str := p ← logPolicyFromString s; mret (logPolicyToString p).
Definition normal (s t : String.string) : M Log unit := r ← lift (normalize (chars s)); same (chars t) r.
Definition test_logPolicyFromString : M Log unit := steps
  [normal "" "NOTICE"; normal "ERROR" "ERROR"; normal "@ERROR" "ERROR";
   normal "prefix@VERBOSE,suffix@ERROR,WARNING" "prefix@VERBOSE,suffix@ERROR,WARNING";
   normal "prefix@VERBOSE,suffix@ERROR,@NOTICE" "prefix@VERBOSE,suffix@ERROR,NOTICE";
   normal "prefix@VERBOSE,suffix@ERROR,NOTICE" "prefix@VERBOSE,suffix@ERROR,NOTICE"].
Definition policy_reads (t : String.string) : M Log unit := p ← debug_op getLogPolicy; same (chars t) (logPolicyToString p).
Definition test_logPolicyToString : M Log unit := steps
  [policy_reads "NOTICE"; set_policy [("", "ERROR")]%string; policy_reads "ERROR";
   set_policy three_rules; policy_reads "prefix@VERBOSE,suffix@ERROR,WARNING";
   set_policy [("prefix", "VERBOSE"); ("suffix", "ERROR")]%string; policy_reads "prefix@VERBOSE,suffix@ERROR,NOTICE"].

(** ** Threads *)

Definition readThreadId (t : nat) (expected : Z) : M Log unit := i ← threads_op (ThreadId.getId t); same expected i.
Definition test_ThreadId_basics : M Log unit := steps
  [readThreadId 0 1; readThreadId 0 1; readThreadId 1 2; readThreadId 2 3].
Definition name_is (n : String.string) : M Log unit := r ← threads_op (ThreadId.getName 0); same (chars n) r.
Definition test_ThreadId_names : M Log unit := steps
  [name_is "thread 1"; threads_op (ThreadId.setName 0 (chars "foo")); name_is "foo";
   threads_op (ThreadId.setName 0 (chars "bar")); name_is "bar"; threads_op (ThreadId.setName 0 []); name_is "thread 1"].

Definition tests : list (M Log unit) :=
  [test_logLevelToString; test_logLevelFromString; test_getLogLevel; test_relativeFileName; test_isLogging; test_setLogFile;
   test_setLogHandler; test_setLogPolicy; test_logPolicyFromString; test_logPolicyToString; test_ThreadId_basics;
   test_ThreadId_names].
Example debug_tests_pass : forallb (passes fixture) tests = true.
Proof. vm_compute. reflexivity. Qed.
End DebugTest.
