(* ===== verification/DriverTests.v ===== *)
(** * DriverTests: the tests of src/src/Drivers/Fake/FakeDriverTest.cc and
    src/src/Drivers/Util/QueueEstimatorTest.cc

    The network has no losses, as in the tests; the NIC of the i-th driver is at the
    address i, and the clock of the fake driver stands still. *)

From S2P Require Import Prelude ObjectPool Driver SenderMessage Float QueueEstimator FakeDriver UnitTest.
From Stdlib Require Import SpecFloat.
Import Driver Float FakeDriver UnitTest.
Import QueueEstimator(QueueEstimator, QueueEstimator_new).

Module DriverTests.
#[local] Open Scope Z_scope.

Definition same {A} `{EqDecision A} (expected actual : A) : M FakeNetwork unit := EXPECT_EQ expected (fun _ => actual).
Definition send (d : FakeDriver) (k : Packet) (destination : IpAddress) (prio : Z) : M FakeNetwork unit :=
  sendPacket 0 zero d k destination prio.
(** How many packets each of the eight queues of [d] holds. *)
Definition queue_sizes (d : FakeDriver) (l : list nat) : M FakeNetwork unit :=
  EXPECT_EQ (Some l) (fun n => map (fun q => List.length q) <$> nics n !! nic d).

(** [FakeDriver()] lives to the end of the expression; the next one has the next
    address. *)
Definition next_address : M FakeNetwork FakeDriver :=
  temporary ← FakeDriver_new 0 1%positive;
  _ ← FakeDriver_destroy temporary;
  driver ← FakeDriver_new 0 2%positive;
  _ ← same (localAddressId temporary + 1) (getLocalAddress driver);
  mret driver.
Definition test_FakeDriver_constructor : M FakeNetwork unit := _ ← next_address; mret tt.
Definition test_FakeDriver_getLocalAddress : M FakeNetwork unit := _ ← next_address; mret tt.
Definition test_FakeDriver_allocPacket : M FakeNetwork unit :=
  _ ← FakeDriver_new 0 1%positive;
  packet ← allocPacket;
  delete_packet (pkt_id packet).

Definition test_FakeDriver_sendPackets : M FakeNetwork unit :=
  driver1 ← FakeDriver_new 0 1%positive;
  driver2 ← FakeDriver_new 0 2%positive;
  let dst := getLocalAddress driver2 in
  p0 ← allocPacket; p1 ← allocPacket; p2 ← allocPacket; p3 ← allocPacket;
  steps [queue_sizes driver2 [0; 0; 0; 0; 0; 0; 0; 0]%nat;
    send driver1 p0 dst 0;
    queue_sizes driver2 [1; 0; 0; 0; 0; 0; 0; 0]%nat;
    EXPECT_EQ (Some (getLocalAddress driver1)) (fun n =>
      queues ← nics n !! nic driver2; q ← queues !! 0%nat; sourceIp <$> head q);
    send driver1 p0 dst 0; send driver1 p1 dst 1; send driver1 p2 42 2; send driver1 p3 dst 3;
    queue_sizes driver2 [2; 1; 0; 1; 0; 0; 0; 0]%nat;
    delete_packet (pkt_id p2)].

(** [driver.nic.priorityQueue.at(i).push_back(new FakePacket)]. *)
Definition push_packet (d : FakeDriver) (i : nat) : M FakeNetwork unit :=
  k ← allocPacket;
  modify (fun n => n <| nics ::= alter (alter (fun q => q ++ [mkFakePacket k 0]) i) (nic d) |>).
(** [receivePackets] returns [n] packets, which are released. *)
Definition receive (d : FakeDriver) (maxPackets n : Z) : M FakeNetwork unit :=
  l ← receivePackets d maxPackets;
  _ ← same n (zlength l);
  releasePackets (base <$> l).
Definition test_FakeDriver_receivePackets : M FakeNetwork unit :=
  driver ← FakeDriver_new 0 1%positive;
  steps [for_each [7; 7; 7; 5; 5; 5; 4; 2]%nat (push_packet driver);
    queue_sizes driver [0; 0; 1; 0; 1; 3; 0; 3]%nat;
    receive driver 4 4; queue_sizes driver [0; 0; 1; 0; 1; 2; 0; 0]%nat;
    receive driver 1 1; queue_sizes driver [0; 0; 1; 0; 1; 1; 0; 0]%nat;
    push_packet driver 7; queue_sizes driver [0; 0; 1; 0; 1; 1; 0; 1]%nat;
    receive driver 1 1; queue_sizes driver [0; 0; 1; 0; 1; 1; 0; 0]%nat;
    receive driver 4 3].
Definition test_FakeDriver_getHighestPacketPriority : M FakeNetwork unit := same 7 getHighestPacketPriority.
Definition test_FakeDriver_getMaxPayloadSize : M FakeNetwork unit := same MAX_PAYLOAD_SIZE getMaxPayloadSize.
Definition test_FakeDriver_getBandwidth : M FakeNetwork unit := same 10000 getBandwidth.

Definition fake_driver_tests : list (M FakeNetwork unit) :=
  [test_FakeDriver_constructor; test_FakeDriver_allocPacket; test_FakeDriver_sendPackets; test_FakeDriver_receivePackets;
   test_FakeDriver_getHighestPacketPriority; test_FakeDriver_getMaxPayloadSize; test_FakeDriver_getBandwidth;
   test_FakeDriver_getLocalAddress].
Example fake_driver_tests_pass : forallb (passes FakeNetwork_new) fake_driver_tests = true.
Proof. vm_compute. reflexivity. Qed.

(** ** The queue estimator: the reading of the mock clock is an argument *)

Definition queued_is (now bytes : Z) : M QueueEstimator unit :=
  n ← QueueEstimator.getQueuedBytes now;
  steps [EXPECT_EQ bytes (fun _ => n); EXPECT_EQ bytes QueueEstimator.queuedBytes].
Definition test_QueueEstimator_getQueuedBytes : M QueueEstimator unit := steps
  [EXPECT_TRUE (fun q => SFeqb (QueueEstimator.bandwidth q) (of_Z 1000000));
   QueueEstimator.signalBytesSent 1000000 1000; EXPECT_EQ 1000 QueueEstimator.queuedBytes;
   queued_is 1050000 950;
   QueueEstimator.signalBytesSent 1500000 1000; EXPECT_EQ 1500 QueueEstimator.queuedBytes;
   queued_is 30000000 0].
Example estimator_tests_pass : passes (QueueEstimator_new 0 8) test_QueueEstimator_getQueuedBytes = true.
Proof. vm_compute. reflexivity. Qed.
End DriverTests.
